(* ===== verification/_CoqProject ===== *)
-Q . S2P
Prelude.v
RustString.v
RustFmt.v
CoreTypes.v
CoreHeaders.v
CoreEnvelope.v
CoreFmt.v
CoreSerde.v
NatsSubject.v
OutboxTypes.v
OutboxRetry.v
OutboxSettings.v
OutboxRouting.v
OutboxSerde.v
MemStore.v
MemStoreInv.v
MemStoreSpec.v
MemStoreThms.v
StoreInterface.v
Dispatcher.v
OutboxFmt.v
DispatcherInv.v
DispatcherSys.v
DispatcherReplay.v
DispatcherThms.v
DispatcherLiveness.v
TestSupport.v
Metrics.v
Fleet.v
Divergences.v
NatsMapper.v
NatsRoundtrip.v
NatsSettings.v
NatsPublisher.v
NatsFmt.v
PgErrors.v
PgRecords.v
PgRoundtrip.v
EndToEnd.v
PgTable.v
PgStore.v
PgTableInv.v
PgStoreInv.v
PgStoreThms.v
PgFmt.v
PgDispatcher.v
PgSim.v
PgRefine.v
DeadLetters.v
PgPurge.v
PgRetention.v
PgNothingLost.v
PgFleet.v
PgEnqueue.v
PgDivergences.v
