(* ===== verification/Prelude.v ===== *)
(** * Reliar: a transactional outbox, verified

    [reliar] writes messages into an outbox table in the transaction that changes the
    business data, and a dispatcher later publishes them to a broker, at least once.  This
    library models its crates under [src/crates] and proves what they promise.  It follows
    the code file by file; a definition carries the name of the function it translates,
    with a comment [src: crate/file lines symbol] above it.

    ** The program's parts

    - [reliar-core]: identifiers, message types, content types, headers and the envelope a
      message travels in, with the [Publisher] trait a transport implements.
    - [reliar-outbox]: records and retry decisions; the settings and their environment
      variables; the policy that routes a message to the outbox or straight to the broker;
      the [OutboxStore] trait; an in-memory store; and the dispatcher, a [select!] loop that
      claims rows under a lease, publishes each in a task, writes the outcomes back, renews
      leases, and drains on shutdown.
    - [reliar-transport-nats]: the envelope on the wire and the publisher over JetStream.
    - [reliar-store-postgres]: the store over Postgres, and staging in the caller's
      transaction.

    An application stages through a [ScopedOutboxPublisher] or [enqueue]; the dispatcher
    calls a store through the class [OutboxStore] and a publisher through [Publisher]; the
    two stores and the publishers are instances, so the dispatcher's theorems hold for each.

    ** The files: foundations and [reliar-core]

    - [Prelude]: results with [let?], machine integers as [Z] with their saturation written
      out, [Duration]s in nanoseconds, timestamps with the range of the time crate as a
      parameter, a stable sort, counting of multisets, the [rust] hint databases.
    - [RustString], [RustFmt]: UTF-8 and the string functions the code calls (trim, split,
      parse); [str]'s escapes, the [debug_struct] family of [core::fmt], and errors with the
      chain of their [source]s.
    - [CoreTypes], [CoreHeaders], [CoreEnvelope]: ids.rs, content_type.rs, message.rs,
      failure.rs, settings.rs; headers.rs; metadata.rs, envelope.rs, publisher.rs, mapper.rs.
      Parsers accept exactly the documented language and bounds; a header map never holds a
      reserved name; the builder roots a conversation; the default [publish_batch] is
      positional.
    - [CoreFmt]: every [Display] and [Debug], and the JSON serializer.  No payload and no
      header value can be printed.
    - [CoreSerde]: the serde of the metadata, which survives a round trip and any missing or
      unknown field.

    ** [reliar-outbox]

    - [OutboxTypes], [OutboxRetry], [OutboxSettings], [OutboxRouting]: record.rs, store.rs,
      error.rs, ordering.rs, worker.rs; retry.rs on binary64 floats; settings.rs with
      [from_env]; policy.rs, staging.rs, publisher.rs.  Truncation respects UTF-8
      boundaries; the backoff ends; settings built are accepted; a batch is split without
      loss or reordering.
    - [OutboxSerde], [OutboxFmt]: the serde of the settings, whole or in part; what errors,
      settings and rows print, with the shortest decimal of an [f64].
    - [MemStore], [MemStoreInv], [MemStoreSpec], [MemStoreThms]: test_support/store.rs.  A
      store is the record [Inner] behind its mutex; each operation is a function
      [Inner -> Inner * outcome (result ..)], where [None] is a panic of the clock
      arithmetic that keeps the mutations made before it.  [inv] is the row invariant, [op]
      an operation, [edge] the transitions one operation can make a row take.  The theorems:
      every operation keeps the invariant and moves each row along the life cycle; [acquire]
      claims exactly the oldest due rows and no others; [complete] marks exactly the rows
      the worker holds; a live lease protects its row from everybody else; [stats] counts
      what [acquire] would claim.
    - [StoreInterface]: the trait as the class [OutboxStore] over a world [W]; a call is
      answered or its time budget elapses.  [OutboxStoreLaws] is what clients rely on; the
      in-memory store is an instance.
    - [Dispatcher]: dispatcher.rs.  [Loop] is the local state of [run] and its tasks; [step]
      is an iteration of the [select!], a step of a publish task, the token being
      cancelled, or the world moving on.  [DispatcherInv] and [DispatcherSys] hold the
      invariant, [DispatcherReplay] ties the log to what happened to the store, and
      [DispatcherThms] the properties, for every store, clock, retry policy and schedule:
      rows are conserved; what is written is true; the claim gate; the lease tick renews
      exactly what is held; shutdown terminates and settles every row; errors end the run,
      or do not, as documented; outcome writes are paced; [build] accepts exactly the
      documented settings.  [DispatcherLiveness]: a held row always has a step to take, and
      the steps that settle rows cannot go on for ever.
    - [Fleet]: any number of dispatchers, applications and housekeeping on one in-memory
      store; what the table says of a message happened, and no message is lost.
    - [TestSupport], [Metrics]: metrics.rs and the fakes of test_support; the counters the
      dispatcher reports reconcile with the rows it holds.
    - [Divergences]: runs of the model that contradict a sentence of the docs.

    ** [reliar-transport-nats]

    - [NatsSubject], [NatsSettings]: subject.rs, settings.rs.  [NatsMapper],
      [NatsRoundtrip]: headers.rs, mapper.rs; [encode] accepts exactly the encodable
      envelopes and [decode] reads them back, up to three documented normalisations.
    - [NatsPublisher]: publisher.rs; [Ok] is reported only for a message the stream holds, and
      a pipelined batch answers position by position.
    - [NatsFmt]: error.rs; no error shows a payload or a header value.

    ** [reliar-store-postgres]

    - [PgErrors]: error.rs, settings.rs, migrate.rs.  [PgFmt]: their texts and serde; no text
      shows a payload.
    - [PgRecords], [PgRoundtrip]: records.rs; a staged row decodes to its envelope.
    - [PgTable], [PgTableInv]: each SQL statement as a function of the table, and the
      invariant they keep.
    - [PgStore], [PgStoreInv], [PgStoreThms]: the operations of store.rs over a schedule of
      round trips; leased rows are pending and a live lease protects its row under every
      schedule; [acquire] claims and poisons exactly the due rows.
    - [PgSim], [PgRefine]: undisturbed, the operations refine those of the in-memory store
      through [decode_row].
    - [PgRetention]: whatever the schedule, a message stays, unchanged, until its retention is
      over.  [PgPurge]: repeating [purge] ends, and leaves nothing that was due.
      [DeadLetters]: the pages of [list_dead], of both stores, cover the dead rows once.
    - [PgEnqueue]: [enqueue], [stage] and [connect] on the caller's session; they are atomic
      and leave its [search_path] as it was.
    - [PgDispatcher], [PgNothingLost]: the dispatcher on this store; what the table says is
      true, and until its retention is over a message is there to say it.
    - [PgFleet]: any number of dispatchers, an application, purges and operators on one
      database, interleaved at every round trip; the same two theorems, where all that is
      known of the others is the statements they send.
    - [EndToEnd]: from the application to the subscriber; the decoders of both boundaries make
      only valid envelopes, and what is staged is what a subscriber receives.
    - [PgDivergences]: runs that contradict the docs.

    ** Modelling choices

    Nothing of the code needs fuel but the printing of floats (seventeen digits) and of
    hexadecimal (six); the loops of a caller of [list_dead] and [purge] have fuel that the
    theorems show to be enough.  Every other loop of the code is structural on a list or bounded by its input, and the
    dispatcher's unbounded loop is a step relation, whose shutdown is bounded by the measure
    [remaining].  A future dropped by [select!] is modelled by how far it got ([progress]): a
    call it sent may have taken effect, unanswered.  The flags tasks share with the loop are
    read through [seen], any relaxed observation of them.  A [HashMap]'s iteration order is
    that of [map_to_list]; theorems speak of permutations.  The tickers may fire at any time.
    The instants of the loop are those of the world.

    A Postgres operation is a sequence of round trips.  For each, the schedule says when it
    runs, what other transactions have committed by then - which reaches the committed table
    and the open transaction's view of it - which rows they hold locked, and whether it is
    cut off before or after the database acted.  A statement acts atomically once it has its
    locks.  What Postgres leaves open (which rows an unordered [LIMIT] keeps, the order of
    [RETURNING], the row a join picks, interval arithmetic) is the class [Postgres] with its
    laws; how a [search_path] resolves is a parameter.  Where a theorem needs other
    transactions to behave, it says how ([adds_truth], [sent], [interleaved], [fair]).

    Third-party code is a class with its documented behaviour as laws, and an instance of
    it for the witnesses: [serde_json], [uuid] and [time] texts ([PgTypes], [SerdeText],
    [SerdeJson], [DebugLib]), [async_nats] ([NatsLib], [JetStream]), [sqlx]'s migrator
    ([MigrateLib]) and error texts ([PgTexts]), the Unicode tables ([Unicode]).

    ** What is not modelled

    Tracing, connection pooling, the embedded migration scripts (their constraints are those
    of [PgTable]), derived [Clone]s, the derived [Debug] of requests and of the recording fakes, examples and tests.  A
    [usize] counter is taken not to overflow.  [Semaphore::new] panics above a bound no
    setting checks; the model's permits are a plain count. *)

From Stdlib Require Export ZArith Lia.
From Stdlib Require Import Ascii.
From stdpp Require Import pretty.
From stdpp Require Export base option gmap strings sorting list.

Open Scope Z_scope.

(** ** Machine integers

    Every Rust integer is a [Z]; the width is written out where the code can
    reach it. *)

Definition U16_MAX : Z := 65535.
Definition U32_MAX : Z := 4294967295.
Definition U64_MAX : Z := 18446744073709551615.
Definition I64_MIN : Z := -9223372036854775808.
Definition I64_MAX : Z := 9223372036854775807.

(** [u32::saturating_add] and [u32::saturating_pow]. *)
Definition u32_saturating_add (a b : Z) : Z := Z.min (a + b) U32_MAX.
Definition u32_saturating_pow (a e : Z) : Z := Z.min (a ^ e) U32_MAX.

(** ** Results

    [Result<T, E>], with the [?] operator as [let?]. *)

Inductive result (A E : Type) : Type :=
  | Ok (a : A)
  | Err (e : E).
Arguments Ok {A E} _.
Arguments Err {A E} _.

Declare Scope rust_scope.
Delimit Scope rust_scope with rust.
Open Scope rust_scope.

Definition result_bind {A B E} (m : result A E) (k : A → result B E) : result B E :=
  match m with Ok a => k a | Err e => Err e end.

Notation "'let?' x ':=' m 'in' k" := (result_bind m (λ x, k))
  (at level 10, x pattern, m at level 100, k at level 200)
  : rust_scope.

Definition map_err {A E F} (f : E → F) (m : result A E) : result A F :=
  match m with Ok a => Ok a | Err e => Err (f e) end.

Definition is_ok {A E} (m : result A E) : bool :=
  match m with Ok _ => true | Err _ => false end.

(** [Option<Result<T, E>>::transpose] after [Option::map]. *)
Definition option_traverse {A B E} (f : A → result B E) (o : option A)
  : result (option B) E :=
  match o with
  | None => Ok None
  | Some a => let? b := f a in Ok (Some b)
  end.

Lemma result_bind_Ok {A B E} (m : result A E) (k : A → result B E) b :
  result_bind m k = Ok b ↔ ∃ a, m = Ok a ∧ k a = Ok b.
Proof. destruct m; simpl; naive_solver. Qed.

Lemma result_bind_Err {A B E} (m : result A E) (k : A → result B E) e :
  result_bind m k = Err e ↔ m = Err e ∨ ∃ a, m = Ok a ∧ k a = Err e.
Proof. destruct m; simpl; naive_solver. Qed.

Lemma map_err_Ok {A E F} (f : E → F) (m : result A E) a :
  map_err f m = Ok a ↔ m = Ok a.
Proof. destruct m; simpl; naive_solver. Qed.

Lemma map_err_Err {A E F} (f : E → F) (m : result A E) e' :
  map_err f m = Err e' ↔ ∃ e, m = Err e ∧ e' = f e.
Proof. destruct m; simpl; naive_solver. Qed.

Lemma option_traverse_Err {A B E} (f : A → result B E) (o : option A) e :
  option_traverse f o = Err e ↔ ∃ a, o = Some a ∧ f a = Err e.
Proof.
  destruct o as [a|]; simpl; [|naive_solver]. rewrite result_bind_Err. naive_solver.
Qed.

Lemma option_traverse_Ok {A B E} (f : A → result B E) (o : option A) o' :
  option_traverse f o = Ok o' ↔
  match o, o' with
  | None, None => True
  | Some a, Some b => f a = Ok b
  | _, _ => False
  end.
Proof.
  destruct o as [a|]; simpl; [|destruct o'; naive_solver].
  rewrite result_bind_Ok. destruct o'; naive_solver.
Qed.

(** The computation succeeds. *)
Definition is_Ok {A E} (m : result A E) : Prop := ∃ a, m = Ok a.

Lemma is_Ok_bind {A B E} (m : result A E) (k : A → result B E) :
  is_Ok (result_bind m k) ↔ ∃ a, m = Ok a ∧ is_Ok (k a).
Proof.
  unfold is_Ok. split.
  - intros (b & (a & Ha & Hb)%result_bind_Ok). eauto.
  - intros (a & -> & b & Hb). by exists b.
Qed.

Lemma not_is_Ok_Err {A E} (e : E) : ¬ is_Ok (Err (A:=A) e).
Proof. by intros [a [=]]. Qed.

Global Instance result_eq_dec {A E} `{EqDecision A, EqDecision E} :
  EqDecision (result A E).
Proof. solve_decision. Defined.

(** ** Durations

    [std::time::Duration] as a number of nanoseconds, at most
    [Duration::MAX] (a [u64] of seconds and fewer than 10^9 nanoseconds). *)

Abbreviation Duration := Z (only parsing).

Definition NANOS_PER_SEC : Z := 1000000000.
Definition DURATION_MAX : Duration := U64_MAX * NANOS_PER_SEC + 999999999.
Definition from_secs (s : Z) : Duration := s * NANOS_PER_SEC.
Definition from_millis (ms : Z) : Duration := ms * 1000000.
Definition as_millis (d : Duration) : Z := d / 1000000.
Definition is_zero (d : Duration) : bool := d =? 0.

(** [Duration::saturating_mul] by a [u32]; [Duration / u32] truncates. *)
Definition duration_saturating_mul (d : Duration) (n : Z) : Duration :=
  Z.min (d * n) DURATION_MAX.

Definition valid_duration (d : Duration) : Prop := 0 ≤ d ≤ DURATION_MAX.

(** ** Timestamps

    [time::OffsetDateTime] is a type of a third-party crate: an instant, here
    the number of nanoseconds since the Unix epoch.  Its documented range (it
    depends on the crate's [large-dates] feature) is a parameter, and its
    documented [Add]/[Sub] panic outside it ([None]). *)

Abbreviation OffsetDateTime := Z (only parsing).
Definition UNIX_EPOCH : OffsetDateTime := 0.

Class TimeRange := {
  odt_min : Z;
  odt_max : Z;
  odt_range : odt_min ≤ UNIX_EPOCH ≤ odt_max;
}.

(** The crate's default range, years -9999 to 9999, to the nanosecond. *)
Program Definition default_time_range : TimeRange :=
  {| odt_min := -377705116800 * NANOS_PER_SEC;
     odt_max := 253402300799 * NANOS_PER_SEC + 999999999 |}.
Next Obligation. split; vm_compute; discriminate. Qed.

Section time.
Context `{TimeRange}.

Definition odt_valid (t : Z) : Prop := odt_min ≤ t ≤ odt_max.

Definition odt_checked (t : Z) : option OffsetDateTime :=
  if bool_decide (odt_min ≤ t ∧ t ≤ odt_max) then Some t else None.

Definition odt_add (t : OffsetDateTime) (d : Duration) : option OffsetDateTime :=
  odt_checked (t + d).

Definition odt_sub (t : OffsetDateTime) (d : Duration) : option OffsetDateTime :=
  odt_checked (t - d).

Lemma odt_checked_Some t u : odt_checked t = Some u ↔ u = t ∧ odt_valid t.
Proof. unfold odt_checked, odt_valid. case_bool_decide; naive_solver. Qed.
End time.

(** ** Panics

    A computation that mutates a shared store and may panic keeps the
    mutations made before the panic: [None] is the panic. *)

Definition outcome (A : Type) : Type := option A.

(** ** Lists *)

(** [slice::sort_by_key]: a stable sort, here by insertion. *)
Fixpoint insert_sorted {A} (leb : A → A → bool) (x : A) (l : list A) : list A :=
  match l with
  | [] => [x]
  | y :: l' => if leb x y then x :: l else y :: insert_sorted leb x l'
  end.
Definition sort_by {A} (leb : A → A → bool) (l : list A) : list A :=
  foldr (insert_sorted leb) [] l.

Section sort_by.
Context {A : Type} (leb : A → A → bool).
Context (Htotal : ∀ x y, leb x y = false → leb y x = true).
Context (Htrans : ∀ x y z, leb x y = true → leb y z = true → leb x z = true).

Lemma insert_sorted_perm x l : insert_sorted leb x l ≡ₚ x :: l.
Proof.
  induction l as [|y l IH]; simpl; [done|]. destruct (leb x y); [done|].
  rewrite IH. apply Permutation_swap.
Qed.

Lemma sort_by_perm l : sort_by leb l ≡ₚ l.
Proof.
  induction l as [|x l IH]; [done|]. unfold sort_by in *. simpl.
  by rewrite insert_sorted_perm, IH.
Qed.

Lemma insert_sorted_sorted x l :
  StronglySorted (λ a b, leb a b = true) l →
  StronglySorted (λ a b, leb a b = true) (insert_sorted leb x l).
Proof.
  induction 1 as [|y l Hl IH Hy]; simpl; [repeat constructor|].
  destruct (leb x y) eqn:E.
  - constructor; [by constructor|]. constructor; [done|].
    eapply Forall_impl; [exact Hy|]. intros z Hz. by eapply Htrans.
  - constructor; [done|]. rewrite insert_sorted_perm. constructor; [by apply Htotal|done].
Qed.

Lemma sort_by_sorted l : StronglySorted (λ a b, leb a b = true) (sort_by leb l).
Proof.
  induction l as [|x l IH]; unfold sort_by in *; simpl; [constructor|].
  by apply insert_sorted_sorted.
Qed.
End sort_by.

Lemma sublist_Forall {A} (P : A → Prop) (l l' : list A) :
  sublist l' l → Forall P l → Forall P l'.
Proof.
  induction 1; [done|intros [??]%Forall_cons_1; constructor; auto|
    intros [??]%Forall_cons_1; auto].
Qed.

Lemma sublist_StronglySorted {A} (R : A → A → Prop) (l l' : list A) :
  sublist l' l → StronglySorted R l → StronglySorted R l'.
Proof.
  induction 1; [done|..]; intros [Hf Hs]%StronglySorted_cons.
  - apply StronglySorted_cons. split; [by eapply sublist_Forall|auto].
  - auto.
Qed.

(** The first [n] in order, of those that qualify. *)
Lemma sorted_prefix {A} (leb : A → A → bool) (P : A → bool) (n : nat) (l : list A) :
  (∀ x y, leb x y = false → leb y x = true) →
  (∀ x y z, leb x y = true → leb y z = true → leb x z = true) →
  let c := take n (sort_by leb (filter (λ x, P x = true) l)) in
  (∀ x, x ∈ c → x ∈ l ∧ P x = true)
  ∧ StronglySorted (λ a b, leb a b = true) c
  ∧ (length c ≤ n)%nat
  ∧ (∀ x, x ∈ l → P x = true → x ∉ c → length c = n ∧ ∀ y, y ∈ c → leb y x = true).
Proof.
  intros Htotal Htrans. cbn zeta. set (s := sort_by leb _).
  assert (Hp : s ≡ₚ filter (λ x, P x = true) l) by apply sort_by_perm.
  assert (Hs : StronglySorted (λ a b, leb a b = true) s) by by apply sort_by_sorted.
  split_and!.
  - intros x Hx%(sublist_subseteq _ _ (sublist_take _ _)). rewrite Hp in Hx.
    apply list_elem_of_filter in Hx as [? ?]. done.
  - eapply sublist_StronglySorted; [apply sublist_take|done].
  - rewrite length_take. lia.
  - intros x Hx HP Hn.
    assert (Hin : x ∈ s) by (rewrite Hp; by apply list_elem_of_filter).
    rewrite <-(take_drop n s) in Hin, Hs. apply elem_of_app in Hin as [Hin|Hin]; [done|].
    apply StronglySorted_app in Hs as (Hs & _). split; [|by intros y Hy; apply Hs].
    rewrite length_take, Nat.min_l; [done|].
    apply list_elem_of_lookup in Hin as [k Hk]. apply lookup_lt_Some in Hk.
    rewrite length_drop in Hk. lia.
Qed.

Lemma StronglySorted_fmap {A B} (f : A → B) (R : B → B → Prop) (l : list A) :
  StronglySorted (λ a b, R (f a) (f b)) l → StronglySorted R (f <$> l).
Proof.
  induction 1 as [|a l Hl IH Ha]; cbn; constructor; [done|]. apply Forall_fmap. exact Ha.
Qed.

(** A list sorted by an order in which no two of its elements are equivalent is
    determined by its elements. *)
Lemma sorted_perm_eq {A} (R : A → A → Prop) (l1 l2 : list A) :
  (∀ x y, x ∈ l1 → y ∈ l1 → R x y → R y x → x = y) →
  StronglySorted R l1 → StronglySorted R l2 → l1 ≡ₚ l2 → l1 = l2.
Proof.
  intros Hanti Hs1. revert l2 Hanti.
  induction Hs1 as [|x l1 Hs1 IH Hx]; intros l2 Hanti Hs2 Hp.
  - by apply Permutation_nil in Hp.
  - destruct Hs2 as [|y l2 Hs2 Hy]; [by apply symmetry, Permutation_nil_cons in Hp|].
    assert (x = y) as <-.
    { assert (x ∈ y :: l2) as [->|Hxy]%elem_of_cons by (rewrite <-Hp; left); [done|].
      assert (y ∈ x :: l1) as [->|Hyx]%elem_of_cons by (rewrite Hp; left); [done|].
      rewrite Forall_forall in Hx, Hy. apply Hanti; [by left|by right|auto..]. }
    f_equal. apply IH; [|done|by apply Permutation_cons_inv in Hp].
    intros ?????. apply Hanti; by try right.
Qed.

Lemma insert_list_to_map_union k v l (m : gmap string string) :
  k ∉ l.*1 → list_to_map l ∪ <[k := v]> m = list_to_map ((k, v) :: l) ∪ m.
Proof.
  intros Hk. cbn. rewrite <-insert_union_l. symmetry. apply insert_union_r.
  by apply not_elem_of_list_to_map_1.
Qed.

Lemma sublist_fmap {A B} (f : A → B) (l l' : list A) : sublist l' l → sublist (f <$> l') (f <$> l).
Proof. induction 1; cbn; by constructor. Qed.

Lemma NoDup_fmap_eq {A B} (f : A → B) (l : list A) x y :
  NoDup (f <$> l) → x ∈ l → y ∈ l → f x = f y → x = y.
Proof.
  induction l as [|a l IH]; cbn; [by intros _ ?%elem_of_nil|].
  intros [Hn Hnd]%NoDup_cons [->|Hx]%elem_of_cons [->|Hy]%elem_of_cons Heq; auto.
  - destruct Hn. rewrite Heq. by apply list_elem_of_fmap_2.
  - destruct Hn. rewrite <-Heq. by apply list_elem_of_fmap_2.
Qed.

(** Keys compared as pairs, as [Ord] on tuples does. *)
Definition pair_leb (a b : Z * Z) : bool :=
  (a.1 <? b.1) || ((a.1 =? b.1) && (a.2 <=? b.2)).
Lemma pair_leb_spec a b :
  pair_leb a b = true ↔ a.1 < b.1 ∨ (a.1 = b.1 ∧ a.2 ≤ b.2).
Proof. unfold pair_leb. rewrite orb_true_iff, andb_true_iff. lia. Qed.
Lemma pair_leb_total a b : pair_leb a b = false → pair_leb b a = true.
Proof.
  intros H. rewrite pair_leb_spec. destruct (pair_leb a b) eqn:E; [done|].
  assert (¬ (a.1 < b.1 ∨ (a.1 = b.1 ∧ a.2 ≤ b.2))) by (rewrite <-pair_leb_spec; by rewrite E).
  lia.
Qed.
Lemma pair_leb_trans a b c :
  pair_leb a b = true → pair_leb b c = true → pair_leb a c = true.
Proof. rewrite !pair_leb_spec. lia. Qed.

(** ** Finite maps *)

Lemma map_to_list_union `{Countable K} {A} (m1 m2 : gmap K A) :
  m1 ##ₘ m2 → map_to_list (m1 ∪ m2) ≡ₚ map_to_list m1 ++ map_to_list m2.
Proof.
  induction m1 as [|i x m1 Hi IH] using map_ind; intros Hd.
  - by rewrite (left_id_L ∅ (∪)), map_to_list_empty.
  - apply map_disjoint_insert_l in Hd as [Hi2 Hd].
    rewrite <-insert_union_l, !map_to_list_insert, IH; [done..|].
    by apply lookup_union_None.
Qed.

(** ** Multisets

    Permutations of concatenations, decided by counting occurrences. *)

Lemma perm_count `{EqDecision A} (l1 l2 : list A) :
  l1 ≡ₚ l2 ↔ ∀ x, count_occ (decide_rel (=)) l1 x = count_occ (decide_rel (=)) l2 x.
Proof. apply Permutation_count_occ. Qed.

Ltac perm_lia :=
  let x := fresh "x" in
  apply perm_count; intros x;
  repeat match goal with
    | H : ?a ≡ₚ ?b |- _ =>
        let H' := fresh in
        pose proof (proj1 (perm_count a b) H x) as H'; clear H; rename H' into H
    end;
  rewrite ?count_occ_app, ?fmap_app in *;
  repeat (progress (rewrite ?count_occ_app in *; cbn [count_occ] in *));
  repeat case_match; lia.

(** ** Automation

    [rust] rewrites the success of a fallible computation into that of its parts. *)

Create Rewrite HintDb rust.
#[export] Hint Rewrite @result_bind_Ok @map_err_Ok @option_traverse_Ok @odt_checked_Some : rust.
Create HintDb rust.
#[export] Hint Resolve insert_sorted_perm sort_by_perm : rust.
