(* ===== verification/RustString.v ===== *)
(** * Rust strings

    A Rust [String]/[&str] is modelled by its UTF-8 bytes, a [string] of the
    standard library (one [ascii] per byte).  This file holds the operations of
    [str]/[String] that the crates call, with the facts about UTF-8 the
    components share: decoding undoes encoding, and cutting valid UTF-8 at a
    character boundary leaves valid UTF-8.  Everything here is Rust's standard
    library; the components map to the repository. *)

From Stdlib Require Import Ascii.
From stdpp Require Import pretty.
From S2P Require Import Prelude.

Implicit Types s t : string.

(** ** Bytes *)

Definition byte_val (a : ascii) : Z := Z.of_N (N_of_ascii a).
Definition byte_of (z : Z) : ascii := ascii_of_N (Z.to_N z).

(** [str::len]: the length in bytes. *)
Definition len s : Z := Z.of_nat (String.length s).
Definition is_empty s : bool := match s with EmptyString => true | _ => false end.

(** [str::as_bytes]. *)
Fixpoint as_bytes s : list Z :=
  match s with
  | EmptyString => []
  | String a s' => byte_val a :: as_bytes s'
  end.

(** [&s[..n]] and [&s[n..]], on byte offsets. *)
Fixpoint str_take (n : nat) s : string :=
  match n, s with
  | S n', String a s' => String a (str_take n' s')
  | _, _ => EmptyString
  end.
Fixpoint str_drop (n : nat) s : string :=
  match n, s with
  | S n', String _ s' => str_drop n' s'
  | _, _ => s
  end.

Lemma byte_val_of z : 0 ≤ z < 256 → byte_val (byte_of z) = z.
Proof.
  intros. unfold byte_val, byte_of.
  rewrite N_ascii_embedding by (change 256%N with (Z.to_N 256); lia). lia.
Qed.

Lemma byte_val_range a : 0 ≤ byte_val a < 256.
Proof.
  unfold byte_val. pose proof (N_ascii_bounded a) as H.
  change 256%N with (Z.to_N 256) in H. lia.
Qed.

Lemma len_nonneg s : 0 ≤ len s.
Proof. unfold len. lia. Qed.

Lemma length_append s t :
  String.length (s +:+ t) = (String.length s + String.length t)%nat.
Proof. induction s; simpl; [done|]. f_equal. apply IHs. Qed.

Lemma len_append s t : len (s +:+ t) = len s + len t.
Proof. unfold len. rewrite length_append. lia. Qed.

Lemma append_cons a s t : String a s +:+ t = String a (s +:+ t).
Proof. done. Qed.

Lemma append_nil_l s : "" +:+ s = s.
Proof. done. Qed.

Lemma append_nil_r s : s +:+ "" = s.
Proof. induction s; simpl; [done|]. change (String a (s +:+ "") = String a s). by rewrite IHs. Qed.

Lemma append_assoc s1 s2 s3 : s1 +:+ s2 +:+ s3 = (s1 +:+ s2) +:+ s3.
Proof.
  induction s1 as [|a s1 IH]; [done|].
  change (String a (s1 +:+ (s2 +:+ s3)) = String a ((s1 +:+ s2) +:+ s3)). by rewrite IH.
Qed.

Lemma length_str_take n s :
  String.length (str_take n s) = Nat.min n (String.length s).
Proof. revert s; induction n; intros [|a s]; simpl; auto. Qed.

Lemma take_drop_append n s : str_take n s +:+ str_drop n s = s.
Proof.
  revert s; induction n as [|n IH]; intros [|a s]; try done.
  simpl. change (String a (str_take n s +:+ str_drop n s) = String a s). by rewrite IH.
Qed.

Lemma str_take_append s t : str_take (String.length s) (s +:+ t) = s.
Proof.
  induction s as [|a s IH]; [by destruct t|].
  change (String a (str_take (String.length s) (s +:+ t)) = String a s). by rewrite IH.
Qed.

(** ** UTF-8 *)

(** A Unicode scalar value (Rust's [char]). *)
Definition valid_char (c : Z) : Prop := 0 ≤ c < 55296 ∨ 57343 < c < 1114112.

Global Instance valid_char_dec c : Decision (valid_char c).
Proof. unfold valid_char. apply _. Defined.

(** [char::encode_utf8]. *)
Definition utf8_char (c : Z) : string :=
  if c <? 128 then String (byte_of c) ""
  else if c <? 2048 then
    String (byte_of (192 + c / 64)) (String (byte_of (128 + c mod 64)) "")
  else if c <? 65536 then
    String (byte_of (224 + c / 4096))
      (String (byte_of (128 + c / 64 mod 64)) (String (byte_of (128 + c mod 64)) ""))
  else
    String (byte_of (240 + c / 262144)) (String (byte_of (128 + c / 4096 mod 64))
      (String (byte_of (128 + c / 64 mod 64)) (String (byte_of (128 + c mod 64)) ""))).

Fixpoint utf8 (cs : list Z) : string :=
  match cs with
  | [] => EmptyString
  | c :: cs' => utf8_char c +:+ utf8 cs'
  end.

(** [str::chars]: decoding of the leading byte as [core::str::next_code_point]
    does it on a valid string. *)
Fixpoint chars s : list Z :=
  match s with
  | EmptyString => []
  | String a s1 =>
      let b0 := byte_val a in
      if b0 <? 128 then b0 :: chars s1
      else
        match s1 with
        | EmptyString => []
        | String a1 s2 =>
            let b1 := byte_val a1 - 128 in
            if b0 <? 224 then ((b0 - 192) * 64 + b1) :: chars s2
            else
              match s2 with
              | EmptyString => []
              | String a2 s3 =>
                  let b2 := byte_val a2 - 128 in
                  if b0 <? 240 then ((b0 - 224) * 4096 + b1 * 64 + b2) :: chars s3
                  else
                    match s3 with
                    | EmptyString => []
                    | String a3 s4 =>
                        let b3 := byte_val a3 - 128 in
                        ((b0 - 240) * 262144 + b1 * 4096 + b2 * 64 + b3) :: chars s4
                    end
              end
        end
  end.

(** What every Rust string satisfies. *)
Definition valid_utf8 s : Prop := ∃ cs, Forall valid_char cs ∧ s = utf8 cs.

(** Closed strings are checked by evaluation. *)
Ltac closed_utf8 :=
  match goal with
  | |- valid_utf8 ?s =>
      exists (chars s); split; [refine (bool_decide_unpack _ _); vm_compute; exact I|
                                vm_compute; reflexivity]
  end.

Ltac div_mod_bounds c k :=
  pose proof (Z.div_mod c k ltac:(lia)); pose proof (Z.mod_pos_bound c k ltac:(lia)).

Lemma chars_utf8_char c s : valid_char c → chars (utf8_char c +:+ s) = c :: chars s.
Proof.
  intros Hc. unfold utf8_char, valid_char in *.
  div_mod_bounds c 64. div_mod_bounds (c / 64) 64. div_mod_bounds (c / 4096) 64.
  assert (c / 64 / 64 = c / 4096) by (rewrite Z.div_div by lia; done).
  assert (c / 4096 / 64 = c / 262144) by (rewrite Z.div_div by lia; done).
  destruct (Z.ltb_spec c 128); [|destruct (Z.ltb_spec c 2048);
    [|destruct (Z.ltb_spec c 65536)]];
    rewrite ?append_cons, ?append_nil_l;
    cbn -[Z.ltb Z.mul Z.add Z.sub]; rewrite ?byte_val_of by lia;
    repeat (first [rewrite (proj2 (Z.ltb_lt _ _)) by lia
                  |rewrite (proj2 (Z.ltb_ge _ _)) by lia]); f_equal; lia.
Qed.

Lemma chars_utf8 cs : Forall valid_char cs → chars (utf8 cs) = cs.
Proof.
  induction 1 as [|c cs Hc _ IH]; [done|].
  cbn [utf8]. rewrite chars_utf8_char by done. by rewrite IH.
Qed.

Lemma valid_utf8_nil : valid_utf8 "".
Proof. by exists []. Qed.

Lemma utf8_app cs cs' : utf8 (cs ++ cs') = utf8 cs +:+ utf8 cs'.
Proof.
  induction cs as [|c cs IH]; [done|]. cbn [utf8 app]. by rewrite IH, append_assoc.
Qed.

Lemma valid_utf8_append s t : valid_utf8 s → valid_utf8 t → valid_utf8 (s +:+ t).
Proof.
  intros (cs & Hcs & ->) (cs' & Hcs' & ->). exists (cs ++ cs').
  split; [by apply Forall_app|]. by rewrite utf8_app.
Qed.

(** [str::is_char_boundary]: the start, the end, or a byte that is not a
    UTF-8 continuation byte; [false] past the end. *)
Definition is_continuation (a : ascii) : bool :=
  (128 <=? byte_val a) && (byte_val a <? 192).

Fixpoint byte_starts_char (n : nat) s : bool :=
  match n, s with
  | O, EmptyString => true
  | O, String a _ => negb (is_continuation a)
  | S n', String _ s' => byte_starts_char n' s'
  | S _, EmptyString => false
  end.

Definition is_char_boundary (n : nat) s : bool :=
  match n with O => true | _ => byte_starts_char n s end.

Lemma is_continuation_of z : 0 ≤ z < 256 →
  is_continuation (byte_of z) = ((128 <=? z) && (z <? 192)).
Proof. intros. unfold is_continuation. by rewrite byte_val_of. Qed.

(** Skipping one encoded character: the offsets strictly inside it are not
    boundaries. *)
Lemma boundary_char_step c s n : valid_char c →
  is_char_boundary (S n) (utf8_char c +:+ s) = true →
  ∃ m, S n = (String.length (utf8_char c) + m)%nat ∧ byte_starts_char m s = true.
Proof.
  intros Hc. unfold utf8_char, valid_char, is_char_boundary in *.
  div_mod_bounds c 64. div_mod_bounds (c / 64) 64. div_mod_bounds (c / 4096) 64.
  assert (c / 64 / 64 = c / 4096) by (rewrite Z.div_div by lia; done).
  assert (c / 4096 / 64 = c / 262144) by (rewrite Z.div_div by lia; done).
  assert (Hk : ∀ z, 0 ≤ z < 64 → negb (is_continuation (byte_of (128 + z))) = false).
  { intros z Hz. rewrite is_continuation_of by lia.
    by rewrite (proj2 (Z.leb_le _ _)), (proj2 (Z.ltb_lt _ _)) by lia. }
  destruct (Z.ltb_spec c 128); [|destruct (Z.ltb_spec c 2048);
    [|destruct (Z.ltb_spec c 65536)]];
    rewrite ?append_cons, ?append_nil_l; cbn [byte_starts_char String.length].
  - intros; by exists n.
  - destruct n as [|n]; cbn [byte_starts_char]; rewrite ?Hk by lia; try done.
    intros; by exists n.
  - destruct n as [|[|n]]; cbn [byte_starts_char]; rewrite ?Hk by lia; try done.
    intros; by exists n.
  - destruct n as [|[|[|n]]]; cbn [byte_starts_char]; rewrite ?Hk by lia; try done.
    intros; by exists n.
Qed.

Lemma str_take_app_length n s t :
  str_take (String.length s + n) (s +:+ t) = s +:+ str_take n t.
Proof.
  induction s as [|a s IH]; [done|].
  change (String a (str_take (String.length s + n) (s +:+ t))
          = String a (s +:+ str_take n t)). by rewrite IH.
Qed.

(** Cutting valid UTF-8 at a character boundary leaves valid UTF-8. *)
Lemma valid_utf8_take s n :
  valid_utf8 s → is_char_boundary n s = true → valid_utf8 (str_take n s).
Proof.
  intros (cs & Hcs & ->). revert n.
  induction Hcs as [|c cs Hc Hcs IH]; intros n Hn.
  { destruct n; simpl; apply valid_utf8_nil. }
  destruct n as [|n]; [apply valid_utf8_nil|].
  cbn [utf8] in *. destruct (boundary_char_step _ _ _ Hc Hn) as (m & -> & Hm).
  rewrite str_take_app_length. apply valid_utf8_append.
  - exists [c]. split; [by constructor|]. cbn [utf8]. by rewrite append_nil_r.
  - apply IH. by destruct m.
Qed.

(** ** Characters *)

(** [char::is_control]: Unicode category Cc. *)
Definition is_control (c : Z) : bool := (c <=? 31) || ((127 <=? c) && (c <=? 159)).

(** [char::is_whitespace]: the White_Space property. *)
Definition is_whitespace (c : Z) : bool :=
  ((9 <=? c) && (c <=? 13)) || (c =? 32) || (c =? 133) || (c =? 160) || (c =? 5760)
  || ((8192 <=? c) && (c <=? 8202)) || (c =? 8232) || (c =? 8233) || (c =? 8239)
  || (c =? 8287) || (c =? 12288).

Fixpoint drop_while {A} (p : A → bool) (l : list A) : list A :=
  match l with [] => [] | x :: l' => if p x then drop_while p l' else l end.

(** [str::trim]. *)
Definition trim s : string :=
  utf8 (reverse (drop_while is_whitespace
    (reverse (drop_while is_whitespace (chars s))))).

(** Trimming twice is trimming once. *)
Section drop_while.
Context {A : Type} (p : A → bool).
Implicit Types l : list A.

Lemma drop_while_idemp l : drop_while p (drop_while p l) = drop_while p l.
Proof. induction l as [|x l IH]; [done|]. cbn. destruct (p x) eqn:E; [done|]. cbn. by rewrite E. Qed.

Lemma drop_while_suffix l : ∃ k, l = k ++ drop_while p l.
Proof.
  induction l as [|x l [k IH]]; [by exists []|]. cbn. destruct (p x); [|by exists []].
  exists (x :: k). cbn. by rewrite <-IH.
Qed.

(** Stripping the end keeps the beginning stripped. *)
Lemma drop_while_both l :
  let m := reverse (drop_while p (reverse (drop_while p l))) in drop_while p m = m.
Proof.
  set (a := drop_while p l). destruct (drop_while_suffix (reverse a)) as [k Hk].
  cbv zeta. set (b := drop_while p (reverse a)) in *.
  assert (Ha : a = reverse b ++ reverse k).
  { rewrite <-reverse_app, <-Hk. by rewrite reverse_involutive. }
  destruct (reverse b) as [|x m]; [done|]. cbn.
  pose proof (drop_while_idemp l) as Hi. fold a in Hi. rewrite Ha in Hi. cbn in Hi.
  destruct (p x); [|done]. exfalso.
  destruct (drop_while_suffix (m ++ reverse k)) as [k' Hk']. rewrite Hi in Hk'.
  apply (f_equal length) in Hk'. rewrite !length_app in Hk'. cbn in Hk'. rewrite length_app in Hk'. lia.
Qed.
End drop_while.

Lemma Forall_drop_while {A} (P : A → Prop) p l : Forall P l → Forall P (drop_while p l).
Proof. induction 1 as [|x l Hx Hl IH]; cbn; [done|]. destruct (p x); [done|]. by constructor. Qed.

Lemma trim_trim s : valid_utf8 s → trim (trim s) = trim s.
Proof.
  intros (cs & Hcs & ->). unfold trim. rewrite (chars_utf8 cs) by done.
  assert (Hv : Forall valid_char (reverse (drop_while is_whitespace
            (reverse (drop_while is_whitespace cs))))).
  { by apply Forall_reverse, Forall_drop_while, Forall_reverse, Forall_drop_while. }
  rewrite chars_utf8 by done. pose proof (drop_while_both is_whitespace cs) as Hb. cbv zeta in Hb.
  by rewrite Hb, reverse_involutive, drop_while_idemp.
Qed.

(** [u8::is_ascii_digit], [u8::is_ascii_alphabetic], [char::is_ascii_alphanumeric]. *)
Definition is_ascii_digit (b : Z) : bool := (48 <=? b) && (b <=? 57).
Definition is_ascii_alphabetic (b : Z) : bool :=
  ((65 <=? b) && (b <=? 90)) || ((97 <=? b) && (b <=? 122)).
Definition is_ascii_alphanumeric (b : Z) : bool :=
  is_ascii_digit b || is_ascii_alphabetic b.

(** [u8::to_ascii_lowercase], [str::to_ascii_lowercase],
    [eq_ignore_ascii_case]. *)
Definition byte_lower (a : ascii) : ascii :=
  if (65 <=? byte_val a) && (byte_val a <=? 90) then byte_of (byte_val a + 32) else a.
Fixpoint to_ascii_lowercase s : string :=
  match s with
  | EmptyString => EmptyString
  | String a s' => String (byte_lower a) (to_ascii_lowercase s')
  end.
Definition eq_ignore_ascii_case s t : bool :=
  bool_decide (to_ascii_lowercase s = to_ascii_lowercase t).

Lemma length_to_ascii_lowercase s :
  String.length (to_ascii_lowercase s) = String.length s.
Proof. induction s; simpl; auto. Qed.

(** ** Splitting *)

(** [str::split_once] on a one-byte pattern. *)
Fixpoint split_once (sep : ascii) s : option (string * string) :=
  match s with
  | EmptyString => None
  | String a s' =>
      if bool_decide (a = sep) then Some (EmptyString, s')
      else match split_once sep s' with
           | Some (l, r) => Some (String a l, r)
           | None => None
           end
  end.

(** [str::split] on a one-byte pattern: always at least one piece. *)
Fixpoint split (sep : ascii) s : list string :=
  match s with
  | EmptyString => [EmptyString]
  | String a s' =>
      if bool_decide (a = sep) then EmptyString :: split sep s'
      else match split sep s' with
           | p :: ps => String a p :: ps
           | [] => [String a EmptyString]
           end
  end.

(** [str::rsplit_once] on the two-byte pattern [p q]: the last occurrence. *)
Fixpoint rsplit_once2 (p q : ascii) s : option (string * string) :=
  match s with
  | EmptyString => None
  | String a s' =>
      match rsplit_once2 p q s' with
      | Some (l, r) => Some (String a l, r)
      | None =>
          match s' with
          | String b s'' =>
              if bool_decide (a = p ∧ b = q) then Some (EmptyString, s'') else None
          | EmptyString => None
          end
      end
  end.

(** The pieces of a comma-separated (or dotted) string put together again. *)
Fixpoint join (sep : ascii) (ps : list string) : string :=
  match ps with
  | [] => EmptyString
  | [p] => p
  | p :: ps' => p +:+ String sep (join sep ps')
  end.

Lemma split_nonempty sep s : split sep s ≠ [].
Proof.
  destruct s; simpl; [done|]. case_bool_decide; [done|]. by destruct (split sep s).
Qed.

Lemma join_split sep s : join sep (split sep s) = s.
Proof.
  induction s as [|a s IH]; [done|]. simpl. case_bool_decide as Ha.
  - subst a. pose proof (split_nonempty sep s).
    destruct (split sep s) as [|p ps] eqn:E; [done|].
    change (EmptyString +:+ String sep (join sep (p :: ps)) = String sep s).
    by rewrite IH.
  - pose proof (split_nonempty sep s).
    destruct (split sep s) as [|p [|q ps]] eqn:E; [done|by rewrite <-IH|].
    cbn [join] in *. by rewrite append_cons, IH.
Qed.

Lemma split_once_Some sep s l r :
  split_once sep s = Some (l, r) → s = l +:+ String sep r.
Proof.
  revert l r; induction s as [|a s IH]; intros l r; simpl; [done|].
  case_bool_decide; [intros [= <- <-]; by subst|].
  destruct (split_once sep s) as [[l' r']|]; [|done]. intros [= <- <-].
  by rewrite (IH _ _ eq_refl), append_cons.
Qed.

Lemma rsplit_once2_Some p q s l r :
  rsplit_once2 p q s = Some (l, r) → s = l +:+ String p (String q r).
Proof.
  revert l r; induction s as [|a s IH]; intros l r; simpl; [done|].
  destruct (rsplit_once2 p q s) as [[l' r']|].
  - intros [= <- <-]. by rewrite (IH _ _ eq_refl), append_cons.
  - destruct s as [|b s]; [done|]. case_bool_decide as Hab; [|done].
    destruct Hab as [-> ->]. by intros [= <- <-].
Qed.

(** ** Numbers *)

(** [Display] of an unsigned integer. *)
Definition display_uint (z : Z) : string := pretty (Z.to_N z).

(** The decimal digits of [str::parse::<uN>]: an optional [+], then one or more
    digits, refused when the value exceeds [max]. *)
Fixpoint digits_value (acc : Z) (bs : list Z) : option Z :=
  match bs with
  | [] => Some acc
  | b :: bs' => if is_ascii_digit b then digits_value (acc * 10 + (b - 48)) bs' else None
  end.

Definition parse_uint (max : Z) s : option Z :=
  let bs := as_bytes s in
  let bs := match bs with
            | b :: d :: ds => if b =? 43 then d :: ds else bs
            | _ => bs
            end in
  match bs with
  | [] => None
  | _ => match digits_value 0 bs with
         | Some v => if v <=? max then Some v else None
         | None => None
         end
  end.

Lemma digits_value_nonneg acc bs z : 0 ≤ acc → digits_value acc bs = Some z → 0 ≤ z.
Proof.
  revert acc; induction bs as [|b bs IH]; intros acc Ha; cbn; [by intros [= <-]|].
  unfold is_ascii_digit. destruct (_ && _) eqn:Hb; [|done]. apply IH. lia.
Qed.

Lemma parse_uint_range max s z : parse_uint max s = Some z → 0 ≤ z ≤ max.
Proof.
  unfold parse_uint. cbv zeta. set (bs := match as_bytes s with b :: d :: ds => _ | _ => _ end).
  destruct bs; [done|]. destruct (digits_value _ _) as [v|] eqn:Ev; [|done].
  destruct (Z.leb_spec v max); [|done]. intros [= <-]. split; [by eapply digits_value_nonneg|done].
Qed.

(** Printing a number prints digits, and parsing reads the number back. *)
Definition digit_string s : Prop := Forall (λ b, is_ascii_digit b = true) (as_bytes s).

Lemma pretty_char_digit (n : N) : (n < 10)%N →
  byte_val (pretty_N_char n) = 48 + Z.of_N n.
Proof.
  intros Hn. assert (n = 0 ∨ n = 1 ∨ n = 2 ∨ n = 3 ∨ n = 4 ∨ n = 5 ∨ n = 6 ∨ n = 7
    ∨ n = 8 ∨ n = 9)%N as H by lia.
  by repeat destruct H as [->|H]; [..|subst].
Qed.

Lemma is_ascii_digit_spec b : is_ascii_digit b = true ↔ 48 ≤ b ≤ 57.
Proof. unfold is_ascii_digit. rewrite andb_true_iff, !Z.leb_le. lia. Qed.

Lemma pretty_go_digits n s : digit_string s → digit_string (pretty_N_go n s).
Proof.
  revert s. induction (N.lt_wf_0 n) as [n _ IH]; intros s Hs.
  destruct (decide (n = 0%N)) as [->|Hn]; [by rewrite pretty_N_go_0|].
  rewrite pretty_N_go_step by lia. apply IH; [apply N.div_lt; lia|].
  constructor; [|done].
  rewrite pretty_char_digit by (apply N.mod_lt; lia).
  apply is_ascii_digit_spec. pose proof (N.mod_lt n 10%N ltac:(lia)) as Hm.
  revert Hm. generalize (n mod 10)%N. lia.
Qed.

Lemma display_uint_digits z : digit_string (display_uint z).
Proof.
  unfold display_uint, pretty, pretty_N. case_decide; [by repeat constructor|].
  apply pretty_go_digits. constructor.
Qed.

Lemma pretty_go_nonempty n s : (0 < n)%N ∨ s ≠ "" → pretty_N_go n s ≠ "".
Proof.
  revert s. induction (N.lt_wf_0 n) as [n _ IH]; intros s Hs.
  destruct (decide (n = 0%N)) as [->|Hn]; [rewrite pretty_N_go_0; destruct Hs; [lia|done]|].
  rewrite pretty_N_go_step by lia. apply IH; [apply N.div_lt; lia|]. by right.
Qed.

Lemma display_uint_nonempty z : display_uint z ≠ "".
Proof.
  unfold display_uint, pretty, pretty_N. case_decide; [done|].
  apply pretty_go_nonempty. lia.
Qed.

Lemma digits_value_go n s :
  digits_value 0 (as_bytes (pretty_N_go n s)) = digits_value (Z.of_N n) (as_bytes s).
Proof.
  revert s. induction (N.lt_wf_0 n) as [n _ IH]; intros s.
  destruct (decide (n = 0%N)) as [->|Hn]; [by rewrite pretty_N_go_0|].
  rewrite pretty_N_go_step by lia. rewrite IH by (apply N.div_lt; lia).
  cbn [as_bytes digits_value]. rewrite pretty_char_digit by (apply N.mod_lt; lia).
  pose proof (N.mod_lt n 10%N ltac:(lia)) as Hm.
  pose proof (N.div_mod n 10%N ltac:(lia)) as Hdm.
  revert Hm Hdm. generalize (n mod 10)%N, (n `div` 10)%N. intros r q Hm Hdm.
  rewrite (proj2 (is_ascii_digit_spec _)) by lia. f_equal. lia.
Qed.

Lemma digits_value_display z : 0 ≤ z →
  digits_value 0 (as_bytes (display_uint z)) = Some z.
Proof.
  intros Hz. unfold display_uint, pretty, pretty_N. case_decide as H0.
  { assert (z = 0) as -> by lia. done. }
  rewrite digits_value_go. cbn [as_bytes digits_value]. f_equal. lia.
Qed.

Lemma parse_display_uint max z : 0 ≤ z ≤ max → parse_uint max (display_uint z) = Some z.
Proof.
  intros Hz. unfold parse_uint.
  pose proof (display_uint_digits z) as Hd. unfold digit_string in Hd.
  pose proof (digits_value_display z ltac:(lia)) as Hv.
  pose proof (display_uint_nonempty z) as Hne.
  destruct (display_uint z) as [|a s] eqn:E; [done|]. cbn [as_bytes] in *.
  apply Forall_cons_1 in Hd as [Ha _]. apply is_ascii_digit_spec in Ha.
  assert ((byte_val a =? 43) = false) as -> by (apply Z.eqb_neq; lia).
  destruct (as_bytes s); rewrite Hv; by rewrite (proj2 (Z.leb_le _ _)) by lia.
Qed.

Lemma display_uint_inj (y z : Z) : 0 ≤ y → 0 ≤ z → display_uint y = display_uint z → y = z.
Proof.
  intros Hy Hz Heq. pose proof (digits_value_display y Hy) as H.
  rewrite Heq, digits_value_display in H by done. by injection H.
Qed.

(** A string with no byte [q] keeps the last [pq] in front of it. *)
Lemma rsplit_once2_app p q l r :
  byte_val q ∉ as_bytes r → p ≠ q →
  rsplit_once2 p q (l +:+ String p (String q r)) = Some (l, r).
Proof.
  intros Hr Hpq.
  assert (Hnone : ∀ t, byte_val q ∉ as_bytes t → rsplit_once2 p q t = None).
  { clear. induction t as [|a t IH]; [done|]. cbn [as_bytes rsplit_once2].
    intros [_ Ht]%not_elem_of_cons. rewrite IH by done. destruct t as [|b t]; [done|].
    case_bool_decide as Hab; [|done]. destruct Hab as [_ ->].
    cbn in Ht. by apply not_elem_of_cons in Ht as [? _]. }
  induction l as [|a l IH].
  - rewrite append_nil_l. cbn [rsplit_once2]. rewrite Hnone by done.
    destruct r as [|b r]; [by rewrite bool_decide_true|].
    rewrite (bool_decide_false (q = p ∧ b = q)) by naive_solver.
    by rewrite bool_decide_true.
  - rewrite append_cons. cbn [rsplit_once2]. by rewrite IH.
Qed.

Example parse_uint_examples :
  parse_uint U16_MAX "65535" = Some 65535 ∧ parse_uint U16_MAX "65536" = None
  ∧ parse_uint U16_MAX "+7" = Some 7 ∧ parse_uint U16_MAX "" = None
  ∧ parse_uint U16_MAX "+" = None ∧ parse_uint U16_MAX "1x" = None
  ∧ trim (utf8 [32; 160; 97; 32; 98; 10]) = "a b".
Proof. repeat split; vm_compute; reflexivity. Qed.

(** ** [Debug] of a [Duration]

    The largest unit that is not zero, its fraction without trailing zeros. *)

Fixpoint frac_digits (fuel : nat) (frac divisor : Z) : string :=
  match fuel with
  | O => ""
  | S fuel =>
      if frac =? 0 then ""
      else display_uint (frac / divisor) +:+ frac_digits fuel (frac mod divisor) (divisor / 10)
  end.

Definition fmt_decimal (integer frac divisor : Z) (suffix : string) : string :=
  display_uint integer
  +:+ (if frac =? 0 then "" else "." +:+ frac_digits 9 frac divisor) +:+ suffix.

Definition duration_debug (d : Duration) : string :=
  let secs := d / NANOS_PER_SEC in
  let nanos := d mod NANOS_PER_SEC in
  if 0 <? secs then fmt_decimal secs nanos 100000000 "s"
  else if 1000000 <=? nanos then fmt_decimal (nanos / 1000000) (nanos mod 1000000) 100000 "ms"
  else if 1000 <=? nanos then fmt_decimal (nanos / 1000) (nanos mod 1000) 100 "µs"
  else fmt_decimal nanos 0 1 "ns".

Example duration_debug_examples :
  duration_debug (from_secs 10) = "10s" ∧ duration_debug (from_millis 1500) = "1.5s"
  ∧ duration_debug 2000000001 = "2.000000001s" ∧ duration_debug 100050000 = "100.05ms"
  ∧ duration_debug 1000 = "1µs" ∧ duration_debug 0 = "0ns".
Proof. vm_compute. repeat split. Qed.

(** ** A text of integers

    Binary numerals with a sign, for the concrete instances of the classes of third-party
    codecs. *)

Fixpoint pos_text (p : positive) : string :=
  match p with
  | xH => ""
  | xO p => String "0"%char (pos_text p)
  | xI p => String "1"%char (pos_text p)
  end.
Fixpoint pos_read (s : string) : positive :=
  match s with
  | EmptyString => xH
  | String a s => if bool_decide (a = "1"%char) then xI (pos_read s) else xO (pos_read s)
  end.
Definition z_text (z : Z) : string :=
  match z with
  | Z0 => "z"
  | Zpos p => String "p"%char (pos_text p)
  | Zneg p => String "n"%char (pos_text p)
  end.
Definition z_read (s : string) : option Z :=
  match s with
  | String a s => Some (if bool_decide (a = "z"%char) then 0
                        else if bool_decide (a = "p"%char) then Zpos (pos_read s)
                        else Zneg (pos_read s))
  | EmptyString => None
  end.

Lemma pos_read_text p : pos_read (pos_text p) = p.
Proof. induction p as [p IH|p IH|]; cbn; [by rewrite IH..|done]. Qed.

Lemma z_read_text z : z_read (z_text z) = Some z.
Proof. destruct z; cbn; by rewrite ?pos_read_text. Qed.
