(* ===== verification/RustFmt.v ===== *)
(** * Formatting ([core::fmt])

    What the [Display] and [Debug] implementations of the crates build on: [str]'s [Debug] with
    its escapes, the [debug_struct], [debug_map] and [debug_list] builders of the one-line
    [{:?}] form, and [Option]'s and the integers' own; and [std::error::Error], an error being
    its text and its [source].  The two Unicode tables [char::escape_debug]
    consults above ASCII are a class; everything the theorems use holds for any tables. *)

From Stdlib Require Import Ascii.
From S2P Require Import Prelude RustString.

(** [Grapheme_Extend] and [is_printable], above ASCII. *)
Class Unicode := {
  grapheme_extended : Z → bool;
  printable : Z → bool;
}.

Definition QUOTE : string := String (byte_of 34) "".

(** ** Characters *)

Definition hex_digit (n : Z) : string :=
  String (byte_of (if n <? 10 then 48 + n else 87 + n)) "".

(** Lower-case hexadecimal without leading zeros; a [char] has at most six digits. *)
Fixpoint hex_go (fuel : nat) (n : Z) : string :=
  match fuel with
  | O => ""
  | S fuel => (if n <? 16 then "" else hex_go fuel (n / 16)) +:+ hex_digit (n mod 16)
  end.
Definition hex (n : Z) : string := hex_go 6 n.

(** [char::escape_debug_ext], as [str]'s [Debug] calls it: single quotes are left. *)
Definition escape_debug `{Unicode} (c : Z) : string :=
  let unicode := "\u{" +:+ hex c +:+ "}" in
  if c =? 0 then "\0"
  else if c =? 9 then "\t"
  else if c =? 10 then "\n"
  else if c =? 13 then "\r"
  else if c =? 34 then "\" +:+ QUOTE
  else if c =? 92 then "\\"
  else if c <? 128 then if (32 <=? c) && (c <? 127) then utf8_char c else unicode
  else if grapheme_extended c then unicode
  else if printable c then utf8_char c
  else unicode.

(** ** Builders *)

(** The texts with a separator between them. *)
Fixpoint joined_with (sep : string) (l : list string) : string :=
  match l with
  | [] => ""
  | [x] => x
  | x :: l => x +:+ sep +:+ joined_with sep l
  end.

Section debug.
Context `{Unicode}.

(** [<str as Debug>::fmt]. *)
Definition str_debug (s : string) : string :=
  QUOTE +:+ joined_with "" (escape_debug <$> chars s) +:+ QUOTE.

Definition option_debug {A} (debug : A → string) (o : option A) : string :=
  match o with Some a => "Some(" +:+ debug a +:+ ")" | None => "None" end.

(** [debug_struct(name).field(..)...finish()], and [finish_non_exhaustive]. *)
Definition debug_fields (fields : list (string * string)) : string :=
  joined_with ", " ((λ '(name, text), name +:+ ": " +:+ text) <$> fields).
Definition debug_struct (name : string) (fields : list (string * string)) : string :=
  match fields with
  | [] => name
  | _ => name +:+ " { " +:+ debug_fields fields +:+ " }"
  end.
Definition debug_struct_open (name : string) (fields : list (string * string)) : string :=
  match fields with
  | [] => name +:+ " { .. }"
  | _ => name +:+ " { " +:+ debug_fields fields +:+ ", .. }"
  end.

(** A tuple struct of one field. *)
Definition debug_newtype (name text : string) : string := name +:+ "(" +:+ text +:+ ")".

Definition debug_list {A} (debug : A → string) (l : list A) : string :=
  "[" +:+ joined_with ", " (debug <$> l) +:+ "]".
Definition debug_map {A B} (dk : A → string) (dv : B → string) (l : list (A * B)) : string :=
  "{" +:+ joined_with ", " ((λ '(k, v), dk k +:+ ": " +:+ dv v) <$> l) +:+ "}".
End debug.

(** ** Errors *)

(** [&dyn std::error::Error]: a text, and the error that caused it. *)
Inductive dyn_error := Dyn (text : string) (source : option dyn_error).

(** [std::error::Error], with the [Display] it requires. *)
Class Error (E : Type) := {
  error_display : E → string;
  error_source : E → option dyn_error;
}.
Definition as_dyn `{Error E} (e : E) : dyn_error := Dyn (error_display e) (error_source e).

(** The texts a reporter prints that follows [source] to the end. *)
Fixpoint chain (e : dyn_error) : list string :=
  let '(Dyn text source) := e in
  text :: match source with Some e => chain e | None => [] end.

(** ** Facts *)

Lemma joined_with_length sep (l : list string) n :
  Forall (λ s, String.length s ≤ n)%nat l →
  (String.length (joined_with sep l) ≤ length l * (n + String.length sep))%nat.
Proof.
  induction 1 as [|s l Hs Hl IH]; [cbn; lia|].
  destruct l as [|s' l]; [cbn [joined_with length]; lia|]. change (joined_with sep (s :: s' :: l)) with
    (s +:+ sep +:+ joined_with sep (s' :: l)).
  rewrite !length_append. cbn [length] in *. lia.
Qed.

Lemma hex_go_length fuel n : (String.length (hex_go fuel n) ≤ fuel)%nat.
Proof.
  revert n; induction fuel as [|fuel IH]; intros n; [done|]. cbn [hex_go].
  rewrite length_append. destruct (n <? 16); cbn; [lia|]. specialize (IH (n / 16)). lia.
Qed.

(** A character takes at most ten bytes: [\u{10ffff}]. *)
Lemma escape_debug_length `{Unicode} c : (String.length (escape_debug c) ≤ 10)%nat.
Proof.
  assert (Hu : (String.length (utf8_char c) ≤ 4)%nat).
  { unfold utf8_char. repeat case_match; cbn; lia. }
  assert (Hx : (String.length ("\u{" +:+ hex c +:+ "}") ≤ 10)%nat).
  { rewrite !length_append. pose proof (hex_go_length 6 c) as Hh. unfold hex.
    generalize dependent (hex_go 6 c). intros h Hh. cbn. lia. }
  unfold escape_debug. cbv zeta. generalize dependent ("\u{" +:+ hex c +:+ "}").
  generalize dependent (utf8_char c). intros u Hu x Hx.
  repeat case_match; first [lia|vm_compute; lia].
Qed.

Lemma str_debug_length `{Unicode} s :
  (String.length (str_debug s) ≤ 2 + 10 * length (chars s))%nat.
Proof.
  unfold str_debug. rewrite !length_append. change (String.length QUOTE) with 1%nat.
  assert (Hl : Forall (λ x, String.length x ≤ 10)%nat (escape_debug <$> chars s)).
  { apply Forall_fmap, Forall_true. intros c. apply escape_debug_length. }
  apply (joined_with_length "") in Hl. rewrite length_fmap in Hl. cbn [String.length] in Hl. lia.
Qed.

(** Latin text is shown as it is. *)
Definition latin : Unicode := {| grapheme_extended _ := false; printable c := 160 <? c |}.

Example str_debug_examples :
  str_debug (H := latin) "x-api-key" = QUOTE +:+ "x-api-key" +:+ QUOTE
  ∧ str_debug (H := latin) (String (byte_of 27) "a\") = QUOTE +:+ "\u{1b}a\\" +:+ QUOTE
  ∧ str_debug (H := latin) "é" = QUOTE +:+ "é" +:+ QUOTE.
Proof. split_and!; vm_compute; reflexivity. Qed.
