(* ===== verification/CoreTypes.v ===== *)
(** * Identity and content types ([reliar-core])

    [crates/reliar-core/src/ids.rs], [content_type.rs], [message.rs],
    [failure.rs], [settings.rs] and the [EndpointAddress] of [metadata.rs]: one
    [Module] per Rust type, its associated functions under their own names.
    Comments [src: file lines] name the code a definition translates. *)

From Stdlib Require Import Ascii.
From stdpp Require Import pretty.
From S2P Require Import Prelude RustString.

(** ** Failure classification *)

(* src: core/failure.rs 13-20 FailureKind *)
Inductive FailureKind := Transient | Permanent.
Global Instance FailureKind_eq_dec : EqDecision FailureKind.
Proof. solve_decision. Defined.

(** The interface every store and publisher error implements. *)
(* src: core/failure.rs 4-11 Classify::kind *)
Class Classify (E : Type) := kind : E → FailureKind.

(** ** [ids.rs] *)

(* src: core/ids.rs 7-23 IdError *)
Inductive IdError :=
  | Empty
  | TooLong (len max : Z)
  | ControlCharacter.
Global Instance IdError_eq_dec : EqDecision IdError.
Proof. solve_decision. Defined.

(* src: core/ids.rs 25-35 IdError::fmt *)
Definition IdError_display (e : IdError) : string :=
  match e with
  | Empty => "value must not be empty"
  | TooLong len max =>
      "value length " +:+ display_uint len +:+ " exceeds the maximum of "
      +:+ display_uint max
  | ControlCharacter => "value must not contain a control character"
  end.

(* src: core/ids.rs 39-50 contains_control_char *)
Definition contains_control_char (s : string) : bool := existsb is_control (chars s).

(** A [Uuid] of the [uuid] crate is its 128-bit value; nil is zero. *)
Abbreviation Uuid := Z (only parsing).
Definition uuid_nil : Uuid := 0.

(** [uuid_id!] declares three distinct newtypes; [new] mints with
    [Uuid::now_v7], whose result is the caller's argument here. *)
Module MessageId.
  (* src: core/ids.rs 52-100 MessageId *)
Record t := from_uuid { as_uuid : Uuid }.
  (* src: core/ids.rs 82-86 MessageId::default *)
Definition default (now_v7 : Uuid) : t := from_uuid now_v7.
Global Instance eq_dec : EqDecision t.
Proof. solve_decision. Defined.
End MessageId.

Module ConversationId.
  (* src: core/ids.rs 101-106 ConversationId *)
Record t := from_uuid { as_uuid : Uuid }.
  (* src: core/ids.rs 114-122 ConversationId::UNSET *)
Definition UNSET : t := from_uuid uuid_nil.
  (* src: core/ids.rs 124-128 ConversationId::is_unset *)
Definition is_unset (c : t) : bool := as_uuid c =? uuid_nil.
Global Instance eq_dec : EqDecision t.
Proof. solve_decision. Defined.

Lemma is_unset_spec c : is_unset c = true ↔ c = UNSET.
Proof. unfold is_unset, UNSET. rewrite Z.eqb_eq. destruct c; naive_solver. Qed.
End ConversationId.

Module RequestId.
  (* src: core/ids.rs 107-111 RequestId *)
Record t := from_uuid { as_uuid : Uuid }.
Global Instance eq_dec : EqDecision t.
Proof. solve_decision. Defined.
End RequestId.

Module CorrelationId.
  (* src: core/ids.rs 131-135 CorrelationId *)
Record t := mk { as_str : string }.
  (* src: core/ids.rs 138-139 CorrelationId::MAX_LEN *)
Definition MAX_LEN : Z := 256.
  (* src: core/ids.rs 141-163 CorrelationId::parse *)
Definition parse (s : string) : result t IdError :=
  if is_empty s then Err Empty
  else if contains_control_char s then Err ControlCharacter
  else if len s >? MAX_LEN then Err (TooLong (len s) MAX_LEN)
  else Ok (mk s).
Global Instance eq_dec : EqDecision t.
Proof. solve_decision. Defined.
End CorrelationId.

(** ** [EndpointAddress] of [metadata.rs] *)

Module EndpointAddress.
  (* src: core/metadata.rs 84-87 EndpointAddress *)
Record t := mk { as_str : string }.
  (* src: core/metadata.rs 90-91 EndpointAddress::MAX_LEN *)
Definition MAX_LEN : Z := 256.
  (* src: core/metadata.rs 93-115 EndpointAddress::parse *)
Definition parse (s : string) : result t IdError :=
  if is_empty s then Err Empty
  else if contains_control_char s then Err ControlCharacter
  else if len s >? MAX_LEN then Err (TooLong (len s) MAX_LEN)
  else Ok (mk s).
Global Instance eq_dec : EqDecision t.
Proof. solve_decision. Defined.
End EndpointAddress.

(** ** [content_type.rs] *)

(* src: core/content_type.rs 69-87 ContentTypeError *)
Inductive ContentTypeError :=
  | CtEmpty
  | CtTooLong (len max : Z)
  | CtMalformed (value : string).
Global Instance ContentTypeError_eq_dec : EqDecision ContentTypeError.
Proof. solve_decision. Defined.

Module ContentType.
  (* src: core/content_type.rs 8-11 ContentType *)
Record t := mk { as_str : string }.
  (* src: core/content_type.rs 14-15 ContentType::JSON *)
Definition JSON : t := mk "application/json".
  (* src: core/content_type.rs 17-19 ContentType::MAX_LEN *)
Definition MAX_LEN : Z := 256.
  (* src: core/content_type.rs 21-24 ContentType::MALFORMED_DISPLAY_LEN *)
Definition MALFORMED_DISPLAY_LEN : nat := 64.
  (* src: core/content_type.rs 26-54 ContentType::parse *)
Definition parse (s : string) : result t ContentTypeError :=
  if is_empty s then Err CtEmpty
  else if len s >? MAX_LEN then Err (CtTooLong (len s) MAX_LEN)
  else
    let is_valid :=
      negb (contains_control_char s)
      && match split_once "/"%char s with
         | Some (ty, subtype) => negb (is_empty ty) && negb (is_empty subtype)
         | None => false
         end in
    if negb is_valid then Err (CtMalformed s) else Ok (mk s).
Global Instance eq_dec : EqDecision t.
Proof. solve_decision. Defined.

  (** The byte offset of the [n]-th character, as [char_indices().nth(n)]. *)
Definition char_offset (n : nat) (cs : list Z) : nat :=
  String.length (utf8 (take n cs)).

  (* src: core/content_type.rs 89-97 truncated_for_display *)
Definition truncated_for_display (value : string) : string * bool :=
  if (MALFORMED_DISPLAY_LEN <? length (chars value))%nat
  then (str_take (char_offset MALFORMED_DISPLAY_LEN (chars value)) value, true)
  else (value, false).
End ContentType.

(** ** [message.rs] *)

Module MessageType.
  (* src: core/message.rs 19-25 MessageType *)
Record t := from_parts { name : string; version : Z }.
Global Instance eq_dec : EqDecision t.
Proof. solve_decision. Defined.
  (* src: core/message.rs 66-73 MessageType::fmt *)
Definition display (m : t) : string := name m +:+ ".v" +:+ display_uint (version m).
Definition valid (m : t) : Prop := 0 ≤ version m ≤ U16_MAX.
End MessageType.

(** The constants a [Message] type declares. *)
(* src: core/message.rs 6-17 Message *)
Class Message (T : Type) := { TYPE : string; VERSION : Z }.

(* src: core/message.rs 46-51 MessageType::of *)
Definition message_type_of (T : Type) `{Message T} : MessageType.t :=
  MessageType.from_parts (TYPE (T:=T)) (VERSION (T:=T)).

(** ** [settings.rs] *)

Module SettingsError.
  (* src: core/settings.rs 5-25 SettingsError *)
Inductive t :=
  | Parse (key value_kind : string)
  | OutOfRange (key message : string).
  (* src: core/settings.rs 34-42 SettingsError::parse *)
Definition parse (key value_kind : string) : t := Parse key value_kind.
  (* src: core/settings.rs 44-51 SettingsError::out_of_range *)
Definition out_of_range (key message : string) : t := OutOfRange key message.
  (* src: core/settings.rs 53-59 SettingsError::key *)
Definition key (e : t) : string :=
  match e with Parse k _ => k | OutOfRange k _ => k end.
  (* src: core/settings.rs 62-73 SettingsError::fmt *)
Definition display (e : t) : string :=
  match e with
  | Parse k vk => k +:+ " could not be parsed as " +:+ vk
  | OutOfRange k m => k +:+ " is out of range: " +:+ m
  end.
Global Instance eq_dec : EqDecision t.
Proof. solve_decision. Defined.
End SettingsError.

(** ** Properties *)

Lemma append_inj_l s t u : s +:+ t = s +:+ u → t = u.
Proof. apply (inj (String.append s)). Qed.

(** The [Display] form of a message type determines its version suffix: the last
    [.v] splits it into the name and the decimal version. *)
Lemma message_type_display_rsplit m :
  rsplit_once2 "."%char "v"%char (MessageType.display m)
  = Some (MessageType.name m, display_uint (MessageType.version m)).
Proof.
  unfold MessageType.display.
  change (".v" +:+ display_uint (MessageType.version m))
    with (String "."%char (String "v"%char (display_uint (MessageType.version m)))).
  apply rsplit_once2_app; [|done].
  intros Hin. pose proof (display_uint_digits (MessageType.version m)) as Hd.
  unfold digit_string in Hd. rewrite Forall_forall in Hd.
  by specialize (Hd _ Hin).
Qed.

(** The rendered form ["{name}.v{version}"] of a message type is
    read back uniquely: splitting at the last [.v] gives exactly the name, and
    the part after it parses as the u16 version, whatever the name contains. *)
Theorem message_type_display_roundtrip (m : MessageType.t) (Hm : MessageType.valid m) :
  ∃ v, rsplit_once2 "."%char "v"%char (MessageType.display m)
       = Some (MessageType.name m, v)
       ∧ parse_uint U16_MAX v = Some (MessageType.version m).
Proof.
  eexists. split; [apply message_type_display_rsplit|].
  by apply parse_display_uint.
Qed.

Lemma message_type_display_roundtrip_witness :
  MessageType.valid (MessageType.from_parts "orders.v2.created" 65535)
  ∧ ∃ v, rsplit_once2 "."%char "v"%char
           (MessageType.display (MessageType.from_parts "orders.v2.created" 65535))
         = Some ("orders.v2.created", v) ∧ parse_uint U16_MAX v = Some 65535.
Proof.
  assert (H : MessageType.valid (MessageType.from_parts "orders.v2.created" 65535))
    by (split; vm_compute; discriminate).
  split; [exact H|]. exact (message_type_display_roundtrip _ H).
Defined.

(** The characters [truncated_for_display] keeps. *)
Lemma utf8_take_drop n cs : utf8 cs = utf8 (take n cs) +:+ utf8 (drop n cs).
Proof. by rewrite <-utf8_app, take_drop. Qed.

(** A rejected content type is echoed through
    [truncated_for_display]: the text shown is a prefix of the value of at most
    64 characters, is valid UTF-8, consists of the value's first characters, and
    is flagged as truncated exactly when the value has more than 64. *)
Theorem truncated_for_display_bounded (value : string) (Hv : valid_utf8 value) :
  let '(shown, truncated) := ContentType.truncated_for_display value in
  (length (chars shown) ≤ 64)%nat ∧ valid_utf8 shown
  ∧ chars shown = take 64 (chars value)
  ∧ (∃ rest, value = shown +:+ rest)
  ∧ (truncated = true ↔ (64 < length (chars value))%nat).
Proof.
  destruct Hv as (cs & Hcs & ->). unfold ContentType.truncated_for_display.
  rewrite chars_utf8 by done. unfold ContentType.MALFORMED_DISPLAY_LEN.
  destruct (Nat.ltb_spec 64 (length cs)).
  - assert (Hs : str_take (ContentType.char_offset 64 cs) (utf8 cs) = utf8 (take 64 cs)).
    { unfold ContentType.char_offset. rewrite (utf8_take_drop 64 cs) at 1.
      apply str_take_append. }
    rewrite Hs. assert (Forall valid_char (take 64 cs)) by by apply Forall_take.
    rewrite chars_utf8 by done. rewrite length_take.
    repeat split; try done; try lia; [by exists (take 64 cs)|].
    exists (utf8 (drop 64 cs)). apply utf8_take_drop.
  - rewrite chars_utf8 by done. rewrite take_ge by lia.
    repeat split; try done; try lia; [by exists cs|]. exists "". by rewrite append_nil_r.
Qed.

Lemma truncated_for_display_bounded_witness :
  valid_utf8 "text/" ∧
  let '(shown, truncated) := ContentType.truncated_for_display "text/" in
  (length (chars shown) ≤ 64)%nat ∧ valid_utf8 shown
  ∧ chars shown = take 64 (chars "text/")
  ∧ (∃ rest, "text/" = shown +:+ rest)
  ∧ (truncated = true ↔ (64 < length (chars "text/"))%nat).
Proof.
  assert (H : valid_utf8 "text/") by closed_utf8.
  split; [exact H|]. exact (truncated_for_display_bounded _ H).
Defined.

(** [ContentType::parse] accepts exactly the non-empty strings of at
    most 256 bytes without a control character that read [type/subtype] with both
    halves non-empty, and then returns the string unchanged. *)
Theorem content_type_parse_spec (s : string) (c : ContentType.t) :
  ContentType.parse s = Ok c ↔
  c = ContentType.mk s ∧ 0 < len s ≤ 256 ∧ contains_control_char s = false
  ∧ ∃ ty sub, split_once "/"%char s = Some (ty, sub) ∧ ty ≠ "" ∧ sub ≠ "".
Proof.
  unfold ContentType.parse, ContentType.MAX_LEN. rewrite Z.gtb_ltb.
  destruct s as [|a s]; [split; [done|intros (_&Hl&_); unfold len in Hl; cbn [String.length] in Hl; lia]|].
  assert (0 < len (String a s)) by (unfold len; cbn [String.length]; lia).
  cbn [is_empty]. destruct (Z.ltb_spec 256 (len (String a s))).
  { split; [done|]. intros (_&?&_). lia. }
  generalize (split_once "/"%char (String a s)); intros o.
  destruct (contains_control_char (String a s)); cbn [negb andb]; [naive_solver|].
  destruct o as [[[|b ty] [|d sub]]|]; cbn [negb andb is_empty];
    try (split; [done|naive_solver]).
  split; [intros Hok; injection Hok as <-|by intros (->&_)].
  repeat split; try done; try lia. naive_solver.
Qed.
