(* ===== verification/CoreHeaders.v ===== *)
(** * Custom headers ([reliar-core], headers.rs)

    [Headers] wraps a [HashMap<String, String>], here a [gmap].  [insert] takes
    [&mut self]: it returns the map it leaves behind and its result.  The
    invariant [Headers.wf] is what every [Headers] value satisfies, because the
    field is private and [insert]/[remove] are the only mutators. *)

From S2P Require Import Prelude RustString CoreTypes.

(* src: core/headers.rs 122-160 HeaderError *)
Inductive HeaderError :=
  | Reserved (key : string)
  | EmptyKey
  | ControlCharacterInKey (key : string)
  | ControlCharacterInValue (key : string)
  | KeyTooLong (len : Z)
  | ValueTooLong (len : Z)
  | TooManyHeaders (limit : Z).
Global Instance HeaderError_eq_dec : EqDecision HeaderError.
Proof. solve_decision. Defined.

Module Headers.
(** [Headers] is a newtype of [HashMap<String, String>]. *)
Abbreviation t := (gmap string string).
  (* src: core/headers.rs 27-28 Headers::RESERVED_PREFIX *)
Definition RESERVED_PREFIX : string := "reliar-".
  (* src: core/headers.rs 29-30 Headers::MAX_KEY_LEN *)
Definition MAX_KEY_LEN : Z := 128.
  (* src: core/headers.rs 31-32 Headers::MAX_VALUE_LEN *)
Definition MAX_VALUE_LEN : Z := 1024.
  (* src: core/headers.rs 33-34 Headers::MAX_COUNT *)
Definition MAX_COUNT : nat := 32.

  (* src: core/headers.rs 115-119 Headers::has_reserved_prefix *)
Definition has_reserved_prefix (key : string) : bool :=
  (len key >=? len RESERVED_PREFIX)
  && eq_ignore_ascii_case (str_take (String.length RESERVED_PREFIX) key) RESERVED_PREFIX.

  (* src: core/headers.rs 36-85 Headers::insert *)
Definition insert (self : t) (key value : string)
  : t * result (option string) HeaderError :=
  if has_reserved_prefix key then (self, Err (Reserved key))
  else if is_empty key then (self, Err EmptyKey)
  else if contains_control_char key then (self, Err (ControlCharacterInKey key))
  else if len key >? MAX_KEY_LEN then (self, Err (KeyTooLong (len key)))
  else if contains_control_char value then (self, Err (ControlCharacterInValue key))
  else if len value >? MAX_VALUE_LEN then (self, Err (ValueTooLong (len value)))
  else if bool_decide (self !! key = None) && (MAX_COUNT <=? size self)%nat
  then (self, Err (TooManyHeaders (Z.of_nat MAX_COUNT)))
  else (<[key := value]> self, Ok (self !! key)).

  (* src: core/headers.rs 87-91 Headers::get *)
Definition get (self : t) (key : string) : option string := self !! key.

  (* src: core/headers.rs 93-96 Headers::remove *)
Definition remove (self : t) (key : string) : t * option string :=
  (delete key self, self !! key).

  (* src: core/headers.rs 98-102 Headers::len *)
Definition length (self : t) : nat := size self.

  (* src: core/headers.rs 104-108 Headers::is_empty *)
Definition is_empty (self : t) : bool := bool_decide (self = ∅).

(** What a stored entry satisfies. *)
Definition entry_ok (key value : string) : Prop :=
  has_reserved_prefix key = false ∧ RustString.is_empty key = false
  ∧ contains_control_char key = false ∧ len key ≤ MAX_KEY_LEN
  ∧ contains_control_char value = false ∧ len value ≤ MAX_VALUE_LEN.

Definition wf (self : t) : Prop :=
  map_Forall entry_ok self ∧ (size self ≤ MAX_COUNT)%nat.

Global Instance entry_ok_dec key value : Decision (entry_ok key value).
Proof. unfold entry_ok. apply _. Defined.
Global Instance wf_dec self : Decision (wf self).
Proof. unfold wf. apply _. Defined.
End Headers.

(** ** Lemmas *)

Lemma headers_insert_Ok self key value self' old :
  Headers.insert self key value = (self', Ok old) ↔
  Headers.entry_ok key value
  ∧ (self !! key = None → (size self < Headers.MAX_COUNT)%nat)
  ∧ self' = <[key := value]> self ∧ old = self !! key.
Proof.
  unfold Headers.insert, Headers.entry_ok. rewrite !Z.gtb_ltb.
  destruct (Headers.has_reserved_prefix key), (is_empty key),
    (contains_control_char key), (Z.ltb_spec Headers.MAX_KEY_LEN (len key)),
    (contains_control_char value), (Z.ltb_spec Headers.MAX_VALUE_LEN (len value));
    cbn -[Headers.MAX_COUNT]; try (split; [done|intros (?&?); naive_solver lia]).
  case_bool_decide as Hk; destruct (Nat.leb_spec Headers.MAX_COUNT (size self)); simpl;
    split; try done; try naive_solver lia.
Qed.

Lemma headers_insert_Err self key value self' e :
  Headers.insert self key value = (self', Err e) → self' = self.
Proof. unfold Headers.insert. repeat case_match; naive_solver. Qed.

Lemma headers_wf_empty : Headers.wf ∅.
Proof. split; [apply map_Forall_empty|]. rewrite map_size_empty. lia. Qed.

Lemma headers_insert_wf self key value :
  Headers.wf self → Headers.wf (fst (Headers.insert self key value)).
Proof.
  intros [Hall Hsize].
  destruct (Headers.insert self key value) as [self' [old|e]] eqn:E; simpl.
  - apply headers_insert_Ok in E as (Hok & Hnew & -> & _). split.
    + by apply map_Forall_insert_2.
    + destruct (self !! key) eqn:Ek.
      * by rewrite map_size_insert_Some.
      * rewrite map_size_insert_None by done. specialize (Hnew eq_refl). lia.
  - by rewrite (headers_insert_Err _ _ _ _ _ E).
Qed.

Lemma headers_remove_wf self key : Headers.wf self → Headers.wf (fst (Headers.remove self key)).
Proof.
  intros [Hall Hsize]. split; simpl; [by apply map_Forall_delete|].
  rewrite map_size_delete. destruct (self !! key); simpl; lia.
Qed.

(** The operations a program can run on a [Headers] value it owns. *)
Inductive header_op := HInsert (key value : string) | HRemove (key : string).

Definition run_header_op (h : Headers.t) (op : header_op) : Headers.t :=
  match op with
  | HInsert k v => fst (Headers.insert h k v)
  | HRemove k => fst (Headers.remove h k)
  end.

(** Whatever sequence of [insert] and [remove] calls a program makes on a
    fresh [Headers], every stored key is non-empty, unreserved, free of control
    characters and at most 128 bytes, every value free of control characters and
    at most 1024 bytes, and there are at most 32 entries. *)
Theorem headers_always_wf (ops : list header_op) :
  Headers.wf (fold_left run_header_op ops ∅).
Proof.
  assert (H : ∀ h, Headers.wf h → Headers.wf (fold_left run_header_op ops h)).
  { induction ops as [|[k v|k] ops IH]; intros h Hh; simpl; [done|..]; apply IH;
      [by apply headers_insert_wf|by apply headers_remove_wf]. }
  apply H, headers_wf_empty.
Qed.

(** [Headers::insert] succeeds exactly for an acceptable entry whose key is
    already present or fits under the cap; it then stores the value under the key,
    leaves every other key as it was and returns the previous value; a refused insert
    leaves the headers unchanged. *)
Theorem headers_insert_spec (h : Headers.t) (key value : string) :
  let '(h', r) := Headers.insert h key value in
  match r with
  | Ok old =>
      Headers.entry_ok key value ∧ (h !! key = None → (size h < 32)%nat)
      ∧ old = h !! key ∧ Headers.get h' key = Some value
      ∧ ∀ k, k ≠ key → Headers.get h' k = Headers.get h k
  | Err _ =>
      h' = h ∧ (¬ Headers.entry_ok key value ∨ (h !! key = None ∧ (32 ≤ size h)%nat))
  end.
Proof.
  destruct (Headers.insert h key value) as [h' [old|e]] eqn:E.
  - apply headers_insert_Ok in E as (Hok & Hnew & -> & ->).
    repeat split; try apply Hok; try done.
    + apply lookup_insert_eq.
    + intros k Hk. by apply lookup_insert_ne.
  - pose proof (headers_insert_Err _ _ _ _ _ E) as ->. split; [done|].
    destruct (decide (Headers.entry_ok key value)); [right|by left].
    destruct (decide (h !! key = None ∧ (32 ≤ size h)%nat)) as [|Hn]; [done|].
    assert (Headers.insert h key value = (<[key := value]> h, Ok (h !! key))) as E'.
    { apply headers_insert_Ok. split; [done|]. split; [|done].
      intros Hk. unfold Headers.MAX_COUNT.
      destruct (Nat.lt_ge_cases (size h) 32) as [|Hge]; [done|]. by destruct Hn. }
    congruence.
Qed.
