(* ===== verification/CoreEnvelope.v ===== *)
(** * Envelopes ([reliar-core], envelope.rs, metadata.rs, publisher.rs, serializer.rs)

    The typed metadata, [Envelope<T>] and its builder, and the [Publisher] and
    [Serializer] interfaces.  A builder setter takes [self] by value and returns
    it, so each is a function; a publisher acts on a world (the broker) that the
    model threads through. *)

From Stdlib Require Strings.Byte.
From S2P Require Import Prelude RustString CoreTypes CoreHeaders.

Abbreviation Bytes := (list Byte.byte) (only parsing).

(** ** [metadata.rs] *)

Module CorrelationMetadata.
  (* src: core/metadata.rs 27-39 CorrelationMetadata *)
Record t := mk {
  correlation_id : option CorrelationId.t;
  conversation_id : ConversationId.t;
  causation_id : option MessageId.t;
  request_id : option RequestId.t;
}.
  (* src: core/metadata.rs 41-56 CorrelationMetadata::default *)
Definition default : t := mk None ConversationId.UNSET None None.
Global Instance eq_dec : EqDecision t.
Proof. solve_decision. Defined.
End CorrelationMetadata.

Module TraceContext.
  (* src: core/metadata.rs 58-69 TraceContext *)
Record t := mk { traceparent : option string; tracestate : option string }.
Definition default : t := mk None None.
Global Instance eq_dec : EqDecision t.
Proof. solve_decision. Defined.
End TraceContext.

Module RoutingMetadata.
  (* src: core/metadata.rs 71-82 RoutingMetadata *)
Record t := mk {
  source : option EndpointAddress.t;
  destination : option EndpointAddress.t;
  reply_to : option EndpointAddress.t;
}.
Definition default : t := mk None None None.
Global Instance eq_dec : EqDecision t.
Proof. solve_decision. Defined.
End RoutingMetadata.

Module DeliveryMetadata.
  (* src: core/metadata.rs 145-163 DeliveryMetadata *)
Record t := mk {
  content_type : ContentType.t;
  sent_at : option OffsetDateTime;
  expires_at : option OffsetDateTime;
  deduplication_id : option string;
}.
  (* src: core/metadata.rs 165-174 DeliveryMetadata::default *)
Definition default : t := mk ContentType.JSON None None None.
Global Instance eq_dec : EqDecision t.
Proof. solve_decision. Defined.
End DeliveryMetadata.

Module Metadata.
  (* src: core/metadata.rs 10-25 Metadata *)
Record t := mk {
  correlation : CorrelationMetadata.t;
  trace : TraceContext.t;
  routing : RoutingMetadata.t;
  delivery : DeliveryMetadata.t;
  tenant_id : option string;
}.
Definition default : t :=
  mk CorrelationMetadata.default TraceContext.default RoutingMetadata.default
    DeliveryMetadata.default None.
Global Instance eq_dec : EqDecision t.
Proof. solve_decision. Defined.

(** Assignments to one field. *)
Definition set_correlation (c : CorrelationMetadata.t) (m : t) : t :=
  mk c (trace m) (routing m) (delivery m) (tenant_id m).
Definition set_trace (c : TraceContext.t) (m : t) : t :=
  mk (correlation m) c (routing m) (delivery m) (tenant_id m).
Definition set_delivery (d : DeliveryMetadata.t) (m : t) : t :=
  mk (correlation m) (trace m) (routing m) d (tenant_id m).
Definition set_tenant_id (x : option string) (m : t) : t :=
  mk (correlation m) (trace m) (routing m) (delivery m) x.
Definition conversation (m : t) : ConversationId.t :=
  CorrelationMetadata.conversation_id (correlation m).
Definition set_conversation (c : ConversationId.t) (m : t) : t :=
  let k := correlation m in
  set_correlation (CorrelationMetadata.mk (CorrelationMetadata.correlation_id k) c
    (CorrelationMetadata.causation_id k) (CorrelationMetadata.request_id k)) m.
End Metadata.

(** ** [envelope.rs] *)

Module Envelope.
  (* src: core/envelope.rs 12-28 Envelope *)
Record t (T : Type) := mk {
  id : MessageId.t;
  message_type : MessageType.t;
  body : T;
  metadata : Metadata.t;
  headers : option Headers.t;
}.
Arguments mk {T} _ _ _ _ _.
Arguments id {T} _.
Arguments message_type {T} _.
Arguments body {T} _.
Arguments metadata {T} _.
Arguments headers {T} _.

  (* src: core/envelope.rs 158-166 Envelope::eq *)
Global Instance eq_dec {T} `{EqDecision T} : EqDecision (t T).
Proof. solve_decision. Defined.

  (* src: core/envelope.rs 46-50 Envelope::set_headers *)
Definition set_headers {T} (e : t T) (h : option Headers.t) : t T :=
  mk (id e) (message_type e) (body e) (metadata e) h.

  (** The map the returned borrow points at, and the envelope with it in place. *)
  (* src: core/envelope.rs 40-44 Envelope::headers_mut *)
Definition headers_mut {T} (e : t T) : t T * Headers.t :=
  let h := match headers e with Some h => h | None => ∅ end in
  (set_headers e (Some h), h).

  (* src: core/envelope.rs 52-75 Envelope::map_body *)
Definition map_body {T U} (f : T → U) (e : t T) : t U :=
  mk (id e) (message_type e) (f (body e)) (metadata e) (headers e).

  (* src: core/envelope.rs 77-91 Envelope::try_map_body *)
Definition try_map_body {T U E} (f : T → result U E) (e : t T) : result (t U) E :=
  let? b := f (body e) in
  Ok (mk (id e) (message_type e) b (metadata e) (headers e)).
End Envelope.

(* src: core/envelope.rs 30-31 SerializedEnvelope *)
Definition SerializedEnvelope : Type := Envelope.t (list Byte.byte).
Global Instance byte_eq_dec : EqDecision Byte.byte := Byte.byte_eq_dec.
Global Instance SerializedEnvelope_eq_dec : EqDecision SerializedEnvelope.
Proof. unfold SerializedEnvelope. apply _. Defined.

(* src: core/envelope.rs 123-142 SerializedEnvelope::from_parts *)
Definition from_parts (id : MessageId.t) (message_type : MessageType.t) (body : Bytes)
    (metadata : Metadata.t) (headers : option Headers.t) : SerializedEnvelope :=
  Envelope.mk id message_type body metadata headers.

(** What the types of an envelope already guarantee: its identifiers were parsed, its headers
    inserted. *)
Record wf_envelope {T} (e : Envelope.t T) : Prop := {
  wfe_headers : Headers.wf (default ∅ (Envelope.headers e));
  wfe_version : MessageType.valid (Envelope.message_type e);
  wfe_content_type : let c := DeliveryMetadata.content_type (Metadata.delivery (Envelope.metadata e)) in
    ContentType.parse (ContentType.as_str c) = Ok c;
  wfe_correlation c :
    CorrelationMetadata.correlation_id (Metadata.correlation (Envelope.metadata e)) = Some c →
    CorrelationId.parse (CorrelationId.as_str c) = Ok c;
  wfe_endpoint a :
    RoutingMetadata.source (Metadata.routing (Envelope.metadata e)) = Some a
    ∨ RoutingMetadata.destination (Metadata.routing (Envelope.metadata e)) = Some a
    ∨ RoutingMetadata.reply_to (Metadata.routing (Envelope.metadata e)) = Some a →
    EndpointAddress.parse (EndpointAddress.as_str a) = Ok a;
}.

Module EnvelopeBuilder.
  (* src: core/envelope.rs 182-189 EnvelopeBuilder *)
Record t (T : Type) := mk {
  b_id : option MessageId.t;
  b_body : T;
  b_metadata : Metadata.t;
  b_headers : option Headers.t;
}.
Arguments mk {T} _ _ _ _.
Arguments b_id {T} _.
Arguments b_body {T} _.
Arguments b_metadata {T} _.
Arguments b_headers {T} _.

Section builder.
Context {T : Type}.
Implicit Types (b : t T) (c : CorrelationMetadata.t).

  (* src: core/envelope.rs 204-211 EnvelopeBuilder::new *)
Definition new (body : T) : t T := mk None body Metadata.default None.

(** [self.metadata.<path> = v]. *)
Definition on_metadata (f : Metadata.t → Metadata.t) b : t T :=
  mk (b_id b) (b_body b) (f (b_metadata b)) (b_headers b).

  (* src: core/envelope.rs 213-217 EnvelopeBuilder::id *)
Definition id (i : MessageId.t) b : t T :=
  mk (Some i) (b_body b) (b_metadata b) (b_headers b).
  (* src: core/envelope.rs 219-227 EnvelopeBuilder::metadata *)
Definition metadata (m : Metadata.t) b : t T := on_metadata (λ _, m) b.
  (* src: core/envelope.rs 229-234 EnvelopeBuilder::correlation *)
Definition correlation c b : t T := on_metadata (Metadata.set_correlation c) b.
  (* src: core/envelope.rs 236-240 EnvelopeBuilder::correlation_id *)
Definition correlation_id (i : CorrelationId.t) b : t T :=
  on_metadata (λ m, let c := Metadata.correlation m in
    Metadata.set_correlation
      (CorrelationMetadata.mk (Some i) (CorrelationMetadata.conversation_id c)
        (CorrelationMetadata.causation_id c) (CorrelationMetadata.request_id c)) m) b.
  (* src: core/envelope.rs 242-249 EnvelopeBuilder::conversation *)
Definition conversation (i : ConversationId.t) b : t T :=
  on_metadata (Metadata.set_conversation i) b.
  (* src: core/envelope.rs 251-255 EnvelopeBuilder::causation *)
Definition causation (parent : MessageId.t) b : t T :=
  on_metadata (λ m, let c := Metadata.correlation m in
    Metadata.set_correlation
      (CorrelationMetadata.mk (CorrelationMetadata.correlation_id c)
        (CorrelationMetadata.conversation_id c) (Some parent)
        (CorrelationMetadata.request_id c)) m) b.
  (* src: core/envelope.rs 257-261 EnvelopeBuilder::tenant *)
Definition tenant (x : string) b : t T := on_metadata (Metadata.set_tenant_id (Some x)) b.
  (* src: core/envelope.rs 263-267 EnvelopeBuilder::expires_at *)
Definition expires_at (at_ : OffsetDateTime) b : t T :=
  on_metadata (λ m, let d := Metadata.delivery m in
    Metadata.set_delivery
      (DeliveryMetadata.mk (DeliveryMetadata.content_type d) (DeliveryMetadata.sent_at d)
        (Some at_) (DeliveryMetadata.deduplication_id d)) m) b.
  (* src: core/envelope.rs 269-275 EnvelopeBuilder::trace *)
Definition trace (traceparent : string) (tracestate : option string) b : t T :=
  on_metadata (Metadata.set_trace (TraceContext.mk (Some traceparent) tracestate)) b.
  (* src: core/envelope.rs 277-292 EnvelopeBuilder::header *)
Definition header (k v : string) b : result (t T) HeaderError :=
  let h0 := match b_headers b with Some h => h | None => ∅ end in
  let '(h, r) := Headers.insert h0 k v in
  let? _ := r in
  Ok (mk (b_id b) (b_body b) (b_metadata b) (Some h)).

(** [now_v7] is the identifier [MessageId::default] mints when none was set. *)
  (* src: core/envelope.rs 294-313 EnvelopeBuilder::build *)
Definition build `{Message T} (now_v7 : Uuid) b : Envelope.t T :=
  let i := match b_id b with Some i => i | None => MessageId.default now_v7 end in
  let m := if ConversationId.is_unset (Metadata.conversation (b_metadata b))
           then Metadata.set_conversation (ConversationId.from_uuid (MessageId.as_uuid i))
                  (b_metadata b)
           else b_metadata b in
  Envelope.mk i (message_type_of T) (b_body b) m (b_headers b).

(** A chain of setter calls, ended by the first refused header. *)
Inductive setter :=
  | SId (i : MessageId.t) | SMetadata (m : Metadata.t) | SCorrelation (c : CorrelationMetadata.t)
  | SCorrelationId (i : CorrelationId.t) | SConversation (i : ConversationId.t)
  | SCausation (i : MessageId.t) | STenant (x : string) | SExpiresAt (a : OffsetDateTime)
  | STrace (p : string) (s : option string) | SHeader (k v : string).

Definition call (s : setter) b : result (t T) HeaderError :=
  match s with
  | SId i => Ok (id i b) | SMetadata m => Ok (metadata m b)
  | SCorrelation c => Ok (correlation c b) | SCorrelationId i => Ok (correlation_id i b)
  | SConversation i => Ok (conversation i b) | SCausation i => Ok (causation i b)
  | STenant x => Ok (tenant x b) | SExpiresAt a => Ok (expires_at a b)
  | STrace p s => Ok (trace p s b) | SHeader k v => header k v b
  end.

Fixpoint chain (ss : list setter) b : result (t T) HeaderError :=
  match ss with
  | [] => Ok b
  | s :: ss' => let? b' := call s b in chain ss' b'
  end.

(** The conversation id a setter writes, if it writes one. *)
Definition conversation_write (s : setter) : option ConversationId.t :=
  match s with
  | SMetadata m => Some (Metadata.conversation m)
  | SCorrelation c => Some (CorrelationMetadata.conversation_id c)
  | SConversation i => Some i
  | _ => None
  end.
Definition id_write (s : setter) : option MessageId.t :=
  match s with SId i => Some i | _ => None end.

(** The last value written by a chain. *)
Fixpoint last_write {A} (f : setter → option A) (ss : list setter) : option A :=
  match ss with
  | [] => None
  | s :: ss' => match last_write f ss' with Some a => Some a | None => f s end
  end.
End builder.
End EnvelopeBuilder.

(** ** [publisher.rs] and [serializer.rs] *)

(** The wire side: [publish] takes the world (the broker and the publisher's own
    state) to the world it leaves and its result. *)
(* src: core/publisher.rs 6-21 Publisher *)
Class Publisher (W PE : Type) `{Classify PE} := {
  publish : SerializedEnvelope → W → W * result unit PE;
}.

(* src: core/publisher.rs 23-40 Publisher::publish_batch *)
Fixpoint publish_batch {W PE} `{Publisher W PE} (envelopes : list SerializedEnvelope)
    (w : W) : W * list (result unit PE) :=
  match envelopes with
  | [] => (w, [])
  | e :: es =>
      let '(w1, r) := publish e w in
      let '(w2, rs) := publish_batch es w1 in
      (w2, r :: rs)
  end.

(** The body codec, a parameter: [serde_json] in the default implementation. *)
(* src: core/serializer.rs 5-34 Serializer *)
Class Serializer (T SE : Type) := {
  content_type : ContentType.t;
  serialize : T → result (list Byte.byte) SE;
  deserialize : list Byte.byte → result T SE;
}.

(** ** Lemmas *)

Section builder_lemmas.
Context {T : Type}.
Implicit Types (b : EnvelopeBuilder.t T) (ss : list EnvelopeBuilder.setter).

Lemma chain_fields ss b b' :
  EnvelopeBuilder.chain ss b = Ok b' →
  EnvelopeBuilder.b_body b' = EnvelopeBuilder.b_body b
  ∧ Metadata.conversation (EnvelopeBuilder.b_metadata b')
    = default (Metadata.conversation (EnvelopeBuilder.b_metadata b))
        (EnvelopeBuilder.last_write EnvelopeBuilder.conversation_write ss)
  ∧ EnvelopeBuilder.b_id b'
    = match EnvelopeBuilder.last_write EnvelopeBuilder.id_write ss with
      | Some i => Some i | None => EnvelopeBuilder.b_id b end.
Proof.
  revert b; induction ss as [|s ss IH]; intros b; simpl; [by intros [= ->]|].
  rewrite result_bind_Ok. intros (b1 & H1 & H2). destruct (IH _ H2) as (-> & -> & ->).
  assert (EnvelopeBuilder.b_body b1 = EnvelopeBuilder.b_body b
    ∧ Metadata.conversation (EnvelopeBuilder.b_metadata b1)
      = default (Metadata.conversation (EnvelopeBuilder.b_metadata b))
          (EnvelopeBuilder.conversation_write s)
    ∧ EnvelopeBuilder.b_id b1
      = match EnvelopeBuilder.id_write s with Some i => Some i | None => EnvelopeBuilder.b_id b end)
    as (-> & -> & ->).
  { destruct s; simpl in H1; try (injection H1 as <-; done).
    unfold EnvelopeBuilder.header in H1. destruct (Headers.insert _ _ _) as [h r].
    apply result_bind_Ok in H1 as (? & _ & [= <-]). done. }
  split; [done|]. split; by repeat case_match; simplify_eq/=.
Qed.

Lemma chain_headers_wf ss b b' :
  EnvelopeBuilder.chain ss b = Ok b' →
  from_option Headers.wf True (EnvelopeBuilder.b_headers b) →
  from_option Headers.wf True (EnvelopeBuilder.b_headers b').
Proof.
  revert b; induction ss as [|s ss IH]; intros b; simpl; [by intros [= ->]|].
  rewrite result_bind_Ok. intros (b1 & H1 & H2) Hb. apply (IH b1 H2).
  destruct s; simpl in H1; try (injection H1 as <-; exact Hb).
  unfold EnvelopeBuilder.header in H1.
  set (h0 := match EnvelopeBuilder.b_headers b with Some h => h | None => ∅ end) in *.
  assert (Headers.wf h0) as Hh0.
  { subst h0. destruct (EnvelopeBuilder.b_headers b); [done|apply headers_wf_empty]. }
  pose proof (headers_insert_wf h0 k v Hh0) as Hwf.
  destruct (Headers.insert _ _ _) as [h r].
  by apply result_bind_Ok in H1 as (? & _ & [= <-]).
Qed.
End builder_lemmas.

(** ** Properties *)

(** Whatever chain of setters was called on the builder, in whatever order,
    the envelope it builds has the type its body declares, the body it was given, the id
    last set (a fresh one if none was), valid headers, and the conversation of the last
    setter that wrote one - replaced by the envelope's own id exactly when that value is
    [UNSET]; so with a non-nil id the built conversation is never unset. *)
Theorem build_roots_conversation {T} `{Message T} (body : T) (v7 : Uuid)
    (ss : list EnvelopeBuilder.setter) (b : EnvelopeBuilder.t T)
    (Hb : EnvelopeBuilder.chain ss (EnvelopeBuilder.new body) = Ok b) :
  let e := EnvelopeBuilder.build v7 b in
  let own := ConversationId.from_uuid (MessageId.as_uuid (Envelope.id e)) in
  let conv := Metadata.conversation (Envelope.metadata e) in
  let written := default ConversationId.UNSET
    (EnvelopeBuilder.last_write EnvelopeBuilder.conversation_write ss) in
  Envelope.message_type e = message_type_of T ∧ Envelope.body e = body
  ∧ Envelope.id e = default (MessageId.from_uuid v7)
      (EnvelopeBuilder.last_write EnvelopeBuilder.id_write ss)
  ∧ from_option Headers.wf True (Envelope.headers e)
  ∧ (written = ConversationId.UNSET → conv = own)
  ∧ (written ≠ ConversationId.UNSET → conv = written)
  ∧ (MessageId.as_uuid (Envelope.id e) ≠ uuid_nil → conv ≠ ConversationId.UNSET).
Proof.
  pose proof (chain_headers_wf _ _ _ Hb I) as Hwf.
  apply chain_fields in Hb as (Hbody & Hconv & Hid). cbn [EnvelopeBuilder.new
    EnvelopeBuilder.b_id EnvelopeBuilder.b_body EnvelopeBuilder.b_metadata] in *.
  change (Metadata.conversation Metadata.default) with ConversationId.UNSET in Hconv.
  unfold EnvelopeBuilder.build. rewrite Hconv, Hid, Hbody. cbn.
  set (w := default ConversationId.UNSET _) in *.
  destruct (ConversationId.is_unset w) eqn:Hu.
  - apply ConversationId.is_unset_spec in Hu.
    repeat split; try done; [by case_match|]. intros Hne [= Heq]. by case_match.
  - assert (w ≠ ConversationId.UNSET) by (rewrite <-ConversationId.is_unset_spec; by rewrite Hu).
    repeat split; try done; [by case_match|congruence].
Qed.

Definition Ping : Message nat := {| TYPE := "ping"; VERSION := 1 |}.

Lemma build_roots_conversation_witness :
  let ss := [EnvelopeBuilder.SConversation (ConversationId.from_uuid 7);
             EnvelopeBuilder.SCorrelation CorrelationMetadata.default;
             EnvelopeBuilder.SHeader "x-a" "1"] in
  let b := EnvelopeBuilder.mk None 0%nat Metadata.default (Some {["x-a" := "1"]}) in
  EnvelopeBuilder.chain ss (EnvelopeBuilder.new 0%nat) = Ok b
  ∧ Metadata.conversation (Envelope.metadata (EnvelopeBuilder.build (H:=Ping) 9 b))
    = ConversationId.from_uuid 9.
Proof.
  assert (Hc : EnvelopeBuilder.chain
    [EnvelopeBuilder.SConversation (ConversationId.from_uuid 7);
     EnvelopeBuilder.SCorrelation CorrelationMetadata.default;
     EnvelopeBuilder.SHeader "x-a" "1"] (EnvelopeBuilder.new 0%nat)
    = Ok (EnvelopeBuilder.mk None 0%nat Metadata.default (Some {["x-a" := "1"]})))
    by (vm_compute; reflexivity).
  split; [exact Hc|].
  destruct (build_roots_conversation (H:=Ping) 0%nat 9 _ _ Hc) as (_&_&_&_&Hroot&_).
  exact (Hroot eq_refl).
Defined.

(** Serializing an envelope's body with [map_body] and reading it back with
    [try_map_body] gives the original envelope, every field included, whenever the codec
    reads back what it wrote; when the codec refuses the bytes its error is returned
    unchanged. *)
Lemma envelope_body_roundtrip {T SE} `{Serializer T SE} (e : Envelope.t T) (bs : Bytes)
    (Hs : serialize (Envelope.body e) = Ok bs) :
  (∀ (Hround : deserialize bs = Ok (Envelope.body e)),
     Envelope.try_map_body deserialize (Envelope.map_body (λ _, bs) e) = Ok e)
  ∧ (∀ err, deserialize bs = Err err →
     Envelope.try_map_body (U:=T) deserialize (Envelope.map_body (λ _, bs) e) = Err err).
Proof.
  unfold Envelope.try_map_body. cbn. split; [intros ->|by intros err ->].
  by destruct e.
Qed.

(** The broker after publishing a prefix of a batch. *)
Definition after {W PE} `{Publisher W PE} (es : list SerializedEnvelope) (w : W) : W :=
  fst (publish_batch es w).

(** The default [publish_batch] is positional: there is one result per
    envelope, and the [i]-th is what publishing the [i]-th envelope returned after the
    ones before it were published, whatever their results were - a failure never
    stops the batch or shifts a verdict. *)
Theorem publish_batch_positional {W PE} `{Publisher W PE} (es : list SerializedEnvelope) (w : W) :
  length (snd (publish_batch es w)) = length es
  ∧ ∀ i, snd (publish_batch es w) !! i
         = (λ e, snd (publish e (after (take i es) w))) <$> es !! i.
Proof.
  revert w; induction es as [|e es IH]; intros w; cbn [publish_batch]; [by split|].
  destruct (publish e w) as [w1 r] eqn:E1.
  destruct (publish_batch es w1) as [w2 rs] eqn:E2.
  destruct (IH w1) as [IHl IHi]. rewrite E2 in IHl, IHi. simpl in IHl, IHi.
  split; [simpl; by rewrite IHl|]. intros [|i]; simpl; [unfold after; simpl; by rewrite E1|].
  rewrite IHi. cbn [lookup list_lookup]. destruct (es !! i) as [e'|]; cbn [fmap option_fmap option_map]; [|reflexivity].
  do 2 f_equal. unfold after. cbn [take publish_batch]. rewrite E1.
  destruct (publish_batch (take i es) w1). reflexivity.
Qed.
