(* ===== verification/CoreFmt.v ===== *)
(** * What core values and errors print ([reliar-core])

    The [Display] and [Debug] implementations of headers.rs, content_type.rs, ids.rs,
    message.rs, metadata.rs, envelope.rs and serializer.rs, and the JSON serializer.  A
    payload or a header value may be a secret: the theorem is that it can never reach a
    text that is printed. *)

From S2P Require Import Prelude RustString RustFmt CoreTypes CoreHeaders CoreEnvelope.

(** The [Debug] of a [Uuid] and of an [OffsetDateTime] are third-party code. *)
Class DebugLib := {
  uuid_debug : Uuid → string;
  time_debug : OffsetDateTime → string;
}.

(** ** [headers.rs] *)

Section core.
Context `{Unicode}.

(* src: core/headers.rs 162-194 HeaderError::fmt *)
Definition HeaderError_display (e : HeaderError) : string :=
  match e with
  | Reserved key => "header key " +:+ str_debug key +:+ " uses the reserved `reliar-` prefix"
  | EmptyKey => "header key must not be empty"
  | ControlCharacterInKey key => "header key " +:+ str_debug key +:+ " contains a control character"
  | ControlCharacterInValue key =>
      "header value for key " +:+ str_debug key +:+ " contains a control character"
  | KeyTooLong len =>
      "header key length " +:+ display_uint len +:+ " exceeds the maximum of "
      +:+ display_uint Headers.MAX_KEY_LEN
  | ValueTooLong len =>
      "header value length " +:+ display_uint len +:+ " exceeds the maximum of "
      +:+ display_uint Headers.MAX_VALUE_LEN
  | TooManyHeaders limit => "header count would exceed the maximum of " +:+ display_uint limit
  end.

(** The keys, each with [<redacted>]; a [HashMap] is walked in the order of [map_to_list]. *)
(* src: core/headers.rs 18-24 Headers::fmt *)
Definition Headers_debug (h : Headers.t) : string :=
  debug_map str_debug str_debug ((λ k, (k, "<redacted>")) <$> (map_to_list h).*1).

(** ** [content_type.rs] *)

(* src: core/content_type.rs 99-120 ContentTypeError::fmt *)
Definition ContentTypeError_display (e : ContentTypeError) : string :=
  match e with
  | CtEmpty => "content type must not be empty"
  | CtTooLong len max =>
      "content type length " +:+ display_uint len +:+ " exceeds the maximum of "
      +:+ display_uint max
  | CtMalformed value =>
      let '(shown, truncated) := ContentType.truncated_for_display value in
      "malformed content type: " +:+ str_debug shown +:+ (if truncated then "…" else "")
  end.

(* src: core/content_type.rs 124-144 ContentTypeError::fmt *)
Definition ContentTypeError_debug (e : ContentTypeError) : string :=
  match e with
  | CtEmpty => "Empty"
  | CtTooLong len max =>
      debug_struct "TooLong" [("len", display_uint len); ("max", display_uint max)]
  | CtMalformed value =>
      let '(shown, truncated) := ContentType.truncated_for_display value in
      debug_struct "Malformed" [("value", str_debug (shown +:+ (if truncated then "…" else "")))]
  end.

(** ** Derived [Debug]s *)

Context `{DebugLib}.

(* src: core/ids.rs 59-60 MessageId *)
Definition MessageId_debug (i : MessageId.t) : string :=
  debug_newtype "MessageId" (uuid_debug (MessageId.as_uuid i)).
Definition ConversationId_debug (i : ConversationId.t) : string :=
  debug_newtype "ConversationId" (uuid_debug (ConversationId.as_uuid i)).
Definition RequestId_debug (i : RequestId.t) : string :=
  debug_newtype "RequestId" (uuid_debug (RequestId.as_uuid i)).
(* src: core/ids.rs 134-135 CorrelationId *)
Definition CorrelationId_debug (i : CorrelationId.t) : string :=
  debug_newtype "CorrelationId" (str_debug (CorrelationId.as_str i)).
(* src: core/metadata.rs 86-87 EndpointAddress *)
Definition EndpointAddress_debug (a : EndpointAddress.t) : string :=
  debug_newtype "EndpointAddress" (str_debug (EndpointAddress.as_str a)).
(* src: core/content_type.rs 10-11 ContentType *)
Definition ContentType_debug (c : ContentType.t) : string :=
  debug_newtype "ContentType" (str_debug (ContentType.as_str c)).

(* src: core/message.rs 21-25 MessageType *)
Definition MessageType_debug (m : MessageType.t) : string :=
  debug_struct "MessageType"
    [("name", str_debug (MessageType.name m)); ("version", display_uint (MessageType.version m))].

(* src: core/metadata.rs 28-39 CorrelationMetadata *)
Definition CorrelationMetadata_debug (c : CorrelationMetadata.t) : string :=
  debug_struct "CorrelationMetadata"
    [("correlation_id", option_debug CorrelationId_debug (CorrelationMetadata.correlation_id c));
     ("conversation_id", ConversationId_debug (CorrelationMetadata.conversation_id c));
     ("causation_id", option_debug MessageId_debug (CorrelationMetadata.causation_id c));
     ("request_id", option_debug RequestId_debug (CorrelationMetadata.request_id c))].

(* src: core/metadata.rs 61-69 TraceContext *)
Definition TraceContext_debug (t : TraceContext.t) : string :=
  debug_struct "TraceContext"
    [("traceparent", option_debug str_debug (TraceContext.traceparent t));
     ("tracestate", option_debug str_debug (TraceContext.tracestate t))].

(* src: core/metadata.rs 73-82 RoutingMetadata *)
Definition RoutingMetadata_debug (r : RoutingMetadata.t) : string :=
  debug_struct "RoutingMetadata"
    [("source", option_debug EndpointAddress_debug (RoutingMetadata.source r));
     ("destination", option_debug EndpointAddress_debug (RoutingMetadata.destination r));
     ("reply_to", option_debug EndpointAddress_debug (RoutingMetadata.reply_to r))].

(* src: core/metadata.rs 146-163 DeliveryMetadata *)
Definition DeliveryMetadata_debug (d : DeliveryMetadata.t) : string :=
  debug_struct "DeliveryMetadata"
    [("content_type", ContentType_debug (DeliveryMetadata.content_type d));
     ("sent_at", option_debug time_debug (DeliveryMetadata.sent_at d));
     ("expires_at", option_debug time_debug (DeliveryMetadata.expires_at d));
     ("deduplication_id", option_debug str_debug (DeliveryMetadata.deduplication_id d))].

(* src: core/metadata.rs 12-25 Metadata *)
Definition Metadata_debug (m : Metadata.t) : string :=
  debug_struct "Metadata"
    [("correlation", CorrelationMetadata_debug (Metadata.correlation m));
     ("trace", TraceContext_debug (Metadata.trace m));
     ("routing", RoutingMetadata_debug (Metadata.routing m));
     ("delivery", DeliveryMetadata_debug (Metadata.delivery m));
     ("tenant_id", option_debug str_debug (Metadata.tenant_id m))].

(** ** [envelope.rs] *)

(* src: core/envelope.rs 146-156 Envelope::fmt *)
Definition Envelope_debug {T} (e : Envelope.t T) : string :=
  debug_struct "Envelope"
    [("id", MessageId_debug (Envelope.id e));
     ("message_type", MessageType_debug (Envelope.message_type e));
     ("body", str_debug "<elided>");
     ("metadata", Metadata_debug (Envelope.metadata e));
     ("headers", option_debug Headers_debug (Envelope.headers e))].

(* src: core/envelope.rs 192-201 EnvelopeBuilder::fmt *)
Definition EnvelopeBuilder_debug {T} (b : EnvelopeBuilder.t T) : string :=
  debug_struct "EnvelopeBuilder"
    [("id", option_debug MessageId_debug (EnvelopeBuilder.b_id b));
     ("body", str_debug "<elided>");
     ("metadata", Metadata_debug (EnvelopeBuilder.b_metadata b));
     ("headers", option_debug Headers_debug (EnvelopeBuilder.b_headers b))].
End core.

(** ** [serializer.rs] *)

(** [serde_json::error::Category] and what is read of a [serde_json::Error]; its own texts,
    which quote the value it rejects, are not. *)
Inductive Category := Io | Syntax | Data | Eof.

Class SerdeJson := {
  serde_error : Type;
  classify : serde_error → Category;
  line : serde_error → Z;
  column : serde_error → Z;
}.

(** [serde_json::to_vec] and [from_slice] at the type of a body. *)
Class JsonBody `{SerdeJson} (T : Type) := {
  to_vec : T → result Bytes serde_error;
  from_slice : Bytes → result T serde_error;
}.

Section json.
Context `{SerdeJson}.

(* src: core/serializer.rs 93-107 JsonError *)
Inductive JsonError :=
  | JsonSerialize (source : serde_error)
  | JsonDeserialize (source : serde_error).

(* src: core/serializer.rs 64-83 JsonSerializer *)
Global Instance JsonSerializer {T} `{!JsonBody T} : Serializer T JsonError := {|
  content_type := ContentType.JSON;
  serialize body := map_err JsonSerialize (to_vec body);
  deserialize bytes := map_err JsonDeserialize (from_slice bytes);
|}.

(* src: core/serializer.rs 109-123 describe *)
Definition describe (source : serde_error) : string :=
  match classify source with
  | Io => "io" | Syntax => "syntax" | Data => "data" | Eof => "eof"
  end +:+ " error at line " +:+ display_uint (line source) +:+ ", column "
  +:+ display_uint (column source).

(* src: core/serializer.rs 125-136 JsonError::fmt *)
Definition JsonError_display (e : JsonError) : string :=
  match e with
  | JsonSerialize source => "failed to serialize to JSON: " +:+ describe source
  | JsonDeserialize source => "failed to deserialize from JSON: " +:+ describe source
  end.

(* src: core/serializer.rs 138-148 JsonError::fmt *)
Definition JsonError_debug `{Unicode} (e : JsonError) : string :=
  let '(variant, source) := match e with
                            | JsonSerialize source => ("Serialize", source)
                            | JsonDeserialize source => ("Deserialize", source)
                            end in
  debug_struct variant [("classification", str_debug (describe source))].

(** [source] is [serde_json]'s own error, whose text is not this crate's. *)
(* src: core/serializer.rs 150-156 JsonError::source *)
Global Instance JsonError_Error `{!Error serde_error} : Error JsonError := {|
  error_display := JsonError_display;
  error_source '(JsonSerialize source | JsonDeserialize source) := Some (as_dyn source);
|}.
End json.

(* src: core/ids.rs 37-37 IdError *)
#[export] Instance IdError_Error : Error IdError :=
  {| error_display := IdError_display; error_source _ := None |}.
(* src: core/settings.rs 75-75 SettingsError *)
#[export] Instance SettingsError_Error : Error SettingsError.t :=
  {| error_display := SettingsError.display; error_source _ := None |}.
(* src: core/content_type.rs 146-146 ContentTypeError *)
#[export] Instance ContentTypeError_Error `{Unicode} : Error ContentTypeError :=
  {| error_display := ContentTypeError_display; error_source _ := None |}.
(* src: core/headers.rs 195-195 HeaderError *)
#[export] Instance HeaderError_Error `{Unicode} : Error HeaderError :=
  {| error_display := HeaderError_display; error_source _ := None |}.

(** ** Refused headers *)

(** Every refusal of a header under key [k], whose key or value has [n] bytes. *)
Definition header_refusals (k : string) (n : Z) : list HeaderError :=
  [Reserved k; EmptyKey; ControlCharacterInKey k; ControlCharacterInValue k; KeyTooLong n;
   ValueTooLong n; TooManyHeaders n].

Lemma insert_refusal h h' k v e : Headers.insert h k v = (h', Err e) → ∃ n, e ∈ header_refusals k n.
Proof.
  unfold Headers.insert, header_refusals. intros Hi.
  repeat (case_match; [injection Hi as _ <-|]); [..|done].
  all: first [exists (len k); by repeat first [left|right]
             |exists (len v); by repeat first [left|right]
             |exists (Z.of_nat Headers.MAX_COUNT); by repeat first [left|right]].
Qed.

(** ** What may be seen

    Two values look alike when they differ only in payload and header values. *)

Definition same_keys (h1 h2 : option Headers.t) : Prop :=
  (dom (D := gset string) <$> h1) = (dom <$> h2).

Record looks_alike {T U} (e1 : Envelope.t T) (e2 : Envelope.t U) : Prop := {
  la_id : Envelope.id e1 = Envelope.id e2;
  la_message_type : Envelope.message_type e1 = Envelope.message_type e2;
  la_metadata : Envelope.metadata e1 = Envelope.metadata e2;
  la_headers : same_keys (Envelope.headers e1) (Envelope.headers e2);
}.

(** The order in which a map is walked depends on its keys alone. *)
Lemma keys_in_order (m1 m2 : gmap string string) :
  dom m1 = dom m2 → (map_to_list m1).*1 = (map_to_list m2).*1.
Proof.
  intros Hd. assert (Hu : (λ _, ()) <$> m1 = (λ _, ()) <$> m2).
  { apply map_eq. intros k. rewrite !lookup_fmap.
    assert (Hk : is_Some (m1 !! k) ↔ is_Some (m2 !! k)) by (rewrite <-!elem_of_dom; by rewrite Hd).
    destruct (m1 !! k), (m2 !! k); try done; exfalso.
    - by destruct (proj1 Hk (mk_is_Some _ _ eq_refl)).
    - by destruct (proj2 Hk (mk_is_Some _ _ eq_refl)). }
  apply (f_equal map_to_list), (f_equal (fmap fst)) in Hu.
  by rewrite !map_to_list_fmap, <-!list_fmap_compose in Hu.
Qed.

Section secrets.
Context `{Unicode}.

Lemma Headers_debug_keys (h1 h2 : Headers.t) : dom h1 = dom h2 → Headers_debug h1 = Headers_debug h2.
Proof. intros Hd. unfold Headers_debug. by rewrite (keys_in_order _ _ Hd). Qed.

Lemma headers_debug_alike (h1 h2 : option Headers.t) :
  same_keys h1 h2 → option_debug Headers_debug h1 = option_debug Headers_debug h2.
Proof.
  unfold same_keys. destruct h1, h2; cbn; try done. intros [= Hd]. f_equal. f_equal.
  by apply Headers_debug_keys.
Qed.

Lemma Envelope_debug_alike `{DebugLib} {T U} (e1 : Envelope.t T) (e2 : Envelope.t U) :
  looks_alike e1 e2 → Envelope_debug e1 = Envelope_debug e2.
Proof.
  intros [Hi Hm Hmd Hh]. unfold Envelope_debug. by rewrite Hi, Hm, Hmd, (headers_debug_alike _ _ Hh).
Qed.

(** What [ContentTypeError] echoes of a rejected value: 64 characters at most, escaped. *)
Lemma content_type_echo_bounded (value : string) : valid_utf8 value →
  (String.length (ContentTypeError_display (CtMalformed value)) ≤ 669)%nat
  ∧ (String.length (ContentTypeError_debug (CtMalformed value)) ≤ 700)%nat.
Proof.
  intros Hv. pose proof (truncated_for_display_bounded value Hv) as Ht.
  cbn [ContentTypeError_display ContentTypeError_debug].
  destruct (ContentType.truncated_for_display value) as [shown truncated].
  destruct Ht as (Hlen & (cs & Hcs & ->) & _). rewrite chars_utf8 in Hlen by done.
  split.
  - pose proof (str_debug_length (utf8 cs)) as Hd. rewrite chars_utf8 in Hd by done.
    rewrite !length_append. generalize dependent (str_debug (utf8 cs)). intros x Hx.
    destruct truncated; cbn; lia.
  - assert (Hd : (String.length (str_debug (utf8 cs +:+ (if truncated then "…" else ""))) ≤ 652)%nat).
    { etrans; [apply str_debug_length|].
      destruct truncated; [|rewrite append_nil_r, chars_utf8 by done; lia].
      change "…" with (utf8 [8230]). rewrite <-utf8_app, chars_utf8, length_app; [cbn [length]; lia|].
      apply Forall_app. split; [done|]. constructor; [|done]. left. lia. }
    unfold debug_struct, debug_fields. cbn [fmap list_fmap joined_with]. rewrite !length_append.
    generalize dependent (str_debug (utf8 cs +:+ (if truncated then "…" else ""))).
    intros x Hx. cbn. lia.
Qed.

(** A refused header is reported alike whatever its value is, but for its length and the
    presence of a control character. *)
Lemma refusal_hides_value (h h1 h2 : Headers.t) k v1 v2 e1 e2 :
  Headers.insert h k v1 = (h1, Err e1) → Headers.insert h k v2 = (h2, Err e2) →
  len v1 = len v2 → contains_control_char v1 = contains_control_char v2 → e1 = e2.
Proof.
  unfold Headers.insert. intros H1 H2 Hl Hc. rewrite Hl, Hc in H1.
  repeat case_match; simplify_eq; done.
Qed.

End secrets.

(** ** Concrete texts *)

Definition plain_debug : DebugLib := {| uuid_debug := z_text; time_debug := z_text |}.
Definition secret_envelope (body : string) (value : string) : Envelope.t string :=
  Envelope.mk (MessageId.from_uuid 5) (MessageType.from_parts "orders.created" 1) body
    Metadata.default (Some {["x-api-key" := value]}).

Example headers_debug_text :
  Headers_debug (H := latin) {["x-api-key" := "sk-live"]}
  = "{" +:+ QUOTE +:+ "x-api-key" +:+ QUOTE +:+ ": " +:+ QUOTE +:+ "<redacted>" +:+ QUOTE +:+ "}".
Proof. vm_compute. reflexivity. Qed.

(** A [serde_json] whose error is a category and a position. *)
Definition plain_serde_json : SerdeJson := {|
  serde_error := Category * Z * string;
  classify e := e.1.1; line e := 1; column e := e.1.2;
|}.

