(* ===== verification/CoreSerde.v ===== *)
(** * Metadata over serde ([reliar-core], metadata.rs, ids.rs, content_type.rs)

    The [Serialize] and [Deserialize] implementations of the metadata, behind the [serde]
    feature.  A value is what a self-describing format holds - what [serde_json] makes of
    null, a boolean, a number, a string, a sequence, or a map with its entries in order.  A
    derived [Deserialize] visits the entries of a map in order, refuses a field it has already
    seen, ignores fields it does not know (or refuses them, where the struct denies them), and
    fills in the missing ones; it also takes a sequence, whose elements are the fields in the
    order they are declared, the last ones missing if they have a default.  Reading and
    writing UUIDs and timestamps as text is third-party code, a class with its laws. *)

From Stdlib Require Import SpecFloat.
From S2P Require Import Prelude RustString CoreTypes CoreHeaders CoreEnvelope.

Inductive value :=
  | VNull
  | VBool (b : bool)
  | VInt (n : Z)
  | VFloat (x : spec_float)
  | VStr (s : string)
  | VSeq (l : list value)
  | VMap (entries : list (string * value)).

(** The errors a deserializer reports. *)
Inductive de_error :=
  | InvalidType
  | InvalidValue
  | InvalidLength
  | DuplicateField (name : string)
  | UnknownField (name : string)
  | UnknownVariant (name : string)
  | CustomId (e : IdError)
  | CustomContentType (e : ContentTypeError)
  | CustomSettings (e : SettingsError.t)
  | CustomUuid
  | CustomTime.

Class SerdeText := {
  (** [Display] and [parse_str] of [Uuid]. *)
  uuid_show : Uuid → string;
  uuid_read : string → option Uuid;
  (** [time::serde::rfc3339]; a year out of range does not format. *)
  rfc3339_show : OffsetDateTime → option string;
  rfc3339_read : string → option OffsetDateTime;
}.

Class SerdeTextLaws `{SerdeText} := {
  uuid_read_show u : uuid_read (uuid_show u) = Some u;
  rfc3339_read_show t s : rfc3339_show t = Some s → rfc3339_read s = Some t;
}.

(** ** The derived visitors *)

Fixpoint assoc {A} (k : string) (l : list (string * A)) : option A :=
  match l with
  | [] => None
  | (k', v) :: l => if String.eqb k k' then Some v else assoc k l
  end.

Definition de_str (v : value) : result string de_error :=
  match v with VStr s => Ok s | _ => Err InvalidType end.
Definition de_option {A} (d : value → result A de_error) (v : value) : result (option A) de_error :=
  match v with VNull => Ok None | _ => let? a := d v in Ok (Some a) end.

Definition checks {A} (d : value → result A de_error) (v : value) : result unit de_error :=
  let? _ := d v in Ok ().

(** One entry after the other: known fields once each, and well formed. *)
Fixpoint visit (fields : list (string * (value → result unit de_error))) (seen : list string)
    (entries : list (string * value)) : result unit de_error :=
  match entries with
  | [] => Ok ()
  | (k, v) :: entries =>
      match assoc k fields with
      | None => visit fields seen entries
      | Some d =>
          if existsb (String.eqb k) seen then Err (DuplicateField k)
          else let? _ := d v in visit fields (k :: seen) entries
      end
  end.

(** The elements of a sequence are the fields in order; there are no more of them. *)
Definition in_order (fields : list (string * (value → result unit de_error))) (l : list value)
  : list (string * value) := zip fields.*1 l.
Definition no_more_than (fields : list (string * (value → result unit de_error))) (l : list value)
  : result unit de_error :=
  if (length l <=? length fields)%nat then Ok () else Err InvalidLength.

Definition visit_map (fields : list (string * (value → result unit de_error))) (v : value)
  : result (list (string * value)) de_error :=
  match v with
  | VMap entries => let? _ := visit fields [] entries in Ok entries
  | VSeq l =>
      let? _ := visit fields [] (in_order fields l) in
      let? _ := no_more_than fields l in
      Ok (in_order fields l)
  | _ => Err InvalidType
  end.

(** Where no field has a default, a sequence holds them all. *)
Definition all_present (fields : list (string * (value → result unit de_error))) (v : value)
  : result unit de_error :=
  match v with
  | VSeq l => if (length fields <=? length l)%nat then Ok () else Err InvalidLength
  | _ => Ok ()
  end.

(** The same under [deny_unknown_fields]. *)
Fixpoint visit_strict (fields : list (string * (value → result unit de_error))) (seen : list string)
    (entries : list (string * value)) : result unit de_error :=
  match entries with
  | [] => Ok ()
  | (k, v) :: entries =>
      match assoc k fields with
      | None => Err (UnknownField k)
      | Some d =>
          if existsb (String.eqb k) seen then Err (DuplicateField k)
          else let? _ := d v in visit_strict fields (k :: seen) entries
      end
  end.
Definition visit_map_strict (fields : list (string * (value → result unit de_error))) (v : value)
  : result (list (string * value)) de_error :=
  match v with
  | VMap entries => let? _ := visit_strict fields [] entries in Ok entries
  | VSeq l =>
      let? _ := visit_strict fields [] (in_order fields l) in
      let? _ := no_more_than fields l in
      Ok (in_order fields l)
  | _ => Err InvalidType
  end.

(** A sequence with no more elements than there are fields reads as the map that names its
    elements in order. *)
Lemma visit_map_in_order fields l :
  (length l ≤ length fields)%nat → visit_map fields (VSeq l) = visit_map fields (VMap (in_order fields l)).
Proof. intros Hl. unfold visit_map, no_more_than. by rewrite (proj2 (Nat.leb_le _ _) Hl). Qed.
Lemma visit_map_strict_in_order fields l :
  (length l ≤ length fields)%nat →
  visit_map_strict fields (VSeq l) = visit_map_strict fields (VMap (in_order fields l)).
Proof. intros Hl. unfold visit_map_strict, no_more_than. by rewrite (proj2 (Nat.leb_le _ _) Hl). Qed.

(** A field of a visited map, or its default. *)
Definition field {A} (d : value → result A de_error) (missing : A) (k : string)
    (entries : list (string * value)) : result A de_error :=
  match assoc k entries with Some v => d v | None => Ok missing end.

Definition se_option {A} (f : A → value) (o : option A) : value :=
  match o with Some a => f a | None => VNull end.

(** ** Identifiers *)

Section serde.
Context `{SerdeText}.

(* src: core/ids.rs 190-193 uuid_id_serde *)
Definition se_uuid (u : Uuid) : value := VStr (uuid_show u).
(* src: core/ids.rs 195-199 uuid_id_serde *)
Definition de_uuid {A} (wrap : Uuid → A) (v : value) : result A de_error :=
  let? raw := de_str v in
  match uuid_read raw with Some u => Ok (wrap u) | None => Err CustomUuid end.

(* src: core/ids.rs 206-210 CorrelationId *)
Definition se_correlation_id (c : CorrelationId.t) : value := VStr (CorrelationId.as_str c).
(* src: core/ids.rs 211-216 CorrelationId *)
Definition de_correlation_id (v : value) : result CorrelationId.t de_error :=
  let? raw := de_str v in map_err CustomId (CorrelationId.parse raw).

(* src: core/metadata.rs 130-135 EndpointAddress *)
Definition se_endpoint (a : EndpointAddress.t) : value := VStr (EndpointAddress.as_str a).
(* src: core/metadata.rs 137-143 EndpointAddress *)
Definition de_endpoint (v : value) : result EndpointAddress.t de_error :=
  let? raw := de_str v in map_err CustomId (EndpointAddress.parse raw).

(* src: core/content_type.rs 148-153 ContentType *)
Definition se_content_type (c : ContentType.t) : value := VStr (ContentType.as_str c).
(* src: core/content_type.rs 155-161 ContentType *)
Definition de_content_type (v : value) : result ContentType.t de_error :=
  let? raw := de_str v in map_err CustomContentType (ContentType.parse raw).

(** [time::serde::rfc3339::option]. *)
Definition se_time (o : option OffsetDateTime) : option value :=
  match o with None => Some VNull | Some t => VStr <$> rfc3339_show t end.
Definition de_time (v : value) : result (option OffsetDateTime) de_error :=
  de_option (λ v, let? raw := de_str v in
                  match rfc3339_read raw with Some t => Ok t | None => Err CustomTime end) v.

(** ** The metadata *)

(* src: core/metadata.rs 216-235 CorrelationMetadata *)
Definition se_correlation (c : CorrelationMetadata.t) : value :=
  VMap [("correlation_id", se_option se_correlation_id (CorrelationMetadata.correlation_id c));
        ("conversation_id", se_uuid (ConversationId.as_uuid (CorrelationMetadata.conversation_id c)));
        ("causation_id",
          se_option (se_uuid ∘ MessageId.as_uuid) (CorrelationMetadata.causation_id c));
        ("request_id", se_option (se_uuid ∘ RequestId.as_uuid) (CorrelationMetadata.request_id c))].

(* src: core/metadata.rs 236-267 CorrelationMetadata *)
Definition de_correlation (v : value) : result CorrelationMetadata.t de_error :=
  let? m := visit_map
    [("correlation_id", checks (de_option de_correlation_id));
     ("conversation_id", checks (de_uuid ConversationId.from_uuid));
     ("causation_id", checks (de_option (de_uuid MessageId.from_uuid)));
     ("request_id", checks (de_option (de_uuid RequestId.from_uuid)))] v in
  let? correlation_id := field (de_option de_correlation_id) None "correlation_id" m in
  let? conversation_id :=
    field (de_uuid ConversationId.from_uuid) ConversationId.UNSET "conversation_id" m in
  let? causation_id := field (de_option (de_uuid MessageId.from_uuid)) None "causation_id" m in
  let? request_id := field (de_option (de_uuid RequestId.from_uuid)) None "request_id" m in
  Ok (CorrelationMetadata.mk correlation_id conversation_id causation_id request_id).

(** Derived, without defaults; a missing [Option] field of a map reads as [None]. *)
(* src: core/metadata.rs 61-69 TraceContext *)
Definition se_trace (c : TraceContext.t) : value :=
  VMap [("traceparent", se_option VStr (TraceContext.traceparent c));
        ("tracestate", se_option VStr (TraceContext.tracestate c))].
(* src: core/metadata.rs 61-69 TraceContext *)
Definition de_trace (v : value) : result TraceContext.t de_error :=
  let fields := [("traceparent", checks (de_option de_str));
                 ("tracestate", checks (de_option de_str))] in
  let? m := visit_map fields v in
  let? _ := all_present fields v in
  let? traceparent := field (de_option de_str) None "traceparent" m in
  let? tracestate := field (de_option de_str) None "tracestate" m in
  Ok (TraceContext.mk traceparent tracestate).

(* src: core/metadata.rs 269-284 RoutingMetadata *)
Definition se_routing (r : RoutingMetadata.t) : value :=
  VMap [("source", se_option se_endpoint (RoutingMetadata.source r));
        ("destination", se_option se_endpoint (RoutingMetadata.destination r));
        ("reply_to", se_option se_endpoint (RoutingMetadata.reply_to r))].
(* src: core/metadata.rs 285-303 RoutingMetadata *)
Definition de_routing (v : value) : result RoutingMetadata.t de_error :=
  let? m := visit_map [("source", checks (de_option de_endpoint));
                       ("destination", checks (de_option de_endpoint));
                       ("reply_to", checks (de_option de_endpoint))] v in
  let? source := field (de_option de_endpoint) None "source" m in
  let? destination := field (de_option de_endpoint) None "destination" m in
  let? reply_to := field (de_option de_endpoint) None "reply_to" m in
  Ok (RoutingMetadata.mk source destination reply_to).

(* src: core/metadata.rs 305-324 DeliveryMetadata *)
Definition se_delivery (d : DeliveryMetadata.t) : option value :=
  sent_at ← se_time (DeliveryMetadata.sent_at d);
  expires_at ← se_time (DeliveryMetadata.expires_at d);
  Some (VMap [("content_type", se_content_type (DeliveryMetadata.content_type d));
              ("sent_at", sent_at); ("expires_at", expires_at);
              ("deduplication_id", se_option VStr (DeliveryMetadata.deduplication_id d))]).
(* src: core/metadata.rs 325-353 DeliveryMetadata *)
Definition de_delivery (v : value) : result DeliveryMetadata.t de_error :=
  let? m := visit_map [("content_type", checks de_content_type); ("sent_at", checks de_time);
                       ("expires_at", checks de_time);
                       ("deduplication_id", checks (de_option de_str))] v in
  let? content_type := field de_content_type ContentType.JSON "content_type" m in
  let? sent_at := field de_time None "sent_at" m in
  let? expires_at := field de_time None "expires_at" m in
  let? deduplication_id := field (de_option de_str) None "deduplication_id" m in
  Ok (DeliveryMetadata.mk content_type sent_at expires_at deduplication_id).

(** [None] is the error of a timestamp that does not format. *)
(* src: core/metadata.rs 190-209 Metadata *)
Definition se_metadata (m : Metadata.t) : option value :=
  delivery ← se_delivery (Metadata.delivery m);
  Some (VMap [("correlation", se_correlation (Metadata.correlation m));
              ("trace", se_trace (Metadata.trace m));
              ("routing", se_routing (Metadata.routing m));
              ("delivery", delivery);
              ("tenant_id", se_option VStr (Metadata.tenant_id m))]).
(* src: core/metadata.rs 190-214 Metadata *)
Definition de_metadata (v : value) : result Metadata.t de_error :=
  let? m := visit_map [("correlation", checks de_correlation); ("trace", checks de_trace);
                       ("routing", checks de_routing); ("delivery", checks de_delivery);
                       ("tenant_id", checks (de_option de_str))] v in
  let? correlation := field de_correlation CorrelationMetadata.default "correlation" m in
  let? trace := field de_trace TraceContext.default "trace" m in
  let? routing := field de_routing RoutingMetadata.default "routing" m in
  let? delivery := field de_delivery DeliveryMetadata.default "delivery" m in
  let? tenant_id := field (de_option de_str) None "tenant_id" m in
  Ok (Metadata.mk correlation trace routing delivery tenant_id).

(** ** Metadata that the constructors can make *)

Definition correlation_wf (c : CorrelationMetadata.t) : Prop :=
  ∀ a, CorrelationMetadata.correlation_id c = Some a → CorrelationId.parse (CorrelationId.as_str a) = Ok a.
Definition endpoint_wf (o : option EndpointAddress.t) : Prop :=
  ∀ a, o = Some a → EndpointAddress.parse (EndpointAddress.as_str a) = Ok a.
Definition routing_wf (r : RoutingMetadata.t) : Prop :=
  endpoint_wf (RoutingMetadata.source r) ∧ endpoint_wf (RoutingMetadata.destination r)
  ∧ endpoint_wf (RoutingMetadata.reply_to r).
Definition delivery_wf (d : DeliveryMetadata.t) : Prop :=
  ContentType.parse (ContentType.as_str (DeliveryMetadata.content_type d))
  = Ok (DeliveryMetadata.content_type d).
Definition metadata_wf (m : Metadata.t) : Prop :=
  correlation_wf (Metadata.correlation m) ∧ routing_wf (Metadata.routing m)
  ∧ delivery_wf (Metadata.delivery m).

(** ** Each field reads back *)

Lemma de_option_se {A} (d : value → result A de_error) (f : A → value) o :
  (∀ a, o = Some a → d (f a) = Ok a ∧ f a ≠ VNull) → de_option d (se_option f o) = Ok o.
Proof.
  intros Hf. destruct o as [a|]; [|done]. destruct (Hf a eq_refl) as [Hd Hn]. cbn.
  destruct (f a) eqn:E; try done; cbn; by rewrite Hd.
Qed.

Lemma de_str_se o : de_option de_str (se_option VStr o) = Ok o.
Proof. by apply de_option_se. Qed.
Lemma de_correlation_id_se c :
  correlation_wf c →
  de_option de_correlation_id
    (se_option se_correlation_id (CorrelationMetadata.correlation_id c))
  = Ok (CorrelationMetadata.correlation_id c).
Proof. intros Hc. apply de_option_se. intros a Ha. cbn. by rewrite (Hc a Ha). Qed.
Lemma de_endpoint_se o : endpoint_wf o → de_option de_endpoint (se_option se_endpoint o) = Ok o.
Proof. intros Hw. apply de_option_se. intros a Ha. cbn. by rewrite (Hw a Ha). Qed.

Context `{!SerdeTextLaws}.
Lemma de_uuid_se {A} (wrap : Uuid → A) u : de_uuid wrap (se_uuid u) = Ok (wrap u).
Proof. cbn. by rewrite uuid_read_show. Qed.
Lemma de_option_uuid_se {A} (wrap : Uuid → A) (unwrap : A → Uuid) o :
  (∀ a, wrap (unwrap a) = a) → de_option (de_uuid wrap) (se_option (se_uuid ∘ unwrap) o) = Ok o.
Proof. intros Hw. apply de_option_se. intros a _. cbn. by rewrite uuid_read_show, Hw. Qed.
Lemma de_time_se o v : se_time o = Some v → de_time v = Ok o.
Proof.
  destruct o as [t|]; cbn; [|by intros [= <-]].
  destruct (rfc3339_show t) as [s|] eqn:Es; cbn; [|done]. intros [= <-]. cbn.
  by rewrite (rfc3339_read_show _ _ Es).
Qed.

(** ** Each struct reads back, whichever of its fields are missing *)

Definition keep_fields (keep : string → bool) (l : list (string * value)) : list (string * value) :=
  List.filter (λ p, keep p.1) l.
Definition kept {A} (keep : string → bool) (k : string) (a missing : A) : A :=
  if keep k then a else missing.

Ltac eval_visit :=
  cbv beta iota zeta delta [visit_map all_present visit assoc String.eqb Ascii.eqb Bool.eqb existsb orb field
                       checks result_bind].
Ltac read_struct :=
  intros; unfold keep_fields, kept; cbn [List.filter fst];
  repeat match goal with |- context [if ?keep ?k then _ else _] => destruct (keep k) end;
  eval_visit;
  repeat (match goal with E : ?d ?v = Ok _ |- context [?d ?v] => rewrite E end; eval_visit);
  reflexivity.

Lemma correlation_fields keep v1 v2 v3 v4 a1 a2 a3 a4 :
  de_option de_correlation_id v1 = Ok a1 → de_uuid ConversationId.from_uuid v2 = Ok a2 →
  de_option (de_uuid MessageId.from_uuid) v3 = Ok a3 →
  de_option (de_uuid RequestId.from_uuid) v4 = Ok a4 →
  de_correlation (VMap (keep_fields keep [("correlation_id", v1); ("conversation_id", v2);
                                          ("causation_id", v3); ("request_id", v4)]))
  = Ok (CorrelationMetadata.mk (kept keep "correlation_id" a1 None)
          (kept keep "conversation_id" a2 ConversationId.UNSET)
          (kept keep "causation_id" a3 None) (kept keep "request_id" a4 None)).
Proof. unfold de_correlation. read_struct. Qed.

Lemma trace_fields keep v1 v2 a1 a2 :
  de_option de_str v1 = Ok a1 → de_option de_str v2 = Ok a2 →
  de_trace (VMap (keep_fields keep [("traceparent", v1); ("tracestate", v2)]))
  = Ok (TraceContext.mk (kept keep "traceparent" a1 None) (kept keep "tracestate" a2 None)).
Proof. unfold de_trace. read_struct. Qed.

Lemma routing_fields keep v1 v2 v3 a1 a2 a3 :
  de_option de_endpoint v1 = Ok a1 → de_option de_endpoint v2 = Ok a2 →
  de_option de_endpoint v3 = Ok a3 →
  de_routing (VMap (keep_fields keep [("source", v1); ("destination", v2); ("reply_to", v3)]))
  = Ok (RoutingMetadata.mk (kept keep "source" a1 None) (kept keep "destination" a2 None)
          (kept keep "reply_to" a3 None)).
Proof. unfold de_routing. read_struct. Qed.

Lemma delivery_fields keep v1 v2 v3 v4 a1 a2 a3 a4 :
  de_content_type v1 = Ok a1 → de_time v2 = Ok a2 → de_time v3 = Ok a3 →
  de_option de_str v4 = Ok a4 →
  de_delivery (VMap (keep_fields keep [("content_type", v1); ("sent_at", v2); ("expires_at", v3);
                                       ("deduplication_id", v4)]))
  = Ok (DeliveryMetadata.mk (kept keep "content_type" a1 ContentType.JSON)
          (kept keep "sent_at" a2 None) (kept keep "expires_at" a3 None)
          (kept keep "deduplication_id" a4 None)).
Proof. unfold de_delivery. read_struct. Qed.

Lemma metadata_fields keep v1 v2 v3 v4 v5 a1 a2 a3 a4 a5 :
  de_correlation v1 = Ok a1 → de_trace v2 = Ok a2 → de_routing v3 = Ok a3 →
  de_delivery v4 = Ok a4 → de_option de_str v5 = Ok a5 →
  de_metadata (VMap (keep_fields keep [("correlation", v1); ("trace", v2); ("routing", v3);
                                       ("delivery", v4); ("tenant_id", v5)]))
  = Ok (Metadata.mk (kept keep "correlation" a1 CorrelationMetadata.default)
          (kept keep "trace" a2 TraceContext.default)
          (kept keep "routing" a3 RoutingMetadata.default)
          (kept keep "delivery" a4 DeliveryMetadata.default)
          (kept keep "tenant_id" a5 None)).
Proof. unfold de_metadata. read_struct. Qed.

(** ** Missing fields *)

(** A value without the fields [top] and, inside the sub-structs, [nested] drop. *)
Definition drop_fields (top : string → bool) (nested : string → string → bool) (v : value) : value :=
  match v with
  | VMap l =>
      VMap (keep_fields top
              ((λ p, (p.1, match p.2 with
                           | VMap l' => VMap (keep_fields (nested p.1) l')
                           | v' => v'
                           end)) <$> l))
  | _ => v
  end.

(** The metadata with the dropped fields at their defaults. *)
Definition at_defaults (top : string → bool) (nested : string → string → bool) (m : Metadata.t)
  : Metadata.t :=
  let c := Metadata.correlation m in
  let t := Metadata.trace m in
  let r := Metadata.routing m in
  let d := Metadata.delivery m in
  Metadata.mk
    (kept top "correlation"
       (CorrelationMetadata.mk
          (kept (nested "correlation") "correlation_id" (CorrelationMetadata.correlation_id c) None)
          (kept (nested "correlation") "conversation_id" (CorrelationMetadata.conversation_id c)
             ConversationId.UNSET)
          (kept (nested "correlation") "causation_id" (CorrelationMetadata.causation_id c) None)
          (kept (nested "correlation") "request_id" (CorrelationMetadata.request_id c) None))
       CorrelationMetadata.default)
    (kept top "trace"
       (TraceContext.mk (kept (nested "trace") "traceparent" (TraceContext.traceparent t) None)
          (kept (nested "trace") "tracestate" (TraceContext.tracestate t) None))
       TraceContext.default)
    (kept top "routing"
       (RoutingMetadata.mk (kept (nested "routing") "source" (RoutingMetadata.source r) None)
          (kept (nested "routing") "destination" (RoutingMetadata.destination r) None)
          (kept (nested "routing") "reply_to" (RoutingMetadata.reply_to r) None))
       RoutingMetadata.default)
    (kept top "delivery"
       (DeliveryMetadata.mk
          (kept (nested "delivery") "content_type" (DeliveryMetadata.content_type d) ContentType.JSON)
          (kept (nested "delivery") "sent_at" (DeliveryMetadata.sent_at d) None)
          (kept (nested "delivery") "expires_at" (DeliveryMetadata.expires_at d) None)
          (kept (nested "delivery") "deduplication_id" (DeliveryMetadata.deduplication_id d) None))
       DeliveryMetadata.default)
    (kept top "tenant_id" (Metadata.tenant_id m) None).

Lemma at_defaults_all m : at_defaults (λ _, true) (λ _ _, true) m = m.
Proof. by destruct m as [[] [] [] [] ?]. Qed.

Lemma keep_fields_all l : keep_fields (λ _, true) l = l.
Proof. unfold keep_fields. induction l as [|p l IH]; [done|]. cbn. by rewrite IH. Qed.

Lemma se_metadata_inv m v :
  se_metadata m = Some v →
  ∃ v1 v2, se_time (DeliveryMetadata.sent_at (Metadata.delivery m)) = Some v1
    ∧ se_time (DeliveryMetadata.expires_at (Metadata.delivery m)) = Some v2
    ∧ v = VMap [("correlation", se_correlation (Metadata.correlation m));
                ("trace", se_trace (Metadata.trace m));
                ("routing", se_routing (Metadata.routing m));
                ("delivery",
                  VMap [("content_type", se_content_type (DeliveryMetadata.content_type (Metadata.delivery m)));
                        ("sent_at", v1); ("expires_at", v2);
                        ("deduplication_id",
                          se_option VStr (DeliveryMetadata.deduplication_id (Metadata.delivery m)))]);
                ("tenant_id", se_option VStr (Metadata.tenant_id m))].
Proof.
  unfold se_metadata, se_delivery. intros Hs.
  destruct (se_time (DeliveryMetadata.sent_at _)) as [v1|] eqn:E1; cbn in Hs; [|done].
  destruct (se_time (DeliveryMetadata.expires_at _)) as [v2|] eqn:E2; cbn in Hs; [|done].
  injection Hs as <-. by exists v1, v2.
Qed.

Lemma drop_fields_all m v : se_metadata m = Some v → drop_fields (λ _, true) (λ _ _, true) v = v.
Proof.
  intros (v1 & v2 & _ & _ & ->)%se_metadata_inv. unfold drop_fields.
  rewrite keep_fields_all. cbn -[keep_fields]. rewrite !keep_fields_all.
  by destruct (Metadata.tenant_id m).
Qed.

Lemma de_metadata_dropped top nested m v :
  metadata_wf m → se_metadata m = Some v →
  de_metadata (drop_fields top nested v) = Ok (at_defaults top nested m).
Proof.
  intros (Hc & (Hs & Hd & Hr) & Hct) (v1 & v2 & E1 & E2 & ->)%se_metadata_inv.
  unfold drop_fields, at_defaults. cbn [fmap list_fmap fst snd se_correlation se_trace se_routing].
  apply metadata_fields.
  - apply correlation_fields; [by apply de_correlation_id_se|by rewrite de_uuid_se; destruct (CorrelationMetadata.conversation_id _)|by apply de_option_uuid_se; intros []..].
  - apply trace_fields; apply de_str_se.
  - apply routing_fields; by apply de_endpoint_se.
  - apply delivery_fields; [|by apply de_time_se..|apply de_str_se].
    unfold delivery_wf in Hct. cbn. by rewrite Hct.
  - destruct (Metadata.tenant_id m); done.
Qed.

(** ** Unknown fields *)

Definition known (fields : list (string * (value → result unit de_error))) (k : string) : bool :=
  match assoc k fields with Some _ => true | None => false end.

Lemma visit_known fields seen l : visit fields seen (keep_fields (known fields) l) = visit fields seen l.
Proof.
  revert seen; induction l as [|[k v] l IH]; intros seen; [done|]. unfold keep_fields, known in *.
  cbn [List.filter fst visit]. destruct (assoc k fields) as [d|] eqn:Ek; [|apply IH].
  cbn [visit]. rewrite Ek. destruct (existsb _ _); [done|]. destruct (d v); [apply IH|done].
Qed.

Lemma assoc_kept {A} keep k (l : list (string * A)) :
  keep k = true → assoc k (List.filter (λ p, keep p.1) l) = assoc k l.
Proof.
  intros Hk. induction l as [|[k' v] l IH]; [done|]. cbn [List.filter fst].
  destruct (keep k') eqn:Ek'; cbn [assoc]; [by rewrite IH|].
  destruct (String.eqb_spec k k') as [->|]; [congruence|done].
Qed.

Definition metadata_field (k : string) : bool :=
  existsb (String.eqb k) ["correlation"; "trace"; "routing"; "delivery"; "tenant_id"].

Lemma de_metadata_known l : de_metadata (VMap (keep_fields metadata_field l)) = de_metadata (VMap l).
Proof.
  unfold de_metadata, visit_map. set (fields := [("correlation", _); _; _; _; _]).
  assert (Hk : ∀ k, metadata_field k = known fields k).
  { intros k. unfold metadata_field, known, fields. cbn [existsb assoc].
    repeat (destruct (String.eqb k _); [done|]). done. }
  assert (Hl : keep_fields metadata_field l = keep_fields (known fields) l).
  { unfold keep_fields. apply List.filter_ext. intros p. apply Hk. }
  rewrite Hl at 1. rewrite visit_known. destruct (visit fields [] l); [|done].
  cbn [result_bind]. unfold field, keep_fields. by rewrite !assoc_kept.
Qed.

(** The names of the fields, as they are declared and written. *)
Definition metadata_names : list string := ["correlation"; "trace"; "routing"; "delivery"; "tenant_id"].

Lemma de_metadata_in_order l :
  (length l ≤ 5)%nat → de_metadata (VSeq l) = de_metadata (VMap (zip metadata_names l)).
Proof. intros Hl. unfold de_metadata. by rewrite visit_map_in_order. Qed.

Lemma drop_fields_top top l : drop_fields top (λ _ _, true) (VMap l) = VMap (keep_fields top l).
Proof.
  unfold drop_fields. do 2 f_equal. rewrite <-(list_fmap_id l) at 2. apply list_fmap_ext.
  intros i [k []] _; cbn; by rewrite ?keep_fields_all.
Qed.

(** The first [n] of the values written, without their names. *)
Lemma de_metadata_positional n l m :
  metadata_wf m → se_metadata m = Some (VMap l) →
  de_metadata (VSeq (take n l.*2))
  = Ok (at_defaults (λ k, bool_decide (k ∈ take n metadata_names)) (λ _ _, true) m).
Proof.
  intros Hwf Hs. rewrite <-(de_metadata_dropped _ _ _ _ Hwf Hs), drop_fields_top.
  destruct (se_metadata_inv _ _ Hs) as (v1 & v2 & _ & _ & [= ->]).
  rewrite de_metadata_in_order by (rewrite length_take; cbn; lia).
  do 5 (destruct n as [|n]; [done|]). by destruct n.
Qed.

(** ** Whatever is read is well formed *)

Lemma de_option_Ok {A} (d : value → result A de_error) v a :
  de_option d v = Ok (Some a) → d v = Ok a.
Proof. destruct v; cbn; try done; destruct (d _); cbn; congruence. Qed.

Lemma field_Some {A} (d : value → result A de_error) k l a :
  field (de_option d) None k l = Ok (Some a) → ∃ v, d v = Ok a.
Proof. unfold field. destruct (assoc k l) as [v|]; [|done]. intros ?%de_option_Ok. eauto. Qed.

(** A parser keeps the text it accepts. *)
Ltac reparse := intros Hp; revert Hp; repeat case_match; try done; intros [= <-]; done.
Lemma correlation_id_text s c : CorrelationId.parse s = Ok c → CorrelationId.as_str c = s.
Proof. unfold CorrelationId.parse. reparse. Qed.
Lemma endpoint_text s a : EndpointAddress.parse s = Ok a → EndpointAddress.as_str a = s.
Proof. unfold EndpointAddress.parse. reparse. Qed.
Lemma content_type_text s c : ContentType.parse s = Ok c → ContentType.as_str c = s.
Proof. unfold ContentType.parse. reparse. Qed.

Lemma de_correlation_id_Ok v a :
  de_correlation_id v = Ok a → CorrelationId.parse (CorrelationId.as_str a) = Ok a.
Proof.
  intros (raw & _ & Hp%map_err_Ok)%result_bind_Ok. by rewrite (correlation_id_text _ _ Hp).
Qed.
Lemma de_endpoint_Ok v a :
  de_endpoint v = Ok a → EndpointAddress.parse (EndpointAddress.as_str a) = Ok a.
Proof. intros (raw & _ & Hp%map_err_Ok)%result_bind_Ok. by rewrite (endpoint_text _ _ Hp). Qed.
Lemma de_content_type_Ok v a :
  de_content_type v = Ok a → ContentType.parse (ContentType.as_str a) = Ok a.
Proof. intros (raw & _ & Hp%map_err_Ok)%result_bind_Ok. by rewrite (content_type_text _ _ Hp). Qed.

Ltac fields Hd :=
  repeat (apply result_bind_Ok in Hd; let x := fresh "x" in let E := fresh "E" in
          destruct Hd as (x & E & Hd)).

Lemma correlation_read v c : de_correlation v = Ok c → correlation_wf c.
Proof.
  unfold de_correlation. intros Hd. fields Hd. injection Hd as <-. intros a. cbn. intros ->.
  apply field_Some in E0 as [v0 Hv]. by eapply de_correlation_id_Ok.
Qed.

Lemma routing_read v r : de_routing v = Ok r → routing_wf r.
Proof.
  unfold de_routing. intros Hd. fields Hd. injection Hd as <-.
  split_and!; intros a; cbn; intros ->; repeat match goal with
    | E : field _ None _ _ = Ok (Some _) |- _ => apply field_Some in E as [? ?]
    end; by eapply de_endpoint_Ok.
Qed.

Lemma delivery_read v d : de_delivery v = Ok d → delivery_wf d.
Proof.
  unfold de_delivery. intros Hd. fields Hd. injection Hd as <-. unfold delivery_wf. cbn.
  unfold field in E0. destruct (assoc _ x) as [v0|]; [by eapply de_content_type_Ok|].
  injection E0 as <-. vm_compute. reflexivity.
Qed.

Lemma metadata_read v m : de_metadata v = Ok m → metadata_wf m.
Proof.
  unfold de_metadata. intros Hd. fields Hd. injection Hd as <-. unfold field in *.
  split_and!; cbn.
  - destruct (assoc "correlation" x); [by eapply correlation_read|by injection E0 as <-].
  - destruct (assoc "routing" x); [by eapply routing_read|by injection E2 as <-].
  - destruct (assoc "delivery" x); [by eapply delivery_read|]. injection E3 as <-.
    vm_compute. reflexivity.
Qed.

(** C30 [roundtrip] Metadata survives serde, in both directions of evolution: whatever the
    constructors can make and whose timestamps format is written as a value that reads
    back as the same metadata; a value that lacks any of the fields, at the top or inside a
    sub-struct, reads back with exactly those at their defaults - in particular a missing
    conversation id is the unset one, never a fresh one; fields unknown at the top are
    ignored; and a sequence of the values without their names, cut anywhere, reads as the
    fields it reaches. *)
Theorem metadata_survives_serde (m : Metadata.t) (v : value) (top : string → bool)
    (nested : string → string → bool) (Hwf : metadata_wf m) (Hs : se_metadata m = Some v) :
  de_metadata v = Ok m
  ∧ de_metadata (drop_fields top nested v) = Ok (at_defaults top nested m)
  ∧ (∀ l l', v = VMap l → keep_fields metadata_field l' = l → de_metadata (VMap l') = Ok m)
  ∧ ∀ l n, v = VMap l →
      de_metadata (VSeq (take n l.*2))
      = Ok (at_defaults (λ k, bool_decide (k ∈ take n metadata_names)) (λ _ _, true) m).
Proof.
  assert (Hv : de_metadata v = Ok m).
  { pose proof (de_metadata_dropped (λ _, true) (λ _ _, true) m v Hwf Hs) as Hd.
    by rewrite (drop_fields_all _ _ Hs), at_defaults_all in Hd. }
  split_and!; [done|by apply de_metadata_dropped| |].
  - intros l l' -> Hl. by rewrite <-de_metadata_known, Hl.
  - intros l n ->. by apply de_metadata_positional.
Qed.

(** Reading metadata cannot make an invalid one: whatever value is given - any map, with
    any entries in any order - if it is accepted, every identifier, address and content
    type in the result is one its constructor accepts. *)
Theorem metadata_read_is_well_formed (v : value) (m : Metadata.t) (Hd : de_metadata v = Ok m) :
  metadata_wf m.
Proof. by eapply metadata_read. Qed.
End serde.

(** ** An instance *)

Definition text_serde : SerdeText := {|
  uuid_show := z_text;
  uuid_read := z_read;
  rfc3339_show t := Some (z_text t);
  rfc3339_read := z_read;
|}.
Lemma text_serde_laws : SerdeTextLaws (H := text_serde).
Proof. split; [apply z_read_text|]. intros t s [= <-]. apply z_read_text. Qed.

Definition sample_metadata : Metadata.t :=
  Metadata.mk (CorrelationMetadata.mk (Some (CorrelationId.mk "c-1")) (ConversationId.from_uuid 5)
                 None (Some (RequestId.from_uuid 9)))
    (TraceContext.mk (Some "00-ab-cd-01") None)
    (RoutingMetadata.mk (Some (EndpointAddress.mk "shop")) None None)
    (DeliveryMetadata.mk ContentType.JSON (Some 1000) None (Some "dedup")) None.
Definition sample_value : value :=
  default VNull (se_metadata (H := text_serde) sample_metadata).

(** Without the conversation id and the whole delivery. *)
Lemma metadata_survives_serde_witness :
  metadata_wf sample_metadata
  ∧ de_metadata (H := text_serde)
      (drop_fields (λ k, negb (String.eqb k "delivery"))
         (λ _ k, negb (String.eqb k "conversation_id")) sample_value)
    = Ok (Metadata.set_conversation ConversationId.UNSET
            (Metadata.set_delivery DeliveryMetadata.default sample_metadata))
  ∧ de_metadata (H := text_serde) (VSeq [VSeq []; VSeq [VNull; VStr "a=1"]])
    = Ok (Metadata.mk CorrelationMetadata.default (TraceContext.mk None (Some "a=1"))
            RoutingMetadata.default DeliveryMetadata.default None)
  ∧ de_metadata (H := text_serde) (VSeq [VSeq []; VSeq [VNull]]) = Err InvalidLength.
Proof.
  assert (Hwf : metadata_wf sample_metadata).
  { unfold metadata_wf, routing_wf, endpoint_wf, correlation_wf.
    split_and!; intros; cbn in *; simplify_eq; vm_compute; reflexivity. }
  split; [exact Hwf|]. split; [|by vm_compute].
  exact (proj1 (proj2 (metadata_survives_serde (H := text_serde) (H0 := text_serde_laws)
    sample_metadata sample_value (λ k, negb (String.eqb k "delivery"))
    (λ _ k, negb (String.eqb k "conversation_id")) Hwf eq_refl))).
Defined.

Lemma metadata_read_is_well_formed_witness :
  ∃ m, de_metadata (H := text_serde) sample_value = Ok m ∧ metadata_wf m.
Proof.
  exists sample_metadata. assert (Hd : de_metadata (H := text_serde) sample_value = Ok sample_metadata)
    by (vm_compute; reflexivity).
  split; [exact Hd|].
  exact (metadata_read_is_well_formed (H := text_serde) sample_value sample_metadata Hd).
Defined.
