(* ===== verification/NatsSubject.v ===== *)
(** * Subjects ([reliar-transport-nats], subject.rs and [SubjectError] of error.rs)

    The resolvers that choose the subject an envelope is published to.
    [async_nats::Subject] wraps the string it is built from, and is that string here. *)

From Stdlib Require Import Ascii.
From S2P Require Import Prelude RustString CoreTypes CoreHeaders CoreEnvelope.

Module SubjectError.
  (* src: nats/error.rs 104-131 SubjectError *)
Inductive t :=
  | Empty
  | EmptyToken (subject : string)
  | Wildcard (subject : string)
  | IllegalCharacter (subject : string)
  | TooLong (len limit : Z).
  (* src: nats/error.rs 133-136 SubjectError::MAX_LEN *)
Definition MAX_LEN : Z := 255.
Global Instance eq_dec : EqDecision t.
Proof. solve_decision. Defined.
End SubjectError.

(** [str::contains] of a one-byte character. *)
Definition contains_byte (b : Z) (s : string) : bool := existsb (Z.eqb b) (as_bytes s).

(** The loop over the tokens of [subject]. *)
(* src: nats/subject.rs 130-141 validate_subject *)
Fixpoint validate_tokens (subject : string) (tokens : list string) : result unit SubjectError.t :=
  match tokens with
  | [] => Ok ()
  | token :: tokens' =>
      if is_empty token then Err (SubjectError.EmptyToken subject)
      else if contains_byte 42 token || contains_byte 62 token
      then Err (SubjectError.Wildcard subject)
      else validate_tokens subject tokens'
  end.

(* src: nats/subject.rs 115-143 validate_subject *)
Definition validate_subject (subject : string) : result unit SubjectError.t :=
  if is_empty subject then Err SubjectError.Empty
  else if len subject >? SubjectError.MAX_LEN
  then Err (SubjectError.TooLong (len subject) SubjectError.MAX_LEN)
  else if existsb (λ b, negb ((33 <=? b) && (b <=? 126))) (as_bytes subject)
  then Err (SubjectError.IllegalCharacter subject)
  else validate_tokens subject (RustString.split "."%char subject).

(* src: nats/subject.rs 12-24 SubjectResolver *)
Class SubjectResolver (R SE : Type) :=
  subject : R → SerializedEnvelope → result string SE.

Module PrefixSubjects.
  (* src: nats/subject.rs 30-34 PrefixSubjects *)
Record t := mk { prefix : string }.
  (* src: nats/subject.rs 38-38 PrefixSubjects::DEFAULT_PREFIX *)
Definition DEFAULT_PREFIX : string := "reliar".
  (* src: nats/subject.rs 46-50 PrefixSubjects::new *)
Definition new (prefix : string) : result t SubjectError.t :=
  let? _ := validate_subject prefix in Ok (mk prefix).
  (* src: nats/subject.rs 63-67 PrefixSubjects::default *)
Definition default : t := mk DEFAULT_PREFIX.
  (* src: nats/subject.rs 73-77 PrefixSubjects::subject *)
Global Instance resolver : SubjectResolver t SubjectError.t := λ self e,
  let resolved := prefix self +:+ "." +:+ MessageType.display (Envelope.message_type e) in
  let? _ := validate_subject resolved in Ok resolved.
End PrefixSubjects.

Module DestinationSubjects.
  (* src: nats/subject.rs 82-86 DestinationSubjects *)
Record t := mk { fallback : PrefixSubjects.t }.
  (* src: nats/subject.rs 91-93 DestinationSubjects::new *)
Definition new (fallback : PrefixSubjects.t) : t := mk fallback.
  (* src: nats/subject.rs 99-108 DestinationSubjects::subject *)
Global Instance resolver : SubjectResolver t SubjectError.t := λ self e,
  match RoutingMetadata.destination (Metadata.routing (Envelope.metadata e)) with
  | Some destination =>
      let resolved := EndpointAddress.as_str destination in
      let? _ := validate_subject resolved in Ok resolved
  | None => subject (fallback self) e
  end.
End DestinationSubjects.

(** ** What a legal subject is *)

(** The bytes a token may hold: printable ASCII but [' '], ['*'], ['.'] and ['>']. *)
Definition token_byte (b : Z) : Prop := 33 ≤ b ≤ 126 ∧ b ≠ 42 ∧ b ≠ 46 ∧ b ≠ 62.

(** Tokens separated by dots, none empty, none with a wildcard. *)
Definition legal_subject (s : string) : Prop :=
  len s ≤ SubjectError.MAX_LEN
  ∧ ∃ tokens, tokens ≠ [] ∧ s = RustString.join "."%char tokens
      ∧ Forall (λ t, t ≠ EmptyString ∧ Forall token_byte (as_bytes t)) tokens.

Lemma contains_byte_false b s : contains_byte b s = false ↔ Forall (λ x, x ≠ b) (as_bytes s).
Proof.
  unfold contains_byte. induction (as_bytes s) as [|x l IH]; cbn; [split; [by constructor|done]|].
  rewrite orb_false_iff, IH, Forall_cons, Z.eqb_neq. naive_solver.
Qed.

Lemma validate_tokens_Ok s ts :
  validate_tokens s ts = Ok () ↔
  Forall (λ t, t ≠ EmptyString
               ∧ Forall (λ b, b ≠ 42) (as_bytes t) ∧ Forall (λ b, b ≠ 62) (as_bytes t)) ts.
Proof.
  induction ts as [|t ts IH]; cbn; [split; [by constructor|done]|].
  rewrite Forall_cons, <-IH, <-!contains_byte_false.
  destruct t as [|a t]; cbn -[contains_byte]; [naive_solver|].
  destruct (contains_byte 42 _), (contains_byte 62 _); cbn; naive_solver.
Qed.

Lemma existsb_false {A} (p : A → bool) (l : list A) :
  existsb p l = false ↔ Forall (λ x, p x = false) l.
Proof.
  induction l as [|x l IH]; cbn; [split; [by constructor|done]|].
  by rewrite orb_false_iff, IH, Forall_cons.
Qed.

Lemma as_bytes_append s t : as_bytes (s +:+ t) = as_bytes s ++ as_bytes t.
Proof. induction s as [|a s IH]; [done|]. rewrite append_cons. cbn. by rewrite IH. Qed.

Lemma as_bytes_join sep ts (P : Z → Prop) :
  P (byte_val sep) →
  Forall P (as_bytes (RustString.join sep ts)) ↔ Forall (λ t, Forall P (as_bytes t)) ts.
Proof.
  intros Hsep. induction ts as [|t [|t' ts] IH]; [split; by constructor|cbn; rewrite Forall_cons|].
  - split; [by split|by intros [? _]].
  - cbn [RustString.join] in *. rewrite as_bytes_append, Forall_app, Forall_cons. cbn [as_bytes].
    rewrite Forall_cons, IH. naive_solver.
Qed.

(** The pieces of [split] hold no separator, and joining such pieces loses nothing. *)
Lemma split_pieces sep s :
  Forall (λ t, Forall (λ b, b ≠ byte_val sep) (as_bytes t)) (RustString.split sep s).
Proof.
  induction s as [|a s IH]; cbn; [by repeat constructor|].
  case_bool_decide as Ha; [by constructor|].
  assert (byte_val a ≠ byte_val sep).
  { intros Heq. apply Ha. rewrite <-(ascii_N_embedding a), <-(ascii_N_embedding sep).
    unfold byte_val in Heq. f_equal. lia. }
  pose proof (split_nonempty sep s). destruct (RustString.split sep s) as [|p ps]; [done|].
  apply Forall_cons in IH as [Hp Hps]. constructor; [|done]. cbn. by constructor.
Qed.

Lemma split_plain sep t u :
  Forall (λ b, b ≠ byte_val sep) (as_bytes t) →
  RustString.split sep (t +:+ u) = match RustString.split sep u with
                                   | p :: ps => (t +:+ p) :: ps
                                   | [] => []
                                   end.
Proof.
  induction t as [|a t IH]; cbn [as_bytes].
  - intros _. rewrite append_nil_l. destruct (RustString.split sep u); [done|].
    by rewrite append_nil_l.
  - intros [Ha Ht]%Forall_cons. rewrite append_cons. cbn.
    rewrite bool_decide_eq_false_2 by (by intros ->). rewrite IH by done.
    pose proof (split_nonempty sep u). destruct (RustString.split sep u); [done|].
    by rewrite append_cons.
Qed.

Lemma split_join sep ts :
  ts ≠ [] → Forall (λ t, Forall (λ b, b ≠ byte_val sep) (as_bytes t)) ts →
  RustString.split sep (RustString.join sep ts) = ts.
Proof.
  induction ts as [|t [|t' ts] IH]; [done|..]; intros _ [Ht Hts]%Forall_cons.
  - cbn [RustString.join]. rewrite <-(append_nil_r t), split_plain by done. cbn.
    by rewrite append_nil_r.
  - cbn [RustString.join] in *. rewrite split_plain by done. cbn -[RustString.join].
    rewrite bool_decide_eq_true_2 by done. rewrite append_nil_r. f_equal. by apply IH.
Qed.

Lemma validate_subject_legal s : validate_subject s = Ok () ↔ legal_subject s.
Proof.
  unfold validate_subject, legal_subject. rewrite Z.gtb_ltb.
  destruct s as [|a s0]; cbn [is_empty].
  { split; [done|]. intros (_ & ts & Hne & Hj & Hts). destruct ts as [|t ts]; [done|].
    apply Forall_cons in Hts as [[Ht _] _]. by destruct t, ts. }
  set (s := String a s0). destruct (Z.ltb_spec SubjectError.MAX_LEN (len s)) as [Hlen|Hlen].
  { split; [done|]. intros [? _]. lia. }
  destruct (existsb _ (as_bytes s)) eqn:Hb.
  - split; [done|]. intros (_ & ts & _ & Hj & Hts). exfalso.
    assert (Hall : existsb (λ b, negb ((33 <=? b) && (b <=? 126))) (as_bytes s) = false);
      [|by rewrite Hb in Hall].
    apply existsb_false. rewrite Hj. apply as_bytes_join; [done|].
    eapply Forall_impl; [exact Hts|]. cbn. intros t [_ Ht]. eapply Forall_impl; [exact Ht|].
    unfold token_byte. intros b Hb'. apply negb_false_iff, andb_true_iff. lia.
  - rewrite validate_tokens_Ok. split.
    + intros Hts. split; [done|]. exists (RustString.split "."%char s).
      split_and!; [apply split_nonempty|by rewrite join_split|].
      apply existsb_false in Hb. rewrite <-(join_split "."%char s) in Hb.
      apply as_bytes_join in Hb; [|done].
      pose proof (split_pieces "."%char s) as Hdots.
      rewrite Forall_forall in *. intros t Hin. destruct (Hts _ Hin) as (Hne & H1 & H2).
      split; [done|]. specialize (Hb _ Hin). specialize (Hdots _ Hin).
      rewrite Forall_forall in *. intros b Hbin.
      specialize (Hb _ Hbin). apply negb_false_iff, andb_true_iff in Hb.
      specialize (Hdots _ Hbin). change (byte_val "."%char) with 46 in Hdots.
      specialize (H1 _ Hbin). specialize (H2 _ Hbin). unfold token_byte. lia.
    + intros (_ & ts & Hne & -> & Hts). rewrite split_join; [|done|].
      * eapply Forall_impl; [exact Hts|]. cbn. intros t [? Ht]. split; [done|].
        split; (eapply Forall_impl; [exact Ht|]); unfold token_byte; intros; lia.
      * eapply Forall_impl; [exact Hts|]. cbn. intros t [_ Ht].
        eapply Forall_impl; [exact Ht|]. unfold token_byte. change (byte_val "."%char) with 46.
        intros; lia.
Qed.

(** The default resolver yields [prefix.message_type] exactly when that is a
    legal subject: at most 255 bytes, dot-separated tokens, none empty, of printable ASCII
    without a wildcard; the destination resolver yields the destination verbatim under the
    same condition, and the default subject when there is none.  In particular no resolver
    ever publishes to a wildcard. *)
Theorem resolved_subjects_are_legal (p : PrefixSubjects.t) (e : SerializedEnvelope) s :
  (subject p e = Ok s ↔
     s = PrefixSubjects.prefix p +:+ "." +:+ MessageType.display (Envelope.message_type e)
     ∧ legal_subject s)
  ∧ (subject (DestinationSubjects.new p) e = Ok s ↔
       legal_subject s
       ∧ s = match RoutingMetadata.destination (Metadata.routing (Envelope.metadata e)) with
             | Some d => EndpointAddress.as_str d
             | None => PrefixSubjects.prefix p +:+ "."
                       +:+ MessageType.display (Envelope.message_type e)
             end).
Proof.
  assert (Hp : subject p e = Ok s ↔
     s = PrefixSubjects.prefix p +:+ "." +:+ MessageType.display (Envelope.message_type e)
     ∧ legal_subject s).
  { unfold subject, PrefixSubjects.resolver. cbn zeta. rewrite result_bind_Ok. split.
    - intros ([] & Hv & [= <-]). split; [done|]. by apply validate_subject_legal.
    - intros [-> Hs]. exists (). split; [by apply validate_subject_legal|done]. }
  split; [done|]. unfold subject, DestinationSubjects.resolver.
  destruct (RoutingMetadata.destination _) as [d|]; [|cbn; rewrite Hp; naive_solver].
  cbn zeta. rewrite result_bind_Ok. split.
  - intros ([] & Hv & [= <-]). split; [|done]. by apply validate_subject_legal.
  - intros [Hs ->]. exists (). split; [by apply validate_subject_legal|done].
Qed.
