(* ===== verification/OutboxTypes.v ===== *)
(** * The outbox data model ([reliar-outbox], worker.rs, ordering.rs, error.rs,
    record.rs, store.rs, duration_serde.rs)

    The row, the requests and reports of the store interface, the worker id and
    the configuration errors, one [Module] per Rust type.  [u32]/[u64]/[i64]
    fields are [Z]; the builders are functions on the record they consume. *)

From Stdlib Require Import SpecFloat.
From S2P Require Import Prelude RustString CoreTypes CoreHeaders CoreEnvelope.

(** ** [worker.rs] *)

Module WorkerId.
  (* src: outbox/worker.rs 8-22 WorkerId *)
Record t := mk { as_str : string }.
  (* src: outbox/worker.rs 25-26 WorkerId::MAX_LEN *)
Definition MAX_LEN : Z := 128.
(** The process id and the text of a fresh UUID are arguments. *)
  (* src: outbox/worker.rs 28-34 WorkerId::generate *)
Definition generate (pid : Z) (uuid_display : string) : t :=
  mk (display_uint pid +:+ ":" +:+ uuid_display).
  (* src: outbox/worker.rs 36-54 WorkerId::parse *)
Definition parse (s : string) : result t IdError :=
  if is_empty s then Err Empty
  else if len s >? MAX_LEN then Err (TooLong (len s) MAX_LEN)
  else Ok (mk s).
Global Instance eq_dec : EqDecision t.
Proof. solve_decision. Defined.
End WorkerId.

(** ** [ordering.rs] and [error.rs] *)

(* src: outbox/ordering.rs 15-25 Ordering *)
Inductive Ordering := Unordered | PerKey.
Global Instance Ordering_eq_dec : EqDecision Ordering.
Proof. solve_decision. Defined.

(** An [f64] is a binary64 [spec_float]. *)
(* src: outbox/error.rs 13-69 ConfigError *)
Inductive ConfigError :=
  | ZeroInFlight
  | ZeroBatchSize
  | ZeroPollInterval (field : string)
  | StoreTimeoutTooLong (store_timeout lease : Duration)
  | LeaseTooShort (lease publish_timeout : Duration)
  | UnsupportedOrdering (ordering : Ordering) (available_in : string)
  | InvalidJitter (value : spec_float)
  | ZeroMaxAttempts
  | ZeroRetryBase
  | RetryPolicyConflict.

(* src: outbox/ordering.rs 27-44 Ordering::validate *)
Definition ordering_validate (o : Ordering) : result unit ConfigError :=
  match o with
  | Unordered => Ok ()
  | PerKey => Err (UnsupportedOrdering o "0.2")
  end.

(** ** [duration_serde.rs] *)

(** [u64::try_from] of the whole milliseconds, and back. *)
(* src: outbox/duration_serde.rs 13-16 millis::serialize *)
Definition millis_serialize (value : Duration) : option Z :=
  let ms := as_millis value in
  if ms <=? U64_MAX then Some ms else None.
(* src: outbox/duration_serde.rs 18-20 millis::deserialize *)
Definition millis_deserialize (ms : Z) : Duration := from_millis ms.

(** ** [truncate_error] of [record.rs] *)

(* src: outbox/record.rs 9-11 MAX_ERROR_LEN *)
Definition MAX_ERROR_LEN : nat := 2048.
(* src: outbox/record.rs 12-12 TRUNCATION_MARKER *)
Definition TRUNCATION_MARKER : string := "…[truncated]".

(** The [while] loop: the greatest character boundary not above [end_]. *)
(* src: outbox/record.rs 24-27 truncate_error *)
Fixpoint boundary_below (end_ : nat) (s : string) : nat :=
  match end_ with
  | O => O
  | S end' => if is_char_boundary end_ s then end_ else boundary_below end' s
  end.

(* src: outbox/record.rs 14-39 truncate_error *)
Definition truncate_error (error : string) : string :=
  if (String.length error <=? MAX_ERROR_LEN)%nat then error
  else
    let budget := (MAX_ERROR_LEN - String.length TRUNCATION_MARKER)%nat in
    let end_ := boundary_below (Nat.min budget (String.length error)) error in
    str_take end_ error +:+ TRUNCATION_MARKER.

(** ** [store.rs]: references, outcomes, requests and reports *)

(* src: outbox/store.rs 232-245 DeadReason *)
Inductive DeadReason := PermanentError | AttemptsExhausted | Expired | Undecodable.
Global Instance DeadReason_eq_dec : EqDecision DeadReason.
Proof. solve_decision. Defined.

(* src: outbox/store.rs 215-230 FailureOutcome *)
Inductive FailureOutcome :=
  | Retry (delay : Duration)
  | Dead (reason : DeadReason).
Global Instance FailureOutcome_eq_dec : EqDecision FailureOutcome.
Proof. solve_decision. Defined.

Module MessageRef.
  (* src: outbox/store.rs 155-172 MessageRef *)
Record t := new { id : MessageId.t; created_at : OffsetDateTime }.
Global Instance eq_dec : EqDecision t.
Proof. solve_decision. Defined.
End MessageRef.

Module CompletedMessage.
  (* src: outbox/store.rs 174-188 CompletedMessage *)
Record t := new { message : MessageRef.t }.
Global Instance eq_dec : EqDecision t.
Proof. solve_decision. Defined.
End CompletedMessage.

Module FailedMessage.
  (* src: outbox/store.rs 190-200 FailedMessage *)
Record t := mk { message : MessageRef.t; error : string; outcome : FailureOutcome }.
  (* src: outbox/store.rs 202-213 FailedMessage::new *)
Definition new (message : MessageRef.t) (error : string) (outcome : FailureOutcome) : t :=
  mk message (truncate_error error) outcome.
Global Instance eq_dec : EqDecision t.
Proof. solve_decision. Defined.
End FailedMessage.

Module AcquireRequest.
  (* src: outbox/store.rs 13-28 AcquireRequest *)
Record t := mk { worker : WorkerId.t; batch_size : Z; lease : Duration; ordering : Ordering }.
  (* src: outbox/store.rs 30-41 AcquireRequest::new *)
Definition new (worker : WorkerId.t) : t := mk worker 100 (from_secs 30) Unordered.
  (* src: outbox/store.rs 43-48 AcquireRequest::batch_size *)
Definition with_batch_size (n : Z) (r : t) : t := mk (worker r) n (lease r) (ordering r).
  (* src: outbox/store.rs 50-55 AcquireRequest::lease *)
Definition with_lease (d : Duration) (r : t) : t := mk (worker r) (batch_size r) d (ordering r).
  (* src: outbox/store.rs 57-62 AcquireRequest::ordering *)
Definition with_ordering (o : Ordering) (r : t) : t := mk (worker r) (batch_size r) (lease r) o.
End AcquireRequest.

Module PoisonedRow.
  (* src: outbox/store.rs 129-140 PoisonedRow *)
Record t := mk { id : MessageId.t; sequence : Z; error : string }.
  (* src: outbox/store.rs 142-153 PoisonedRow::new *)
Definition new (id : MessageId.t) (sequence : Z) (error : string) : t :=
  mk id sequence (truncate_error error).
End PoisonedRow.

(** ** The row *)

Module OutboxRecord.
  (* src: outbox/record.rs 41-82 OutboxRecord *)
Record t := mk {
  envelope : SerializedEnvelope;
  sequence : Z;
  created_at : OffsetDateTime;
  ordering_key : option string;
  attempts : Z;
  available_at : OffsetDateTime;
  locked_by : option WorkerId.t;
  locked_until : option OffsetDateTime;
  published_at : option OffsetDateTime;
  dead_at : option OffsetDateTime;
  dead_reason : option DeadReason;
  last_error : option string;
}.
  (* src: outbox/record.rs 85-89 OutboxRecord::message_ref *)
Definition message_ref (r : t) : MessageRef.t :=
  MessageRef.new (Envelope.id (envelope r)) (created_at r).
Definition expires_at (r : t) : option OffsetDateTime :=
  DeliveryMetadata.expires_at (Metadata.delivery (Envelope.metadata (envelope r))).
Definition message_type (r : t) : MessageType.t := Envelope.message_type (envelope r).

(** The builder has the record's fields, and every value of it is one of those. *)
  (* src: outbox/record.rs 124-140 OutboxRecordBuilder::new *)
Definition builder (e : SerializedEnvelope) (seq : Z) (created : OffsetDateTime) : t :=
  mk e seq created None 0 created None None None None None None.
  (* src: outbox/record.rs 142-146 OutboxRecordBuilder::ordering_key *)
Definition with_ordering_key (k : option string) (r : t) : t :=
  mk (envelope r) (sequence r) (created_at r) k (attempts r) (available_at r) (locked_by r)
    (locked_until r) (published_at r) (dead_at r) (dead_reason r) (last_error r).
  (* src: outbox/record.rs 148-152 OutboxRecordBuilder::attempts *)
Definition with_attempts (n : Z) (r : t) : t :=
  mk (envelope r) (sequence r) (created_at r) (ordering_key r) n (available_at r) (locked_by r)
    (locked_until r) (published_at r) (dead_at r) (dead_reason r) (last_error r).
  (* src: outbox/record.rs 154-158 OutboxRecordBuilder::available_at *)
Definition with_available_at (x : OffsetDateTime) (r : t) : t :=
  mk (envelope r) (sequence r) (created_at r) (ordering_key r) (attempts r) x (locked_by r)
    (locked_until r) (published_at r) (dead_at r) (dead_reason r) (last_error r).
  (* src: outbox/record.rs 160-166 OutboxRecordBuilder::lease *)
Definition with_lease (by_ : option WorkerId.t) (until : option OffsetDateTime) (r : t) : t :=
  mk (envelope r) (sequence r) (created_at r) (ordering_key r) (attempts r) (available_at r)
    by_ until (published_at r) (dead_at r) (dead_reason r) (last_error r).
  (* src: outbox/record.rs 168-172 OutboxRecordBuilder::published_at *)
Definition with_published_at (x : option OffsetDateTime) (r : t) : t :=
  mk (envelope r) (sequence r) (created_at r) (ordering_key r) (attempts r) (available_at r)
    (locked_by r) (locked_until r) x (dead_at r) (dead_reason r) (last_error r).
  (* src: outbox/record.rs 174-183 OutboxRecordBuilder::dead *)
Definition with_dead (x : option OffsetDateTime) (reason : option DeadReason) (r : t) : t :=
  mk (envelope r) (sequence r) (created_at r) (ordering_key r) (attempts r) (available_at r)
    (locked_by r) (locked_until r) (published_at r) x reason (last_error r).
Definition set_last_error (e : option string) (r : t) : t :=
  mk (envelope r) (sequence r) (created_at r) (ordering_key r) (attempts r) (available_at r)
    (locked_by r) (locked_until r) (published_at r) (dead_at r) (dead_reason r) e.
  (* src: outbox/record.rs 185-190 OutboxRecordBuilder::last_error *)
Definition with_last_error (e : option string) (r : t) : t :=
  set_last_error (truncate_error <$> e) r.

Global Instance eq_dec : EqDecision t.
Proof. solve_decision. Defined.
End OutboxRecord.

Module AcquiredBatch.
  (* src: outbox/store.rs 65-74 AcquiredBatch *)
Record t := new { records : list OutboxRecord.t; poisoned : list PoisonedRow.t }.
  (* src: outbox/store.rs 83-87 AcquiredBatch::is_empty *)
Definition is_empty (b : t) : bool :=
  match records b, poisoned b with [], [] => true | _, _ => false end.
End AcquiredBatch.

Module DeadLetterPage.
  (* src: outbox/store.rs 90-105 DeadLetterPage *)
Record t := new {
  records : list OutboxRecord.t;
  poisoned : list PoisonedRow.t;
  next_after_sequence : option Z;
}.
  (* src: outbox/store.rs 122-126 DeadLetterPage::is_empty *)
Definition is_empty (b : t) : bool :=
  match records b, poisoned b with [], [] => true | _, _ => false end.
End DeadLetterPage.

Module PurgeRequest.
  (* src: outbox/store.rs 247-260 PurgeRequest *)
Record t := mk {
  published_retention : option Duration;
  dead_retention : option Duration;
  batch_size : Z;
}.
  (* src: outbox/store.rs 262-272 PurgeRequest::default *)
Definition default : t := mk (Some (from_secs (7 * 24 * 60 * 60))) None 1000.
  (* src: outbox/store.rs 275-280 PurgeRequest::published_retention *)
Definition with_published_retention (x : option Duration) (r : t) : t :=
  mk x (dead_retention r) (batch_size r).
  (* src: outbox/store.rs 282-287 PurgeRequest::dead_retention *)
Definition with_dead_retention (x : option Duration) (r : t) : t :=
  mk (published_retention r) x (batch_size r).
  (* src: outbox/store.rs 289-294 PurgeRequest::batch_size *)
Definition with_batch_size (n : Z) (r : t) : t :=
  mk (published_retention r) (dead_retention r) n.
End PurgeRequest.

Module PurgeReport.
  (* src: outbox/store.rs 297-307 PurgeReport *)
Record t := new { published_deleted : Z; dead_deleted : Z; expired_to_dead : Z }.
  (* src: outbox/store.rs 320-333 PurgeReport::is_complete *)
Definition is_complete (r : t) (batch_size : Z) : bool :=
  (published_deleted r <? batch_size) && (dead_deleted r <? batch_size)
  && (expired_to_dead r <? batch_size).
End PurgeReport.

Module OutboxStats.
  (* src: outbox/store.rs 336-354 OutboxStats *)
Record t := new {
  pending : Z;
  dead : Z;
  expired_pending : Z;
  oldest_pending_available_at : option OffsetDateTime;
  as_of : OffsetDateTime;
}.
  (* src: outbox/store.rs 375-386 OutboxStats::lag *)
Definition lag (s : t) : option Duration :=
  oldest ← oldest_pending_available_at s;
  let diff := as_of s - oldest in
  Some (if diff <? 0 then 0 else Z.abs diff).
End OutboxStats.

Module DeadQuery.
  (* src: outbox/store.rs 389-404 DeadQuery *)
Record t := mk {
  message_type : option string;
  tenant_id : option string;
  dead_before : option OffsetDateTime;
  limit : Z;
  after_sequence : option Z;
}.
  (* src: outbox/store.rs 406-418 DeadQuery::default *)
Definition default : t := mk None None None 100 None.
  (* src: outbox/store.rs 421-426 DeadQuery::message_type *)
Definition with_message_type (x : string) (q : t) : t :=
  mk (Some x) (tenant_id q) (dead_before q) (limit q) (after_sequence q).
  (* src: outbox/store.rs 428-433 DeadQuery::tenant_id *)
Definition with_tenant_id (x : string) (q : t) : t :=
  mk (message_type q) (Some x) (dead_before q) (limit q) (after_sequence q).
  (* src: outbox/store.rs 435-440 DeadQuery::dead_before *)
Definition with_dead_before (x : OffsetDateTime) (q : t) : t :=
  mk (message_type q) (tenant_id q) (Some x) (limit q) (after_sequence q).
  (* src: outbox/store.rs 442-447 DeadQuery::limit *)
Definition with_limit (n : Z) (q : t) : t :=
  mk (message_type q) (tenant_id q) (dead_before q) n (after_sequence q).
  (* src: outbox/store.rs 449-454 DeadQuery::after_sequence *)
Definition with_after_sequence (n : Z) (q : t) : t :=
  mk (message_type q) (tenant_id q) (dead_before q) (limit q) (Some n).
End DeadQuery.

(** ** Lemmas *)

Lemma boundary_below_spec n s :
  let m := boundary_below n s in
  (m ≤ n)%nat ∧ is_char_boundary m s = true
  ∧ ∀ k, (m < k ≤ n)%nat → is_char_boundary k s = false.
Proof.
  induction n as [|n IH]; cbn [boundary_below].
  { split_and!; [lia|done|]. intros. lia. }
  destruct (is_char_boundary (S n) s) eqn:E.
  { split_and!; [lia|done|]. intros. lia. }
  destruct IH as (Hle & Hb & Hk). split_and!; [lia|done|].
  intros k Hlt. destruct (decide (k = S n)) as [->|]; [done|]. apply Hk. lia.
Qed.

Lemma valid_utf8_marker : valid_utf8 TRUNCATION_MARKER.
Proof. closed_utf8. Qed.

Lemma length_truncate_error s :
  (String.length (truncate_error s) ≤ MAX_ERROR_LEN)%nat.
Proof.
  unfold truncate_error. destruct (Nat.leb_spec (String.length s) MAX_ERROR_LEN); [done|].
  rewrite length_append, length_str_take.
  match goal with |- context [boundary_below ?n s] => pose proof (boundary_below_spec n s) as [Hn _] end.
  change (String.length TRUNCATION_MARKER) with 14%nat in *. unfold MAX_ERROR_LEN in *. lia.
Qed.

Lemma truncate_error_short s :
  (String.length s ≤ MAX_ERROR_LEN)%nat → truncate_error s = s.
Proof. intros. unfold truncate_error. by rewrite (proj2 (Nat.leb_le _ _)). Qed.

(** ** Properties *)

(** [truncate_error] never yields more than 2048 bytes, keeps valid UTF-8 valid and is
    idempotent; a text that already fits is unchanged, and a longer one becomes its
    longest prefix that ends at a character boundary and leaves room for the marker,
    followed by the marker. *)
Theorem truncate_error_spec (s : string) (Hs : valid_utf8 s) :
  let r := truncate_error s in
  (String.length r ≤ 2048)%nat ∧ valid_utf8 r ∧ truncate_error r = r
  ∧ ((String.length s ≤ 2048)%nat → r = s)
  ∧ ((2048 < String.length s)%nat →
     ∃ n, r = str_take n s +:+ "…[truncated]" ∧ (n ≤ 2034)%nat
          ∧ is_char_boundary n s = true
          ∧ ∀ k, (n < k ≤ 2034)%nat → is_char_boundary k s = false).
Proof.
  pose proof (length_truncate_error s) as Hlen. cbn zeta.
  assert (Hlong : (2048 < String.length s)%nat →
    truncate_error s = str_take (boundary_below 2034 s) s +:+ "…[truncated]").
  { intros Hl. unfold truncate_error. rewrite (proj2 (Nat.leb_gt _ _)) by done.
    change (String.length TRUNCATION_MARKER) with 14%nat. unfold MAX_ERROR_LEN.
    by rewrite Nat.min_l by lia. }
  pose proof (boundary_below_spec 2034 s) as (Hle & Hb & Hk).
  split; [exact Hlen|]. split.
  { destruct (Nat.lt_ge_cases 2048 (String.length s)).
    - rewrite Hlong by done. apply valid_utf8_append; [by apply valid_utf8_take|].
      apply valid_utf8_marker.
    - by rewrite truncate_error_short. }
  split; [by apply truncate_error_short|]. split; [apply truncate_error_short|].
  intros Hl. exists (boundary_below 2034 s). by rewrite Hlong.
Qed.

Lemma truncate_error_spec_witness :
  valid_utf8 "broker down" ∧ truncate_error "broker down" = "broker down".
Proof.
  assert (H : valid_utf8 "broker down") by closed_utf8.
  split; [exact H|].
  destruct (truncate_error_spec _ H) as (_&_&_&Hid&_). apply Hid. cbn. lia.
Defined.

(** A duration written as milliseconds and read back loses only its
    sub-millisecond part, and writing is refused exactly when the milliseconds do
    not fit in 64 bits. *)
Theorem millis_roundtrip (d : Duration) (Hd : valid_duration d) :
  (millis_serialize d = None ↔ U64_MAX < d / 1000000)
  ∧ ∀ ms, millis_serialize d = Some ms →
     0 ≤ ms ≤ U64_MAX ∧ millis_deserialize ms ≤ d < millis_deserialize ms + 1000000
     ∧ millis_serialize (millis_deserialize ms) = Some ms.
Proof.
  unfold millis_serialize, millis_deserialize, as_millis, from_millis, valid_duration in *.
  pose proof (Z.div_mod d 1000000 ltac:(lia)). pose proof (Z.mod_pos_bound d 1000000 ltac:(lia)).
  destruct (Z.leb_spec (d / 1000000) U64_MAX); (split; [split; [done || lia|done || lia]|]);
    intros ms [= <-].
  split_and!; [apply Z.div_pos; lia|done|lia|lia|].
  rewrite Z.div_mul by lia. by rewrite (proj2 (Z.leb_le _ _)).
Qed.

Lemma millis_roundtrip_witness :
  valid_duration 1500000 ∧ millis_serialize (millis_deserialize 1) = Some 1.
Proof.
  assert (H : valid_duration 1500000) by (split; vm_compute; discriminate).
  split; [exact H|].
  destruct (millis_roundtrip _ H) as [_ Hr]. by destruct (Hr 1 eq_refl) as (_&_&Hs).
Defined.

(** [OutboxStats::lag] is the age of the oldest claimable row at the time of the
    snapshot, never negative, and absent exactly when there is no such row. *)
Lemma stats_lag_spec (s : OutboxStats.t) :
  match OutboxStats.lag s with
  | None => OutboxStats.oldest_pending_available_at s = None
  | Some d => ∃ oldest, OutboxStats.oldest_pending_available_at s = Some oldest
                        ∧ d = Z.max 0 (OutboxStats.as_of s - oldest)
  end.
Proof.
  unfold OutboxStats.lag.
  destruct (OutboxStats.oldest_pending_available_at s) as [o|]; cbn; [|done].
  exists o. split; [done|]. destruct (Z.ltb_spec (OutboxStats.as_of s - o) 0); lia.
Qed.
