(* ===== verification/OutboxRetry.v ===== *)
(** * Retry decisions ([reliar-outbox], retry.rs)

    [ExponentialBackoff]: the policy the dispatcher asks what to do with a failed
    publish.  Floating point is the standard library's binary64 [spec_float], so
    [jitter_factor] and [Duration::mul_f64] compute the value the hardware does;
    the 64 bits of a fresh [RandomState] hash are the argument [entropy].
    [mul_f64] panics when the product is not a representable duration ([None]). *)

From Stdlib Require Import SpecFloat.
From S2P Require Import Prelude RustString CoreTypes CoreHeaders CoreEnvelope OutboxTypes.

(** ** [f64] *)

Module F64.
Definition prec : Z := 53.
Definition emax : Z := 1024.
Definition of_Z (z : Z) : spec_float := binary_normalize prec emax z 0 false.
Definition add := SFadd prec emax.
Definition sub := SFsub prec emax.
Definition mul := SFmul prec emax.
Definition div := SFdiv prec emax.
Definition leb := SFleb.
Definition ltb := SFltb.
Definition zero : spec_float := S754_zero false.
Definition one : spec_float := of_Z 1.
Definition two : spec_float := of_Z 2.
(** The literal [0.2]. *)
Definition fifth : spec_float := div one (of_Z 5).

Definition is_finite (x : spec_float) : bool :=
  match x with S754_zero _ | S754_finite _ _ _ => true | _ => false end.
(** [f64::clamp] and [f64::max] on operands that are not NaN. *)
Definition clamp (lo hi x : spec_float) : spec_float :=
  if ltb x lo then lo else if ltb hi x then hi else x.
Definition max (x y : spec_float) : spec_float := if ltb x y then y else x.
End F64.

(** [Duration::as_secs_f64]. *)
Definition as_secs_f64 (d : Duration) : spec_float :=
  F64.add (F64.of_Z (d / NANOS_PER_SEC))
    (F64.div (F64.of_Z (d mod NANOS_PER_SEC)) (F64.of_Z NANOS_PER_SEC)).

(** [n / 2^k] to the nearest integer, ties to even. *)
Definition div_pow2_round (n k : Z) : Z :=
  let q := n / 2 ^ k in
  let r := n mod 2 ^ k in
  match Z.compare (2 * r) (2 ^ k) with
  | Lt => q
  | Gt => q + 1
  | Eq => if Z.even q then q else q + 1
  end.

(** [Duration::from_secs_f64]: the nearest nanosecond; a panic on a negative,
    overflowing or non-finite input. *)
Definition from_secs_f64 (x : spec_float) : option Duration :=
  match x with
  | S754_zero _ => Some 0
  | S754_finite false m e =>
      let n := Z.pos m * NANOS_PER_SEC in
      let d := if 0 <=? e then n * 2 ^ e else div_pow2_round n (- e) in
      if d <=? DURATION_MAX then Some d else None
  | _ => None
  end.

Definition mul_f64 (d : Duration) (f : spec_float) : option Duration :=
  from_secs_f64 (F64.mul f (as_secs_f64 d)).

(** ** [ExponentialBackoff] *)

(** The interface the dispatcher calls; a policy may panic. *)
(* src: outbox/retry.rs 11-22 RetryPolicy *)
Class RetryPolicy (P : Type) :=
  next : P → Z → Z → FailureKind → option FailureOutcome.

Module ExponentialBackoff.
  (* src: outbox/retry.rs 40-63 ExponentialBackoff *)
Record t := mk { base : Duration; max_delay : Duration; max_attempts : Z; jitter : spec_float }.
  (* src: outbox/retry.rs 65-74 ExponentialBackoff::default *)
Definition default : t := mk (from_secs 1) (from_secs (5 * 60)) 10 F64.fifth.
  (* src: outbox/retry.rs 77-82 ExponentialBackoff::base *)
Definition with_base (x : Duration) (p : t) : t := mk x (max_delay p) (max_attempts p) (jitter p).
  (* src: outbox/retry.rs 84-89 ExponentialBackoff::max_delay *)
Definition with_max_delay (x : Duration) (p : t) : t := mk (base p) x (max_attempts p) (jitter p).
  (* src: outbox/retry.rs 91-96 ExponentialBackoff::max_attempts *)
Definition with_max_attempts (n : Z) (p : t) : t := mk (base p) (max_delay p) n (jitter p).
  (* src: outbox/retry.rs 98-103 ExponentialBackoff::jitter *)
Definition with_jitter (x : spec_float) (p : t) : t :=
  mk (base p) (max_delay p) (max_attempts p) x.

  (* src: outbox/retry.rs 105-123 ExponentialBackoff::validate *)
Definition validate (p : t) : result unit ConfigError :=
  if negb (F64.leb F64.zero (jitter p) && F64.ltb (jitter p) F64.one)
  then Err (InvalidJitter (jitter p))
  else if max_attempts p =? 0 then Err ZeroMaxAttempts
  else if is_zero (base p) then Err ZeroRetryBase
  else Ok ().

  (* src: outbox/retry.rs 125-150 ExponentialBackoff::jitter_factor *)
Definition jitter_factor (entropy : Z) (jitter : spec_float) : spec_float :=
  let jitter := if F64.is_finite jitter then F64.clamp F64.zero F64.one jitter else F64.zero in
  if F64.leb jitter F64.zero then F64.one
  else
    let unit_ := F64.div (F64.of_Z entropy) (F64.of_Z U64_MAX) in
    F64.max (F64.add F64.one (F64.mul jitter (F64.sub (F64.mul F64.two unit_) F64.one)))
      F64.zero.

(** The delay before jitter. *)
  (* src: outbox/retry.rs 166-168 ExponentialBackoff::next *)
Definition capped (p : t) (attempts : Z) : Duration :=
  let exponent := u32_saturating_pow 2 attempts in
  let uncapped := duration_saturating_mul (base p) exponent in
  Z.min uncapped (max_delay p).

  (* src: outbox/retry.rs 153-172 ExponentialBackoff::next *)
Definition next (p : t) (entropy attempts : Z) (kind : FailureKind) : option FailureOutcome :=
  match kind with
  | Permanent => Some (Dead PermanentError)
  | Transient =>
      if u32_saturating_add attempts 1 >=? max_attempts p then Some (Dead AttemptsExhausted)
      else
        delay ← mul_f64 (capped p attempts) (jitter_factor entropy (jitter p));
        Some (Retry delay)
  end.

(** The types of the fields. *)
Definition valid (p : t) : Prop :=
  valid_duration (base p) ∧ valid_duration (max_delay p) ∧ 0 ≤ max_attempts p ≤ U32_MAX.
End ExponentialBackoff.

Global Instance ExponentialBackoff_RetryPolicy : RetryPolicy ExponentialBackoff.t :=
  ExponentialBackoff.next.

Example next_default :
  (∀ kind, ExponentialBackoff.next ExponentialBackoff.default 0 9 kind
     = Some (Dead (match kind with Transient => AttemptsExhausted | Permanent => PermanentError end)))
  ∧ ExponentialBackoff.next ExponentialBackoff.default 0 0 Transient = Some (Retry 800000000)
  ∧ ExponentialBackoff.next ExponentialBackoff.default U64_MAX 3 Transient
    = Some (Retry 9600000000)
  ∧ ExponentialBackoff.next ExponentialBackoff.default U64_MAX 8 Transient
    = Some (Retry 307200000000).
Proof. split; [by intros []|]. vm_compute. auto. Qed.

(** ** Properties *)

Lemma capped_mono p a b : valid_duration (ExponentialBackoff.base p) → 0 ≤ a ≤ b →
  ExponentialBackoff.capped p a ≤ ExponentialBackoff.capped p b.
Proof.
  intros Hb Hab. unfold ExponentialBackoff.capped, u32_saturating_pow,
    duration_saturating_mul, valid_duration in *.
  pose proof (Z.pow_le_mono_r 2 a b ltac:(lia) ltac:(lia)).
  apply Z.min_le_compat_r, Z.min_le_compat_r, Z.mul_le_mono_nonneg_l; lia.
Qed.

(** Before jitter the delay is [base * 2^attempts] capped at [max_delay] for the
    first 32 retries (afterwards the factor saturates at [2^32 - 1]); it never exceeds
    [max_delay], never decreases with the number of attempts and, when both [base] and
    [max_delay] are positive, is never zero. *)
Theorem backoff_capped_delay (p : ExponentialBackoff.t) (attempts : Z)
    (Hp : ExponentialBackoff.valid p) (Ha : 0 ≤ attempts ≤ U32_MAX) :
  let d := ExponentialBackoff.capped p attempts in
  (attempts < 32 → d = Z.min (ExponentialBackoff.max_delay p)
                         (ExponentialBackoff.base p * 2 ^ attempts))
  ∧ (32 ≤ attempts → d = Z.min (ExponentialBackoff.max_delay p)
                          (ExponentialBackoff.base p * U32_MAX))
  ∧ 0 ≤ d ≤ ExponentialBackoff.max_delay p
  ∧ (∀ more, attempts ≤ more → d ≤ ExponentialBackoff.capped p more)
  ∧ (0 < ExponentialBackoff.base p → 0 < ExponentialBackoff.max_delay p → 0 < d).
Proof.
  destruct Hp as (Hb & Hm & _). cbn zeta.
  assert (Hpow : 1 ≤ 2 ^ attempts) by (apply (Z.pow_le_mono_r 2 0 attempts); lia).
  assert (Hlo : attempts < 32 → 2 ^ attempts ≤ 2 ^ 31)
    by (intros; apply Z.pow_le_mono_r; lia).
  assert (Hhi : 32 ≤ attempts → 2 ^ 32 ≤ 2 ^ attempts)
    by (intros; apply Z.pow_le_mono_r; lia).
  split_and!; [..|intros; apply capped_mono; [done|lia]|];
    unfold ExponentialBackoff.capped, u32_saturating_pow, duration_saturating_mul,
      valid_duration, U32_MAX, DURATION_MAX, U64_MAX, NANOS_PER_SEC in *;
    change (2 ^ 31) with 2147483648 in *; change (2 ^ 32) with 4294967296 in *.
  - intros H32. specialize (Hlo H32). rewrite (Z.min_l (2 ^ attempts)) by lia. lia.
  - intros H32. specialize (Hhi H32). rewrite (Z.min_r (2 ^ attempts)) by lia. lia.
  - set (f := Z.min (2 ^ attempts) 4294967295). assert (0 ≤ f) by lia. nia.
  - lia.
  - intros. set (f := Z.min (2 ^ attempts) 4294967295). assert (1 ≤ f) by lia. nia.
Qed.

Lemma backoff_capped_delay_witness :
  ExponentialBackoff.valid ExponentialBackoff.default
  ∧ ExponentialBackoff.capped ExponentialBackoff.default 4 = 16000000000.
Proof.
  assert (H : ExponentialBackoff.valid ExponentialBackoff.default)
    by (unfold ExponentialBackoff.valid, valid_duration; vm_compute; repeat split; discriminate).
  split; [exact H|].
  destruct (backoff_capped_delay ExponentialBackoff.default 4 H) as (Heq & _).
  - split; vm_compute; discriminate.
  - exact (Heq eq_refl).
Defined.

(** A run of failures of one message, the policy consulted after each with the
    number of failures before it; it stops at the first terminal answer. *)
Inductive run_result :=
  | GivenUp (failures : Z) (reason : DeadReason)
  | Panicked
  | StillRetrying.

Fixpoint failures (p : ExponentialBackoff.t) (attempts : Z) (fs : list (Z * FailureKind))
  : run_result :=
  match fs with
  | [] => StillRetrying
  | (entropy, kind) :: fs' =>
      match ExponentialBackoff.next p entropy attempts kind with
      | Some (Dead r) => GivenUp (attempts + 1) r
      | Some (Retry _) => failures p (attempts + 1) fs'
      | None => Panicked
      end
  end.

Definition gives_up (p : ExponentialBackoff.t) (fs : list (Z * FailureKind)) (r : run_result) : Prop :=
  match r with
  | GivenUp n reason =>
      n ≤ ExponentialBackoff.max_attempts p
      ∧ (reason = AttemptsExhausted → n = ExponentialBackoff.max_attempts p)
      ∧ (Forall (λ f, f.2 = Transient) fs → reason = AttemptsExhausted)
  | Panicked =>
      ∃ entropy k, mul_f64 (ExponentialBackoff.capped p k)
        (ExponentialBackoff.jitter_factor entropy (ExponentialBackoff.jitter p)) = None
  | StillRetrying => False
  end.

Lemma failures_exhaust p a fs :
  0 ≤ a → Z.of_nat (length fs) = ExponentialBackoff.max_attempts p - a → fs ≠ [] →
  ExponentialBackoff.max_attempts p ≤ U32_MAX → gives_up p fs (failures p a fs).
Proof.
  revert a; induction fs as [|[e k] fs IH]; intros a Ha Hlen Hne Hmax; [done|].
  cbn [failures length] in *. unfold ExponentialBackoff.next.
  destruct k; [|cbn; split_and!; [lia|done|]; by intros [? _]%Forall_cons_1].
  unfold u32_saturating_add. rewrite Z.min_l by lia. rewrite Z.geb_leb.
  destruct (Z.leb_spec (ExponentialBackoff.max_attempts p) (a + 1)).
  { cbn. split_and!; [lia|lia|done]. }
  destruct (mul_f64 _ _) as [d|] eqn:Em; cbn [mbind option_bind]; [|by exists e, a].
  assert (fs ≠ []) as Hfs by (destruct fs; [cbn in *; lia|done]).
  specialize (IH (a + 1) ltac:(lia) ltac:(lia) Hfs Hmax).
  destruct (failures p (a + 1) fs); [|done..]. destruct IH as (?&?&Hr).
  split_and!; [done..|]. intros [_ ?]%Forall_cons_1. auto.
Qed.

(** A message that keeps failing is given up after at most [max_attempts]
    failures: whatever the failures and the jitter, the policy answers a terminal
    outcome by then; if all were transient the reason is [AttemptsExhausted] and it is
    answered at exactly the [max_attempts]-th, never earlier; a permanent failure is
    terminal at once.  The only other end is a panic of [Duration::mul_f64]. *)
Theorem backoff_terminates (p : ExponentialBackoff.t) (fs : list (Z * FailureKind))
    (Hp : ExponentialBackoff.valid p) (Hval : ExponentialBackoff.validate p = Ok ())
    (Hlen : Z.of_nat (length fs) = ExponentialBackoff.max_attempts p) :
  gives_up p fs (failures p 0 fs).
Proof.
  destruct Hp as (_&_&Hmax). unfold ExponentialBackoff.validate in Hval.
  destruct (negb _); [done|].
  destruct (Z.eqb_spec (ExponentialBackoff.max_attempts p) 0); [done|].
  apply failures_exhaust; [lia|lia|destruct fs; [cbn in *; lia|done]|lia].
Qed.

Lemma backoff_terminates_witness :
  gives_up ExponentialBackoff.default (replicate 10 (0, Transient))
    (failures ExponentialBackoff.default 0 (replicate 10 (0, Transient)))
  ∧ failures ExponentialBackoff.default 0 (replicate 10 (0, Transient))
    = GivenUp 10 AttemptsExhausted.
Proof.
  split; [|vm_compute; reflexivity]. apply backoff_terminates.
  - unfold ExponentialBackoff.valid, valid_duration; vm_compute; repeat split; discriminate.
  - vm_compute. reflexivity.
  - vm_compute. reflexivity.
Defined.
