(* ===== verification/OutboxSettings.v ===== *)
(** * Outbox settings ([reliar-outbox], settings.rs and [check_disjoint] of policy.rs)

    The settings records with their defaults and setters, the validated lists of
    message-type names, and the opt-in environment loader.  The process environment
    is a function from names to what [std::env::var] answers. *)

From Stdlib Require Import Ascii SpecFloat.
From S2P Require Import Prelude RustString CoreTypes CoreHeaders CoreEnvelope OutboxTypes.
From S2P Require Import OutboxRetry.

(** ** [str::parse::<f64>]

    The nearest binary64 value of a decimal literal. *)

Fixpoint take_digits (bs : list Z) : list Z * list Z :=
  match bs with
  | b :: bs' => if is_ascii_digit b then let '(ds, r) := take_digits bs' in (b :: ds, r)
                else ([], bs)
  | [] => ([], [])
  end.

Definition digits_nat (ds : list Z) : Z := fold_left (λ acc b, acc * 10 + (b - 48)) ds 0.

(** [m / n] rounded to nearest. *)
Definition f64_of_ratio (neg : bool) (m n : Z) : spec_float :=
  match m, n with
  | Z.pos pm, Z.pos pn =>
      let '(q, e, l) := SFdiv_core_binary F64.prec F64.emax (Z.pos pm) 0 (Z.pos pn) 0 in
      binary_round_aux F64.prec F64.emax neg q e l
  | _, _ => S754_zero neg
  end.

Definition f64_decimal (neg : bool) (m exp : Z) : spec_float :=
  if 0 <=? exp then f64_of_ratio neg (m * 10 ^ exp) 1 else f64_of_ratio neg m (10 ^ (- exp)).

(** The optional exponent: [e], an optional sign, one or more digits. *)
Definition parse_exponent (bs : list Z) : option Z :=
  match bs with
  | [] => Some 0
  | b :: rest =>
      if (b =? 101) || (b =? 69) then
        let '(neg, rest) := match rest with
                            | c :: r => if c =? 45 then (true, r) else if c =? 43 then (false, r)
                                        else (false, rest)
                            | [] => (false, rest)
                            end in
        match take_digits rest with
        | ([], _) => None
        | (ds, []) => Some (if neg then - digits_nat ds else digits_nat ds)
        | (_, _ :: _) => None
        end
      else None
  end.

Definition parse_f64_unsigned (neg : bool) (s : string) (bs : list Z) : option spec_float :=
  if bool_decide (to_ascii_lowercase s ∈ ["inf"; "infinity"]) then Some (S754_infinity neg)
  else if bool_decide (to_ascii_lowercase s = "nan") then Some S754_nan
  else
    let '(int_, rest) := take_digits bs in
    let '(frac, rest) := match rest with
                         | b :: r => if b =? 46 then take_digits r else ([], rest)
                         | [] => ([], rest)
                         end in
    match int_ ++ frac with
    | [] => None
    | ds => e ← parse_exponent rest;
            Some (f64_decimal neg (digits_nat ds) (e - Z.of_nat (length frac)))
    end.

Definition parse_f64 (s : string) : option spec_float :=
  match s with
  | String a s' =>
      if byte_val a =? 45 then parse_f64_unsigned true s' (as_bytes s')
      else if byte_val a =? 43 then parse_f64_unsigned false s' (as_bytes s')
      else parse_f64_unsigned false s (as_bytes s)
  | EmptyString => None
  end.

Example parse_f64_examples :
  parse_f64 "0.2" = Some F64.fifth ∧ parse_f64 "2e-1" = Some F64.fifth
  ∧ parse_f64 "-.5" = Some (F64.div (F64.of_Z (-1)) F64.two) ∧ parse_f64 "." = None
  ∧ parse_f64 "1x" = None ∧ parse_f64 "NaN" = Some S754_nan ∧ parse_f64 "0" = Some F64.zero.
Proof. vm_compute. repeat split. Qed.

(** ** [MessageTypeNames] *)

(* src: outbox/settings.rs 221-229 is_versioned_message_type_name *)
Definition is_versioned_message_type_name (name : string) : bool :=
  match rsplit_once2 "."%char "v"%char name with
  | Some (_, suffix) => negb (is_empty suffix) && forallb is_ascii_digit (as_bytes suffix)
  | None => false
  end.

Module MessageTypeNames.
  (* src: outbox/settings.rs 110-120 MessageTypeNames *)
Record t := mk { names : list string }.
Global Instance eq_dec : EqDecision t.
Proof. solve_decision. Defined.
  (* src: outbox/settings.rs 123-129 MessageTypeNames::empty *)
Definition empty : t := mk [].
  (* src: outbox/settings.rs 183-193 MessageTypeNames::validated *)
Definition validated (field : string) (l : list string) : result t SettingsError.t :=
  if existsb is_versioned_message_type_name l
  then Err (SettingsError.parse field "message type names without a version suffix")
  else Ok (mk l).
  (* src: outbox/settings.rs 131-155 MessageTypeNames::parse *)
Definition parse (field lst : string) : result t SettingsError.t :=
  validated field
    (filter (λ name, is_empty name = false) (trim <$> RustString.split ","%char lst)).
  (* src: outbox/settings.rs 157-181 MessageTypeNames::try_from_iter *)
Fixpoint trim_all (field : string) (l : list string) : result (list string) SettingsError.t :=
  match l with
  | [] => Ok []
  | raw :: l' =>
      let name := trim raw in
      if is_empty name then Err (SettingsError.parse field "non-empty message type names")
      else let? out := trim_all field l' in Ok (name :: out)
  end.
  (* src: outbox/settings.rs 164-181 MessageTypeNames::try_from_iter *)
Definition try_from_iter (field : string) (l : list string) : result t SettingsError.t :=
  let? out := trim_all field l in validated field out.
  (* src: outbox/settings.rs 195-199 MessageTypeNames::is_empty *)
Definition is_empty (m : t) : bool := match names m with [] => true | _ => false end.
  (* src: outbox/settings.rs 201-206 MessageTypeNames::contains *)
Definition contains (m : t) (name : string) : bool :=
  existsb (λ n, bool_decide (n = name)) (names m).
End MessageTypeNames.

(* src: outbox/policy.rs 140-157 check_disjoint *)
Definition check_disjoint (key : string) (allowed disallowed : MessageTypeNames.t)
  : result unit SettingsError.t :=
  if existsb (MessageTypeNames.contains disallowed) (MessageTypeNames.names allowed)
  then Err (SettingsError.out_of_range key
              "a message type may not appear in both allowed_types and disallowed_types")
  else Ok ().

(** ** The settings records *)

Module DispatcherSettings.
  (* src: outbox/settings.rs 274-371 DispatcherSettings *)
Record t := mk {
  batch_size : Z;
  lease : Duration;
  max_in_flight : Z;
  publish_timeout : Duration;
  poll_interval : Duration;
  idle_poll_interval : Duration;
  drain_timeout : Duration;
  store_timeout : Duration;
  stats_interval : Duration;
  ordering : Ordering;
  retry : ExponentialBackoff.t;
  worker_id : option WorkerId.t;
}.
  (* src: outbox/settings.rs 373-390 DispatcherSettings::default *)
Definition default : t :=
  mk 100 (from_secs 30) 16 (from_secs 10) (from_millis 500) (from_secs 5) (from_secs 30)
    (from_secs 10) (from_secs 15) Unordered ExponentialBackoff.default None.
  (* src: outbox/settings.rs 393-398 DispatcherSettings::batch_size *)
Definition with_batch_size (x : Z) (s : t) : t :=
  mk x (lease s) (max_in_flight s) (publish_timeout s) (poll_interval s) (idle_poll_interval s)
    (drain_timeout s) (store_timeout s) (stats_interval s) (ordering s) (retry s) (worker_id s).
  (* src: outbox/settings.rs 400-405 DispatcherSettings::lease *)
Definition with_lease (x : Duration) (s : t) : t :=
  mk (batch_size s) x (max_in_flight s) (publish_timeout s) (poll_interval s)
    (idle_poll_interval s) (drain_timeout s) (store_timeout s) (stats_interval s) (ordering s)
    (retry s) (worker_id s).
  (* src: outbox/settings.rs 407-412 DispatcherSettings::max_in_flight *)
Definition with_max_in_flight (x : Z) (s : t) : t :=
  mk (batch_size s) (lease s) x (publish_timeout s) (poll_interval s) (idle_poll_interval s)
    (drain_timeout s) (store_timeout s) (stats_interval s) (ordering s) (retry s) (worker_id s).
  (* src: outbox/settings.rs 414-419 DispatcherSettings::publish_timeout *)
Definition with_publish_timeout (x : Duration) (s : t) : t :=
  mk (batch_size s) (lease s) (max_in_flight s) x (poll_interval s) (idle_poll_interval s)
    (drain_timeout s) (store_timeout s) (stats_interval s) (ordering s) (retry s) (worker_id s).
  (* src: outbox/settings.rs 421-426 DispatcherSettings::poll_interval *)
Definition with_poll_interval (x : Duration) (s : t) : t :=
  mk (batch_size s) (lease s) (max_in_flight s) (publish_timeout s) x (idle_poll_interval s)
    (drain_timeout s) (store_timeout s) (stats_interval s) (ordering s) (retry s) (worker_id s).
  (* src: outbox/settings.rs 428-433 DispatcherSettings::idle_poll_interval *)
Definition with_idle_poll_interval (x : Duration) (s : t) : t :=
  mk (batch_size s) (lease s) (max_in_flight s) (publish_timeout s) (poll_interval s) x
    (drain_timeout s) (store_timeout s) (stats_interval s) (ordering s) (retry s) (worker_id s).
  (* src: outbox/settings.rs 435-440 DispatcherSettings::drain_timeout *)
Definition with_drain_timeout (x : Duration) (s : t) : t :=
  mk (batch_size s) (lease s) (max_in_flight s) (publish_timeout s) (poll_interval s)
    (idle_poll_interval s) x (store_timeout s) (stats_interval s) (ordering s) (retry s)
    (worker_id s).
  (* src: outbox/settings.rs 442-447 DispatcherSettings::store_timeout *)
Definition with_store_timeout (x : Duration) (s : t) : t :=
  mk (batch_size s) (lease s) (max_in_flight s) (publish_timeout s) (poll_interval s)
    (idle_poll_interval s) (drain_timeout s) x (stats_interval s) (ordering s) (retry s)
    (worker_id s).
  (* src: outbox/settings.rs 449-454 DispatcherSettings::stats_interval *)
Definition with_stats_interval (x : Duration) (s : t) : t :=
  mk (batch_size s) (lease s) (max_in_flight s) (publish_timeout s) (poll_interval s)
    (idle_poll_interval s) (drain_timeout s) (store_timeout s) x (ordering s) (retry s)
    (worker_id s).
  (* src: outbox/settings.rs 456-461 DispatcherSettings::ordering *)
Definition with_ordering (x : Ordering) (s : t) : t :=
  mk (batch_size s) (lease s) (max_in_flight s) (publish_timeout s) (poll_interval s)
    (idle_poll_interval s) (drain_timeout s) (store_timeout s) (stats_interval s) x (retry s)
    (worker_id s).
  (* src: outbox/settings.rs 463-468 DispatcherSettings::retry *)
Definition with_retry (x : ExponentialBackoff.t) (s : t) : t :=
  mk (batch_size s) (lease s) (max_in_flight s) (publish_timeout s) (poll_interval s)
    (idle_poll_interval s) (drain_timeout s) (store_timeout s) (stats_interval s) (ordering s) x
    (worker_id s).
  (* src: outbox/settings.rs 470-475 DispatcherSettings::worker_id *)
Definition with_worker_id (x : WorkerId.t) (s : t) : t :=
  mk (batch_size s) (lease s) (max_in_flight s) (publish_timeout s) (poll_interval s)
    (idle_poll_interval s) (drain_timeout s) (store_timeout s) (stats_interval s) (ordering s)
    (retry s) (Some x).
End DispatcherSettings.

Module RetentionSettings.
  (* src: outbox/settings.rs 478-507 RetentionSettings *)
Record t := mk {
  published_retention : Duration;
  dead_retention : option Duration;
  purge_batch_size : Z;
}.
  (* src: outbox/settings.rs 509-517 RetentionSettings::default *)
Definition default : t := mk (from_secs (7 * 24 * 60 * 60)) None 1000.
  (* src: outbox/settings.rs 520-525 RetentionSettings::published_retention *)
Definition with_published_retention (x : Duration) (s : t) : t :=
  mk x (dead_retention s) (purge_batch_size s).
  (* src: outbox/settings.rs 527-532 RetentionSettings::dead_retention *)
Definition with_dead_retention (x : option Duration) (s : t) : t :=
  mk (published_retention s) x (purge_batch_size s).
  (* src: outbox/settings.rs 534-539 RetentionSettings::purge_batch_size *)
Definition with_purge_batch_size (x : Z) (s : t) : t :=
  mk (published_retention s) (dead_retention s) x.
End RetentionSettings.

Module OutboxSettings.
  (* src: outbox/settings.rs 15-47 OutboxSettings *)
Record t := mk {
  dispatcher : DispatcherSettings.t;
  retention : RetentionSettings.t;
  enabled : bool;
  allowed_types : MessageTypeNames.t;
  disallowed_types : MessageTypeNames.t;
}.
  (* src: outbox/settings.rs 49-62 OutboxSettings::default *)
Definition default : t :=
  mk DispatcherSettings.default RetentionSettings.default true MessageTypeNames.empty
    MessageTypeNames.empty.
  (* src: outbox/settings.rs 65-70 OutboxSettings::dispatcher *)
Definition with_dispatcher (d : DispatcherSettings.t) (s : t) : t :=
  mk d (retention s) (enabled s) (allowed_types s) (disallowed_types s).
  (* src: outbox/settings.rs 72-77 OutboxSettings::retention *)
Definition with_retention (r : RetentionSettings.t) (s : t) : t :=
  mk (dispatcher s) r (enabled s) (allowed_types s) (disallowed_types s).
  (* src: outbox/settings.rs 79-84 OutboxSettings::enabled *)
Definition with_enabled (b : bool) (s : t) : t :=
  mk (dispatcher s) (retention s) b (allowed_types s) (disallowed_types s).
  (* src: outbox/settings.rs 86-96 OutboxSettings::allowed_types *)
Definition with_allowed_types (allowed : MessageTypeNames.t) (s : t)
  : result t SettingsError.t :=
  let? _ := check_disjoint "allowed_types" allowed (disallowed_types s) in
  Ok (mk (dispatcher s) (retention s) (enabled s) allowed (disallowed_types s)).
  (* src: outbox/settings.rs 98-107 OutboxSettings::disallowed_types *)
Definition with_disallowed_types (disallowed : MessageTypeNames.t) (s : t)
  : result t SettingsError.t :=
  let? _ := check_disjoint "disallowed_types" (allowed_types s) disallowed in
  Ok (mk (dispatcher s) (retention s) (enabled s) (allowed_types s) disallowed).

(** The serde form: the two lists are strings, every section may be missing. *)
  (* src: outbox/settings.rs 231-248 OutboxSettingsRepr *)
Record repr := mkRepr {
  r_dispatcher : option DispatcherSettings.t;
  r_retention : option RetentionSettings.t;
  r_enabled : option bool;
  r_allowed_types : option (list string);
  r_disallowed_types : option (list string);
}.
  (* src: outbox/settings.rs 255-272 OutboxSettings::try_from *)
Definition try_from (r : repr) : result t SettingsError.t :=
  let? allowed := MessageTypeNames.try_from_iter "allowed_types"
                    (from_option id [] (r_allowed_types r)) in
  let? disallowed := MessageTypeNames.try_from_iter "disallowed_types"
                       (from_option id [] (r_disallowed_types r)) in
  let? _ := check_disjoint "disallowed_types" allowed disallowed in
  Ok (mk (from_option id DispatcherSettings.default (r_dispatcher r))
         (from_option id RetentionSettings.default (r_retention r))
         (from_option id true (r_enabled r)) allowed disallowed).
End OutboxSettings.

(** ** The environment loader *)

Inductive env_var := NotPresent | NotUnicode | Present (value : string).
Definition Env : Type := string → env_var.

Section from_env.
Context (env : Env) (prefix : string).

(* src: outbox/settings.rs 642-651 env_raw *)
Definition env_raw (suffix : string) : result (option string) SettingsError.t :=
  let key := prefix +:+ suffix in
  match env key with
  | Present value => Ok (Some value)
  | NotPresent => Ok None
  | NotUnicode => Err (SettingsError.parse key "a UTF-8 string")
  end.

(** The readers differ in how they parse the text of a present variable. *)
Definition env_parsed {A} (parse : string → string → result A SettingsError.t) (suffix : string)
  : result (option A) SettingsError.t :=
  let? raw := env_raw suffix in
  match raw with
  | None => Ok None
  | Some raw => let? v := parse (prefix +:+ suffix) raw in Ok (Some v)
  end.

Definition or_parse {A} (key kind : string) (o : option A) : result A SettingsError.t :=
  match o with Some v => Ok v | None => Err (SettingsError.parse key kind) end.
End from_env.

(* src: outbox/settings.rs 653-661 env_u32 *)
Definition parse_env_u32 (key raw : string) : result Z SettingsError.t :=
  or_parse key "u32" (parse_uint U32_MAX (trim raw)).
(* src: outbox/settings.rs 663-675 env_bool *)
Definition parse_env_bool (key raw : string) : result bool SettingsError.t :=
  let v := to_ascii_lowercase (trim raw) in
  if bool_decide (v ∈ ["true"; "1"]) then Ok true
  else if bool_decide (v ∈ ["false"; "0"]) then Ok false
  else Err (SettingsError.parse key
              ("a boolean (" +:+ String "034"%char "true" +:+ String "034"%char " or "
               +:+ String "034"%char "false" +:+ String "034"%char ")")).
(** [usize] on a 64-bit target. *)
(* src: outbox/settings.rs 677-685 env_usize *)
Definition parse_env_usize (key raw : string) : result Z SettingsError.t :=
  or_parse key "usize" (parse_uint U64_MAX (trim raw)).
(* src: outbox/settings.rs 687-696 env_duration_ms *)
Definition parse_env_duration_ms (key raw : string) : result Duration SettingsError.t :=
  let? ms := or_parse key "milliseconds" (parse_uint U64_MAX (trim raw)) in
  Ok (from_millis ms).
(* src: outbox/settings.rs 698-714 env_jitter *)
Definition parse_env_jitter (key raw : string) : result spec_float SettingsError.t :=
  let? value := or_parse key "f64" (parse_f64 (trim raw)) in
  if negb (F64.leb F64.zero value && F64.ltb value F64.one)
  then Err (SettingsError.out_of_range key "jitter must be in the range [0.0, 1.0)")
  else Ok value.
(* src: outbox/settings.rs 716-728 env_ordering *)
Definition parse_env_ordering (key raw : string) : result Ordering SettingsError.t :=
  let v := to_ascii_lowercase (trim raw) in
  if bool_decide (v = "unordered") then Ok Unordered
  else if bool_decide (v ∈ ["per_key"; "perkey"; "per-key"]) then Ok PerKey
  else Err (SettingsError.parse key
              ("ordering (" +:+ String "034"%char "unordered" +:+ String "034"%char " or "
               +:+ String "034"%char "per_key" +:+ String "034"%char ")")).
(* src: outbox/settings.rs 730-741 env_worker_id *)
Definition parse_env_worker_id (key raw : string) : result WorkerId.t SettingsError.t :=
  map_err (λ err, match err with
                  | TooLong _ _ =>
                      SettingsError.out_of_range key "worker id exceeds the maximum length"
                  | _ => SettingsError.parse key "worker id"
                  end) (WorkerId.parse raw).

(** [if let Some(v) = read()? { field = v }]. *)
Definition assign {A S} (read : result (option A) SettingsError.t) (set : A → S → S) (s : S)
  : result S SettingsError.t :=
  let? o := read in
  Ok (match o with Some v => set v s | None => s end).

Section loader.
Context (env : Env) (prefix : string).

Definition set_retry (f : ExponentialBackoff.t → ExponentialBackoff.t)
    (d : DispatcherSettings.t) : DispatcherSettings.t :=
  DispatcherSettings.with_retry (f (DispatcherSettings.retry d)) d.

(* src: outbox/settings.rs 561-605 OutboxSettings::from_env *)
Definition env_dispatcher (d : DispatcherSettings.t)
  : result DispatcherSettings.t SettingsError.t :=
  let read {A} (p : string → string → result A SettingsError.t) k := env_parsed env prefix p k in
  let? d := assign (read parse_env_u32 "BATCH_SIZE") DispatcherSettings.with_batch_size d in
  let? d := assign (read parse_env_duration_ms "LEASE_MS") DispatcherSettings.with_lease d in
  let? d := assign (read parse_env_usize "MAX_IN_FLIGHT") DispatcherSettings.with_max_in_flight d in
  let? d := assign (read parse_env_duration_ms "PUBLISH_TIMEOUT_MS")
              DispatcherSettings.with_publish_timeout d in
  let? d := assign (read parse_env_duration_ms "POLL_INTERVAL_MS")
              DispatcherSettings.with_poll_interval d in
  let? d := assign (read parse_env_duration_ms "IDLE_POLL_INTERVAL_MS")
              DispatcherSettings.with_idle_poll_interval d in
  let? d := assign (read parse_env_duration_ms "DRAIN_TIMEOUT_MS")
              DispatcherSettings.with_drain_timeout d in
  let? d := assign (read parse_env_duration_ms "STORE_TIMEOUT_MS")
              DispatcherSettings.with_store_timeout d in
  let? d := assign (read parse_env_duration_ms "STATS_INTERVAL_MS")
              DispatcherSettings.with_stats_interval d in
  let? d := assign (read parse_env_ordering "ORDERING") DispatcherSettings.with_ordering d in
  let? d := assign (read parse_env_duration_ms "RETRY_BASE_MS")
              (λ v, set_retry (ExponentialBackoff.with_base v)) d in
  let? d := assign (read parse_env_duration_ms "RETRY_MAX_DELAY_MS")
              (λ v, set_retry (ExponentialBackoff.with_max_delay v)) d in
  let? d := assign (read parse_env_u32 "RETRY_MAX_ATTEMPTS")
              (λ v, set_retry (ExponentialBackoff.with_max_attempts v)) d in
  let? d := assign (read parse_env_jitter "RETRY_JITTER")
              (λ v, set_retry (ExponentialBackoff.with_jitter v)) d in
  assign (read parse_env_worker_id "WORKER_ID") DispatcherSettings.with_worker_id d.

(* src: outbox/settings.rs 607-615 OutboxSettings::from_env *)
Definition env_retention (r : RetentionSettings.t) : result RetentionSettings.t SettingsError.t :=
  let read {A} (p : string → string → result A SettingsError.t) k := env_parsed env prefix p k in
  let? r := assign (read parse_env_duration_ms "PUBLISHED_RETENTION_MS")
              RetentionSettings.with_published_retention r in
  let? r := assign (read parse_env_duration_ms "DEAD_RETENTION_MS")
              (λ v, RetentionSettings.with_dead_retention (Some v)) r in
  assign (read parse_env_u32 "PURGE_BATCH_SIZE") RetentionSettings.with_purge_batch_size r.

(* src: outbox/settings.rs 542-640 OutboxSettings::from_env *)
Definition from_env : result OutboxSettings.t SettingsError.t :=
  let? dispatcher := env_dispatcher DispatcherSettings.default in
  let? retention := env_retention RetentionSettings.default in
  let? enabled := assign (env_parsed env prefix parse_env_bool "ENABLED") (λ v _, v) true in
  let? allowed := assign (env_parsed env prefix MessageTypeNames.parse "ALLOWED_TYPES")
                    (λ v _, v) MessageTypeNames.empty in
  let? disallowed := assign (env_parsed env prefix MessageTypeNames.parse "DISALLOWED_TYPES")
                       (λ v _, v) MessageTypeNames.empty in
  let? _ := check_disjoint (prefix +:+ "DISALLOWED_TYPES") allowed disallowed in
  Ok (OutboxSettings.mk dispatcher retention enabled allowed disallowed).
End loader.
