(* ===== verification/OutboxRouting.v ===== *)
(** * Routing ([reliar-outbox], policy.rs, publisher.rs, staging.rs)

    The rule that sends a message through the outbox or straight to the transport,
    the two publishers that apply it, and the theorems about the settings the rule is
    built from.  A transport acts on the world [W]; staging acts on the transaction
    [Tx] the caller lends. *)

From Stdlib Require Import Ascii SpecFloat.
From S2P Require Import Prelude RustString CoreTypes CoreHeaders CoreEnvelope OutboxTypes.
From S2P Require Import OutboxRetry OutboxSettings.

(** ** [policy.rs] *)

(* src: outbox/policy.rs 159-170 RouteKind *)
Inductive RouteKind := Outbox | Direct.
Global Instance RouteKind_eq_dec : EqDecision RouteKind.
Proof. solve_decision. Defined.
(* src: outbox/policy.rs 173-180 RouteKind::as_str *)
Definition route_as_str (r : RouteKind) : string :=
  match r with Outbox => "outbox" | Direct => "direct" end.
(* src: outbox/policy.rs 182-186 RouteKind::is_outbox *)
Definition is_outbox (r : RouteKind) : bool := match r with Outbox => true | Direct => false end.

Module OutboxPolicy.
  (* src: outbox/policy.rs 36-41 OutboxPolicy *)
Record t := mk { enabled : bool; allowed : MessageTypeNames.t; disallowed : MessageTypeNames.t }.
  (* src: outbox/policy.rs 43-53 OutboxPolicy::default *)
Definition default : t := mk true MessageTypeNames.empty MessageTypeNames.empty.
  (* src: outbox/policy.rs 55-82 OutboxPolicy::from_settings *)
Definition from_settings (s : OutboxSettings.t) : result t SettingsError.t :=
  let? _ := check_disjoint "disallowed_types" (OutboxSettings.allowed_types s)
              (OutboxSettings.disallowed_types s) in
  Ok (mk (OutboxSettings.enabled s) (OutboxSettings.allowed_types s)
         (OutboxSettings.disallowed_types s)).
  (* src: outbox/policy.rs 84-118 OutboxPolicy::decide *)
Definition decide (p : t) (message_type : MessageType.t) : RouteKind :=
  let name := MessageType.name message_type in
  if negb (enabled p) then Direct
  else if MessageTypeNames.contains (disallowed p) name then Direct
  else if MessageTypeNames.is_empty (allowed p) then Outbox
  else if MessageTypeNames.contains (allowed p) name then Outbox
  else Direct.
End OutboxPolicy.

(** ** [staging.rs] and [publisher.rs] *)

(** Staging writes the envelope in the caller's transaction and answers its id. *)
(* src: outbox/staging.rs 16-43 OutboxStaging *)
Class OutboxStaging (Tx SE : Type) `{Classify SE} := {
  stage : SerializedEnvelope → Tx → Tx * result MessageId.t SE;
}.

(* src: outbox/publisher.rs 385-393 RouteError *)
Inductive RouteError (SE PE : Type) :=
  | RouteStage (e : SE)
  | RoutePublish (e : PE).
Arguments RouteStage {SE PE} _.
Arguments RoutePublish {SE PE} _.
(* src: outbox/publisher.rs 417-426 RouteError::kind *)
Global Instance RouteError_Classify {SE PE} `{Classify SE, Classify PE} : Classify (RouteError SE PE) :=
  λ e, match e with RouteStage e => kind e | RoutePublish e => kind e end.

(* src: outbox/publisher.rs 428-440 DirectPublishError *)
Inductive DirectPublishError (PE : Type) :=
  | TransactionRequired (message_type : MessageType.t)
  | DirectPublish (e : PE).
Arguments TransactionRequired {PE} _.
Arguments DirectPublish {PE} _.

(** The calls of the [routed] metrics hook, oldest first. *)
Abbreviation routed_log := (list (RouteKind * MessageType.t)).

Section publisher.
Context {W PE Tx SE : Type} `{Publisher W PE, OutboxStaging Tx SE}.
Context (policy : OutboxPolicy.t).

(* src: outbox/publisher.rs 201-238 OutboxPublisher::publish_direct *)
Definition publish_direct (e : SerializedEnvelope) (w : W) (m : routed_log)
  : W * routed_log * result unit (DirectPublishError PE) :=
  let route := OutboxPolicy.decide policy (Envelope.message_type e) in
  if is_outbox route then (w, m, Err (TransactionRequired (Envelope.message_type e)))
  else
    let '(w, r) := publish e w in
    match r with
    | Err err => (w, m, Err (DirectPublish err))
    | Ok tt => (w, m ++ [(route, Envelope.message_type e)], Ok tt)
    end.

(* src: outbox/publisher.rs 347-382 ScopedOutboxPublisher::publish *)
Definition scoped_publish (e : SerializedEnvelope) (w : W) (tx : Tx) (m : routed_log)
  : W * Tx * routed_log * result unit (RouteError SE PE) :=
  let route := OutboxPolicy.decide policy (Envelope.message_type e) in
  match route with
  | Outbox =>
      let '(tx, r) := stage e tx in
      match r with
      | Err err => (w, tx, m, Err (RouteStage err))
      | Ok _ => (w, tx, m ++ [(route, Envelope.message_type e)], Ok tt)
      end
  | Direct =>
      let '(w, r) := publish e w in
      match r with
      | Err err => (w, tx, m, Err (RoutePublish err))
      | Ok tt => (w, tx, m ++ [(route, Envelope.message_type e)], Ok tt)
      end
  end.
End publisher.

(** A scoped publisher is itself a [Publisher], over the pair of worlds and the
    metrics: its [publish_batch] is the inherited one. *)
(* src: outbox/publisher.rs 283-306 ScopedOutboxPublisher *)
Global Instance ScopedOutboxPublisher {W PE Tx SE} `{Publisher W PE, OutboxStaging Tx SE}
    (policy : OutboxPolicy.t) : Publisher (W * Tx * routed_log) (RouteError SE PE) :=
  {| publish e '(w, tx, m) := scoped_publish policy e w tx m |}.

(** ** Lemmas *)

Lemma contains_spec m name : MessageTypeNames.contains m name = true ↔ name ∈ MessageTypeNames.names m.
Proof.
  unfold MessageTypeNames.contains. rewrite existsb_exists. split.
  - intros (x & Hx & ->%bool_decide_eq_true). by apply list_elem_of_In.
  - intros Hin. exists name. split; [by apply list_elem_of_In|by apply bool_decide_eq_true].
Qed.

Lemma names_is_empty_spec m : MessageTypeNames.is_empty m = true ↔ MessageTypeNames.names m = [].
Proof. unfold MessageTypeNames.is_empty. by destruct (MessageTypeNames.names m). Qed.

Lemma check_disjoint_Ok key a d u :
  check_disjoint key a d = Ok u ↔
  ∀ name, name ∈ MessageTypeNames.names a → name ∉ MessageTypeNames.names d.
Proof.
  unfold check_disjoint. destruct u. destruct (existsb _ _) eqn:E.
  - split; [done|]. apply existsb_exists in E as (x & Hx & Hc%contains_spec).
    intros Hd. destruct (Hd x); [by apply list_elem_of_In|done].
  - split; [|done]. intros _ name Ha Hd.
    assert (existsb (MessageTypeNames.contains d) (MessageTypeNames.names a) = true); [|congruence].
    apply existsb_exists. exists name. split; [by apply list_elem_of_In|by apply contains_spec].
Qed.

Lemma validated_Ok field l m :
  MessageTypeNames.validated field l = Ok m ↔
  m = MessageTypeNames.mk l ∧ ∀ name, name ∈ l → is_versioned_message_type_name name = false.
Proof.
  unfold MessageTypeNames.validated. destruct (existsb _ _) eqn:E.
  - split; [done|]. intros [_ Hn]. apply existsb_exists in E as (x & Hx%list_elem_of_In & Hv).
    by rewrite Hn in Hv.
  - split; [intros [= <-]; split; [done|]|by intros [-> _]].
    intros name Hin. destruct (is_versioned_message_type_name name) eqn:Ev; [|done].
    assert (existsb is_versioned_message_type_name l = true); [|congruence].
    apply existsb_exists. exists name. split; [by apply list_elem_of_In|done].
Qed.

Lemma display_is_versioned mt : MessageType.valid mt →
  is_versioned_message_type_name (MessageType.display mt) = true.
Proof.
  intros _. unfold is_versioned_message_type_name. rewrite message_type_display_rsplit.
  pose proof (display_uint_digits (MessageType.version mt)) as Hd.
  pose proof (display_uint_nonempty (MessageType.version mt)) as Hne.
  apply andb_true_iff. split; [by destruct (display_uint _)|].
  apply forallb_forall. intros b Hb%list_elem_of_In. unfold digit_string in Hd.
  rewrite Forall_forall in Hd. by apply Hd.
Qed.

Lemma try_from_iter_names field l m :
  MessageTypeNames.try_from_iter field l = Ok m →
  MessageTypeNames.names m = trim <$> l
  ∧ Forall (λ n, n ≠ "" ∧ is_versioned_message_type_name n = false) (MessageTypeNames.names m).
Proof.
  unfold MessageTypeNames.try_from_iter. rewrite result_bind_Ok.
  intros (out & Ht & [-> Hv]%validated_Ok). cbn.
  assert (out = trim <$> l ∧ Forall (λ n, n ≠ "") out) as [-> Hne].
  { clear Hv. revert out Ht. induction l as [|x l IH]; intros out; cbn; [by intros [= <-]|].
    destruct (is_empty (trim x)) eqn:E; [done|]. rewrite result_bind_Ok.
    intros (o & Ho & [= <-]). destruct (IH _ Ho) as [-> ?]. split; [done|].
    constructor; [|done]. intros Heq. by rewrite Heq in E. }
  split; [done|]. apply Forall_forall. intros n Hn. rewrite Forall_forall in Hne. auto.
Qed.

Lemma assign_Ok {A S} (read : result (option A) SettingsError.t) (set : A → S → S) s s' :
  assign read set s = Ok s' ↔
  ∃ o, read = Ok o ∧ s' = match o with Some v => set v s | None => s end.
Proof. unfold assign. rewrite result_bind_Ok. naive_solver. Qed.

(** ** Properties *)

(** The routing rule: a message goes through the outbox exactly when routing is
    enabled, its type name is not disallowed, and the allow list is empty or names it;
    only the name matters, never the version. *)
Theorem decide_spec (p : OutboxPolicy.t) (mt : MessageType.t) :
  (OutboxPolicy.decide p mt = Outbox ↔
     OutboxPolicy.enabled p = true
     ∧ MessageType.name mt ∉ MessageTypeNames.names (OutboxPolicy.disallowed p)
     ∧ (MessageTypeNames.names (OutboxPolicy.allowed p) = []
        ∨ MessageType.name mt ∈ MessageTypeNames.names (OutboxPolicy.allowed p)))
  ∧ ∀ v, OutboxPolicy.decide p (MessageType.from_parts (MessageType.name mt) v)
         = OutboxPolicy.decide p mt.
Proof.
  split; [|done]. unfold OutboxPolicy.decide.
  rewrite <-!contains_spec, <-names_is_empty_spec.
  destruct (OutboxPolicy.enabled p), (MessageTypeNames.contains (OutboxPolicy.disallowed p) _),
    (MessageTypeNames.is_empty _), (MessageTypeNames.contains (OutboxPolicy.allowed p) _); cbn;
    naive_solver.
Qed.

(** A validated list never holds the rendered form of a message type, so no entry of
    it can silently match nothing: neither a comma-separated list, nor a list of names
    from serde, accepts [{name}.v{version}] of any message type. *)
Theorem names_never_versioned (field : string) (m : MessageTypeNames.t) (mt : MessageType.t)
    (Hmt : MessageType.valid mt)
    (Hm : (∃ list, MessageTypeNames.parse field list = Ok m)
          ∨ (∃ l, MessageTypeNames.try_from_iter field l = Ok m)) :
  MessageType.display mt ∉ MessageTypeNames.names m
  ∧ "" ∉ MessageTypeNames.names m.
Proof.
  assert (Hall : ∀ n, n ∈ MessageTypeNames.names m →
    n ≠ "" ∧ is_versioned_message_type_name n = false).
  { destruct Hm as [[list Hp]|[l [_ Hf]%try_from_iter_names]].
    - unfold MessageTypeNames.parse in Hp. apply validated_Ok in Hp as [-> Hv]. cbn.
      intros n Hn. split; [|by apply Hv]. apply list_elem_of_filter in Hn as [Hne _].
      by intros ->.
    - by apply Forall_forall. }
  split; [|by intros [? _]%Hall].
  intros [_ Hv]%Hall. by rewrite display_is_versioned in Hv.
Qed.

Lemma names_never_versioned_witness :
  MessageType.valid (MessageType.from_parts "orders.created" 1)
  ∧ MessageTypeNames.parse "allowed_types" " orders.created ,,audit" =
      Ok (MessageTypeNames.mk ["orders.created"; "audit"])
  ∧ "orders.created.v1" ∉ ["orders.created"; "audit"].
Proof.
  assert (Hv : MessageType.valid (MessageType.from_parts "orders.created" 1))
    by (split; vm_compute; discriminate).
  assert (Hp : MessageTypeNames.parse "allowed_types" " orders.created ,,audit" =
      Ok (MessageTypeNames.mk ["orders.created"; "audit"])) by (vm_compute; reflexivity).
  split; [exact Hv|]. split; [exact Hp|].
  exact (proj1 (names_never_versioned "allowed_types" _ (MessageType.from_parts "orders.created" 1)
    Hv (or_introl (ex_intro _ _ Hp)))).
Defined.

(** How a host obtains settings without assigning the public fields. *)
Inductive built : OutboxSettings.t → Prop :=
  | built_default : built OutboxSettings.default
  | built_from_env env prefix s : from_env env prefix = Ok s → built s
  | built_serde r s : OutboxSettings.try_from r = Ok s → built s
  | built_dispatcher d s : built s → built (OutboxSettings.with_dispatcher d s)
  | built_retention r s : built s → built (OutboxSettings.with_retention r s)
  | built_enabled b s : built s → built (OutboxSettings.with_enabled b s)
  | built_allowed a s s' : built s → OutboxSettings.with_allowed_types a s = Ok s' → built s'
  | built_disallowed d s s' : built s → OutboxSettings.with_disallowed_types d s = Ok s' → built s'.

(** Settings obtained from the default, the environment or serde, and changed only
    through the setters in any order, never name a type in both lists, so building the
    routing policy from them always succeeds, with exactly their switch and lists. *)
Theorem built_settings_accepted (s : OutboxSettings.t) (Hs : built s) :
  OutboxPolicy.from_settings s
  = Ok (OutboxPolicy.mk (OutboxSettings.enabled s) (OutboxSettings.allowed_types s)
          (OutboxSettings.disallowed_types s)).
Proof.
  assert (Hd : ∀ name, name ∈ MessageTypeNames.names (OutboxSettings.allowed_types s) →
                name ∉ MessageTypeNames.names (OutboxSettings.disallowed_types s)).
  { induction Hs as [|env prefix s Hs|r s Hs| | | |a s s' _ IH Hs|d s s' _ IH Hs]; try done.
    - intros ? ?%elem_of_nil. done.
    - unfold from_env in Hs.
      apply result_bind_Ok in Hs as (? & _ & Hs). apply result_bind_Ok in Hs as (? & _ & Hs).
      apply result_bind_Ok in Hs as (? & _ & Hs). apply result_bind_Ok in Hs as (? & _ & Hs).
      apply result_bind_Ok in Hs as (? & _ & Hs).
      apply result_bind_Ok in Hs as (? & Hc & [= <-]). exact (proj1 (check_disjoint_Ok _ _ _ _) Hc).
    - unfold OutboxSettings.try_from in Hs.
      apply result_bind_Ok in Hs as (? & _ & Hs). apply result_bind_Ok in Hs as (? & _ & Hs).
      apply result_bind_Ok in Hs as (? & Hc & [= <-]). exact (proj1 (check_disjoint_Ok _ _ _ _) Hc).
    - unfold OutboxSettings.with_allowed_types in Hs.
      apply result_bind_Ok in Hs as (? & Hc & [= <-]). exact (proj1 (check_disjoint_Ok _ _ _ _) Hc).
    - unfold OutboxSettings.with_disallowed_types in Hs.
      apply result_bind_Ok in Hs as (? & Hc & [= <-]). exact (proj1 (check_disjoint_Ok _ _ _ _) Hc). }
  unfold OutboxPolicy.from_settings.
  by rewrite (proj2 (check_disjoint_Ok _ _ _ ()) Hd).
Qed.

Lemma built_settings_accepted_witness :
  ∃ s, built s ∧ OutboxSettings.enabled s = false
    ∧ OutboxPolicy.from_settings s
      = Ok (OutboxPolicy.mk false MessageTypeNames.empty (MessageTypeNames.mk ["audit"])).
Proof.
  set (s0 := OutboxSettings.mk DispatcherSettings.default RetentionSettings.default false
               MessageTypeNames.empty (MessageTypeNames.mk ["audit"])).
  assert (Hb : built s0).
  { apply (built_disallowed (MessageTypeNames.mk ["audit"])
      (OutboxSettings.with_enabled false OutboxSettings.default)); [|reflexivity].
    apply built_enabled, built_default. }
  exists s0. split; [exact Hb|]. split; [reflexivity|].
  exact (built_settings_accepted s0 Hb).
Defined.

(** What the loader reads under one key: the parsed text of a present variable, the
    default of an absent one. *)
Definition reads {A} (env : Env) (prefix key : string)
    (parse : string → string → result A SettingsError.t) (dflt v : A) : Prop :=
  match env (prefix +:+ key) with
  | NotPresent => v = dflt
  | Present raw => parse (prefix +:+ key) raw = Ok v
  | NotUnicode => False
  end.

Lemma env_parsed_reads {A B} env prefix (p : string → string → result A SettingsError.t) key
    (o : option A) (f : A → B) (p' : string → string → result B SettingsError.t) dflt :
  (∀ k raw a, p k raw = Ok a → p' k raw = Ok (f a)) →
  env_parsed env prefix p key = Ok o → reads env prefix key p' dflt (from_option f dflt o).
Proof.
  intros Hp. unfold env_parsed, env_raw, reads. destruct (env (prefix +:+ key)); cbn.
  - by intros [= <-].
  - done.
  - rewrite result_bind_Ok. intros (a & Ha & [= <-]). by apply Hp.
Qed.

Definition some_ok {A} (p : string → string → result A SettingsError.t) (k raw : string)
  : result (option A) SettingsError.t := let? v := p k raw in Ok (Some v).

(** One assignment of the loader, field by field. *)
Lemma dispatcher_assign {A} read (set : A → DispatcherSettings.t → DispatcherSettings.t) d d' :
  assign read set d = Ok d' → ∃ o, read = Ok o ∧
  d' = let f {B} (p : DispatcherSettings.t → B) := from_option (λ v, p (set v d)) (p d) o in
    DispatcherSettings.mk (f DispatcherSettings.batch_size) (f DispatcherSettings.lease)
      (f DispatcherSettings.max_in_flight) (f DispatcherSettings.publish_timeout)
      (f DispatcherSettings.poll_interval) (f DispatcherSettings.idle_poll_interval)
      (f DispatcherSettings.drain_timeout) (f DispatcherSettings.store_timeout)
      (f DispatcherSettings.stats_interval) (f DispatcherSettings.ordering)
      (let g {B} (p : ExponentialBackoff.t → B) :=
         from_option (λ v, p (DispatcherSettings.retry (set v d))) (p (DispatcherSettings.retry d)) o in
       ExponentialBackoff.mk (g ExponentialBackoff.base) (g ExponentialBackoff.max_delay)
         (g ExponentialBackoff.max_attempts) (g ExponentialBackoff.jitter))
      (f DispatcherSettings.worker_id).
Proof.
  intros (o & -> & ->)%assign_Ok. exists o. split; [done|]. destruct o as [v|]; cbn.
  - by destruct (set v d) as [??????????[]].
  - by destruct d as [??????????[]].
Qed.

Lemma retention_assign {A} read (set : A → RetentionSettings.t → RetentionSettings.t) d d' :
  assign read set d = Ok d' → ∃ o, read = Ok o ∧
  d' = let f {B} (p : RetentionSettings.t → B) := from_option (λ v, p (set v d)) (p d) o in
    RetentionSettings.mk (f RetentionSettings.published_retention)
      (f RetentionSettings.dead_retention) (f RetentionSettings.purge_batch_size).
Proof.
  intros (o & -> & ->)%assign_Ok. exists o. split; [done|].
  destruct o as [v|]; cbn; [by destruct (set v d)|by destruct d].
Qed.

Lemma from_option_same {A B} (b : B) (o : option A) : from_option (λ _, b) b o = b.
Proof. by destruct o. Qed.

Ltac env_assign H :=
  let o := fresh "o" in let Hr := fresh "Hr" in let Hx := fresh "Hx" in
  first [apply dispatcher_assign in H as (o & Hr & Hx)|apply retention_assign in H as (o & Hr & Hx)];
  cbn in Hx; rewrite ?from_option_same in Hx; subst.
Ltac env_step H :=
  let Ha := fresh "Ha" in apply result_bind_Ok in H as (? & Ha & H); env_assign Ha.

(** C40 [functional] [from_env] is all or nothing and local: when it succeeds, every setting is the
    parsed value of its own variable if that variable is present and the documented
    default if it is absent; a present variable that is not UTF-8, does not parse or is
    out of range makes the whole load fail instead of falling back. *)
Theorem from_env_spec (env : Env) (prefix : string) (s : OutboxSettings.t)
    (Hs : from_env env prefix = Ok s) :
  let d := OutboxSettings.dispatcher s in
  let r := OutboxSettings.retention s in
  let num key dflt v := reads env prefix key parse_env_u32 dflt v in
  let ms key dflt v := reads env prefix key parse_env_duration_ms dflt v in
  num "BATCH_SIZE" 100 (DispatcherSettings.batch_size d)
  ∧ ms "LEASE_MS" 30000000000 (DispatcherSettings.lease d)
  ∧ reads env prefix "MAX_IN_FLIGHT" parse_env_usize 16 (DispatcherSettings.max_in_flight d)
  ∧ ms "PUBLISH_TIMEOUT_MS" 10000000000 (DispatcherSettings.publish_timeout d)
  ∧ ms "POLL_INTERVAL_MS" 500000000 (DispatcherSettings.poll_interval d)
  ∧ ms "IDLE_POLL_INTERVAL_MS" 5000000000 (DispatcherSettings.idle_poll_interval d)
  ∧ ms "DRAIN_TIMEOUT_MS" 30000000000 (DispatcherSettings.drain_timeout d)
  ∧ ms "STORE_TIMEOUT_MS" 10000000000 (DispatcherSettings.store_timeout d)
  ∧ ms "STATS_INTERVAL_MS" 15000000000 (DispatcherSettings.stats_interval d)
  ∧ reads env prefix "ORDERING" parse_env_ordering Unordered (DispatcherSettings.ordering d)
  ∧ ms "RETRY_BASE_MS" 1000000000 (ExponentialBackoff.base (DispatcherSettings.retry d))
  ∧ ms "RETRY_MAX_DELAY_MS" 300000000000
      (ExponentialBackoff.max_delay (DispatcherSettings.retry d))
  ∧ num "RETRY_MAX_ATTEMPTS" 10 (ExponentialBackoff.max_attempts (DispatcherSettings.retry d))
  ∧ reads env prefix "RETRY_JITTER" parse_env_jitter F64.fifth
      (ExponentialBackoff.jitter (DispatcherSettings.retry d))
  ∧ reads env prefix "WORKER_ID" (some_ok parse_env_worker_id) None (DispatcherSettings.worker_id d)
  ∧ ms "PUBLISHED_RETENTION_MS" 604800000000000 (RetentionSettings.published_retention r)
  ∧ reads env prefix "DEAD_RETENTION_MS" (some_ok parse_env_duration_ms) None
      (RetentionSettings.dead_retention r)
  ∧ num "PURGE_BATCH_SIZE" 1000 (RetentionSettings.purge_batch_size r)
  ∧ reads env prefix "ENABLED" parse_env_bool true (OutboxSettings.enabled s)
  ∧ reads env prefix "ALLOWED_TYPES" MessageTypeNames.parse MessageTypeNames.empty
      (OutboxSettings.allowed_types s)
  ∧ reads env prefix "DISALLOWED_TYPES" MessageTypeNames.parse MessageTypeNames.empty
      (OutboxSettings.disallowed_types s).
Proof.
  cbn zeta. unfold from_env in Hs.
  apply result_bind_Ok in Hs as (d & Hd & Hs). apply result_bind_Ok in Hs as (r & Hr & Hs).
  apply result_bind_Ok in Hs as (en & (oe & He & ->)%assign_Ok & Hs).
  apply result_bind_Ok in Hs as (al & (oa & Hal & ->)%assign_Ok & Hs).
  apply result_bind_Ok in Hs as (di & (od & Hdi & ->)%assign_Ok & Hs).
  apply result_bind_Ok in Hs as (? & _ & [= <-]).
  unfold env_dispatcher in Hd. do 14 env_step Hd.
  env_assign Hd.
  unfold env_retention in Hr. do 2 env_step Hr.
  env_assign Hr. cbn.
  split_and!;
    first [ eapply (env_parsed_reads _ _ _ _ _ id); [|eassumption]; done
          | eapply (env_parsed_reads _ _ _ _ _ Some); [|eassumption];
            intros k raw a Hp; unfold some_ok; by rewrite Hp ].
Qed.

Definition sample_env : Env := λ k,
  if bool_decide (k = "APP_LEASE_MS") then Present " 45000 "
  else if bool_decide (k = "APP_RETRY_JITTER") then Present "0"
  else if bool_decide (k = "APP_ENABLED") then Present "FALSE"
  else NotPresent.

Lemma from_env_spec_witness :
  ∃ s, from_env sample_env "APP_" = Ok s
    ∧ reads sample_env "APP_" "LEASE_MS" parse_env_duration_ms 30000000000
        (DispatcherSettings.lease (OutboxSettings.dispatcher s))
    ∧ DispatcherSettings.lease (OutboxSettings.dispatcher s) = 45000000000.
Proof.
  destruct (from_env sample_env "APP_") as [s|e] eqn:E; [|vm_compute in E; discriminate].
  exists s. split; [reflexivity|].
  destruct (from_env_spec _ _ _ E) as (_ & Hl & _). split; [exact Hl|].
  clear Hl. vm_compute in E. injection E as <-. reflexivity.
Defined.

(** Staging a list of envelopes in one transaction, ignoring the answers. *)
Definition stage_all {Tx SE} `{OutboxStaging Tx SE} (es : list SerializedEnvelope) (tx : Tx) : Tx :=
  fold_left (λ tx e, fst (stage e tx)) es tx.

Section scoped.
Context {W PE Tx SE : Type} `{Publisher W PE, OutboxStaging Tx SE}.
Context (policy : OutboxPolicy.t).

Definition route_of (e : SerializedEnvelope) : RouteKind :=
  OutboxPolicy.decide policy (Envelope.message_type e).
Definition routed_by (r : RouteKind) (es : list SerializedEnvelope) : list SerializedEnvelope :=
  filter (λ e, route_of e = r) es.

(** The [routed] calls of a batch: one per success, with the route taken. *)
Definition routed_calls (es : list SerializedEnvelope) (rs : list (result unit (RouteError SE PE)))
  : routed_log :=
  omap (λ p, if is_ok p.2 then Some (route_of p.1, Envelope.message_type p.1) else None)
    (zip es rs).

(** C39 [functional] A batch through a scoped publisher splits by the routing rule: the transaction
    is left exactly as staging the routed envelopes alone, in order, leaves it; the
    transport exactly as publishing the direct ones alone, in order; each routed error
    is a staging error and each direct error a transport error; and the metrics hook
    is told the route of every success, once and in order. *)
Theorem scoped_batch_splits (es : list SerializedEnvelope) (w w' : W) (tx tx' : Tx)
    (m m' : routed_log) rs
    (Hrun : publish_batch (H0:=ScopedOutboxPublisher policy) es (w, tx, m)
            = ((w', tx', m'), rs)) :
  tx' = stage_all (routed_by Outbox es) tx
  ∧ w' = fst (publish_batch (routed_by Direct es) w)
  ∧ m' = m ++ routed_calls es rs
  ∧ Forall2 (λ e r, match r with
                    | Err (RouteStage _) => route_of e = Outbox
                    | Err (RoutePublish _) => route_of e = Direct
                    | Ok _ => True
                    end) es rs.
Proof.
  revert w tx m rs Hrun. induction es as [|e es IH]; intros w tx m rs.
  { cbn. intros [= <- <- <- <-]. unfold routed_calls. cbn.
    rewrite app_nil_r. by split_and!; constructor. }
  cbn [publish_batch]. unfold publish at 1. cbn [ScopedOutboxPublisher].
  destruct (scoped_publish policy e w tx m) as [[[w1 tx1] m1] r1] eqn:E.
  destruct (publish_batch es (w1, tx1, m1)) as [[[w2 tx2] m2] rs2] eqn:E2.
  intros [= -> -> -> <-]. apply IH in E2 as (-> & -> & -> & HF). clear IH.
  unfold scoped_publish in E. fold (route_of e) in E.
  unfold routed_by, routed_calls, stage_all. rewrite !filter_cons. cbn.
  destruct (route_of e) eqn:Er.
  - rewrite decide_True by done. rewrite (decide_False (P:=Outbox = Direct)) by done. cbn.
    destruct (stage e tx) as [tx0 [i|err]] eqn:Es; injection E as <- <- <- <-; cbn;
      rewrite ?Er, <-?app_assoc; split_and!; try done; by constructor.
  - rewrite decide_False by done. rewrite (decide_True (P:=Direct = Direct)) by done. cbn.
    destruct (publish e w) as [w0 [[]|err]] eqn:Ep; injection E as <- <- <- <-; cbn;
      destruct (publish_batch (filter _ es) w0); cbn;
      rewrite ?Er, <-?app_assoc; split_and!; try done; by constructor.
Qed.

(** Without a transaction, a routed message is never published: [publish_direct] refuses
    it, naming its type, and touches neither the transport nor the metrics; a direct
    message gets exactly one transport publish and is never refused for lack of a
    transaction. *)
Theorem publish_direct_refuses_routed (e : SerializedEnvelope) (w : W) (m : routed_log) :
  let '(w', m', r) := publish_direct policy e w m in
  (r = Err (TransactionRequired (Envelope.message_type e)) ↔ route_of e = Outbox)
  ∧ (route_of e = Outbox → w' = w ∧ m' = m)
  ∧ (route_of e = Direct →
       w' = fst (publish e w)
       ∧ r = map_err DirectPublish (snd (publish e w))
       ∧ m' = m ++ (if is_ok r then [(Direct, Envelope.message_type e)] else [])).
Proof.
  unfold publish_direct. fold (route_of e). destruct (route_of e); cbn; [naive_solver|].
  destruct (publish e w) as [w1 [[]|err]]; cbn; rewrite ?app_nil_r; naive_solver.
Qed.
End scoped.

(** A transport that records what it is given and a transaction that stages nothing
    odd: both refuse messages with an empty body. *)
Global Instance unit_Classify : Classify unit := λ _, Permanent.
Definition sample_publisher : Publisher (list SerializedEnvelope) unit :=
  {| publish e w := match Envelope.body e with [] => (w, Err tt) | _ => (w ++ [e], Ok tt) end |}.
Definition sample_staging : OutboxStaging (list SerializedEnvelope) unit :=
  {| stage e tx := (tx ++ [e], Ok (Envelope.id e)) |}.
Definition sample_message (n : Z) (name : string) (body : list Byte.byte) : SerializedEnvelope :=
  Envelope.mk (MessageId.from_uuid n) (MessageType.from_parts name 1) body Metadata.default None.

Lemma scoped_batch_splits_witness :
  let policy := OutboxPolicy.mk true MessageTypeNames.empty (MessageTypeNames.mk ["audit"]) in
  let es := [sample_message 1 "audit" []; sample_message 2 "orders" [Byte.x01];
             sample_message 3 "audit" [Byte.x01]] in
  ∃ w tx m rs,
    publish_batch (H0:=ScopedOutboxPublisher (H0:=sample_publisher)
      (H2:=sample_staging) policy) es ([], [], []) = ((w, tx, m), rs)
    ∧ tx = [sample_message 2 "orders" [Byte.x01]]
    ∧ w = [sample_message 3 "audit" [Byte.x01]].
Proof.
  destruct (publish_batch (H0:=ScopedOutboxPublisher (H0:=sample_publisher)
    (H2:=sample_staging)
    (OutboxPolicy.mk true MessageTypeNames.empty (MessageTypeNames.mk ["audit"])))
    [sample_message 1 "audit" []; sample_message 2 "orders" [Byte.x01];
     sample_message 3 "audit" [Byte.x01]] ([], [], [])) as [[[w tx] m] rs] eqn:E.
  exists w, tx, m, rs. split; [exact E|].
  destruct (scoped_batch_splits (H0:=sample_publisher) (H2:=sample_staging) _ _ _ _ _ _ _ _ _ E)
    as (-> & -> & _). split; vm_compute; reflexivity.
Defined.
