(* ===== verification/OutboxSerde.v ===== *)
(** * Settings over serde ([reliar-outbox], settings.rs, retry.rs, worker.rs, duration_serde.rs)

    The [Serialize] and [Deserialize] of the settings, behind the [serde] feature: durations
    as whole milliseconds, unknown fields refused, missing fields filled in, and the lists of
    message types validated on the way in as the setters validate them.  The values are those
    of [CoreSerde]; a float that is not finite is written as null, as [serde_json] does. *)

From Stdlib Require Import SpecFloat.
From S2P Require Import Prelude RustString CoreTypes CoreHeaders CoreEnvelope CoreSerde OutboxTypes OutboxRetry OutboxSettings OutboxRouting.

(** ** Primitive types *)

Definition de_bool (v : value) : result bool de_error :=
  match v with VBool b => Ok b | _ => Err InvalidType end.
(** An unsigned integer up to [max]; a [usize] has 64 bits. *)
Definition de_uint (max : Z) (v : value) : result Z de_error :=
  match v with
  | VInt n => if (0 <=? n) && (n <=? max) then Ok n else Err InvalidValue
  | _ => Err InvalidType
  end.
Definition se_f64 (x : spec_float) : value := if F64.is_finite x then VFloat x else VNull.
Definition de_f64 (v : value) : result spec_float de_error :=
  match v with
  | VFloat x => Ok x
  | VInt n => Ok (F64.of_Z n)
  | _ => Err InvalidType
  end.
Fixpoint de_strs (l : list value) : result (list string) de_error :=
  match l with
  | [] => Ok []
  | v :: l => let? s := de_str v in let? ss := de_strs l in Ok (s :: ss)
  end.
Definition de_vec_string (v : value) : result (list string) de_error :=
  match v with VSeq l => de_strs l | _ => Err InvalidType end.

(* src: outbox/duration_serde.rs 13-16 millis::serialize *)
Definition se_millis (d : Duration) : option value := VInt <$> millis_serialize d.
(* src: outbox/duration_serde.rs 18-20 millis::deserialize *)
Definition de_millis (v : value) : result Duration de_error :=
  let? ms := de_uint U64_MAX v in Ok (millis_deserialize ms).
(* src: outbox/duration_serde.rs 33-44 optional_millis::serialize *)
Definition se_optional_millis (o : option Duration) : option value :=
  match o with Some d => se_millis d | None => Some VNull end.
(* src: outbox/duration_serde.rs 46-50 optional_millis::deserialize *)
Definition de_optional_millis (v : value) : result (option Duration) de_error :=
  let? o := de_option (de_uint U64_MAX) v in Ok (from_millis <$> o).

(** ** The settings *)

(* src: outbox/worker.rs 79-83 WorkerId::serialize *)
Definition se_worker_id (w : WorkerId.t) : value := VStr (WorkerId.as_str w).
(* src: outbox/worker.rs 85-90 WorkerId::deserialize *)
Definition de_worker_id (v : value) : result WorkerId.t de_error :=
  let? raw := de_str v in map_err CustomId (WorkerId.parse raw).

(* src: outbox/ordering.rs 11-25 Ordering *)
Definition se_ordering (o : Ordering) : value :=
  VStr (match o with Unordered => "unordered" | PerKey => "per_key" end).
Definition ordering_variant (name : string) : result Ordering de_error :=
  if String.eqb name "unordered" then Ok Unordered
  else if String.eqb name "per_key" then Ok PerKey
  else Err (UnknownVariant name).
(** A unit variant is its name, or a map from its name to null. *)
(* src: outbox/ordering.rs 11-25 Ordering *)
Definition de_ordering (v : value) : result Ordering de_error :=
  match v with
  | VStr name => ordering_variant name
  | VMap [(name, v)] =>
      let? o := ordering_variant name in
      match v with VNull => Ok o | _ => Err InvalidType end
  | _ => Err InvalidType
  end.

(* src: outbox/retry.rs 40-64 ExponentialBackoff *)
Definition se_backoff (b : ExponentialBackoff.t) : option value :=
  base ← se_millis (ExponentialBackoff.base b);
  max_delay ← se_millis (ExponentialBackoff.max_delay b);
  Some (VMap [("base_ms", base); ("max_delay_ms", max_delay);
              ("max_attempts", VInt (ExponentialBackoff.max_attempts b));
              ("jitter", se_f64 (ExponentialBackoff.jitter b))]).
Definition backoff_visitors : list (string * (value → result unit de_error)) :=
  [("base_ms", checks de_millis); ("max_delay_ms", checks de_millis);
   ("max_attempts", checks (de_uint U32_MAX)); ("jitter", checks de_f64)].
(* src: outbox/retry.rs 40-64 ExponentialBackoff *)
Definition de_backoff (v : value) : result ExponentialBackoff.t de_error :=
  let dflt := ExponentialBackoff.default in
  let? m := visit_map_strict backoff_visitors v in
  let? base := field de_millis (ExponentialBackoff.base dflt) "base_ms" m in
  let? max_delay := field de_millis (ExponentialBackoff.max_delay dflt) "max_delay_ms" m in
  let? max_attempts :=
    field (de_uint U32_MAX) (ExponentialBackoff.max_attempts dflt) "max_attempts" m in
  let? jitter := field de_f64 (ExponentialBackoff.jitter dflt) "jitter" m in
  Ok (ExponentialBackoff.mk base max_delay max_attempts jitter).

(* src: outbox/settings.rs 274-371 DispatcherSettings *)
Definition se_dispatcher (s : DispatcherSettings.t) : option value :=
  lease ← se_millis (DispatcherSettings.lease s);
  publish_timeout ← se_millis (DispatcherSettings.publish_timeout s);
  poll_interval ← se_millis (DispatcherSettings.poll_interval s);
  idle_poll_interval ← se_millis (DispatcherSettings.idle_poll_interval s);
  drain_timeout ← se_millis (DispatcherSettings.drain_timeout s);
  store_timeout ← se_millis (DispatcherSettings.store_timeout s);
  stats_interval ← se_millis (DispatcherSettings.stats_interval s);
  retry ← se_backoff (DispatcherSettings.retry s);
  Some (VMap [("batch_size", VInt (DispatcherSettings.batch_size s)); ("lease_ms", lease);
              ("max_in_flight", VInt (DispatcherSettings.max_in_flight s));
              ("publish_timeout_ms", publish_timeout); ("poll_interval_ms", poll_interval);
              ("idle_poll_interval_ms", idle_poll_interval); ("drain_timeout_ms", drain_timeout);
              ("store_timeout_ms", store_timeout); ("stats_interval_ms", stats_interval);
              ("ordering", se_ordering (DispatcherSettings.ordering s)); ("retry", retry);
              ("worker_id", se_option se_worker_id (DispatcherSettings.worker_id s))]).
Definition dispatcher_visitors : list (string * (value → result unit de_error)) :=
  [("batch_size", checks (de_uint U32_MAX)); ("lease_ms", checks de_millis);
   ("max_in_flight", checks (de_uint U64_MAX)); ("publish_timeout_ms", checks de_millis);
   ("poll_interval_ms", checks de_millis); ("idle_poll_interval_ms", checks de_millis);
   ("drain_timeout_ms", checks de_millis); ("store_timeout_ms", checks de_millis);
   ("stats_interval_ms", checks de_millis); ("ordering", checks de_ordering);
   ("retry", checks de_backoff); ("worker_id", checks (de_option de_worker_id))].
(* src: outbox/settings.rs 274-371 DispatcherSettings *)
Definition de_dispatcher (v : value) : result DispatcherSettings.t de_error :=
  let dflt := DispatcherSettings.default in
  let? m := visit_map_strict dispatcher_visitors v in
  let? batch_size := field (de_uint U32_MAX) (DispatcherSettings.batch_size dflt) "batch_size" m in
  let? lease := field de_millis (DispatcherSettings.lease dflt) "lease_ms" m in
  let? max_in_flight :=
    field (de_uint U64_MAX) (DispatcherSettings.max_in_flight dflt) "max_in_flight" m in
  let? publish_timeout :=
    field de_millis (DispatcherSettings.publish_timeout dflt) "publish_timeout_ms" m in
  let? poll_interval := field de_millis (DispatcherSettings.poll_interval dflt) "poll_interval_ms" m in
  let? idle_poll_interval :=
    field de_millis (DispatcherSettings.idle_poll_interval dflt) "idle_poll_interval_ms" m in
  let? drain_timeout := field de_millis (DispatcherSettings.drain_timeout dflt) "drain_timeout_ms" m in
  let? store_timeout := field de_millis (DispatcherSettings.store_timeout dflt) "store_timeout_ms" m in
  let? stats_interval :=
    field de_millis (DispatcherSettings.stats_interval dflt) "stats_interval_ms" m in
  let? ordering := field de_ordering (DispatcherSettings.ordering dflt) "ordering" m in
  let? retry := field de_backoff (DispatcherSettings.retry dflt) "retry" m in
  let? worker_id :=
    field (de_option de_worker_id) (DispatcherSettings.worker_id dflt) "worker_id" m in
  Ok (DispatcherSettings.mk batch_size lease max_in_flight publish_timeout poll_interval
        idle_poll_interval drain_timeout store_timeout stats_interval ordering retry worker_id).

(* src: outbox/settings.rs 478-507 RetentionSettings *)
Definition se_retention (s : RetentionSettings.t) : option value :=
  published ← se_millis (RetentionSettings.published_retention s);
  dead ← se_optional_millis (RetentionSettings.dead_retention s);
  Some (VMap [("published_retention_ms", published); ("dead_retention_ms", dead);
              ("purge_batch_size", VInt (RetentionSettings.purge_batch_size s))]).
Definition retention_visitors : list (string * (value → result unit de_error)) :=
  [("published_retention_ms", checks de_millis); ("dead_retention_ms", checks de_optional_millis);
   ("purge_batch_size", checks (de_uint U32_MAX))].
(* src: outbox/settings.rs 478-507 RetentionSettings *)
Definition de_retention (v : value) : result RetentionSettings.t de_error :=
  let dflt := RetentionSettings.default in
  let? m := visit_map_strict retention_visitors v in
  let? published :=
    field de_millis (RetentionSettings.published_retention dflt) "published_retention_ms" m in
  let? dead :=
    field de_optional_millis (RetentionSettings.dead_retention dflt) "dead_retention_ms" m in
  let? purge_batch_size :=
    field (de_uint U32_MAX) (RetentionSettings.purge_batch_size dflt) "purge_batch_size" m in
  Ok (RetentionSettings.mk published dead purge_batch_size).

(* src: outbox/settings.rs 215-219 MessageTypeNames::into *)
Definition se_names (m : MessageTypeNames.t) : value := VSeq (VStr <$> MessageTypeNames.names m).

(* src: outbox/settings.rs 15-47 OutboxSettings *)
Definition se_settings (s : OutboxSettings.t) : option value :=
  dispatcher ← se_dispatcher (OutboxSettings.dispatcher s);
  retention ← se_retention (OutboxSettings.retention s);
  Some (VMap [("dispatcher", dispatcher); ("retention", retention);
              ("enabled", VBool (OutboxSettings.enabled s));
              ("allowed_types", se_names (OutboxSettings.allowed_types s));
              ("disallowed_types", se_names (OutboxSettings.disallowed_types s))]).
Definition settings_visitors : list (string * (value → result unit de_error)) :=
  [("dispatcher", checks de_dispatcher); ("retention", checks de_retention);
   ("enabled", checks de_bool); ("allowed_types", checks de_vec_string);
   ("disallowed_types", checks de_vec_string)].
Definition present {A} (d : value → result A de_error) (v : value) : result (option A) de_error :=
  let? a := d v in Ok (Some a).
(* src: outbox/settings.rs 231-248 OutboxSettingsRepr *)
Definition de_repr (v : value) : result OutboxSettings.repr de_error :=
  let? m := visit_map_strict settings_visitors v in
  let? dispatcher := field (present de_dispatcher) None "dispatcher" m in
  let? retention := field (present de_retention) None "retention" m in
  let? enabled := field (present de_bool) None "enabled" m in
  let? allowed_types := field (present de_vec_string) None "allowed_types" m in
  let? disallowed_types := field (present de_vec_string) None "disallowed_types" m in
  Ok (OutboxSettings.mkRepr dispatcher retention enabled allowed_types disallowed_types).
(* src: outbox/settings.rs 17-19 OutboxSettings *)
Definition de_settings (v : value) : result OutboxSettings.t de_error :=
  let? repr := de_repr v in map_err CustomSettings (OutboxSettings.try_from repr).

(** ** Visiting a pruned map *)

Lemma assoc_filter {A} keep k (l : list (string * A)) :
  assoc k (List.filter (λ p, keep p.1) l) = if keep k then assoc k l else None.
Proof.
  induction l as [|[k' v] l IH]; cbn [List.filter fst assoc]; [by destruct (keep k)|].
  destruct (String.eqb_spec k k') as [<-|Hk].
  - destruct (keep k); [|done]. cbn [assoc]. by rewrite String.eqb_refl.
  - destruct (keep k'); [|done]. cbn [assoc]. rewrite (proj2 (String.eqb_neq k k') Hk). exact IH.
Qed.

Lemma field_kept {A} (d : value → result A de_error) missing keep k l a :
  field d missing k l = Ok a →
  field d missing k (keep_fields keep l) = Ok (kept keep k a missing).
Proof.
  unfold field, keep_fields, kept. rewrite assoc_filter. by destruct (keep k).
Qed.

Definition accepted (fields : list (string * (value → result unit de_error))) (p : string * value) : Prop :=
  ∃ d, assoc p.1 fields = Some d ∧ d p.2 = Ok ().

Lemma visit_strict_ok fields seen l :
  NoDup l.*1 → (∀ k, k ∈ seen → k ∉ l.*1) → Forall (accepted fields) l →
  visit_strict fields seen l = Ok ().
Proof.
  intros Hnd Hseen Hall. revert seen Hnd Hseen.
  induction Hall as [|[k v] l (d & Hd & Hv) _ IH]; intros seen Hnd Hseen; [done|].
  cbn [visit_strict fst snd fmap list_fmap] in *. rewrite Hd, Hv. cbn [result_bind].
  apply NoDup_cons in Hnd as [Hk Hnd].
  destruct (existsb (String.eqb k) seen) eqn:Es.
  { apply existsb_exists in Es as (k' & Hin & ->%String.eqb_eq).
    destruct (Hseen k'); [by apply list_elem_of_In|left]. }
  apply IH; [done|]. intros k' Hk'. apply elem_of_cons in Hk' as [->|Hk']; [done|].
  intros Hin. apply (Hseen k' Hk'). by right.
Qed.

Lemma visit_kept fields keep l :
  NoDup l.*1 → Forall (accepted fields) l →
  visit_map_strict fields (VMap (keep_fields keep l)) = Ok (keep_fields keep l).
Proof.
  intros Hnd Hall. unfold visit_map_strict. rewrite visit_strict_ok; [done| |by intros ? ?%elem_of_nil|].
  - unfold keep_fields. clear Hall. induction l as [|[k v] l IH]; [done|].
    apply NoDup_cons in Hnd as [Hk Hnd]. cbn [List.filter fst].
    destruct (keep k); [|by apply IH]. apply NoDup_cons. split; [|by apply IH].
    intros (p & Hp & Hin)%list_elem_of_fmap. apply Hk, list_elem_of_fmap. exists p. split; [done|].
    apply list_elem_of_In, List.filter_In in Hin as [Hin _]. by apply list_elem_of_In.
  - apply Forall_forall. intros p Hin. apply list_elem_of_In, List.filter_In in Hin as [Hin _].
    eapply Forall_forall; [exact Hall|]. by apply list_elem_of_In.
Qed.

(** What [keep] leaves of a value: of each map, named by the path to it, the kept fields. *)
Fixpoint prune (keep : list string → string → bool) (path : list string) (v : value) : value :=
  match v with
  | VMap l => VMap (keep_fields (keep path)
                      ((fix go l := match l with
                                    | [] => []
                                    | (k, x) :: l => (k, prune keep (k :: path) x) :: go l
                                    end) l))
  | _ => v
  end.

(** ** Each settings struct reads back *)

Lemma de_uint_VInt max n : 0 ≤ n ≤ max → de_uint max (VInt n) = Ok n.
Proof. intros Hn. unfold de_uint. destruct (Z.leb_spec 0 n), (Z.leb_spec n max); done || lia. Qed.

(** A duration, cut to whole milliseconds. *)
Definition in_millis (d : Duration) : Duration := from_millis (as_millis d).

Lemma se_millis_Some d v : 0 ≤ d → se_millis d = Some v →
  (∃ ms, v = VInt ms) ∧ de_millis v = Ok (in_millis d).
Proof.
  unfold se_millis, millis_serialize. intros Hd. destruct (Z.leb_spec (as_millis d) U64_MAX); [|done].
  intros [= <-]. split; [by eexists|]. unfold de_millis.
  rewrite de_uint_VInt; [done|]. unfold as_millis in *. split; [|lia]. by apply Z.div_pos.
Qed.

Lemma se_optional_millis_Some o v : (∀ d, o = Some d → 0 ≤ d) → se_optional_millis o = Some v →
  ((∃ ms, v = VInt ms) ∨ v = VNull) ∧ de_optional_millis v = Ok (in_millis <$> o).
Proof.
  intros Hd. destruct o as [d|]; cbn; [|intros [= <-]; by auto].
  intros Hv. destruct (se_millis_Some _ _ (Hd d eq_refl) Hv) as [[ms ->] He]. split; [by eauto|].
  unfold de_optional_millis, de_millis, de_option in *.
  destruct (de_uint U64_MAX (VInt ms)) as [n|]; cbn in *; [|done]. by injection He as <-.
Qed.

Lemma checks_Ok {A} (d : value → result A de_error) v a : d v = Ok a → checks d v = Ok ().
Proof. unfold checks. by intros ->. Qed.

Ltac eval_field := cbv beta iota delta [field assoc String.eqb Ascii.eqb Bool.eqb].
Ltac read_kept :=
  intros; rewrite visit_kept;
  [ cbn [result_bind];
    repeat (erewrite field_kept by (eval_field; eassumption); cbn [result_bind]); reflexivity
  | apply (bool_decide_unpack _); vm_compute; exact I
  | repeat (apply Forall_cons; split); [..|apply Forall_nil; exact I];
    eexists; (split; [reflexivity|cbn [snd]; eapply checks_Ok; eassumption]) ].

Definition backoff_kept keep (a dflt : ExponentialBackoff.t) : ExponentialBackoff.t :=
  ExponentialBackoff.mk
    (kept keep "base_ms" (ExponentialBackoff.base a) (ExponentialBackoff.base dflt))
    (kept keep "max_delay_ms" (ExponentialBackoff.max_delay a) (ExponentialBackoff.max_delay dflt))
    (kept keep "max_attempts" (ExponentialBackoff.max_attempts a) (ExponentialBackoff.max_attempts dflt))
    (kept keep "jitter" (ExponentialBackoff.jitter a) (ExponentialBackoff.jitter dflt)).

Lemma backoff_fields keep v1 v2 v3 v4 a1 a2 a3 a4 :
  de_millis v1 = Ok a1 → de_millis v2 = Ok a2 → de_uint U32_MAX v3 = Ok a3 → de_f64 v4 = Ok a4 →
  de_backoff (VMap (keep_fields keep [("base_ms", v1); ("max_delay_ms", v2); ("max_attempts", v3);
                                      ("jitter", v4)]))
  = Ok (backoff_kept keep (ExponentialBackoff.mk a1 a2 a3 a4) ExponentialBackoff.default).
Proof. unfold de_backoff. read_kept. Qed.

Definition dispatcher_kept keep (a dflt : DispatcherSettings.t) : DispatcherSettings.t :=
  DispatcherSettings.mk
    (kept keep "batch_size" (DispatcherSettings.batch_size a) (DispatcherSettings.batch_size dflt))
    (kept keep "lease_ms" (DispatcherSettings.lease a) (DispatcherSettings.lease dflt))
    (kept keep "max_in_flight" (DispatcherSettings.max_in_flight a)
       (DispatcherSettings.max_in_flight dflt))
    (kept keep "publish_timeout_ms" (DispatcherSettings.publish_timeout a)
       (DispatcherSettings.publish_timeout dflt))
    (kept keep "poll_interval_ms" (DispatcherSettings.poll_interval a)
       (DispatcherSettings.poll_interval dflt))
    (kept keep "idle_poll_interval_ms" (DispatcherSettings.idle_poll_interval a)
       (DispatcherSettings.idle_poll_interval dflt))
    (kept keep "drain_timeout_ms" (DispatcherSettings.drain_timeout a)
       (DispatcherSettings.drain_timeout dflt))
    (kept keep "store_timeout_ms" (DispatcherSettings.store_timeout a)
       (DispatcherSettings.store_timeout dflt))
    (kept keep "stats_interval_ms" (DispatcherSettings.stats_interval a)
       (DispatcherSettings.stats_interval dflt))
    (kept keep "ordering" (DispatcherSettings.ordering a) (DispatcherSettings.ordering dflt))
    (kept keep "retry" (DispatcherSettings.retry a) (DispatcherSettings.retry dflt))
    (kept keep "worker_id" (DispatcherSettings.worker_id a) (DispatcherSettings.worker_id dflt)).

Lemma dispatcher_fields keep v1 v2 v3 v4 v5 v6 v7 v8 v9 v10 v11 v12
    a1 a2 a3 a4 a5 a6 a7 a8 a9 a10 a11 a12 :
  de_uint U32_MAX v1 = Ok a1 → de_millis v2 = Ok a2 → de_uint U64_MAX v3 = Ok a3 →
  de_millis v4 = Ok a4 → de_millis v5 = Ok a5 → de_millis v6 = Ok a6 → de_millis v7 = Ok a7 →
  de_millis v8 = Ok a8 → de_millis v9 = Ok a9 → de_ordering v10 = Ok a10 →
  de_backoff v11 = Ok a11 → de_option de_worker_id v12 = Ok a12 →
  de_dispatcher (VMap (keep_fields keep
    [("batch_size", v1); ("lease_ms", v2); ("max_in_flight", v3); ("publish_timeout_ms", v4);
     ("poll_interval_ms", v5); ("idle_poll_interval_ms", v6); ("drain_timeout_ms", v7);
     ("store_timeout_ms", v8); ("stats_interval_ms", v9); ("ordering", v10); ("retry", v11);
     ("worker_id", v12)]))
  = Ok (dispatcher_kept keep (DispatcherSettings.mk a1 a2 a3 a4 a5 a6 a7 a8 a9 a10 a11 a12)
          DispatcherSettings.default).
Proof. unfold de_dispatcher. read_kept. Qed.

Definition retention_kept keep (a dflt : RetentionSettings.t) : RetentionSettings.t :=
  RetentionSettings.mk
    (kept keep "published_retention_ms" (RetentionSettings.published_retention a)
       (RetentionSettings.published_retention dflt))
    (kept keep "dead_retention_ms" (RetentionSettings.dead_retention a)
       (RetentionSettings.dead_retention dflt))
    (kept keep "purge_batch_size" (RetentionSettings.purge_batch_size a)
       (RetentionSettings.purge_batch_size dflt)).

Lemma retention_fields keep v1 v2 v3 a1 a2 a3 :
  de_millis v1 = Ok a1 → de_optional_millis v2 = Ok a2 → de_uint U32_MAX v3 = Ok a3 →
  de_retention (VMap (keep_fields keep [("published_retention_ms", v1); ("dead_retention_ms", v2);
                                        ("purge_batch_size", v3)]))
  = Ok (retention_kept keep (RetentionSettings.mk a1 a2 a3) RetentionSettings.default).
Proof. unfold de_retention. read_kept. Qed.

Lemma present_Ok {A} (d : value → result A de_error) v a : d v = Ok a → present d v = Ok (Some a).
Proof. unfold present. by intros ->. Qed.

Lemma repr_fields keep v1 v2 v3 v4 v5 a1 a2 a3 a4 a5 :
  de_dispatcher v1 = Ok a1 → de_retention v2 = Ok a2 → de_bool v3 = Ok a3 →
  de_vec_string v4 = Ok a4 → de_vec_string v5 = Ok a5 →
  de_repr (VMap (keep_fields keep [("dispatcher", v1); ("retention", v2); ("enabled", v3);
                                   ("allowed_types", v4); ("disallowed_types", v5)]))
  = Ok (OutboxSettings.mkRepr (kept keep "dispatcher" (Some a1) None)
          (kept keep "retention" (Some a2) None) (kept keep "enabled" (Some a3) None)
          (kept keep "allowed_types" (Some a4) None) (kept keep "disallowed_types" (Some a5) None)).
Proof.
  intros H1 H2 H3 H4 H5. pose proof (present_Ok _ _ _ H1). pose proof (present_Ok _ _ _ H2).
  pose proof (present_Ok _ _ _ H3). pose proof (present_Ok _ _ _ H4).
  pose proof (present_Ok _ _ _ H5). unfold de_repr. read_kept.
Qed.

Lemma de_strs_VStr l : de_strs (VStr <$> l) = Ok l.
Proof. induction l as [|s l IH]; [done|]. cbn [fmap list_fmap de_strs de_str result_bind]. by rewrite IH. Qed.

(** ** Settings the constructors can make *)

Definition names_wf (m : MessageTypeNames.t) : Prop :=
  ∀ field, MessageTypeNames.try_from_iter field (MessageTypeNames.names m) = Ok m.
Definition backoff_wf (b : ExponentialBackoff.t) : Prop :=
  0 ≤ ExponentialBackoff.base b ∧ 0 ≤ ExponentialBackoff.max_delay b
  ∧ 0 ≤ ExponentialBackoff.max_attempts b ≤ U32_MAX
  ∧ F64.is_finite (ExponentialBackoff.jitter b) = true.
Definition dispatcher_wf (s : DispatcherSettings.t) : Prop :=
  0 ≤ DispatcherSettings.batch_size s ≤ U32_MAX ∧ 0 ≤ DispatcherSettings.max_in_flight s ≤ U64_MAX
  ∧ Forall (λ d, 0 ≤ d)
      [DispatcherSettings.lease s; DispatcherSettings.publish_timeout s;
       DispatcherSettings.poll_interval s; DispatcherSettings.idle_poll_interval s;
       DispatcherSettings.drain_timeout s; DispatcherSettings.store_timeout s;
       DispatcherSettings.stats_interval s]
  ∧ backoff_wf (DispatcherSettings.retry s)
  ∧ ∀ w, DispatcherSettings.worker_id s = Some w → WorkerId.parse (WorkerId.as_str w) = Ok w.
Definition retention_wf (s : RetentionSettings.t) : Prop :=
  0 ≤ RetentionSettings.published_retention s
  ∧ (∀ d, RetentionSettings.dead_retention s = Some d → 0 ≤ d)
  ∧ 0 ≤ RetentionSettings.purge_batch_size s ≤ U32_MAX.
Definition settings_wf (s : OutboxSettings.t) : Prop :=
  dispatcher_wf (OutboxSettings.dispatcher s) ∧ retention_wf (OutboxSettings.retention s)
  ∧ names_wf (OutboxSettings.allowed_types s) ∧ names_wf (OutboxSettings.disallowed_types s)
  ∧ ∀ name, name ∈ MessageTypeNames.names (OutboxSettings.allowed_types s) →
      name ∉ MessageTypeNames.names (OutboxSettings.disallowed_types s).

(** ** What survives *)

Definition backoff_in_millis (b : ExponentialBackoff.t) : ExponentialBackoff.t :=
  ExponentialBackoff.mk (in_millis (ExponentialBackoff.base b)) (in_millis (ExponentialBackoff.max_delay b))
    (ExponentialBackoff.max_attempts b) (ExponentialBackoff.jitter b).
Definition dispatcher_in_millis (s : DispatcherSettings.t) : DispatcherSettings.t :=
  DispatcherSettings.mk (DispatcherSettings.batch_size s) (in_millis (DispatcherSettings.lease s))
    (DispatcherSettings.max_in_flight s) (in_millis (DispatcherSettings.publish_timeout s))
    (in_millis (DispatcherSettings.poll_interval s))
    (in_millis (DispatcherSettings.idle_poll_interval s))
    (in_millis (DispatcherSettings.drain_timeout s)) (in_millis (DispatcherSettings.store_timeout s))
    (in_millis (DispatcherSettings.stats_interval s)) (DispatcherSettings.ordering s)
    (backoff_in_millis (DispatcherSettings.retry s)) (DispatcherSettings.worker_id s).
Definition retention_in_millis (s : RetentionSettings.t) : RetentionSettings.t :=
  RetentionSettings.mk (in_millis (RetentionSettings.published_retention s))
    (in_millis <$> RetentionSettings.dead_retention s) (RetentionSettings.purge_batch_size s).

(** The settings a pruned file stands for: what it leaves out is at its default. *)
Definition settings_kept (keep : list string → string → bool) (s : OutboxSettings.t) : OutboxSettings.t :=
  let d := dispatcher_in_millis (OutboxSettings.dispatcher s) in
  let d := DispatcherSettings.with_retry
             (backoff_kept (keep ["retry"; "dispatcher"]) (DispatcherSettings.retry d)
                ExponentialBackoff.default) d in
  OutboxSettings.mk
    (kept (keep []) "dispatcher"
       (dispatcher_kept (keep ["dispatcher"]) d DispatcherSettings.default) DispatcherSettings.default)
    (kept (keep []) "retention"
       (retention_kept (keep ["retention"]) (retention_in_millis (OutboxSettings.retention s))
          RetentionSettings.default) RetentionSettings.default)
    (kept (keep []) "enabled" (OutboxSettings.enabled s) true)
    (kept (keep []) "allowed_types" (OutboxSettings.allowed_types s) MessageTypeNames.empty)
    (kept (keep []) "disallowed_types" (OutboxSettings.disallowed_types s) MessageTypeNames.empty).

Lemma prune_map keep path l :
  prune keep path (VMap l)
  = VMap (keep_fields (keep path) ((λ p, (p.1, prune keep (p.1 :: path) p.2)) <$> l)).
Proof.
  cbn [prune]. f_equal. f_equal. induction l as [|[k v] l IH]; [done|]. cbn [fmap list_fmap fst snd].
  by rewrite IH.
Qed.

(** Splits [x ← o; k] in a hypothesis. *)
Ltac split_some Hs :=
  repeat (apply bind_Some in Hs; let v := fresh "v" in let E := fresh "Ev" in
          destruct Hs as (v & E & Hs)).

Lemma backoff_reads keep path b v :
  backoff_wf b → se_backoff b = Some v →
  de_backoff (prune keep path v)
  = Ok (backoff_kept (keep path) (backoff_in_millis b) ExponentialBackoff.default).
Proof.
  intros (Hb & Hm & Ha & Hj) Hs. unfold se_backoff in Hs. split_some Hs. injection Hs as <-.
  apply se_millis_Some in Ev as [[n1 ->] E1]; [|done].
  apply se_millis_Some in Ev0 as [[n2 ->] E2]; [|done].
  rewrite prune_map. unfold se_f64. rewrite Hj. cbn [fmap list_fmap fst snd prune].
  erewrite backoff_fields; [reflexivity|eassumption..|by apply de_uint_VInt|done].
Qed.

Lemma de_worker_id_se o :
  (∀ w, o = Some w → WorkerId.parse (WorkerId.as_str w) = Ok w) →
  de_option de_worker_id (se_option se_worker_id o) = Ok o.
Proof.
  intros Hw. apply de_option_se. intros a Ha. split; [|done].
  unfold de_worker_id, se_worker_id. cbn. by rewrite (Hw a Ha).
Qed.

Lemma de_ordering_se o : de_ordering (se_ordering o) = Ok o.
Proof. by destruct o. Qed.

Lemma dispatcher_reads keep path s v :
  dispatcher_wf s → se_dispatcher s = Some v →
  de_dispatcher (prune keep path v)
  = Ok (let d := dispatcher_in_millis s in
        dispatcher_kept (keep path)
          (DispatcherSettings.with_retry
             (backoff_kept (keep ("retry" :: path)) (DispatcherSettings.retry d)
                ExponentialBackoff.default) d) DispatcherSettings.default).
Proof.
  intros (Hb & Hm & Hd & Hr & Hw) Hs. unfold se_dispatcher in Hs. split_some Hs. injection Hs as <-.
  rewrite !Forall_cons, Forall_nil in Hd. destruct Hd as (H1 & H2 & H3 & H4 & H5 & H6 & H7 & _).
  repeat match goal with
    | E : se_millis _ = Some _ |- _ =>
        let n := fresh "n" in let E' := fresh "Er" in
        apply se_millis_Some in E as [[n ->] E']; [|assumption]
    end.
  pose proof (backoff_reads keep ("retry" :: path) _ _ Hr Ev6) as Hretry.
  rewrite prune_map. cbn [fmap list_fmap fst snd].
  replace (prune keep ("worker_id" :: path) (se_option se_worker_id (DispatcherSettings.worker_id s)))
    with (se_option se_worker_id (DispatcherSettings.worker_id s))
    by (by destruct (DispatcherSettings.worker_id s)).
  generalize dependent (prune keep ("retry" :: path) v7). intros w Hretry.
  cbn [prune se_ordering].
  erewrite dispatcher_fields; [reflexivity|..]; try eassumption;
    try (by apply de_uint_VInt); [apply de_ordering_se|by apply de_worker_id_se].
Qed.

Lemma retention_reads keep path s v :
  retention_wf s → se_retention s = Some v →
  de_retention (prune keep path v)
  = Ok (retention_kept (keep path) (retention_in_millis s) RetentionSettings.default).
Proof.
  intros (Hp & Hd & Hb) Hs. unfold se_retention in Hs. split_some Hs. injection Hs as <-.
  apply se_millis_Some in Ev as [[n1 ->] E1]; [|done].
  apply se_optional_millis_Some in Ev0 as [Hv0 E2]; [|done].
  rewrite prune_map. cbn [fmap list_fmap fst snd].
  replace (prune keep ("dead_retention_ms" :: path) v1) with v1 by (by destruct Hv0 as [[n ->]| ->]).
  cbn [prune]. erewrite retention_fields; [reflexivity|eassumption..|by apply de_uint_VInt].
Qed.

Lemma kept_None {A} keep k (a d : A) : from_option id d (kept keep k (Some a) None) = kept keep k a d.
Proof. unfold kept. by destruct (keep k). Qed.

Lemma try_from_kept d r e a b keep :
  names_wf a → names_wf b →
  (∀ name, name ∈ MessageTypeNames.names a → name ∉ MessageTypeNames.names b) →
  OutboxSettings.try_from (OutboxSettings.mkRepr (kept keep "dispatcher" (Some d) None)
    (kept keep "retention" (Some r) None) (kept keep "enabled" (Some e) None)
    (kept keep "allowed_types" (Some (MessageTypeNames.names a)) None)
    (kept keep "disallowed_types" (Some (MessageTypeNames.names b)) None))
  = Ok (OutboxSettings.mk (kept keep "dispatcher" d DispatcherSettings.default)
          (kept keep "retention" r RetentionSettings.default) (kept keep "enabled" e true)
          (kept keep "allowed_types" a MessageTypeNames.empty)
          (kept keep "disallowed_types" b MessageTypeNames.empty)).
Proof.
  intros Ha Hb Hd. unfold OutboxSettings.try_from.
  cbn [OutboxSettings.r_dispatcher OutboxSettings.r_retention OutboxSettings.r_enabled
       OutboxSettings.r_allowed_types OutboxSettings.r_disallowed_types].
  rewrite !kept_None.
  assert (Hk : ∀ k m, names_wf m → ∀ field, MessageTypeNames.try_from_iter field
      (kept keep k (MessageTypeNames.names m) []) = Ok (kept keep k m MessageTypeNames.empty)).
  { intros k m Hm field. unfold kept. by destruct (keep k). }
  rewrite (Hk _ _ Ha), (Hk _ _ Hb). cbn [result_bind].
  rewrite (proj2 (check_disjoint_Ok _ _ _ ())); [done|].
  unfold kept. intros name. destruct (keep "allowed_types"), (keep "disallowed_types"); cbn.
  - apply Hd.
  - by intros _ ?%elem_of_nil.
  - by intros ?%elem_of_nil.
  - by intros ?%elem_of_nil.
Qed.

Lemma settings_reads keep s v :
  settings_wf s → se_settings s = Some v →
  de_settings (prune keep [] v) = Ok (settings_kept keep s).
Proof.
  intros (Hd & Hr & Ha & Hb & Hab) Hs. unfold se_settings in Hs. split_some Hs. injection Hs as <-.
  pose proof (dispatcher_reads keep ["dispatcher"] _ _ Hd Ev) as E1.
  pose proof (retention_reads keep ["retention"] _ _ Hr Ev0) as E2.
  rewrite prune_map. cbn [fmap list_fmap fst snd]. cbn [prune se_names]. unfold de_settings.
  erewrite repr_fields; [|exact E1|exact E2|done|apply de_strs_VStr|apply de_strs_VStr].
  cbn [result_bind]. by rewrite try_from_kept.
Qed.

(** The lists the setters accept are the ones a file may hold: trimmed, not empty, without a
    version suffix. *)
Lemma trim_all_id field l :
  Forall (λ n, trim n = n ∧ n ≠ "") l → MessageTypeNames.trim_all field l = Ok l.
Proof.
  induction 1 as [|n l [Ht Hn] _ IH]; [done|]. cbn [MessageTypeNames.trim_all]. cbv zeta.
  rewrite Ht. destruct n; [done|]. cbn [is_empty]. by rewrite IH.
Qed.

Lemma names_wf_listed field l m :
  Forall valid_utf8 l → MessageTypeNames.try_from_iter field l = Ok m → names_wf m.
Proof.
  intros Hl [Hm Hv]%try_from_iter_names field'. unfold MessageTypeNames.try_from_iter.
  rewrite trim_all_id.
  - cbn [result_bind]. apply validated_Ok. split; [by destruct m|].
    intros n Hn. rewrite Forall_forall in Hv. by apply Hv.
  - apply Forall_forall. intros n Hn. split; [|rewrite Forall_forall in Hv; by apply Hv].
    rewrite Hm in Hn. apply list_elem_of_fmap in Hn as (n0 & -> & Hn0).
    apply trim_trim. rewrite Forall_forall in Hl. by apply Hl.
Qed.

(** ** What can be read *)

Lemma visit_strict_known fields seen l :
  visit_strict fields seen l = Ok () →
  NoDup l.*1 ∧ (∀ k, k ∈ seen → k ∉ l.*1) ∧ Forall (λ k, k ∈ fields.*1) l.*1.
Proof.
  revert seen; induction l as [|[k v] l IH]; intros seen; cbn [visit_strict fmap list_fmap fst].
  { intros _. split_and!; [constructor|by intros ? ? ?%elem_of_nil|done]. }
  destruct (assoc k fields) as [d|] eqn:Ek; [|done].
  destruct (existsb _ _) eqn:Es; [done|]. intros (? & _ & (Hnd & Hs & Hf)%IH)%result_bind_Ok.
  assert (Hk : k ∈ fields.*1).
  { clear -Ek. induction fields as [|[k' d'] fields IH]; [done|]. cbn in *.
    destruct (String.eqb_spec k k') as [->|]; [left|right; by apply IH]. }
  split_and!.
  - constructor; [|done]. apply Hs. left.
  - intros k' Hk' [->|Hin]%elem_of_cons; [|by apply (Hs k'); [right|]].
    assert (existsb (String.eqb k) seen = true); [|congruence].
    apply existsb_exists. exists k. split; [by apply list_elem_of_In|apply String.eqb_refl].
  - by constructor.
Qed.

(** What [try_from] lets through. *)
Lemma try_from_sound r s :
  OutboxSettings.try_from r = Ok s →
  Forall (λ n, n ≠ "" ∧ is_versioned_message_type_name n = false)
    (MessageTypeNames.names (OutboxSettings.allowed_types s)
     ++ MessageTypeNames.names (OutboxSettings.disallowed_types s))
  ∧ ∀ name, name ∈ MessageTypeNames.names (OutboxSettings.allowed_types s) →
      name ∉ MessageTypeNames.names (OutboxSettings.disallowed_types s).
Proof.
  unfold OutboxSettings.try_from.
  intros (a & [_ Ha]%try_from_iter_names & Hs)%result_bind_Ok.
  apply result_bind_Ok in Hs as (b & [_ Hb]%try_from_iter_names & Hs).
  apply result_bind_Ok in Hs as (u & Hab & [= <-]). cbn. rewrite Forall_app.
  split; [done|]. by apply (check_disjoint_Ok "disallowed_types" a b u).
Qed.

(** The names of the fields, as they are declared and written. *)
Definition settings_names : list string :=
  ["dispatcher"; "retention"; "enabled"; "allowed_types"; "disallowed_types"].

(** A file that is read names known fields, once each, or is a sequence of their values. *)
Lemma de_repr_shape v r :
  de_repr v = Ok r →
  (∃ l, v = VMap l ∧ NoDup l.*1 ∧ Forall (λ k, k ∈ settings_names) l.*1)
  ∨ ∃ l, v = VSeq l ∧ de_repr (VMap (zip settings_names l)) = Ok r
      ∧ (length l ≤ length settings_names)%nat.
Proof.
  intros Hr. pose proof Hr as Hr'. unfold de_repr in Hr'.
  apply result_bind_Ok in Hr' as (m & Hm & _).
  destruct v as [| | | | |l|l]; try done; cbn [visit_map_strict] in Hm;
    apply result_bind_Ok in Hm as ([] & Hm & Hl).
  - right. exists l. apply result_bind_Ok in Hl as ([] & Hl & _). unfold no_more_than in Hl.
    destruct (Nat.leb_spec (length l) (length settings_visitors)) as [Hn|]; [|done].
    split_and!; [done| |done]. rewrite <-Hr. unfold de_repr. by rewrite visit_map_strict_in_order.
  - left. apply visit_strict_known in Hm as (Hnd & _ & Hk). by exists l.
Qed.

(** ** The property *)

Definition settings_durations (s : OutboxSettings.t) : list Duration :=
  let d := OutboxSettings.dispatcher s in
  let r := OutboxSettings.retention s in
  [DispatcherSettings.lease d; DispatcherSettings.publish_timeout d;
   DispatcherSettings.poll_interval d; DispatcherSettings.idle_poll_interval d;
   DispatcherSettings.drain_timeout d; DispatcherSettings.store_timeout d;
   DispatcherSettings.stats_interval d; ExponentialBackoff.base (DispatcherSettings.retry d);
   ExponentialBackoff.max_delay (DispatcherSettings.retry d);
   RetentionSettings.published_retention r]
  ++ option_list (RetentionSettings.dead_retention r).

Lemma se_millis_is_Some d : is_Some (se_millis d) ↔ as_millis d ≤ U64_MAX.
Proof.
  unfold se_millis, millis_serialize. destruct (Z.leb_spec (as_millis d) U64_MAX); cbn.
  - split; [done|by eexists].
  - split; [by intros [? ?]|lia].
Qed.

(** A file cannot be written exactly when a duration is out of range. *)
Lemma se_settings_is_Some s :
  is_Some (se_settings s) ↔ Forall (λ d, as_millis d ≤ U64_MAX) (settings_durations s).
Proof.
  unfold settings_durations, se_settings, se_dispatcher, se_backoff, se_retention. split.
  - intros [v Hs]. apply bind_Some in Hs as (wd & Hd & Hs). apply bind_Some in Hs as (wr & Hr & _).
    split_some Hd. apply bind_Some in Hr as (vp & Hp & Hr). apply bind_Some in Hr as (vd & Hdr & _).
    match goal with E : _ ≫= _ = Some _ |- _ => rename E into Hbk end. split_some Hbk.
    rewrite Forall_app. split.
    + repeat (apply Forall_cons; split; [apply se_millis_is_Some; by eexists|]). done.
    + destruct (RetentionSettings.dead_retention _); cbn in *; [|done].
      constructor; [|done]. apply se_millis_is_Some. by eexists.
  - rewrite Forall_app. intros [Hl Hd]. rewrite !Forall_cons in Hl.
    repeat match goal with H : _ ∧ _ |- _ => destruct H end.
    repeat match goal with
      | H : as_millis ?d ≤ _ |- context [se_millis ?d] =>
          let v := fresh "v" in let E := fresh "E" in
          apply se_millis_is_Some in H as [v E]; rewrite E; cbn [mbind option_bind]
      end.
    destruct (RetentionSettings.dead_retention _) as [d|]; cbn; [|by eexists].
    apply Forall_inv in Hd. apply se_millis_is_Some in Hd as [vr Er]. rewrite Er. by eexists.
Qed.


(** Settings with a list, a worker and a sub-millisecond poll interval, and a file that sets
    one field of each section. *)
Definition filed_settings : OutboxSettings.t :=
  OutboxSettings.mk
    (DispatcherSettings.with_poll_interval 1500000
       (DispatcherSettings.with_worker_id (WorkerId.mk "w1") DispatcherSettings.default))
    (RetentionSettings.with_dead_retention (Some (from_secs 86400)) RetentionSettings.default)
    true (MessageTypeNames.mk ["orders.created"]) (MessageTypeNames.mk ["audit"]).

Definition only (l : list (list string * string)) (path : list string) (k : string) : bool :=
  bool_decide ((path, k) ∈ l).

