(* ===== verification/MemStore.v ===== *)
(** * The in-memory outbox store ([reliar-outbox], test_support/store.rs)

    [InMemoryOutboxStore] implements the store interface over a [Vec] of rows and
    its own clock.  Every method locks one [Mutex] and runs to completion, so an
    operation is a function from the locked [Inner] to the [Inner] it leaves and
    its answer; a panic ([None], from timestamp arithmetic out of range) keeps the
    mutations made before it, because [lock] recovers a poisoned mutex.  Counters
    ([usize], and the [i64] sequence) are not modelled at their width: they count
    calls and rows. *)

From S2P Require Import Prelude RustString CoreTypes CoreHeaders CoreEnvelope OutboxTypes.
Import OutboxRecord(envelope, sequence, created_at, ordering_key, attempts, available_at,
  locked_by, locked_until, published_at, dead_at, dead_reason, last_error, message_ref,
  with_attempts, with_available_at, with_lease, with_published_at, with_dead, set_last_error).

Abbreviation row := OutboxRecord.t.

(* src: outbox/test_support/store.rs 777-791 InMemoryStoreError *)
Inductive InMemoryStoreError := Injected | InjectedPermanent.
Global Instance InMemoryStoreError_eq_dec : EqDecision InMemoryStoreError.
Proof. solve_decision. Defined.
(* src: outbox/test_support/store.rs 806-813 InMemoryStoreError::kind *)
Global Instance InMemoryStoreError_Classify : Classify InMemoryStoreError :=
  λ e, match e with Injected => Transient | InjectedPermanent => Permanent end.

(* src: outbox/test_support/store.rs 53-66 Inner *)
Record Inner := mkInner {
  rows : list row;
  next_sequence : Z;
  now : OffsetDateTime;
  fail_next : nat;
  fail_next_permanent : nat;
  hang_next : nat;
  hang_duration : Duration;
  complete_calls : nat;
  fail_next_complete : nat;
  fail_next_enqueue : nat;
  enqueue_calls : nat;
}.

(* src: outbox/test_support/store.rs 68-84 Inner::default *)
Definition inner_default : Inner := mkInner [] 1 UNIX_EPOCH 0 0 0 0 0 0 0 0.

(** Field assignments. *)
Definition set_rows (l : list row) (s : Inner) : Inner :=
  mkInner l (next_sequence s) (now s) (fail_next s) (fail_next_permanent s) (hang_next s)
    (hang_duration s) (complete_calls s) (fail_next_complete s) (fail_next_enqueue s)
    (enqueue_calls s).
Definition set_now (t : OffsetDateTime) (s : Inner) : Inner :=
  mkInner (rows s) (next_sequence s) t (fail_next s) (fail_next_permanent s) (hang_next s)
    (hang_duration s) (complete_calls s) (fail_next_complete s) (fail_next_enqueue s)
    (enqueue_calls s).
Definition set_fails (f p : nat) (s : Inner) : Inner :=
  mkInner (rows s) (next_sequence s) (now s) f p (hang_next s)
    (hang_duration s) (complete_calls s) (fail_next_complete s) (fail_next_enqueue s)
    (enqueue_calls s).
Definition set_hang (n : nat) (d : Duration) (s : Inner) : Inner :=
  mkInner (rows s) (next_sequence s) (now s) (fail_next s) (fail_next_permanent s) n
    d (complete_calls s) (fail_next_complete s) (fail_next_enqueue s) (enqueue_calls s).
Definition set_complete (calls fails : nat) (s : Inner) : Inner :=
  mkInner (rows s) (next_sequence s) (now s) (fail_next s) (fail_next_permanent s) (hang_next s)
    (hang_duration s) calls fails (fail_next_enqueue s) (enqueue_calls s).
Definition set_enqueue (fails calls : nat) (s : Inner) : Inner :=
  mkInner (rows s) (next_sequence s) (now s) (fail_next s) (fail_next_permanent s) (hang_next s)
    (hang_duration s) (complete_calls s) (fail_next_complete s) fails calls.

(** ** Seeding and the test controls *)

(* src: outbox/test_support/store.rs 107-126 InMemoryOutboxStore::insert_row *)
Definition insert_row (e : SerializedEnvelope) (available : option OffsetDateTime)
    (key : option string) (s : Inner) : Inner * MessageRef.t :=
  let seq := next_sequence s in
  let created := now s in
  let record :=
    with_available_at (default created available)
      (OutboxRecord.with_ordering_key key (OutboxRecord.builder e seq created)) in
  (mkInner (rows s ++ [record]) (seq + 1) (now s) (fail_next s) (fail_next_permanent s)
     (hang_next s) (hang_duration s) (complete_calls s) (fail_next_complete s)
     (fail_next_enqueue s) (enqueue_calls s),
   MessageRef.new (Envelope.id e) created).

(* src: outbox/test_support/store.rs 91-95 InMemoryOutboxStore::insert *)
Definition insert (e : SerializedEnvelope) : Inner → Inner * MessageRef.t :=
  insert_row e None None.

(* src: outbox/test_support/store.rs 97-105 InMemoryOutboxStore::insert_with *)
Definition insert_with (e : SerializedEnvelope) (available : OffsetDateTime)
    (key : option string) : Inner → Inner * MessageRef.t :=
  insert_row e (Some available) key.

(* src: outbox/test_support/store.rs 128-132 InMemoryOutboxStore::advance *)
Definition advance `{TimeRange} (by_ : Duration) (s : Inner) : Inner * outcome unit :=
  match odt_add (now s) by_ with
  | Some t => (set_now t s, Some ())
  | None => (s, None)
  end.

Definition seq_leb (a b : row) : bool := sequence a <=? sequence b.

(* src: outbox/test_support/store.rs 134-140 InMemoryOutboxStore::records *)
Definition records (s : Inner) : list row :=
  sort_by seq_leb (rows s).

(* src: outbox/test_support/store.rs 142-150 InMemoryOutboxStore::record *)
Definition record (i : MessageId.t) (s : Inner) : option row :=
  list_find (λ r, Envelope.id (envelope r) = i) (rows s) ≫= λ p, Some p.2.

(* src: outbox/test_support/store.rs 152-158 InMemoryOutboxStore::fail_next *)
Definition arm_fail_next (n : nat) (s : Inner) : Inner := set_fails n (fail_next_permanent s) s.
(* src: outbox/test_support/store.rs 160-166 InMemoryOutboxStore::fail_next_permanent *)
Definition arm_fail_next_permanent (n : nat) (s : Inner) : Inner := set_fails (fail_next s) n s.
(* src: outbox/test_support/store.rs 168-187 InMemoryOutboxStore::hang_next *)
Definition arm_hang_next (n : nat) (d : Duration) (s : Inner) : Inner := set_hang n d s.
(* src: outbox/test_support/store.rs 199-207 InMemoryOutboxStore::fail_next_complete *)
Definition arm_fail_next_complete (n : nat) (s : Inner) : Inner :=
  set_complete (complete_calls s) n s.
(* src: outbox/test_support/store.rs 209-214 InMemoryOutboxStore::fail_next_enqueue *)
Definition arm_fail_next_enqueue (n : nat) (s : Inner) : Inner := set_enqueue n (enqueue_calls s) s.

(* src: outbox/test_support/store.rs 223-232 InMemoryOutboxStore::take_fail_next_enqueue *)
Definition take_fail_next_enqueue (s : Inner) : Inner * bool :=
  match fail_next_enqueue s with
  | S n => (set_enqueue n (enqueue_calls s) s, true)
  | O => (s, false)
  end.

(* src: outbox/test_support/store.rs 234-241 InMemoryOutboxStore::try_enqueue *)
Definition try_enqueue (e : SerializedEnvelope) (s : Inner)
  : Inner * result MessageId.t InMemoryStoreError :=
  let s := set_enqueue (fail_next_enqueue s) (S (enqueue_calls s)) s in
  let '(s, injected) := take_fail_next_enqueue s in
  if injected then (s, Err Injected)
  else let '(s, r) := insert e s in (s, Ok (MessageRef.id r)).

(* src: outbox/test_support/store.rs 243-252 InMemoryOutboxStore::take_fail_next_complete *)
Definition take_fail_next_complete (s : Inner) : Inner * bool :=
  match fail_next_complete s with
  | S n => (set_complete (complete_calls s) n s, true)
  | O => (s, false)
  end.

(* src: outbox/test_support/store.rs 254-263 InMemoryOutboxStore::take_hang *)
Definition take_hang (s : Inner) : Inner * option Duration :=
  match hang_next s with
  | S n => (set_hang n (hang_duration s) s, Some (hang_duration s))
  | O => (s, None)
  end.

(* src: outbox/test_support/store.rs 265-279 InMemoryOutboxStore::take_injected_failure *)
Definition take_injected_failure (s : Inner) : Inner * option InMemoryStoreError :=
  match fail_next_permanent s with
  | S n => (set_fails (fail_next s) n s, Some InjectedPermanent)
  | O =>
      match fail_next s with
      | S n => (set_fails n (fail_next_permanent s) s, Some Injected)
      | O => (s, None)
      end
  end.

(** The common head of the store methods: an armed failure, or the body. *)
Definition guarded {A} (s : Inner)
    (body : Inner → Inner * outcome (result A InMemoryStoreError))
  : Inner * outcome (result A InMemoryStoreError) :=
  match take_injected_failure s with
  | (s', Some err) => (s', Some (Err err))
  | (s', None) => body s'
  end.

(** ** The claim *)

(* src: outbox/test_support/store.rs 298-304 InMemoryOutboxStore::lease_is_free *)
Definition lease_is_free (r : row) (now : OffsetDateTime) : bool :=
  match locked_until r with None => true | Some until => until <? now end.

(* src: outbox/test_support/store.rs 281-296 InMemoryOutboxStore::is_claimable *)
Definition is_claimable (r : row) (now : OffsetDateTime) : bool :=
  bool_decide (published_at r = None)
  && bool_decide (dead_at r = None)
  && (available_at r <=? now)
  && lease_is_free r now
  && match OutboxRecord.expires_at r with None => true | Some at_ => now <? at_ end.

(** [find_owned_mut]'s predicate. *)
Definition owned (w : WorkerId.t) (m : MessageRef.t) (r : row) : bool :=
  bool_decide (Envelope.id (envelope r) = MessageRef.id m)
  && (created_at r =? MessageRef.created_at m)
  && bool_decide (locked_by r = Some w).

(** [iter_mut().find(p)] and the mutation of the row found; [None] when no row
    matches. *)
(* src: outbox/test_support/store.rs 306-318 InMemoryOutboxStore::find_owned_mut *)
Fixpoint find_update (p : row → bool) (f : row → row * outcome unit) (l : list row)
  : option (list row * outcome unit) :=
  match l with
  | [] => None
  | r :: l' =>
      if p r then let '(r', o) := f r in Some (r' :: l', o)
      else match find_update p f l' with
           | Some (l'', o) => Some (r :: l'', o)
           | None => None
           end
  end.

(** The loop over the items of a by-id operation: [affected] counts the rows
    found, and a panic stops it with the rows as they are. *)
Fixpoint for_found {I} (p : I → row → bool) (f : I → row → row * outcome unit)
    (items : list I) (l : list row) (affected : Z) : list row * outcome Z :=
  match items with
  | [] => (l, Some affected)
  | i :: items' =>
      match find_update (p i) (f i) l with
      | None => for_found p f items' l affected
      | Some (l', Some _) => for_found p f items' l' (affected + 1)
      | Some (l', None) => (l', None)
      end
  end.

Definition by_id {I} (p : I → row → bool) (f : I → row → row * outcome unit) (items : list I)
    (s : Inner) : Inner * outcome (result Z InMemoryStoreError) :=
  let '(l, o) := for_found p f items (rows s) 0 in
  (set_rows l s, Ok <$> o).

(** The indices of the claimable rows, due-soonest first. *)
Definition claim_key (r : row) : Z * Z := (available_at r, sequence r).
Definition claim_leb (l : list row) (i j : nat) : bool :=
  pair_leb (default (0, 0) (claim_key <$> l !! i)) (default (0, 0) (claim_key <$> l !! j)).

Definition claimable_at (l : list row) (now : OffsetDateTime) (i : nat) : bool :=
  match l !! i with Some r => is_claimable r now | None => false end.

(* src: outbox/test_support/store.rs 329-340 InMemoryOutboxStore::try_acquire *)
Definition claimable (l : list row) (now : OffsetDateTime) (batch_size : nat) : list nat :=
  take batch_size
    (sort_by (claim_leb l)
       (filter (λ i, claimable_at l now i = true) (seq 0 (length l)))).

Fixpoint claim_rows (w : WorkerId.t) (until : OffsetDateTime) (idx : list nat) (l : list row)
  : list row * list row :=
  match idx with
  | [] => (l, [])
  | i :: idx' =>
      match l !! i with
      | Some r =>
          let r' := with_lease (Some w) (Some until) r in
          let '(l', recs) := claim_rows w until idx' (<[i := r']> l) in
          (l', r' :: recs)
      | None => claim_rows w until idx' l
      end
  end.

Section ops.
Context `{TimeRange}.
Implicit Types (s : Inner) (w : WorkerId.t).

(* src: outbox/test_support/store.rs 320-351 InMemoryOutboxStore::try_acquire *)
Definition try_acquire (request : AcquireRequest.t) (s : Inner)
  : Inner * outcome (result AcquiredBatch.t InMemoryStoreError) :=
  guarded s (λ s,
    match odt_add (now s) (AcquireRequest.lease request) with
    | None => (s, None)
    | Some locked_until =>
        let idx := claimable (rows s) (now s) (Z.to_nat (AcquireRequest.batch_size request)) in
        let '(l, recs) := claim_rows (AcquireRequest.worker request) locked_until idx (rows s) in
        (set_rows l s, Some (Ok (AcquiredBatch.new recs [])))
    end).

(* src: outbox/test_support/store.rs 353-378 InMemoryOutboxStore::try_complete *)
Definition try_complete (w : WorkerId.t) (items : list CompletedMessage.t) (s : Inner)
  : Inner * outcome (result Z InMemoryStoreError) :=
  let s := set_complete (S (complete_calls s)) (fail_next_complete s) s in
  let '(s, injected) := take_fail_next_complete s in
  if injected then (s, Some (Err Injected))
  else guarded s (λ s,
    by_id (λ item, owned w (CompletedMessage.message item))
      (λ _ r, (with_lease None None
                 (with_attempts (u32_saturating_add (attempts r) 1)
                    (with_published_at (Some (now s)) r)), Some ()))
      items s).

(* src: outbox/test_support/store.rs 393-407 InMemoryOutboxStore::try_fail *)
Definition fail_row (now : OffsetDateTime) (item : FailedMessage.t) (r : row)
  : row * outcome unit :=
  let r1 := set_last_error (Some (truncate_error (FailedMessage.error item)))
              (with_attempts (u32_saturating_add (attempts r) 1) r) in
  match FailedMessage.outcome item with
  | Retry delay =>
      match odt_add now delay with
      | Some at_ => (with_lease None None (with_available_at at_ r1), Some ())
      | None => (r1, None)
      end
  | Dead reason => (with_lease None None (with_dead (Some now) (Some reason) r1), Some ())
  end.

(* src: outbox/test_support/store.rs 380-412 InMemoryOutboxStore::try_fail *)
Definition try_fail (w : WorkerId.t) (items : list FailedMessage.t) (s : Inner)
  : Inner * outcome (result Z InMemoryStoreError) :=
  guarded s (λ s,
    by_id (λ item, owned w (FailedMessage.message item)) (fail_row (now s)) items s).

(* src: outbox/test_support/store.rs 414-432 InMemoryOutboxStore::try_release *)
Definition try_release (w : WorkerId.t) (items : list MessageRef.t) (s : Inner)
  : Inner * outcome (result Z InMemoryStoreError) :=
  guarded s (λ s, by_id (owned w) (λ _ r, (with_lease None None r, Some ())) items s).

(* src: outbox/test_support/store.rs 434-453 InMemoryOutboxStore::try_extend_lease *)
Definition try_extend_lease (w : WorkerId.t) (items : list MessageRef.t) (lease : Duration)
    (s : Inner) : Inner * outcome (result Z InMemoryStoreError) :=
  guarded s (λ s,
    by_id (owned w)
      (λ _ r, match odt_add (now s) lease with
              | Some until => (with_lease (locked_by r) (Some until) r, Some ())
              | None => (r, None)
              end) items s).

(** ** Purge *)

(* src: outbox/test_support/store.rs 20-23 EXPIRED_ERROR_MESSAGE *)
Definition EXPIRED_ERROR_MESSAGE : string := "reliar: expired before publication".

(** Whether the sweep takes a row, and what it makes of it. *)
(* src: outbox/test_support/store.rs 471-478 InMemoryOutboxStore::try_purge *)
Definition sweepable (now : OffsetDateTime) (r : row) : bool :=
  negb (bool_decide (published_at r ≠ None) || bool_decide (dead_at r ≠ None)
        || negb (lease_is_free r now))
  && match OutboxRecord.expires_at r with None => false | Some at_ => at_ <=? now end.

(* src: outbox/test_support/store.rs 479-486 InMemoryOutboxStore::try_purge *)
Definition swept (now : OffsetDateTime) (r : row) : row :=
  set_last_error (Some EXPIRED_ERROR_MESSAGE)
    (with_lease None None (with_dead (Some now) (Some Expired) r)).

(* src: outbox/test_support/store.rs 463-489 InMemoryOutboxStore::try_purge *)
Fixpoint sweep (now : OffsetDateTime) (batch_size n : nat) (l : list row) : list row * nat :=
  match l with
  | [] => ([], n)
  | r :: l' =>
      if (batch_size <=? n)%nat then (l, n)
      else
        let '(r', n') := if sweepable now r then (swept now r, S n) else (r, n) in
        let '(l'', m) := sweep now batch_size n' l' in
        (r' :: l'', m)
  end.

(** [Vec::retain] with the counting closure. *)
(* src: outbox/test_support/store.rs 491-504 InMemoryOutboxStore::try_purge *)
Fixpoint retain_bounded (expired : row → bool) (batch_size n : nat) (l : list row)
  : list row * nat :=
  match l with
  | [] => ([], n)
  | r :: l' =>
      if (batch_size <=? n)%nat then
        let '(l'', m) := retain_bounded expired batch_size n l' in (r :: l'', m)
      else if expired r then retain_bounded expired batch_size (S n) l'
      else let '(l'', m) := retain_bounded expired batch_size n l' in (r :: l'', m)
  end.

Definition older (at_ : row → option OffsetDateTime) (before : OffsetDateTime) (r : row) : bool :=
  match at_ r with Some t => t <? before | None => false end.

Definition purge_pass (at_ : row → option OffsetDateTime) (retention : option Duration)
    (batch_size : nat) (s : Inner) : Inner * outcome nat :=
  match retention with
  | None => (s, Some 0%nat)
  | Some d =>
      match odt_sub (now s) d with
      | None => (s, None)
      | Some before =>
          let '(l, n) := retain_bounded (older at_ before) batch_size 0 (rows s) in
          (set_rows l s, Some n)
      end
  end.

(* src: outbox/test_support/store.rs 455-526 InMemoryOutboxStore::try_purge *)
Definition try_purge (request : PurgeRequest.t) (s : Inner)
  : Inner * outcome (result PurgeReport.t InMemoryStoreError) :=
  guarded s (λ s,
    let batch_size := Z.to_nat (PurgeRequest.batch_size request) in
    let '(l, expired_to_dead) := sweep (now s) batch_size 0 (rows s) in
    let s := set_rows l s in
    match purge_pass published_at (PurgeRequest.published_retention request) batch_size s with
    | (s, None) => (s, None)
    | (s, Some published_deleted) =>
        match purge_pass dead_at (PurgeRequest.dead_retention request) batch_size s with
        | (s, None) => (s, None)
        | (s, Some dead_deleted) =>
            (s, Some (Ok (PurgeReport.new (Z.of_nat published_deleted) (Z.of_nat dead_deleted)
                            (Z.of_nat expired_to_dead))))
        end
    end).

(** ** Stats *)

Definition is_expired (now : OffsetDateTime) (r : row) : bool :=
  match OutboxRecord.expires_at r with None => false | Some at_ => at_ <=? now end.

(* src: outbox/test_support/store.rs 540-565 InMemoryOutboxStore::try_stats *)
Definition stats_row (now : OffsetDateTime) (st : OutboxStats.t) (r : row) : OutboxStats.t :=
  let '(OutboxStats.new pending dead expired_pending oldest as_of) := st in
  if bool_decide (dead_at r ≠ None)
  then OutboxStats.new pending (dead + 1) expired_pending oldest as_of
  else if bool_decide (published_at r ≠ None) then st
  else if is_expired now r
  then OutboxStats.new pending dead (expired_pending + 1) oldest as_of
  else if is_claimable r now
  then OutboxStats.new (pending + 1) dead expired_pending
         (Some match oldest with
               | Some current => if current <=? available_at r then current else available_at r
               | None => available_at r
               end) as_of
  else st.

(* src: outbox/test_support/store.rs 528-574 InMemoryOutboxStore::try_stats *)
Definition try_stats (s : Inner) : Inner * outcome (result OutboxStats.t InMemoryStoreError) :=
  guarded s (λ s,
    (s, Some (Ok (fold_left (stats_row (now s)) (rows s)
                    (OutboxStats.new 0 0 0 None (now s)))))).

(** ** [complete] and [fail] with an armed hang

    The future either carries the answer of a mutation already made, or sleeps
    first and mutates when it wakes: a caller that drops it earlier never sees
    the mutation. *)

(* src: outbox/test_support/store.rs 581-589 HangState *)
Inductive HangState (T : Type) := Eager (a : T) | Deferred (d : Duration).
Global Arguments Eager {T} _.
Global Arguments Deferred {T} _.

Definition hanging {A} (op : Inner → Inner * A) (s : Inner) : Inner * HangState A :=
  match take_hang s with
  | (s, None) => let '(s, a) := op s in (s, Eager a)
  | (s, Some d) => (s, Deferred d)
  end.

(* src: outbox/test_support/store.rs 602-623 InMemoryOutboxStore::complete *)
Definition complete (w : WorkerId.t) (items : list CompletedMessage.t) :=
  hanging (try_complete w items).
(* src: outbox/test_support/store.rs 625-646 InMemoryOutboxStore::fail *)
Definition fail (w : WorkerId.t) (items : list FailedMessage.t) :=
  hanging (try_fail w items).

(** ** Dead letters *)

(* src: outbox/test_support/store.rs 691-717 InMemoryOutboxStore::list_dead *)
Definition dead_matches (query : DeadQuery.t) (r : row) : bool :=
  bool_decide (dead_at r ≠ None)
  && match DeadQuery.message_type query with
     | None => true
     | Some ty => bool_decide (MessageType.name (Envelope.message_type (envelope r)) = ty)
     end
  && match DeadQuery.tenant_id query with
     | None => true
     | Some tenant =>
         bool_decide (Metadata.tenant_id (Envelope.metadata (envelope r)) = Some tenant)
     end
  && match DeadQuery.dead_before query with None => true | Some b => older dead_at b r end
  && match DeadQuery.after_sequence query with None => true | Some a => a <? sequence r end.

(* src: outbox/test_support/store.rs 684-732 InMemoryOutboxStore::list_dead *)
Definition list_dead (query : DeadQuery.t) (s : Inner) : DeadLetterPage.t :=
  let limit := Z.to_nat (DeadQuery.limit query) in
  let matches := sort_by seq_leb
                   (filter (λ r, dead_matches query r = true) (rows s)) in
  let page := take limit matches in
  let next := if (length page =? limit)%nat then sequence <$> last page else None in
  DeadLetterPage.new page [] next.

(* src: outbox/test_support/store.rs 576-578 InMemoryOutboxStore::dead_ref_matches *)
Definition dead_ref_matches (r : row) (m : MessageRef.t) : bool :=
  bool_decide (Envelope.id (envelope r) = MessageRef.id m)
  && (created_at r =? MessageRef.created_at m).

(* src: outbox/test_support/store.rs 734-755 InMemoryOutboxStore::retry_dead *)
Definition retry_dead (refs : list MessageRef.t) (s : Inner) : Inner * Z :=
  let '(l, o) := for_found
    (λ m r, dead_ref_matches r m && bool_decide (dead_at r ≠ None))
    (λ _ r, (with_attempts 0 (with_available_at (now s) (with_dead None None r)), Some ()))
    refs (rows s) 0 in
  (set_rows l s, default 0 o).

(* src: outbox/test_support/store.rs 757-774 InMemoryOutboxStore::purge_dead *)
Definition purge_dead (refs : list MessageRef.t) (s : Inner) : Inner * Z :=
  let matches r := bool_decide (dead_at r ≠ None) && existsb (dead_ref_matches r) refs in
  (set_rows (filter (λ r, matches r = false) (rows s)) s,
   Z.of_nat (length (filter (λ r, matches r = true) (rows s)))).
End ops.
