(* ===== verification/MemStoreInv.v ===== *)
(** * The in-memory store keeps its invariant ([reliar-outbox], test_support/store.rs)

    The lemmas about the loops of the store's operations, the well-formedness of a
    row, and the invariant: every operation of the store, whatever it answers and
    even when it panics half way, leaves well-formed rows with distinct increasing
    sequences. *)

From S2P Require Import Prelude RustString CoreTypes CoreHeaders CoreEnvelope OutboxTypes.
From S2P Require Import MemStore.
Import OutboxRecord(envelope, sequence, created_at, ordering_key, attempts, available_at,
  locked_by, locked_until, published_at, dead_at, dead_reason, last_error, message_ref,
  with_attempts, with_available_at, with_lease, with_published_at, with_dead, set_last_error).

(** ** Row predicates *)

Definition pending (r : row) : Prop := published_at r = None ∧ dead_at r = None.

(** What a row of the store satisfies at time [now]. *)
Record row_wf (now : OffsetDateTime) (r : row) : Prop := {
  wf_lease : locked_by r = None ↔ locked_until r = None;
  wf_locked_pending : locked_by r ≠ None → pending r;
  wf_one_end : published_at r = None ∨ dead_at r = None;
  wf_reason : dead_at r = None ↔ dead_reason r = None;
  wf_attempts : 0 ≤ attempts r ≤ U32_MAX;
  wf_created : created_at r ≤ now;
  wf_published : ∀ t, published_at r = Some t → created_at r ≤ t ≤ now;
  wf_dead : ∀ t, dead_at r = Some t → created_at r ≤ t ≤ now;
  wf_error : ∀ e, last_error r = Some e → (String.length e ≤ MAX_ERROR_LEN)%nat;
}.

(** A row keeps its identity. *)
Definition same_row (r r' : row) : Prop :=
  envelope r' = envelope r ∧ sequence r' = sequence r ∧ created_at r' = created_at r
  ∧ ordering_key r' = ordering_key r.

Global Instance same_row_preorder : PreOrder same_row.
Proof. split; [done|]. intros r1 r2 r3 (?&?&?&?) (?&?&?&?). split_and!; congruence. Qed.

Record inv (s : Inner) : Prop := {
  inv_rows : Forall (row_wf (now s)) (rows s);
  inv_sorted : StronglySorted Z.lt (sequence <$> rows s);
  inv_next : Forall (λ r, sequence r < next_sequence s) (rows s);
}.

Lemma inv_default : inv inner_default.
Proof. split; constructor. Qed.

(** ** The loops *)

Lemma owned_spec w m r :
  owned w m r = true ↔ message_ref r = m ∧ locked_by r = Some w.
Proof.
  unfold owned, message_ref. rewrite !andb_true_iff, !bool_decide_eq_true, Z.eqb_eq.
  destruct m; simpl. naive_solver.
Qed.

Lemma find_update_Some p f l l' o :
  find_update p f l = Some (l', o) →
  ∃ l1 r l2 r', l = l1 ++ r :: l2 ∧ p r = true ∧ f r = (r', o) ∧ l' = l1 ++ r' :: l2
    ∧ Forall (λ x, p x = false) l1.
Proof.
  revert l'; induction l as [|r l IH]; intros l'; simpl; [done|].
  destruct (p r) eqn:Ep.
  - destruct (f r) as [r' o'] eqn:Ef. intros [= <- <-]. by exists [], r, l, r'.
  - destruct (find_update p f l) as [[l'' o']|]; [|done]. intros [= <- <-].
    destruct (IH _ eq_refl) as (l1 & x & l2 & x' & -> & ? & ? & -> & ?).
    exists (r :: l1), x, l2, x'. split_and!; try done. by constructor.
Qed.

Lemma find_update_None p f l :
  find_update p f l = None ↔ Forall (λ r, p r = false) l.
Proof.
  induction l as [|r l IH]; simpl; [done|]. rewrite Forall_cons.
  destruct (p r) eqn:E; [destruct (f r); naive_solver|].
  destruct (find_update p f l) as [[]|]; naive_solver.
Qed.

(** What a relation that holds between a row found and the row left there says of
    the whole loop. *)
Section for_found.
Context {I : Type} (p : I → row → bool) (f : I → row → row * outcome unit).
Context (R : row → row → Prop) `{!PreOrder R}.

Lemma for_found_rel items l n l' o :
  (∀ i r r' o, i ∈ items → p i r = true → f i r = (r', o) → R r r') →
  for_found p f items l n = (l', o) → Forall2 R l l'.
Proof.
  revert l n. induction items as [|i items IH]; intros l n HR; cbn [for_found].
  { intros [= <- <-]. by apply Forall_Forall2_diag, Forall_true. }
  assert (HR' : ∀ j r r' o, j ∈ items → p j r = true → f j r = (r', o) → R r r')
    by (intros; eapply HR; [by right|done..]).
  destruct (find_update (p i) (f i) l) as [[l1 o1]|] eqn:E; [|by apply IH].
  apply find_update_Some in E as (la & r & lb & r' & -> & Hp & Hf & -> & _).
  assert (Forall2 R (la ++ r :: lb) (la ++ r' :: lb)) as Hstep.
  { apply Forall2_app; [by apply Forall_Forall2_diag, Forall_true|]. constructor.
    - eapply HR; [by left|done..].
    - by apply Forall_Forall2_diag, Forall_true. }
  destruct o1 as [[]|].
  - intros H%IH; [|done]. by trans (la ++ r' :: lb).
  - by intros [= <- <-].
Qed.
End for_found.

(** The number of rows affected is at most the number of items. *)
Lemma for_found_count {I} (p : I → row → bool) f items l n l' k :
  for_found p f items l n = (l', Some k) → n ≤ k ≤ n + Z.of_nat (length items).
Proof.
  revert l n; induction items as [|i items IH]; intros l n; cbn [for_found length].
  { intros [= <- <-]. lia. }
  destruct (find_update (p i) (f i) l) as [[l1 [[]|]]|]; [|done|];
    intros ?%IH; lia.
Qed.

Lemma sweep_rel now bs n l l' m :
  sweep now bs n l = (l', m) →
  Forall2 (λ r r', r' = r ∨ (sweepable now r = true ∧ r' = swept now r)) l l'.
Proof.
  revert n l' m; induction l as [|r l IH]; intros n l' m; cbn [sweep].
  { intros [= <- <-]. constructor. }
  destruct (bs <=? n)%nat.
  { intros [= <- <-]. apply Forall_Forall2_diag, Forall_true. by left. }
  destruct (sweepable now r) eqn:Es; destruct (sweep now bs _ l) as [l1 m1] eqn:E;
    intros [= <- <-]; constructor; eauto.
Qed.

Lemma retain_sublist p bs n l l' m : retain_bounded p bs n l = (l', m) → sublist l' l.
Proof.
  revert n l' m; induction l as [|r l IH]; intros n l' m; cbn [retain_bounded].
  { intros [= <- <-]. constructor. }
  destruct (bs <=? n)%nat; [|destruct (p r)].
  1,3: destruct (retain_bounded p bs n l) as [l1 m1] eqn:E; intros [= <- <-];
    constructor; eauto.
  intros. constructor; eauto.
Qed.

(** ** The invariant through the store's steps *)

(** A list step keeps the invariant when it keeps identities and rows. *)
Lemma inv_Forall2 s l' :
  inv s → Forall2 (λ r r', same_row r r' ∧ (row_wf (now s) r → row_wf (now s) r')) (rows s) l' →
  inv (set_rows l' s).
Proof.
  intros [Hr Hs Hn] HF. split; cbn.
  - revert HF Hr. generalize (rows s). clear Hs Hn. intros l HF.
    induction HF as [|r r' l l' [_ Hw] _ IH]; [done|].
    intros [??]%Forall_cons_1. constructor; auto.
  - assert (sequence <$> l' = sequence <$> rows s) as ->; [|done].
    revert HF. generalize (rows s). clear. intros l HF. induction HF as [|r r' l l' [(_&Hq&_) _] _ IH]; [done|]. cbn. by rewrite Hq, IH.
  - revert HF Hn. generalize (rows s) (next_sequence s). clear. intros l q HF.
    induction HF as [|r r' l l' [(_&Hq&_) _] _ IH]; [done|].
    intros [??]%Forall_cons_1. constructor; [by rewrite Hq|auto].
Qed.

Lemma inv_sublist s l' : inv s → sublist l' (rows s) → inv (set_rows l' s).
Proof.
  intros [Hr Hs Hn] Hl. split; cbn; [by eapply sublist_Forall| |by eapply sublist_Forall].
  eapply sublist_StronglySorted; [by apply sublist_fmap|done].
Qed.

(** The bookkeeping of injected failures does not touch the rows. *)
Definition same_data (s s' : Inner) : Prop :=
  rows s' = rows s ∧ next_sequence s' = next_sequence s ∧ now s' = now s.

Lemma inv_same_data s s' : same_data s s' → inv s → inv s'.
Proof. intros (Hr & Hq & Hn) []. by split; rewrite ?Hr, ?Hq, ?Hn. Qed.

Lemma take_injected_failure_data s s' o :
  take_injected_failure s = (s', o) → same_data s s'.
Proof. unfold take_injected_failure. repeat case_match; intros [= <- <-]; done. Qed.

Lemma guarded_elim {A} s body s' o (P : Inner → Prop) :
  guarded (A:=A) s body = (s', o) →
  (∀ s1, same_data s s1 → P s1) →
  (∀ s1 s2 o, same_data s s1 → body s1 = (s2, o) → P s2) → P s'.
Proof.
  unfold guarded. destruct (take_injected_failure s) as [s1 [e|]] eqn:E;
    apply take_injected_failure_data in E; intros Hb H1 H2.
  - injection Hb as <- <-. auto.
  - eauto.
Qed.

Lemma odt_add_mono `{TimeRange} t d u : odt_add t d = Some u → 0 ≤ d → t ≤ u.
Proof. intros [-> _]%odt_checked_Some ?. lia. Qed.

(** ** The claim loop *)

Lemma claim_rows_spec w u idx l l' recs :
  NoDup idx → Forall (λ i, is_Some (l !! i)) idx → claim_rows w u idx l = (l', recs) →
  length l' = length l
  ∧ (∀ i, i ∈ idx → l' !! i = with_lease (Some w) (Some u) <$> l !! i)
  ∧ (∀ i, i ∉ idx → l' !! i = l !! i)
  ∧ Forall2 (λ i r, l' !! i = Some r) idx recs.
Proof.
  revert l l' recs; induction idx as [|i idx IH]; intros l l' recs; cbn [claim_rows].
  { intros _ _ [= <- <-]. split_and!; [done|set_solver|done|constructor]. }
  intros [Hi Hnd]%NoDup_cons [[r Hr] Hin]%Forall_cons_1. rewrite Hr.
  destruct (claim_rows w u idx (<[i:=with_lease (Some w) (Some u) r]> l)) as [l1 recs1] eqn:E.
  intros [= <- <-].
  apply IH in E as (Hlen & Hin' & Hout & Hrecs); [|done|].
  2:{ eapply Forall_impl; [exact Hin|]. intros j Hj. cbn.
      apply lookup_lt_is_Some_2. rewrite length_insert. by apply lookup_lt_is_Some_1. }
  rewrite length_insert in Hlen.
  assert (Hlt : (i < length l)%nat) by (by eapply lookup_lt_Some).
  assert (Hli : l1 !! i = Some (with_lease (Some w) (Some u) r)).
  { rewrite Hout by done. by apply list_lookup_insert_eq. }
  split_and!; [done|..].
  - intros j [->|Hj]%elem_of_cons; [by rewrite Hli, Hr|].
    assert (i ≠ j) by (intros ->; done).
    rewrite Hin' by done. by rewrite list_lookup_insert_ne.
  - intros j [??]%not_elem_of_cons. rewrite Hout by done. by rewrite list_lookup_insert_ne.
  - by constructor.
Qed.

Lemma claim_leb_total l i j : claim_leb l i j = false → claim_leb l j i = true.
Proof. apply pair_leb_total. Qed.
Lemma claim_leb_trans l i j k :
  claim_leb l i j = true → claim_leb l j k = true → claim_leb l i k = true.
Proof. apply pair_leb_trans. Qed.

(** The sorted list of all claimable indices, of which [claimable] is a prefix. *)
Definition all_claimable (l : list row) (now : OffsetDateTime) : list nat :=
  sort_by (claim_leb l) (filter (λ i, claimable_at l now i = true) (seq 0 (length l))).

Lemma all_claimable_elem l now i :
  i ∈ all_claimable l now ↔ claimable_at l now i = true.
Proof.
  unfold all_claimable. rewrite sort_by_perm, list_elem_of_filter, elem_of_seq.
  split; [by intros []|]. intros Hi. split; [done|].
  unfold claimable_at in Hi. destruct (l !! i) eqn:E; [|done]. apply lookup_lt_Some in E. lia.
Qed.

Lemma all_claimable_NoDup l now : NoDup (all_claimable l now).
Proof. unfold all_claimable. rewrite sort_by_perm. apply NoDup_filter, NoDup_seq. Qed.

Lemma all_claimable_sorted l now :
  StronglySorted (λ i j, claim_leb l i j = true) (all_claimable l now).
Proof. apply sort_by_sorted; [apply claim_leb_total|apply claim_leb_trans]. Qed.

Lemma claimable_take l now n : claimable l now n = take n (all_claimable l now).
Proof. done. Qed.

Lemma claimable_NoDup l now n : NoDup (claimable l now n).
Proof. rewrite claimable_take. eapply sublist_NoDup; [|apply sublist_take].
  apply all_claimable_NoDup. Qed.

Lemma claimable_elem l now n i : i ∈ claimable l now n → claimable_at l now i = true.
Proof.
  rewrite claimable_take. intros Hi. apply all_claimable_elem.
  rewrite <-(take_drop n (all_claimable l now)). apply elem_of_app. by left.
Qed.

Lemma claimable_in_range l now n : Forall (λ i, is_Some (l !! i)) (claimable l now n).
Proof.
  apply Forall_forall. intros i Hi%claimable_elem. unfold claimable_at in Hi.
  destruct (l !! i); eauto; done.
Qed.

(** A claim changes rows only by leasing claimable ones. *)
Lemma claim_rel w u l now n l' recs :
  claim_rows w u (claimable l now n) l = (l', recs) →
  Forall2 (λ r r', r' = r ∨ (is_claimable r now = true ∧ r' = with_lease (Some w) (Some u) r))
    l l'.
Proof.
  intros (Hlen & Hin & Hout & _)%claim_rows_spec;
    [|apply claimable_NoDup|apply claimable_in_range].
  apply Forall2_same_length_lookup_2; [done|]. intros i r r' Hr Hr'.
  destruct (decide (i ∈ claimable l now n)) as [Hi|Hi].
  - right. rewrite (Hin i Hi), Hr in Hr'. injection Hr' as <-.
    apply claimable_elem in Hi. unfold claimable_at in Hi. by rewrite Hr in Hi.
  - left. rewrite (Hout i Hi), Hr in Hr'. by injection Hr'.
Qed.

Lemma is_claimable_spec r now :
  is_claimable r now = true ↔
  pending r ∧ available_at r ≤ now
  ∧ (∀ u, locked_until r = Some u → u < now)
  ∧ (∀ e, OutboxRecord.expires_at r = Some e → now < e).
Proof.
  unfold is_claimable, pending, lease_is_free.
  rewrite !andb_true_iff, !bool_decide_eq_true, Z.leb_le.
  destruct (locked_until r), (OutboxRecord.expires_at r); rewrite ?Z.ltb_lt; naive_solver.
Qed.

(** ** Rows through the operations *)

Ltac row_wf_tac :=
  intros []; split; cbn in *; unfold u32_saturating_add, U32_MAX in *;
  first [assumption | tauto | lia | congruence | intros; simplify_eq; lia
        | split; congruence | by intros; split | by intros ? [= <-] | idtac].

Lemma row_wf_mono t u r : t ≤ u → row_wf t r → row_wf u r.
Proof.
  intros Htu [? ? ? ? ? ? Hp Hd ?]; split; try done; [lia|..]; intros x Hx;
    [specialize (Hp x Hx)|specialize (Hd x Hx)]; lia.
Qed.

Lemma row_wf_insert e q now key av :
  row_wf now (with_available_at av (OutboxRecord.with_ordering_key key
    (OutboxRecord.builder e q now))).
Proof. split; cbn; unfold U32_MAX; first [done | lia | by left | idtac]. Qed.

Lemma row_wf_claim now w u r :
  pending r → row_wf now r → row_wf now (with_lease (Some w) (Some u) r).
Proof. intros [Hp Hd]. row_wf_tac. Qed.

Lemma row_wf_release now r : row_wf now r → row_wf now (with_lease None None r).
Proof. row_wf_tac. Qed.

Lemma row_wf_complete now w r : locked_by r = Some w → row_wf now r →
  row_wf now (with_lease None None (with_attempts (u32_saturating_add (attempts r) 1)
    (with_published_at (Some now) r))).
Proof.
  intros Hl Hwf. assert (pending r) as [Hp Hd] by (eapply wf_locked_pending; [done|congruence]).
  revert Hwf. row_wf_tac.
Qed.

Lemma row_wf_extend now w u r : locked_by r = Some w → row_wf now r →
  row_wf now (with_lease (locked_by r) (Some u) r).
Proof. intros Hl. row_wf_tac. Qed.

Lemma row_wf_fail `{TimeRange} now w item r r' o : locked_by r = Some w → row_wf now r →
  fail_row now item r = (r', o) → row_wf now r'.
Proof.
  intros Hl Hwf. assert (pending r) as [Hp Hd] by (eapply wf_locked_pending; [done|congruence]).
  pose proof (length_truncate_error (FailedMessage.error item)) as Hlen.
  unfold fail_row. destruct (FailedMessage.outcome item) as [d|reason];
    [destruct (odt_add now d)|]; intros [= <- <-]; revert Hwf; row_wf_tac.
Qed.

Lemma sweepable_spec now r : sweepable now r = true →
  pending r ∧ lease_is_free r now = true ∧ is_expired now r = true.
Proof.
  unfold sweepable, pending, is_expired. rewrite andb_true_iff, negb_true_iff, !orb_false_iff,
    !bool_decide_eq_false, negb_false_iff. intros [[[??] ?] ?].
  split_and!; try done; by apply dec_stable.
Qed.

Lemma row_wf_swept now r : sweepable now r = true → row_wf now r → row_wf now (swept now r).
Proof.
  intros ([Hp Hd] & _)%sweepable_spec. row_wf_tac.
  intros e [= <-]. apply Nat.leb_le. reflexivity.
Qed.

Lemma row_wf_retry now r : dead_at r ≠ None → row_wf now r →
  row_wf now (with_attempts 0 (with_available_at now (with_dead None None r))).
Proof.
  intros Hd Hwf. assert (Hl : locked_by r = None).
  { destruct (locked_by r) eqn:E; [|done].
    destruct (wf_locked_pending _ _ Hwf); [congruence|done]. }
  assert (Hp : published_at r = None) by (destruct (wf_one_end _ _ Hwf); done).
  revert Hwf. row_wf_tac.
Qed.
