(* ===== verification/MemStoreSpec.v ===== *)
(** * What the in-memory store promises ([reliar-outbox], test_support/store.rs)

    The store as a state machine: [op] is one call on it, [run_op] the state the call
    leaves, [edge] the transitions of a row, and the theorems that hold of every run:
    the invariant, the row life cycle, the protection a live lease gives. *)

From S2P Require Import Prelude RustString CoreTypes CoreHeaders CoreEnvelope OutboxTypes.
From S2P Require Import MemStore MemStoreInv.
Import OutboxRecord(envelope, sequence, created_at, ordering_key, attempts, available_at,
  locked_by, locked_until, published_at, dead_at, dead_reason, last_error, message_ref,
  with_attempts, with_available_at, with_lease, with_published_at, with_dead, set_last_error).

(** ** Calls *)

(** One call on the store; [OHang] is the arming of a deferred [complete]/[fail], whose
    mutation is the [OComplete]/[OFail] of its wake-up. *)
Inductive op :=
  | OInsert (e : SerializedEnvelope) (available : option OffsetDateTime) (key : option string)
  | OStage (e : SerializedEnvelope)
  | OAdvance (d : Duration)
  | OAcquire (request : AcquireRequest.t)
  | OComplete (w : WorkerId.t) (items : list CompletedMessage.t)
  | OFail (w : WorkerId.t) (items : list FailedMessage.t)
  | ORelease (w : WorkerId.t) (items : list MessageRef.t)
  | OExtend (w : WorkerId.t) (items : list MessageRef.t) (lease : Duration)
  | OPurge (request : PurgeRequest.t)
  | OStats
  | ORetryDead (refs : list MessageRef.t)
  | OPurgeDead (refs : list MessageRef.t)
  | OHang
  | OArm (fails permanent complete enqueue hang : nat) (hang_for : Duration).

Section ops.
Context `{TimeRange}.

Definition run_op (o : op) (s : Inner) : Inner :=
  match o with
  | OInsert e a k => fst (insert_row e a k s)
  | OStage e => fst (try_enqueue e s)
  | OAdvance d => fst (advance d s)
  | OAcquire r => fst (try_acquire r s)
  | OComplete w l => fst (try_complete w l s)
  | OFail w l => fst (try_fail w l s)
  | ORelease w l => fst (try_release w l s)
  | OExtend w l d => fst (try_extend_lease w l d s)
  | OPurge r => fst (try_purge r s)
  | OStats => fst (try_stats s)
  | ORetryDead rs => fst (retry_dead rs s)
  | OPurgeDead rs => fst (purge_dead rs s)
  | OHang => fst (take_hang s)
  | OArm f p c e n d =>
      arm_hang_next n d (arm_fail_next_enqueue e (arm_fail_next_complete c
        (arm_fail_next_permanent p (arm_fail_next f s))))
  end.

(** The durations a call carries are [std::time::Duration]s. *)
Definition op_ok (o : op) : Prop :=
  match o with
  | OAdvance d | OExtend _ _ d => 0 ≤ d
  | OAcquire r => 0 ≤ AcquireRequest.lease r
  | OPurge r => (∀ d, PurgeRequest.published_retention r = Some d → 0 ≤ d)
                ∧ (∀ d, PurgeRequest.dead_retention r = Some d → 0 ≤ d)
  | _ => True
  end.

Definition run_ops (ops : list op) (s : Inner) : Inner := fold_left (λ s o, run_op o s) ops s.

Definition completed (t : OffsetDateTime) (r : row) : row :=
  with_lease None None (with_attempts (u32_saturating_add (attempts r) 1)
    (with_published_at (Some t) r)).
Definition retried (t : OffsetDateTime) (r : row) : row :=
  with_attempts 0 (with_available_at t (with_dead None None r)).

(** The transitions of a row at time [t], each with the call that makes it. *)
Inductive edge (t : OffsetDateTime) : op → row → row → Prop :=
  | edge_claim req u r :
      is_claimable r t = true → odt_add t (AcquireRequest.lease req) = Some u →
      edge t (OAcquire req) r (with_lease (Some (AcquireRequest.worker req)) (Some u) r)
  | edge_complete w items r :
      locked_by r = Some w → CompletedMessage.new (message_ref r) ∈ items →
      edge t (OComplete w items) r (completed t r)
  | edge_fail w items item r r' o :
      locked_by r = Some w → item ∈ items → FailedMessage.message item = message_ref r →
      fail_row t item r = (r', o) → edge t (OFail w items) r r'
  | edge_release w items r :
      locked_by r = Some w → message_ref r ∈ items →
      edge t (ORelease w items) r (with_lease None None r)
  | edge_extend w items l u r :
      locked_by r = Some w → message_ref r ∈ items → odt_add t l = Some u →
      edge t (OExtend w items l) r (with_lease (Some w) (Some u) r)
  | edge_sweep req r :
      sweepable t r = true → edge t (OPurge req) r (swept t r)
  | edge_retry refs r :
      message_ref r ∈ refs → dead_at r ≠ None → edge t (ORetryDead refs) r (retried t r).

(** The rows a call may delete. *)
Definition removable (t : OffsetDateTime) (o : op) (r : row) : Prop :=
  match o with
  | OPurge req =>
      (∃ d u, PurgeRequest.published_retention req = Some d ∧ published_at r = Some u ∧ u < t - d)
      ∨ (∃ d u, PurgeRequest.dead_retention req = Some d ∧ dead_at r = Some u ∧ u < t - d)
  | OPurgeDead refs => dead_at r ≠ None ∧ message_ref r ∈ refs
  | _ => False
  end.

(** ** One call, row by row *)

(** [moves t o l l']: each row of [l] took steps of [o] to become the row of [l'] in
    its place. *)
Definition moves (t : OffsetDateTime) (o : op) : list row → list row → Prop :=
  Forall2 (rtc (edge t o)).

Lemma moves_refl t o l : moves t o l l.
Proof. apply Forall_Forall2_diag, Forall_true. intros; apply rtc_refl. Qed.

Lemma by_id_moves {I} (p : I → row → bool) f items s s' o r :
  by_id p f items s = (s', r) →
  (∀ i x x' u, i ∈ items → p i x = true → f i x = (x', u) → rtc (edge (now s) o) x x') →
  ∃ l', s' = set_rows l' s ∧ moves (now s) o (rows s) l'.
Proof.
  unfold by_id. destruct (for_found p f items (rows s) 0) as [l' u] eqn:E.
  intros [= <- <-] Hf. exists l'. split; [done|].
  unfold moves. eapply (for_found_rel p f); [exact _|..|exact E]. intros. by eapply Hf.
Qed.

Lemma guarded_moves {A} (o : op) s body s' (r : outcome (result A InMemoryStoreError)) :
  guarded s body = (s', r) →
  (∀ s1 s2 r, same_data s s1 → body s1 = (s2, r) →
     ∃ l', s2 = set_rows l' s1 ∧ moves (now s1) o (rows s1) l') →
  ∃ s1 l', same_data s s1 ∧ s' = set_rows l' s1 ∧ moves (now s) o (rows s) l'.
Proof.
  unfold guarded. destruct (take_injected_failure s) as [s1 [e|]] eqn:E;
    apply take_injected_failure_data in E; intros Hb Hbody.
  - injection Hb as <- <-. exists s1, (rows s1). split_and!; [done|by destruct s1|].
    destruct E as (->&_&_). apply moves_refl.
  - destruct (Hbody _ _ _ E Hb) as (l' & -> & Hm). exists s1, l'. split_and!; [done..|].
    by destruct E as (<-&_&<-).
Qed.

Lemma acquire_moves req s s' r :
  try_acquire req s = (s', r) →
  ∃ s1 l', same_data s s1 ∧ s' = set_rows l' s1 ∧ moves (now s) (OAcquire req) (rows s) l'.
Proof.
  intros Ha. eapply guarded_moves; [exact Ha|]. clear Ha. intros s0 s2 r0 _. cbn beta zeta.
  destruct (odt_add (now s0) (AcquireRequest.lease req)) as [u|] eqn:Eu.
  2:{ intros [= <- <-]. exists (rows s0). split; [by destruct s0|apply moves_refl]. }
  destruct (claim_rows _ _ _ _) as [l recs] eqn:E. intros [= <- <-]. exists l. split; [done|].
  eapply Forall2_impl; [by eapply claim_rel|]. cbn. intros x x' [->|[Hc ->]]; [done|].
  by apply rtc_once, edge_claim.
Qed.

Lemma complete_moves w items s s' r :
  try_complete w items s = (s', r) →
  ∃ s1 l', same_data s s1 ∧ s' = set_rows l' s1 ∧ moves (now s) (OComplete w items) (rows s) l'.
Proof.
  unfold try_complete, take_fail_next_complete. cbn.
  destruct (fail_next_complete s) as [|n]; intros Hr.
  2:{ injection Hr as <- <-. exists (set_complete (S (complete_calls s)) n s), (rows s).
      split_and!; [done|done|apply moves_refl]. }
  eapply guarded_moves in Hr as (s1 & l' & Hd & Hs & Hm).
  { exists s1, l'. split_and!; [|exact Hs|exact Hm]. exact Hd. }
  intros s1 s2 r' _ Hb. eapply by_id_moves; [exact Hb|]. cbn. intros i x x' u Hi Hp [= <- <-].
  apply owned_spec in Hp as [Href Hl]. apply rtc_once, edge_complete; [done|].
  rewrite Href. by destruct i.
Qed.

Lemma fail_moves w items s s' r :
  try_fail w items s = (s', r) →
  ∃ s1 l', same_data s s1 ∧ s' = set_rows l' s1 ∧ moves (now s) (OFail w items) (rows s) l'.
Proof.
  intros Hr. eapply guarded_moves; [exact Hr|]. clear Hr. intros s0 s2 r0 _ Hb.
  eapply by_id_moves; [exact Hb|]. cbn. intros i x x' u Hi Hp Hf.
  apply owned_spec in Hp as [Href Hl]. by eapply rtc_once, edge_fail.
Qed.

Lemma release_moves w items s s' r :
  try_release w items s = (s', r) →
  ∃ s1 l', same_data s s1 ∧ s' = set_rows l' s1 ∧ moves (now s) (ORelease w items) (rows s) l'.
Proof.
  intros Hr. eapply guarded_moves; [exact Hr|]. clear Hr. intros s0 s2 r0 _ Hb.
  eapply by_id_moves; [exact Hb|]. cbn. intros i x x' u Hi Hp [= <- <-].
  apply owned_spec in Hp as [Href Hl]. apply rtc_once, edge_release; congruence.
Qed.

Lemma extend_moves w items l s s' r :
  try_extend_lease w items l s = (s', r) →
  ∃ s1 l', same_data s s1 ∧ s' = set_rows l' s1 ∧ moves (now s) (OExtend w items l) (rows s) l'.
Proof.
  intros Hr. eapply guarded_moves; [exact Hr|]. clear Hr. intros s0 s2 r0 _ Hb.
  eapply by_id_moves; [exact Hb|]. cbn. intros i x x' u Hi Hp Hf.
  apply owned_spec in Hp as [Href Hl].
  destruct (odt_add (now s0) l) as [v|] eqn:E; injection Hf as <- <-; [|done].
  rewrite Hl. apply rtc_once, edge_extend; congruence.
Qed.

(** Purge moves rows to dead and then deletes a sublist. *)
Lemma purge_pass_sublist at_ ret bs s s' o :
  purge_pass at_ ret bs s = (s', o) →
  ∃ l', s' = set_rows l' s ∧ sublist l' (rows s)
    ∧ ∀ r, r ∈ rows s → r ∉ l' → ∃ d u, ret = Some d ∧ at_ r = Some u ∧ u < now s - d.
Proof.
  unfold purge_pass. destruct ret as [d|]; [|intros [= <- <-]; exists (rows s);
    by destruct s].
  destruct (odt_sub (now s) d) as [b|] eqn:Eb; [|intros [= <- <-]; exists (rows s);
    by destruct s].
  destruct (retain_bounded _ _ _ _) as [l n] eqn:E. intros [= <- <-]. exists l.
  split; [done|]. split; [by eapply retain_sublist|].
  apply odt_checked_Some in Eb as [-> _].
  intros r Hr Hn. assert (older at_ (now s - d) r = true) as Ho.
  { revert E Hr Hn. generalize 0%nat. generalize (rows s). clear.
    intros l0; revert l n. induction l0 as [|x l0 IH]; intros l n k; cbn [retain_bounded];
      [set_solver|].
    destruct (bs <=? k)%nat; [|destruct (older at_ (now s - d) x) eqn:Eo].
    - destruct (retain_bounded _ _ _ _) as [l1 m1] eqn:E1. intros [= <- <-].
      intros [->|Hin]%elem_of_cons; [set_solver|]. intros [??]%not_elem_of_cons. by eapply IH.
    - intros E1 [->|Hin]%elem_of_cons; [done|]. by eapply IH.
    - destruct (retain_bounded _ _ _ _) as [l1 m1] eqn:E1. intros [= <- <-].
      intros [->|Hin]%elem_of_cons; [set_solver|]. intros [??]%not_elem_of_cons. by eapply IH. }
  unfold older in Ho. destruct (at_ r) as [u|] eqn:Eu; [|done]. apply Z.ltb_lt in Ho. eauto.
Qed.

Lemma set_rows_set_rows l l' s : set_rows l (set_rows l' s) = set_rows l s.
Proof. done. Qed.

(** The shape of a purge: sweep, then two deletions. *)
Lemma purge_shape req s s' r :
  try_purge req s = (s', r) →
  ∃ s1 l1 l', same_data s s1 ∧ s' = set_rows l' s1
    ∧ Forall2 (λ r r', r' = r ∨ (sweepable (now s) r = true ∧ r' = swept (now s) r)) (rows s) l1
    ∧ sublist l' l1
    ∧ ∀ r, r ∈ l1 → r ∉ l' → removable (now s) (OPurge req) r.
Proof.
  unfold try_purge, guarded.
  destruct (take_injected_failure s) as [s1 [e|]] eqn:E; apply take_injected_failure_data in E.
  { intros [= <- <-]. exists s1, (rows s), (rows s). destruct E as (Hr & Hq & Hn).
    split_and!; [done|by destruct s1; cbn in *; subst| |done|done].
    apply Forall_Forall2_diag, Forall_true. by left. }
  destruct E as (Hr & Hq & Hn). rewrite Hr, Hn.
  destruct (sweep _ _ _ _) as [l1 n1] eqn:Es. apply sweep_rel in Es.
  destruct (purge_pass published_at _ _ _) as [s2 o2] eqn:E2.
  apply purge_pass_sublist in E2 as (l2 & -> & Hl2 & Hp2). cbn in Hl2, Hp2.
  destruct o2 as [n2|].
  2:{ intros [= <- <-]. exists s1, l1, l2. split_and!; [done..|].
      intros x Hx Hx'. left. rewrite Hn in Hp2. destruct (Hp2 x Hx Hx') as (d&u&?&?&?). eauto. }
  destruct (purge_pass dead_at _ _ _) as [s3 o3] eqn:E3.
  apply purge_pass_sublist in E3 as (l3 & -> & Hl3 & Hp3). cbn in Hl3, Hp3.
  intros Hr'. exists s1, l1, l3. split_and!; [done| |done|by etrans|].
  { by destruct o3; injection Hr' as <- <-. }
  rewrite Hn in Hp2, Hp3. intros x Hx Hx'.
  destruct (decide (x ∈ l2)) as [H2|H2]; [right|left]; naive_solver.
Qed.

(** ** One call, in four shapes *)

Definition moved (o : op) (s s' : Inner) : Prop :=
  ∃ s1 l', same_data s s1 ∧ s' = set_rows l' s1 ∧ moves (now s) o (rows s) l'.
Definition inserted (s s' : Inner) : Prop :=
  ∃ e key av,
    let r := with_available_at av (OutboxRecord.with_ordering_key key
               (OutboxRecord.builder e (next_sequence s) (now s))) in
    rows s' = rows s ++ [r] ∧ now s' = now s ∧ next_sequence s' = next_sequence s + 1.
Definition advanced (o : op) (s s' : Inner) : Prop :=
  ∃ d, o = OAdvance d ∧ rows s' = rows s ∧ next_sequence s' = next_sequence s
       ∧ now s' = now s + d.
Definition deleted (o : op) (s s' : Inner) : Prop :=
  ∃ s1 l1 l', same_data s s1 ∧ s' = set_rows l' s1 ∧ moves (now s) o (rows s) l1
    ∧ sublist l' l1 ∧ ∀ r, r ∈ l1 → r ∉ l' → removable (now s) o r.

Lemma same_data_moved o s s' : same_data s s' → moved o s s'.
Proof.
  intros H1. exists s', (rows s'). split_and!; [done|by destruct s'|].
  destruct H1 as (->&_&_). apply moves_refl.
Qed.

Lemma retry_dead_moved refs s : moved (ORetryDead refs) s (fst (retry_dead refs s)).
Proof.
  unfold retry_dead. destruct (for_found _ _ _ _ _) as [l o] eqn:E. exists s, l.
  split_and!; [done|done|]. eapply for_found_rel in E; [exact E|exact _|].
  cbn. intros m r r' o' Hm [Hr Hd%bool_decide_eq_true]%andb_true_iff [= <- <-].
  apply rtc_once, edge_retry; [|done]. unfold dead_ref_matches in Hr.
  apply andb_true_iff in Hr as [Hi%bool_decide_eq_true Hc%Z.eqb_eq].
  unfold message_ref. rewrite Hi, Hc. by destruct m.
Qed.

Lemma purge_dead_deleted refs s : deleted (OPurgeDead refs) s (fst (purge_dead refs s)).
Proof.
  exists s, (rows s). eexists. split_and!; [done|done|apply moves_refl| |].
  - cbn. apply sublist_filter.
  - intros r Hr Hn. rewrite list_elem_of_filter in Hn.
    assert (bool_decide (dead_at r ≠ None) && existsb (dead_ref_matches r) refs = true) as Hm.
    { destruct (_ && _) eqn:E; [done|]. by destruct Hn. }
    apply andb_true_iff in Hm as [Hd%bool_decide_eq_true (m & Hm & Hr')%existsb_exists].
    split; [done|]. unfold dead_ref_matches in Hr'.
    apply andb_true_iff in Hr' as [Hi%bool_decide_eq_true Hc%Z.eqb_eq].
    apply list_elem_of_In in Hm. unfold message_ref. rewrite Hi, Hc. by destruct m.
Qed.

Lemma purge_deleted req s s' r : try_purge req s = (s', r) → deleted (OPurge req) s s'.
Proof.
  intros (s1 & l1 & l' & Hd & -> & HF & Hsub & Hrem)%purge_shape. exists s1, l1, l'.
  split_and!; [done|done| |done|done].
  eapply Forall2_impl; [exact HF|]. cbn. intros x x' [->|[Hs ->]]; [done|].
  by apply rtc_once, edge_sweep.
Qed.

Lemma insert_row_inserted e a k s : inserted s (fst (insert_row e a k s)).
Proof. exists e, k, (default (now s) a). by split_and!. Qed.

Lemma op_shape o s :
  let s' := run_op o s in
  moved o s s' ∨ inserted s s' ∨ advanced o s s' ∨ deleted o s s'.
Proof.
  destruct o; cbn [run_op].
  - right; left. apply insert_row_inserted.
  - unfold try_enqueue, take_fail_next_enqueue. cbn.
    destruct (fail_next_enqueue s) eqn:E; cbn -[insert_row]; rewrite ?E; cbn -[insert_row].
    { right; left. exact (insert_row_inserted e None None (set_enqueue 0 (S (enqueue_calls s)) s)). }
    left. by apply same_data_moved.
  - unfold advance. destruct (odt_add (now s) d) as [t|] eqn:E; cbn.
    + apply odt_checked_Some in E as [-> _]. right; right; left. by exists d.
    + left. by apply same_data_moved.
  - left. destruct (try_acquire _ _) eqn:E. by apply acquire_moves in E.
  - left. destruct (try_complete _ _ _) eqn:E. by apply complete_moves in E.
  - left. destruct (try_fail _ _ _) eqn:E. by apply fail_moves in E.
  - left. destruct (try_release _ _ _) eqn:E. by apply release_moves in E.
  - left. destruct (try_extend_lease _ _ _ _) eqn:E. by apply extend_moves in E.
  - right; right; right. destruct (try_purge _ _) eqn:E. by apply purge_deleted in E.
  - left. apply same_data_moved. unfold try_stats, guarded.
    destruct (take_injected_failure s) as [s1 [|]] eqn:E;
      by apply take_injected_failure_data in E.
  - left. apply retry_dead_moved.
  - right; right; right. apply purge_dead_deleted.
  - left. apply same_data_moved. unfold take_hang. by destruct (hang_next s).
  - left. by apply same_data_moved.
Qed.

(** ** The invariant *)

Lemma edge_same t o r r' : edge t o r r' → same_row r r'.
Proof.
  destruct 1 as [| |w items item r r' o _ _ _ Hf| | | |]; try done.
  unfold fail_row in Hf.
  destruct (FailedMessage.outcome item) as [d|]; [destruct (odt_add t d)|];
    by injection Hf as <- <-.
Qed.

Lemma edge_wf t o r r' : edge t o r r' → row_wf t r → row_wf t r'.
Proof.
  destruct 1 as [req u r Hc _| | | |w items l u r Hl _ _| |].
  - apply row_wf_claim. by apply is_claimable_spec in Hc as [? _].
  - by eapply row_wf_complete.
  - intros. by eapply row_wf_fail.
  - apply row_wf_release.
  - rewrite <-Hl. by apply row_wf_extend with w.
  - by apply row_wf_swept.
  - by apply row_wf_retry.
Qed.

Lemma edges_keep t o r r' :
  rtc (edge t o) r r' → same_row r r' ∧ (row_wf t r → row_wf t r').
Proof.
  induction 1 as [|r1 r2 r3 He _ [IHs IHw]]; [done|]. split.
  - trans r2; [by eapply edge_same|done].
  - intros. by eapply IHw, edge_wf.
Qed.

Lemma moves_inv o s l' : inv s → moves (now s) o (rows s) l' → inv (set_rows l' s).
Proof.
  intros Hi Hm. apply inv_Forall2; [done|]. eapply Forall2_impl; [exact Hm|].
  intros. by eapply edges_keep.
Qed.

Lemma run_op_now o s : op_ok o → now s ≤ now (run_op o s).
Proof.
  intros Hok. destruct (op_shape o s) as
    [(s1&l'&(_&_&Hn)&->&_)|[(e&k&a&_&->&_)|[(d&->&_&_&->)|(s1&l1&l'&(_&_&Hn)&->&_)]]];
    cbn in *; lia.
Qed.

Lemma run_op_inv o s : op_ok o → inv s → inv (run_op o s).
Proof.
  intros Hok Hi. destruct (op_shape o s) as
    [(s1&l'&Hd&->&Hm)|[(e&k&a&Hr&Hn&Hq)|[(d&->&Hr&Hq&Hn)|(s1&l1&l'&Hd&->&Hm&Hsub&_)]]].
  - pose proof (moves_inv o s l' Hi Hm) as Hi'. destruct Hd as (_&Hq&Hn).
    eapply inv_same_data; [|exact Hi']. by split_and!.
  - destruct Hi as [Hrows Hsort Hnext]. split; rewrite Hr, ?Hn, ?Hq.
    + apply Forall_app. split; [done|]. constructor; [|constructor]. apply row_wf_insert.
    + rewrite fmap_app. apply StronglySorted_app. cbn. split_and!; [|done|repeat constructor].
      intros x y (r & -> & Hin)%list_elem_of_fmap ->%list_elem_of_singleton.
      by apply (proj1 (Forall_forall _ _) Hnext).
    + apply Forall_app. split; [|repeat constructor; cbn; lia].
      eapply Forall_impl; [exact Hnext|]. cbn. lia.
  - destruct Hi as [Hrows Hsort Hnext]. split; rewrite Hr, ?Hn, ?Hq; [|done|done].
    eapply Forall_impl; [exact Hrows|]. intros r. apply row_wf_mono. cbn in Hok. lia.
  - pose proof (moves_inv o s l1 Hi Hm) as Hi'.
    pose proof (inv_sublist _ l' Hi' Hsub) as Hi''. destruct Hd as (_&Hq&Hn).
    eapply inv_same_data; [|exact Hi'']. by split_and!.
Qed.

Lemma run_ops_inv ops s : Forall op_ok ops → inv s → inv (run_ops ops s).
Proof.
  unfold run_ops. revert s; induction ops as [|o ops IH]; intros s; cbn; [done|].
  intros [Ho Hos]%Forall_cons_1 Hi. apply IH; [done|]. by apply run_op_inv.
Qed.

(** C17 [invariant] After any sequence of calls on a fresh store - including injected failures
    and calls that panic half way - every row is well formed: its lease is a worker and a
    deadline or neither, only pending rows are leased, no row is both published and dead,
    a row is dead exactly when it has a reason, its attempts fit 32 bits, its
    timestamps are ordered and not in the future, its error text is bounded; and
    sequences are distinct, increasing and below the next one to be assigned. *)
Theorem store_invariant (ops : list op) (Hok : Forall op_ok ops) :
  inv (run_ops ops inner_default).
Proof. apply run_ops_inv; [done|apply inv_default]. Qed.

(** ** The life cycle of a row *)

Lemma swept_final t req r r' : rtc (edge t (OPurge req)) (swept t r) r' → r' = swept t r.
Proof.
  intros Hr. destruct (rtc_inv _ _ Hr) as [->|(y & He & _)]; [done|].
  inversion He as [| | | | |? ? Hs|]. by apply sweepable_spec in Hs as ([_ ?] & _).
Qed.

(** Where a row goes, and where a row came from. *)
Lemma op_forward o s r :
  op_ok o → inv s → r ∈ rows s →
  (∃ r', r' ∈ rows (run_op o s) ∧ rtc (edge (now s) o) r r' ∧ same_row r r')
  ∨ removable (now s) o r.
Proof.
  intros Hok Hi Hin. destruct (op_shape o s) as
    [(s1&l'&Hd&->&Hm)|[(e&k&a&Hr&Hn&Hq)|[(d&->&Hr&Hq&Hn)|(s1&l1&l'&Hd&->&Hm&Hsub&Hrem)]]];
    cbn [rows set_rows].
  - left. apply list_elem_of_lookup in Hin as [i Hin].
    destruct (Forall2_lookup_l _ _ _ _ _ Hm Hin) as (r' & Hr' & He).
    exists r'. split_and!; [by eapply list_elem_of_lookup_2|done|]. by eapply edges_keep.
  - left. exists r. rewrite Hr. split_and!; [apply elem_of_app; by left|done|done].
  - left. exists r. by rewrite Hr.
  - apply list_elem_of_lookup in Hin as [i Hin].
    destruct (Forall2_lookup_l _ _ _ _ _ Hm Hin) as (r' & Hr' & He).
    apply list_elem_of_lookup_2 in Hr'.
    destruct (decide (r' ∈ l')) as [Hl|Hl].
    { left. exists r'. split_and!; [done..|]. by eapply edges_keep. }
    right. specialize (Hrem r' Hr' Hl).
    destruct He as [|r r1 r' He Hes]; [done|]. exfalso.
    destruct He as [| | | | |req r Hsweep|]; cbn in Hrem; try done.
    apply swept_final in Hes as ->. cbn in Hok.
    destruct Hrem as [(d&u&_&Hp&_)|(d&u&Hd'&[= <-]&Hlt)].
    + cbn in Hp. apply sweepable_spec in Hsweep as ([Hp' _] & _). congruence.
    + destruct Hok as [_ Hok]. specialize (Hok _ Hd'). lia.
Qed.

Lemma op_backward o s r' :
  r' ∈ rows (run_op o s) →
  (∃ r, r ∈ rows s ∧ rtc (edge (now s) o) r r')
  ∨ (sequence r' = next_sequence s ∧ pending r' ∧ locked_by r' = None ∧ attempts r' = 0).
Proof.
  destruct (op_shape o s) as
    [(s1&l'&Hd&->&Hm)|[(e&k&a&Hr&Hn&Hq)|[(d&->&Hr&Hq&Hn)|(s1&l1&l'&Hd&->&Hm&Hsub&Hrem)]]];
    cbn [rows set_rows].
  - intros Hin. left. apply list_elem_of_lookup in Hin as [i Hin].
    destruct (Forall2_lookup_r _ _ _ _ _ Hm Hin) as (r & Hr & He).
    exists r. split; [by eapply list_elem_of_lookup_2|done].
  - rewrite Hr. intros [Hin| ->%list_elem_of_singleton]%elem_of_app; [left; by exists r'|by right].
  - rewrite Hr. intros Hin. left. by exists r'.
  - intros Hin. left. eapply sublist_subseteq in Hin; [|exact Hsub].
    apply list_elem_of_lookup in Hin as [i Hin].
    destruct (Forall2_lookup_r _ _ _ _ _ Hm Hin) as (r & Hr & He).
    exists r. split; [by eapply list_elem_of_lookup_2|done].
Qed.

(** C14 [refinement] Every call moves rows only along the edges of the life cycle: a row that was
    there is still there, reached from what it was by transitions of that call, or was
    deleted by a purge that may delete it; every row there is now came from one that
    was there the same way, except a newly inserted one.  Edges keep the envelope,
    sequence, creation time and ordering key. *)
Theorem row_lifecycle (o : op) (s : Inner) (Hok : op_ok o) (Hi : inv s) :
  let s' := run_op o s in
  (∀ r, r ∈ rows s →
     (∃ r', r' ∈ rows s' ∧ rtc (edge (now s) o) r r' ∧ same_row r r')
     ∨ removable (now s) o r)
  ∧ (∀ r', r' ∈ rows s' →
       (∃ r, r ∈ rows s ∧ rtc (edge (now s) o) r r')
       ∨ (sequence r' = next_sequence s ∧ pending r' ∧ locked_by r' = None ∧ attempts r' = 0)).
Proof. split; intros r; [by apply op_forward|apply op_backward]. Qed.
End ops.
