(* ===== verification/MemStoreThms.v ===== *)
(** * Theorems about the in-memory store ([reliar-outbox], test_support/store.rs)

    What [acquire] hands out, the protection of a live lease, the exact effect of
    [complete], and the agreement of [stats] with [acquire]. *)

From S2P Require Import Prelude RustString CoreTypes CoreHeaders CoreEnvelope OutboxTypes.
From S2P Require Import MemStore MemStoreInv MemStoreSpec.
Import OutboxRecord(envelope, sequence, created_at, ordering_key, attempts, available_at,
  locked_by, locked_until, published_at, dead_at, dead_reason, last_error, message_ref,
  with_attempts, with_available_at, with_lease, with_published_at, with_dead, set_last_error).

(** ** Rows are determined by their sequence *)

Lemma sorted_lt_NoDup (l : list Z) : StronglySorted Z.lt l → NoDup l.
Proof.
  induction 1 as [|x l _ IH Hx]; constructor; [|done].
  intros Hin. rewrite Forall_forall in Hx. specialize (Hx _ Hin). lia.
Qed.

Lemma inv_NoDup s : inv s → NoDup (rows s).
Proof. intros [_ Hs _]. apply sorted_lt_NoDup, NoDup_fmap_1 in Hs. done. Qed.

Lemma inv_sequence s r1 r2 : inv s → r1 ∈ rows s → r2 ∈ rows s →
  sequence r1 = sequence r2 → r1 = r2.
Proof. intros [_ Hs _]. apply NoDup_fmap_eq. by apply sorted_lt_NoDup. Qed.

(** ** [acquire] *)

(** The rows at a list of indices. *)
Definition rows_at (l : list row) (idx : list nat) : list row := omap (λ i, l !! i) idx.

Lemma rows_at_elem l idx r : r ∈ rows_at l idx ↔ ∃ i, i ∈ idx ∧ l !! i = Some r.
Proof. apply list_elem_of_omap. Qed.

Lemma rows_at_Forall2 l idx :
  Forall (λ i, is_Some (l !! i)) idx → Forall2 (λ i r, l !! i = Some r) idx (rows_at l idx).
Proof.
  induction 1 as [|i idx [r Hr] _ IH]; [constructor|]. unfold rows_at in *. cbn. rewrite Hr.
  by constructor.
Qed.

Lemma rows_at_NoDup l idx : NoDup l → NoDup idx → NoDup (rows_at l idx).
Proof.
  intros Hl. induction 1 as [|i idx Hi _ IH]; [constructor|]. unfold rows_at in *. cbn.
  destruct (l !! i) as [r|] eqn:E; [|done]. constructor; [|done].
  intros (j & Hj & Hr)%rows_at_elem. by rewrite (NoDup_lookup _ _ _ _ Hl E Hr) in Hi.
Qed.

Lemma rows_at_sorted l idx :
  StronglySorted (λ i j, claim_leb l i j = true) idx →
  StronglySorted (λ a b, pair_leb (claim_key a) (claim_key b) = true) (rows_at l idx).
Proof.
  induction 1 as [|i idx _ IH Hi]; [constructor|]. unfold rows_at in *. cbn.
  destruct (l !! i) as [r|] eqn:E; [|done]. constructor; [done|].
  apply Forall_forall. intros x (j & Hj & Hx)%rows_at_elem.
  rewrite Forall_forall in Hi. specialize (Hi _ Hj). unfold claim_leb in Hi.
  by rewrite E, Hx in Hi.
Qed.

(** What a claim at time [t] hands out of [l]. *)
Record claims (l : list row) (t : OffsetDateTime) (n : nat) (claimed : list row) : Prop := {
  claims_nodup : NoDup claimed;
  claims_due : ∀ r, r ∈ claimed → r ∈ l ∧ is_claimable r t = true;
  claims_sorted : StronglySorted (λ a b, pair_leb (claim_key a) (claim_key b) = true) claimed;
  claims_length : (length claimed ≤ n)%nat;
  claims_first : ∀ r, r ∈ l → is_claimable r t = true → r ∉ claimed →
    length claimed = n ∧ ∀ c, c ∈ claimed → pair_leb (claim_key c) (claim_key r) = true;
}.

Lemma claimable_claims l t n : NoDup l → claims l t n (rows_at l (claimable l t n)).
Proof.
  intros Hl. pose proof (all_claimable_sorted l t) as Hs.
  pose proof (rows_at_Forall2 _ _ (claimable_in_range l t n)) as HF.
  pose proof (Forall2_length _ _ _ HF) as Hlen.
  split.
  - apply rows_at_NoDup; [done|apply claimable_NoDup].
  - intros r (i & Hi%claimable_elem & Hr)%rows_at_elem. unfold claimable_at in Hi.
    rewrite Hr in Hi. split; [by eapply list_elem_of_lookup_2|done].
  - apply rows_at_sorted. eapply sublist_StronglySorted; [apply sublist_take|done].
  - rewrite <-Hlen, claimable_take, length_take. lia.
  - intros r Hr Hc Hn. apply list_elem_of_lookup in Hr as [j Hj].
    assert (Hin : j ∈ all_claimable l t).
    { apply all_claimable_elem. unfold claimable_at. by rewrite Hj. }
    assert (Hnot : j ∉ claimable l t n).
    { intros Hin'. destruct Hn. apply rows_at_elem. eauto. }
    rewrite claimable_take in *. rewrite <-(take_drop n (all_claimable l t)) in Hin, Hs.
    apply elem_of_app in Hin as [Hin|Hin]; [done|].
    split.
    + rewrite <-Hlen, length_take. rewrite Nat.min_l; [done|].
      apply list_elem_of_lookup in Hin as [k Hk]. apply lookup_lt_Some in Hk.
      rewrite length_drop in Hk. lia.
    + intros c (i & Hi & Hc')%rows_at_elem.
      apply StronglySorted_app in Hs as (Hs & _). specialize (Hs _ _ Hi Hin).
      unfold claim_leb in Hs. by rewrite Hc', Hj in Hs.
Qed.

Section acquire.
Context `{TimeRange}.

Lemma acquire_claims req s s' b : NoDup (rows s) → try_acquire req s = (s', Some (Ok b)) →
  let lease_it := with_lease (Some (AcquireRequest.worker req))
                    (Some (now s + AcquireRequest.lease req)) in
  ∃ claimed, claims (rows s) (now s) (Z.to_nat (AcquireRequest.batch_size req)) claimed
    ∧ b = AcquiredBatch.new (lease_it <$> claimed) []
    ∧ rows s' = (λ r, if decide (r ∈ claimed) then lease_it r else r) <$> rows s
    ∧ now s' = now s.
Proof.
  intros Hnd. cbn zeta. unfold try_acquire, guarded.
  destruct (take_injected_failure s) as [s1 [|]] eqn:E; [done|].
  apply take_injected_failure_data in E as (Hr & _ & Hn). rewrite Hr, Hn.
  destruct (odt_add (now s) (AcquireRequest.lease req)) as [u|] eqn:Eu; [|done].
  apply odt_checked_Some in Eu as [-> _].
  set (n := Z.to_nat _). set (idx := claimable (rows s) (now s) n).
  destruct (claim_rows _ _ idx (rows s)) as [l recs] eqn:Ec. intros [= <- <-].
  apply claim_rows_spec in Ec as (Hlen & Hin & Hout & Hrecs);
    [|apply claimable_NoDup|apply claimable_in_range].
  pose proof (rows_at_Forall2 _ _ (claimable_in_range (rows s) (now s) n)) as HF.
  fold idx in HF. exists (rows_at (rows s) idx). split_and!; [by apply claimable_claims| | |done].
  - f_equal. clear -Hin Hrecs HF. revert Hin HF. generalize (rows_at (rows s) idx).
    induction Hrecs as [|i r idx recs Hr _ IH]; intros rs Hin HF.
    { by apply Forall2_nil_inv_l in HF as ->. }
    apply Forall2_cons_inv_l in HF as (r0 & rs' & Hr0 & HF & ->). cbn. f_equal.
    + rewrite Hin in Hr by left. rewrite Hr0 in Hr. by injection Hr as <-.
    + apply IH; [|done]. intros j Hj. apply Hin. by right.
  - cbn. apply list_eq. intros i. rewrite list_lookup_fmap.
    destruct (decide (i ∈ idx)) as [Hii|Hii].
    + rewrite Hin by done. destruct (rows s !! i) as [r|] eqn:Er; [|done]. cbn.
      rewrite decide_True; [done|]. apply rows_at_elem. eauto.
    + rewrite Hout by done. destruct (rows s !! i) as [r|] eqn:Er; [|done]. cbn.
      rewrite decide_False; [done|]. intros (j & Hj & Hr')%rows_at_elem.
      by rewrite (NoDup_lookup _ _ _ _ Hnd Er Hr') in Hii.
Qed.
End acquire.

(** ** Operations that end a claim *)

(** The first item naming a row, for a row the worker holds. *)
Definition item_for {I} (w : WorkerId.t) (m : I → MessageRef.t) (items : list I) (r : row)
  : option I :=
  if decide (locked_by r = Some w)
  then snd <$> list_find (λ i, m i = message_ref r) items else None.

Section exact.
Context {I : Type} (w : WorkerId.t) (m : I → MessageRef.t) (f : I → row → row * outcome unit).
Context (Hf : ∀ i r r' o, f i r = (r', o) → message_ref r' = message_ref r
                        ∧ (o = Some () → locked_by r' = None)).

Definition touch (items : list I) (r : row) : row :=
  match item_for w m items r with Some i => fst (f i r) | None => r end.

Lemma item_for_cons i items r :
  item_for w m (i :: items) r =
  if decide (owned w (m i) r = true) then Some i else item_for w m items r.
Proof.
  unfold item_for. cbn [list_find]. destruct (decide (locked_by r = Some w)) as [Hl|Hl].
  - destruct (decide (m i = message_ref r)) as [He|He].
    + rewrite decide_True by (by apply owned_spec). done.
    + rewrite decide_False by (intros [? _]%owned_spec; congruence).
      by destruct (list_find _ items) as [[]|].
  - by rewrite decide_False by (intros [_ ?]%owned_spec; congruence).
Qed.

Lemma touch_unlocked items r : locked_by r = None → touch items r = r.
Proof. intros Hl. unfold touch, item_for. by rewrite Hl, decide_False. Qed.

Lemma for_found_exact items l n l' k :
  NoDup (message_ref <$> l) →
  for_found (λ i, owned w (m i)) f items l n = (l', Some k) →
  l' = touch items <$> l
  ∧ k = n + Z.of_nat (length (filter (λ r, is_Some (item_for w m items r)) l)).
Proof.
  revert l n; induction items as [|i items IH]; intros l n Hnd; cbn [for_found].
  { intros [= <- <-]. assert (Hno : ∀ r : row, item_for w m [] r = None)
      by (intros r; unfold item_for; by destruct (decide _)).
    split.
    - symmetry. rewrite <-(list_fmap_id l) at 2. apply list_fmap_ext. intros j r _.
      unfold touch. by rewrite Hno.
    - assert (filter (λ r, is_Some (item_for w m [] r)) l = []) as ->; [|cbn; lia].
      induction l as [|r l IHl]; [done|]. rewrite filter_cons_False; [|rewrite Hno; by intros []].
      apply IHl. by apply NoDup_cons in Hnd as [_ ?]. }
  destruct (find_update _ _ _) as [[l1 o]|] eqn:E.
  - apply find_update_Some in E as (la & r & lb & r' & -> & Hp & Hr & -> & Hla).
    destruct o as [[]|]; [|done]. destruct (Hf _ _ _ _ Hr) as [Href Hun].
    specialize (Hun eq_refl). rewrite fmap_app, fmap_cons in Hnd.
    intros HH. apply IH in HH as [-> ->];
      [|by rewrite fmap_app, fmap_cons, Href].
    assert (Hoth : ∀ x, x ∈ la ++ lb → item_for w m (i :: items) x = item_for w m items x).
    { intros x Hx. rewrite item_for_cons, decide_False; [done|].
      intros [Hxr _]%owned_spec. apply owned_spec in Hp as [Hrr _].
      apply NoDup_app in Hnd as (_ & Hd & [Hnb _]%NoDup_cons).
      apply elem_of_app in Hx as [Hx|Hx].
      - apply (Hd (message_ref x)); [by apply list_elem_of_fmap_2|]. rewrite Hxr, <-Hrr. by left.
      - apply Hnb. rewrite Hrr, <-Hxr. by apply list_elem_of_fmap_2. }
    assert (Htouch : ∀ x, x ∈ la ++ lb → touch (i :: items) x = touch items x)
      by (intros x Hx; unfold touch; by rewrite Hoth).
    assert (Hri : item_for w m (i :: items) r = Some i)
      by (by rewrite item_for_cons, decide_True).
    assert (Hr'n : item_for w m items r' = None)
      by (unfold item_for; by rewrite decide_False by congruence).
    split.
    + rewrite !fmap_app, !fmap_cons. f_equal; [|f_equal].
      * apply list_fmap_ext. intros j x Hx%list_elem_of_lookup_2. symmetry. apply Htouch.
        apply elem_of_app. by left.
      * rewrite touch_unlocked by done. unfold touch. by rewrite Hri, Hr.
      * apply list_fmap_ext. intros j x Hx%list_elem_of_lookup_2. symmetry. apply Htouch.
        apply elem_of_app. by right.
    + assert (Hfl : ∀ l0 : list row, (∀ x, x ∈ l0 → x ∈ la ++ lb) →
        filter (λ r : row, is_Some (item_for w m (i :: items) r)) l0
        = filter (λ r : row, is_Some (item_for w m items r)) l0).
      { clear -Hoth. induction l0 as [|x l0 IHl]; intros Hl; [done|]. rewrite !filter_cons.
        rewrite Hoth by (apply Hl; by left). rewrite IHl by (intros; apply Hl; by right). done. }
      rewrite !filter_app, !length_app, !filter_cons.
      rewrite (decide_True (P:=is_Some (item_for w m (i :: items) r))) by eauto.
      rewrite (decide_False (P:=is_Some (item_for w m items r'))) by (rewrite Hr'n; by intros []).
      rewrite !Hfl by set_solver. cbn [length]. lia.
  - apply find_update_None in E. rewrite Forall_forall in E.
    assert (Hoth : ∀ x, x ∈ l → item_for w m (i :: items) x = item_for w m items x).
    { intros x Hx. rewrite item_for_cons, decide_False; [done|]. by rewrite (E _ Hx). }
    intros HH. apply IH in HH as [-> ->]; [|done]. split.
    + apply list_fmap_ext. intros j x Hx%list_elem_of_lookup_2. unfold touch. by rewrite Hoth.
    + f_equal. f_equal. clear -Hoth. induction l as [|x l IHl]; [done|]. rewrite !filter_cons.
      rewrite Hoth by (by left).
      assert (IHl' := IHl (λ x Hx, Hoth x (proj2 (elem_of_cons _ _ _) (or_intror Hx)))).
      destruct (decide _); cbn; by rewrite IHl'.
Qed.
End exact.

(** ** Properties *)

(** Rows the caller reports and still holds. *)
Definition completes (w : WorkerId.t) (items : list CompletedMessage.t) (r : row) : Prop :=
  locked_by r = Some w ∧ CompletedMessage.new (message_ref r) ∈ items.
Global Instance completes_dec w items r : Decision (completes w items r).
Proof. unfold completes. apply _. Defined.

Lemma item_for_completes w items r :
  is_Some (item_for w CompletedMessage.message items r) ↔ completes w items r.
Proof.
  unfold item_for, completes. destruct (decide (locked_by r = Some w)); [|split; [by intros []|by intros []]].
  rewrite fmap_is_Some. split.
  - intros [[j i] (Hj & Hm & _)%list_find_Some]. split; [done|].
    apply list_elem_of_lookup_2 in Hj. rewrite <-Hm. by destruct i.
  - intros [_ Hin]. apply list_find_elem_of with (x := CompletedMessage.new (message_ref r));
      done.
Qed.

Section props.
Context `{TimeRange}.

(** C12 [functional] A successful [acquire] hands out exactly the first claimable rows in
    [(available_at, sequence)] order, at most [batch_size] of them and fewer only when
    no other row was claimable; each is returned as it is now stored, leased to the
    worker until [now + lease] and otherwise unchanged (no attempt is consumed), no
    other row changes, and nothing is reported as poisoned. *)
Theorem acquire_spec (req : AcquireRequest.t) (s s' : Inner) (b : AcquiredBatch.t)
    (Hi : inv s) (Hrun : try_acquire req s = (s', Some (Ok b))) :
  let lease_it := with_lease (Some (AcquireRequest.worker req))
                    (Some (now s + AcquireRequest.lease req)) in
  ∃ claimed, claims (rows s) (now s) (Z.to_nat (AcquireRequest.batch_size req)) claimed
    ∧ AcquiredBatch.records b = lease_it <$> claimed ∧ AcquiredBatch.poisoned b = []
    ∧ rows s' = (λ r, if decide (r ∈ claimed) then lease_it r else r) <$> rows s.
Proof.
  destruct (acquire_claims _ _ _ _ (inv_NoDup _ Hi) Hrun) as (claimed & Hc & -> & Hr & _).
  by exists claimed.
Qed.

(** C18 [functional] When the rows have distinct references, a successful [complete] publishes exactly
    the rows the worker still holds and reports - each is marked published now, charged
    one attempt and unlocked - leaves every other row as it was, and answers how many
    those are; a lost lease is a shortfall, not an error. *)
Theorem complete_exact (w : WorkerId.t) (items : list CompletedMessage.t) (s s' : Inner) (k : Z)
    (Hrefs : NoDup (message_ref <$> rows s))
    (Hrun : try_complete w items s = (s', Some (Ok k))) :
  rows s' = (λ r, if decide (completes w items r) then completed (now s) r else r) <$> rows s
  ∧ k = Z.of_nat (length (filter (completes w items) (rows s))).
Proof.
  unfold try_complete, take_fail_next_complete, guarded in Hrun.
  destruct (fail_next_complete _); [|done].
  destruct (take_injected_failure _) as [s1 [|]] eqn:E in Hrun; [done|].
  apply take_injected_failure_data in E as (Hr & _ & Hn). cbn in Hr, Hn.
  unfold by_id in Hrun. rewrite Hr, Hn in Hrun.
  destruct (for_found _ _ _ _ _) as [l o] eqn:E.
  destruct o as [k'|]; cbn in Hrun; [|done]. injection Hrun as <- <-.
  apply for_found_exact in E as [-> ->]; [|intros ???? [= <- <-]; by split|done].
  split.
  - cbn. apply list_fmap_ext. intros j r _. unfold touch.
    destruct (item_for w _ items r) eqn:Ei.
    + rewrite decide_True; [done|]. apply item_for_completes. rewrite Ei. eauto.
    + rewrite decide_False; [done|]. rewrite <-item_for_completes, Ei. by intros [].
  - rewrite Z.add_0_l. do 2 f_equal. clear. induction (rows s) as [|r l IH]; [done|].
    rewrite !filter_cons, IH. destruct (decide (is_Some _)) as [Hs|Hs];
      rewrite item_for_completes in Hs; first [by rewrite decide_True|by rewrite decide_False].
Qed.

(** Calls a worker makes under its own lease guard. *)
Definition issued_by (w : WorkerId.t) (o : op) : Prop :=
  match o with
  | OComplete w' _ | OFail w' _ | ORelease w' _ | OExtend w' _ _ => w' = w
  | _ => False
  end.

Lemma live_lease_stuck t o w u r :
  row_wf t r → locked_by r = Some w → locked_until r = Some u → t ≤ u → ¬ issued_by w o →
  (∀ r', ¬ edge t o r r') ∧ ¬ removable t o r.
Proof.
  intros Hwf Hw Hu Htu Hni.
  assert (pending r) as [Hp Hd] by (eapply wf_locked_pending; [done|congruence]). split.
  - intros r' He. destruct He as [? ? ? Hc| | | | |? ? Hs|]; cbn in Hni; try congruence.
    + apply is_claimable_spec in Hc as (_&_&Hl&_). specialize (Hl _ Hu). lia.
    + apply sweepable_spec in Hs as (_&Hl&_). unfold lease_is_free in Hl. rewrite Hu in Hl.
      apply Z.ltb_lt in Hl. lia.
  - destruct o; cbn; try (by intros []).
    intros [(?&?&_&?&_)|(?&?&_&?&_)]; congruence.
Qed.

Lemma run_ops_now ops s : Forall op_ok ops → now s ≤ now (run_ops ops s).
Proof.
  unfold run_ops. revert s; induction ops as [|o ops IH]; intros s; cbn; [lia|].
  intros [Ho Hos]%Forall_cons_1. pose proof (run_op_now o s Ho). specialize (IH (run_op o s) Hos).
  lia.
Qed.

(** C7 [safety] A live lease excludes everyone else: while a worker's lease on a row has not
    passed, no sequence of calls by other workers, claims, purges or dead-letter
    operations changes or deletes the row in any way, and no claim - not even the
    worker's own - hands it out again. *)
Theorem lease_protects (ops : list op) (s : Inner) (r : row) (w : WorkerId.t) (u : OffsetDateTime)
    (Hi : inv s) (Hok : Forall op_ok ops) (Hr : r ∈ rows s)
    (Hw : locked_by r = Some w) (Hu : locked_until r = Some u)
    (Hother : Forall (λ o, ¬ issued_by w o) ops) (Hlive : now (run_ops ops s) ≤ u) :
  r ∈ rows (run_ops ops s)
  ∧ ∀ req s' b, try_acquire req (run_ops ops s) = (s', Some (Ok b)) →
      Forall (λ x, sequence x ≠ sequence r) (AcquiredBatch.records b).
Proof.
  assert (Hin : r ∈ rows (run_ops ops s)).
  { revert s Hi Hr Hlive. unfold run_ops. induction ops as [|o ops IH]; intros s Hi Hr Hlive;
      cbn in *; [done|].
    apply Forall_cons_1 in Hok as [Ho Hok]. apply Forall_cons_1 in Hother as [Hno Hother].
    apply IH; [done|done|by apply run_op_inv| |done].
    pose proof (run_op_now o s Ho). pose proof (run_ops_now ops (run_op o s) Hok) as Hle.
    unfold run_ops in Hle.
    destruct (live_lease_stuck (now s) o w u r) as [Hstuck Hnr]; try done; [|lia|].
    { by apply (proj1 (Forall_forall _ _) (inv_rows _ Hi)). }
    destruct (proj1 (row_lifecycle o s Ho Hi) r Hr) as [(r' & Hr' & He & _)|Hrem]; [|done].
    destruct (rtc_inv _ _ He) as [->|(y & Hy & _)]; [done|]. by destruct (Hstuck y). }
  split; [done|]. intros req s' b Hrun.
  assert (Hi' : inv (run_ops ops s)) by (by apply run_ops_inv).
  destruct (acquire_claims _ _ _ _ (inv_NoDup _ Hi') Hrun) as (claimed & Hc & -> & _). cbn.
  apply Forall_fmap, Forall_forall. intros x Hx. cbn.
  destruct (claims_due _ _ _ _ Hc x Hx) as [Hxin Hxc]. intros Heq.
  assert (x = r) as -> by (by eapply inv_sequence).
  apply is_claimable_spec in Hxc as (_&_&Hl&_). specialize (Hl _ Hu). lia.
Qed.

(** The rows a predicate picks out, counted as [stats] does. *)
Definition count (p : row → bool) (l : list row) : Z := Z.of_nat (length (filter (λ r, p r = true) l)).
Definition expired_pending_row (t : OffsetDateTime) (r : row) : bool :=
  bool_decide (dead_at r = None) && bool_decide (published_at r = None) && is_expired t r.
Definition dead_row (r : row) : bool := bool_decide (dead_at r ≠ None).

Lemma count_cons p r l : count p (r :: l) = count p l + (if p r then 1 else 0).
Proof.
  unfold count. rewrite filter_cons. destruct (p r); [rewrite decide_True by done|rewrite decide_False by done];
    cbn [length]; lia.
Qed.

Definition oldest_of (o : option Z) (x : Z) : option Z :=
  Some match o with Some c => Z.min c x | None => x end.

Lemma stats_fold t l st :
  let st' := fold_left (stats_row t) l st in
  OutboxStats.pending st' = OutboxStats.pending st + count (λ r, is_claimable r t) l
  ∧ OutboxStats.dead st' = OutboxStats.dead st + count dead_row l
  ∧ OutboxStats.expired_pending st' = OutboxStats.expired_pending st + count (expired_pending_row t) l
  ∧ OutboxStats.oldest_pending_available_at st'
    = fold_left oldest_of (available_at <$> filter (λ r, is_claimable r t = true) l)
        (OutboxStats.oldest_pending_available_at st)
  ∧ OutboxStats.as_of st' = OutboxStats.as_of st.
Proof.
  revert st; induction l as [|r l IH]; intros st.
  { unfold count. cbn. split_and!; try done; lia. }
  cbn [fold_left]. destruct (IH (stats_row t st r)) as (-> & -> & -> & -> & ->).
  rewrite !count_cons, filter_cons. destruct st as [p d e o a].
  pose proof (is_claimable_spec r t) as Hc. unfold pending in Hc.
  unfold stats_row, dead_row, expired_pending_row.
  destruct (dead_at r) as [x|] eqn:Ed.
  { assert (is_claimable r t = false) as -> by (destruct (is_claimable r t); [naive_solver|done]).
    rewrite decide_False by done. rewrite bool_decide_true by done. cbn.
    rewrite ?bool_decide_false by done. cbn. split_and!; try done; lia. }
  rewrite bool_decide_false by naive_solver. rewrite (bool_decide_true (None = None)) by done.
  destruct (published_at r) as [x|] eqn:Ep.
  { assert (is_claimable r t = false) as -> by (destruct (is_claimable r t); [naive_solver|done]).
    rewrite decide_False by done. rewrite bool_decide_true by done. cbn.
    rewrite ?bool_decide_false by done. cbn. split_and!; try done; lia. }
  rewrite bool_decide_false by naive_solver. rewrite (bool_decide_true (None = None)) by done.
  cbn [andb]. destruct (is_expired t r) eqn:Ex.
  { assert (is_claimable r t = false) as ->.
    { destruct (is_claimable r t); [|done]. exfalso. unfold is_expired in Ex.
      destruct Hc as [Hc _]. destruct (Hc eq_refl) as (_&_&_&He).
      destruct (OutboxRecord.expires_at r); [|done]. specialize (He _ eq_refl).
      apply Z.leb_le in Ex. lia. }
    rewrite decide_False by done. cbn. split_and!; try done; lia. }
  destruct (is_claimable r t).
  - rewrite decide_True by done. cbn [fmap list_fmap fold_left]. cbn.
    assert (∀ o, (Some match o with
                 | Some c => if c <=? available_at r then c else available_at r
                 | None => available_at r end) = oldest_of o (available_at r)) as Ho.
    { intros [c|]; unfold oldest_of; [|done]. f_equal. destruct (Z.leb_spec c (available_at r)); lia. }
    rewrite Ho. split_and!; try done; lia.
  - rewrite decide_False by done. cbn. split_and!; try done; lia.
Qed.

Lemma oldest_of_fold l o :
  match fold_left oldest_of l o with
  | Some m => (o = Some m ∨ m ∈ l) ∧ (∀ x, o = Some x → m ≤ x) ∧ (∀ x, x ∈ l → m ≤ x)
  | None => o = None ∧ l = []
  end.
Proof.
  revert o; induction l as [|x l IH]; intros o; cbn [fold_left].
  { destruct o; [|done]. split_and!; [by left|intros ? [= ->]; lia|by intros ? ?%elem_of_nil]. }
  specialize (IH (oldest_of o x)). destruct (fold_left _ _ _) as [m|]; [|by destruct IH].
  destruct IH as (Hm & Hle & Hl). unfold oldest_of in Hm, Hle. specialize (Hle _ eq_refl).
  split_and!.
  - destruct Hm as [[= <-]|Hm]; [|right; by right]. destruct o as [c|]; [|right; by left].
    destruct (Z.min_spec c x) as [[_ ->]|[_ ->]]; [by left|right; by left].
  - intros y ->. lia.
  - intros y [->|Hy]%elem_of_cons; [destruct o; lia|by apply Hl].
Qed.

(** A claim is as long as it may be, and starts with the oldest of what is claimable. *)
Lemma claims_subset l t n claimed :
  claims l t n claimed → claimed ⊆ filter (λ r, is_claimable r t = true) l.
Proof.
  intros Hc r Hr. apply list_elem_of_filter. apply (claims_due _ _ _ _ Hc) in Hr. tauto.
Qed.

Lemma claims_fill l t n claimed :
  NoDup l → claims l t n claimed →
  Z.of_nat (length claimed) = Z.min (Z.of_nat n) (count (λ r, is_claimable r t) l).
Proof.
  intros Hl Hc. pose proof (claims_subset _ _ _ _ Hc) as Hsub. unfold count.
  destruct Hc as [Hnd Hdue _ Hlen Hfirst]. set (cl := filter _ l) in *.
  assert (Hle : (length claimed ≤ length cl)%nat)
    by (by apply submseteq_length, NoDup_submseteq).
  destruct (Nat.lt_ge_cases (length claimed) n) as [Hlt|Hge]; [|lia].
  assert (Hall : cl ⊆ claimed).
  { intros r (Hrc & Hrin)%list_elem_of_filter.
    destruct (decide (r ∈ claimed)) as [|Hn']; [done|].
    destruct (Hfirst r Hrin Hrc Hn') as [? _]. lia. }
  assert (length cl ≤ length claimed)%nat
    by (by apply submseteq_length, NoDup_submseteq, Hall; apply NoDup_filter).
  lia.
Qed.

Lemma claims_oldest l t n claimed :
  NoDup l → (0 < n)%nat → claims l t n claimed →
  fold_left oldest_of (available_at <$> filter (λ r, is_claimable r t = true) l) None
  = available_at <$> head claimed.
Proof.
  intros Hl Hn Hc. pose proof (claims_subset _ _ _ _ Hc) as Hsub.
  destruct Hc as [_ Hdue Hsort _ Hfirst]. set (cl := filter _ l) in *.
  pose proof (oldest_of_fold (available_at <$> cl) None) as Hmin.
  destruct (fold_left oldest_of _ _) as [m|].
  - destruct Hmin as ([|Hm]&_&Hmle); [done|].
    apply list_elem_of_fmap in Hm as (r0 & -> & Hr0). pose proof Hr0 as (Hr0c & Hr0l)%list_elem_of_filter.
    destruct claimed as [|c claimed].
    { destruct (Hfirst r0 Hr0l Hr0c) as [Hlen _]; [by intros ?%elem_of_nil|]. cbn in Hlen. lia. }
    cbn. f_equal. apply Z.le_antisymm.
    + apply Hmle. apply list_elem_of_fmap_2, Hsub. by left.
    + assert (pair_leb (claim_key c) (claim_key r0) = true) as Hk%pair_leb_spec;
        [|cbn in Hk; lia].
      apply StronglySorted_cons in Hsort as [Hfc _]. rewrite Forall_forall in Hfc.
      destruct (decide (r0 ∈ c :: claimed)) as [[->|Hin]%elem_of_cons|Hnin].
      * apply pair_leb_spec. lia.
      * by apply Hfc.
      * destruct (Hfirst r0 Hr0l Hr0c Hnin) as [_ Hk]. apply Hk. by left.
  - destruct Hmin as [_ Hnil%fmap_nil_inv]. rewrite Hnil in Hsub.
    destruct claimed as [|c claimed]; [done|].
    specialize (Hsub c ltac:(by left)). by apply elem_of_nil in Hsub.
Qed.

(** C38 [equivalence] [stats] and [acquire] agree on the backlog: the snapshot counts exactly the
    rows a claim made at the same moment could hand out, the dead rows and the pending
    rows past their expiry; its oldest timestamp is the least [available_at] of those
    claimable rows, which is the first row such a claim returns. *)
Theorem stats_agrees_with_acquire (s s1 : Inner) (st : OutboxStats.t) (Hi : inv s)
    (Hst : try_stats s = (s1, Some (Ok st))) :
  OutboxStats.pending st = count (λ r, is_claimable r (now s)) (rows s)
  ∧ OutboxStats.dead st = count dead_row (rows s)
  ∧ OutboxStats.expired_pending st = count (expired_pending_row (now s)) (rows s)
  ∧ OutboxStats.as_of st = now s
  ∧ ∀ req s2 b, try_acquire req s1 = (s2, Some (Ok b)) → 0 < AcquireRequest.batch_size req →
      OutboxStats.oldest_pending_available_at st
      = available_at <$> head (AcquiredBatch.records b)
      ∧ Z.of_nat (length (AcquiredBatch.records b))
        = Z.min (AcquireRequest.batch_size req) (OutboxStats.pending st).
Proof.
  unfold try_stats, guarded in Hst. destruct (take_injected_failure s) as [s0 [|]] eqn:E; [done|].
  apply take_injected_failure_data in E as Hd. injection Hst as <- <-.
  pose proof Hd as (Hr & _ & Hn). rewrite Hr, Hn.
  pose proof (stats_fold (now s) (rows s) (OutboxStats.new 0 0 0 None (now s)))
    as (Hp & Hde & Hex & Hold & Has).
  rewrite Hp, Hde, Hex, Has, Hold. cbn [OutboxStats.pending OutboxStats.dead
    OutboxStats.expired_pending OutboxStats.as_of OutboxStats.oldest_pending_available_at].
  split_and!; try lia; try done. intros req s2 b Hrun Hbs.
  assert (Hi0 : inv s0) by (by eapply inv_same_data).
  destruct (acquire_claims _ _ _ _ (inv_NoDup _ Hi0) Hrun) as (claimed & Hc & -> & _).
  rewrite Hr, Hn in Hc. pose proof (inv_NoDup _ Hi) as Hnd.
  cbn [AcquiredBatch.records]. split.
  - assert (Hpos : (0 < Z.to_nat (AcquireRequest.batch_size req))%nat) by lia.
    rewrite (claims_oldest _ _ _ _ Hnd Hpos Hc).
    by destruct claimed.
  - rewrite length_fmap, (claims_fill _ _ _ _ Hnd Hc). lia.
Qed.
End props.

(** ** Witnesses

    A store with two messages, the first claimed by worker [w1]. *)

Definition sample_envelope (n : Z) : SerializedEnvelope :=
  Envelope.mk (MessageId.from_uuid n) (MessageType.from_parts "orders.created" 1) []
    Metadata.default None.
Definition sample_worker (name : string) : WorkerId.t := WorkerId.mk name.
Definition sample_claim (name : string) (n : Z) : AcquireRequest.t :=
  AcquireRequest.with_batch_size n (AcquireRequest.new (sample_worker name)).
Definition sample_ops : list op :=
  [OInsert (sample_envelope 1) None None; OInsert (sample_envelope 2) None None;
   OAcquire (sample_claim "w1" 1)].
Definition sample_store : Inner := run_ops (H:=default_time_range) sample_ops inner_default.
Definition sample_row : row :=
  with_lease (Some (sample_worker "w1")) (Some (from_secs 30))
    (OutboxRecord.builder (sample_envelope 1) 1 0).

Lemma sample_ops_ok : Forall op_ok sample_ops.
Proof. repeat constructor; cbn; unfold from_secs, NANOS_PER_SEC; lia. Qed.
Lemma sample_inv : inv sample_store.
Proof. apply run_ops_inv; [apply sample_ops_ok|apply inv_default]. Qed.

Lemma store_invariant_witness :
  Forall op_ok sample_ops ∧ inv (run_ops (H:=default_time_range) sample_ops inner_default).
Proof. split; [exact sample_ops_ok|]. exact (store_invariant _ sample_ops_ok). Defined.

Lemma row_lifecycle_witness :
  let o := OAcquire (sample_claim "w2" 5) in
  op_ok o ∧ inv sample_store
  ∧ ∃ r', r' ∈ rows (run_op (H:=default_time_range) o sample_store)
          ∧ rtc (edge (H:=default_time_range) (now sample_store) o) sample_row r'.
Proof.
  assert (Hok : op_ok (OAcquire (sample_claim "w2" 5)))
    by (cbn; unfold from_secs, NANOS_PER_SEC; lia).
  split; [exact Hok|]. split; [exact sample_inv|].
  destruct (row_lifecycle (H:=default_time_range) _ _ Hok sample_inv) as [Hfate _].
  destruct (Hfate sample_row) as [(r' & Hin & He & _)|[]]; [|by exists r'].
  left.
Defined.

Lemma acquire_spec_witness :
  ∃ s' b, try_acquire (H:=default_time_range) (sample_claim "w2" 5) sample_store
          = (s', Some (Ok b)) ∧ inv sample_store
          ∧ AcquiredBatch.poisoned b = [] ∧ length (AcquiredBatch.records b) = 1%nat.
Proof.
  destruct (try_acquire (H:=default_time_range) (sample_claim "w2" 5) sample_store)
    as [s' o] eqn:E.
  assert (Hb : ∃ b, o = Some (Ok b) ∧ length (AcquiredBatch.records b) = 1%nat).
  { vm_compute in E. injection E as <- <-. by eexists. }
  destruct Hb as (b & -> & Hlen). exists s', b. split; [done|]. split; [exact sample_inv|].
  destruct (acquire_spec (H:=default_time_range) _ _ _ _ sample_inv E) as (_&_&_&Hp&_).
  by split.
Defined.

Lemma complete_exact_witness :
  let items := [CompletedMessage.new (message_ref sample_row);
                CompletedMessage.new (MessageRef.new (MessageId.from_uuid 2) 0)] in
  NoDup (message_ref <$> rows sample_store)
  ∧ ∃ s', try_complete (sample_worker "w1") items sample_store
          = (s', Some (Ok 1))
          ∧ 1 = Z.of_nat (length (filter (completes (sample_worker "w1") items)
                                    (rows sample_store))).
Proof.
  assert (Hn : NoDup (message_ref <$> rows sample_store))
    by (refine (bool_decide_unpack _ _); vm_compute; exact I).
  split; [exact Hn|].
  destruct (try_complete (sample_worker "w1")
    [CompletedMessage.new (message_ref sample_row);
     CompletedMessage.new (MessageRef.new (MessageId.from_uuid 2) 0)] sample_store)
    as [s' o] eqn:E.
  assert (o = Some (Ok 1)) as -> by (vm_compute in E; by injection E as _ <-).
  exists s'. split; [done|].
  exact (proj2 (complete_exact _ _ _ _ _ Hn E)).
Defined.

Lemma lease_protects_witness :
  let ops := [OAdvance (from_secs 30); OAcquire (sample_claim "w2" 5);
              OPurge PurgeRequest.default; OComplete (sample_worker "w2")
                [CompletedMessage.new (message_ref sample_row)]] in
  sample_row ∈ rows (run_ops (H:=default_time_range) ops sample_store).
Proof.
  refine (proj1 (lease_protects (H:=default_time_range) _ sample_store sample_row
    (sample_worker "w1") (from_secs 30) sample_inv _ _ eq_refl eq_refl _ _)).
  - repeat constructor; cbn; unfold from_secs, NANOS_PER_SEC; intros; simplify_eq; lia.
  - left.
  - repeat constructor; cbn; first [by intros [] | discriminate].
  - vm_compute. discriminate.
Defined.

Lemma stats_agrees_with_acquire_witness :
  inv sample_store ∧ ∃ s1 st, try_stats sample_store = (s1, Some (Ok st))
    ∧ OutboxStats.pending st = 1.
Proof.
  split; [exact sample_inv|].
  destruct (try_stats sample_store) as [s1 o] eqn:E.
  assert (∃ st, o = Some (Ok st)) as [st ->]
    by (vm_compute in E; injection E as _ <-; by eexists).
  exists s1, st. split; [done|].
  destruct (stats_agrees_with_acquire (H:=default_time_range) _ _ _ sample_inv E) as (-> & _).
  vm_compute. reflexivity.
Defined.
