(* ===== verification/StoreInterface.v ===== *)
(** * The interface between the dispatcher and a store ([reliar-outbox], store.rs)

    [OutboxStore] is the trait of the same name.  A store acts on a world [W] - the
    database, the clock, whatever other workers do meanwhile - and every call is made
    under a client-side time budget: it is answered, or the budget elapses first, in
    which case nothing is known of its effect.  [OutboxStoreLaws] is what the
    dispatcher's theorems use of a store; the in-memory store is shown to satisfy
    it. *)

From S2P Require Import Prelude RustString CoreTypes CoreHeaders CoreEnvelope OutboxTypes.
From S2P Require Import MemStore MemStoreInv MemStoreSpec MemStoreThms.

(** A call bounded by [tokio::time::timeout]. *)
Inductive call (A E : Type) := Answered (r : result A E) | Elapsed.
Arguments Answered {A E} _.
Arguments Elapsed {A E}.

(** [tokio::time::Instant::now]: nanoseconds on a monotonic clock. *)
Class Clock (W : Type) := instant : W → Z.

(* src: outbox/store.rs 457-528 OutboxStore *)
Class OutboxStore (W E : Type) `{Classify E} := {
  acquire : Duration → AcquireRequest.t → W → W * call AcquiredBatch.t E;
  complete : Duration → WorkerId.t → list CompletedMessage.t → W → W * call Z E;
  fail : Duration → WorkerId.t → list FailedMessage.t → W → W * call Z E;
  release : Duration → WorkerId.t → list MessageRef.t → W → W * call Z E;
  extend_lease : Duration → WorkerId.t → list MessageRef.t → Duration → W → W * call Z E;
  purge : Duration → PurgeRequest.t → W → W * call PurgeReport.t E;
  stats : Duration → W → W * call OutboxStats.t E;
}.

(** "Claims up to [request.batch_size] due, unlocked, unexpired rows". *)
Class OutboxStoreLaws (W E : Type) `{OutboxStore W E} :=
  acquire_bounded : ∀ budget req w w' b, 0 ≤ AcquireRequest.batch_size req →
    acquire budget req w = (w', Answered (Ok b)) →
    Z.of_nat (length (AcquiredBatch.records b)) ≤ AcquireRequest.batch_size req.

(** ** The in-memory store implements it

    Its world is the locked state and the clock of the runtime.  A deferred [complete]
    or [fail] sleeps before it mutates, so a budget shorter than the sleep elapses and
    drops the future with nothing done. *)

Record MemWorld := mkMemWorld { inner : Inner; clock : Z }.
Global Instance MemWorld_Clock : Clock MemWorld := clock.

Section mem.
Context `{TimeRange}.

(** A panic of the store's clock arithmetic unwinds the caller; it has no answer. *)
Definition answer {A} (o : outcome (result A InMemoryStoreError)) : call A InMemoryStoreError :=
  match o with Some r => Answered r | None => Elapsed end.

Definition mem_call {A} (op : Inner → Inner * outcome (result A InMemoryStoreError))
    (w : MemWorld) : MemWorld * call A InMemoryStoreError :=
  let '(s, o) := op (inner w) in (mkMemWorld s (clock w), answer o).

Definition mem_hang {A} (budget : Duration)
    (op : Inner → Inner * outcome (result A InMemoryStoreError))
    (w : MemWorld) : MemWorld * call A InMemoryStoreError :=
  match hanging op (inner w) with
  | (s, Eager o) => (mkMemWorld s (clock w), answer o)
  | (s, Deferred d) =>
      if d <=? budget then mem_call op (mkMemWorld s (clock w + d))
      else (mkMemWorld s (clock w + budget), Elapsed)
  end.

(* src: outbox/test_support/store.rs 591-679 InMemoryOutboxStore *)
Global Instance MemStore_OutboxStore : OutboxStore MemWorld InMemoryStoreError := {|
  acquire budget r := mem_call (try_acquire r);
  complete budget w items := mem_hang budget (try_complete w items);
  fail budget w items := mem_hang budget (try_fail w items);
  release budget w items := mem_call (try_release w items);
  extend_lease budget w items lease := mem_call (try_extend_lease w items lease);
  purge budget r := mem_call (try_purge r);
  stats budget := mem_call try_stats;
|}.

Lemma claim_rows_length w u idx l l' recs :
  claim_rows w u idx l = (l', recs) → (length recs ≤ length idx)%nat.
Proof.
  revert l l' recs; induction idx as [|i idx IH]; intros l l' recs; cbn [claim_rows].
  { intros [= <- <-]. done. }
  destruct (l !! i) as [r|].
  - destruct (claim_rows w u idx _) as [l1 recs1] eqn:E. intros [= <- <-]. apply IH in E. cbn. lia.
  - intros E%IH. cbn. lia.
Qed.

Global Instance MemStore_laws : OutboxStoreLaws MemWorld InMemoryStoreError.
Proof.
  intros budget req w w' b Hb. cbn. unfold mem_call.
  destruct (try_acquire req (inner w)) as [s o] eqn:E. intros [= _ Ho].
  destruct o as [r|]; [|done]. injection Ho as ->.
  unfold try_acquire, guarded in E. destruct (take_injected_failure _) as [s1 [|]]; [done|].
  destruct (odt_add _ _); [|done]. destruct (claim_rows _ _ _ _) as [l recs] eqn:Ec.
  injection E as _ <-. cbn. apply claim_rows_length in Ec. unfold claimable in Ec.
  rewrite length_take in Ec. lia.
Qed.
End mem.
