(* ===== verification/Dispatcher.v ===== *)
(** * The dispatcher ([reliar-outbox], dispatcher.rs)

    The worker loop.  [Loop] is the local state of [OutboxDispatcher::run], with the
    publish tasks it spawned; the functions of the file are functions on it and on the
    world [W] of the store.  [step] is one step of the running system: an iteration of
    the [select!] (the branch that won, and how far the outcome-write future got before
    it was dropped), a step of a publish task, the cancellation token being set, or
    the world moving on.  The [log] records every store call, metric and message event
    for the theorems; the code does not read it. *)

From S2P Require Import Prelude RustString CoreTypes CoreHeaders CoreEnvelope OutboxTypes.
From S2P Require Import OutboxRetry OutboxSettings StoreInterface.

(** ** Configuration *)

(* src: outbox/dispatcher.rs 261-327 validate_shared *)
Definition validate_shared (s : DispatcherSettings.t) : result unit ConfigError :=
  if DispatcherSettings.max_in_flight s =? 0 then Err ZeroInFlight
  else if DispatcherSettings.batch_size s =? 0 then Err ZeroBatchSize
  else if is_zero (DispatcherSettings.poll_interval s) then Err (ZeroPollInterval "poll_interval")
  else if is_zero (DispatcherSettings.idle_poll_interval s)
  then Err (ZeroPollInterval "idle_poll_interval")
  else
    let? _ := ordering_validate (DispatcherSettings.ordering s) in
    if DispatcherSettings.lease s <=? DispatcherSettings.publish_timeout s
    then Err (LeaseTooShort (DispatcherSettings.lease s) (DispatcherSettings.publish_timeout s))
    else if DispatcherSettings.lease s / 2 <=? DispatcherSettings.store_timeout s
    then Err (StoreTimeoutTooLong (DispatcherSettings.store_timeout s)
                (DispatcherSettings.lease s))
    else Ok ().

(** [ExponentialBackoff]'s derived [PartialEq]: [f64] equality on the jitter. *)
Definition backoff_eqb (a b : ExponentialBackoff.t) : bool :=
  (ExponentialBackoff.base a =? ExponentialBackoff.base b)
  && (ExponentialBackoff.max_delay a =? ExponentialBackoff.max_delay b)
  && (ExponentialBackoff.max_attempts a =? ExponentialBackoff.max_attempts b)
  && SpecFloat.SFeqb (ExponentialBackoff.jitter a) (ExponentialBackoff.jitter b).

Module OutboxDispatcher.
  (* src: outbox/dispatcher.rs 70-84 OutboxDispatcher *)
Record t (R : Type) := mk { retry : R; settings : DispatcherSettings.t; worker : WorkerId.t }.
Arguments mk {R} _ _ _.
Arguments retry {R} _.
Arguments settings {R} _.
Arguments worker {R} _.
End OutboxDispatcher.

Module OutboxDispatcherBuilder.
(** [retry] is [None] for the [DefaultRetry] marker. *)
  (* src: outbox/dispatcher.rs 122-130 OutboxDispatcherBuilder *)
Record t (R : Type) := mk { settings : DispatcherSettings.t; retry : option R }.
Arguments mk {R} _ _.
Arguments settings {R} _.
Arguments retry {R} _.

  (* src: outbox/dispatcher.rs 100-111 OutboxDispatcher::builder *)
Definition new {R} : t R := mk DispatcherSettings.default None.
  (* src: outbox/dispatcher.rs 141-147 OutboxDispatcherBuilder::settings *)
Definition with_settings {R} (s : DispatcherSettings.t) (b : t R) : t R := mk s (retry b).
  (* src: outbox/dispatcher.rs 149-153 OutboxDispatcherBuilder::ordering *)
Definition with_ordering {R} (o : Ordering) (b : t R) : t R :=
  mk (DispatcherSettings.with_ordering o (settings b)) (retry b).
  (* src: outbox/dispatcher.rs 155-159 OutboxDispatcherBuilder::worker_id *)
Definition with_worker_id {R} (w : WorkerId.t) (b : t R) : t R :=
  mk (DispatcherSettings.with_worker_id w (settings b)) (retry b).
  (* src: outbox/dispatcher.rs 172-184 OutboxDispatcherBuilder::retry_policy *)
Definition retry_policy {R R2} (p : R2) (b : t R) : t R2 := mk (settings b) (Some p).

(** [fresh] is the worker id [WorkerId::generate] would return. *)
  (* src: outbox/dispatcher.rs 187-211 OutboxDispatcherBuilder::build *)
Definition build_default (fresh : WorkerId.t) (s : DispatcherSettings.t)
  : result (OutboxDispatcher.t ExponentialBackoff.t) ConfigError :=
  let? _ := validate_shared s in
  let? _ := ExponentialBackoff.validate (DispatcherSettings.retry s) in
  Ok (OutboxDispatcher.mk (DispatcherSettings.retry s) s
        (default fresh (DispatcherSettings.worker_id s))).

(** [as_backoff] is the [Any] downcast of the policy to [ExponentialBackoff]. *)
  (* src: outbox/dispatcher.rs 213-259 OutboxDispatcherBuilder::build *)
Definition build_custom {R} (as_backoff : R → option ExponentialBackoff.t) (fresh : WorkerId.t)
    (s : DispatcherSettings.t) (policy : R) : result (OutboxDispatcher.t R) ConfigError :=
  let? _ := validate_shared s in
  if negb (backoff_eqb (DispatcherSettings.retry s) ExponentialBackoff.default)
  then Err RetryPolicyConflict
  else
    let? _ := match as_backoff policy with
              | Some backoff => ExponentialBackoff.validate backoff
              | None => Ok ()
              end in
    Ok (OutboxDispatcher.mk policy s (default fresh (DispatcherSettings.worker_id s))).
End OutboxDispatcherBuilder.

(* src: outbox/dispatcher.rs 329-344 DispatchError *)
Inductive DispatchError (E : Type) :=
  | Configuration (e : ConfigError)
  | Store (e : E).
Arguments Configuration {E} _.
Arguments Store {E} _.

(** ** Bounded store calls *)

(* src: outbox/dispatcher.rs 1051-1055 TimedOut *)
Inductive TimedOut (E : Type) := TStore (e : E) | Timeout (budget : Duration).
Arguments TStore {E} _.
Arguments Timeout {E} _.

(* src: outbox/dispatcher.rs 1037-1049 bounded *)
Definition bounded {A E} (budget : Duration) (c : call A E) : result A (TimedOut E) :=
  match c with
  | Answered (Ok value) => Ok value
  | Answered (Err err) => Err (TStore err)
  | Elapsed => Err (Timeout budget)
  end.

(** ** Publish tasks *)

Abbreviation TaskId := nat (only parsing).
Abbreviation Instant := Z (only parsing).

Module PendingRow.
  (* src: outbox/dispatcher.rs 364-370 PendingRow *)
Record t := mk {
  message : MessageRef.t;
  message_type : MessageType.t;
  attempts_before : Z;
  envelope : SerializedEnvelope;
}.
Definition of_record (r : OutboxRecord.t) : t :=
  mk (OutboxRecord.message_ref r) (OutboxRecord.message_type r) (OutboxRecord.attempts r)
    (OutboxRecord.envelope r).
End PendingRow.

Module PublishJob.
  (* src: outbox/dispatcher.rs 1144-1153 PublishJob *)
Record t := mk {
  message : MessageRef.t;
  message_type : MessageType.t;
  attempts_before : Z;
  envelope : SerializedEnvelope;
  publish_timeout : Duration;
}.
End PublishJob.

(* src: outbox/dispatcher.rs 1120-1142 PublishTaskOutcome *)
Inductive PublishTaskOutcome :=
  | Published (message : MessageRef.t) (message_type : MessageType.t)
  | Failed (message : MessageRef.t) (attempts_before : Z) (kind : FailureKind) (error : string).

(** How the attempt inside [publish_one] ended: an error is its kind and its text. *)
Inductive attempt :=
  | SemaphoreClosed
  | Acked
  | Refused (kind : FailureKind) (error : string)
  | TimedOutAttempt.

(* src: outbox/dispatcher.rs 1188-1226 publish_one *)
Definition publish_one (job : PublishJob.t) (a : attempt) : PublishTaskOutcome :=
  match a with
  | SemaphoreClosed =>
      Failed (PublishJob.message job) (PublishJob.attempts_before job) Transient
        "reliar-outbox: publish semaphore closed unexpectedly"
  | Acked => Published (PublishJob.message job) (PublishJob.message_type job)
  | Refused kind error =>
      Failed (PublishJob.message job) (PublishJob.attempts_before job) kind error
  | TimedOutAttempt =>
      Failed (PublishJob.message job) (PublishJob.attempts_before job) Transient
        ("reliar-outbox: publish timed out after "
         +:+ duration_debug (PublishJob.publish_timeout job))
  end.

(** What joining a task yields: its outcome, or a [JoinError]. *)
Inductive join_result := JOutcome (o : PublishTaskOutcome) | JPanic | JCancelled.

Global Instance PublishTaskOutcome_eq_dec : EqDecision PublishTaskOutcome.
Proof. solve_decision. Defined.
Global Instance join_result_eq_dec : EqDecision join_result.
Proof. solve_decision. Defined.

(** A task: waiting for its permit, publishing, or finished; [started] is the shared
    flag it sets once it has its permit, [aborted] the effect of its abort handle. *)
Inductive task_status := Waiting | Publishing | Finished (r : join_result).
Record task := mkTask {
  job : PublishJob.t;
  status : task_status;
  started : bool;
  aborted : bool;
}.

(** The entry of [outstanding]; the flag and the abort handle it holds are the
    task's. *)
(* src: outbox/dispatcher.rs 372-386 OutstandingTask *)
Record OutstandingTask := mkOutstanding { ot_message : MessageRef.t }.

(** ** What the loop does, as the theorems see it *)

Inductive metric :=
  | MClaimed (n : nat)
  | MPublished (message_type : MessageType.t)
  | MRetried (kind : FailureKind)
  | MDead (n : nat) (reason : DeadReason)
  | MPublishDuration (message_type : MessageType.t)
  | MPending (n : Z)
  | MExpiredPending (n : Z)
  | MOldestPendingAge (age : Duration).

(** Events of a message: [late] marks a task joined after its row was released;
    [JoinedLost] a task that panicked or was aborted. *)
Inductive entry :=
  | Claimed (m : MessageRef.t)
  | BrokerAcked (m : MessageRef.t)
  | JoinedPublished (late : bool) (m : MessageRef.t)
  | JoinedFailed (late : bool) (m : MessageRef.t)
  | JoinedLost (m : MessageRef.t)
  | WroteComplete (m : MessageRef.t)
  | WroteFail (m : MessageRef.t)
  | GaveUpComplete (m : MessageRef.t)
  | GaveUpFail (m : MessageRef.t)
  | ReleasedUnresolved (m : MessageRef.t)
  | ReleasedFailed (m : MessageRef.t).
Global Instance entry_eq_dec : EqDecision entry.
Proof. solve_decision. Defined.

Inductive action :=
  | DoAcquire (request : AcquireRequest.t)
  | DoComplete (items : list CompletedMessage.t)
  | DoFail (items : list FailedMessage.t)
  | DoRelease (refs : list MessageRef.t)
  | DoExtend (refs : list MessageRef.t)
  | DoStats
  | Metric (m : metric)
  | Event (e : entry).

(** ** The loop's state *)

Record Loop := mkLoop {
  pending : list PendingRow.t;
  in_flight : gmap nat task;
  outstanding : gmap nat OutstandingTask;
  unwritten_complete : list (Instant * CompletedMessage.t);
  unwritten_fail : list (Instant * FailedMessage.t);
  next_task : nat;
  next_poll_at : Instant;
  next_outcome_retry_at : Instant;
}.

Definition set_unwritten (uc : list (Instant * CompletedMessage.t))
    (uf : list (Instant * FailedMessage.t)) (l : Loop) : Loop :=
  mkLoop (pending l) (in_flight l) (outstanding l) uc uf (next_task l) (next_poll_at l)
    (next_outcome_retry_at l).
Definition set_in_flight (f : gmap nat task) (l : Loop) : Loop :=
  mkLoop (pending l) f (outstanding l) (unwritten_complete l) (unwritten_fail l) (next_task l)
    (next_poll_at l) (next_outcome_retry_at l).
Definition set_outstanding (o : gmap nat OutstandingTask) (l : Loop) : Loop :=
  mkLoop (pending l) (in_flight l) o (unwritten_complete l) (unwritten_fail l) (next_task l)
    (next_poll_at l) (next_outcome_retry_at l).
Definition set_pending (p : list PendingRow.t) (l : Loop) : Loop :=
  mkLoop p (in_flight l) (outstanding l) (unwritten_complete l) (unwritten_fail l) (next_task l)
    (next_poll_at l) (next_outcome_retry_at l).
Definition set_next_poll (t : Instant) (l : Loop) : Loop :=
  mkLoop (pending l) (in_flight l) (outstanding l) (unwritten_complete l) (unwritten_fail l)
    (next_task l) t (next_outcome_retry_at l).
Definition set_next_retry (t : Instant) (l : Loop) : Loop :=
  mkLoop (pending l) (in_flight l) (outstanding l) (unwritten_complete l) (unwritten_fail l)
    (next_task l) (next_poll_at l) t.

Definition complete_ref (p : Instant * CompletedMessage.t) : MessageRef.t :=
  CompletedMessage.message p.2.
Definition fail_ref (p : Instant * FailedMessage.t) : MessageRef.t := FailedMessage.message p.2.
Definition outstanding_refs (l : Loop) : list MessageRef.t :=
  (ot_message ∘ snd) <$> map_to_list (outstanding l).

(* src: outbox/dispatcher.rs 545-546 OutboxDispatcher::run *)
Definition outstanding_count (l : Loop) : nat :=
  (size (outstanding l) + length (unwritten_complete l) + length (unwritten_fail l))%nat.
(* src: outbox/dispatcher.rs 549-549 OutboxDispatcher::run *)
Definition has_unwritten (l : Loop) : bool :=
  match unwritten_complete l, unwritten_fail l with [], [] => false | _, _ => true end.
(** [HashMap::values] in some order. *)
(* src: outbox/dispatcher.rs 550-559 OutboxDispatcher::run *)
Definition lease_refs (l : Loop) : list MessageRef.t :=
  outstanding_refs l ++ (complete_ref <$> unwritten_complete l) ++ (fail_ref <$> unwritten_fail l).

(** ** Spawning *)

Definition spawn_row (publish_timeout : Duration) (row : PendingRow.t) (l : Loop) : Loop :=
  let j := PublishJob.mk (PendingRow.message row) (PendingRow.message_type row)
             (PendingRow.attempts_before row) (PendingRow.envelope row) publish_timeout in
  let id := next_task l in
  mkLoop (pending l) (<[id := mkTask j Waiting false false]> (in_flight l))
    (<[id := mkOutstanding (PendingRow.message row)]> (outstanding l))
    (unwritten_complete l) (unwritten_fail l) (S id) (next_poll_at l) (next_outcome_retry_at l).

(* src: outbox/dispatcher.rs 753-795 spawn_ready *)
Definition spawn_ready (publish_timeout : Duration) (l : Loop) : Loop :=
  fold_left (λ l row, spawn_row publish_timeout row l) (pending l) (set_pending [] l).

(** ** Joining *)

(** A joined task, with the randomness its retry decision draws. *)
Record joined := mkJoined {
  j_id : nat;
  j_result : join_result;
  j_entropy : Z;
}.

Section dispatcher.
Context {W E R : Type} `{Clock W, OutboxStore W E, RetryPolicy R}.
Context (settings : DispatcherSettings.t) (worker : WorkerId.t) (retry : R).

Let lease := DispatcherSettings.lease settings.
Let store_timeout := DispatcherSettings.store_timeout settings.

(** One result, recorded at [now]; [None] when the retry policy panics. *)
(* src: outbox/dispatcher.rs 1249-1310 record_publish_results *)
Definition record_result (now : Instant) (j : joined) (l : Loop) : option (Loop * list action) :=
  let late := bool_decide (outstanding l !! j_id j = None) in
  let l' := set_outstanding (delete (j_id j) (outstanding l)) l in
  match j_result j with
  | JPanic | JCancelled =>
      Some (l', match outstanding l !! j_id j with
                | Some ot => [Event (JoinedLost (ot_message ot))]
                | None => []
                end)
  | JOutcome (Published message message_type) =>
      Some (set_unwritten
              (unwritten_complete l' ++ [(now, CompletedMessage.new message)])
              (unwritten_fail l') l',
            [Metric (MPublished message_type); Event (JoinedPublished late message)])
  | JOutcome (Failed message attempts_before kind error) =>
      outcome ← next retry (j_entropy j) attempts_before kind;
      Some (set_unwritten (unwritten_complete l')
              (unwritten_fail l' ++ [(now, FailedMessage.new message error outcome)]) l',
            [Metric (match outcome with
                     | Retry _ => MRetried kind
                     | Dead reason => MDead 1 reason
                     end);
             Event (JoinedFailed late message)])
  end.

(* src: outbox/dispatcher.rs 1228-1311 record_publish_results *)
Fixpoint record_publish_results (now : Instant) (js : list joined) (l : Loop)
  : option (Loop * list action) :=
  match js with
  | [] => Some (l, [])
  | j :: js' =>
      '(l1, a1) ← record_result now j l;
      '(l2, a2) ← record_publish_results now js' l1;
      Some (l2, a1 ++ a2)
  end.

(** [join_next_with_id] and [try_join_next_with_id] take finished tasks out of the
    set. *)
Fixpoint take_finished (js : list joined) (f : gmap nat task) : option (gmap nat task) :=
  match js with
  | [] => Some f
  | j :: js' =>
      t ← f !! j_id j;
      match status t with
      | Finished r => if bool_decide (r = j_result j) then take_finished js' (delete (j_id j) f) else None
      | _ => None
      end
  end.

(** ** Writing outcomes *)

(** [now.saturating_duration_since(since) > lease]. *)
Definition past_lease {T} (now : Instant) (p : Instant * T) : bool :=
  lease <? Z.max 0 (now - p.1).

(** The entries kept and the entries given up. *)
(* src: outbox/dispatcher.rs 997-1023 expire_past_lease *)
Definition expire_past_lease {T} (now : Instant) (unwritten : list (Instant * T))
  : list (Instant * T) * list (Instant * T) :=
  (filter (λ p, past_lease now p = false) unwritten,
   filter (λ p, past_lease now p = true) unwritten).

(** One half of a round: the entries left unwritten, written and given up, and whether
    the call failed; or the permanent error that ends the round. *)
Inductive half (T : Type) :=
  | HalfDone (kept written gave_up : list (Instant * T)) (failed : bool)
  | HalfPermanent (err : E).
Arguments HalfDone {T} _ _ _ _.
Arguments HalfPermanent {T} _.

(* src: outbox/dispatcher.rs 950-970 retry_unwritten_outcomes *)
Definition write_half {T} (write : list T → W → W * call Z E) (unwritten : list (Instant * T))
    (w : W) : W * half T :=
  match unwritten with
  | [] => (w, HalfDone [] [] [] false)
  | _ =>
      let '(w, c) := write (snd <$> unwritten) w in
      match bounded store_timeout c with
      | Ok _ => (w, HalfDone [] unwritten [] false)
      | Err err =>
          match err with
          | TStore e =>
              if bool_decide (kind e = Permanent) then (w, HalfPermanent e)
              else let '(kept, gave_up) := expire_past_lease (instant w) unwritten in
                   (w, HalfDone kept [] gave_up true)
          | Timeout _ =>
              let '(kept, gave_up) := expire_past_lease (instant w) unwritten in
              (w, HalfDone kept [] gave_up true)
          end
      end
  end.

Definition write_complete (items : list CompletedMessage.t) (w : W) : W * call Z E :=
  complete store_timeout worker items w.
Definition write_fail (items : list FailedMessage.t) (w : W) : W * call Z E :=
  fail store_timeout worker items w.

(* src: outbox/dispatcher.rs 892-902 RetryOutcome *)
Record RetryOutcome := mkRetryOutcome { permanent : option E; any_failed : bool }.

Definition complete_actions (uc : list (Instant * CompletedMessage.t)) : list action :=
  match uc with [] => [] | _ => [DoComplete (snd <$> uc)] end.
Definition fail_actions (uf : list (Instant * FailedMessage.t)) : list action :=
  match uf with [] => [] | _ => [DoFail (snd <$> uf)] end.

(* src: outbox/dispatcher.rs 930-995 retry_unwritten_outcomes *)
Definition retry_unwritten_outcomes (l : Loop) (w : W) : W * Loop * list action * RetryOutcome :=
  let '(w, h) := write_half write_complete (unwritten_complete l) w in
  let a := complete_actions (unwritten_complete l) in
  match h with
  | HalfPermanent e => (w, l, a, mkRetryOutcome (Some e) true)
  | HalfDone uc wrote gave_up failed_c =>
      let a := a ++ ((Event ∘ WroteComplete ∘ complete_ref) <$> wrote)
                 ++ ((Event ∘ GaveUpComplete ∘ complete_ref) <$> gave_up) in
      let '(w, h) := write_half write_fail (unwritten_fail l) w in
      let a := a ++ fail_actions (unwritten_fail l) in
      match h with
      | HalfPermanent e =>
          (w, set_unwritten uc (unwritten_fail l) l, a, mkRetryOutcome (Some e) true)
      | HalfDone uf wrote gave_up failed_f =>
          let a := a ++ ((Event ∘ WroteFail ∘ fail_ref) <$> wrote)
                     ++ ((Event ∘ GaveUpFail ∘ fail_ref) <$> gave_up) in
          (w, set_unwritten uc uf l, a, mkRetryOutcome None (failed_c || failed_f))
      end
  end.

(** How far the outcome-write branch of the [select!] got before another branch won and
    dropped it: still waiting for its due time, inside [complete], or inside [fail]
    after [complete] was done.  A dropped call was sent, and its answer is never
    seen. *)
Inductive progress := NotSent | InComplete | InFail.

(* src: outbox/dispatcher.rs 904-928 retry_unwritten_outcomes_when_due *)
Definition retry_dropped (p : progress) (l : Loop) (w : W) : option (W * Loop * list action) :=
  match p with
  | NotSent => Some (w, l, [])
  | InComplete =>
      match unwritten_complete l with
      | [] => None
      | uc =>
          if next_outcome_retry_at l <=? instant w
          then Some (fst (write_complete (snd <$> uc) w), l, complete_actions uc) else None
      end
  | InFail =>
      match unwritten_fail l with
      | [] => None
      | uf =>
          if next_outcome_retry_at l <=? instant w then
            let '(w, h) := write_half write_complete (unwritten_complete l) w in
            match h with
            | HalfPermanent _ => None
            | HalfDone uc wrote gave_up _ =>
                Some (fst (write_fail (snd <$> uf) w), set_unwritten uc uf l,
                      complete_actions (unwritten_complete l)
                      ++ ((Event ∘ WroteComplete ∘ complete_ref) <$> wrote)
                      ++ ((Event ∘ GaveUpComplete ∘ complete_ref) <$> gave_up)
                      ++ fail_actions uf)
            end
          else None
      end
  end.

(** ** The other branches *)

(* src: outbox/dispatcher.rs 1066-1096 renew_leases *)
Definition renew_leases (refs : list MessageRef.t) (w : W) : W * list action :=
  (fst (extend_lease store_timeout worker refs lease w), [DoExtend refs]).

(* src: outbox/dispatcher.rs 1098-1118 report_stats *)
Definition report_stats (w : W) : W * list action :=
  let '(w, c) := stats store_timeout w in
  match bounded store_timeout c with
  | Ok st =>
      (w, [DoStats; Metric (MPending (OutboxStats.pending st));
           Metric (MExpiredPending (OutboxStats.expired_pending st))]
          ++ match OutboxStats.lag st with
             | Some age => [Metric (MOldestPendingAge age)]
             | None => []
             end)
  | Err _ => (w, [DoStats])
  end.

(** The claim request for a loop holding [count] rows. *)
(* src: outbox/dispatcher.rs 619-628 OutboxDispatcher::run *)
Definition claim_request (count : nat) : AcquireRequest.t :=
  let capacity := Z.max 0 (DispatcherSettings.max_in_flight settings - Z.of_nat count) in
  let capacity := Z.min capacity U32_MAX in
  let want := Z.min (DispatcherSettings.batch_size settings) capacity in
  AcquireRequest.with_ordering (DispatcherSettings.ordering settings)
    (AcquireRequest.with_lease lease
      (AcquireRequest.with_batch_size want (AcquireRequest.new worker))).

(** The poll branch: the loop it leaves, or the permanent error that ends the run. *)
(* src: outbox/dispatcher.rs 618-680 OutboxDispatcher::run *)
Definition poll (count : nat) (l : Loop) (w : W) : W * list action * (Loop + E) :=
  let request := claim_request count in
  let '(w, c) := acquire store_timeout request w in
  let idle := set_next_poll (instant w + DispatcherSettings.idle_poll_interval settings) l in
  match c with
  | Answered (Ok batch) =>
      let records := AcquiredBatch.records batch in
      let a := [DoAcquire request; Metric (MClaimed (length records))]
               ++ match AcquiredBatch.poisoned batch with
                  | [] => []
                  | ps => [Metric (MDead (length ps) Undecodable)]
                  end in
      if AcquiredBatch.is_empty batch then (w, a, inl idle)
      else
        let l := set_next_poll (instant w + DispatcherSettings.poll_interval settings) l in
        let rows := PendingRow.of_record <$> records in
        let l := set_pending (pending l ++ rows) l in
        (w, a ++ ((Event ∘ Claimed ∘ PendingRow.message) <$> rows),
         inl (spawn_ready (DispatcherSettings.publish_timeout settings) l))
  | Answered (Err err) =>
      if bool_decide (kind err = Permanent) then (w, [DoAcquire request], inr err)
      else (w, [DoAcquire request], inl idle)
  | Elapsed => (w, [DoAcquire request], inl idle)
  end.

(* src: outbox/dispatcher.rs 522-535 OutboxDispatcher::run *)
Definition outcome_retry_interval : Duration :=
  Z.max (Z.min (DispatcherSettings.poll_interval settings) (lease / 4)) (from_millis 1).

(** The outcome-write branch run to its end. *)
(* src: outbox/dispatcher.rs 585-616 OutboxDispatcher::run *)
Definition retry_branch (l : Loop) (w : W) : W * Loop * list action * option E :=
  let '(w, l, a, out) := retry_unwritten_outcomes l w in
  let at_ := if any_failed out && has_unwritten l then instant w + outcome_retry_interval
             else instant w in
  (w, set_next_retry at_ l, a, permanent out).

(** ** Shutdown *)

(** Rows whose task has not got its permit, as far as the flag shows ([seen] is what
    the relaxed load observed). *)
Definition permitted (seen : nat → bool) (l : Loop) (id : nat) : bool :=
  match in_flight l !! id with Some t => seen id && started t | None => false end.
Definition not_yet_permitted (seen : nat → bool) (l : Loop) : gmap nat OutstandingTask :=
  filter (λ p, permitted seen l p.1 = false) (outstanding l).

Definition release_refs (refs : list MessageRef.t) (w : W) : W * list action :=
  match refs with
  | [] => (w, [])
  | _ => (fst (release store_timeout worker refs w), [DoRelease refs])
  end.

(* src: outbox/dispatcher.rs 684-716 OutboxDispatcher::run *)
Definition stop_claiming (seen : nat → bool) (l : Loop) (w : W) : W * Loop * list action :=
  let never_started := PendingRow.message <$> pending l in
  let unpermitted := not_yet_permitted seen l in
  let refs := never_started ++ ((ot_message ∘ snd) <$> map_to_list unpermitted) in
  let tasks := map_imap (λ i t, Some (if bool_decide (is_Some (unpermitted !! i))
                                      then mkTask (job t) (status t) (started t) true else t))
                 (in_flight l) in
  let l := set_outstanding (outstanding l ∖ unpermitted) (set_in_flight tasks (set_pending [] l)) in
  let '(w, a) := release_refs refs w in
  (w, l, a ++ ((Event ∘ ReleasedUnresolved) <$> refs)).

(** The end of [drain]: the last attempt, and the release of what failed or never
    resolved. *)
(* src: outbox/dispatcher.rs 847-890 drain *)
Definition finish_drain (perm : option E) (l : Loop) (w : W) : W * Loop * list action * option E :=
  let '(w, l, a, perm) :=
    match perm with
    | Some e => (w, l, [], Some e)
    | None => let '(w, l, a, out) := retry_unwritten_outcomes l w in (w, l, a, permanent out)
    end in
  let unresolved := outstanding_refs l in
  let failed := fail_ref <$> unwritten_fail l in
  let '(w, a2) := release_refs (unresolved ++ failed) w in
  (w, set_outstanding ∅ (set_unwritten (unwritten_complete l) [] l),
   a ++ a2 ++ ((Event ∘ ReleasedUnresolved) <$> unresolved)
     ++ ((Event ∘ ReleasedFailed) <$> failed), perm).

(** ** The running system *)

(** Draining towards a deadline, with the permanent error met while draining and the
    reason the loop ended, if any; [Crashed] is a panic of the retry policy. *)
Inductive phase :=
  | Running
  | Draining (deadline : Instant) (perm : option E) (exit_reason : option E)
  | Stopped (r : result unit (DispatchError E))
  | Crashed.

Record sys := mkSys {
  loop : Loop;
  at_phase : phase;
  world : W;
  cancelled : bool;
  log : list action;
}.

Definition initial (w : W) : sys :=
  mkSys (mkLoop [] ∅ ∅ [] [] 0 (instant w) (instant w)) Running w false [].

Definition with_loop (l : Loop) (w : W) (a : list action) (s : sys) : sys :=
  mkSys l (at_phase s) w (cancelled s) (log s ++ a).

(** The branch of the [select!] that won. *)
Inductive branch :=
  | BCancelled
  | BJoined (js : list joined)
  | BLeaseTick
  | BStatsTick
  | BRetry
  | BPoll.

(** The steps: an iteration of the loop (with what the started flags look like if it
    ends the loop); a publish task getting its permit, finishing its attempt, panicking,
    or being cancelled by its abort handle; the token being cancelled; the world moving
    on; an iteration of the drain, and its end. *)
Inductive event :=
  | EIterate (p : progress) (b : branch) (seen : nat → bool)
  | ETaskStart (id : nat)
  | ETaskFinish (id : nat) (a : attempt)
  | ETaskPanic (id : nat)
  | ETaskCancelled (id : nat)
  | ECancel
  | EWorld (w : W)
  | EDrainJoined (js : list joined)
  | EDrainEnd.

Definition is_publishing (t : task) : bool :=
  match status t with Publishing => true | _ => false end.
Definition running_tasks (l : Loop) : nat :=
  size (filter (λ p, is_publishing p.2 = true) (in_flight l)).

Definition set_task (id : nat) (t : task) (l : Loop) : Loop :=
  set_in_flight (<[id := t]> (in_flight l)) l.

(** Leaving the loop: rows that never started are released, and the drain begins. *)
Definition leave (seen : nat → bool) (exit_reason : option E) (s : sys) : sys :=
  let '(w, l, a) := stop_claiming seen (loop s) (world s) in
  mkSys l (Draining (instant w + DispatcherSettings.drain_timeout settings) None exit_reason)
    w (cancelled s) (log s ++ a).

(** The handler of the branch that won, with the count and the refs computed before the
    [select!]; [None] when the branch was not enabled. *)
(* src: outbox/dispatcher.rs 561-682 OutboxDispatcher::run *)
Definition take_branch (count : nat) (refs : list MessageRef.t) (b : branch) (seen : nat → bool)
    (s : sys) : option sys :=
  let l := loop s in
  let w := world s in
  match b with
  | BCancelled => Some (leave seen None s)
  | BJoined js =>
      match js with
      | [] => None
      | _ =>
          f ← take_finished js (in_flight l);
          Some (match record_publish_results (instant w) js (set_in_flight f l) with
                | Some (l, a) =>
                    with_loop (spawn_ready (DispatcherSettings.publish_timeout settings) l) w a s
                | None => mkSys l Crashed w (cancelled s) (log s)
                end)
      end
  | BLeaseTick =>
      if (0 <? count)%nat then let '(w, a) := renew_leases refs w in Some (with_loop l w a s)
      else None
  | BStatsTick =>
      if is_zero (DispatcherSettings.stats_interval settings) then None
      else let '(w, a) := report_stats w in Some (with_loop l w a s)
  | BRetry =>
      if has_unwritten l && (next_outcome_retry_at l <=? instant w) then
        let '(w, l, a, perm) := retry_branch l w in
        let s := with_loop l w a s in
        Some (match perm with Some e => leave seen (Some e) s | None => s end)
      else None
  | BPoll =>
      if (Z.of_nat count <? DispatcherSettings.max_in_flight settings)
         && (next_poll_at l <=? instant w)
      then
        let '(w, a, r) := poll count l w in
        Some (match r with
              | inl l => with_loop l w a s
              | inr e => leave seen (Some e) (with_loop l w a s)
              end)
      else None
  end.

(** The cancelled branch is polled first, so no other wins once the token is set; when
    the outcome write itself wins it was not dropped. *)
Definition wins (p : progress) (b : branch) (token : bool) : bool :=
  match b, p with
  | BCancelled, _ => token
  | BRetry, NotSent => negb token
  | BRetry, _ => false
  | _, _ => negb token
  end.

(** One iteration of the loop: the dropped outcome write, then the branch that won. *)
(* src: outbox/dispatcher.rs 538-682 OutboxDispatcher::run *)
Definition iterate (p : progress) (b : branch) (seen : nat → bool) (s : sys) : option sys :=
  match at_phase s with
  | Running =>
      if wins p b (cancelled s) then
        '(w, l, a) ← retry_dropped p (loop s) (world s);
        take_branch (outstanding_count (loop s)) (lease_refs (loop s)) b seen (with_loop l w a s)
      else None
  | _ => None
  end.

(** One join of the drain.  The deadline is compared at the top of the drain loop,
    before the wait for a task, and a finished task is polled before the deadline: a
    join may still happen after it. *)
(* src: outbox/dispatcher.rs 797-845 drain *)
Definition drain_joined (js : list joined) (s : sys) : option sys :=
  match at_phase s, js with
  | Draining deadline None reason, _ :: _ =>
      f ← take_finished js (in_flight (loop s));
      Some (match record_publish_results (instant (world s)) js
                    (set_in_flight f (loop s)) with
            | Some (l, a) =>
                let '(w, l, a', out) := retry_unwritten_outcomes l (world s) in
                mkSys l (Draining deadline (permanent out) reason) w (cancelled s)
                  (log s ++ a ++ a')
            | None => mkSys (loop s) Crashed (world s) (cancelled s) (log s)
            end)
  | _, _ => None
  end.

(** The end of the drain and of [run]. *)
(* src: outbox/dispatcher.rs 736-750 OutboxDispatcher::run *)
Definition drain_end (s : sys) : option sys :=
  match at_phase s with
  | Draining deadline perm reason =>
      if bool_decide (size (in_flight (loop s)) = 0%nat) || (deadline <=? instant (world s))
         || match perm with Some _ => true | None => false end
      then
        let '(w, l, a, perm) := finish_drain perm (loop s) (world s) in
        let reason := match reason with Some e => Some e | None => perm end in
        Some (mkSys l (Stopped (match reason with Some e => Err (Store e) | None => Ok tt end))
                w (cancelled s) (log s ++ a))
      else None
  | _ => None
  end.

(** The steps of a publish task: it gets one of the [max_in_flight] permits, then its
    attempt ends; an abort takes effect before it has finished. *)
Definition task_step (e : event) (s : sys) : option sys :=
  let l := loop s in
  match e with
  | ETaskStart id =>
      t ← in_flight l !! id;
      match status t with
      | Waiting =>
          if Z.of_nat (running_tasks l) <? DispatcherSettings.max_in_flight settings
          then Some (with_loop (set_task id (mkTask (job t) Publishing true (aborted t)) l)
                       (world s) [] s)
          else None
      | _ => None
      end
  | ETaskFinish id a =>
      t ← in_flight l !! id;
      match status t, a with
      | Publishing, SemaphoreClosed => None
      | Publishing, _ =>
          Some (with_loop
                  (set_task id (mkTask (job t) (Finished (JOutcome (publish_one (job t) a)))
                                  (started t) (aborted t)) l)
                  (world s)
                  (Metric (MPublishDuration (PublishJob.message_type (job t)))
                     :: match a with
                        | Acked => [Event (BrokerAcked (PublishJob.message (job t)))]
                        | _ => []
                        end) s)
      | _, _ => None
      end
  | ETaskPanic id =>
      t ← in_flight l !! id;
      match status t with
      | Publishing =>
          Some (with_loop (set_task id (mkTask (job t) (Finished JPanic) (started t) (aborted t)) l)
                  (world s) [] s)
      | _ => None
      end
  | ETaskCancelled id =>
      t ← in_flight l !! id;
      match status t with
      | Finished _ => None
      | _ =>
          if aborted t
          then Some (with_loop (set_task id (mkTask (job t) (Finished JCancelled) (started t) true) l)
                       (world s) [] s)
          else None
      end
  | _ => None
  end.

Definition stopped (s : sys) : bool :=
  match at_phase s with Stopped _ | Crashed => true | _ => false end.

Definition step (e : event) (s : sys) : option sys :=
  if stopped s then None
  else match e with
       | EIterate p b seen => iterate p b seen s
       | EDrainJoined js => drain_joined js s
       | EDrainEnd => drain_end s
       | ECancel => Some (mkSys (loop s) (at_phase s) (world s) true (log s))
       | EWorld w => Some (mkSys (loop s) (at_phase s) w (cancelled s) (log s))
       | _ => task_step e s
       end.

(** The states a run can reach. *)
Inductive reachable : sys → Prop :=
  | reach_initial w : reachable (initial w)
  | reach_step e s s' : reachable s → step e s = Some s' → reachable s'.
End dispatcher.
Arguments HalfDone {E T} _ _ _ _.
Arguments HalfPermanent {E T} _.
Arguments sys : clear implicits.
Arguments event : clear implicits.
Arguments phase : clear implicits.
