(* ===== verification/OutboxFmt.v ===== *)
(** * What the outbox prints ([reliar-outbox])

    The [Display] and [Debug] of the configuration, dispatch, routing and publish errors
    (error.rs, dispatcher.rs, publisher.rs), of the settings (settings.rs, retry.rs) and of
    the rows (record.rs, store.rs).  An [f64] is printed with the fewest digits that read back
    as the same number. *)

From Stdlib Require Import Ascii SpecFloat.
From S2P Require Import Prelude RustString RustFmt CoreTypes CoreHeaders CoreEnvelope CoreFmt OutboxTypes OutboxRetry OutboxSettings OutboxRouting MemStore StoreInterface Dispatcher.

(** ** [f64] *)

(** [n * 10^e], rounded down. *)
Definition scaled (num den e : Z) : Z :=
  if 0 <=? e then num * 10 ^ e / den else num / (den * 10 ^ (- e)).

(** The number of digits before the decimal point, from an estimate that is at most two low;
    not positive for a number below a tenth. *)
Fixpoint point_from (fuel : nat) (num den k : Z) : Z :=
  match fuel with
  | O => k
  | S fuel => if (if 0 <=? k then num <? den * 10 ^ k else num * 10 ^ (- k) <? den) then k
              else point_from fuel num den (k + 1)
  end.
Definition decimal_point (num den : Z) : Z :=
  point_from 4 num den ((Z.log2 num - Z.log2 den - 1) * 30103 / 100000).

(** The digits and the place of the decimal point of the shortest decimal that reads back as
    [x = num / den]: of the [n]-digit neighbours of [x], the nearest that does; seventeen
    digits always suffice. *)
Fixpoint shortest (fuel : nat) (n num den point : Z) (x : spec_float) : Z * Z :=
  let e := n - point in
  let lo := scaled num den e in
  let reads c := SFeqb (f64_decimal false c (- e)) x in
  let nearer_hi := scaled (2 * num) den e - 2 * lo =? 1 in
  match fuel with
  | O => (lo, e)
  | S fuel =>
      if nearer_hi && reads (lo + 1) then (lo + 1, e)
      else if reads lo then (lo, e)
      else if reads (lo + 1) then (lo + 1, e)
      else shortest fuel (n + 1) num den point x
  end.

(** Rounding nines up ends in zeros. *)
Fixpoint stripped (fuel : nat) (c e : Z) : Z * Z :=
  match fuel with
  | O => (c, e)
  | S fuel => if c mod 10 =? 0 then stripped fuel (c / 10) (e - 1) else (c, e)
  end.

Definition zeros (n : Z) : string := joined_with "" (replicate (Z.to_nat n) "0").

(** [c * 10^-e] written out. *)
Definition positional (c e : Z) : string :=
  let ds := display_uint c in
  let point := len ds - e in
  if e <=? 0 then ds +:+ zeros (- e)
  else if 0 <? point then str_take (Z.to_nat point) ds +:+ "." +:+ str_drop (Z.to_nat point) ds
  else "0." +:+ zeros (- point) +:+ ds.

Definition abs_ratio (m : positive) (e : Z) : Z * Z :=
  if 0 <=? e then (Z.pos m * 2 ^ e, 1) else (Z.pos m, 2 ^ (- e)).

Definition f64_shortest (m : positive) (e : Z) : Z * Z :=
  let '(num, den) := abs_ratio m e in
  let '(c, e') := shortest 17 1 num den (decimal_point num den) (S754_finite false m e) in
  stripped 17 c e'.

(** [<f64 as Display>::fmt]. *)
Definition f64_display (x : spec_float) : string :=
  match x with
  | S754_nan => "NaN"
  | S754_infinity neg => if neg then "-inf" else "inf"
  | S754_zero neg => if neg then "-0" else "0"
  | S754_finite neg m e =>
      let '(c, e') := f64_shortest m e in (if neg then "-" else "") +:+ positional c e'
  end.

(** [<f64 as Debug>::fmt]: a decimal point always, an exponent outside [1e-5 .. 1e16]. *)
Definition f64_debug (x : spec_float) : string :=
  match x with
  | S754_finite neg m e =>
      let '(c, e') := f64_shortest m e in
      let ds := display_uint c in
      let point := len ds - e' in
      (if neg then "-" else "") +:+
      (if (-4 <=? point) && (point <=? 16)
       then let s := positional c e' in if e' <=? 0 then s +:+ ".0" else s
       else str_take 1 ds +:+ (if len ds =? 1 then "" else "." +:+ str_drop 1 ds)
            +:+ "e" +:+ (if point - 1 <? 0 then "-" else "") +:+ display_uint (Z.abs (point - 1)))
  | S754_zero neg => if neg then "-0.0" else "0.0"
  | _ => f64_display x
  end.

Definition f64_of (s : string) : spec_float := default S754_nan (parse_f64 s).
Example f64_examples :
  f64_display F64.fifth = "0.2" ∧ f64_display (f64_of "1") = "1" ∧ f64_display (f64_of "-1.5") = "-1.5"
  ∧ f64_display (f64_of "1e-7") = "0.0000001" ∧ f64_display (f64_of "1e21") = "1000000000000000000000"
  ∧ f64_display (f64_of "0.30000000000000004") = "0.30000000000000004"
  ∧ f64_display (f64_of "123.456") = "123.456" ∧ f64_display S754_nan = "NaN"
  ∧ f64_display (f64_of "9007199254740993") = "9007199254740992"
  ∧ f64_display (f64_of "5e-324") = "0." +:+ zeros 323 +:+ "5"
  ∧ f64_debug (f64_of "1") = "1.0" ∧ f64_debug (f64_of "1e-7") = "1e-7"
  ∧ f64_debug (f64_of "1.5e300") = "1.5e300" ∧ f64_debug F64.fifth = "0.2".
Proof. split_and!; vm_compute; reflexivity. Qed.

(** ** Settings and errors *)

(* src: outbox/ordering.rs 11-25 Ordering *)
Definition Ordering_debug (o : Ordering) : string :=
  match o with Unordered => "Unordered" | PerKey => "PerKey" end.

(* src: outbox/error.rs 71-107 ConfigError::fmt *)
Definition ConfigError_display (e : ConfigError) : string :=
  match e with
  | ZeroInFlight => "max_in_flight must be greater than zero"
  | ZeroBatchSize => "batch_size must be greater than zero"
  | ZeroPollInterval field => field +:+ " must be greater than zero"
  | StoreTimeoutTooLong store_timeout lease =>
      "store_timeout (" +:+ duration_debug store_timeout +:+ ") must be shorter than half the lease ("
      +:+ duration_debug lease
      +:+ ") — a hung outcome write must not be able to occupy a whole renewal-tick gap"
  | LeaseTooShort lease publish_timeout =>
      "lease (" +:+ duration_debug lease +:+ ") must be longer than publish_timeout ("
      +:+ duration_debug publish_timeout +:+ ")"
  | UnsupportedOrdering ordering available_in =>
      Ordering_debug ordering +:+ " ordering is not implemented until " +:+ available_in
  | InvalidJitter value => "jitter " +:+ f64_display value +:+ " must be in the range [0.0, 1.0)"
  | ZeroMaxAttempts => "max_attempts must be at least 1"
  | ZeroRetryBase => "base delay must be greater than zero"
  | RetryPolicyConflict =>
      "a custom retry policy was supplied together with a non-default                  DispatcherSettings::retry; leave settings.retry at its default or feed it to                  the custom policy yourself"
  end.

(* src: outbox/dispatcher.rs 346-353 DispatchError::fmt *)
Definition DispatchError_display {E} (show : E → string) (e : DispatchError E) : string :=
  match e with
  | Configuration err => "invalid dispatcher configuration: " +:+ ConfigError_display err
  | Store err => "permanent store error: " +:+ show err
  end.

(* src: outbox/dispatcher.rs 1057-1064 TimedOut::fmt *)
Definition TimedOut_display {E} (show : E → string) (e : TimedOut E) : string :=
  match e with
  | TStore err => show err
  | Timeout budget => "timed out after " +:+ duration_debug budget
  end.

(* src: outbox/publisher.rs 395-402 RouteError::fmt *)
Definition RouteError_display {SE PE} (show_s : SE → string) (show_p : PE → string)
    (e : RouteError SE PE) : string :=
  match e with
  | RouteStage err => "failed to stage the routed message: " +:+ show_s err
  | RoutePublish err => "failed to publish the message directly: " +:+ show_p err
  end.

(* src: outbox/publisher.rs 442-453 DirectPublishError::fmt *)
Definition DirectPublishError_display {PE} (show : PE → string) (e : DirectPublishError PE) : string :=
  match e with
  | TransactionRequired message_type =>
      "message type " +:+ MessageType.display message_type
      +:+ " routes through the outbox, but no transaction was supplied; call OutboxPublisher::in_transaction, or stop routing this type"
  | DirectPublish err => "failed to publish the message directly: " +:+ show err
  end.

(* src: outbox/test_support/store.rs 793-802 InMemoryStoreError::fmt *)
Definition InMemoryStoreError_display (e : InMemoryStoreError) : string :=
  match e with
  | Injected => "test-support: injected store failure"
  | InjectedPermanent => "test-support: injected permanent store failure"
  end.

(** ** The causes of the errors *)

(* src: outbox/error.rs 109-109 ConfigError *)
#[export] Instance ConfigError_Error : Error ConfigError :=
  {| error_display := ConfigError_display; error_source _ := None |}.
(* src: outbox/test_support/store.rs 804-804 InMemoryStoreError *)
#[export] Instance InMemoryStoreError_Error : Error InMemoryStoreError :=
  {| error_display := InMemoryStoreError_display; error_source _ := None |}.

(* src: outbox/dispatcher.rs 355-362 DispatchError::source *)
#[export] Instance DispatchError_Error {E} `{Error E} : Error (DispatchError E) := {|
  error_display := DispatchError_display error_display;
  error_source e := match e with
                    | Configuration err => Some (as_dyn err)
                    | Store err => Some (as_dyn err)
                    end;
|}.

(* src: outbox/publisher.rs 404-415 RouteError::source *)
#[export] Instance RouteError_Error {SE PE} `{Error SE, Error PE} : Error (RouteError SE PE) := {|
  error_display := RouteError_display error_display error_display;
  error_source e := match e with
                    | RouteStage err => Some (as_dyn err)
                    | RoutePublish err => Some (as_dyn err)
                    end;
|}.

(* src: outbox/publisher.rs 455-465 DirectPublishError::source *)
#[export] Instance DirectPublishError_Error {PE} `{Error PE} : Error (DirectPublishError PE) := {|
  error_display := DirectPublishError_display error_display;
  error_source e := match e with
                    | TransactionRequired _ => None
                    | DirectPublish err => Some (as_dyn err)
                    end;
|}.

(** ** [Debug] *)

Section debug.
Context `{Unicode}.

(* src: outbox/worker.rs 21-22 WorkerId *)
Definition WorkerId_debug (w : WorkerId.t) : string := debug_newtype "WorkerId" (str_debug (WorkerId.as_str w)).

(* src: outbox/retry.rs 40-64 ExponentialBackoff *)
Definition ExponentialBackoff_debug (b : ExponentialBackoff.t) : string :=
  debug_struct "ExponentialBackoff"
    [("base", duration_debug (ExponentialBackoff.base b));
     ("max_delay", duration_debug (ExponentialBackoff.max_delay b));
     ("max_attempts", display_uint (ExponentialBackoff.max_attempts b));
     ("jitter", f64_debug (ExponentialBackoff.jitter b))].

(* src: outbox/settings.rs 276-371 DispatcherSettings *)
Definition DispatcherSettings_debug (s : DispatcherSettings.t) : string :=
  debug_struct "DispatcherSettings"
    [("batch_size", display_uint (DispatcherSettings.batch_size s));
     ("lease", duration_debug (DispatcherSettings.lease s));
     ("max_in_flight", display_uint (DispatcherSettings.max_in_flight s));
     ("publish_timeout", duration_debug (DispatcherSettings.publish_timeout s));
     ("poll_interval", duration_debug (DispatcherSettings.poll_interval s));
     ("idle_poll_interval", duration_debug (DispatcherSettings.idle_poll_interval s));
     ("drain_timeout", duration_debug (DispatcherSettings.drain_timeout s));
     ("store_timeout", duration_debug (DispatcherSettings.store_timeout s));
     ("stats_interval", duration_debug (DispatcherSettings.stats_interval s));
     ("ordering", Ordering_debug (DispatcherSettings.ordering s));
     ("retry", ExponentialBackoff_debug (DispatcherSettings.retry s));
     ("worker_id", option_debug WorkerId_debug (DispatcherSettings.worker_id s))].

(* src: outbox/dispatcher.rs 86-93 OutboxDispatcher::fmt *)
Definition OutboxDispatcher_debug {R} (d : OutboxDispatcher.t R) : string :=
  debug_struct_open "OutboxDispatcher"
    [("worker", WorkerId_debug (OutboxDispatcher.worker d));
     ("settings", DispatcherSettings_debug (OutboxDispatcher.settings d))].

(* src: outbox/dispatcher.rs 132-138 OutboxDispatcherBuilder::fmt *)
Definition OutboxDispatcherBuilder_debug {R} (b : OutboxDispatcherBuilder.t R) : string :=
  debug_struct_open "OutboxDispatcherBuilder"
    [("settings", DispatcherSettings_debug (OutboxDispatcherBuilder.settings b))].

Definition bool_debug (b : bool) : string := if b then "true" else "false".
(* src: outbox/settings.rs 117-120 MessageTypeNames *)
Definition MessageTypeNames_debug (m : MessageTypeNames.t) : string :=
  debug_newtype "MessageTypeNames" (debug_list str_debug (MessageTypeNames.names m)).
(* src: outbox/policy.rs 36-41 OutboxPolicy *)
Definition OutboxPolicy_debug (p : OutboxPolicy.t) : string :=
  debug_struct "OutboxPolicy"
    [("enabled", bool_debug (OutboxPolicy.enabled p));
     ("allowed", MessageTypeNames_debug (OutboxPolicy.allowed p));
     ("disallowed", MessageTypeNames_debug (OutboxPolicy.disallowed p))].
(** All of an [OutboxPublisher] that is shown is its policy. *)
(* src: outbox/publisher.rs 122-128 OutboxPublisher::fmt *)
Definition OutboxPublisher_debug (policy : OutboxPolicy.t) : string :=
  debug_struct_open "OutboxPublisher" [("policy", OutboxPolicy_debug policy)].

Context `{DebugLib}.

(* src: outbox/store.rs 234-245 DeadReason *)
Definition DeadReason_debug (r : DeadReason) : string :=
  match r with
  | PermanentError => "PermanentError"
  | AttemptsExhausted => "AttemptsExhausted"
  | Expired => "Expired"
  | Undecodable => "Undecodable"
  end.
(** A signed integer. *)
Definition int_debug (n : Z) : string := if n <? 0 then "-" +:+ display_uint (- n) else display_uint n.

(* src: outbox/record.rs 48-82 OutboxRecord *)
Definition OutboxRecord_debug (r : OutboxRecord.t) : string :=
  debug_struct "OutboxRecord"
    [("envelope", Envelope_debug (OutboxRecord.envelope r));
     ("sequence", int_debug (OutboxRecord.sequence r));
     ("created_at", time_debug (OutboxRecord.created_at r));
     ("ordering_key", option_debug str_debug (OutboxRecord.ordering_key r));
     ("attempts", display_uint (OutboxRecord.attempts r));
     ("available_at", time_debug (OutboxRecord.available_at r));
     ("locked_by", option_debug WorkerId_debug (OutboxRecord.locked_by r));
     ("locked_until", option_debug time_debug (OutboxRecord.locked_until r));
     ("published_at", option_debug time_debug (OutboxRecord.published_at r));
     ("dead_at", option_debug time_debug (OutboxRecord.dead_at r));
     ("dead_reason", option_debug DeadReason_debug (OutboxRecord.dead_reason r));
     ("last_error", option_debug str_debug (OutboxRecord.last_error r))].

(* src: outbox/store.rs 131-140 PoisonedRow *)
Definition PoisonedRow_debug (p : PoisonedRow.t) : string :=
  debug_struct "PoisonedRow"
    [("id", MessageId_debug (PoisonedRow.id p)); ("sequence", int_debug (PoisonedRow.sequence p));
     ("error", str_debug (PoisonedRow.error p))].
(* src: outbox/store.rs 66-74 AcquiredBatch *)
Definition AcquiredBatch_debug (b : AcquiredBatch.t) : string :=
  debug_struct "AcquiredBatch"
    [("records", debug_list OutboxRecord_debug (AcquiredBatch.records b));
     ("poisoned", debug_list PoisonedRow_debug (AcquiredBatch.poisoned b))].
End debug.

(** ** A batch shows no payload *)

Definition with_envelope (e : SerializedEnvelope) (r : OutboxRecord.t) : OutboxRecord.t :=
  OutboxRecord.mk e (OutboxRecord.sequence r) (OutboxRecord.created_at r)
    (OutboxRecord.ordering_key r) (OutboxRecord.attempts r) (OutboxRecord.available_at r)
    (OutboxRecord.locked_by r) (OutboxRecord.locked_until r) (OutboxRecord.published_at r)
    (OutboxRecord.dead_at r) (OutboxRecord.dead_reason r) (OutboxRecord.last_error r).

(** Rows that differ only in payload and header values. *)
Definition rows_alike (r1 r2 : OutboxRecord.t) : Prop :=
  looks_alike (OutboxRecord.envelope r1) (OutboxRecord.envelope r2)
  ∧ r1 = with_envelope (OutboxRecord.envelope r1) r2.

Section payloads.
Context `{Unicode} `{DebugLib}.

Lemma record_debug_alike r1 r2 : rows_alike r1 r2 → OutboxRecord_debug r1 = OutboxRecord_debug r2.
Proof.
  intros [Ha%Envelope_debug_alike Hr]. rewrite Hr. unfold OutboxRecord_debug.
  cbn [OutboxRecord.envelope with_envelope]. by rewrite Ha.
Qed.

Lemma batch_debug_alike rs1 rs2 ps :
  Forall2 rows_alike rs1 rs2 →
  AcquiredBatch_debug (AcquiredBatch.new rs1 ps) = AcquiredBatch_debug (AcquiredBatch.new rs2 ps).
Proof.
  intros Hr. unfold AcquiredBatch_debug, debug_list. cbn [AcquiredBatch.records AcquiredBatch.poisoned].
  assert (Hm : OutboxRecord_debug <$> rs1 = OutboxRecord_debug <$> rs2).
  { induction Hr as [|r1 r2 rs1 rs2 Ha _ IH]; [done|]. cbn [fmap list_fmap]. by rewrite IH, (record_debug_alike _ _ Ha). }
  by rewrite Hm.
Qed.
End payloads.
