(* ===== verification/DispatcherInv.v ===== *)
(** * The dispatcher's ledger ([reliar-outbox], dispatcher.rs)

    The invariant of the running dispatcher and its preservation by every step: each
    claimed row is accounted for exactly once, what is written as complete was
    acknowledged by the broker, what is written as failed carries the retry policy's
    decision, and the claim gate holds. *)

From S2P Require Import Prelude RustString CoreTypes CoreHeaders CoreEnvelope OutboxTypes.
From S2P Require Import OutboxRetry OutboxSettings StoreInterface Dispatcher.

(** ** The ledger of a log *)

Definition action_entry (a : action) : option entry :=
  match a with Event e => Some e | _ => None end.
Definition ledger (f : entry → option MessageRef.t) (log : list action) : list MessageRef.t :=
  omap (λ a, e ← action_entry a; f e) log.
Arguments ledger : simpl never.

Definition is_claimed (e : entry) := match e with Claimed m => Some m | _ => None end.
Definition is_acked (e : entry) := match e with BrokerAcked m => Some m | _ => None end.
Definition is_published (e : entry) := match e with JoinedPublished _ m => Some m | _ => None end.
Definition is_failed (e : entry) := match e with JoinedFailed _ m => Some m | _ => None end.
Definition is_wrote_complete (e : entry) := match e with WroteComplete m => Some m | _ => None end.
Definition is_wrote_fail (e : entry) := match e with WroteFail m => Some m | _ => None end.
Definition is_gave_up_complete (e : entry) := match e with GaveUpComplete m => Some m | _ => None end.
Definition is_gave_up_fail (e : entry) := match e with GaveUpFail m => Some m | _ => None end.
Definition is_released (e : entry) := match e with ReleasedUnresolved m => Some m | _ => None end.
Definition is_released_failed (e : entry) := match e with ReleasedFailed m => Some m | _ => None end.
(** Joined while the row was still outstanding. *)
Definition is_joined (e : entry) :=
  match e with
  | JoinedPublished false m | JoinedFailed false m | JoinedLost m => Some m
  | _ => None
  end.

(** The row of a task that yielded no outcome. *)
Definition is_lost (e : entry) := match e with JoinedLost m => Some m | _ => None end.
(** What only happens once the loop has ended: a late join, a release. *)
Definition is_shutdown (e : entry) :=
  match e with
  | JoinedPublished true m | JoinedFailed true m
  | ReleasedUnresolved m | ReleasedFailed m => Some m
  | _ => None
  end.

Lemma ledger_app f l1 l2 : ledger f (l1 ++ l2) = ledger f l1 ++ ledger f l2.
Proof. apply omap_app. Qed.

Lemma ledger_elem f log m : m ∈ ledger f log ↔ ∃ e, Event e ∈ log ∧ f e = Some m.
Proof.
  unfold ledger. rewrite list_elem_of_omap. split.
  - intros ([| | | | | | |e] & Hin & Hf); cbn in Hf; try done. eauto.
  - intros (e & Hin & Hf). by exists (Event e).
Qed.

Lemma ledger_events {T} (f : entry → option MessageRef.t) (c : MessageRef.t → entry)
    (g : T → MessageRef.t) (l : list T) :
  (∀ m, f (c m) = Some m) → ledger f ((Event ∘ c ∘ g) <$> l) = g <$> l.
Proof.
  intros Hf. induction l as [|x l IH]; [done|].
  change (ledger f ([Event (c (g x))] ++ ((Event ∘ c ∘ g) <$> l)) = g x :: (g <$> l)).
  rewrite ledger_app, IH. unfold ledger. cbn. by rewrite Hf.
Qed.

Lemma ledger_events_None {T} (f : entry → option MessageRef.t) (c : MessageRef.t → entry)
    (g : T → MessageRef.t) (l : list T) :
  (∀ m, f (c m) = None) → ledger f ((Event ∘ c ∘ g) <$> l) = [].
Proof.
  intros Hf. induction l as [|x l IH]; [done|].
  change (ledger f ([Event (c (g x))] ++ ((Event ∘ c ∘ g) <$> l)) = []).
  rewrite ledger_app, IH. unfold ledger. cbn. by rewrite Hf.
Qed.

Lemma ledger_plain f (a : action) : action_entry a = None → ledger f [a] = [].
Proof. intros Ha. unfold ledger. cbn. by rewrite Ha. Qed.

Lemma ledger_events_id (f : entry → option MessageRef.t) (c : MessageRef.t → entry) l :
  (∀ m, f (c m) = Some m) → ledger f ((Event ∘ c) <$> l) = l.
Proof.
  intros Hf. transitivity (id <$> l); [|apply list_fmap_id].
  by rewrite <-(ledger_events f c id l Hf).
Qed.

Lemma ledger_events_id_None (f : entry → option MessageRef.t) (c : MessageRef.t → entry) l :
  (∀ m, f (c m) = None) → ledger f ((Event ∘ c) <$> l) = [].
Proof. intros Hf. by rewrite <-(ledger_events_None f c id l Hf). Qed.

Lemma ledger_cons f a log :
  ledger f (a :: log) = from_option (λ m, [m]) [] (e ← action_entry a; f e) ++ ledger f log.
Proof. unfold ledger. cbn. by destruct (action_entry a ≫= _). Qed.

Lemma ledger_complete_actions f uc : ledger f (complete_actions uc) = [].
Proof. by destruct uc. Qed.
Lemma ledger_fail_actions f uf : ledger f (fail_actions uf) = [].
Proof. by destruct uf. Qed.

(** The ledger of a log written out as a concatenation. *)
Ltac ledger_simpl :=
  repeat first
    [ rewrite ledger_app | rewrite ledger_complete_actions | rewrite ledger_fail_actions
    | rewrite ledger_events by done | rewrite ledger_events_None by done
    | rewrite ledger_events_id by done | rewrite ledger_events_id_None by done
    | rewrite ledger_cons; cbn [action_entry mbind option_bind from_option app
        is_claimed is_acked is_published is_failed is_wrote_complete is_wrote_fail
        is_gave_up_complete is_gave_up_fail is_released is_released_failed is_joined
        is_lost is_shutdown] ];
  change (ledger _ []) with (@nil MessageRef.t).

(** ** The accounts of a loop and its log *)

(** Permutations between ledgers. *)
Ltac ledger_perm := rewrite ?ledger_app in *; perm_lia.

(** Each joined task left one of three events, in time or late. *)
Lemma ledger_joins log :
  ledger is_joined log ++ ledger is_shutdown log ≡ₚ
    ledger is_published log ++ ledger is_failed log ++ ledger is_lost log
    ++ ledger is_released log ++ ledger is_released_failed log.
Proof.
  induction log as [|a log IH]; [done|]. rewrite !ledger_cons.
  destruct a as [| | | | | | |[m|m|[] m|[] m|m|m|m|m|m|m|m]]; cbn; ledger_perm.
Qed.

Lemma calm_releases log :
  ledger is_shutdown log = [] →
  ledger is_released log = [] ∧ ledger is_released_failed log = [].
Proof.
  induction log as [|a log IH]; [done|]. rewrite !ledger_cons.
  by destruct a as [| | | | | | |[m|m|[] m|[] m|m|m|m|m|m|m|m]].
Qed.

Record accounts (l : Loop) (log : list action) : Prop := {
  acc_claimed :
    ledger is_claimed log ≡ₚ
      (PendingRow.message <$> pending l) ++ outstanding_refs l ++ ledger is_joined log
      ++ ledger is_released log;
  acc_published :
    ledger is_published log ≡ₚ
      (complete_ref <$> unwritten_complete l) ++ ledger is_wrote_complete log
      ++ ledger is_gave_up_complete log;
  acc_failed :
    ledger is_failed log ≡ₚ
      (fail_ref <$> unwritten_fail l) ++ ledger is_wrote_fail log
      ++ ledger is_gave_up_fail log ++ ledger is_released_failed log;
}.

Definition outcome_ref (o : PublishTaskOutcome) : MessageRef.t :=
  match o with Published m _ => m | Failed m _ _ _ => m end.

(** A task and its entry in [outstanding] name the same row; a finished task reports
    that row, and as published only if the broker acknowledged it. *)
Definition task_ok (log : list action) (o : gmap nat OutstandingTask) (id : nat) (t : task) : Prop :=
  (∀ ot, o !! id = Some ot → ot_message ot = PublishJob.message (job t))
  ∧ match status t with
    | Finished (JOutcome out) =>
        outcome_ref out = PublishJob.message (job t)
        ∧ match out with
          | Published m _ => m ∈ ledger is_acked log
          | Failed _ _ _ _ => True
          end
    | _ => True
    end.

Section inv.
Context {W E R : Type} `{Clock W, OutboxStore W E, RetryPolicy R}.
Context (settings : DispatcherSettings.t) (worker : WorkerId.t) (retry : R).

(** What an entry of [unwritten_fail] is: the policy's answer to a failed publish. *)
Definition decided (f : FailedMessage.t) : Prop :=
  ∃ entropy attempts kind error outcome,
    next retry entropy attempts kind = Some outcome
    ∧ f = FailedMessage.new (FailedMessage.message f) error outcome.

(** The invariant of the loop's data. *)
Record loop_inv (l : Loop) (log : list action) : Prop := {
  li_accounts : accounts l log;
  li_tasks : map_Forall (task_ok log (outstanding l)) (in_flight l);
  li_fresh : ∀ id, (next_task l ≤ id)%nat → in_flight l !! id = None ∧ outstanding l !! id = None;
  li_published : ∀ m, m ∈ ledger is_published log → m ∈ ledger is_acked log;
  li_decided : Forall (λ p, decided p.2) (unwritten_fail l);
  li_completes : ∀ items, DoComplete items ∈ log →
    Forall (λ i, CompletedMessage.message i ∈ ledger is_acked log) items;
  li_fails : ∀ items, DoFail items ∈ log → Forall decided items;
}.

Lemma acked_mono log a m : m ∈ ledger is_acked log → m ∈ ledger is_acked (log ++ a).
Proof. rewrite ledger_app, elem_of_app. by left. Qed.

(** Every field but the accounts survives a longer log, as long as the new entries are
    justified. *)
Lemma linv_extend l l' log a :
  loop_inv l log →
  accounts l' (log ++ a) →
  map_Forall (task_ok (log ++ a) (outstanding l')) (in_flight l') →
  (∀ id, (next_task l' ≤ id)%nat → in_flight l' !! id = None ∧ outstanding l' !! id = None) →
  (∀ m, m ∈ ledger is_published a → m ∈ ledger is_acked (log ++ a)) →
  Forall (λ p, decided p.2) (unwritten_fail l') →
  (∀ items, DoComplete items ∈ a →
     Forall (λ i, CompletedMessage.message i ∈ ledger is_acked (log ++ a)) items) →
  (∀ items, DoFail items ∈ a → Forall decided items) →
  loop_inv l' (log ++ a).
Proof.
  intros [? ? ? Hp ? Hc Hf] Hacc Ht Hfr Hpub Hdec Hdc Hdf. constructor; try done.
  - intros m. rewrite ledger_app, elem_of_app. intros [Hm|Hm]; [|by apply Hpub].
    by apply acked_mono, Hp.
  - intros items [Hin|Hin]%elem_of_app; [|by apply Hdc].
    eapply Forall_impl; [by apply Hc|]. intros i. apply acked_mono.
  - intros items [Hin|Hin]%elem_of_app; [by apply Hf|by apply Hdf].
Qed.

(** Actions that do not write an outcome. *)
Definition writes (a : action) : bool :=
  match a with DoComplete _ | DoFail _ => true | _ => false end.

Lemma linv_extend_nowrite l l' log a :
  loop_inv l log →
  accounts l' (log ++ a) →
  Forall (λ x, writes x = false) a →
  map_Forall (task_ok (log ++ a) (outstanding l')) (in_flight l') →
  (∀ id, (next_task l' ≤ id)%nat → in_flight l' !! id = None ∧ outstanding l' !! id = None) →
  (∀ m, m ∈ ledger is_published a → m ∈ ledger is_acked (log ++ a)) →
  Forall (λ p, decided p.2) (unwritten_fail l') →
  loop_inv l' (log ++ a).
Proof.
  intros Hl Hacc Hw ????. rewrite Forall_forall in Hw.
  by apply (linv_extend l); try done; intros items ?%Hw.
Qed.

(** What is unwritten as complete was acknowledged. *)
Lemma unwritten_acked l log p :
  loop_inv l log → p ∈ unwritten_complete l → complete_ref p ∈ ledger is_acked log.
Proof.
  intros Hl Hp. apply (li_published _ _ Hl).
  rewrite (acc_published _ _ (li_accounts _ _ Hl)), elem_of_app. left.
  by apply list_elem_of_fmap_2.
Qed.

(** Actions that neither write an outcome nor concern a message. *)
Definition quiet (a : action) : Prop :=
  match a with DoComplete _ | DoFail _ | Event _ => False | _ => True end.

Lemma ledger_quiet (f : entry → option MessageRef.t) a : Forall quiet a → ledger f a = [].
Proof.
  induction 1 as [|x a Hx Ha IH]; [done|].
  change (ledger f ([x] ++ a) = []). rewrite ledger_app, IH, ledger_plain; [done|].
  by destruct x.
Qed.

(** Only the pacing and the poll due time may differ. *)
Lemma linv_quiet l l' log a :
  Forall quiet a →
  pending l' = pending l → in_flight l' = in_flight l → outstanding l' = outstanding l →
  unwritten_complete l' = unwritten_complete l → unwritten_fail l' = unwritten_fail l →
  next_task l' = next_task l →
  loop_inv l log → loop_inv l' (log ++ a).
Proof.
  intros Hq E1 E2 E3 E4 E5 E6 Hl. rewrite Forall_forall in Hq.
  assert (Hf : ∀ f, ledger f (log ++ a) = ledger f log).
  { intros f. rewrite ledger_app, (ledger_quiet f a) by (by apply Forall_forall).
    apply app_nil_r. }
  pose proof Hl as [[] Ht Hfr _ Hd _ _].
  apply (linv_extend l); try done.
  - constructor; unfold outstanding_refs; rewrite !Hf, ?E1, ?E3, ?E4, ?E5; done.
  - unfold task_ok. rewrite E2, E3, Hf. done.
  - by rewrite E6, E2, E3.
  - intros m (e & Hin & _)%ledger_elem. by apply Hq in Hin.
  - by rewrite E5.
  - intros items Hin. by apply Hq in Hin.
  - intros items Hin. by apply Hq in Hin.
Qed.

(** ** Spawning *)

Lemma outstanding_refs_insert id ot l :
  outstanding l !! id = None →
  outstanding_refs (set_outstanding (<[id := ot]> (outstanding l)) l)
  ≡ₚ ot_message ot :: outstanding_refs l.
Proof. intros Hid. unfold outstanding_refs. cbn. by rewrite map_to_list_insert. Qed.

Lemma outstanding_refs_delete id ot l :
  outstanding l !! id = Some ot →
  outstanding_refs l ≡ₚ
    ot_message ot :: outstanding_refs (set_outstanding (delete id (outstanding l)) l).
Proof.
  intros Hid. unfold outstanding_refs. cbn. by rewrite <-(map_to_list_delete _ _ _ Hid).
Qed.

Lemma spawn_row_inv pt row rows l log :
  loop_inv (set_pending (row :: rows) l) log →
  loop_inv (set_pending rows (spawn_row pt row l)) log.
Proof.
  intros Hl. pose proof Hl as [[Hc Hp Hf] Ht Hfr ? ? ? ?]. cbn in *.
  destruct (Hfr (next_task l) (le_n _)) as [Hnf Hno].
  constructor; try done.
  - constructor; [|done..]. cbn. rewrite Hc.
    pose proof (outstanding_refs_insert (next_task l) (mkOutstanding (PendingRow.message row))
      l Hno) as Hins.
    unfold outstanding_refs in *. cbn in *. rewrite Hins. cbn. by rewrite Permutation_middle.
  - cbn. apply map_Forall_insert_2.
    + split; [|done]. cbn. intros ot. by rewrite lookup_insert_eq; intros [= <-].
    + intros id t Hid. destruct (Ht id t Hid) as [Hm Hs]. split; [|done].
      intros ot. rewrite lookup_insert_ne; [apply Hm|]. intros <-. by rewrite Hnf in Hid.
  - cbn. intros id Hid. rewrite !lookup_insert_ne by lia. apply Hfr. lia.
Qed.

Lemma set_pending_id l : set_pending (pending l) l = l.
Proof. by destruct l. Qed.

Lemma spawn_ready_inv pt l log : loop_inv l log → loop_inv (spawn_ready pt l) log.
Proof.
  intros Hl. unfold spawn_ready.
  assert (Hs : loop_inv (set_pending (pending l) (set_pending [] l)) log) by (by destruct l).
  assert (Hp : pending (set_pending [] l) = []) by done.
  revert Hs Hp. generalize (set_pending [] l). clear Hl.
  induction (pending l) as [|row rows IH]; intros l0 Hs Hp; cbn [fold_left].
  - by rewrite <-(set_pending_id l0), Hp.
  - apply IH; [|done]. by apply spawn_row_inv.
Qed.

(** ** Joining *)

(** What the tasks taken out of the set say of their rows. *)
Definition joined_ok (log : list action) (o : gmap nat OutstandingTask) (j : joined) : Prop :=
  match j_result j with
  | JOutcome out =>
      (∀ ot, o !! j_id j = Some ot → ot_message ot = outcome_ref out)
      ∧ match out with Published m _ => m ∈ ledger is_acked log | Failed _ _ _ _ => True end
  | _ => True
  end.

Lemma take_finished_spec js f f' :
  take_finished js f = Some f' →
  NoDup (j_id <$> js)
  ∧ (∀ id, id ∈ (j_id <$> js) → f' !! id = None)
  ∧ (∀ id, id ∉ (j_id <$> js) → f' !! id = f !! id)
  ∧ Forall (λ j, ∃ t, f !! j_id j = Some t ∧ status t = Finished (j_result j)) js.
Proof.
  revert f; induction js as [|j js IH]; intros f; cbn [take_finished].
  { intros [= <-]. split_and!; [constructor|by intros ? ?%elem_of_nil|done|constructor]. }
  destruct (f !! j_id j) as [t|] eqn:Ht; cbn; [|done].
  destruct (status t) eqn:Hs; try done. case_bool_decide as Hr; [|done].
  intros (Hnd & Hin & Hout & Hall)%IH. rewrite Forall_forall in Hall.
  assert (Hnin : j_id j ∉ (j_id <$> js)).
  { intros (j' & Hid & (t' & Ht' & _)%Hall)%list_elem_of_fmap.
    by rewrite <-Hid, lookup_delete_eq in Ht'. }
  cbn. split_and!.
  - by constructor.
  - intros id [->|Hid]%elem_of_cons; [|by apply Hin].
    rewrite Hout by done. apply lookup_delete_eq.
  - intros id [Hne Hid]%not_elem_of_cons. rewrite Hout by done. by rewrite lookup_delete_ne.
  - constructor; [exists t; by rewrite Hs, Hr|]. apply Forall_forall.
    intros j' (t' & Ht' & ?)%Hall. exists t'. split; [|done].
    by apply lookup_delete_Some in Ht' as [_ ?].
Qed.

Lemma take_finished_inv js l log f :
  loop_inv l log → take_finished js (in_flight l) = Some f →
  loop_inv (set_in_flight f l) log ∧ Forall (joined_ok log (outstanding l)) js.
Proof.
  intros [[] Ht Hfr ? ? ? ?] (_ & Hin & Hout & Hall)%take_finished_spec. split.
  - constructor; try done; cbn.
    + intros id t Hid. destruct (decide (id ∈ (j_id <$> js))) as [Hj|Hj].
      * by rewrite Hin in Hid.
      * rewrite Hout in Hid by done. by apply Ht.
    + intros id Hid. split; [|by apply Hfr].
      destruct (decide (id ∈ (j_id <$> js))) as [Hj|Hj]; [by apply Hin|].
      rewrite Hout by done. by apply Hfr.
  - eapply Forall_impl; [exact Hall|]. intros j (t & Hj & Hs). unfold joined_ok.
    destruct (Ht _ _ Hj) as [Hm Hok]. rewrite Hs in Hok.
    destruct (j_result j) as [out| |]; try done. destruct Hok as [Hr Ha].
    split; [|by destruct out]. intros ot Hot. by rewrite Hr, (Hm _ Hot).
Qed.

(** Removing an entry of [outstanding] keeps the tasks well described. *)
Lemma tasks_ok_subset log a (o o' : gmap nat OutstandingTask) (f : gmap nat task) :
  o' ⊆ o → map_Forall (task_ok log o) f → map_Forall (task_ok (log ++ a) o') f.
Proof.
  intros Ho Ht id t Hid. destruct (Ht id t Hid) as [Hm Hs]. split.
  - intros ot Hot. apply Hm. by eapply lookup_weaken.
  - destruct (status t) as [| |[out| |]]; try done. destruct Hs as [? Ha]. split; [done|].
    destruct out; [by apply acked_mono|done].
Qed.

Lemma outstanding_delete_refs id l :
  outstanding_refs l ≡ₚ
    from_option (λ ot, [ot_message ot]) [] (outstanding l !! id)
    ++ outstanding_refs (set_outstanding (delete id (outstanding l)) l).
Proof.
  destruct (outstanding l !! id) as [ot|] eqn:Hid; cbn.
  - by rewrite (outstanding_refs_delete _ _ _ Hid).
  - unfold outstanding_refs. cbn. by rewrite delete_id.
Qed.

(** A task that yields no outcome only closes its entry. *)
Lemma lost_inv id l log :
  loop_inv l log →
  loop_inv (set_outstanding (delete id (outstanding l)) l)
    (log ++ match outstanding l !! id with
            | Some ot => [Event (JoinedLost (ot_message ot))]
            | None => []
            end).
Proof.
  intros Hl. pose proof Hl as [[Hc Hp Hf] Ht Hfr Hpub Hdec _ _].
  pose proof (outstanding_delete_refs id l) as Hdel. unfold outstanding_refs in *.
  apply (linv_extend_nowrite l); cbn; try done.
  - destruct (outstanding l !! id) as [ot|]; cbn in *; constructor; unfold outstanding_refs; cbn;
      ledger_simpl; ledger_perm.
  - by destruct (outstanding l !! id); repeat constructor.
  - apply (tasks_ok_subset _ _ (outstanding l)); [apply delete_subseteq|done].
  - intros id' [? Ho]%Hfr. split; [done|]. by apply lookup_delete_None; right.
  - intros m. destruct (outstanding l !! id); ledger_simpl; by intros ?%elem_of_nil.
Qed.

Lemma record_result_inv now j l log l' a :
  loop_inv l log → joined_ok log (outstanding l) j → record_result retry now j l = Some (l', a) →
  loop_inv l' (log ++ a).
Proof.
  intros Hl Hj Hr. pose proof Hl as [[Hc Hp Hf] Ht Hfr Hpub Hdec _ _].
  pose proof (outstanding_delete_refs (j_id j) l) as Hdel.
  assert (Ht' : map_Forall (task_ok (log ++ a) (delete (j_id j) (outstanding l))) (in_flight l)).
  { apply (tasks_ok_subset _ _ (outstanding l)); [apply delete_subseteq|done]. }
  assert (Hfr' : ∀ id, (next_task l ≤ id)%nat →
    in_flight l !! id = None ∧ delete (j_id j) (outstanding l) !! id = None).
  { intros id [? Ho]%Hfr. split; [done|]. by apply lookup_delete_None; right. }
  unfold record_result, joined_ok in *. unfold outstanding_refs in *; cbn in *.
  destruct (j_result j) as [[m ty|m n k e]| |].
  - destruct Hj as [Hot Hack]. injection Hr as <- <-.
    apply (linv_extend_nowrite l); cbn; try done; [|by repeat constructor|].
    + destruct (outstanding l !! j_id j) as [ot|]; cbn in *;
        [pose proof (Hot _ eq_refl) as Hm|]; constructor; unfold outstanding_refs; cbn;
        ledger_simpl; rewrite ?fmap_app; cbn; subst; ledger_perm.
    + intros m0. ledger_simpl. intros ->%list_elem_of_singleton. by rewrite app_nil_r.
  - destruct Hj as [Hot _].
    destruct (next retry (j_entropy j) n k) as [o|] eqn:Hn; cbn in Hr; [|done].
    injection Hr as <- <-.
    apply (linv_extend_nowrite l); cbn; try done; [|by repeat constructor|..].
    + destruct (outstanding l !! j_id j) as [ot|]; cbn in *;
        [pose proof (Hot _ eq_refl) as Hm|]; constructor; unfold outstanding_refs; cbn;
        ledger_simpl; rewrite ?fmap_app; cbn; subst; ledger_perm.
    + intros m0. ledger_simpl. by intros ?%elem_of_nil.
    + apply Forall_app_2; [done|]. constructor; [|done].
      by exists (j_entropy j), n, k, e, o.
  - injection Hr as <- <-. by apply lost_inv.
  - injection Hr as <- <-. by apply lost_inv.
Qed.

(** What recording one result changes. *)
Lemma record_result_frame now j l l' a :
  record_result retry now j l = Some (l', a) →
  outstanding l' = delete (j_id j) (outstanding l)
  ∧ in_flight l' = in_flight l ∧ pending l' = pending l
  ∧ next_poll_at l' = next_poll_at l ∧ next_outcome_retry_at l' = next_outcome_retry_at l
  ∧ (length (unwritten_complete l') + length (unwritten_fail l')
     ≤ S (length (unwritten_complete l) + length (unwritten_fail l)))%nat.
Proof.
  unfold record_result. destruct (j_result j) as [[m ty|m n k e]| |]; cbn.
  - intros [= <- <-]. cbn. rewrite length_app. cbn. split_and!; [done..|lia].
  - destruct (next retry _ _ _); [|done]. cbn. intros [= <- <-]. cbn. rewrite length_app. cbn.
    split_and!; [done..|lia].
  - intros [= <- <-]. cbn. split_and!; [done..|lia].
  - intros [= <- <-]. cbn. split_and!; [done..|lia].
Qed.

Lemma joined_ok_mono log a (o o' : gmap nat OutstandingTask) j :
  o' ⊆ o → joined_ok log o j → joined_ok (log ++ a) o' j.
Proof.
  unfold joined_ok. intros Ho Hj. destruct (j_result j) as [out| |]; try done.
  destruct Hj as [Hm Ha]. split.
  - intros ot Hot. apply Hm. by eapply lookup_weaken.
  - destruct out; [by apply acked_mono|done].
Qed.

Lemma record_publish_results_inv now js l log l' a :
  loop_inv l log → Forall (joined_ok log (outstanding l)) js →
  record_publish_results retry now js l = Some (l', a) →
  loop_inv l' (log ++ a).
Proof.
  revert l log l' a; induction js as [|j js IH]; intros l log l' a Hl Hjs; cbn.
  { intros [= <- <-]. by rewrite app_nil_r. }
  apply Forall_cons in Hjs as [Hj Hjs].
  destruct (record_result retry now j l) as [[l1 a1]|] eqn:Hr; cbn; [|done].
  destruct (record_publish_results retry now js l1) as [[l2 a2]|] eqn:Hrs; cbn; [|done].
  intros [= <- <-]. rewrite app_assoc. eapply IH; [by eapply record_result_inv| |done].
  apply record_result_frame in Hr as (Ho & _).
  eapply Forall_impl; [exact Hjs|]. intros j'. apply joined_ok_mono.
  rewrite Ho. apply delete_subseteq.
Qed.

Lemma record_publish_results_pending now js l l' a :
  record_publish_results retry now js l = Some (l', a) → pending l' = pending l.
Proof.
  revert l l' a; induction js as [|j js IH]; intros l l' a; cbn; [by intros [= <- _]|].
  destruct (record_result retry now j l) as [[l1 a1]|] eqn:Hr; cbn; [|done].
  destruct (record_publish_results retry now js l1) as [[l2 a2]|] eqn:Hrs; cbn; [|done].
  intros [= <- _]. apply record_result_frame in Hr as (_ & _ & <- & _). by eapply IH.
Qed.

(** The results of distinct tasks that are all outstanding: each frees an entry and
    adds at most one. *)
Lemma record_publish_results_frame now js l l' a :
  record_publish_results retry now js l = Some (l', a) →
  NoDup (j_id <$> js) → Forall (λ j, is_Some (outstanding l !! j_id j)) js →
  in_flight l' = in_flight l ∧ pending l' = pending l
  ∧ (∀ id, id ∉ (j_id <$> js) → outstanding l' !! id = outstanding l !! id)
  ∧ (outstanding_count l' ≤ outstanding_count l)%nat.
Proof.
  revert l l' a; induction js as [|j js IH]; intros l l' a; cbn.
  { intros [= <- <-] _ _. done. }
  destruct (record_result retry now j l) as [[l1 a1]|] eqn:Hr; cbn; [|done].
  destruct (record_publish_results retry now js l1) as [[l2 a2]|] eqn:Hrs; cbn; [|done].
  intros [= <- <-] [Hj Hnd]%NoDup_cons [Ho Hos]%Forall_cons.
  apply record_result_frame in Hr as (Ho1 & Hf1 & Hp1 & _ & _ & Hn1).
  destruct (IH _ _ _ Hrs Hnd) as (Hf2 & Hp2 & Ho2 & Hn2).
  { rewrite Ho1, Forall_forall in *. intros j' Hj'. rewrite lookup_delete_ne; [by apply Hos|].
    intros Heq. apply Hj. rewrite Heq. by apply list_elem_of_fmap_2. }
  split_and!; [congruence..| |].
  - intros id [Hne Hid]%not_elem_of_cons. rewrite Ho2, Ho1 by done. by rewrite lookup_delete_ne.
  - unfold outstanding_count in *. rewrite Ho1, map_size_delete_Some in Hn2 by done.
    assert (size (outstanding l) ≠ 0)%nat.
    { destruct Ho as [ot Ho]. by eapply map_size_ne_0_lookup_2. }
    lia.
Qed.

(** ** Writing outcomes *)

Lemma expire_past_lease_perm {T} now (u : list (Z * T)) :
  (expire_past_lease settings now u).1 ++ (expire_past_lease settings now u).2 ≡ₚ u.
Proof.
  unfold expire_past_lease. cbn. induction u as [|p u IH]; [done|].
  rewrite !filter_cons. destruct (past_lease settings now p); cbn.
  - rewrite decide_False, decide_True by done. by rewrite <-Permutation_middle, IH.
  - rewrite decide_True, decide_False by done. cbn. by rewrite IH.
Qed.

(** A half of a round that is not permanent splits the entries. *)
Lemma write_half_split {T} (write : list T → W → W * call Z E) u w w' kept wrote gave failed :
  write_half settings write u w = (w', HalfDone kept wrote gave failed) →
  kept ++ wrote ++ gave ≡ₚ u.
Proof.
  unfold write_half. destruct u as [|p u]; [by intros [= <- <- <- <- <-]|].
  destruct (write _ w) as [w1 c].
  destruct (bounded _ c) as [n|[e|d]]; [intros [= <- <- <- <- <-]; by rewrite app_nil_r|..].
  - case_bool_decide; [done|]. intros [= <- <- <- <- <-]. apply (expire_past_lease_perm _ (p :: u)).
  - intros [= <- <- <- <- <-]. apply (expire_past_lease_perm _ (p :: u)).
Qed.

Lemma complete_actions_writes uc items :
  DoComplete items ∈ complete_actions uc → items = snd <$> uc.
Proof. destruct uc; cbn; [by intros ?%elem_of_nil|]. by intros [= ->]%list_elem_of_singleton. Qed.
Lemma fail_actions_writes uf items :
  DoFail items ∈ fail_actions uf → items = snd <$> uf.
Proof. destruct uf; cbn; [by intros ?%elem_of_nil|]. by intros [= ->]%list_elem_of_singleton. Qed.
Lemma fail_actions_no_complete uf items : DoComplete items ∉ fail_actions uf.
Proof. destruct uf; cbn; [by intros ?%elem_of_nil|]. by intros [=]%list_elem_of_singleton. Qed.
Lemma complete_actions_no_fail uc items : DoFail items ∉ complete_actions uc.
Proof. destruct uc; cbn; [by intros ?%elem_of_nil|]. by intros [=]%list_elem_of_singleton. Qed.
Lemma events_no_write {T} (c : MessageRef.t → entry) (g : T → MessageRef.t) (l : list T) a :
  a ∈ ((Event ∘ c ∘ g) <$> l) → writes a = false.
Proof. by intros (x & -> & _)%list_elem_of_fmap. Qed.

Lemma unwritten_acked_all l log a :
  loop_inv l log →
  Forall (λ i, CompletedMessage.message i ∈ ledger is_acked (log ++ a))
    (snd <$> unwritten_complete l).
Proof.
  intros Hl. apply Forall_fmap, Forall_forall. intros p Hp. cbn.
  apply acked_mono. by apply (unwritten_acked _ _ _ Hl).
Qed.

(** The [complete] half, sent and perhaps answered. *)
Lemma complete_half_inv l log kept wrote gave :
  loop_inv l log → kept ++ wrote ++ gave ≡ₚ unwritten_complete l →
  loop_inv (set_unwritten kept (unwritten_fail l) l)
    (log ++ complete_actions (unwritten_complete l)
       ++ ((Event ∘ WroteComplete ∘ complete_ref) <$> wrote)
       ++ ((Event ∘ GaveUpComplete ∘ complete_ref) <$> gave)).
Proof.
  intros Hl Hperm. pose proof Hl as [[Hc Hp Hf] Ht Hfr Hpub Hdec _ _].
  apply (linv_extend l); cbn; try done.
  - apply (fmap_Permutation complete_ref) in Hperm.
    constructor; unfold outstanding_refs in *; cbn; ledger_simpl; ledger_perm.
  - by apply (tasks_ok_subset _ _ (outstanding l)).
  - intros m. ledger_simpl. by intros ?%elem_of_nil.
  - intros items [->%complete_actions_writes|[Hin%events_no_write|
      Hin%events_no_write]%elem_of_app]%elem_of_app; [|done..]. by apply unwritten_acked_all.
  - intros items [Hin%complete_actions_no_fail|[Hin%events_no_write|
      Hin%events_no_write]%elem_of_app]%elem_of_app; done.
Qed.

(** The [fail] half. *)
Lemma fail_half_inv l log kept wrote gave :
  loop_inv l log → kept ++ wrote ++ gave ≡ₚ unwritten_fail l →
  loop_inv (set_unwritten (unwritten_complete l) kept l)
    (log ++ fail_actions (unwritten_fail l)
       ++ ((Event ∘ WroteFail ∘ fail_ref) <$> wrote)
       ++ ((Event ∘ GaveUpFail ∘ fail_ref) <$> gave)).
Proof.
  intros Hl Hperm. pose proof Hl as [[Hc Hp Hf] Ht Hfr Hpub Hdec _ _].
  assert (Hd : Forall (λ p, decided p.2) (kept ++ wrote ++ gave)) by (by rewrite Hperm).
  apply Forall_app in Hd as [Hd _].
  apply (linv_extend l); cbn; try done.
  - apply (fmap_Permutation fail_ref) in Hperm.
    constructor; unfold outstanding_refs in *; cbn; ledger_simpl; ledger_perm.
  - by apply (tasks_ok_subset _ _ (outstanding l)).
  - intros m. ledger_simpl. by intros ?%elem_of_nil.
  - intros items [Hin%fail_actions_no_complete|[Hin%events_no_write|
      Hin%events_no_write]%elem_of_app]%elem_of_app; done.
  - intros items [->%fail_actions_writes|[Hin%events_no_write|
      Hin%events_no_write]%elem_of_app]%elem_of_app; [|done..]. by apply Forall_fmap.
Qed.

(** A call sent and never answered leaves the loop as it was. *)
Lemma complete_sent_inv l log :
  loop_inv l log → loop_inv l (log ++ complete_actions (unwritten_complete l)).
Proof.
  intros Hl. pose proof (complete_half_inv l log (unwritten_complete l) [] [] Hl) as H3.
  cbn in H3. rewrite !app_nil_r in H3. destruct l. by apply H3.
Qed.
Lemma fail_sent_inv l log :
  loop_inv l log → loop_inv l (log ++ fail_actions (unwritten_fail l)).
Proof.
  intros Hl. pose proof (fail_half_inv l log (unwritten_fail l) [] [] Hl) as H3.
  cbn in H3. rewrite !app_nil_r in H3. destruct l. by apply H3.
Qed.

Lemma retry_unwritten_outcomes_inv l w w' l' a out log :
  loop_inv l log →
  retry_unwritten_outcomes settings worker l w = (w', l', a, out) →
  loop_inv l' (log ++ a).
Proof.
  intros Hl. unfold retry_unwritten_outcomes.
  destruct (write_half settings _ (unwritten_complete l) w) as [w1 [uc wrote gave fc|e]] eqn:Ec.
  2: { intros [= <- <- <- <-]. by apply complete_sent_inv. }
  apply write_half_split in Ec. pose proof (complete_half_inv _ _ _ _ _ Hl Ec) as Hl1.
  destruct (write_half settings _ (unwritten_fail l) w1) as [w2 [uf wrote' gave' ff|e]] eqn:Ef.
  - apply write_half_split in Ef. pose proof (fail_half_inv _ _ uf wrote' gave' Hl1 Ef) as Hl2.
    intros [= <- <- <- <-]. rewrite <-?app_assoc in *. exact Hl2.
  - pose proof (fail_sent_inv _ _ Hl1) as Hl2.
    intros [= <- <- <- <-]. rewrite <-?app_assoc in *. exact Hl2.
Qed.

Lemma retry_dropped_inv p l w w' l' a log :
  loop_inv l log → retry_dropped settings worker p l w = Some (w', l', a) →
  loop_inv l' (log ++ a).
Proof.
  intros Hl. unfold retry_dropped. destruct p.
  - intros [= <- <- <-]. by rewrite app_nil_r.
  - pose proof (complete_sent_inv _ _ Hl) as Hl'.
    destruct (unwritten_complete l); [done|]. destruct (_ <=? _); [|done].
    by intros [= <- <- <-].
  - destruct (unwritten_fail l) as [|f uf] eqn:Ef; [done|]. destruct (_ <=? _); [|done].
    destruct (write_half settings _ (unwritten_complete l) w) as [w1 [uc wrote gave fc|e]] eqn:Ec;
      [|done].
    apply write_half_split in Ec. pose proof (complete_half_inv _ _ _ _ _ Hl Ec) as Hl1.
    apply fail_sent_inv in Hl1. cbn [unwritten_fail set_unwritten] in Hl1. rewrite Ef in Hl1.
    intros [= <- <- <-]. rewrite <-?app_assoc in *. exact Hl1.
Qed.

(** Neither touches anything but the unwritten outcomes. *)
Definition same_tasks (l l' : Loop) : Prop :=
  pending l' = pending l ∧ in_flight l' = in_flight l ∧ outstanding l' = outstanding l
  ∧ next_task l' = next_task l.

Lemma perm_split_length {T} (k w g u : list T) :
  k ++ w ++ g ≡ₚ u → (length k ≤ length u)%nat.
Proof. intros Hp. rewrite <-(Permutation_length Hp), !length_app. lia. Qed.

Lemma retry_unwritten_outcomes_frame l w w' l' a out :
  retry_unwritten_outcomes settings worker l w = (w', l', a, out) →
  same_tasks l l' ∧ (outstanding_count l' ≤ outstanding_count l)%nat.
Proof.
  unfold retry_unwritten_outcomes, same_tasks, outstanding_count.
  destruct (write_half settings _ (unwritten_complete l) w) as [w1 [uc wrote gave fc|e]] eqn:Ec;
    [|by intros [= <- <- <- <-]].
  apply write_half_split, perm_split_length in Ec.
  destruct (write_half settings _ (unwritten_fail l) w1) as [w2 [uf wrote' gave' ff|e]] eqn:Ef.
  - apply write_half_split, perm_split_length in Ef. intros [= <- <- <- <-]. cbn.
    split; [done|lia].
  - intros [= <- <- <- <-]. cbn. split; [done|lia].
Qed.

Lemma retry_dropped_frame p l w w' l' a :
  retry_dropped settings worker p l w = Some (w', l', a) →
  same_tasks l l' ∧ (outstanding_count l' ≤ outstanding_count l)%nat.
Proof.
  unfold retry_dropped, same_tasks, outstanding_count. destruct p.
  - by intros [= <- <- <-].
  - destruct (unwritten_complete l) eqn:Ec; [done|]. destruct (_ <=? _); [|done].
    intros [= <- <- <-]. by rewrite Ec.
  - destruct (unwritten_fail l) as [|f uf] eqn:Ef; [done|]. destruct (_ <=? _); [|done].
    destruct (write_half settings _ (unwritten_complete l) w) as [w1 [uc wrote gave fc|e]] eqn:Ec;
      [|done].
    apply write_half_split, perm_split_length in Ec. rewrite <-Ef.
    intros [= <- <- <-]. cbn. split; [done|lia].
Qed.

(** ** Claiming *)

Lemma claim_inv l log rows :
  loop_inv l log →
  loop_inv (set_pending (pending l ++ rows) l)
    (log ++ ((Event ∘ Claimed ∘ PendingRow.message) <$> rows)).
Proof.
  intros Hl. pose proof Hl as [[Hc Hp Hf] Ht Hfr Hpub Hdec _ _].
  apply (linv_extend_nowrite l); cbn; try done.
  - constructor; unfold outstanding_refs in *; cbn; ledger_simpl; rewrite ?fmap_app; ledger_perm.
  - apply Forall_forall. intros a. apply events_no_write.
  - by apply (tasks_ok_subset _ _ (outstanding l)).
  - intros m. ledger_simpl. by intros ?%elem_of_nil.
Qed.

Lemma poll_inv count l w w' a r log :
  loop_inv l log → poll settings worker count l w = (w', a, r) →
  loop_inv (match r with inl l' => l' | inr _ => l end) (log ++ a).
Proof.
  intros Hl. unfold poll. destruct (acquire _ _ w) as [w1 [[b|e]|]].
  - assert (Hq : Forall quiet ([DoAcquire (claim_request settings worker count);
        Metric (MClaimed (length (AcquiredBatch.records b)))]
        ++ match AcquiredBatch.poisoned b with
           | [] => []
           | ps => [Metric (MDead (length ps) Undecodable)]
           end)) by (destruct (AcquiredBatch.poisoned b); repeat constructor).
    destruct (AcquiredBatch.is_empty b); intros [= <- <- <-].
    + by apply (linv_quiet l).
    + apply spawn_ready_inv. rewrite app_comm_cons, app_comm_cons, app_assoc.
      apply (claim_inv (set_next_poll _ l)). by apply (linv_quiet l).
  - case_bool_decide; intros [= <- <- <-]; (apply (linv_quiet l); [by repeat constructor|done..]).
  - intros [= <- <- <-]. apply (linv_quiet l); [by repeat constructor|done..].
Qed.

(** ** Shutdown *)

Lemma outstanding_refs_split l sub :
  sub ⊆ outstanding l →
  outstanding_refs l ≡ₚ ((ot_message ∘ snd) <$> map_to_list sub)
                       ++ outstanding_refs (set_outstanding (outstanding l ∖ sub) l).
Proof.
  intros Hsub. unfold outstanding_refs. cbn.
  rewrite <-(map_difference_union _ _ Hsub) at 1.
  rewrite map_to_list_union by (by apply map_disjoint_difference_r1).
  by rewrite fmap_app.
Qed.

Lemma release_refs_log refs w :
  (release_refs settings worker refs w).2 = match refs with [] => [] | _ => [DoRelease refs] end.
Proof. by destruct refs. Qed.
Lemma release_refs_quiet refs w : Forall quiet (release_refs settings worker refs w).2.
Proof. rewrite release_refs_log. destruct refs; repeat constructor. Qed.

Lemma stop_claiming_inv seen l w w' l' a log :
  loop_inv l log → stop_claiming settings worker seen l w = (w', l', a) →
  loop_inv l' (log ++ a).
Proof.
  intros Hl. unfold stop_claiming.
  set (refs := (PendingRow.message <$> pending l) ++ _).
  destruct (release_refs settings worker refs w) as [w1 a1] eqn:Hrel. intros [= <- <- <-].
  pose proof (release_refs_quiet refs w) as Hq. rewrite Hrel in Hq. cbn in Hq.
  rewrite app_assoc. apply (linv_quiet _ l log a1 Hq) in Hl; try done.
  pose proof Hl as [[Hc Hp Hf] Ht Hfr Hpub Hdec _ _].
  assert (Hsub : not_yet_permitted seen l ⊆ outstanding l) by apply map_filter_subseteq.
  pose proof (outstanding_refs_split l _ Hsub) as Hsplit.
  apply (linv_extend_nowrite l); cbn; try done.
  - unfold outstanding_refs in *. cbn in *.
    constructor; unfold outstanding_refs; cbn; ledger_simpl; unfold refs; ledger_perm.
  - apply Forall_forall. by intros x (m & -> & _)%list_elem_of_fmap.
  - apply (tasks_ok_subset _ _ (outstanding l)); [by apply map_subseteq_difference_l|].
    intros id t. rewrite map_lookup_imap. destruct (in_flight l !! id) as [t0|] eqn:Hid; [|done].
    cbn. intros [= <-]. specialize (Ht _ _ Hid). by case_bool_decide.
  - intros id [Hi Ho]%Hfr. rewrite map_lookup_imap, Hi. split; [done|].
    apply lookup_difference_None. by left.
  - intros m. ledger_simpl. by intros ?%elem_of_nil.
Qed.

Lemma finish_drain_inv perm l w w' l' a perm' log :
  loop_inv l log → finish_drain settings worker perm l w = (w', l', a, perm') →
  loop_inv l' (log ++ a).
Proof.
  intros Hl. unfold finish_drain.
  assert (Hr : ∃ w1 l1 a1 perm1,
    match perm with
    | Some e => (w, l, [], Some e)
    | None => let '(w, l, a, out) := retry_unwritten_outcomes settings worker l w in
              (w, l, a, permanent out)
    end = (w1, l1, a1, perm1) ∧ loop_inv l1 (log ++ a1)).
  { destruct perm as [e|]; [by exists w, l, [], (Some e); rewrite app_nil_r|].
    destruct (retry_unwritten_outcomes settings worker l w) as [[[w1 l1] a1] out] eqn:Hr.
    exists w1, l1, a1, (permanent out). split; [done|].
    by eapply retry_unwritten_outcomes_inv. }
  destruct Hr as (w1 & l1 & a1 & perm1 & -> & Hl1). clear Hl.
  set (refs := outstanding_refs l1 ++ _).
  destruct (release_refs settings worker refs w1) as [w2 a2] eqn:Hrel. intros [= <- <- <- <-].
  pose proof (release_refs_quiet refs w1) as Hq. rewrite Hrel in Hq. cbn in Hq.
  rewrite app_assoc. rewrite (app_assoc _ a2).
  apply (linv_quiet _ l1 (log ++ a1) a2 Hq) in Hl1; try done.
  pose proof Hl1 as [[Hc Hp Hf] Ht Hfr Hpub Hdec _ _].
  apply (linv_extend_nowrite l1); cbn; try done.
  - unfold outstanding_refs in *.
    constructor; unfold outstanding_refs; cbn; rewrite ?map_to_list_empty; cbn;
      ledger_simpl; ledger_perm.
  - apply Forall_forall. intros x [Hx|Hx]%elem_of_app; [|by apply events_no_write in Hx].
    by apply list_elem_of_fmap in Hx as (m & -> & _).
  - apply (tasks_ok_subset _ _ (outstanding l1)); [apply map_empty_subseteq|done].
  - intros id [Hi Ho]%Hfr. by split; [|apply lookup_empty].
  - intros m. ledger_simpl. by intros ?%elem_of_nil.
Qed.

(** ** Publish tasks *)

Lemma set_task_inv id t t' l log a :
  loop_inv l log → in_flight l !! id = Some t → job t' = job t →
  Forall (λ x, writes x = false) a →
  (∀ f : entry → option MessageRef.t, (∀ m, f (BrokerAcked m) = None) → ledger f a = []) →
  (∀ out, status t' = Finished (JOutcome out) →
     outcome_ref out = PublishJob.message (job t)
     ∧ match out with Published m _ => m ∈ ledger is_acked a | Failed _ _ _ _ => True end) →
  loop_inv (set_task id t' l) (log ++ a).
Proof.
  intros Hl Hid Hjob Hw Hnil Hout. pose proof Hl as [[Hc Hp Hf] Ht Hfr Hpub Hdec _ _].
  apply (linv_extend_nowrite l); cbn; try done.
  - constructor; unfold outstanding_refs in *; cbn; rewrite !ledger_app, !(Hnil _ (λ _, eq_refl)),
      ?app_nil_r; done.
  - apply (tasks_ok_subset log a _ (outstanding l)) in Ht; [|done].
    apply map_Forall_insert_2; [|done]. destruct (Ht _ _ Hid) as [Hm _]. split.
    + intros ot. rewrite Hjob. apply Hm.
    + destruct (status t') as [| |[out| |]] eqn:Hs; try done.
      destruct (Hout out eq_refl) as [Hr Ha]. rewrite Hjob. split; [done|].
      destruct out; [|done]. rewrite ledger_app. apply elem_of_app. by right.
  - intros id' Hle. destruct (Hfr id' Hle) as [Hi Ho]. split; [|done].
    rewrite lookup_insert_ne; [done|]. intros ->. by rewrite Hi in Hid.
  - intros m. rewrite (Hnil _ (λ _, eq_refl)). by intros ?%elem_of_nil.
Qed.

Lemma task_step_inv (e : event W) (s s' : sys W E) :
  loop_inv (loop s) (log s) → task_step settings e s = Some s' →
  loop_inv (loop s') (log s').
Proof.
  intros Hl. destruct e; cbn; try done.
  all: destruct (in_flight (loop s) !! id) as [t|] eqn:Hid; cbn; [|done].
  - destruct (status t); try done. destruct (_ <? _); [|done]. intros [= <-].
    by apply (set_task_inv _ t).
  - destruct (status t); try done. destruct a; try done; intros [= <-];
      (apply (set_task_inv _ t); [done..|by repeat constructor| |]).
    + intros f Hf. rewrite !ledger_cons. cbn. by rewrite Hf.
    + intros out [= <-]. cbn. split; [done|]. left.
    + intros f Hf. by rewrite !ledger_cons.
    + by intros out [= <-].
    + intros f Hf. by rewrite !ledger_cons.
    + by intros out [= <-].
  - destruct (status t); try done. intros [= <-]. by apply (set_task_inv _ t).
  - destruct (status t); try done; destruct (aborted t); try done; intros [= <-];
      by apply (set_task_inv _ t).
Qed.

End inv.
