(* ===== verification/DispatcherSys.v ===== *)
(** * The invariant of a running dispatcher ([reliar-outbox], dispatcher.rs)

    [sys_inv] holds in every reachable state: the ledger of [DispatcherInv], and per
    phase what the claim gate, the drain and the end of the run guarantee. *)

From S2P Require Import Prelude RustString CoreTypes CoreHeaders CoreEnvelope OutboxTypes.
From S2P Require Import OutboxRetry OutboxSettings StoreInterface Dispatcher DispatcherInv.

(** Settings a dispatcher can be built with: validated, and of the fields' types. *)
Definition settings_ok (s : DispatcherSettings.t) : Prop :=
  validate_shared s = Ok ()
  ∧ 0 ≤ DispatcherSettings.batch_size s ≤ U32_MAX
  ∧ 0 ≤ DispatcherSettings.max_in_flight s.

Lemma settings_ok_positive s :
  settings_ok s →
  1 ≤ DispatcherSettings.batch_size s ≤ U32_MAX ∧ 1 ≤ DispatcherSettings.max_in_flight s.
Proof.
  intros (Hv & Hb & Hm). unfold validate_shared in Hv.
  destruct (DispatcherSettings.max_in_flight s =? 0) eqn:E1; [done|].
  destruct (DispatcherSettings.batch_size s =? 0) eqn:E2; [done|]. lia.
Qed.

Section sys.
Context {W E R : Type} `{Clock W, OutboxStore W E, RetryPolicy R}.
Context (settings : DispatcherSettings.t) (worker : WorkerId.t) (retry : R).

(** Every task in the set has its entry. *)
Definition tracked (l : Loop) : Prop :=
  ∀ id, is_Some (in_flight l !! id) → is_Some (outstanding l !! id).

(** ** Spawning keeps the count of rows held *)

Lemma spawn_row_tracked pt row l : tracked l → tracked (spawn_row pt row l).
Proof.
  intros Ht id. cbn. destruct (decide (id = next_task l)) as [->|Hne].
  - by rewrite !lookup_insert_eq.
  - rewrite !lookup_insert_ne by done. apply Ht.
Qed.

Lemma spawn_ready_frame pt l :
  (∀ id, (next_task l ≤ id)%nat → in_flight l !! id = None ∧ outstanding l !! id = None) →
  tracked l →
  pending (spawn_ready pt l) = [] ∧ tracked (spawn_ready pt l)
  ∧ outstanding_count (spawn_ready pt l) = (outstanding_count l + length (pending l))%nat.
Proof.
  intros Hfr Ht. unfold spawn_ready.
  change (outstanding_count l) with (outstanding_count (set_pending [] l)).
  assert (Hp : pending (set_pending [] l) = []) by done.
  assert (Ht' : tracked (set_pending [] l)) by done.
  assert (Hfr' : ∀ id, (next_task (set_pending [] l) ≤ id)%nat →
    outstanding (set_pending [] l) !! id = None) by (by intros id [_ ?]%Hfr).
  revert Hp Ht' Hfr'. generalize (set_pending [] l). clear Hfr Ht.
  induction (pending l) as [|row rows IH]; intros l0 Hp Ht Hfr; cbn [fold_left length].
  { split_and!; [done|done|lia]. }
  destruct (IH (spawn_row pt row l0)) as (? & ? & ->); [done|by apply spawn_row_tracked|..].
  { cbn. intros id Hid. rewrite lookup_insert_ne by lia. apply Hfr. lia. }
  split_and!; [done|done|]. unfold outstanding_count. cbn.
  rewrite map_size_insert_None by (by apply Hfr). lia.
Qed.

(** ** The claim gate *)

Definition acquires (log : list action) : list AcquireRequest.t :=
  omap (λ a, match a with DoAcquire r => Some r | _ => None end) log.
Arguments acquires : simpl never.
Lemma acquires_app l1 l2 : acquires (l1 ++ l2) = acquires l1 ++ acquires l2.
Proof. apply omap_app. Qed.

(** A request of this worker within its limits. *)
Definition request_ok (r : AcquireRequest.t) : Prop :=
  AcquireRequest.worker r = worker
  ∧ AcquireRequest.lease r = DispatcherSettings.lease settings
  ∧ AcquireRequest.ordering r = DispatcherSettings.ordering settings
  ∧ 1 ≤ AcquireRequest.batch_size r
      ≤ Z.min (DispatcherSettings.batch_size settings)
          (DispatcherSettings.max_in_flight settings).

Lemma claim_request_ok count :
  settings_ok settings → Z.of_nat count < DispatcherSettings.max_in_flight settings →
  request_ok (claim_request settings worker count)
  ∧ AcquireRequest.batch_size (claim_request settings worker count)
    ≤ DispatcherSettings.max_in_flight settings - Z.of_nat count.
Proof.
  intros Hs%settings_ok_positive Hc. unfold request_ok, claim_request. cbn.
  split_and!; try done; unfold U32_MAX in *; lia.
Qed.

(** The loop while it runs. *)
Record running_ok (l : Loop) : Prop := {
  ro_pending : pending l = [];
  ro_tracked : tracked l;
  ro_count : Z.of_nat (outstanding_count l) ≤ DispatcherSettings.max_in_flight settings;
}.

Lemma running_ok_same l l' :
  same_tasks l l' → (outstanding_count l' ≤ outstanding_count l)%nat →
  running_ok l → running_ok l'.
Proof.
  intros (Hp & Hf & Ho & _) Hc [Hp' Ht Hc']. constructor; [congruence| |lia].
  intros id. rewrite Hf, Ho. apply Ht.
Qed.

Lemma poll_running `{!OutboxStoreLaws W E} count l w w' a l' :
  settings_ok settings → Z.of_nat count < DispatcherSettings.max_in_flight settings →
  (outstanding_count l ≤ count)%nat →
  (∀ id, (next_task l ≤ id)%nat → in_flight l !! id = None ∧ outstanding l !! id = None) →
  poll settings worker count l w = (w', a, inl l') → running_ok l → running_ok l'.
Proof.
  intros Hs Hcap Hle Hfr Hpoll [Hp Ht Hc]. unfold poll in Hpoll.
  destruct (claim_request_ok count Hs Hcap) as [(_ & _ & _ & Hpos) Hroom].
  destruct (acquire _ _ w) as [w1 [[b|e]|]] eqn:Ha.
  - apply acquire_bounded in Ha; [|lia].
    destruct (AcquiredBatch.is_empty b); injection Hpoll as _ _ <-; [by constructor|].
    edestruct (spawn_ready_frame (DispatcherSettings.publish_timeout settings)) as (Hp1 & Ht1 & Hc1);
      [..|constructor; [exact Hp1|exact Ht1|rewrite Hc1]]; cbn; [done|done|].
    rewrite Hp. cbn. rewrite length_fmap.
    change (outstanding_count (set_pending _ (set_next_poll _ l))) with (outstanding_count l). lia.
  - case_bool_decide; [done|]. injection Hpoll as _ _ <-. by constructor.
  - injection Hpoll as _ _ <-. by constructor.
Qed.

Lemma joined_running now js l f l' :
  running_ok l → take_finished js (in_flight l) = Some f →
  ∀ a', record_publish_results retry now js (set_in_flight f l) = Some (l', a') → running_ok l'.
Proof.
  intros [Hp Ht Hc] (Hnd & Hin & Hout & Hall)%take_finished_spec a' Hr.
  apply record_publish_results_frame in Hr as (Hf' & Hp' & Ho' & Hc'); [|done|].
  - constructor; [by rewrite Hp'| |].
    + intros id. rewrite Hf'. cbn. destruct (decide (id ∈ (j_id <$> js))) as [Hj|Hj].
      * rewrite Hin by done. by intros [? ?].
      * rewrite Ho', Hout by done. apply Ht.
    + unfold outstanding_count in *. cbn in Hc'. lia.
  - eapply Forall_impl; [exact Hall|]. intros j (t & Hj & _). cbn. apply Ht. by eexists.
Qed.

(** ** Only the poll branch claims *)

Lemma acquires_cons a log :
  acquires (a :: log) = match a with DoAcquire r => [r] | _ => [] end ++ acquires log.
Proof. by destruct a. Qed.
Lemma acquires_events {T} (c : MessageRef.t → entry) (g : T → MessageRef.t) (l : list T) :
  acquires ((Event ∘ c ∘ g) <$> l) = [].
Proof. induction l as [|x l IH]; [done|]. exact IH. Qed.
Lemma acquires_events_id (c : MessageRef.t → entry) l : acquires ((Event ∘ c) <$> l) = [].
Proof. induction l as [|x l IH]; [done|]. exact IH. Qed.
Lemma acquires_complete_actions uc : acquires (complete_actions uc) = [].
Proof. by destruct uc. Qed.
Lemma acquires_fail_actions uf : acquires (fail_actions uf) = [].
Proof. by destruct uf. Qed.
Lemma acquires_release refs w : acquires (release_refs settings worker refs w).2 = [].
Proof. rewrite release_refs_log. by destruct refs. Qed.

Create Rewrite HintDb acquires.
#[local] Hint Rewrite acquires_app @acquires_events acquires_events_id acquires_complete_actions
  acquires_fail_actions acquires_release acquires_cons : acquires.
Ltac acquires_simpl := autorewrite with acquires; try reflexivity.

Lemma acquires_record_publish_results now js l l' a :
  record_publish_results retry now js l = Some (l', a) → acquires a = [].
Proof.
  revert l l' a; induction js as [|j js IH]; intros l l' a; cbn; [by intros [= <- <-]|].
  destruct (record_result retry now j l) as [[l1 a1]|] eqn:Hr; cbn; [|done].
  destruct (record_publish_results retry now js l1) as [[l2 a2]|] eqn:Hrs; cbn; [|done].
  intros [= <- <-]. rewrite acquires_app, (IH _ _ _ Hrs), app_nil_r.
  unfold record_result in Hr. destruct (j_result j) as [[m ty|m n k e]| |].
  - by injection Hr as <- <-.
  - destruct (next retry _ _ _); cbn in Hr; [|done]. by injection Hr as <- <-.
  - injection Hr as <- <-. by destruct (outstanding l !! j_id j).
  - injection Hr as <- <-. by destruct (outstanding l !! j_id j).
Qed.

Lemma acquires_retry_unwritten l w w' l' a out :
  retry_unwritten_outcomes settings worker l w = (w', l', a, out) → acquires a = [].
Proof.
  unfold retry_unwritten_outcomes.
  destruct (write_half settings _ (unwritten_complete l) w) as [w1 [uc wrote gave fc|e]].
  - destruct (write_half settings _ (unwritten_fail l) w1) as [w2 [uf wrote' gave' ff|e]];
      intros [= <- <- <- <-]; acquires_simpl.
  - intros [= <- <- <- <-]. acquires_simpl.
Qed.

Lemma acquires_retry_dropped p l w w' l' a :
  retry_dropped settings worker p l w = Some (w', l', a) → acquires a = [].
Proof.
  unfold retry_dropped. destruct p; [by intros [= <- <- <-]|..].
  - destruct (unwritten_complete l); [done|]. destruct (_ <=? _); [|done].
    by intros [= <- <- <-].
  - destruct (unwritten_fail l); [done|]. destruct (_ <=? _); [|done].
    destruct (write_half settings _ (unwritten_complete l) w) as [w1 [uc wrote gave fc|e]]; [|done].
    intros [= <- <- <-]. by acquires_simpl.
Qed.

Lemma acquires_stop_claiming seen l w w' l' a :
  stop_claiming settings worker seen l w = (w', l', a) → acquires a = [].
Proof.
  unfold stop_claiming. set (refs := (PendingRow.message <$> pending l) ++ _).
  destruct (release_refs settings worker refs w) as [w1 a1] eqn:Hrel. intros [= <- <- <-].
  pose proof (acquires_release refs w) as Ha. rewrite Hrel in Ha. cbn [snd] in Ha.
  by rewrite acquires_app, Ha, acquires_events_id.
Qed.

Lemma acquires_finish_drain perm l w w' l' a perm' :
  finish_drain settings worker perm l w = (w', l', a, perm') → acquires a = [].
Proof.
  unfold finish_drain.
  assert (Hr : ∃ w1 l1 a1 perm1,
    match perm with
    | Some e => (w, l, [], Some e)
    | None => let '(w, l, a, out) := retry_unwritten_outcomes settings worker l w in
              (w, l, a, permanent out)
    end = (w1, l1, a1, perm1) ∧ acquires a1 = []).
  { destruct perm as [e|]; [by exists w, l, [], (Some e)|].
    destruct (retry_unwritten_outcomes settings worker l w) as [[[w1 l1] a1] out] eqn:Hr.
    exists w1, l1, a1, (permanent out). split; [done|]. by eapply acquires_retry_unwritten. }
  destruct Hr as (w1 & l1 & a1 & perm1 & -> & Hl1).
  set (refs := outstanding_refs l1 ++ _).
  destruct (release_refs settings worker refs w1) as [w2 a2] eqn:Hrel. intros [= <- <- <- <-].
  pose proof (acquires_release refs w1) as Ha. rewrite Hrel in Ha. cbn [snd] in Ha.
  by rewrite !acquires_app, Hl1, Ha, !acquires_events_id.
Qed.

Lemma acquires_poll count l w w' a r :
  poll settings worker count l w = (w', a, r) →
  acquires a = [claim_request settings worker count].
Proof.
  unfold poll. destruct (acquire _ _ w) as [w1 [[b|e]|]].
  - destruct (AcquiredBatch.poisoned b), (AcquiredBatch.is_empty b); intros [= <- <- <-];
      acquires_simpl.
  - case_bool_decide; by intros [= <- <- <-].
  - by intros [= <- <- <-].
Qed.

(** ** Permanent errors *)

Definition all_permanent (o : option E) : Prop := ∀ e, o = Some e → kind e = Permanent.

Lemma write_half_permanent {T} (write : list T → W → W * call Z E) u w w' e :
  write_half settings write u w = (w', HalfPermanent e) → kind e = Permanent.
Proof.
  unfold write_half. destruct u; [done|]. destruct (write _ w) as [w1 c].
  destruct (bounded _ c) as [n|[e'|d]]; [done| |done].
  case_bool_decide; [by intros [= _ <-]|done].
Qed.

Lemma retry_unwritten_permanent l w w' l' a out :
  retry_unwritten_outcomes settings worker l w = (w', l', a, out) →
  all_permanent (permanent out).
Proof.
  unfold retry_unwritten_outcomes, all_permanent.
  destruct (write_half settings _ (unwritten_complete l) w) as [w1 [uc wrote gave fc|e]] eqn:Ec.
  - destruct (write_half settings _ (unwritten_fail l) w1) as [w2 [uf wrote' gave' ff|e]] eqn:Ef;
      intros [= <- <- <- <-]; cbn; [done|].
    intros e' [= <-]. by eapply write_half_permanent.
  - intros [= <- <- <- <-] e' [= <-]. by eapply write_half_permanent.
Qed.

Lemma poll_permanent count l w w' a e :
  poll settings worker count l w = (w', a, inr e) → kind e = Permanent.
Proof.
  unfold poll. destruct (acquire _ _ w) as [w1 [[b|e']|]]; [by destruct (AcquiredBatch.is_empty b)| |done].
  case_bool_decide; [by intros [= _ _ <-]|done].
Qed.

Lemma finish_drain_facts perm l w w' l' a perm' :
  finish_drain settings worker perm l w = (w', l', a, perm') →
  all_permanent perm →
  pending l' = pending l ∧ outstanding l' = ∅ ∧ unwritten_fail l' = [] ∧ all_permanent perm'.
Proof.
  unfold finish_drain. intros Hfin Hperm.
  destruct perm as [e|].
  - destruct (release_refs settings worker _ w) as [w2 a2]. by injection Hfin as <- <- <- <-.
  - destruct (retry_unwritten_outcomes settings worker l w) as [[[w1 l1] a1] out] eqn:Hr.
    destruct (release_refs settings worker _ w1) as [w2 a2]. injection Hfin as <- <- <- <-. cbn.
    pose proof (retry_unwritten_permanent _ _ _ _ _ _ Hr).
    by apply retry_unwritten_outcomes_frame in Hr as [(-> & _) _].
Qed.

(** ** The invariant *)

Definition phase_ok (l : Loop) (token : bool) (ph : phase E) : Prop :=
  match ph with
  | Running => running_ok l
  | Draining _ perm reason =>
      pending l = [] ∧ (reason = None → token = true)
      ∧ all_permanent perm ∧ all_permanent reason
  | Stopped r =>
      pending l = [] ∧ outstanding l = ∅ ∧ unwritten_fail l = []
      ∧ match r with
        | Ok _ => token = true
        | Err (Store e) => kind e = Permanent
        | Err (Configuration _) => False
        end
  | Crashed => True
  end.

Record sys_inv (s : sys W E) : Prop := {
  si_loop : loop_inv retry (loop s) (log s);
  si_phase : phase_ok (loop s) (cancelled s) (at_phase s);
  si_requests : Forall request_ok (acquires (log s));
}.

(** Only the poll may add requests; the rest keep the list. *)
Lemma sys_inv_of l ph w token log0 a :
  loop_inv retry l (log0 ++ a) → phase_ok l token ph →
  Forall request_ok (acquires log0) → Forall request_ok (acquires a) →
  sys_inv (mkSys l ph w token (log0 ++ a)).
Proof. intros. constructor; cbn; [done|done|]. rewrite acquires_app. by apply Forall_app_2. Qed.

Lemma leave_inv seen reason (s : sys W E) :
  loop_inv retry (loop s) (log s) → Forall request_ok (acquires (log s)) →
  (reason = None → cancelled s = true) → all_permanent reason →
  sys_inv (leave settings worker seen reason s).
Proof.
  intros Hl Hreq Hnone Hperm. unfold leave.
  destruct (stop_claiming settings worker seen (loop s) (world s)) as [[w l] a] eqn:Hsc.
  apply sys_inv_of; [by eapply stop_claiming_inv| |done|by rewrite (acquires_stop_claiming _ _ _ _ _ _ Hsc)].
  split_and!; try done.
  unfold stop_claiming in Hsc. destruct (release_refs _ _ _ _). by injection Hsc as <- <- <-.
Qed.

Lemma retry_branch_inv l w w' l' a perm log0 :
  loop_inv retry l log0 → running_ok l →
  retry_branch settings worker l w = (w', l', a, perm) →
  loop_inv retry l' (log0 ++ a) ∧ running_ok l' ∧ all_permanent perm ∧ acquires a = [].
Proof.
  intros Hl Hro. unfold retry_branch.
  destruct (retry_unwritten_outcomes settings worker l w) as [[[w1 l1] a1] out] eqn:Hr.
  intros [= <- <- <- <-].
  pose proof (retry_unwritten_outcomes_frame _ _ _ _ _ _ _ _ Hr) as [Hs Hc].
  pose proof (running_ok_same _ _ Hs Hc Hro) as [].
  split_and!.
  - eapply (retry_unwritten_outcomes_inv _ _ retry) in Hr; [|exact Hl].
    rewrite <-(app_nil_r a1), app_assoc. by apply (linv_quiet _ l1).
  - by constructor.
  - by eapply retry_unwritten_permanent.
  - by eapply acquires_retry_unwritten.
Qed.

(** ** Every step keeps it *)

Lemma take_branch_inv `{!OutboxStoreLaws W E} count refs b seen (s s' : sys W E) :
  settings_ok settings →
  loop_inv retry (loop s) (log s) → running_ok (loop s) → Forall request_ok (acquires (log s)) →
  at_phase s = Running → (outstanding_count (loop s) ≤ count)%nat →
  (b = BCancelled → cancelled s = true) →
  take_branch settings worker retry count refs b seen s = Some s' → sys_inv s'.
Proof.
  intros Hok Hl Hro Hreq Hph Hcount Hb. destruct s as [l ph w token log0]. cbn in *. subst ph.
  destruct b as [|js| | | |]; cbn [take_branch loop world].
  - intros [= <-]. apply leave_inv; auto. by intros ? [=].
  - destruct js as [|j js]; [done|].
    destruct (take_finished _ _) as [f|] eqn:Hf; cbn -[record_publish_results]; [|done].
    destruct (take_finished_inv _ _ _ _ _ Hl Hf) as [Hl' Hjs].
    destruct (record_publish_results retry _ (j :: js) _) as [[l1 a1]|] eqn:Hr; intros [= <-].
    + pose proof (joined_running _ _ _ _ _ Hro Hf _ Hr) as [].
      pose proof (record_publish_results_inv retry _ _ _ _ _ _ Hl' Hjs Hr) as Hl1.
      destruct (spawn_ready_frame (DispatcherSettings.publish_timeout settings) l1) as (? & ? & Hc);
        [by apply (li_fresh _ _ _ Hl1)|done|].
      apply sys_inv_of; cbn; [by apply spawn_ready_inv|constructor; try done|done|].
      * rewrite Hc, ro_pending0. cbn. lia.
      * by rewrite (acquires_record_publish_results _ _ _ _ _ Hr).
    + constructor; [done|done|done].
  - destruct (0 <? count)%nat; [|done]. unfold renew_leases. intros [= <-].
    apply sys_inv_of; try done. by apply (linv_quiet _ l); [repeat constructor|..].
  - destruct (is_zero _); [done|]. unfold report_stats.
    destruct (stats _ w) as [w1 c]. destruct (bounded _ c) as [st|e]; intros [= <-].
    + apply sys_inv_of; try done; [apply (linv_quiet _ l); try done|];
        by destruct (OutboxStats.lag st); repeat constructor.
    + apply sys_inv_of; try done. by apply (linv_quiet _ l); [repeat constructor|..].
  - destruct (has_unwritten l && _); [|done].
    destruct (retry_branch settings worker l w) as [[[w1 l1] a1] perm] eqn:Hr.
    destruct (retry_branch_inv _ _ _ _ _ _ _ Hl Hro Hr) as (Hl1 & Hro1 & Hp1 & Ha1).
    destruct perm as [e|]; intros [= <-].
    + apply leave_inv; cbn; try done. rewrite acquires_app, Ha1, app_nil_r. done.
    + apply sys_inv_of; try done. by rewrite Ha1.
  - destruct (_ && _) eqn:Hen; [|done]. apply andb_true_iff in Hen as [Hcap _].
    apply Z.ltb_lt in Hcap.
    destruct (poll settings worker count l w) as [[w1 a1] r] eqn:Hpoll.
    pose proof (poll_inv settings worker retry _ _ _ _ _ _ _ Hl Hpoll) as Hl1.
    pose proof (acquires_poll _ _ _ _ _ _ Hpoll) as Ha1.
    assert (Hreq1 : Forall request_ok (acquires a1)).
    { rewrite Ha1. constructor; [|done]. by apply claim_request_ok. }
    destruct r as [l1|e]; intros [= <-].
    + apply sys_inv_of; try done. cbn.
      eapply poll_running; [exact Hok|exact Hcap|exact Hcount| |exact Hpoll|exact Hro].
      apply (li_fresh _ _ _ Hl).
    + apply leave_inv; cbn; try done; [by rewrite acquires_app; apply Forall_app_2|].
      intros e' [= <-]. by eapply poll_permanent.
Qed.

Lemma iterate_inv `{!OutboxStoreLaws W E} p b seen (s s' : sys W E) :
  settings_ok settings → sys_inv s → iterate settings worker retry p b seen s = Some s' →
  sys_inv s'.
Proof.
  intros Hok [Hl Hph Hreq]. unfold iterate.
  destruct (at_phase s) eqn:Hrun; try done. destruct (wins p b _) eqn:Hw; [|done].
  destruct (retry_dropped settings worker p (loop s) (world s)) as [[[w l] a]|] eqn:Hd;
    cbn -[take_branch]; [|done].
  pose proof (retry_dropped_frame _ _ _ _ _ _ _ _ Hd) as [Hs Hc].
  apply take_branch_inv; cbn; try done.
  - by eapply retry_dropped_inv.
  - by eapply running_ok_same.
  - by rewrite acquires_app, (acquires_retry_dropped _ _ _ _ _ _ Hd), app_nil_r.
  - intros ->. done.
Qed.

Lemma drain_joined_inv js (s s' : sys W E) :
  sys_inv s → drain_joined settings worker retry js s = Some s' → sys_inv s'.
Proof.
  intros [Hl Hph Hreq]. unfold drain_joined.
  destruct (at_phase s) as [|deadline [e|] reason| |] eqn:Hd; try done.
  destruct js as [|j js]; [done|].
  destruct (take_finished _ _) as [f|] eqn:Hf; cbn -[record_publish_results]; [|done].
  destruct (take_finished_inv _ _ _ _ _ Hl Hf) as [Hl' Hjs].
  destruct (record_publish_results retry _ (j :: js) _) as [[l1 a1]|] eqn:Hr; [|by intros [= <-]].
  pose proof (record_publish_results_inv retry _ _ _ _ _ _ Hl' Hjs Hr) as Hl1.
  destruct (retry_unwritten_outcomes settings worker l1 (world s)) as [[[w2 l2] a2] out] eqn:Hu.
  intros [= <-]. destruct Hph as (Hp & Hr1 & Hr2 & Hr3).
  apply sys_inv_of; cbn; [| |done|].
  - rewrite app_assoc. by eapply retry_unwritten_outcomes_inv.
  - split_and!; try done; [|by eapply retry_unwritten_permanent].
    apply retry_unwritten_outcomes_frame in Hu as [(-> & _) _].
    by rewrite (record_publish_results_pending _ _ _ _ _ _ Hr).
  - by rewrite acquires_app, (acquires_record_publish_results _ _ _ _ _ Hr),
      (acquires_retry_unwritten _ _ _ _ _ _ Hu).
Qed.

Lemma drain_end_inv (s s' : sys W E) :
  sys_inv s → drain_end settings worker s = Some s' → sys_inv s'.
Proof.
  intros [Hl Hph Hreq]. unfold drain_end.
  destruct (at_phase s) as [|deadline perm reason| |] eqn:Hd; try done.
  destruct (_ || _ || _); [|done].
  destruct (finish_drain settings worker perm (loop s) (world s)) as [[[w l] a] perm'] eqn:Hf.
  intros [= <-]. destruct Hph as (Hp & Hr1 & Hr2 & Hr3).
  destruct (finish_drain_facts _ _ _ _ _ _ _ Hf Hr2) as (Hp' & Ho & Hu & Hperm).
  apply sys_inv_of; [by eapply finish_drain_inv| |done|by rewrite (acquires_finish_drain _ _ _ _ _ _ _ Hf)].
  split_and!; [by rewrite Hp'|done|done|].
  destruct reason as [e|]; [by apply Hr3|]. destruct perm' as [e|]; [by apply Hperm|by apply Hr1].
Qed.

(** How far a task is from being joined. *)
Definition weight (t : task) : nat :=
  match status t with Waiting => 3 | Publishing => 2 | Finished _ => 1 end.

Ltac moved Hid Hs :=
  do 4 eexists; split; [exact Hid|]; split; [reflexivity|];
  rewrite Hs; cbn; split_and!; try done; lia.

(** A step of a task moves it on, and changes nothing else of the loop. *)
Lemma task_step_shape (e : event W) (s s' : sys W E) :
  task_step settings e s = Some s' →
  ∃ id t t' a, in_flight (loop s) !! id = Some t
    ∧ s' = with_loop (set_task id t' (loop s)) (world s) a s
    ∧ job t' = job t ∧ (weight t' < weight t)%nat
    ∧ acquires a = [] ∧ ledger is_shutdown a = [].
Proof.
  unfold weight. destruct e; cbn; try done.
  all: destruct (in_flight (loop s) !! id) as [t|] eqn:Hid; cbn; [|done].
  - destruct (status t) eqn:Hs; try done. destruct (_ <? _); [|done]. intros [= <-].
    moved Hid Hs.
  - destruct (status t) eqn:Hs; try done. destruct a; try done; intros [= <-];
      moved Hid Hs.
  - destruct (status t) eqn:Hs; try done. intros [= <-].
    moved Hid Hs.
  - destruct (status t) eqn:Hs; try done; destruct (aborted t); try done; intros [= <-];
      moved Hid Hs.
Qed.

Lemma task_step_sys_inv (e : event W) (s s' : sys W E) :
  sys_inv s → task_step settings e s = Some s' → sys_inv s'.
Proof.
  intros [Hl Hph Hreq] Hs. pose proof (task_step_inv settings retry _ _ _ Hl Hs) as Hl'.
  apply task_step_shape in Hs as (id & t & t' & a & Hid & -> & Hjob & _ & Ha & _).
  apply sys_inv_of; [done| |done|by rewrite Ha].
  destruct (at_phase s) as [|deadline perm reason|r|]; try done.
  destruct Hph as [Hp Ht Hc]. constructor; try done.
  intros id'. cbn. destruct (decide (id' = id)) as [->|Hne].
  - intros _. apply Ht. by eexists.
  - rewrite lookup_insert_ne by done. apply Ht.
Qed.

Lemma step_inv `{!OutboxStoreLaws W E} (e : event W) (s s' : sys W E) :
  settings_ok settings → sys_inv s → step settings worker retry e s = Some s' → sys_inv s'.
Proof.
  intros Hok Hs. unfold step. destruct (stopped s) eqn:Hst; [done|].
  destruct e; try apply (task_step_sys_inv _ _ _ Hs).
  - by apply iterate_inv.
  - intros [= <-]. destruct Hs as [Hl Hph Hreq]. constructor; cbn; try done.
    unfold stopped in Hst. destruct (at_phase s); try done. destruct Hph as (?&?&?&?).
    by split_and!.
  - intros [= <-]. by destruct Hs.
  - by apply drain_joined_inv.
  - by apply drain_end_inv.
Qed.

Lemma initial_inv w : settings_ok settings → sys_inv (initial w).
Proof.
  intros Hs%settings_ok_positive. constructor; cbn.
  - constructor; cbn; try done.
    + by intros items ?%elem_of_nil.
    + by intros items ?%elem_of_nil.
  - constructor; cbn; [done|by intros id [? ?]|]. change (0 ≤ DispatcherSettings.max_in_flight settings). lia.
  - constructor.
Qed.

Lemma reachable_inv `{!OutboxStoreLaws W E} (s : sys W E) :
  settings_ok settings → reachable settings worker retry s → sys_inv s.
Proof.
  intros Hok. induction 1 as [w|e s s' _ IH Hs]; [by apply initial_inv|].
  by eapply step_inv.
Qed.

(** ** Nothing is released, and no task is joined late, while the loop runs *)

Abbreviation calm a := (ledger is_shutdown a = []).

Lemma record_publish_results_calm now js l l' a :
  record_publish_results retry now js l = Some (l', a) →
  NoDup (j_id <$> js) → Forall (λ j, is_Some (outstanding l !! j_id j)) js → calm a.
Proof.
  revert l l' a; induction js as [|j js IH]; intros l l' a; cbn; [by intros [= <- <-]|].
  destruct (record_result retry now j l) as [[l1 a1]|] eqn:Hr; cbn; [|done].
  destruct (record_publish_results retry now js l1) as [[l2 a2]|] eqn:Hrs; cbn; [|done].
  intros [= <- <-] [Hj Hnd]%NoDup_cons [[ot Ho] Hos]%Forall_cons. rewrite ledger_app.
  pose proof (record_result_frame _ _ _ _ _ _ Hr) as (Ho1 & _).
  rewrite (IH _ _ _ Hrs Hnd), app_nil_r.
  - unfold record_result in Hr. rewrite Ho in Hr. rewrite bool_decide_eq_false_2 in Hr by done.
    destruct (j_result j) as [[m ty|m n k e]| |]; [by injection Hr as <- <-| |by injection Hr as <- <-..].
    destruct (next retry _ _ _); cbn in Hr; [by injection Hr as <- <-|done].
  - rewrite Forall_forall in *. intros j' Hj'. rewrite Ho1, lookup_delete_ne; [by apply Hos|].
    intros Heq. apply Hj. rewrite Heq. by apply list_elem_of_fmap_2.
Qed.

Lemma retry_unwritten_calm l w w' l' a out :
  retry_unwritten_outcomes settings worker l w = (w', l', a, out) → calm a.
Proof.
  unfold retry_unwritten_outcomes.
  destruct (write_half settings _ (unwritten_complete l) w) as [w1 [uc wrote gave fc|e]].
  - destruct (write_half settings _ (unwritten_fail l) w1) as [w2 [uf wrote' gave' ff|e]];
      intros [= <- <- <- <-]; by ledger_simpl.
  - intros [= <- <- <- <-]. by ledger_simpl.
Qed.

Lemma retry_dropped_calm p l w w' l' a :
  retry_dropped settings worker p l w = Some (w', l', a) → calm a.
Proof.
  unfold retry_dropped. destruct p; [by intros [= <- <- <-]|..].
  - destruct (unwritten_complete l); [done|]. destruct (_ <=? _); [|done].
    by intros [= <- <- <-].
  - destruct (unwritten_fail l); [done|]. destruct (_ <=? _); [|done].
    destruct (write_half settings _ (unwritten_complete l) w) as [w1 [uc wrote gave fc|e]]; [|done].
    intros [= <- <- <-]. by ledger_simpl.
Qed.

Lemma poll_calm count l w w' a r : poll settings worker count l w = (w', a, r) → calm a.
Proof.
  unfold poll. destruct (acquire _ _ w) as [w1 [[b|e]|]].
  - destruct (AcquiredBatch.poisoned b), (AcquiredBatch.is_empty b); intros [= <- <- <-];
      by ledger_simpl.
  - case_bool_decide; by intros [= <- <- <-].
  - by intros [= <- <- <-].
Qed.

Lemma calm_app a b : calm a → calm b → calm (a ++ b).
Proof. intros Ha Hb. by rewrite ledger_app, Ha, Hb. Qed.

Lemma take_branch_calm count refs b seen (s s' : sys W E) :
  running_ok (loop s) → calm (log s) → at_phase s = Running →
  take_branch settings worker retry count refs b seen s = Some s' →
  at_phase s' = Running → calm (log s').
Proof.
  intros [_ Ht _] Hcalm Hph. destruct s as [l ph w token log0]. cbn in *. subst ph.
  destruct b as [|js| | | |]; cbn [take_branch loop world].
  - intros [= <-]. unfold leave. cbn. by destruct (stop_claiming _ _ _ _ _) as [[??]?].
  - destruct js as [|j js]; [done|].
    destruct (take_finished _ _) as [f|] eqn:Hf; cbn -[record_publish_results]; [|done].
    apply take_finished_spec in Hf as (Hnd & _ & _ & Hall).
    destruct (record_publish_results retry _ (j :: js) _) as [[l1 a1]|] eqn:Hr; intros [= <-]; [|done].
    intros _. apply calm_app; [done|]. eapply record_publish_results_calm; [exact Hr|done|].
    eapply Forall_impl; [exact Hall|]. intros j' (t & Hj & _). cbn. apply Ht. by eexists.
  - destruct (0 <? count)%nat; [|done]. intros [= <-] _. by apply calm_app.
  - destruct (is_zero _); [done|]. unfold report_stats.
    destruct (stats _ w) as [w1 c]. destruct (bounded _ c) as [st|e]; intros [= <-] _.
    + apply calm_app; [done|]. by destruct (OutboxStats.lag st).
    + by apply calm_app.
  - destruct (has_unwritten l && _); [|done]. unfold retry_branch.
    destruct (retry_unwritten_outcomes settings worker l w) as [[[w1 l1] a1] out] eqn:Hr.
    destruct (permanent out); intros [= <-].
    + unfold leave. cbn. by destruct (stop_claiming _ _ _ _ _) as [[??]?].
    + intros _. apply calm_app; [done|]. by eapply retry_unwritten_calm.
  - destruct (_ && _); [|done].
    destruct (poll settings worker count l w) as [[w1 a1] [l1|e]] eqn:Hpoll; intros [= <-].
    + intros _. apply calm_app; [done|]. by eapply poll_calm.
    + unfold leave. cbn. by destruct (stop_claiming _ _ _ _ _) as [[??]?].
Qed.

Lemma reachable_calm `{!OutboxStoreLaws W E} (s : sys W E) :
  settings_ok settings → reachable settings worker retry s → at_phase s = Running → calm (log s).
Proof.
  intros Hok Hr0. induction Hr0 as [w|e s s' Hr0 IH Hs]; [done|].
  pose proof (reachable_inv _ Hok Hr0) as [_ Hph _]. revert Hs. unfold step.
  destruct (stopped s) eqn:Hst; [done|].
  destruct e; try (by intros [= <-]);
    try (intros (? & ? & ? & ? & _ & -> & _ & _ & _ & Ha)%task_step_shape Hrun;
         apply calm_app; [by apply IH|done]).
  - unfold iterate. destruct (at_phase s) eqn:Hrun; try done. destruct (wins p b _); [|done].
    destruct (retry_dropped settings worker p (loop s) (world s)) as [[[w l] a]|] eqn:Hd;
      cbn -[take_branch]; [|done].
    apply take_branch_calm; cbn; [|apply calm_app; [by apply IH|by eapply retry_dropped_calm]|done].
    apply retry_dropped_frame in Hd as [??]. by eapply running_ok_same.
  - unfold drain_joined. destruct (at_phase s) as [|d [e|] r| |]; try done.
    destruct js; [done|]. destruct (take_finished _ _); cbn -[record_publish_results]; [|done].
    destruct (record_publish_results _ _ _ _) as [[??]|]; [|by intros [= <-]].
    destruct (retry_unwritten_outcomes _ _ _ _) as [[[??]?]?]. by intros [= <-].
  - unfold drain_end. destruct (at_phase s); try done. destruct (_ || _ || _); [|done].
    destruct (finish_drain _ _ _ _ _) as [[[??]?]?]. by intros [= <-].
Qed.
End sys.
