(* ===== verification/DispatcherReplay.v ===== *)
(** * The log accounts for the store ([reliar-outbox], dispatcher.rs)

    [effect] is what the call an action stands for does to the world of the store, and
    [replay] the effects of a log in order.  Whatever a step of the dispatcher's own
    does to the world is the replay of the actions it appends to the log: the theorems
    on the log speak of what happened to the store. *)

From S2P Require Import Prelude RustString CoreTypes CoreHeaders CoreEnvelope OutboxTypes.
From S2P Require Import OutboxRetry OutboxSettings StoreInterface Dispatcher DispatcherInv.

Section replay.
Context {W E R : Type} `{Clock W, OutboxStore W E, RetryPolicy R}.
Context (settings : DispatcherSettings.t) (worker : WorkerId.t) (retry : R).

Definition effect (a : action) (w : W) : W :=
  let store_timeout := DispatcherSettings.store_timeout settings in
  match a with
  | DoAcquire request => fst (acquire store_timeout request w)
  | DoComplete items => fst (complete store_timeout worker items w)
  | DoFail items => fst (fail store_timeout worker items w)
  | DoRelease refs => fst (release store_timeout worker refs w)
  | DoExtend refs => fst (extend_lease store_timeout worker refs (DispatcherSettings.lease settings) w)
  | DoStats => fst (stats store_timeout w)
  | Metric _ | Event _ => w
  end.

Definition replay (a : list action) (w : W) : W := fold_left (λ w x, effect x w) a w.

(** Actions without a call. *)
Definition silent (a : action) : bool :=
  match a with Metric _ | Event _ => true | _ => false end.

Lemma replay_app a b w : replay (a ++ b) w = replay b (replay a w).
Proof. apply fold_left_app. Qed.

Lemma replay_silent a w : Forall (λ x, silent x = true) a → replay a w = w.
Proof.
  unfold replay. induction 1 as [|x a Hx _ IH]; [done|]. cbn. by destruct x.
Qed.

Lemma replay_events {T} (c : MessageRef.t → entry) (g : T → MessageRef.t) (l : list T) w :
  replay ((Event ∘ c ∘ g) <$> l) w = w.
Proof. apply replay_silent, Forall_fmap, Forall_true. done. Qed.

Lemma replay_events_id (c : MessageRef.t → entry) l w : replay ((Event ∘ c) <$> l) w = w.
Proof. apply replay_silent, Forall_fmap, Forall_true. done. Qed.

Lemma replay_complete_actions u w :
  replay (complete_actions u) w
  = match u with [] => w | _ => fst (write_complete settings worker (snd <$> u) w) end.
Proof. by destruct u. Qed.

Lemma replay_fail_actions u w :
  replay (fail_actions u) w
  = match u with [] => w | _ => fst (write_fail settings worker (snd <$> u) w) end.
Proof. by destruct u. Qed.

Create Rewrite HintDb replay.
#[local] Hint Rewrite replay_app @replay_events replay_events_id replay_complete_actions
  replay_fail_actions : replay.

Lemma write_half_world {T} (write : list T → W → W * call Z E) u w w' h :
  write_half settings write u w = (w', h) →
  w' = match u with [] => w | _ => fst (write (snd <$> u) w) end.
Proof.
  unfold write_half. destruct u as [|p u]; [by intros [= <- _]|].
  destruct (write _ w) as [w1 c]. destruct (bounded _ c) as [|[e|]].
  - by intros [= <- _].
  - case_bool_decide; [by intros [= <- _]|]. destruct (expire_past_lease _ _). by intros [= <- _].
  - destruct (expire_past_lease _ _). by intros [= <- _].
Qed.

(** ** The calls of each part of the loop *)

Lemma replay_retry_unwritten l w w' l' a out :
  retry_unwritten_outcomes settings worker l w = (w', l', a, out) → w' = replay a w.
Proof.
  unfold retry_unwritten_outcomes.
  destruct (write_half settings _ (unwritten_complete l) w) as [w1 h1] eqn:E1.
  apply write_half_world in E1 as ->.
  destruct h1 as [uc wrote gave fc|e];
    [|by intros [= <- <- <- <-]; rewrite replay_complete_actions].
  destruct (write_half settings _ (unwritten_fail l) _) as [w2 h2] eqn:E2.
  apply write_half_world in E2 as ->.
  destruct h2; intros [= <- <- <- <-]; by autorewrite with replay.
Qed.

Lemma replay_retry_dropped p l w w' l' a :
  retry_dropped settings worker p l w = Some (w', l', a) → w' = replay a w.
Proof.
  unfold retry_dropped. destruct p; [by intros [= <- <- <-]|..].
  - destruct (unwritten_complete l) as [|u uc] eqn:Eu; [done|]. destruct (_ <=? _); [|done].
    by intros [= <- <- <-].
  - destruct (unwritten_fail l) as [|f uf]; [done|]. destruct (_ <=? _); [|done].
    destruct (write_half settings _ (unwritten_complete l) w) as [w1 h1] eqn:E1.
    apply write_half_world in E1 as ->. destruct h1; [|done].
    intros [= <- <- <-]. by autorewrite with replay.
Qed.

Lemma record_publish_results_silent now js l l' a :
  record_publish_results retry now js l = Some (l', a) → Forall (λ x, silent x = true) a.
Proof.
  revert l l' a; induction js as [|j js IH]; intros l l' a; cbn; [by intros [= <- <-]|].
  destruct (record_result retry now j l) as [[l1 a1]|] eqn:Hr; cbn; [|done].
  destruct (record_publish_results retry now js l1) as [[l2 a2]|] eqn:Hrs; cbn; [|done].
  intros [= <- <-]. apply Forall_app_2; [|by eapply IH]. unfold record_result in Hr.
  destruct (j_result j) as [[m ty|m n k e]| |].
  - injection Hr as <- <-. by repeat constructor.
  - destruct (next retry _ _ _); cbn in Hr; [|done]. injection Hr as <- <-. by repeat constructor.
  - injection Hr as <- <-. by destruct (outstanding l !! j_id j); repeat constructor.
  - injection Hr as <- <-. by destruct (outstanding l !! j_id j); repeat constructor.
Qed.

Lemma replay_report_stats w w' a : report_stats settings w = (w', a) → w' = replay a w.
Proof.
  unfold report_stats. destruct (stats _ w) as [w1 c] eqn:Es.
  destruct (bounded _ c) as [st|]; intros [= <- <-]; cbn.
  - destruct (OutboxStats.lag st); cbn; by rewrite Es.
  - by rewrite Es.
Qed.

Lemma replay_poll count l w w' a r :
  poll settings worker count l w = (w', a, r) → w' = replay a w.
Proof.
  unfold poll. destruct (acquire _ _ w) as [w1 [[b|e]|]] eqn:Ea.
  - destruct (AcquiredBatch.is_empty b); intros [= <- <- <-]; cbn [app fmap].
    + by destruct (AcquiredBatch.poisoned b); cbn; rewrite Ea.
    + change (?x :: ?y :: ?l) with ([x; y] ++ l). rewrite !replay_app, replay_events.
      by destruct (AcquiredBatch.poisoned b); cbn; rewrite Ea.
  - case_bool_decide; intros [= <- <- <-]; cbn; by rewrite Ea.
  - intros [= <- <- <-]. cbn. by rewrite Ea.
Qed.

Lemma replay_release refs w w' a : release_refs settings worker refs w = (w', a) → w' = replay a w.
Proof. destruct refs; by intros [= <- <-]. Qed.

Lemma replay_stop_claiming seen l w w' l' a :
  stop_claiming settings worker seen l w = (w', l', a) → w' = replay a w.
Proof.
  unfold stop_claiming. destruct (release_refs _ _ _ w) as [w1 a1] eqn:Er.
  intros [= <- <- <-]. by rewrite replay_app, <-(replay_release _ _ _ _ Er), replay_events_id.
Qed.

Lemma replay_finish_drain perm l w w' l' a perm' :
  finish_drain settings worker perm l w = (w', l', a, perm') → w' = replay a w.
Proof.
  unfold finish_drain. destruct perm as [e|].
  - destruct (release_refs _ _ _ _) as [w2 a2] eqn:Er. intros [= <- <- <- <-].
    by rewrite !replay_app, <-(replay_release _ _ _ _ Er), !replay_events_id.
  - destruct (retry_unwritten_outcomes _ _ _ _) as [[[w1 l1] a1] out] eqn:Eu.
    apply replay_retry_unwritten in Eu as ->.
    destruct (release_refs _ _ _ _) as [w2 a2] eqn:Er. intros [= <- <- <- <-].
    by rewrite !replay_app, <-(replay_release _ _ _ _ Er), !replay_events_id.
Qed.

(** ** The calls of a step *)

(** The log of [s'] extends that of [s] by actions that account for the world. *)
Definition replays (s s' : sys W E) : Prop :=
  ∃ a, log s' = log s ++ a ∧ world s' = replay a (world s).

Global Instance replays_preorder : PreOrder replays.
Proof.
  split.
  - intros s. exists []. by rewrite app_nil_r.
  - intros s1 s2 s3 (a & Hl & Hw) (b & Hl' & Hw'). exists (a ++ b).
    by rewrite Hl', Hl, app_assoc, replay_app, Hw', Hw.
Qed.

Lemma with_loop_replays l w a (s : sys W E) : w = replay a (world s) → replays s (with_loop l w a s).
Proof. intros ->. by exists a. Qed.

Lemma leave_replays seen reason (s : sys W E) : replays s (leave settings worker seen reason s).
Proof.
  unfold leave. destruct (stop_claiming _ _ _ _ _) as [[w l] a] eqn:Es.
  exists a. split; [done|]. by apply replay_stop_claiming in Es.
Qed.

Lemma take_branch_replays count refs b seen (s s' : sys W E) :
  take_branch settings worker retry count refs b seen s = Some s' → replays s s'.
Proof.
  destruct b as [|js| | | |]; cbn [take_branch].
  - intros [= <-]. apply leave_replays.
  - destruct js as [|j js]; [done|]. destruct (take_finished _ _); cbn -[record_publish_results]; [|done].
    destruct (record_publish_results _ _ _ _) as [[l1 a1]|] eqn:Hr; intros [= <-].
    + apply with_loop_replays. symmetry.
      by eapply replay_silent, record_publish_results_silent.
    + exists []. by rewrite app_nil_r.
  - destruct (0 <? count)%nat; [|done]. intros [= <-]. by apply with_loop_replays.
  - destruct (is_zero _); [done|]. destruct (report_stats _ _) as [w a] eqn:Er.
    intros [= <-]. apply with_loop_replays. by eapply replay_report_stats.
  - destruct (_ && _); [|done]. unfold retry_branch.
    destruct (retry_unwritten_outcomes _ _ _ _) as [[[w l] a] out] eqn:Eu.
    apply replay_retry_unwritten in Eu.
    destruct (permanent out); intros [= <-]; [|by apply with_loop_replays].
    etrans; [by apply with_loop_replays|apply leave_replays].
  - destruct (_ && _); [|done]. destruct (poll _ _ _ _ _) as [[w a] r] eqn:Ep.
    apply replay_poll in Ep. destruct r; intros [= <-]; [by apply with_loop_replays|].
    etrans; [by apply with_loop_replays|apply leave_replays].
Qed.

Lemma task_step_replays (e : event W) (s s' : sys W E) :
  task_step settings e s = Some s' → replays s s'.
Proof.
  destruct e; cbn; try done.
  all: destruct (in_flight (loop s) !! id) as [t|]; cbn; [|done].
  - destruct (status t); try done. destruct (_ <? _); [|done]. intros [= <-].
    by apply with_loop_replays.
  - destruct (status t); try done. destruct a; try done; intros [= <-]; by apply with_loop_replays.
  - destruct (status t); try done. intros [= <-]. by apply with_loop_replays.
  - destruct (status t); try done; destruct (aborted t); try done; intros [= <-];
      by apply with_loop_replays.
Qed.

(** The world moving on by itself. *)
Definition outside (e : event W) : bool := match e with EWorld _ => true | _ => false end.

Lemma step_replays (e : event W) (s s' : sys W E) :
  outside e = false → step settings worker retry e s = Some s' → replays s s'.
Proof.
  unfold step. destruct (stopped s); [done|]. intros He.
  destruct e; try (intros Hs; by apply task_step_replays in Hs); try done.
  - unfold iterate. destruct (at_phase s); try done. destruct (wins _ _ _); [|done].
    destruct (retry_dropped _ _ _ _ _) as [[[w l] a]|] eqn:Hd; cbn -[take_branch]; [|done].
    intros Hb%take_branch_replays. etrans; [|exact Hb].
    apply with_loop_replays. by eapply replay_retry_dropped.
  - intros [= <-]. exists []. by rewrite app_nil_r.
  - unfold drain_joined. destruct (at_phase s) as [|d [e|] r| |]; try done.
    destruct js as [|j js]; [done|].
    destruct (take_finished _ _) as [f|]; cbn -[record_publish_results]; [|done].
    destruct (record_publish_results _ _ _ _) as [[l1 a1]|] eqn:Hr.
    + destruct (retry_unwritten_outcomes _ _ _ _) as [[[w l] a] out] eqn:Eu.
      apply replay_retry_unwritten in Eu as ->. intros [= <-]. exists (a1 ++ a).
      split; [done|]. cbn. rewrite replay_app. f_equal. symmetry.
      by eapply replay_silent, record_publish_results_silent.
    + intros [= <-]. exists []. by rewrite app_nil_r.
  - unfold drain_end. destruct (at_phase s); try done. destruct (_ || _ || _); [|done].
    destruct (finish_drain _ _ _ _ _) as [[[w l] a] p] eqn:Hf.
    intros [= <-]. exists a. split; [done|]. by apply replay_finish_drain in Hf.
Qed.
End replay.
