(* ===== verification/DispatcherThms.v ===== *)
(** * What the dispatcher guarantees ([reliar-outbox], dispatcher.rs)

    The properties of every run of the dispatcher, over any store, clock, retry policy
    and schedule of its steps, and a run of it over the in-memory store. *)

From S2P Require Import Prelude RustString CoreTypes CoreHeaders CoreEnvelope OutboxTypes.
From S2P Require Import OutboxRetry OutboxSettings MemStore MemStoreInv MemStoreSpec.
From S2P Require Import MemStoreThms StoreInterface Dispatcher DispatcherInv DispatcherSys.

(** ** Runs *)

Section runs.
Context {W E R : Type} `{Clock W, OutboxStore W E, RetryPolicy R}.
Context (settings : DispatcherSettings.t) (worker : WorkerId.t) (retry : R).

Fixpoint run_events (es : list (event W)) (s : sys W E) : option (sys W E) :=
  match es with
  | [] => Some s
  | e :: es => s' ← step settings worker retry e s; run_events es s'
  end.

Lemma run_events_reachable es s s' :
  reachable settings worker retry s → run_events es s = Some s' →
  reachable settings worker retry s'.
Proof.
  revert s; induction es as [|e es IH]; intros s Hs; cbn; [by intros [= <-]|].
  destruct (step _ _ _ e s) as [s1|] eqn:He; cbn; [|done].
  apply IH. by eapply reach_step.
Qed.

(** The dispatcher's own steps, which the world cannot withhold. *)
Definition own (e : event W) : bool :=
  match e with ECancel | EWorld _ => false | _ => true end.

(** ** The measure of a shutdown *)

Definition work (f : gmap nat task) : nat :=
  sum_list_with (weight ∘ snd) (map_to_list f).
Definition remaining (s : sys W E) : nat :=
  match at_phase s with
  | Running => 2 + work (in_flight (loop s))
  | Draining _ _ _ => 1 + work (in_flight (loop s))
  | Stopped _ | Crashed => 0
  end.

Lemma work_perm l1 l2 :
  l1 ≡ₚ l2 →
  sum_list_with (weight ∘ snd) l1 = sum_list_with (weight ∘ snd) (l2 : list (nat * task)).
Proof. induction 1; cbn in *; lia. Qed.

Lemma work_delete id t f : f !! id = Some t → work f = (weight t + work (delete id f))%nat.
Proof. intros Hid. unfold work. by rewrite <-(work_perm _ _ (map_to_list_delete _ _ _ Hid)). Qed.

Lemma work_insert id t t' f :
  f !! id = Some t → (work (<[id := t']> f) + weight t)%nat = (work f + weight t')%nat.
Proof.
  intros Hid. rewrite (work_delete _ _ _ Hid), (work_delete id t' (<[id := t']> f))
    by apply lookup_insert_eq.
  rewrite delete_insert_eq. lia.
Qed.

Lemma weight_pos t : (1 ≤ weight t ≤ 3)%nat.
Proof. unfold weight. destruct (status t); lia. Qed.

Lemma take_finished_work js f f' :
  take_finished js f = Some f' → (work f' + length js = work f)%nat.
Proof.
  revert f; induction js as [|j js IH]; intros f; cbn; [intros [= <-]; lia|].
  destruct (f !! j_id j) as [t|] eqn:Hj; cbn; [|done].
  destruct (status t) eqn:Hs; try done. case_bool_decide; [|done].
  intros Hf%IH. rewrite (work_delete _ _ _ Hj). unfold weight. rewrite Hs. lia.
Qed.

Lemma work_imap f (g : nat → task → task) :
  (∀ i t, weight (g i t) = weight t) → work (map_imap (λ i t, Some (g i t)) f) = work f.
Proof.
  intros Hg. induction f as [|i t f Hi IH] using map_ind; [done|].
  rewrite map_imap_insert_Some with (y := g i t) by done.
  assert (Hi' : map_imap (λ i t, Some (g i t)) f !! i = None) by (by rewrite map_lookup_imap, Hi).
  unfold work in *. rewrite (work_perm _ _ (map_to_list_insert _ _ t Hi)).
  rewrite (work_perm _ _ (map_to_list_insert _ _ (g i t) Hi')).
  cbn. by rewrite IH, Hg.
Qed.

Lemma stop_claiming_work seen l w w' l' a :
  stop_claiming settings worker seen l w = (w', l', a) → work (in_flight l') = work (in_flight l).
Proof.
  unfold stop_claiming. destruct (release_refs _ _ _ _). intros [= _ <- _]. cbn.
  apply (work_imap _ (λ i t, if bool_decide _ then _ else t)). intros i t. by case_bool_decide.
Qed.

(** Once the token is set, every step of the dispatcher's own brings its end nearer. *)
Lemma task_step_remaining (e : event W) (s s' : sys W E) :
  task_step settings e s = Some s' →
  at_phase s' = at_phase s ∧ cancelled s' = cancelled s
  ∧ (work (in_flight (loop s')) < work (in_flight (loop s)))%nat.
Proof.
  intros (id & t & t' & a & Hid & -> & _ & Hw & _)%task_step_shape.
  split_and!; [done..|]. cbn. pose proof (work_insert id t t' _ Hid). lia.
Qed.

Lemma stop_claiming_in_flight_work seen reason (s : sys W E) :
  work (in_flight (loop (leave settings worker seen reason s))) = work (in_flight (loop s))
  ∧ cancelled (leave settings worker seen reason s) = cancelled s
  ∧ ∃ d, at_phase (leave settings worker seen reason s) = Draining d None reason.
Proof.
  unfold leave. destruct (stop_claiming settings worker seen _ _) as [[w l] a] eqn:Hs. cbn.
  split_and!; [by eapply stop_claiming_work|done|by eexists].
Qed.

Lemma record_publish_results_in_flight now js l l' a :
  record_publish_results retry now js l = Some (l', a) → in_flight l' = in_flight l.
Proof.
  revert l l' a; induction js as [|j js IH]; intros l l' a; cbn; [by intros [= <- _]|].
  destruct (record_result retry now j l) as [[l1 a1]|] eqn:Hr; cbn; [|done].
  destruct (record_publish_results retry now js l1) as [[l2 a2]|] eqn:Hrs; cbn; [|done].
  intros [= <- _]. apply record_result_frame in Hr as (_ & <- & _). by eapply IH.
Qed.

Lemma drain_joined_remaining js (s s' : sys W E) :
  drain_joined settings worker retry js s = Some s' →
  cancelled s' = cancelled s ∧ (remaining s' < remaining s)%nat.
Proof.
  unfold drain_joined, remaining. destruct (at_phase s) as [|d [e|] r| |]; try done.
  destruct js as [|j js]; [done|].
  destruct (take_finished _ _) as [f|] eqn:Hf; cbn -[record_publish_results work]; [|done].
  apply take_finished_work in Hf. cbn in Hf.
  destruct (record_publish_results _ _ _ _) as [[l1 a1]|] eqn:Hr.
  - apply record_publish_results_in_flight in Hr.
    destruct (retry_unwritten_outcomes _ _ _ _) as [[[w2 l2] a2] out] eqn:Hu.
    apply retry_unwritten_outcomes_frame in Hu as [(_ & Hf2 & _) _].
    intros [= <-]. cbn. rewrite Hf2, Hr. cbn. split; [done|lia].
  - intros [= <-]. cbn. split; [done|lia].
Qed.

Lemma own_step_remaining (e : event W) (s s' : sys W E) :
  cancelled s = true → own e = true → step settings worker retry e s = Some s' →
  cancelled s' = true ∧ (remaining s' < remaining s)%nat.
Proof.
  intros Htok Hown. unfold step. destruct (stopped s) eqn:Hst; [done|].
  assert (Htask : ∀ e', task_step settings e' s = Some s' →
    cancelled s' = true ∧ (remaining s' < remaining s)%nat).
  { intros e' (Hph & -> & Hw)%task_step_remaining. split; [done|].
    unfold remaining. rewrite Hph. unfold stopped in Hst. destruct (at_phase s); try done; lia. }
  destruct e; try done; try apply Htask.
  - unfold iterate. destruct (at_phase s) eqn:Hph; try done. rewrite Htok.
    destruct (wins p b true) eqn:Hw; [|done].
    destruct (retry_dropped _ _ _ _ _) as [[[w l] a]|] eqn:Hd; cbn; [|done].
    apply retry_dropped_frame in Hd as [(_ & Hf & _) _].
    assert (b = BCancelled) as -> by (destruct b, p; cbn in Hw; done).
    intros [= <-]. edestruct (stop_claiming_in_flight_work seen None) as (Hwork & -> & d & Hd).
    cbn. split; [done|]. unfold remaining. rewrite Hph, Hd, Hwork. cbn. rewrite Hf. lia.
  - intros [-> ?]%drain_joined_remaining. done.
  - unfold drain_end. destruct (at_phase s) eqn:Hph; try done.
    destruct (_ || _ || _); [|done].
    destruct (finish_drain _ _ _ _ _) as [[[w l] a] perm']. intros [= <-]. cbn.
    split; [done|]. unfold remaining. rewrite Hph. cbn. lia.
Qed.

(** As long as the run has not stopped, one of the dispatcher's own steps is enabled. *)
Lemma work_empty f : work f = 0%nat → f = ∅.
Proof.
  intros Hw. destruct (map_eq_dec_empty f) as [|Hne]; [done|].
  apply map_choose in Hne as (id & t & Hid). rewrite (work_delete _ _ _ Hid) in Hw.
  pose proof (weight_pos t). lia.
Qed.

Lemma drain_enabled (s : sys W E) d perm reason :
  1 ≤ DispatcherSettings.max_in_flight settings → at_phase s = Draining d perm reason →
  ∃ e s', own e = true ∧ step settings worker retry e s = Some s'.
Proof.
  intros Hmax Hph.
  assert (Hst : stopped s = false) by (unfold stopped; by rewrite Hph).
  assert (Hend : in_flight (loop s) = ∅ ∨ is_Some perm →
    ∃ e s', own e = true ∧ step settings worker retry e s = Some s').
  { intros Hend. exists EDrainEnd. unfold step, drain_end. rewrite Hst, Hph.
    destruct (_ || _ || _) eqn:Hb.
    - destruct (finish_drain _ _ _ _ _) as [[[w l] a] perm']. by eexists.
    - destruct Hend as [Hf|[e ->]]; [by rewrite Hf in Hb|by rewrite orb_true_r in Hb]. }
  destruct perm as [e|]; [by apply Hend; right|].
  destruct (decide (in_flight (loop s) = ∅)) as [Hf|Hne]; [by apply Hend; left|]. clear Hend.
  destruct (decide (running_tasks (loop s) = 0%nat)) as [Hrun|Hrun].
  - apply map_choose in Hne as (id & t & Hid). destruct (status t) as [| |r] eqn:Hs.
    + exists (ETaskStart id). unfold step. cbn. rewrite Hst, Hid. cbn. rewrite Hs, Hrun.
      rewrite (proj2 (Z.ltb_lt _ _)); [by eexists|]. cbn. lia.
    + exists (ETaskPanic id). unfold step. cbn. rewrite Hst, Hid. cbn. rewrite Hs. by eexists.
    + exists (EDrainJoined [mkJoined id r 0]). unfold step, drain_joined. rewrite Hst, Hph.
      cbn -[record_publish_results]. rewrite Hid. cbn -[record_publish_results].
      rewrite Hs, bool_decide_eq_true_2 by done. cbn -[record_publish_results].
      destruct (record_publish_results _ _ _ _) as [[l1 a1]|]; [|by eexists].
      destruct (retry_unwritten_outcomes _ _ _ _) as [[[w2 l2] a2] out]. by eexists.
  - unfold running_tasks in Hrun. apply map_size_ne_0_lookup in Hrun as (id & [t Hid]).
    apply map_lookup_filter_Some in Hid as [Hid Hp]. cbn in Hp. unfold is_publishing in Hp.
    exists (ETaskPanic id). unfold step. cbn. rewrite Hst, Hid. cbn.
    destruct (status t); try done. by eexists.
Qed.

Lemma own_enabled (s : sys W E) :
  1 ≤ DispatcherSettings.max_in_flight settings → cancelled s = true → stopped s = false →
  ∃ e s', own e = true ∧ step settings worker retry e s = Some s'.
Proof.
  intros Hmax Htok Hst. destruct (at_phase s) as [|d perm reason| |] eqn:Hph.
  - exists (EIterate NotSent BCancelled (λ _, false)). unfold step, iterate.
    rewrite Hst, Hph, Htok. cbn. by eexists.
  - by eapply drain_enabled.
  - unfold stopped in Hst. by rewrite Hph in Hst.
  - unfold stopped in Hst. by rewrite Hph in Hst.
Qed.
End runs.

Section props.
Context {W E R : Type} `{Clock W, OutboxStore W E, !OutboxStoreLaws W E, RetryPolicy R}.
Context (settings : DispatcherSettings.t) (worker : WorkerId.t) (retry : R).

(** ** Accounting *)

(** C5 [invariant] No claimed row is ever forgotten or counted twice: in every reachable
    state the rows claimed so far are, as a multiset, those still queued or publishing,
    those whose task was joined in time and those released at shutdown; every successful
    publish is waiting to be written as complete, was written, or was given up past the
    lease; and every failed publish is waiting, written, given up or released. *)
Theorem no_row_lost (s : sys W E) :
  settings_ok settings → reachable settings worker retry s →
  ledger is_claimed (log s) ≡ₚ
    (PendingRow.message <$> pending (loop s)) ++ outstanding_refs (loop s)
    ++ ledger is_joined (log s) ++ ledger is_released (log s)
  ∧ ledger is_published (log s) ≡ₚ
    (complete_ref <$> unwritten_complete (loop s)) ++ ledger is_wrote_complete (log s)
    ++ ledger is_gave_up_complete (log s)
  ∧ ledger is_failed (log s) ≡ₚ
    (fail_ref <$> unwritten_fail (loop s)) ++ ledger is_wrote_fail (log s)
    ++ ledger is_gave_up_fail (log s) ++ ledger is_released_failed (log s).
Proof.
  intros Hok Hr. pose proof (reachable_inv _ _ _ _ Hok Hr) as [[[] _ _ _ _ _ _] _ _].
  by split_and!.
Qed.


(** C13 [bounds] The claim gate: while the loop runs it never holds more than
    [max_in_flight] rows, counting those published whose outcome is not yet written, and
    nothing is left queued between iterations; every claim ever made asks for at least one
    row and at most [batch_size] and [max_in_flight], under this worker's name and
    lease. *)
Theorem claim_gate (s : sys W E) :
  settings_ok settings → reachable settings worker retry s →
  (at_phase s = Running →
     Z.of_nat (outstanding_count (loop s)) ≤ DispatcherSettings.max_in_flight settings
     ∧ pending (loop s) = [])
  ∧ ∀ req, DoAcquire req ∈ log s →
      AcquireRequest.worker req = worker
      ∧ AcquireRequest.lease req = DispatcherSettings.lease settings
      ∧ AcquireRequest.ordering req = DispatcherSettings.ordering settings
      ∧ 1 ≤ AcquireRequest.batch_size req
          ≤ Z.min (DispatcherSettings.batch_size settings)
              (DispatcherSettings.max_in_flight settings).
Proof.
  intros Hok Hr. pose proof (reachable_inv _ _ _ _ Hok Hr) as [_ Hph Hreq]. split.
  - intros Hrun. rewrite Hrun in Hph. by destruct Hph.
  - intros req Hin. rewrite Forall_forall in Hreq. apply Hreq.
    unfold acquires. apply list_elem_of_omap. by exists (DoAcquire req).
Qed.


(** ** Shutdown *)

(** What a finished run leaves behind: every row it claimed had its task
    joined or was released; no failed publish is left without its outcome written, given
    up past the lease, or its row released; and only rows published but not yet marked
    complete are left to their lease. *)
Theorem stopped_settles (s : sys W E) r :
  settings_ok settings → reachable settings worker retry s → at_phase s = Stopped r →
  ledger is_claimed (log s) ≡ₚ ledger is_joined (log s) ++ ledger is_released (log s)
  ∧ ledger is_failed (log s) ≡ₚ
      ledger is_wrote_fail (log s) ++ ledger is_gave_up_fail (log s)
      ++ ledger is_released_failed (log s)
  ∧ ledger is_published (log s) ≡ₚ
      (complete_ref <$> unwritten_complete (loop s)) ++ ledger is_wrote_complete (log s)
      ++ ledger is_gave_up_complete (log s)
  ∧ pending (loop s) = [] ∧ outstanding (loop s) = ∅ ∧ unwritten_fail (loop s) = [].
Proof.
  intros Hok Hr Hst. pose proof (reachable_inv _ _ _ _ Hok Hr) as [[[Hc Hp Hf] _ _ _ _ _ _] Hph _].
  rewrite Hst in Hph. destruct Hph as (Hpend & Hout & Huf & _).
  unfold outstanding_refs in Hc. rewrite Hpend, Hout, map_to_list_empty in Hc.
  rewrite Huf in Hf. by split_and!.
Qed.

(** [run] returns [Ok] only once the token was cancelled, and [Err] only with a
    store error classified as permanent; never with a configuration error. *)
Theorem run_result (s : sys W E) r :
  settings_ok settings → reachable settings worker retry s → at_phase s = Stopped r →
  match r with
  | Ok _ => cancelled s = true
  | Err (Store e) => kind e = Permanent
  | Err (Configuration _) => False
  end.
Proof.
  intros Hok Hr Hst. pose proof (reachable_inv _ _ _ _ Hok Hr) as [_ Hph _].
  rewrite Hst in Hph. by destruct Hph as (_ & _ & _ & ?).
Qed.

(** The phases of a run that left its loop with reason [e]. *)
Definition ending (e : E) (ph : phase E) : Prop :=
  match ph with
  | Draining _ _ reason => reason = Some e
  | Stopped r => r = Err (Store e)
  | Crashed => True
  | Running => False
  end.

Lemma ending_step err (e : event W) (s s' : sys W E) :
  ending err (at_phase s) → step settings worker retry e s = Some s' → ending err (at_phase s').
Proof.
  unfold step. destruct (stopped s); [done|]. intros Hph.
  destruct e; try (by intros [= <-]); try (by intros (-> & _)%task_step_remaining).
  - unfold iterate. by destruct (at_phase s).
  - unfold drain_joined. destruct (at_phase s) as [|d [e|] r| |]; try done.
    destruct js; [done|]. destruct (take_finished _ _); cbn -[record_publish_results]; [|done].
    destruct (record_publish_results _ _ _ _) as [[??]|]; [|by intros [= <-]].
    destruct (retry_unwritten_outcomes _ _ _ _) as [[[??]?]?]. by intros [= <-].
  - unfold drain_end. destruct (at_phase s); try done. destruct (_ || _ || _); [|done].
    destruct (finish_drain _ _ _ _ _) as [[[??]?]?]. intros [= <-]. cbn in *. by subst.
Qed.

Lemma ending_run err es (s s' : sys W E) :
  ending err (at_phase s) → run_events settings worker retry es s = Some s' →
  ending err (at_phase s').
Proof.
  revert s; induction es as [|e es IH]; intros s Hph; cbn; [by intros [= <-]|].
  destruct (step _ _ _ e s) as [s1|] eqn:He; cbn; [|done]. apply IH. by eapply ending_step.
Qed.

Lemma leave_ending seen err (s : sys W E) :
  ending err (at_phase (leave settings worker seen (Some err) s)).
Proof. by destruct (stop_claiming_in_flight_work settings worker seen (Some err) s) as (_ & _ & d & ->). Qed.

(** C35 [error] Store errors on the claim path: a permanent one ends the loop at once, and
    whatever happens while draining, the error [run] then returns is that one; any other
    error, and a call past its budget, only defers the next poll by
    [idle_poll_interval]. *)
Theorem claim_error_handling seen (s s' : sys W E) w c :
  iterate settings worker retry NotSent BPoll seen s = Some s' →
  acquire (DispatcherSettings.store_timeout settings)
    (claim_request settings worker (outstanding_count (loop s))) (world s) = (w, c) →
  match c with
  | Answered (Ok _) => at_phase s' = Running
  | Answered (Err e) =>
      if bool_decide (kind e = Permanent)
      then at_phase s' ≠ Running
           ∧ ∀ es s2 r, run_events settings worker retry es s' = Some s2 →
               at_phase s2 = Stopped r → r = Err (Store e)
      else at_phase s' = Running
           ∧ loop s' = set_next_poll (instant w + DispatcherSettings.idle_poll_interval settings)
                         (loop s)
  | Elapsed =>
      at_phase s' = Running
      ∧ loop s' = set_next_poll (instant w + DispatcherSettings.idle_poll_interval settings)
                    (loop s)
  end.
Proof.
  unfold iterate. destruct (at_phase s) eqn:Hph; try done.
  destruct (wins _ _ _); [|done]. cbn -[take_branch]. cbn [take_branch loop world with_loop].
  destruct (_ && _); [|done]. unfold poll. intros Hs Ha. rewrite Ha in Hs.
  destruct c as [[b|e]|].
  - destruct (AcquiredBatch.is_empty b); by injection Hs as <-.
  - case_bool_decide as Hk; injection Hs as <-; [|done]. split.
    + pose proof (leave_ending seen e) as He. intros Hrun.
      specialize (He (with_loop (loop s) w [DoAcquire
        (claim_request settings worker (outstanding_count (loop s)))]
        (with_loop (loop s) (world s) [] s))). by rewrite Hrun in He.
    + intros es s2 r Hrun Hst. apply (ending_run e) in Hrun; [by rewrite Hst in Hrun|].
      apply leave_ending.
  - by injection Hs as <-.
Qed.

(** The loop claims nothing more once the token is set or the loop has been left. *)
Definition past_claiming (s : sys W E) : Prop := cancelled s = true ∨ at_phase s ≠ Running.

Lemma leave_acquires seen reason (s : sys W E) :
  acquires (log (leave settings worker seen reason s)) = acquires (log s)
  ∧ past_claiming (leave settings worker seen reason s).
Proof.
  unfold leave, past_claiming. destruct (stop_claiming settings worker seen _ _) as [[w l] a] eqn:Hs.
  cbn. rewrite acquires_app, (acquires_stop_claiming _ _ _ _ _ _ _ _ Hs), app_nil_r. split; [done|by right].
Qed.

Lemma past_claiming_step (e : event W) (s s' : sys W E) :
  past_claiming s → step settings worker retry e s = Some s' →
  acquires (log s') = acquires (log s) ∧ past_claiming s'.
Proof.
  unfold step. destruct (stopped s) eqn:Hst; [done|]. intros Hpast.
  destruct e; try (by intros [= <-]);
    try (intros (? & ? & ? & ? & _ & -> & _ & _ & Ha & _)%task_step_shape; cbn;
         by rewrite acquires_app, Ha, app_nil_r).
  - unfold iterate. destruct (at_phase s) eqn:Hph; try done.
    destruct Hpast as [Htok|]; [|done]. rewrite Htok. destruct (wins p b true) eqn:Hw; [|done].
    destruct (retry_dropped _ _ _ _ _) as [[[w l] a]|] eqn:Hd; cbn -[take_branch]; [|done].
    apply acquires_retry_dropped in Hd.
    assert (b = BCancelled) as -> by (destruct b, p; cbn in Hw; done).
    intros [= <-]. destruct (leave_acquires seen None (with_loop l w a s)) as [-> ?].
    split; [|done]. cbn. by rewrite acquires_app, Hd, app_nil_r.
  - intros [= <-]. by split; [|left].
  - unfold drain_joined. destruct (at_phase s) as [|d [e|] r| |] eqn:Hph; try done.
    destruct js; [done|]. destruct (take_finished _ _); cbn -[record_publish_results]; [|done].
    destruct (record_publish_results _ _ _ _) as [[l1 a1]|] eqn:Hr; [|intros [= <-]].
    + destruct (retry_unwritten_outcomes _ _ _ _) as [[[w2 l2] a2] out] eqn:Hu. intros [= <-]. cbn.
      rewrite !acquires_app, (acquires_record_publish_results _ _ _ _ _ _ Hr),
        (acquires_retry_unwritten _ _ _ _ _ _ _ _ Hu), app_nil_r. by split; [|right].
    + by split; [|right].
  - unfold drain_end. destruct (at_phase s) eqn:Hph; try done. destruct (_ || _ || _); [|done].
    destruct (finish_drain _ _ _ _ _) as [[[w l] a] perm'] eqn:Hf. intros [= <-]. cbn.
    rewrite acquires_app, (acquires_finish_drain _ _ _ _ _ _ _ _ _ Hf), app_nil_r.
    by split; [|right].
Qed.

(** Once cancellation is requested, or the loop has been left, no further
    claim is ever made. *)
Theorem no_claim_after_cancellation es (s s' : sys W E) :
  cancelled s = true ∨ at_phase s ≠ Running →
  run_events settings worker retry es s = Some s' →
  ∀ req, DoAcquire req ∈ log s' → DoAcquire req ∈ log s.
Proof.
  intros Hpast Hrun req Hin.
  assert (Hacq : acquires (log s') = acquires (log s)).
  { revert s Hpast Hrun; induction es as [|e es IH]; intros s Hpast; cbn; [by intros [= <-]|].
    destruct (step _ _ _ e s) as [s1|] eqn:He; cbn; [|done]. intros Hrun.
    destruct (past_claiming_step _ _ _ Hpast He) as [<- Hpast']. by apply IH. }
  assert (Hreq : req ∈ acquires (log s')).
  { unfold acquires. apply list_elem_of_omap. by exists (DoAcquire req). }
  rewrite Hacq in Hreq. unfold acquires in Hreq.
  apply list_elem_of_omap in Hreq as (a & Ha & Heq). destruct a; try done. by injection Heq as ->.
Qed.

(** C21 [termination] Shutdown terminates: from a state whose token is set, every schedule
    takes at most [remaining] of the dispatcher's own steps, whatever the store answers
    and the world does in between; and until the run has stopped, one of its own steps is
    always enabled. *)
Theorem shutdown_terminates es (s s' : sys W E) :
  1 ≤ DispatcherSettings.max_in_flight settings → cancelled s = true →
  run_events settings worker retry es s = Some s' →
  (length (filter (λ e, own e = true) es) + remaining s' ≤ remaining s)%nat
  ∧ (stopped s' = false → ∃ e s2, own e = true ∧ step settings worker retry e s' = Some s2).
Proof.
  intros Hmax. revert s; induction es as [|e es IH]; intros s Htok; cbn [run_events].
  { intros [= <-]. split; [cbn; lia|]. intros Hst. by apply own_enabled. }
  destruct (step _ _ _ e s) as [s1|] eqn:He; cbn [mbind option_bind]; [|done].
  intros Hrun. rewrite filter_cons. destruct (own e) eqn:Hown.
  - destruct (own_step_remaining _ _ _ _ _ _ Htok Hown He) as [Htok1 Hlt].
    destruct (IH s1 Htok1 Hrun) as [Hle Hen]. split; [|done]. rewrite decide_True by done.
    cbn. lia.
  - assert (cancelled s1 = true ∧ remaining s1 = remaining s) as [Htok1 Heq].
    { unfold step in He. destruct (stopped s); [done|].
      destruct e; try done; by injection He as <-. }
    destruct (IH s1 Htok1 Hrun) as [Hle Hen]. split; [|done]. rewrite decide_False by done. lia.
Qed.

(** ** Writing outcomes *)

(** What one half of a round does: [u] is what is unwritten, [u'] what is left. *)
Definition half_spec {T} (write : list T → W → W * call Z E) (u u' : list (Z * T)) (w w1 : W)
    (perm : option E) : Prop :=
  (u = [] ∧ u' = [] ∧ w1 = w ∧ perm = None)
  ∨ (u ≠ [] ∧ ∃ c, write (snd <$> u) w = (w1, c) ∧
      let retried := perm = None
        ∧ ∀ p, p ∈ u' ↔ p ∈ u ∧ instant w1 - p.1 ≤ DispatcherSettings.lease settings in
      match c with
      | Answered (Ok _) => u' = [] ∧ perm = None
      | Answered (Err e) =>
          if bool_decide (kind e = Permanent) then u' = u ∧ perm = Some e else retried
      | Elapsed => retried
      end).

Lemma kept_within_lease {T} now (u : list (Z * T)) p :
  0 ≤ DispatcherSettings.lease settings →
  p ∈ (expire_past_lease settings now u).1
  ↔ p ∈ u ∧ now - p.1 ≤ DispatcherSettings.lease settings.
Proof.
  intros Hl. unfold expire_past_lease, past_lease. cbn. rewrite list_elem_of_filter, Z.ltb_ge.
  split; intros [??]; split; try done; lia.
Qed.

Lemma write_half_spec {T} (write : list T → W → W * call Z E) (u : list (Z * T)) w w1 h :
  0 ≤ DispatcherSettings.lease settings →
  write_half settings write u w = (w1, h) →
  match h with
  | HalfDone u' _ _ _ => half_spec write u u' w w1 None
  | HalfPermanent e => half_spec write u u w w1 (Some e)
  end.
Proof.
  intros Hl. unfold write_half, half_spec. destruct u as [|p u]; [intros [= <- <-]; by left|].
  destruct (write _ w) as [w2 c] eqn:Hw.
  destruct c as [[n|e]|]; cbn -[expire_past_lease].
  - intros [= <- <-]. right. split; [done|]. by eexists.
  - case_bool_decide as Hk; intros Hh; injection Hh as <- <-; (right; split; [done|]);
      (eexists; split; [done|]); cbn.
    + by rewrite bool_decide_eq_true_2.
    + rewrite bool_decide_eq_false_2 by done. split; [done|]. intros q.
      by apply (kept_within_lease (instant w2) (p :: u)).
  - intros Hh; injection Hh as <- <-. right; split; [done|]. eexists; split; [done|]. cbn.
    split; [done|]. intros q. by apply (kept_within_lease (instant w2) (p :: u)).
Qed.

(** C36 [functional] A round of outcome writes: [complete] for everything published, then
    [fail] for everything failed.  A half that lands clears its entries; one that fails or
    times out keeps exactly the entries no older than the lease, so an outcome is given
    up only past it; a permanent error leaves its half as it was, ends the round, and is
    what the round reports. *)
Theorem outcome_round_spec l w w' l' a out :
  0 ≤ DispatcherSettings.lease settings →
  retry_unwritten_outcomes settings worker l w = (w', l', a, out) →
  ∃ w1 uc perm1,
    half_spec (write_complete settings worker) (unwritten_complete l) uc w w1 perm1
    ∧ match perm1 with
      | Some e => w' = w1 ∧ l' = set_unwritten uc (unwritten_fail l) l ∧ permanent out = Some e
      | None => ∃ uf perm2,
          half_spec (write_fail settings worker) (unwritten_fail l) uf w1 w' perm2
          ∧ l' = set_unwritten uc uf l ∧ permanent out = perm2
      end.
Proof.
  intros Hl. unfold retry_unwritten_outcomes.
  destruct (write_half settings _ (unwritten_complete l) w) as [w1 h1] eqn:Ec.
  apply write_half_spec in Ec; [|done]. destruct h1 as [uc wrote gave fc|e].
  - destruct (write_half settings _ (unwritten_fail l) w1) as [w2 h2] eqn:Ef.
    apply write_half_spec in Ef; [|done].
    destruct h2 as [uf wrote' gave' ff|e]; intros [= <- <- <- <-].
    + exists w1, uc, None. split; [done|]. by exists uf, None.
    + exists w1, uc, None. split; [done|]. by exists (unwritten_fail l), (Some e).
  - intros [= <- <- <- <-]. exists w1, (unwritten_complete l), (Some e).
    split; [done|]. by destruct l.
Qed.

(** Outcome writes are eager but never spin: after a round that failed and left
    outcomes unwritten, no outcome write is made before an interval of at least a
    millisecond has passed, short enough that four fit in the lease; after any other
    round a write may be made at once. *)
Theorem outcome_writes_are_paced l w w' l1 a out l' (s : sys W E) p b seen :
  retry_unwritten_outcomes settings worker l w = (w', l1, a, out) →
  retry_branch settings worker l w = (w', l', a, permanent out) → loop s = l' →
  p ≠ NotSent ∨ b = BRetry →
  (if any_failed out && has_unwritten l'
   then instant (world s) < instant w' + outcome_retry_interval settings →
        iterate settings worker retry p b seen s = None
   else next_outcome_retry_at l' = instant w')
  ∧ from_millis 1 ≤ outcome_retry_interval settings
  ∧ (from_millis 4 ≤ DispatcherSettings.lease settings →
     4 * outcome_retry_interval settings ≤ DispatcherSettings.lease settings).
Proof.
  unfold retry_branch. intros Hr. rewrite Hr. intros [= Hl'] Hs Hpb. subst l'.
  change (has_unwritten (set_next_retry _ l1)) with (has_unwritten l1) in *. split_and!.
  - destruct (any_failed out && has_unwritten l1) eqn:Hf; [|done]. intros Hlt.
    unfold iterate. destruct (at_phase s); try done.
    destruct (wins p b (cancelled s)) eqn:Hw; [|done].
    assert (Hdue : next_outcome_retry_at (loop s) <=? instant (world s) = false)
      by (rewrite Hs; apply Z.leb_gt; exact Hlt).
    unfold retry_dropped. rewrite Hdue. destruct p.
    + destruct Hpb as [?|Hb]; [done|subst b]. cbn -[Z.leb]. rewrite Hdue. by rewrite andb_false_r.
    + by destruct (unwritten_complete (loop s)).
    + by destruct (unwritten_fail (loop s)).
  - unfold outcome_retry_interval. lia.
  - unfold outcome_retry_interval, from_millis. intros Hl.
    pose proof (Z.mul_div_le (DispatcherSettings.lease settings) 4). lia.
Qed.
End props.

(** ** Building a dispatcher *)

(** The bounds [build] checks. *)
Record bounds_ok (s : DispatcherSettings.t) : Prop := {
  bo_max_in_flight : DispatcherSettings.max_in_flight s ≠ 0;
  bo_batch_size : DispatcherSettings.batch_size s ≠ 0;
  bo_poll : DispatcherSettings.poll_interval s ≠ 0;
  bo_idle : DispatcherSettings.idle_poll_interval s ≠ 0;
  bo_ordering : DispatcherSettings.ordering s = Unordered;
  bo_publish : DispatcherSettings.publish_timeout s < DispatcherSettings.lease s;
  bo_store : DispatcherSettings.store_timeout s < DispatcherSettings.lease s / 2;
}.

Record backoff_ok (b : ExponentialBackoff.t) : Prop := {
  bk_jitter : F64.leb F64.zero (ExponentialBackoff.jitter b) = true
              ∧ F64.ltb (ExponentialBackoff.jitter b) F64.one = true;
  bk_attempts : ExponentialBackoff.max_attempts b ≠ 0;
  bk_base : ExponentialBackoff.base b ≠ 0;
}.

Lemma validate_shared_ok s : validate_shared s = Ok () ↔ bounds_ok s.
Proof.
  unfold validate_shared, is_zero. split.
  - repeat match goal with |- context [if ?b then _ else _] => destruct b eqn:?; [done|] end.
    destruct (DispatcherSettings.ordering s) eqn:Ho; cbn; [|done].
    repeat match goal with |- context [if ?b then _ else _] => destruct b eqn:?; [done|] end.
    intros _. constructor; try done; lia.
  - intros []. rewrite bo_ordering0. cbn.
    repeat (rewrite (proj2 (Z.eqb_neq _ _)) by done).
    by repeat (rewrite (proj2 (Z.leb_gt _ _)) by done).
Qed.

Lemma backoff_validate_ok b : ExponentialBackoff.validate b = Ok () ↔ backoff_ok b.
Proof.
  unfold ExponentialBackoff.validate, is_zero.
  destruct (F64.leb _ _ && F64.ltb _ _) eqn:Hj; cbn.
  - apply andb_true_iff in Hj. destruct (ExponentialBackoff.max_attempts b =? 0) eqn:Ha;
      [split; [done|intros []; lia]|].
    destruct (ExponentialBackoff.base b =? 0) eqn:Hb; [split; [done|intros []; lia]|].
    split; [|done]. intros _. constructor; [done|lia|lia].
  - split; [done|]. intros [[H1 H2] _ _]. by rewrite H1, H2 in Hj.
Qed.

(** C37 [error] [build] accepts exactly the documented settings: non-zero counts and poll
    intervals, an ordering this version supports, a publish timeout below the lease, a
    store timeout below half of it, and a retry policy that is either the settings' own
    valid backoff, or a custom one given while the settings' is left at its default and
    itself valid when it is a backoff.  The dispatcher it returns has these settings, that
    policy and the configured or a fresh worker id. *)
Theorem build_accepts {R} (as_backoff : R → option ExponentialBackoff.t) fresh s (policy : R) :
  (∀ d, OutboxDispatcherBuilder.build_default fresh s = Ok d ↔
     bounds_ok s ∧ backoff_ok (DispatcherSettings.retry s)
     ∧ d = OutboxDispatcher.mk (DispatcherSettings.retry s) s
             (default fresh (DispatcherSettings.worker_id s)))
  ∧ (∀ d, OutboxDispatcherBuilder.build_custom as_backoff fresh s policy = Ok d ↔
       bounds_ok s ∧ backoff_eqb (DispatcherSettings.retry s) ExponentialBackoff.default = true
       ∧ (∀ b, as_backoff policy = Some b → backoff_ok b)
       ∧ d = OutboxDispatcher.mk policy s (default fresh (DispatcherSettings.worker_id s))).
Proof.
  unfold OutboxDispatcherBuilder.build_default, OutboxDispatcherBuilder.build_custom.
  split; intros d; autorewrite with rust.
  - split.
    + intros ([] & Hv & Hd). apply result_bind_Ok in Hd as ([] & Hb & [= <-]).
      by apply validate_shared_ok in Hv; apply backoff_validate_ok in Hb.
    + intros (Hv%validate_shared_ok & Hb%backoff_validate_ok & ->). exists ().
      split; [done|]. by rewrite Hb.
  - split.
    + intros ([] & Hv & Hd). apply validate_shared_ok in Hv.
      destruct (backoff_eqb _ _); [|done]. cbn in Hd.
      apply result_bind_Ok in Hd as ([] & Hb & [= <-]). split_and!; try done.
      intros b Hb'. rewrite Hb' in Hb. by apply backoff_validate_ok.
    + intros (Hv%validate_shared_ok & -> & Hb & ->). exists (). split; [done|]. cbn.
      destruct (as_backoff policy) as [b|]; [|done].
      specialize (Hb b eq_refl). apply backoff_validate_ok in Hb. by rewrite Hb.
Qed.

(** ** Witnesses

    A run over the in-memory store holding two messages: both are claimed, the first is
    published and marked complete, the second fails and is scheduled for a retry, and the
    dispatcher is then shut down. *)

#[local] Existing Instance default_time_range.

Definition run_settings : DispatcherSettings.t := DispatcherSettings.default.
Definition run_worker : WorkerId.t := sample_worker "w1".
Definition run_retry : ExponentialBackoff.t := ExponentialBackoff.default.
Definition run_world : MemWorld :=
  mkMemWorld (run_ops [OInsert (sample_envelope 1) None None;
                       OInsert (sample_envelope 2) None None] inner_default) 0.
Definition run_ref (n : Z) : MessageRef.t := MessageRef.new (MessageId.from_uuid n) 0.
Definition run_type : MessageType.t := MessageType.from_parts "orders.created" 1.
Definition seen_all : nat → bool := λ _, true.

Definition run_claim : list (event MemWorld) :=
  [EIterate NotSent BPoll seen_all; ETaskStart 0; ETaskStart 1; ETaskFinish 0 Acked;
   ETaskFinish 1 (Refused Transient "no route")].
Definition run_write : list (event MemWorld) :=
  [EIterate NotSent
     (BJoined [mkJoined 0 (JOutcome (Published (run_ref 1) run_type)) 0;
               mkJoined 1 (JOutcome (Failed (run_ref 2) 0 Transient "no route")) 0]) seen_all;
   EIterate NotSent BRetry seen_all].
Definition run_stop : list (event MemWorld) :=
  [ECancel; EIterate NotSent BCancelled seen_all; EDrainEnd].

Definition run_from (es : list (event MemWorld)) (s : sys MemWorld InMemoryStoreError)
  : sys MemWorld InMemoryStoreError :=
  default s (run_events run_settings run_worker run_retry es s).
Definition run_state (es : list (event MemWorld)) : sys MemWorld InMemoryStoreError :=
  run_from es (initial run_world).

Lemma run_settings_ok : settings_ok run_settings.
Proof. repeat split; vm_compute; discriminate. Qed.

Lemma run_from_reachable es s :
  reachable run_settings run_worker run_retry s →
  reachable run_settings run_worker run_retry (run_from es s).
Proof.
  intros Hs. unfold run_from. destruct (run_events _ _ _ es s) as [s'|] eqn:He; [|exact Hs].
  by eapply run_events_reachable.
Qed.

Lemma run_state_reachable es : reachable run_settings run_worker run_retry (run_state es).
Proof. apply run_from_reachable, reach_initial. Qed.

Lemma no_row_lost_witness :
  let s := run_state (run_claim ++ run_write) in
  ledger is_claimed (log s) = [run_ref 1; run_ref 2]
  ∧ ledger is_published (log s) ≡ₚ
      (complete_ref <$> unwritten_complete (loop s)) ++ ledger is_wrote_complete (log s)
      ++ ledger is_gave_up_complete (log s)
  ∧ ledger is_wrote_complete (log s) = [run_ref 1] ∧ ledger is_wrote_fail (log s) = [run_ref 2].
Proof.
  split_and!; [vm_compute; reflexivity| |vm_compute; reflexivity|vm_compute; reflexivity].
  exact (proj1 (proj2 (no_row_lost run_settings run_worker run_retry _ run_settings_ok
    (run_state_reachable (run_claim ++ run_write))))).
Defined.


Lemma claim_gate_witness :
  let s := run_state run_claim in
  at_phase s = Running ∧ outstanding_count (loop s) = 2%nat
  ∧ Z.of_nat (outstanding_count (loop s)) ≤ 16.
Proof.
  assert (Hrun : at_phase (run_state run_claim) = Running) by (vm_compute; reflexivity).
  split_and!; [exact Hrun|vm_compute; reflexivity|].
  exact (proj1 (proj1 (claim_gate run_settings run_worker run_retry _ run_settings_ok
    (run_state_reachable run_claim)) Hrun)).
Defined.


Definition run_all : list (event MemWorld) := run_claim ++ run_write ++ run_stop.

Lemma stopped_settles_witness :
  let s := run_state run_all in
  at_phase s = Stopped (Ok ()) ∧ ledger is_wrote_fail (log s) = [run_ref 2]
  ∧ ledger is_failed (log s) ≡ₚ
      ledger is_wrote_fail (log s) ++ ledger is_gave_up_fail (log s)
      ++ ledger is_released_failed (log s).
Proof.
  assert (Hst : at_phase (run_state run_all) = Stopped (Ok ())) by (vm_compute; reflexivity).
  split_and!; [exact Hst|vm_compute; reflexivity|].
  exact (proj1 (proj2 (stopped_settles run_settings run_worker run_retry _ _ run_settings_ok
    (run_state_reachable run_all) Hst))).
Defined.

Lemma run_result_witness :
  at_phase (run_state run_all) = Stopped (Ok ()) ∧ cancelled (run_state run_all) = true.
Proof.
  assert (Hst : at_phase (run_state run_all) = Stopped (Ok ())) by (vm_compute; reflexivity).
  split; [exact Hst|].
  exact (run_result run_settings run_worker run_retry _ _ run_settings_ok
    (run_state_reachable run_all) Hst).
Defined.

(** The next claim fails, with a permanent error. *)
Definition run_broken : sys MemWorld InMemoryStoreError :=
  initial (mkMemWorld (run_op (OArm 0 1 0 0 0 0) (inner run_world)) 0).

Lemma claim_error_handling_witness :
  ∃ s', iterate run_settings run_worker run_retry NotSent BPoll seen_all run_broken = Some s'
    ∧ ∀ es s2 r, run_events run_settings run_worker run_retry es s' = Some s2 →
        at_phase s2 = Stopped r → r = Err (Store InjectedPermanent).
Proof.
  destruct (iterate run_settings run_worker run_retry NotSent BPoll seen_all run_broken)
    as [s'|] eqn:Hs; [|vm_compute in Hs; discriminate].
  exists s'. split; [reflexivity|].
  destruct (acquire (DispatcherSettings.store_timeout run_settings)
    (claim_request run_settings run_worker (outstanding_count (loop run_broken)))
    (world run_broken)) as [w c] eqn:Ha.
  pose proof (claim_error_handling run_settings run_worker run_retry _ _ _ _ _ Hs Ha) as Hspec.
  assert (Hc : c = Answered (Err InjectedPermanent))
    by (vm_compute in Ha; injection Ha as _ <-; reflexivity).
  rewrite Hc in Hspec. exact (proj2 Hspec).
Defined.

(** Cancelled with both publishes finished but not yet joined. *)
Definition run_drain : list (event MemWorld) :=
  [EIterate NotSent BCancelled seen_all;
   EDrainJoined [mkJoined 0 (JOutcome (Published (run_ref 1) run_type)) 0;
                 mkJoined 1 (JOutcome (Failed (run_ref 2) 0 Transient "no route")) 0];
   EDrainEnd].

Lemma no_claim_after_cancellation_witness :
  let s := run_state (run_claim ++ [ECancel]) in
  cancelled s = true
  ∧ ∃ s', run_events run_settings run_worker run_retry run_drain s = Some s'
      ∧ at_phase s' = Stopped (Ok ()) ∧ ∀ req, DoAcquire req ∈ log s' → DoAcquire req ∈ log s.
Proof.
  assert (Hc : cancelled (run_state (run_claim ++ [ECancel])) = true) by (vm_compute; reflexivity).
  split; [exact Hc|].
  destruct (run_events run_settings run_worker run_retry run_drain
    (run_state (run_claim ++ [ECancel]))) as [s'|] eqn:Hr; [|vm_compute in Hr; discriminate].
  exists s'. split_and!; [reflexivity| |].
  - vm_compute in Hr. injection Hr as <-. reflexivity.
  - exact (no_claim_after_cancellation _ _ _ _ _ _ (or_introl Hc) Hr).
Defined.

Lemma shutdown_terminates_witness :
  let s := run_state (run_claim ++ [ECancel]) in
  cancelled s = true ∧ remaining s = 4%nat
  ∧ ∃ s', run_events run_settings run_worker run_retry run_drain s = Some s'
      ∧ (length (filter (λ e, own e = true) run_drain) + remaining s' ≤ remaining s)%nat.
Proof.
  assert (Hc : cancelled (run_state (run_claim ++ [ECancel])) = true) by (vm_compute; reflexivity).
  split_and!; [exact Hc|vm_compute; reflexivity|].
  destruct (run_events run_settings run_worker run_retry run_drain
    (run_state (run_claim ++ [ECancel]))) as [s'|] eqn:Hr; [|vm_compute in Hr; discriminate].
  exists s'. split; [reflexivity|].
  refine (proj1 (shutdown_terminates run_settings run_worker run_retry _ _ _ _ Hc Hr)).
  vm_compute. discriminate.
Defined.

(** A round whose [complete] fails: the outcome is kept and the next round is paced. *)
Definition run_unwritten : Loop :=
  mkLoop [] ∅ ∅ [(0, CompletedMessage.new (run_ref 1))] [] 1 0 0.
Definition run_flaky : MemWorld :=
  mkMemWorld (run_op (OArm 1 0 0 0 0 0) (inner run_world)) (from_secs 1).

Lemma outcome_round_spec_witness :
  ∃ w' l' a out w1 uc,
    retry_unwritten_outcomes run_settings run_worker run_unwritten run_flaky = (w', l', a, out)
    ∧ half_spec run_settings (write_complete run_settings run_worker)
        (unwritten_complete run_unwritten) uc run_flaky w1 None
    ∧ unwritten_complete l' = unwritten_complete run_unwritten.
Proof.
  destruct (retry_unwritten_outcomes run_settings run_worker run_unwritten run_flaky)
    as [[[w' l'] a] out] eqn:Hr.
  destruct (outcome_round_spec run_settings run_worker _ _ _ _ _ _ ltac:(vm_compute; discriminate) Hr)
    as (w1 & uc & perm & Hh & Hm).
  assert (Hout : permanent out = None ∧ unwritten_complete l' = unwritten_complete run_unwritten)
    by (vm_compute in Hr; injection Hr as _ <- _ <-; split; reflexivity).
  exists w', l', a, out, w1, uc. split; [reflexivity|]. split; [|exact (proj2 Hout)].
  destruct perm as [e|]; [|exact Hh].
  destruct Hm as (_ & _ & Hp). rewrite (proj1 Hout) in Hp. discriminate.
Defined.

Lemma outcome_writes_are_paced_witness :
  ∃ w' l' a, retry_branch run_settings run_worker run_unwritten run_flaky = (w', l', a, None)
    ∧ next_outcome_retry_at l' = from_secs 1 + from_millis 500
    ∧ iterate run_settings run_worker run_retry NotSent BRetry seen_all
        (mkSys l' Running w' false []) = None.
Proof.
  destruct (retry_unwritten_outcomes run_settings run_worker run_unwritten run_flaky)
    as [[[w' l1] a] out] eqn:Hr.
  destruct (retry_branch run_settings run_worker run_unwritten run_flaky)
    as [[[w2 l'] a2] perm] eqn:Hb.
  assert (Hb' : w2 = w' ∧ a2 = a ∧ perm = permanent out)
    by (unfold retry_branch in Hb; rewrite Hr in Hb; injection Hb as <- _ <- <-; done).
  destruct Hb' as (-> & -> & ->).
  pose proof (outcome_writes_are_paced run_settings run_worker run_retry _ _ _ _ _ _ _
    (mkSys l' Running w' false []) NotSent BRetry seen_all Hr Hb eq_refl (or_intror eq_refl))
    as [Hp _].
  assert (Hf : any_failed out = true ∧ permanent out = None ∧ has_unwritten l' = true
    ∧ next_outcome_retry_at l' = from_secs 1 + from_millis 500 ∧ instant w' = from_secs 1).
  { vm_compute in Hr. injection Hr as <- <- <- <-. vm_compute in Hb. injection Hb as <-.
    split_and!; reflexivity. }
  destruct Hf as (H1 & H2 & H3 & H4 & H5). rewrite H1, H3 in Hp. cbn [andb] in Hp.
  exists w', l', a. rewrite H2. split_and!; [reflexivity|exact H4|].
  apply Hp. cbn [world]. rewrite H5. vm_compute. reflexivity.
Defined.
