(* ===== verification/DispatcherLiveness.v ===== *)
(** * The dispatcher makes progress ([reliar-outbox], dispatcher.rs)

    [stopped_settles] and [shutdown_terminates] speak of the end of a run; here the loop
    is running.  A row it holds never sits still for want of an enabled step, and
    the steps that settle rows - a publish task moving on, a join, a round of outcome
    writes that lands - cannot go on for ever without leaving nothing held. *)

From S2P Require Import Prelude RustString CoreTypes CoreHeaders CoreEnvelope OutboxTypes.
From S2P Require Import OutboxRetry OutboxSettings MemStore MemStoreInv MemStoreSpec MemStoreThms.
From S2P Require Import StoreInterface Dispatcher DispatcherInv DispatcherSys DispatcherThms.

Section liveness.
Context {W E R : Type} `{Clock W, OutboxStore W E, !OutboxStoreLaws W E, RetryPolicy R}.
Context (settings : DispatcherSettings.t) (worker : WorkerId.t) (retry : R).

(** ** Every row waiting for its task has one *)

Definition backed (l : Loop) : Prop :=
  ∀ id, is_Some (outstanding l !! id) → is_Some (in_flight l !! id).

Lemma backed_same l l' : same_tasks l l' → backed l → backed l'.
Proof. intros (_ & Hf & Ho & _) Hb id. rewrite Hf, Ho. apply Hb. Qed.

Lemma spawn_ready_backed pt l : backed l → backed (spawn_ready pt l).
Proof.
  unfold spawn_ready. intros Hb. assert (Hb' : backed (set_pending [] l)) by exact Hb.
  revert Hb'. generalize (set_pending [] l). clear Hb.
  induction (pending l) as [|row rows IH]; intros l0 Hb; cbn [fold_left]; [done|].
  apply IH. intros id. cbn. destruct (decide (id = next_task l0)) as [->|Hne].
  - by rewrite !lookup_insert_eq.
  - rewrite !lookup_insert_ne by done. apply Hb.
Qed.

Lemma record_publish_results_outstanding now js l l' a :
  record_publish_results retry now js l = Some (l', a) →
  in_flight l' = in_flight l
  ∧ ∀ id, is_Some (outstanding l' !! id) → id ∉ (j_id <$> js) ∧ is_Some (outstanding l !! id).
Proof.
  revert l l' a; induction js as [|j js IH]; intros l l' a; cbn.
  { intros [= <- _]. split; [done|]. intros id ?. split; [apply not_elem_of_nil|done]. }
  destruct (record_result retry now j l) as [[l1 a1]|] eqn:Hr; cbn; [|done].
  destruct (record_publish_results retry now js l1) as [[l2 a2]|] eqn:Hrs; cbn; [|done].
  intros [= <- _]. apply record_result_frame in Hr as (Ho & Hf & _).
  destruct (IH _ _ _ Hrs) as [Hf2 Ho2]. split; [congruence|]. intros id Hid.
  apply Ho2 in Hid as [Hnin Hid]. rewrite Ho in Hid.
  destruct (decide (id = j_id j)) as [->|Hne]; [by rewrite lookup_delete_eq in Hid; destruct Hid|].
  rewrite lookup_delete_ne in Hid by done. split; [by apply not_elem_of_cons|done].
Qed.

Lemma joined_backed now js f l l' a :
  backed l → take_finished js (in_flight l) = Some f →
  record_publish_results retry now js (set_in_flight f l) = Some (l', a) → backed l'.
Proof.
  intros Hb (_ & _ & Hout & _)%take_finished_spec [Hf Ho]%record_publish_results_outstanding id Hid.
  apply Ho in Hid as [Hnin Hid]. rewrite Hf. cbn. rewrite Hout by done. by apply Hb.
Qed.

Lemma stop_claiming_backed seen l w w' l' a :
  stop_claiming settings worker seen l w = (w', l', a) → backed l → backed l'.
Proof.
  unfold stop_claiming. destruct (release_refs _ _ _ _). intros Hs Hb. injection Hs as _ <- _.
  intros id. cbn. intros [ot [Hot _]%lookup_difference_Some]. rewrite map_lookup_imap.
  destruct (Hb id) as [t ->]; [by eexists|]. by eexists.
Qed.

Lemma leave_backed seen reason (s : sys W E) :
  backed (loop s) → backed (loop (leave settings worker seen reason s)).
Proof.
  unfold leave. destruct (stop_claiming _ _ _ _ _) as [[w l] a] eqn:Hs. cbn.
  by eapply stop_claiming_backed.
Qed.

Lemma poll_backed count l w w' a r :
  poll settings worker count l w = (w', a, r) → backed l →
  match r with inl l' => backed l' | inr _ => True end.
Proof.
  unfold poll. destruct (acquire _ _ w) as [w1 [[b|e]|]]; intros Hp Hb.
  - destruct (AcquiredBatch.is_empty b); injection Hp as _ _ <-; [done|]. by apply spawn_ready_backed.
  - destruct (bool_decide _); by injection Hp as _ _ <-.
  - by injection Hp as _ _ <-.
Qed.

Lemma take_branch_backed count refs b seen (s s' : sys W E) :
  take_branch settings worker retry count refs b seen s = Some s' →
  backed (loop s) → backed (loop s').
Proof.
  destruct b as [|js| | | |]; cbn [take_branch].
  - intros [= <-]. apply leave_backed.
  - destruct js as [|j js]; [done|].
    destruct (take_finished _ _) as [f|] eqn:Hf; cbn -[record_publish_results]; [|done].
    destruct (record_publish_results _ _ _ _) as [[l1 a1]|] eqn:Hr; intros [= <-] Hb; [|done].
    cbn. apply spawn_ready_backed. by eapply joined_backed.
  - destruct (0 <? count)%nat; [|done]. by intros [= <-].
  - destruct (is_zero _); [done|]. destruct (report_stats _ _). by intros [= <-].
  - destruct (_ && _); [|done]. unfold retry_branch.
    destruct (retry_unwritten_outcomes _ _ _ _) as [[[w l] a] out] eqn:Eu.
    apply retry_unwritten_outcomes_frame in Eu as [Hs _].
    destruct (permanent out); intros [= <-] Hb; [apply leave_backed|]; by apply (backed_same (loop s)).
  - destruct (_ && _); [|done]. destruct (poll _ _ _ _ _) as [[w a] r] eqn:Ep.
    intros Hs Hb. apply poll_backed in Ep; [|done].
    destruct r; injection Hs as <-; [done|by apply leave_backed].
Qed.

Lemma step_backed (e : event W) (s s' : sys W E) :
  step settings worker retry e s = Some s' → backed (loop s) → backed (loop s').
Proof.
  unfold step. destruct (stopped s); [done|].
  assert (Htask : task_step settings e s = Some s' → backed (loop s) → backed (loop s')).
  { intros (id & t & t' & a & Hid & -> & _)%task_step_shape Hb id' Hid'. cbn in *.
    destruct (decide (id' = id)) as [->|Hne]; [rewrite lookup_insert_eq; by eexists|].
    rewrite lookup_insert_ne by done. by apply Hb. }
  destruct e; try exact Htask.
  - unfold iterate. destruct (at_phase s); try done. destruct (wins _ _ _); [|done].
    destruct (retry_dropped _ _ _ _ _) as [[[w l] a]|] eqn:Hd; cbn -[take_branch]; [|done].
    intros Hb Hl. apply take_branch_backed in Hb; [done|]. cbn.
    apply retry_dropped_frame in Hd as [Hs _]. by apply (backed_same (loop s)).
  - by intros [= <-].
  - by intros [= <-].
  - unfold drain_joined. destruct (at_phase s) as [|d [e|] r| |]; try done.
    destruct js as [|j js]; [done|].
    destruct (take_finished _ _) as [f|] eqn:Hf; cbn -[record_publish_results]; [|done].
    destruct (record_publish_results _ _ _ _) as [[l1 a1]|] eqn:Hr.
    + destruct (retry_unwritten_outcomes _ _ _ _) as [[[w l] a] out] eqn:Eu.
      apply retry_unwritten_outcomes_frame in Eu as [Hs _]. intros [= <-] Hb. cbn.
      eapply backed_same; [exact Hs|]. by eapply joined_backed.
    + by intros [= <-].
  - unfold drain_end. destruct (at_phase s); try done. destruct (_ || _ || _); [|done].
    destruct (finish_drain _ _ _ _ _) as [[[w l] a] p] eqn:Hf. intros [= <-] _ id. cbn.
    unfold finish_drain in Hf. destruct perm as [e|].
    + destruct (release_refs _ _ _ _). injection Hf as _ <- _ _. cbn. by intros [? ?].
    + destruct (retry_unwritten_outcomes _ _ _ _) as [[[w1 l1] a1] out].
      destruct (release_refs _ _ _ _). injection Hf as _ <- _ _. cbn. by intros [? ?].
Qed.

Lemma reachable_backed (s : sys W E) : reachable settings worker retry s → backed (loop s).
Proof.
  induction 1 as [w|e s s' _ IH Hs]; [|by eapply step_backed].
  intros id. cbn. by intros [? ?].
Qed.

(** ** The steps that settle the rows held *)

(** A task moving on, a join, a round of outcome writes. *)
Definition settles (e : event W) : bool :=
  match e with
  | ETaskStart _ | ETaskFinish _ _ | ETaskPanic _ | ETaskCancelled _ => true
  | EIterate NotSent (BJoined _) _ | EIterate NotSent BRetry _ => true
  | _ => false
  end.

(** A round that lands leaves nothing unwritten, and no permanent error. *)
Definition lands (e : event W) (s' : sys W E) : bool :=
  match e with
  | EIterate _ BRetry _ =>
      negb (has_unwritten (loop s')) && match at_phase s' with Running => true | _ => false end
  | _ => true
  end.
Definition settling (s s' : sys W E) : Prop :=
  ∃ e, settles e = true ∧ step settings worker retry e s = Some s' ∧ lands e s' = true.

(** A schedule of such steps. *)
Fixpoint settle_run (es : list (event W)) (s : sys W E) : option (sys W E) :=
  match es with
  | [] => Some s
  | e :: es =>
      s' ← step settings worker retry e s;
      if settles e && lands e s' then settle_run es s' else None
  end.

Lemma settle_run_nsteps es s s' : settle_run es s = Some s' → nsteps settling (length es) s s'.
Proof.
  revert s; induction es as [|e es IH]; intros s; cbn; [intros [= <-]; constructor|].
  destruct (step _ _ _ e s) as [s1|] eqn:Hs; cbn; [|done].
  destruct (settles e && lands e s1) eqn:He; [|done]. apply andb_true_iff in He as [He Hl].
  intros Hn%IH. econstructor; [|exact Hn]. by exists e.
Qed.

(** The loop runs, and a write is not being held back. *)
Definition active (s : sys W E) : Prop :=
  at_phase s = Running ∧ cancelled s = false
  ∧ next_outcome_retry_at (loop s) ≤ instant (world s).

Definition to_settle (s : sys W E) : nat :=
  match at_phase s with
  | Running => 1 + 2 * work (in_flight (loop s)) + if has_unwritten (loop s) then 1 else 0
  | _ => 0
  end%nat.

Lemma with_loop_active l a (s : sys W E) :
  next_outcome_retry_at l = next_outcome_retry_at (loop s) → active s →
  active (with_loop l (world s) a s).
Proof. intros Hn (Hp & Hc & Hd). split_and!; cbn; [done..|by rewrite Hn]. Qed.

Lemma spawn_ready_nil pt l : pending l = [] → spawn_ready pt l = l.
Proof. unfold spawn_ready. intros Hp. rewrite Hp. cbn. rewrite <-Hp. apply set_pending_id. Qed.

Lemma record_publish_results_due now js l l' a :
  record_publish_results retry now js l = Some (l', a) →
  next_outcome_retry_at l' = next_outcome_retry_at l.
Proof.
  revert l l' a; induction js as [|j js IH]; intros l l' a; cbn; [by intros [= <- _]|].
  destruct (record_result retry now j l) as [[l1 a1]|] eqn:Hr; cbn; [|done].
  destruct (record_publish_results retry now js l1) as [[l2 a2]|] eqn:Hrs; cbn; [|done].
  intros [= <- _]. apply record_result_frame in Hr as (_ & _ & _ & _ & <- & _). by eapply IH.
Qed.

Lemma retry_unwritten_outcomes_tasks l w w' l' a out :
  retry_unwritten_outcomes settings worker l w = (w', l', a, out) → in_flight l' = in_flight l.
Proof. by intros [(_ & ? & _) _]%retry_unwritten_outcomes_frame. Qed.

(** A join frees its tasks, and may leave one more round to write. *)
Lemma join_settles js seen (s s' : sys W E) :
  pending (loop s) = [] → active s →
  take_branch settings worker retry (outstanding_count (loop s)) (lease_refs (loop s))
    (BJoined js) seen s = Some s' →
  (to_settle s' < to_settle s)%nat ∧ (at_phase s' = Crashed ∨ active s').
Proof.
  intros Hpend Hact. cbn [take_branch]. destruct js as [|j js]; [done|].
  destruct (take_finished _ _) as [f|] eqn:Hf; cbn -[record_publish_results]; [|done].
  apply take_finished_work in Hf as Hw. cbn [length] in Hw.
  destruct (record_publish_results _ _ _ _) as [[l1 a1]|] eqn:Hr; intros [= <-].
  - rewrite spawn_ready_nil by (by rewrite (record_publish_results_pending _ _ _ _ _ _ Hr)).
    pose proof (record_publish_results_in_flight _ _ _ _ _ _ Hr) as Hf1. cbn in Hf1.
    split.
    + unfold to_settle. cbn [loop with_loop at_phase]. rewrite (proj1 Hact), Hf1.
      destruct (has_unwritten l1); lia.
    + right. apply with_loop_active; [|done]. by rewrite (record_publish_results_due _ _ _ _ _ Hr).
  - split; [|by left]. unfold to_settle. rewrite (proj1 Hact). cbn. lia.
Qed.

Lemma round_settles seen (s s' : sys W E) :
  active s →
  take_branch settings worker retry (outstanding_count (loop s)) (lease_refs (loop s))
    BRetry seen s = Some s' →
  has_unwritten (loop s') = false → at_phase s' = Running →
  (to_settle s' < to_settle s)%nat ∧ active s'.
Proof.
  intros Hact. cbn [take_branch]. destruct (has_unwritten (loop s)) eqn:Hu; cbn; [|done].
  destruct (_ <=? _); [|done]. unfold retry_branch.
  destruct (retry_unwritten_outcomes _ _ _ _) as [[[w l] a] out] eqn:Er.
  apply retry_unwritten_outcomes_tasks in Er as Hf.
  destruct (permanent out); intros [= <-] Hlands Hrun.
  { by destruct (stop_claiming_in_flight_work settings worker seen (Some e)
      (with_loop (set_next_retry (if any_failed out && has_unwritten l
         then instant w + outcome_retry_interval settings else instant w) l) w a s))
      as (_ & _ & d & Hd); rewrite Hd in Hrun. }
  cbn in Hlands. change (has_unwritten l = false) in Hlands. split.
  - unfold to_settle. cbn [loop with_loop at_phase]. rewrite (proj1 Hact), Hu.
    change (has_unwritten (set_next_retry _ l)) with (has_unwritten l). rewrite Hlands. cbn. rewrite Hf. lia.
  - destruct Hact as (Hp & Hc & _). split_and!; [done..|]. cbn. rewrite Hlands, andb_false_r. lia.
Qed.

Lemma settling_step (s s' : sys W E) :
  settings_ok settings → reachable settings worker retry s → active s → settling s s' →
  (to_settle s' < to_settle s)%nat ∧ (at_phase s' = Crashed ∨ active s').
Proof.
  intros Hok Hr Hact (e & He & Hs & Hland).
  pose proof (reachable_inv _ _ _ _ Hok Hr) as [_ Hph _]. rewrite (proj1 Hact) in Hph.
  destruct Hph as [Hpend _ _].
  unfold step in Hs. assert (Hst : stopped s = false) by (unfold stopped; by rewrite (proj1 Hact)).
  rewrite Hst in Hs.
  assert (Htask : task_step settings e s = Some s' →
    (to_settle s' < to_settle s)%nat ∧ (at_phase s' = Crashed ∨ active s')).
  { intros Ht. apply task_step_remaining in Ht as Hrem. destruct Hrem as (_ & _ & Hw).
    apply task_step_shape in Ht as (id & t & t' & a & _ & -> & _). split.
    - unfold to_settle. cbn [at_phase with_loop loop] in *. rewrite (proj1 Hact).
      change (has_unwritten (set_task id t' (loop s))) with (has_unwritten (loop s)). lia.
    - right. by apply with_loop_active. }
  destruct e as [p b seen| | | | | | | |]; try done; try exact (Htask Hs).
  unfold iterate in Hs. rewrite (proj1 Hact), (proj1 (proj2 Hact)) in Hs.
  destruct p; [|by destruct b..]. cbn -[take_branch] in Hs.
  destruct b as [|js| | | |]; cbn [wins negb] in Hs; try done;
    cbn -[take_branch] in Hs; destruct s as [l ph w token log0]; unfold with_loop in Hs;
    rewrite app_nil_r in Hs.
  - by apply join_settles in Hs.
  - cbn in Hland. apply andb_true_iff in Hland as [Hu%negb_true_iff Hrun].
    destruct (at_phase s') eqn:Hp'; try done. apply round_settles in Hs as [? ?]; auto.
Qed.

(** ** And such a step is enabled as long as a row is held *)

Lemma settle_enabled (s : sys W E) :
  settings_ok settings → reachable settings worker retry s → active s →
  outstanding_count (loop s) ≠ 0%nat →
  ∃ e s', settles e = true ∧ step settings worker retry e s = Some s'.
Proof.
  intros Hok Hr (Hph & Htok & Hdue) Hcount. apply settings_ok_positive in Hok as [_ Hmax].
  assert (Hst : stopped s = false) by (unfold stopped; by rewrite Hph).
  destruct (has_unwritten (loop s)) eqn:Hu.
  { exists (EIterate NotSent BRetry (λ _, false)). unfold step, iterate.
    rewrite Hst, Hph, Htok. cbn -[retry_branch]. rewrite Hu, (proj2 (Z.leb_le _ _)) by done.
    cbn -[retry_branch]. destruct (retry_branch _ _ _ _) as [[[w l] a] p]. by eexists. }
  assert (Hne : in_flight (loop s) ≠ ∅).
  { intros Hf. assert (Ho : outstanding (loop s) = ∅).
    { apply map_empty. intros id. destruct (outstanding (loop s) !! id) eqn:Hid; [|done].
      destruct (reachable_backed s Hr id) as [t Ht]; [by eexists|]. by rewrite Hf in Ht. }
    unfold outstanding_count in Hcount. rewrite Ho, map_size_empty in Hcount.
    unfold has_unwritten in Hu. by destruct (unwritten_complete _), (unwritten_fail _). }
  destruct (decide (running_tasks (loop s) = 0%nat)) as [Hrun|Hrun].
  - apply map_choose in Hne as (id & t & Hid). destruct (status t) as [| |r] eqn:Hs.
    + exists (ETaskStart id). unfold step. cbn. rewrite Hst, Hid. cbn. rewrite Hs, Hrun.
      rewrite (proj2 (Z.ltb_lt _ _)); [by eexists|]. cbn. lia.
    + exists (ETaskFinish id TimedOutAttempt). unfold step. cbn. rewrite Hst, Hid. cbn. rewrite Hs. by eexists.
    + exists (EIterate NotSent (BJoined [mkJoined id r 0]) (λ _, false)).
      unfold step, iterate. rewrite Hst, Hph, Htok.
      cbn -[record_publish_results]. rewrite Hid. cbn -[record_publish_results].
      rewrite Hs, bool_decide_eq_true_2 by done. cbn -[record_publish_results].
      destruct (record_publish_results _ _ _ _) as [[l1 a1]|]; by eexists.
  - unfold running_tasks in Hrun. apply map_size_ne_0_lookup in Hrun as (id & [t Hid]).
    apply map_lookup_filter_Some in Hid as [Hid Hp]. cbn in Hp. unfold is_publishing in Hp.
    exists (ETaskFinish id TimedOutAttempt). unfold step. cbn. rewrite Hst, Hid. cbn.
    destruct (status t); try done. by eexists.
Qed.

Lemma settling_reachable (s s' : sys W E) :
  reachable settings worker retry s → settling s s' → reachable settings worker retry s'.
Proof. intros Hr (e & _ & Hs & _). by eapply reach_step. Qed.

End liveness.

(** ** A run that settles both its rows *)

#[local] Existing Instance default_time_range.

Definition settle_start : sys MemWorld InMemoryStoreError :=
  run_state [EIterate NotSent BPoll seen_all].
Definition settle_steps : list (event MemWorld) :=
  [ETaskStart 0; ETaskStart 1; ETaskFinish 0 Acked; ETaskFinish 1 (Refused Transient "no route")]
  ++ run_write.

