(* ===== verification/TestSupport.v ===== *)
(** * Fakes and the metrics hook ([reliar-outbox], metrics.rs, test_support/)

    The recording and the scripted publisher and the recording metrics that the crate
    ships for its users' tests.  A publish is an [async] block: what it does on its first
    poll and what it does when it completes are two functions on the locked state, and a
    schedule interleaves them for several tasks. *)

From S2P Require Import Prelude RustString CoreTypes CoreHeaders CoreEnvelope OutboxTypes.
From S2P Require Import OutboxRetry OutboxSettings OutboxRouting.

Open Scope Z_scope.

(** ** [FakePublishError] *)

(* src: outbox/test_support/publisher.rs 265-278 FakePublishError *)
Inductive FakePublishError := FTransient (detail : string) | FPermanent (detail : string).

(* src: outbox/test_support/publisher.rs 280-291 FakePublishError::fmt *)
Definition fake_publish_error_display (e : FakePublishError) : string :=
  match e with
  | FTransient detail => "scripted publish failure (transient): " +:+ detail
  | FPermanent detail => "scripted publish failure (permanent): " +:+ detail
  end.

(* src: outbox/test_support/publisher.rs 295-302 FakePublishError::kind *)
Global Instance FakePublishError_Classify : Classify FakePublishError := λ e,
  match e with FTransient _ => Transient | FPermanent _ => Permanent end.

(** ** [RecordingPublisher] *)

Module RecordingPublisher.
(** The counters are [usize]s; a decrement at zero would panic. *)
  (* src: outbox/test_support/publisher.rs 25-31 RecordingInner *)
Record Inner := mkInner {
  published : list MessageId.t;
  envelopes : list SerializedEnvelope;
  in_flight : Z;
  in_flight_peak : Z;
}.
  (* src: outbox/test_support/publisher.rs 19-23 RecordingPublisher *)
Record t := mk { inner : Inner; concurrency_probe : option Duration }.
Definition inner_default : Inner := mkInner [] [] 0 0.
Definition default : t := mk inner_default None.
  (* src: outbox/test_support/publisher.rs 38-44 RecordingPublisher::with_concurrency_probe *)
Definition with_concurrency_probe (delay : Duration) : t := mk inner_default (Some delay).

  (* src: outbox/test_support/publisher.rs 60-67 RecordingPublisher::count *)
Definition count (id : MessageId.t) (s : Inner) : nat :=
  length (filter (λ seen, seen = id) (published s)).

(** The first poll of the future [publish] returns. *)
  (* src: outbox/test_support/publisher.rs 88-107 RecordingPublisher::publish *)
Definition begin_publish (e : SerializedEnvelope) (s : Inner) : Inner :=
  let n := (in_flight s + 1)%Z in
  mkInner (published s ++ [Envelope.id e]) (envelopes s ++ [e]) n (Z.max (in_flight_peak s) n).

(** What follows the sleep; [None] is the overflow of the decrement. *)
  (* src: outbox/test_support/publisher.rs 109-119 RecordingPublisher::publish *)
Definition end_publish (s : Inner) : option (Inner * result unit FakePublishError) :=
  if in_flight s <=? 0 then None
  else Some (mkInner (published s) (envelopes s) (in_flight s - 1) (in_flight_peak s), Ok ()).

(** A task polls its publish a first time, polls it to completion, or is dropped while
    it sleeps: nothing of the future runs then. *)
Inductive event := Begin (task : nat) (e : SerializedEnvelope) | End (task : nat) | Drop (task : nat).

(** The tasks inside a publish, the publishes dropped part-way, and the recorder. *)
Record schedule := mkSchedule { open : gset nat; dropped : nat; recorder : Inner }.
Definition start : schedule := mkSchedule ∅ 0 inner_default.

Definition step (ev : event) (s : schedule) : option schedule :=
  match ev with
  | Begin i e =>
      if bool_decide (i ∈ open s) then None
      else Some (mkSchedule ({[i]} ∪ open s) (dropped s) (begin_publish e (recorder s)))
  | End i =>
      if bool_decide (i ∈ open s) then
        '(r, _) ← end_publish (recorder s); Some (mkSchedule (open s ∖ {[i]}) (dropped s) r)
      else None
  | Drop i =>
      if bool_decide (i ∈ open s)
      then Some (mkSchedule (open s ∖ {[i]}) (S (dropped s)) (recorder s)) else None
  end.

Fixpoint run (es : list event) (s : schedule) : option schedule :=
  match es with [] => Some s | ev :: es => s' ← step ev s; run es s' end.

Definition begun (es : list event) : list SerializedEnvelope :=
  omap (λ ev, match ev with Begin _ e => Some e | _ => None end) es.
End RecordingPublisher.

(** ** [ScriptedPublisher] *)

(* src: outbox/test_support/publisher.rs 124-138 PublishStep *)
Inductive PublishStep := StepOk | StepTransient | StepPermanent | Hang (d : Duration) | Panic.

Module ScriptedPublisher.
  (* src: outbox/test_support/publisher.rs 146-158 Script *)
Inductive Script :=
  | Positional (steps : list PublishStep) (next : Z)
  | Keyed (steps : gmap Z PublishStep).
  (* src: outbox/test_support/publisher.rs 160-164 ScriptedInner *)
Record t := mk { script : Script; published : list MessageId.t }.
  (* src: outbox/test_support/publisher.rs 168-179 ScriptedPublisher::new *)
Definition new (steps : list PublishStep) : t := mk (Positional steps 0) [].
(** Collecting into a [HashMap]: the last entry of a key stays. *)
  (* src: outbox/test_support/publisher.rs 182-190 ScriptedPublisher::keyed *)
Definition keyed (steps : list (MessageId.t * PublishStep)) : t :=
  mk (Keyed (fold_left (λ m p, <[MessageId.as_uuid p.1 := p.2]> m) steps ∅)) [].
  (* src: outbox/test_support/publisher.rs 193-196 ScriptedPublisher::always *)
Definition always (s : PublishStep) : t := new [s].

(** [next] counts in [usize]. *)
  (* src: outbox/test_support/publisher.rs 212-226 ScriptedPublisher::step_for *)
Definition step_for (id : MessageId.t) (s : t) : t * PublishStep :=
  let published := published s ++ [id] in
  match script s with
  | Positional steps next =>
      match length steps with
      | O => (mk (Positional steps next) published, StepOk)
      | S last =>
          let index := Z.min next (Z.of_nat last) in
          (mk (Positional steps (Z.min (next + 1) U64_MAX)) published,
           nth (Z.to_nat index) steps StepOk)
      end
  | Keyed steps =>
      (mk (Keyed steps) published, default StepOk (steps !! MessageId.as_uuid id))
  end.

(** The time a publish takes and what it returns; [None] is its panic. *)
  (* src: outbox/test_support/publisher.rs 236-261 ScriptedPublisher::publish *)
Definition resolve (s : PublishStep) : Duration * option (result unit FakePublishError) :=
  match s with
  | StepOk => (0, Some (Ok ()))
  | StepTransient => (0, Some (Err (FTransient "scripted transient failure")))
  | StepPermanent => (0, Some (Err (FPermanent "scripted permanent failure")))
  | Hang duration => (duration, Some (Ok ()))
  | Panic => (0, None)
  end.

Definition publish (e : SerializedEnvelope) (s : t)
  : t * (Duration * option (result unit FakePublishError)) :=
  let '(s, step) := step_for (Envelope.id e) s in (s, resolve step).

Fixpoint publish_all (es : list SerializedEnvelope) (s : t)
  : t * list (option (result unit FakePublishError)) :=
  match es with
  | [] => (s, [])
  | e :: es =>
      let '(s, (_, r)) := publish e s in
      let '(s, rs) := publish_all es s in (s, r :: rs)
  end.
End ScriptedPublisher.

(** ** The metrics hook *)

(** A hook acts on the state [M] of its implementation. *)
(* src: outbox/metrics.rs 17-44 OutboxMetrics *)
Class OutboxMetrics (M : Type) := {
  on_claimed : nat → M → M;
  on_published : nat → MessageType.t → M → M;
  on_retried : nat → FailureKind → M → M;
  on_dead : nat → DeadReason → M → M;
  on_publish_duration : Duration → MessageType.t → M → M;
  on_pending : Z → M → M;
  on_expired_pending : Z → M → M;
  on_oldest_pending_age : Duration → M → M;
  on_purged : Z → Z → M → M;
  on_routed : RouteKind → MessageType.t → M → M;
}.

(* src: outbox/metrics.rs 47-50 NoopMetrics *)
Global Instance NoopMetrics : OutboxMetrics unit := {|
  on_claimed _ m := m; on_published _ _ m := m; on_retried _ _ m := m; on_dead _ _ m := m;
  on_publish_duration _ _ m := m; on_pending _ m := m; on_expired_pending _ m := m;
  on_oldest_pending_age _ m := m; on_purged _ _ m := m; on_routed _ _ m := m;
|}.

Module RecordingMetrics.
(** [claimed] is a sum in [usize]. *)
  (* src: outbox/test_support/metrics.rs 22-34 Inner *)
Record t := mk {
  claimed : nat;
  published : list MessageType.t;
  retried : list FailureKind;
  dead : list DeadReason;
  pending : option Z;
  expired_pending : option Z;
  oldest_pending_age : option Duration;
  purged : option (Z * Z);
  publish_duration : option (Duration * MessageType.t);
  routed : list (RouteKind * MessageType.t);
}.
Definition default : t := mk 0 [] [] [] None None None None None [].

  (* src: outbox/test_support/metrics.rs 107-109 OutboxMetrics::claimed *)
Definition add_claimed (n : nat) (m : t) : t :=
  mk (claimed m + n) (published m) (retried m) (dead m) (pending m) (expired_pending m)
    (oldest_pending_age m) (purged m) (publish_duration m) (routed m).
  (* src: outbox/test_support/metrics.rs 111-116 OutboxMetrics::published *)
Definition add_published (n : nat) (ty : MessageType.t) (m : t) : t :=
  mk (claimed m) (published m ++ repeat ty n) (retried m) (dead m) (pending m)
    (expired_pending m) (oldest_pending_age m) (purged m) (publish_duration m) (routed m).
  (* src: outbox/test_support/metrics.rs 118-121 OutboxMetrics::retried *)
Definition add_retried (n : nat) (kind : FailureKind) (m : t) : t :=
  mk (claimed m) (published m) (retried m ++ repeat kind n) (dead m) (pending m)
    (expired_pending m) (oldest_pending_age m) (purged m) (publish_duration m) (routed m).
  (* src: outbox/test_support/metrics.rs 123-126 OutboxMetrics::dead *)
Definition add_dead (n : nat) (reason : DeadReason) (m : t) : t :=
  mk (claimed m) (published m) (retried m) (dead m ++ repeat reason n) (pending m)
    (expired_pending m) (oldest_pending_age m) (purged m) (publish_duration m) (routed m).
  (* src: outbox/test_support/metrics.rs 128-130 OutboxMetrics::publish_duration *)
Definition set_publish_duration (d : Duration) (ty : MessageType.t) (m : t) : t :=
  mk (claimed m) (published m) (retried m) (dead m) (pending m) (expired_pending m)
    (oldest_pending_age m) (purged m) (Some (d, ty)) (routed m).
  (* src: outbox/test_support/metrics.rs 132-134 OutboxMetrics::pending *)
Definition set_pending (n : Z) (m : t) : t :=
  mk (claimed m) (published m) (retried m) (dead m) (Some n) (expired_pending m)
    (oldest_pending_age m) (purged m) (publish_duration m) (routed m).
  (* src: outbox/test_support/metrics.rs 136-138 OutboxMetrics::expired_pending *)
Definition set_expired_pending (n : Z) (m : t) : t :=
  mk (claimed m) (published m) (retried m) (dead m) (pending m) (Some n)
    (oldest_pending_age m) (purged m) (publish_duration m) (routed m).
  (* src: outbox/test_support/metrics.rs 140-142 OutboxMetrics::oldest_pending_age *)
Definition set_oldest_pending_age (age : Duration) (m : t) : t :=
  mk (claimed m) (published m) (retried m) (dead m) (pending m) (expired_pending m)
    (Some age) (purged m) (publish_duration m) (routed m).
  (* src: outbox/test_support/metrics.rs 144-146 OutboxMetrics::purged *)
Definition set_purged (p d : Z) (m : t) : t :=
  mk (claimed m) (published m) (retried m) (dead m) (pending m) (expired_pending m)
    (oldest_pending_age m) (Some (p, d)) (publish_duration m) (routed m).
  (* src: outbox/test_support/metrics.rs 148-150 OutboxMetrics::routed *)
Definition add_routed (route : RouteKind) (ty : MessageType.t) (m : t) : t :=
  mk (claimed m) (published m) (retried m) (dead m) (pending m) (expired_pending m)
    (oldest_pending_age m) (purged m) (publish_duration m) (routed m ++ [(route, ty)]).

  (* src: outbox/test_support/metrics.rs 106-151 RecordingMetrics *)
Global Instance RecordingMetrics_OutboxMetrics : OutboxMetrics t := {|
  on_claimed := add_claimed; on_published := add_published; on_retried := add_retried;
  on_dead := add_dead; on_publish_duration := set_publish_duration; on_pending := set_pending;
  on_expired_pending := set_expired_pending; on_oldest_pending_age := set_oldest_pending_age;
  on_purged := set_purged; on_routed := add_routed;
|}.
End RecordingMetrics.

(** ** What the fakes record *)

Definition sample_order : SerializedEnvelope := sample_message 1 "orders" [].

Module Recording.
Import RecordingPublisher.

(** What holds of a recorder after the events [es]. *)
Record recorded (es : list event) (s : schedule) : Prop := {
  rec_envelopes : envelopes (recorder s) = begun es;
  rec_published : published (recorder s) = Envelope.id <$> begun es;
  rec_in_flight : in_flight (recorder s) = Z.of_nat (size (open s) + dropped s);
  rec_peak : in_flight (recorder s) ≤ in_flight_peak (recorder s);
}.

Lemma recorded_step es ev s s' : recorded es s → step ev s = Some s' → recorded (es ++ [ev]) s'.
Proof.
  intros [He Hp Hf Hk]. unfold begun in *. destruct ev as [i e|i|i]; cbn.
  - case_bool_decide as Hi; [done|]. intros [= <-]. constructor; unfold begun; cbn.
    + by rewrite omap_app, He.
    + by rewrite omap_app, fmap_app, Hp.
    + rewrite size_union, size_singleton by set_solver. lia.
    + lia.
  - case_bool_decide as Hi; [|done]. unfold end_publish. case_match; cbn; [done|].
    intros [= <-]. constructor; unfold begun; cbn.
    + by rewrite omap_app, app_nil_r.
    + by rewrite omap_app, app_nil_r.
    + rewrite size_difference, size_singleton by set_solver.
      assert (size (open s) ≠ 0)%nat by (intros Hz%size_empty_inv; set_solver). lia.
    + lia.
  - case_bool_decide as Hi; [|done]. intros [= <-]. constructor; unfold begun; cbn.
    + by rewrite omap_app, app_nil_r.
    + by rewrite omap_app, app_nil_r.
    + rewrite size_difference, size_singleton by set_solver.
      assert (size (open s) ≠ 0)%nat by (intros Hz%size_empty_inv; set_solver). lia.
    + lia.
Qed.

Lemma recorded_run es0 es s s' : recorded es0 s → run es s = Some s' → recorded (es0 ++ es) s'.
Proof.
  revert es0 s; induction es as [|ev es IH]; intros es0 s Hs; cbn.
  { intros [= <-]. by rewrite app_nil_r. }
  destruct (step ev s) as [s1|] eqn:H1; cbn; [|done]. intros Hrun.
  rewrite (cons_middle ev es0 es), app_assoc. eapply IH; [|exact Hrun]. by eapply recorded_step.
Qed.

Lemma recorded_start : recorded [] start.
Proof. constructor; cbn; [done|done| |done]. by rewrite size_empty. Qed.

(** The peak over a schedule is the highest count of any moment of it. *)
Lemma step_peak ev s s' :
  step ev s = Some s' → in_flight (recorder s) ≤ in_flight_peak (recorder s) →
  in_flight_peak (recorder s') = Z.max (in_flight_peak (recorder s)) (in_flight (recorder s')).
Proof.
  destruct ev as [i e|i|i]; cbn; case_bool_decide; try done.
  - by intros [= <-].
  - unfold end_publish. case_match; cbn; [done|]. intros [= <-]. cbn. lia.
  - intros [= <-]. cbn. lia.
Qed.

Lemma run_app es1 es2 s : run (es1 ++ es2) s = s' ← run es1 s; run es2 s'.
Proof.
  revert s; induction es1 as [|ev es1 IH]; intros s; cbn; [done|].
  destruct (step ev s) as [s1|]; cbn; [apply IH|done].
Qed.

(** The recording publisher under any interleaving of publish tasks, some of them
    dropped while they sleep: it has recorded exactly the envelopes whose publish was
    polled, in the order of their first polls and with their repetitions; its in-flight
    count is the number of tasks inside a publish plus the publishes ever dropped, so a
    publish that completes never underflows it; and its peak is the greatest such count
    of any moment. *)
Theorem recording_publisher_spec (es : list event) (s : schedule) (Hrun : run es start = Some s) :
  envelopes (recorder s) = begun es
  ∧ published (recorder s) = Envelope.id <$> begun es
  ∧ in_flight (recorder s) = Z.of_nat (size (open s) + dropped s)
  ∧ (∀ i, i ∈ open s → is_Some (end_publish (recorder s)))
  ∧ (∀ es1 es2 s1, es = es1 ++ es2 → run es1 start = Some s1 →
       Z.of_nat (size (open s1) + dropped s1) ≤ in_flight_peak (recorder s))
  ∧ ∃ es1 es2 s1, es = es1 ++ es2 ∧ run es1 start = Some s1
      ∧ in_flight_peak (recorder s) = Z.of_nat (size (open s1) + dropped s1).
Proof.
  pose proof (recorded_run _ _ _ _ recorded_start Hrun) as Hs. pose proof Hs as [He Hp Hf Hk].
  do 3 (split; [done|]). split.
  { intros i Hi. unfold end_publish. rewrite (proj2 (Z.leb_gt _ _)); [by eexists|].
    rewrite Hf. assert (size (open s) ≠ 0)%nat by (intros Hz%size_empty_inv; set_solver). lia. }
  clear He Hp Hf Hk Hs. revert s Hrun. induction es as [|ev es IH] using rev_ind; intros s Hrun.
  { injection Hrun as <-. split.
    - intros es1 es2 s1 [-> ->]%eq_sym%app_nil [= <-]. cbn. by rewrite size_empty.
    - exists [], [], start. cbn. by rewrite size_empty. }
  rewrite run_app in Hrun. destruct (run es start) as [s0|] eqn:H0; cbn in Hrun; [|done].
  destruct (step ev s0) as [s'|] eqn:Hstep; cbn in Hrun; [|done]. injection Hrun as ->.
  pose proof (recorded_run _ _ _ _ recorded_start H0) as Hs0. cbn in Hs0.
  pose proof (rec_in_flight _ _ (recorded_step _ _ _ _ Hs0 Hstep)) as Hf.
  rewrite (step_peak _ _ _ Hstep (rec_peak _ _ Hs0)), Hf.
  destruct (IH _ eq_refl) as [Hle (es1 & es2 & s1 & -> & H1 & Hpk)]. split.
  - intros es1' es2' s1' Heq H1'. destruct es2' as [|ev' es2'] using rev_ind.
    + rewrite app_nil_r in Heq. subst es1'. rewrite run_app, H0 in H1'. cbn in H1'.
      rewrite Hstep in H1'. injection H1' as <-. lia.
    + rewrite app_assoc in Heq. apply app_inj_tail in Heq as [Heq _].
      specialize (Hle _ _ _ Heq H1'). lia.
  - destruct (Z.max_spec (in_flight_peak (recorder s0)) (Z.of_nat (size (open s) + dropped s)))
      as [[_ ->]|[_ ->]].
    + exists ((es1 ++ es2) ++ [ev]), [], s. rewrite app_nil_r, run_app, H0. cbn. by rewrite Hstep.
    + exists es1, (es2 ++ [ev]), s1. by rewrite app_assoc.
Qed.

(** Two publishes in a row, the first dropped by its timeout while it slept: never two at
    once, and yet the peak is two. *)
Definition drop_schedule (e1 e2 : SerializedEnvelope) : list event :=
  [Begin 0 e1; Drop 0; Begin 1 e2; End 1].

Lemma recording_publisher_spec_witness :
  ∃ s, run (drop_schedule sample_order sample_order) start = Some s
    ∧ in_flight (recorder s) = 1 ∧ length (published (recorder s)) = 2%nat.
Proof.
  destruct (run (drop_schedule sample_order sample_order) start) as [s|] eqn:Hrun;
    [|exfalso; vm_compute in Hrun; discriminate].
  destruct (recording_publisher_spec _ s Hrun) as (_ & Hp & Hf & _).
  exists s. split_and!; [done| |].
  - rewrite Hf. vm_compute in Hrun. injection Hrun as <-. vm_compute. reflexivity.
  - rewrite Hp. vm_compute. reflexivity.
Defined.

(** A publish dropped part-way is counted as in flight for ever, so the peak overstates
    the concurrency there was. *)
Theorem dropped_publish_overstates_peak (e1 e2 : SerializedEnvelope) :
  ∃ s, run (drop_schedule e1 e2) start = Some s
    ∧ in_flight_peak (recorder s) = 2 ∧ in_flight (recorder s) = 1 ∧ open s = ∅
    ∧ ∀ es1 es2 s1, drop_schedule e1 e2 = es1 ++ es2 → run es1 start = Some s1 →
        (size (open s1) ≤ 1)%nat.
Proof.
  eexists. split_and!; [cbn; reflexivity|reflexivity|reflexivity|set_solver|].
  intros es1 es2 s1 Heq. unfold drop_schedule in Heq.
  do 5 (destruct es1 as [|? es1]; [intros [= <-]; cbn; rewrite ?union_empty_r_L, ?size_singleton, ?size_empty;
    first [lia|apply Nat.eq_le_incl; set_solver|vm_compute; lia]|
    try (injection Heq as <- Heq)]).
  discriminate.
Qed.
End Recording.

Module Scripted.
Import ScriptedPublisher.

Lemma publish_all_app es1 es2 s :
  publish_all (es1 ++ es2) s
  = let '(s1, rs1) := publish_all es1 s in
    let '(s2, rs2) := publish_all es2 s1 in (s2, rs1 ++ rs2).
Proof.
  revert s; induction es1 as [|e es1 IH]; intros s; cbn; [by destruct (publish_all es2 s)|].
  destruct (publish e s) as [s0 [d r]]. rewrite IH. destruct (publish_all es1 s0).
  by destruct (publish_all es2 _).
Qed.

Lemma publish_all_published es s :
  published (fst (publish_all es s)) = published s ++ (Envelope.id <$> es).
Proof.
  revert s; induction es as [|e es IH]; intros s; cbn; [by rewrite app_nil_r|].
  destruct (publish e s) as [s0 [d r]] eqn:E. specialize (IH s0).
  destruct (publish_all es s0). cbn in *. rewrite IH.
  replace (published s0) with (published s ++ [Envelope.id e]); [by rewrite <-app_assoc|].
  unfold publish, step_for in E. apply (f_equal fst) in E.
  destruct (script s) as [steps n|m]; [destruct steps|]; cbn in E; by subst s0.
Qed.

(** The step of the [i]-th call of a positional script. *)
Definition nth_step (steps : list PublishStep) (i : nat) : PublishStep :=
  nth (Nat.min i (Nat.pred (length steps))) steps StepOk.

Lemma positional_step id steps i ids :
  Z.of_nat i ≤ U64_MAX →
  ∃ j, step_for id (mk (Positional steps (Z.of_nat i)) ids)
       = (mk (Positional steps j) (ids ++ [id]), nth_step steps i)
    ∧ (steps = [] ∨ j = Z.min (Z.of_nat (S i)) U64_MAX).
Proof.
  intros Hi. unfold step_for, nth_step. cbn. destruct steps as [|st steps].
  - exists (Z.of_nat i). by destruct i; split; auto.
  - exists (Z.min (Z.of_nat i + 1) U64_MAX). split; [|right; lia]. cbn [length Nat.pred].
    do 2 f_equal. lia.
Qed.

Lemma empty_script es k ids a :
  snd (publish_all es (mk (Positional [] k) ids))
  = (λ j, snd (resolve (nth_step [] j))) <$> seq a (length es).
Proof.
  revert a k ids; induction es as [|e es IH]; intros a k ids; [done|].
  cbn [publish_all length seq fmap list_fmap]. unfold publish, step_for. cbn [script length].
  rewrite <-(IH (S a) k (ids ++ [Envelope.id e])). cbn [published next].
  replace (nth_step [] a) with StepOk by (by destruct a as [|[]]). cbn [resolve].
  by destruct (publish_all es _).
Qed.

Lemma positional_all es steps i ids :
  Z.of_nat (i + length es) ≤ U64_MAX →
  snd (publish_all es (mk (Positional steps (Z.of_nat i)) ids))
  = (λ j, snd (resolve (nth_step steps j))) <$> seq i (length es).
Proof.
  revert i ids; induction es as [|e es IH]; intros i ids Hb; [done|].
  cbn [publish_all length seq fmap list_fmap] in *. unfold publish.
  destruct (positional_step (Envelope.id e) steps i ids) as (j & -> & Hj); [lia|].
  destruct (resolve (nth_step steps i)) as [d r] eqn:Er. cbn [snd].
  destruct Hj as [->| ->].
  - rewrite <-(empty_script es j (ids ++ [Envelope.id e])). by destruct (publish_all es _).
  - rewrite Z.min_l by lia. rewrite <-(IH (S i) (ids ++ [Envelope.id e])) by lia.
    by destruct (publish_all es _).
Qed.

(** The last entry of a key. *)
Definition keyed_step (pairs : list (MessageId.t * PublishStep)) (id : MessageId.t) : PublishStep :=
  default StepOk (snd <$> last (filter (λ p, p.1 = id) pairs)).

Lemma keyed_lookup pairs id :
  default StepOk (fold_left (λ m p, <[MessageId.as_uuid p.1 := p.2]> m) pairs (∅ : gmap Z PublishStep)
                    !! MessageId.as_uuid id)
  = keyed_step pairs id.
Proof.
  unfold keyed_step. induction pairs as [|p pairs IH] using rev_ind; [done|].
  rewrite fold_left_app, filter_app, filter_cons, filter_nil. cbn [fold_left].
  destruct (decide (p.1 = id)) as [Hid|Hid].
  - rewrite last_snoc. cbn. by rewrite Hid, lookup_insert_eq.
  - rewrite app_nil_r, <-IH, lookup_insert_ne; [done|].
    intros Heq. apply Hid. destruct (p.1), id. cbn in Heq. by rewrite Heq.
Qed.

Lemma keyed_all es m ids :
  snd (publish_all es (mk (Keyed m) ids))
  = (λ e, snd (resolve (default StepOk (m !! MessageId.as_uuid (Envelope.id e))))) <$> es.
Proof.
  revert ids; induction es as [|e es IH]; intros ids; [done|].
  cbn [publish_all fmap list_fmap]. unfold publish, step_for. cbn [script published].
  destruct (resolve _) as [d r] eqn:Er. cbn [snd].
  rewrite <-(IH (ids ++ [Envelope.id e])). by destruct (publish_all es _).
Qed.

(** The scripted publisher replays its script: a positional script answers the
    [i]-th call with its [i]-th step, the last step for ever after it is used up, and
    success when it is empty; a keyed script answers each message with the last step
    given for its id, whatever the order and the repetitions of the calls, and success
    for an id it does not name; and every call is recorded in order. *)
Theorem scripted_publisher_spec (es : list SerializedEnvelope) (Hn : Z.of_nat (length es) ≤ U64_MAX) :
  (∀ steps, snd (publish_all es (new steps))
     = (λ i, snd (resolve (nth_step steps i))) <$> seq 0 (length es))
  ∧ (∀ pairs, snd (publish_all es (keyed pairs))
       = (λ e, snd (resolve (keyed_step pairs (Envelope.id e)))) <$> es)
  ∧ ∀ s, published (fst (publish_all es s)) = published s ++ (Envelope.id <$> es).
Proof.
  split_and!.
  - intros steps. change (new steps) with (mk (Positional steps (Z.of_nat 0)) []).
    by apply positional_all.
  - intros pairs. unfold keyed. rewrite keyed_all. apply list_fmap_ext. intros i e _.
    by rewrite keyed_lookup.
  - apply publish_all_published.
Qed.

Lemma scripted_publisher_spec_witness :
  snd (publish_all [sample_order; sample_order; sample_order]
         (new [StepTransient; StepOk]))
  = [Some (Err (FTransient "scripted transient failure")); Some (Ok ()); Some (Ok ())].
Proof.
  destruct (scripted_publisher_spec [sample_order; sample_order; sample_order]) as [Hp _];
    [vm_compute; discriminate|].
  by rewrite (Hp [StepTransient; StepOk]).
Defined.
End Scripted.
