(* ===== verification/Metrics.v ===== *)
(** * What the dispatcher's metrics add up to ([reliar-outbox], dispatcher.rs, metrics.rs)

    The dispatcher reports what it does through an [OutboxMetrics] hook.  [observe] is the
    hook's state after the metrics of a log, and the theorem is that the counters
    reconcile: from the metrics alone one can tell how many rows a running dispatcher
    holds that have not yielded an outcome. *)

From S2P Require Import Prelude RustString CoreTypes CoreHeaders CoreEnvelope OutboxTypes.
From S2P Require Import OutboxRetry OutboxSettings MemStore MemStoreSpec MemStoreThms StoreInterface.
From S2P Require Import Dispatcher DispatcherInv DispatcherSys DispatcherThms TestSupport.

(** ** The actions of a step, piece by piece *)

(** Actions that neither claim a row nor record the result of a publish. *)
Definition routine (x : action) : Prop :=
  match x with
  | Metric (MClaimed _ | MPublished _ | MRetried _ | MDead _ _)
  | Event (Claimed _ | JoinedPublished _ _ | JoinedFailed _ _) => False
  | _ => True
  end.

Section step_log.
Context {W E R : Type} `{Clock W, OutboxStore W E, RetryPolicy R}.
Context (settings : DispatcherSettings.t) (worker : WorkerId.t) (retry : R).

(** A property of logs that the pieces of the loop have, and longer logs inherit. *)
Context (P : list action → Prop).
Hypothesis P_app : ∀ a b, P a → P b → P (a ++ b).
Hypothesis P_routine : ∀ a, Forall routine a → P a.
Hypothesis P_record : ∀ now j l l' a, record_result retry now j l = Some (l', a) → P a.
Hypothesis P_poll : ∀ count l w w' a r, poll settings worker count l w = (w', a, r) → P a.

Lemma routine_events {T} (c : MessageRef.t → entry) (g : T → MessageRef.t) (l : list T) :
  (∀ m, routine (Event (c m))) → Forall routine ((Event ∘ c ∘ g) <$> l).
Proof. intros Hc. apply Forall_fmap, Forall_true. intros x. apply Hc. Qed.

Lemma routine_events_id (c : MessageRef.t → entry) l :
  (∀ m, routine (Event (c m))) → Forall routine ((Event ∘ c) <$> l).
Proof. intros Hc. apply Forall_fmap, Forall_true. intros x. apply Hc. Qed.

Lemma routine_complete_actions u : Forall routine (complete_actions u).
Proof. destruct u; repeat constructor. Qed.
Lemma routine_fail_actions u : Forall routine (fail_actions u).
Proof. destruct u; repeat constructor. Qed.

Ltac routine_tac :=
  repeat first [ apply Forall_app_2 | apply routine_complete_actions | apply routine_fail_actions
               | apply routine_events; intros; exact I | apply routine_events_id; intros; exact I
               | assumption | solve [repeat constructor] ].

Lemma routine_retry_unwritten l w w' l' a out :
  retry_unwritten_outcomes settings worker l w = (w', l', a, out) → Forall routine a.
Proof.
  unfold retry_unwritten_outcomes.
  destruct (write_half settings _ (unwritten_complete l) w) as [w1 [uc wrote gave fc|e]];
    [|intros [= <- <- <- <-]; routine_tac].
  destruct (write_half settings _ (unwritten_fail l) w1) as [w2 [uf wrote' gave' ff|e]];
    intros [= <- <- <- <-]; routine_tac.
Qed.

Lemma routine_retry_dropped p l w w' l' a :
  retry_dropped settings worker p l w = Some (w', l', a) → Forall routine a.
Proof.
  unfold retry_dropped. destruct p; [by intros [= <- <- <-]|..].
  - destruct (unwritten_complete l); [done|]. destruct (_ <=? _); [|done].
    intros [= <- <- <-]. routine_tac.
  - destruct (unwritten_fail l); [done|]. destruct (_ <=? _); [|done].
    destruct (write_half settings _ (unwritten_complete l) w) as [w1 [uc wrote gave fc|e]]; [|done].
    intros [= <- <- <-]. routine_tac.
Qed.

Lemma P_results now js l l' a : record_publish_results retry now js l = Some (l', a) → P a.
Proof.
  revert l l' a; induction js as [|j js IH]; intros l l' a; cbn.
  { intros [= _ <-]. by apply P_routine. }
  destruct (record_result retry now j l) as [[l1 a1]|] eqn:Hr; cbn; [|done].
  destruct (record_publish_results retry now js l1) as [[l2 a2]|] eqn:Hrs; cbn; [|done].
  intros [= _ <-]. apply P_app; [by eapply P_record|by eapply IH].
Qed.

Lemma routine_release refs w w' a : release_refs settings worker refs w = (w', a) → Forall routine a.
Proof. destruct refs; intros [= <- <-]; repeat constructor. Qed.

Lemma routine_stop_claiming seen l w w' l' a :
  stop_claiming settings worker seen l w = (w', l', a) → Forall routine a.
Proof.
  unfold stop_claiming. destruct (release_refs _ _ _ _) as [w1 a1] eqn:Er. intros [= _ _ <-].
  apply routine_release in Er. routine_tac.
Qed.

Lemma routine_finish_drain perm l w w' l' a perm' :
  finish_drain settings worker perm l w = (w', l', a, perm') → Forall routine a.
Proof.
  unfold finish_drain. destruct perm as [e|].
  - destruct (release_refs _ _ _ _) as [w2 a2] eqn:Er. intros [= _ _ <- _].
    apply routine_release in Er. routine_tac.
  - destruct (retry_unwritten_outcomes _ _ _ _) as [[[w1 l1] a1] out] eqn:Eu.
    apply routine_retry_unwritten in Eu.
    destruct (release_refs _ _ _ _) as [w2 a2] eqn:Er. intros [= _ _ <- _].
    apply routine_release in Er. routine_tac.
Qed.

(** A step appends actions with the property. *)
Definition appends (s s' : sys W E) : Prop := ∃ a, log s' = log s ++ a ∧ P a.

Lemma appends_trans s1 s2 s3 : appends s1 s2 → appends s2 s3 → appends s1 s3.
Proof.
  intros (a & Ha & Hpa) (b & Hb & Hpb). exists (a ++ b). rewrite Hb, Ha, app_assoc. auto.
Qed.
Lemma appends_loop l w a (s : sys W E) : P a → appends s (with_loop l w a s).
Proof. by exists a. Qed.
Lemma appends_same (s s' : sys W E) : log s' = log s → appends s s'.
Proof. intros Hl. exists []. rewrite app_nil_r. split; [done|]. by apply P_routine. Qed.
Lemma appends_leave seen reason (s : sys W E) : appends s (leave settings worker seen reason s).
Proof.
  unfold leave. destruct (stop_claiming _ _ _ _ _) as [[w l] a] eqn:Es. exists a.
  split; [done|]. by eapply P_routine, routine_stop_claiming.
Qed.
#[local] Hint Resolve appends_loop appends_leave P_app P_routine Forall_nil_2 : core.

Lemma take_branch_appends count refs b seen (s s' : sys W E) :
  take_branch settings worker retry count refs b seen s = Some s' → appends s s'.
Proof.
  destruct b as [|js| | | |]; cbn [take_branch].
  - intros [= <-]. auto.
  - destruct js as [|j js]; [done|]. destruct (take_finished _ _); cbn -[record_publish_results]; [|done].
    destruct (record_publish_results _ _ _ _) as [[l1 a1]|] eqn:Hr; intros [= <-].
    + apply P_results in Hr. auto.
    + by apply appends_same.
  - destruct (0 <? count)%nat; [|done]. intros [= <-]. apply appends_loop, P_routine. by repeat constructor.
  - destruct (is_zero _); [done|]. unfold report_stats. destruct (stats _ _) as [w c].
    destruct (bounded _ c) as [st|]; intros [= <-]; apply appends_loop, P_routine.
    + destruct (OutboxStats.lag st); by repeat constructor.
    + by repeat constructor.
  - destruct (_ && _); [|done]. unfold retry_branch.
    destruct (retry_unwritten_outcomes _ _ _ _) as [[[w l] a] out] eqn:Eu.
    apply routine_retry_unwritten, P_routine in Eu.
    destruct (permanent out); intros [= <-]; [|auto].
    eapply appends_trans; [by apply appends_loop|apply appends_leave].
  - destruct (_ && _); [|done]. destruct (poll _ _ _ _ _) as [[w a] r] eqn:Ep.
    apply P_poll in Ep. destruct r; intros [= <-]; [auto|]. eapply appends_trans; [by apply appends_loop|apply appends_leave].
Qed.

Lemma task_step_appends (e : event W) (s s' : sys W E) : task_step settings e s = Some s' → appends s s'.
Proof.
  destruct e; cbn; try done.
  all: destruct (in_flight (loop s) !! id) as [t|]; cbn; [|done].
  all: destruct (status t); try done.
  - destruct (_ <? _); [|done]. intros [= <-]. by apply appends_loop, P_routine.
  - destruct a; try done; intros [= <-]; apply appends_loop, P_routine; by repeat constructor.
  - intros [= <-]. by apply appends_loop, P_routine.
  - destruct (aborted t); [|done]. intros [= <-]. by apply appends_loop, P_routine.
  - destruct (aborted t); [|done]. intros [= <-]. by apply appends_loop, P_routine.
Qed.

Lemma step_appends (e : event W) (s s' : sys W E) :
  step settings worker retry e s = Some s' → appends s s'.
Proof.
  unfold step. destruct (stopped s); [done|]. destruct e; try apply task_step_appends.
  - unfold iterate. destruct (at_phase s); try done. destruct (wins _ _ _); [|done].
    destruct (retry_dropped _ _ _ _ _) as [[[w l] a]|] eqn:Hd; cbn -[take_branch]; [|done].
    intros Hb%take_branch_appends. eapply appends_trans; [|exact Hb].
    apply routine_retry_dropped in Hd. auto.
  - intros [= <-]. by apply appends_same.
  - intros [= <-]. by apply appends_same.
  - unfold drain_joined. destruct (at_phase s) as [|d [e|] r| |]; try done.
    destruct js as [|j js]; [done|].
    destruct (take_finished _ _) as [f|]; cbn -[record_publish_results]; [|done].
    destruct (record_publish_results _ _ _ _) as [[l1 a1]|] eqn:Hr.
    + destruct (retry_unwritten_outcomes _ _ _ _) as [[[w l] a] out] eqn:Eu.
      apply routine_retry_unwritten in Eu. apply P_results in Hr.
      intros [= <-]. exists (a1 ++ a). auto.
    + intros [= <-]. by apply appends_same.
  - unfold drain_end. destruct (at_phase s); try done. destruct (_ || _ || _); [|done].
    destruct (finish_drain _ _ _ _ _) as [[[w l] a] p] eqn:Hf.
    apply routine_finish_drain in Hf. intros [= <-]. exists a. auto.
Qed.

Lemma reachable_log (s : sys W E) : reachable settings worker retry s → P (log s).
Proof.
  induction 1 as [w|e s s' _ IH Hs]; [by apply P_routine|].
  apply step_appends in Hs as (a & -> & Ha). auto.
Qed.
End step_log.

(** ** What the hook hears *)

(** The calls of a log on the hook; each publish is taken to last [timing]. *)
Definition observe {M} `{OutboxMetrics M} (timing : Duration) (x : action) (m : M) : M :=
  match x with
  | Metric (MClaimed n) => on_claimed n m
  | Metric (MPublished ty) => on_published 1 ty m
  | Metric (MRetried k) => on_retried 1 k m
  | Metric (MDead n reason) => on_dead n reason m
  | Metric (MPublishDuration ty) => on_publish_duration timing ty m
  | Metric (MPending n) => on_pending n m
  | Metric (MExpiredPending n) => on_expired_pending n m
  | Metric (MOldestPendingAge age) => on_oldest_pending_age age m
  | _ => m
  end.
Definition observe_all {M} `{OutboxMetrics M} (timing : Duration) (log : list action) (m : M) : M :=
  fold_left (λ m x, observe timing x m) log m.

Section counters.
Import RecordingMetrics.

Definition claimed_in (log : list action) : nat :=
  sum_list_with (λ x, match x with Metric (MClaimed n) => n | _ => 0%nat end) log.
Definition published_in (log : list action) : list MessageType.t :=
  omap (λ x, match x with Metric (MPublished ty) => Some ty | _ => None end) log.
Definition retried_in (log : list action) : list FailureKind :=
  omap (λ x, match x with Metric (MRetried k) => Some k | _ => None end) log.
Definition dead_in (log : list action) : list DeadReason :=
  x ← log; match x with Metric (MDead n reason) => repeat reason n | _ => [] end.

Lemma observe_all_counts timing log (m : RecordingMetrics.t) :
  claimed (observe_all timing log m) = (claimed m + claimed_in log)%nat
  ∧ published (observe_all timing log m) = published m ++ published_in log
  ∧ retried (observe_all timing log m) = retried m ++ retried_in log
  ∧ dead (observe_all timing log m) = dead m ++ dead_in log.
Proof.
  unfold observe_all. revert m; induction log as [|x log IH]; intros m.
  { cbn. rewrite !app_nil_r. split_and!; [lia|done..]. }
  cbn [fold_left]. destruct (IH (observe timing x m)) as (-> & -> & -> & ->).
  unfold claimed_in, published_in, retried_in, dead_in.
  destruct x as [| | | | | |[]|]; cbn; rewrite <-?app_assoc; cbn; split_and!; first [done|lia].
Qed.

(** A death the retry policy decided, not an undecodable row. *)
Definition decided_death (reason : DeadReason) : Prop := reason ≠ Undecodable.
Global Instance decided_death_dec reason : Decision (decided_death reason) := _.

(** The metrics of a log agree with its events. *)
Definition metered (log : list action) : Prop :=
  claimed_in log = length (ledger is_claimed log)
  ∧ length (published_in log) = length (ledger is_published log)
  ∧ (length (retried_in log) + length (filter decided_death (dead_in log)))%nat
    = length (ledger is_failed log).

Ltac metered_counts := unfold metered, claimed_in, published_in, retried_in, dead_in in *;
  rewrite ?sum_list_with_app, ?omap_app, ?bind_app, ?filter_app, ?ledger_app, ?length_app in *.

Lemma metered_app a b : metered a → metered b → metered (a ++ b).
Proof. intros (H1 & H2 & H3) (H1' & H2' & H3'). metered_counts. split_and!; lia. Qed.

Lemma metered_mid a b c : metered b → metered (a ++ c) → metered (a ++ b ++ c).
Proof. intros (H1 & H2 & H3) (H1' & H2' & H3'). metered_counts. split_and!; lia. Qed.

Lemma metered_routine a : Forall routine a → metered a.
Proof.
  induction 1 as [|x a Hx _ IH]; [done|]. apply (metered_app [x]); [|done].
  by destruct x as [| | | | | |[]|[]].
Qed.

Lemma metered_record {R} `{RetryPolicy R} (retry : R) now j l l' a :
  (∀ entropy attempts kind, next retry entropy attempts kind ≠ Some (Dead Undecodable)) →
  record_result retry now j l = Some (l', a) → metered a.
Proof.
  intros Hpol. unfold record_result. destruct (j_result j) as [[m ty|m n k e]| |].
  - by intros [= _ <-].
  - destruct (next retry _ _ _) as [[d|reason]|] eqn:En; cbn; [| |done]; intros [= _ <-]; [done|].
    unfold metered, dead_in. cbn -[filter]. rewrite filter_cons, decide_True; [done|].
    intros ->. by eapply Hpol.
  - intros [= _ <-]. by destruct (outstanding l !! j_id j).
  - intros [= _ <-]. by destruct (outstanding l !! j_id j).
Qed.

Lemma metered_poison (ps : list PoisonedRow.t) :
  metered (match ps with [] => [] | _ => [Metric (MDead (length ps) Undecodable)] end).
Proof.
  destruct ps as [|p ps]; [done|]. unfold metered, dead_in. cbn -[filter].
  rewrite app_nil_r. change (Undecodable :: repeat Undecodable (length ps))
    with (repeat Undecodable (S (length ps))). generalize (S (length ps)).
  intros n. split_and!; [done..|]. induction n as [|n IH]; [done|]. cbn [repeat].
  by rewrite filter_cons, decide_False by (intros Hd; by apply Hd).
Qed.

Lemma metered_claim request (rows : list PendingRow.t) :
  metered ([DoAcquire request; Metric (MClaimed (length rows))]
           ++ ((Event ∘ Claimed ∘ PendingRow.message) <$> rows)).
Proof.
  unfold metered. rewrite !ledger_app, ledger_events, !ledger_events_None by done.
  unfold claimed_in, published_in, retried_in, dead_in.
  rewrite sum_list_with_app, !omap_app, bind_app, filter_app, !length_app.
  unfold ledger. cbn. rewrite length_fmap.
  induction rows as [|r rows IH]; [done|]. cbn in *. lia.
Qed.

Lemma metered_poll {W E} `{Clock W, OutboxStore W E} settings worker count l (w w' : W) a r :
  poll settings worker count l w = (w', a, r) → metered a.
Proof.
  unfold poll. destruct (acquire _ _ w) as [w1 [[b|e]|]].
  - pose proof (metered_poison (AcquiredBatch.poisoned b)) as Hp.
    destruct (AcquiredBatch.is_empty b) eqn:Hempty; intros Heq; injection Heq as _ <- _.
    + unfold AcquiredBatch.is_empty in Hempty.
      destruct (AcquiredBatch.records b), (AcquiredBatch.poisoned b); done.
    + rewrite <-(length_fmap PendingRow.of_record (AcquiredBatch.records b)).
      apply (metered_mid [_; _]); [|apply metered_claim].
      by destruct (AcquiredBatch.poisoned b).
  - case_bool_decide; by intros [= _ <- _].
  - by intros [= _ <- _].
Qed.
End counters.

(** ** The counters reconcile *)

Section props.
Context {W E R : Type} `{Clock W, OutboxStore W E, !OutboxStoreLaws W E, RetryPolicy R}.
Context (settings : DispatcherSettings.t) (worker : WorkerId.t) (retry : R).

(** C24 [invariant] The metrics of a running dispatcher reconcile, whatever the store, the schedule
    and the failures: the rows counted as claimed are those counted as published, as
    retried and as dead by decision of the retry policy, those whose publish task
    panicked, and those still waiting for their task - so what the dispatcher holds can
    be read off its counters.  A dead row that was merely undecodable was never
    claimed. *)
Theorem metrics_reconcile (timing : Duration) (s : sys W E) :
  settings_ok settings →
  (∀ entropy attempts kind, next retry entropy attempts kind ≠ Some (Dead Undecodable)) →
  reachable settings worker retry s → at_phase s = Running →
  let m := observe_all timing (log s) RecordingMetrics.default in
  RecordingMetrics.claimed m
  = (length (RecordingMetrics.published m) + length (RecordingMetrics.retried m)
     + length (filter decided_death (RecordingMetrics.dead m))
     + length (ledger is_lost (log s)) + size (outstanding (loop s)))%nat.
Proof.
  intros Hok Hpol Hr Hrun m.
  assert (Hm : metered (log s)).
  { apply (reachable_log settings worker retry metered metered_app metered_routine); [| |done].
    - intros now j l l' a. by apply metered_record.
    - intros. by eapply metered_poll. }
  destruct Hm as (Hc & Hp & Hf).
  destruct (observe_all_counts timing (log s) RecordingMetrics.default) as (E1 & E2 & E3 & E4).
  fold m in E1, E2, E3, E4. rewrite E1, E2, E3, E4. cbn [RecordingMetrics.claimed
    RecordingMetrics.published RecordingMetrics.retried RecordingMetrics.dead RecordingMetrics.default app].
  rewrite Hc, Hp.
  pose proof (reachable_calm _ _ _ _ Hok Hr Hrun) as Hcalm.
  pose proof (reachable_inv _ _ _ _ Hok Hr) as [[[Hacc _ _] _ _ _ _ _ _] Hph _].
  rewrite Hrun in Hph. destruct Hph as [Hpend _ _].
  destruct (calm_releases _ Hcalm) as [Hrel Hrelf].
  pose proof (ledger_joins (log s)) as Hj.
  apply Permutation_length in Hacc, Hj.
  rewrite !length_app, Hrel, Hpend in Hacc. rewrite !length_app, Hcalm, Hrel, Hrelf in Hj.
  unfold outstanding_refs in Hacc. rewrite !length_fmap, length_map_to_list in Hacc.
  cbn in Hacc, Hj. lia.
Qed.
End props.

(** Two rows claimed; the one published, the other still on its way. *)
#[local] Existing Instance default_time_range.

Lemma metrics_reconcile_witness :
  let s := run_state
    [EIterate NotSent BPoll seen_all; ETaskStart 0; ETaskStart 1; ETaskFinish 0 Acked;
     EIterate NotSent (BJoined [mkJoined 0 (JOutcome (Published (run_ref 1) run_type)) 0]) seen_all] in
  let m := observe_all 0 (log s) RecordingMetrics.default in
  (length (RecordingMetrics.published m) = 1 ∧ size (outstanding (loop s)) = 1)%nat
  ∧ RecordingMetrics.claimed m
    = (length (RecordingMetrics.published m) + length (RecordingMetrics.retried m)
       + length (filter decided_death (RecordingMetrics.dead m))
       + length (ledger is_lost (log s)) + size (outstanding (loop s)))%nat.
Proof.
  set (s := run_state _). split; [split; vm_compute; reflexivity|].
  apply (metrics_reconcile run_settings run_worker run_retry 0 s run_settings_ok).
  - intros en at_ [|]; cbn; [destruct (_ >=? _); [done|destruct (mul_f64 _ _); done]|done].
  - apply run_state_reachable.
  - vm_compute. reflexivity.
Defined.
