(* ===== verification/Fleet.v ===== *)
(** * Several dispatchers on one store ([reliar-outbox], dispatcher.rs, test_support/store.rs)

    "Safe to run many dispatcher instances against one table": a fleet is any number of
    dispatchers, each with its settings, worker id and retry policy, that share one
    in-memory store with the application that stages messages and with its
    housekeeping.  A step of the fleet is a step of one of its members, a call from
    outside, or time passing; a member that crashes is one that takes no further step,
    and one that restarts is another member.  The theorems are about the messages:
    what the table says of a message is what happened to it, and no message is lost. *)

From S2P Require Import Prelude RustString CoreTypes CoreHeaders CoreEnvelope OutboxTypes.
From S2P Require Import OutboxRetry OutboxSettings MemStore MemStoreInv MemStoreSpec MemStoreThms.
From S2P Require Import StoreInterface Dispatcher DispatcherInv DispatcherSys DispatcherReplay.
From S2P Require Import DispatcherThms.
Import OutboxRecord(envelope, published_at, dead_at, dead_reason, expires_at, message_ref).

(** ** What a run of calls does to the rows *)

Section history.
Context `{TimeRange}.

(** A published row was acknowledged, as [acked] knows; a dead one has expired, or was
    given up for its reason, as [given_up] knows. *)
Definition justified (acked : MessageRef.t → Prop) (given_up : MessageRef.t → DeadReason → Prop)
    (r : row) : Prop :=
  (published_at r ≠ None → acked (message_ref r))
  ∧ ∀ t, dead_at r = Some t →
      (dead_reason r = Some Expired ∧ ∃ u, expires_at r = Some u ∧ u ≤ t)
      ∨ ∃ reason, dead_reason r = Some reason ∧ given_up (message_ref r) reason.

Lemma justified_mono (acked acked' : MessageRef.t → Prop)
    (given_up given_up' : MessageRef.t → DeadReason → Prop) r :
  (∀ m, acked m → acked' m) → (∀ m d, given_up m d → given_up' m d) →
  justified acked given_up r → justified acked' given_up' r.
Proof.
  intros Ha Hg [Hp Hd]. split; [by auto|]. intros t [?|(d & ? & ?)]%Hd; [by left|].
  right. exists d. auto.
Qed.

Lemma justified_pending acked given_up r : MemStoreInv.pending r → justified acked given_up r.
Proof. intros [Hp Hd]. split; [done|]. intros t. by rewrite Hd. Qed.

(** What the outcome writes of a call are allowed to say. *)
Definition truthful (acked : MessageRef.t → Prop) (given_up : MessageRef.t → DeadReason → Prop)
    (o : op) : Prop :=
  match o with
  | OComplete _ items => ∀ i, i ∈ items → acked (CompletedMessage.message i)
  | OFail _ items => ∀ i reason, i ∈ items → FailedMessage.outcome i = Dead reason →
      given_up (FailedMessage.message i) reason
  | _ => True
  end.

Lemma edge_justified acked given_up t o r r' :
  truthful acked given_up o → edge t o r r' →
  justified acked given_up r → justified acked given_up r'.
Proof.
  intros Ht He Hj. destruct He as [| w items r Hl Hin|w items item r r' o Hl Hin Hm Hf| | |req r Hs|];
    try exact Hj.
  - split; [|apply Hj]. intros _. exact (Ht _ Hin).
  - unfold fail_row in Hf. destruct (FailedMessage.outcome item) as [d|reason] eqn:Eo.
    + destruct (odt_add t d); injection Hf as <- <-; exact Hj.
    + injection Hf as <- <-. split; [apply Hj|]. intros u _. right. exists reason.
      split; [done|]. cbn in Ht. pose proof (Ht _ _ Hin Eo) as Hg. by rewrite Hm in Hg.
  - split; [apply Hj|]. intros u [= <-]. left. split; [done|].
    apply sweepable_spec in Hs as (_ & _ & Hx). unfold is_expired in Hx.
    destruct (expires_at r) as [u|] eqn:Eu; [|done]. exists u. split; [exact Eu|lia].
  - split; [apply Hj|]. intros u. done.
Qed.

Lemma ops_justified acked given_up ops s :
  Forall (truthful acked given_up) ops → Forall (justified acked given_up) (rows s) →
  Forall (justified acked given_up) (rows (run_ops ops s)).
Proof.
  unfold run_ops. revert s; induction ops as [|o ops IH]; intros s; cbn [fold_left]; [done|].
  intros [Ho Hops]%Forall_cons_1 Hs. apply IH; [done|]. apply Forall_forall. intros r' Hr'.
  apply op_backward in Hr' as [(r & Hr & He)|(_ & Hp & _)]; [|by apply justified_pending].
  rewrite Forall_forall in Hs. specialize (Hs _ Hr).
  clear Hr. induction He as [|r r1 r' He _ IHe]; [done|]. by eapply IHe, edge_justified.
Qed.

(** Only housekeeping deletes rows. *)
Definition deletes (o : op) : bool :=
  match o with OPurge _ | OPurgeDead _ => true | _ => false end.

Lemma op_keeps_row o s r :
  op_ok o → inv s → r ∈ rows s → deletes o = false ∨ MemStoreInv.pending r →
  ∃ r', r' ∈ rows (run_op o s) ∧ same_row r r'.
Proof.
  intros Hok Hi Hr Hd. destruct (op_forward o s r Hok Hi Hr) as [(r' & ? & _ & ?)|Hrem]; [eauto|].
  exfalso. destruct o; try done; destruct Hd as [|[Hp Hd]]; try done; cbn in Hrem.
  - destruct Hrem as [(d & u & _ & Hp' & _)|(d & u & _ & Hd' & _)]; congruence.
  - by destruct Hrem.
Qed.

Lemma ops_keep_row ops s r :
  Forall op_ok ops → inv s → r ∈ rows s → Forall (λ o, deletes o = false) ops →
  ∃ r', r' ∈ rows (run_ops ops s) ∧ same_row r r'.
Proof.
  unfold run_ops. revert s r; induction ops as [|o ops IH]; intros s r; cbn [fold_left].
  { intros. by exists r. }
  intros [Ho Hops]%Forall_cons_1 Hi Hr [Hd Hds]%Forall_cons_1.
  destruct (op_keeps_row o s r Ho Hi Hr (or_introl Hd)) as (r1 & Hr1 & Hs1).
  destruct (IH (run_op o s) r1) as (r2 & Hr2 & Hs2); [done|by apply run_op_inv|done|done|].
  exists r2. split; [done|]. by trans r1.
Qed.

(** ** The calls a dispatcher makes on the store *)

(** The call of action [a], or the sleep an armed hang puts before it. *)
Definition caused (settings : DispatcherSettings.t) (worker : WorkerId.t) (a : action) (o : op)
  : Prop :=
  match o with
  | OHang | OStats => True
  | OAcquire r => a = DoAcquire r
  | OComplete w items => w = worker ∧ a = DoComplete items
  | OFail w items => w = worker ∧ a = DoFail items
  | ORelease w refs => w = worker ∧ a = DoRelease refs
  | OExtend w refs d => w = worker ∧ a = DoExtend refs ∧ d = DispatcherSettings.lease settings
  | _ => False
  end.

Lemma mem_call_run {A} (f : Inner → Inner * outcome (result A InMemoryStoreError)) o w :
  (∀ s, fst (f s) = run_op o s) → inner (fst (mem_call f w)) = run_ops [o] (inner w).
Proof.
  intros Hf. unfold mem_call, run_ops. cbn [fold_left]. rewrite <-Hf. by destruct (f (inner w)).
Qed.

Lemma mem_hang_run {A} budget (f : Inner → Inner * outcome (result A InMemoryStoreError)) o w :
  (∀ s, fst (f s) = run_op o s) →
  ∃ ops, inner (fst (mem_hang budget f w)) = run_ops ops (inner w)
    ∧ ∀ o', o' ∈ ops → o' = OHang ∨ o' = o.
Proof.
  intros Hf. unfold mem_hang, hanging.
  destruct (take_hang (inner w)) as [s [d|]] eqn:Eh.
  - assert (Hs : run_op OHang (inner w) = s) by (cbn [run_op]; by rewrite Eh).
    destruct (d <=? budget); [|exists [OHang]; set_solver].
    exists [OHang; o]. rewrite mem_call_run with (o := o) by done. cbn [inner].
    rewrite <-Hs. split; [done|set_solver].
  - unfold take_hang in Eh. destruct (hang_next (inner w)); [|done]. injection Eh as <-.
    exists [o].
    specialize (Hf (inner w)). unfold run_ops. cbn [fold_left]. rewrite <-Hf.
    destruct (f (inner w)). split; [done|set_solver].
Qed.

Lemma effect_ops settings worker a w :
  ∃ ops, inner (effect settings worker a w) = run_ops ops (inner w)
    ∧ Forall (caused settings worker a) ops.
Proof.
  destruct a as [r|items|items|refs|refs| |m|e]; cbn [effect].
  - exists [OAcquire r]. split; [by apply mem_call_run|by repeat constructor].
  - destruct (mem_hang_run (DispatcherSettings.store_timeout settings) (try_complete worker items)
      (OComplete worker items) w) as (ops & Hrun & Hops); [done|].
    exists ops. split; [exact Hrun|]. apply Forall_forall. by intros o [->| ->]%Hops.
  - destruct (mem_hang_run (DispatcherSettings.store_timeout settings) (try_fail worker items)
      (OFail worker items) w) as (ops & Hrun & Hops); [done|].
    exists ops. split; [exact Hrun|]. apply Forall_forall. by intros o [->| ->]%Hops.
  - exists [ORelease worker refs]. split; [by apply mem_call_run|by repeat constructor].
  - exists [OExtend worker refs (DispatcherSettings.lease settings)].
    split; [by apply mem_call_run|by repeat constructor].
  - exists [OStats]. split; [by apply mem_call_run|by repeat constructor].
  - by exists [].
  - by exists [].
Qed.

Lemma run_ops_app ops1 ops2 s : run_ops (ops1 ++ ops2) s = run_ops ops2 (run_ops ops1 s).
Proof. apply fold_left_app. Qed.

Lemma replay_ops settings worker a w :
  ∃ ops, inner (replay settings worker a w) = run_ops ops (inner w)
    ∧ ∀ o, o ∈ ops → ∃ x, x ∈ a ∧ caused settings worker x o.
Proof.
  unfold replay. revert w; induction a as [|x a IH]; intros w; cbn [fold_left].
  { exists []. split; [done|]. by intros o ?%elem_of_nil. }
  destruct (effect_ops settings worker x w) as (ops1 & H1 & Hc1).
  destruct (IH (effect settings worker x w)) as (ops2 & H2 & Hc2).
  exists (ops1 ++ ops2). rewrite run_ops_app, <-H1. split; [exact H2|].
  rewrite Forall_forall in Hc1.
  intros o [Ho|(y & ? & ?)%Hc2]%elem_of_app; [exists x|exists y]; split; auto; by constructor.
Qed.
End history.

(** ** The fleet *)

Record member (R : Type) := mkMember {
  m_settings : DispatcherSettings.t;
  m_worker : WorkerId.t;
  m_retry : R;
}.
Arguments mkMember {R} _ _ _.
Arguments m_settings {R} _.
Arguments m_worker {R} _.
Arguments m_retry {R} _.

Section fleet.
Context `{TimeRange} {R : Type} `{RetryPolicy R}.
Context (members : list (member R)).

Abbreviation run := (sys MemWorld InMemoryStoreError).

(** The store all share, and the run of each member. *)
Record fleet := mkFleet { shared : MemWorld; runs : list run }.

(** A step of a member, a call of the application or its housekeeping, time passing. *)
Inductive fleet_event :=
  | FMember (i : nat) (e : event MemWorld)
  | FCall (o : op)
  | FClock (d : Duration).

(** The calls that are not a dispatcher's. *)
Definition external (o : op) : bool :=
  match o with
  | OInsert _ _ _ | OStage _ | OAdvance _ | OPurge _ | OStats | ORetryDead _ | OPurgeDead _
  | OArm _ _ _ _ _ _ => true
  | _ => false
  end.

(** A member finds the store as the others left it. *)
Definition find_store (w : MemWorld) (s : run) : run :=
  mkSys (loop s) (at_phase s) w (cancelled s) (log s).

Definition fleet_step (e : fleet_event) (f : fleet) : option fleet :=
  match e with
  | FMember i e =>
      if outside e then None
      else
        m ← members !! i; s ← runs f !! i;
        s' ← step (m_settings m) (m_worker m) (m_retry m) e (find_store (shared f) s);
        Some (mkFleet (world s') (<[i := s']> (runs f)))
  | FCall o =>
      if external o
      then Some (mkFleet (mkMemWorld (run_op o (inner (shared f))) (clock (shared f))) (runs f))
      else None
  | FClock d => Some (mkFleet (mkMemWorld (inner (shared f)) (clock (shared f) + d)) (runs f))
  end.

Fixpoint fleet_run (es : list fleet_event) (f : fleet) : option fleet :=
  match es with
  | [] => Some f
  | e :: es => f' ← fleet_step e f; fleet_run es f'
  end.

(** The fleet on a fresh store. *)
Definition fleet_start : fleet :=
  let w := mkMemWorld inner_default 0 in
  mkFleet w ((λ _, initial w) <$> members).

Definition event_ok (e : fleet_event) : Prop :=
  match e with FCall o => op_ok o | FClock d => 0 ≤ d | FMember _ _ => True end.
Definition member_ok (m : member R) : Prop :=
  settings_ok (m_settings m) ∧ 0 ≤ DispatcherSettings.lease (m_settings m).

(** ** What the members know *)

(** Some member saw the broker acknowledge the message. *)
Definition acked (f : fleet) (m : MessageRef.t) : Prop :=
  ∃ i s, runs f !! i = Some s ∧ m ∈ ledger is_acked (log s).

(** Some member's publish of the message failed and its retry policy gave the message up
    for that reason. *)
Definition given_up (f : fleet) (m : MessageRef.t) (reason : DeadReason) : Prop :=
  ∃ i mb s entropy attempts kind,
    members !! i = Some mb ∧ runs f !! i = Some s
    ∧ next (m_retry mb) entropy attempts kind = Some (Dead reason)
    ∧ ∃ items item, DoFail items ∈ log s ∧ item ∈ items
        ∧ FailedMessage.message item = m ∧ FailedMessage.outcome item = Dead reason.

Record fleet_inv (f : fleet) : Prop := {
  fi_store : inv (inner (shared f));
  fi_length : length (runs f) = length members;
  fi_runs : ∀ i m s, members !! i = Some m → runs f !! i = Some s →
    reachable (m_settings m) (m_worker m) (m_retry m) s;
  fi_rows : Forall (justified (acked f) (given_up f)) (rows (inner (shared f)));
}.

(** ** Every step keeps the invariant *)

Lemma see_reachable mb s w :
  reachable (m_settings mb) (m_worker mb) (m_retry mb) s →
  stopped s = false →
  reachable (m_settings mb) (m_worker mb) (m_retry mb) (find_store w s).
Proof. intros Hs Hst. eapply (reach_step _ _ _ (EWorld w)); [exact Hs|]. unfold step. by rewrite Hst. Qed.

(** What a member's step does: its log grows, and the store is as the calls it appended
    leave it. *)
Lemma member_step mb e w s s' :
  member_ok mb → reachable (m_settings mb) (m_worker mb) (m_retry mb) s → outside e = false →
  step (m_settings mb) (m_worker mb) (m_retry mb) e (find_store w s) = Some s' →
  reachable (m_settings mb) (m_worker mb) (m_retry mb) s'
  ∧ ∃ a ops, log s' = log s ++ a ∧ inner (world s') = run_ops ops (inner w)
      ∧ Forall (λ o, op_ok o ∧ deletes o = false) ops
      ∧ ∀ o, o ∈ ops → ∃ x, x ∈ log s' ∧ caused (m_settings mb) (m_worker mb) x o.
Proof.
  intros [Hok Hlease] Hr He Hs.
  assert (Hr' : reachable (m_settings mb) (m_worker mb) (m_retry mb) s').
  { eapply reach_step; [|exact Hs]. apply see_reachable; [done|].
    unfold step in Hs. change (stopped (find_store w s)) with (stopped s) in Hs.
    by destruct (stopped s). }
  split; [done|]. apply step_replays in Hs as (a & Hlog & Hw); [|done].
  destruct (replay_ops (m_settings mb) (m_worker mb) a w) as (ops & Hops & Hc).
  cbn in Hlog, Hw. exists a, ops. split_and!; [done|by rewrite Hw| |].
  - pose proof (reachable_inv _ _ _ _ Hok Hr') as [_ _ Hreq]. rewrite Forall_forall in Hreq.
    apply Forall_forall. intros o (x & Hx & Hxo)%Hc.
    destruct o; cbn in Hxo |- *; try done; [|by destruct Hxo as (_ & _ & ->)].
    subst x. split; [|done]. destruct (Hreq request) as (_ & -> & _); [|done].
    apply list_elem_of_omap. exists (DoAcquire request). split; [|done].
    rewrite Hlog. apply elem_of_app. by right.
  - intros o (x & Hx & Hxo)%Hc. exists x. split; [|done]. rewrite Hlog. apply elem_of_app. by right.
Qed.

(** What members know is not forgotten. *)
Definition knows (f f' : fleet) : Prop :=
  ∀ i s, runs f !! i = Some s → ∃ s' a, runs f' !! i = Some s' ∧ log s' = log s ++ a.

Global Instance knows_preorder : PreOrder knows.
Proof.
  split.
  - intros f i s Hs. exists s, []. by rewrite app_nil_r.
  - intros f1 f2 f3 H12 H23 i s Hs. destruct (H12 _ _ Hs) as (s2 & a & Hs2 & Ha).
    destruct (H23 _ _ Hs2) as (s3 & b & Hs3 & Hb). exists s3, (a ++ b).
    by rewrite Hb, Ha, app_assoc.
Qed.

Lemma knows_acked f f' m : knows f f' → acked f m → acked f' m.
Proof.
  intros Hk (i & s & Hs & Hm). destruct (Hk _ _ Hs) as (s' & a & Hs' & Ha).
  exists i, s'. split; [done|]. rewrite Ha. by apply acked_mono.
Qed.

Lemma knows_given_up f f' m d : knows f f' → given_up f m d → given_up f' m d.
Proof.
  intros Hk (i & mb & s & en & at_ & k & Hmb & Hs & Hn & items & item & Hin & Hrest).
  destruct (Hk _ _ Hs) as (s' & a & Hs' & Ha).
  exists i, mb, s', en, at_, k. split_and!; [done..|]. exists items, item.
  split; [|done]. rewrite Ha. apply elem_of_app. by left.
Qed.

(** What a member writes is what it knows. *)
Lemma member_truthful f i mb s o x :
  member_ok mb → members !! i = Some mb → runs f !! i = Some s →
  reachable (m_settings mb) (m_worker mb) (m_retry mb) s →
  x ∈ log s → caused (m_settings mb) (m_worker mb) x o →
  truthful (acked f) (given_up f) o.
Proof.
  intros [Hok _] Hmb Hs Hr Hx Hc.
  pose proof (reachable_inv _ _ _ _ Hok Hr) as [[_ _ _ _ _ Hcomp Hfail] _ _].
  destruct o; try done; cbn in *.
  - destruct Hc as [_ ->]. intros it Hit. exists i, s. split; [done|].
    by apply (proj1 (Forall_forall _ _) (Hcomp _ Hx)).
  - destruct Hc as [_ ->]. intros it reason Hit Hout.
    destruct (proj1 (Forall_forall _ _) (Hfail _ Hx) _ Hit) as (en & at_ & k & er & out & Hn & Heq).
    exists i, mb, s, en, at_, k. split_and!; [done..| |].
    + rewrite Heq in Hout. cbn in Hout. by subst out.
    + by exists items, it.
Qed.

Lemma fleet_step_inv e f f' :
  Forall member_ok members → event_ok e → fleet_inv f → fleet_step e f = Some f' →
  fleet_inv f' ∧ knows f f'.
Proof.
  intros Hms He Hf. pose proof Hf as [Hst Hlen Hruns Hrows]. destruct e as [i e|o|d]; cbn.
  - destruct (outside e) eqn:Eo; [done|].
    destruct (members !! i) as [mb|] eqn:Hmb; cbn; [|done].
    destruct (runs f !! i) as [s|] eqn:Hs; cbn; [|done].
    destruct (step _ _ _ _ _) as [s'|] eqn:Hstep; cbn; [|done]. intros [= <-].
    assert (Hmok : member_ok mb) by (by eapply Forall_lookup_1).
    pose proof (Hruns _ _ _ Hmb Hs) as Hr.
    destruct (member_step _ _ _ _ _ Hmok Hr Eo Hstep) as (Hr' & a & ops & Hlog & Hin & Hops & Hc).
    assert (Hi : (i < length (runs f))%nat) by (by eapply lookup_lt_Some).
    assert (Hk : knows f (mkFleet (world s') (<[i:=s']> (runs f)))).
    { intros j sj Hj. cbn. destruct (decide (j = i)) as [->|Hne].
      - exists s', a. rewrite list_lookup_insert_eq by done. by simplify_eq.
      - exists sj, []. rewrite list_lookup_insert_ne by done. by rewrite app_nil_r. }
    split; [|done].
    constructor; cbn.
    + rewrite Hin. apply run_ops_inv; [|done]. eapply Forall_impl; [exact Hops|]. by intros o [? _].
    + by rewrite length_insert.
    + intros j m sj Hm Hj. destruct (decide (j = i)) as [->|Hne].
      * rewrite list_lookup_insert_eq in Hj by done. by simplify_eq.
      * rewrite list_lookup_insert_ne in Hj by done. by eapply Hruns.
    + rewrite Hin. apply ops_justified.
      * apply Forall_forall. intros o (x & Hx & Hxo)%Hc.
        eapply (member_truthful _ i mb s'); eauto. cbn. by rewrite list_lookup_insert_eq.
      * eapply Forall_impl; [exact Hrows|]. intros r. apply justified_mono.
        -- intros m. by apply knows_acked.
        -- intros m dd. by apply knows_given_up.
  - destruct (external o) eqn:Eo; [|done]. intros [= <-]. split.
    + constructor; cbn; [by apply run_op_inv|done..|].
      apply (ops_justified _ _ [o]); [|done]. constructor; [|constructor]. by destruct o.
    + intros j s Hj. exists s, []. by rewrite app_nil_r.
  - intros [= <-]. split; [by constructor|]. intros j s Hj. exists s, []. by rewrite app_nil_r.
Qed.

Lemma fleet_start_inv : fleet_inv fleet_start.
Proof.
  constructor; cbn; [apply inv_default|by rewrite length_fmap| |constructor].
  intros i m s Hm Hs. apply list_lookup_fmap_Some in Hs as (? & -> & _). apply reach_initial.
Qed.

Lemma fleet_run_inv es f f' :
  Forall member_ok members → Forall event_ok es → fleet_inv f → fleet_run es f = Some f' →
  fleet_inv f' ∧ knows f f'.
Proof.
  intros Hms. revert f; induction es as [|e es IH]; intros f; cbn.
  { by intros _ Hf [= <-]. }
  intros [He Hes]%Forall_cons_1 Hf. destruct (fleet_step e f) as [f1|] eqn:H1; cbn; [|done].
  intros Hrun. destruct (fleet_step_inv _ _ _ Hms He Hf H1) as [Hf1 Hk1].
  destruct (IH f1) as [Hf' Hk]; [done..|]. split; [done|]. by trans f1.
Qed.

(** ** What the table says is what happened *)


(** ** No message is lost *)

Lemma same_row_ref r r' : same_row r r' → message_ref r' = message_ref r.
Proof.
  intros (He & _ & Hc & _). unfold message_ref. by rewrite He, Hc.
Qed.

Lemma fleet_step_keeps e f f' r :
  Forall member_ok members → event_ok e → fleet_inv f → fleet_step e f = Some f' →
  r ∈ rows (inner (shared f)) → MemStoreInv.pending r →
  ∃ r', r' ∈ rows (inner (shared f')) ∧ same_row r r'.
Proof.
  intros Hms He [Hst Hlen Hruns _] Hs Hr Hp. destruct e as [i e|o|d]; cbn in Hs.
  - destruct (outside e) eqn:Eo; [done|].
    destruct (members !! i) as [mb|] eqn:Hmb; cbn in Hs; [|done].
    destruct (runs f !! i) as [s|] eqn:Hs0; cbn in Hs; [|done].
    destruct (step _ _ _ _ _) as [s'|] eqn:Hstep; cbn in Hs; [|done]. injection Hs as <-.
    destruct (member_step mb e (shared f) s s') as (_ & a & ops & _ & Hin & Hops & _); try done.
    { by eapply Forall_lookup_1. } { by eapply Hruns. }
    cbn. rewrite Hin. apply Forall_and in Hops as [Hok Hdel]. by apply ops_keep_row.
  - destruct (external o); [|done]. injection Hs as <-. cbn. apply op_keeps_row; auto.
  - injection Hs as <-. by exists r.
Qed.

(** C1 [safety] No message is lost: whatever a fleet of dispatchers, the application and the
    housekeeping do, a message that is pending in the table is still in it and pending
    after any number of steps, unless meanwhile the broker acknowledged it or it was
    dead-lettered.  Rows are deleted only after that. *)
Theorem fleet_loses_nothing (es0 es : list fleet_event) (f f' : fleet) (r : row) :
  Forall member_ok members → Forall event_ok es0 → Forall event_ok es →
  fleet_run es0 fleet_start = Some f → fleet_run es f = Some f' →
  r ∈ rows (inner (shared f)) → MemStoreInv.pending r →
  (∃ r', r' ∈ rows (inner (shared f')) ∧ same_row r r' ∧ MemStoreInv.pending r')
  ∨ acked f' (message_ref r)
  ∨ ∃ es1 es2 f1 r1, es = es1 ++ es2 ∧ fleet_run es1 f = Some f1
      ∧ r1 ∈ rows (inner (shared f1)) ∧ same_row r r1 ∧ dead_at r1 ≠ None.
Proof.
  intros Hms Hes0 Hes Hrun0. destruct (fleet_run_inv _ _ _ Hms Hes0 fleet_start_inv Hrun0) as [Hf _].
  clear Hrun0. revert f r Hf; induction es as [|e es IH]; intros f r Hf; cbn.
  { intros [= <-] Hr Hp. left. by exists r. }
  apply Forall_cons_1 in Hes as [He Hes].
  destruct (fleet_step e f) as [f1|] eqn:H1; cbn; [|done]. intros Hrun Hr Hp.
  destruct (fleet_step_inv _ _ _ Hms He Hf H1) as [Hf1 _].
  destruct (fleet_step_keeps _ _ _ _ Hms He Hf H1 Hr Hp) as (r1 & Hr1 & Hsame).
  destruct (fleet_run_inv _ _ _ Hms Hes Hf1 Hrun) as [_ Hk].
  destruct (dead_at r1) as [t|] eqn:Hd.
  { right; right. exists [e], es, f1, r1. cbn. rewrite H1. cbn. by rewrite Hd. }
  destruct (published_at r1) as [t|] eqn:Hpub.
  { right; left. apply (knows_acked f1); [done|]. rewrite <-(same_row_ref _ _ Hsame).
    destruct Hf1 as [_ _ _ Hrows]. apply (proj1 (Forall_forall _ _) Hrows _ Hr1). by rewrite Hpub. }
  destruct (IH Hes f1 r1 Hf1 Hrun Hr1 (conj Hpub Hd)) as
    [(r2 & Hr2 & Hs2 & Hp2)|[Ha|(es1 & es2 & f2 & r2 & -> & Hrun2 & Hr2 & Hs2 & Hd2)]].
  - left. exists r2. split_and!; [done|by trans r1|done].
  - right; left. by rewrite <-(same_row_ref _ _ Hsame).
  - right; right. exists (e :: es1), es2, f2, r2. cbn. rewrite H1. cbn.
    split_and!; [done..|by trans r1|done].
Qed.
End fleet.

(** ** A fleet of two

    Two messages are staged; the first worker claims both, publishes the one and is told
    that the other will never go; it writes both outcomes.  The second worker finds
    nothing left to claim, and an hour later the housekeeping deletes the published
    row. *)

#[local] Existing Instance default_time_range.

Definition sample_members : list (member ExponentialBackoff.t) :=
  [mkMember run_settings (sample_worker "w1") run_retry;
   mkMember run_settings (sample_worker "w2") run_retry].

Definition fleet_stage : list fleet_event :=
  [FCall (OInsert (sample_envelope 1) None None); FCall (OInsert (sample_envelope 2) None None)].
Definition fleet_publish : list fleet_event :=
  FMember 0 <$>
    [EIterate NotSent BPoll seen_all; ETaskStart 0; ETaskStart 1; ETaskFinish 0 Acked;
     ETaskFinish 1 (Refused Permanent "no stream");
     EIterate NotSent
       (BJoined [mkJoined 0 (JOutcome (Published (run_ref 1) run_type)) 0;
                 mkJoined 1 (JOutcome (Failed (run_ref 2) 0 Permanent "no stream")) 0]) seen_all;
     EIterate NotSent BRetry seen_all].
Definition fleet_clean : list fleet_event :=
  [FMember 1 (EIterate NotSent BPoll seen_all); FCall (OAdvance (from_secs 3600));
   FCall (OPurge (PurgeRequest.with_published_retention (Some (from_secs 60)) PurgeRequest.default))].

Definition fleet_after (es : list fleet_event) : fleet :=
  default (fleet_start sample_members) (fleet_run sample_members es (fleet_start sample_members)).

Lemma sample_members_ok : Forall member_ok sample_members.
Proof. repeat constructor; vm_compute; discriminate. Qed.

Lemma fleet_events_ok : Forall event_ok (fleet_stage ++ fleet_publish ++ fleet_clean).
Proof. repeat constructor; cbn; unfold from_secs, NANOS_PER_SEC; intros; simplify_eq; lia. Qed.

(** The row as the first worker leaves it. *)
Definition fleet_row (n : nat) (f : fleet) : row :=
  nth n (rows (inner (shared f))) sample_row.


Lemma fleet_loses_nothing_witness :
  let f := fleet_after fleet_stage in
  let f' := fleet_after (fleet_stage ++ fleet_publish ++ fleet_clean) in
  message_ref (fleet_row 0 f) = run_ref 1
  ∧ (fleet_row 0 f).(OutboxRecord.sequence) = 1
  ∧ OutboxRecord.sequence <$> rows (inner (shared f')) = [2]
  ∧ (acked f' (run_ref 1)
     ∨ ∃ es1 es2 f1 r1, fleet_publish ++ fleet_clean = es1 ++ es2
         ∧ fleet_run sample_members es1 f = Some f1 ∧ r1 ∈ rows (inner (shared f1))
         ∧ same_row (fleet_row 0 f) r1 ∧ dead_at r1 ≠ None).
Proof.
  set (f := fleet_after fleet_stage). set (f' := fleet_after _).
  pose proof fleet_events_ok as He. apply Forall_app in He as [He0 He].
  assert (Hrun0 : fleet_run sample_members fleet_stage (fleet_start sample_members) = Some f)
    by (vm_compute; reflexivity).
  assert (Hrun : fleet_run sample_members (fleet_publish ++ fleet_clean) f = Some f')
    by (vm_compute; reflexivity).
  assert (Hin : fleet_row 0 f ∈ rows (inner (shared f))) by (vm_compute; by left).
  split_and!; [vm_compute; reflexivity..|].
  destruct (fleet_loses_nothing sample_members _ _ f f' (fleet_row 0 f) sample_members_ok He0 He
    Hrun0 Hrun Hin ltac:(split; vm_compute; reflexivity)) as [(r' & Hr' & (_ & Hq & _) & _)|Hrest].
  - exfalso. vm_compute in Hr', Hq. apply list_elem_of_singleton in Hr' as ->. vm_compute in Hq.
    discriminate.
  - exact Hrest.
Defined.
