(* ===== verification/Divergences.v ===== *)
(** * Where the code and its documentation part ways

    Concrete runs, evaluated by the kernel, of behaviours that a comment or a doc of the
    repository describes differently.  Each names the sentence it contradicts. *)

From S2P Require Import Prelude RustString CoreTypes CoreHeaders CoreEnvelope OutboxTypes.
From S2P Require Import OutboxRetry OutboxSettings MemStore MemStoreInv MemStoreSpec.
From S2P Require Import MemStoreThms StoreInterface Dispatcher DispatcherInv DispatcherSys.
From S2P Require Import DispatcherThms.
From Stdlib Require Import SpecFloat.

#[local] Existing Instance default_time_range.

(** ** The drain *)

(** "A row whose publish succeeded ... is left to its lease rather than released": with a
    zero [drain_timeout] the drain ends before it joins a task that has finished, and the
    row the broker acknowledged is released. *)
Definition hasty : DispatcherSettings.t :=
  DispatcherSettings.with_drain_timeout 0 DispatcherSettings.default.
Definition hasty_run : list (event MemWorld) :=
  run_claim ++ [ECancel; EIterate NotSent BCancelled seen_all; EDrainEnd].

Lemma drain_releases_an_acknowledged_row :
  validate_shared hasty = Ok ()
  ∧ ∃ s, run_events hasty run_worker run_retry hasty_run (initial run_world) = Some s
      ∧ at_phase s = Stopped (Ok ())
      ∧ run_ref 1 ∈ ledger is_acked (log s) ∧ run_ref 1 ∈ ledger is_released (log s).
Proof.
  split; [reflexivity|].
  destruct (run_events hasty run_worker run_retry hasty_run (initial run_world)) as [s|] eqn:Hs;
    [|vm_compute in Hs; discriminate].
  exists s. vm_compute in Hs. injection Hs as <-.
  split_and!; [reflexivity|reflexivity|left|vm_compute; repeat constructor].
Qed.

(** ** Outcome writes *)

Definition advance_world (d : Duration) (s : sys MemWorld InMemoryStoreError) : event MemWorld :=
  EWorld (mkMemWorld (run_op (OAdvance d) (inner (world s))) (clock (world s) + d)).

(** "Retrying is safe because the [locked_by] guard makes a repeated [complete]/[fail]
    idempotent": a [fail] that landed but whose answer was dropped is written again after
    the same worker has claimed the row anew (the poll wins while a retry awaits its answer).
    The guard lets it through: the row counts
    two attempts for one failed publish, and its lease is cleared while the worker is
    publishing it. *)
Definition stale_run : sys MemWorld InMemoryStoreError :=
  let s1 := run_state (run_claim ++ take 1 run_write
                       ++ [EIterate InFail BLeaseTick seen_all]) in
  let s2 := run_from [advance_world (from_secs 2) s1; EIterate InFail BPoll seen_all;
                      ETaskStart 2] s1 in
  run_from [EIterate NotSent BRetry seen_all] s2.

(** A repeated [fail] is not idempotent across a re-claim by the same worker:
    there is a run with a single failed publish in which the row ends with two counted
    attempts and no lease, while the dispatcher is publishing it again. *)
Theorem stale_fail_is_applied_twice :
  reachable run_settings run_worker run_retry stale_run
  ∧ length (ledger is_failed (log stale_run)) = 1%nat
  ∧ outstanding_refs (loop stale_run) = [run_ref 2]
  ∧ ((λ r, (OutboxRecord.message_ref r, OutboxRecord.attempts r, OutboxRecord.locked_by r))
       <$> filter (λ r, OutboxRecord.message_ref r = run_ref 2) (rows (inner (world stale_run))))
    = [(run_ref 2, 2, None)].
Proof.
  split; [by do 2 apply run_from_reachable; apply run_state_reachable|].
  vm_compute. split_and!; reflexivity.
Qed.

(** "A row M2 has abandoned ... stops counting here - and stops being renewed below - in
    the same step": the refs the lease tick renews are computed before the outcome write
    of the same iteration gives a row up, so the row is renewed once more. *)
Definition abandoned_run : sys MemWorld InMemoryStoreError :=
  let s1 := run_state (run_claim ++ take 1 run_write) in
  run_from [EWorld (mkMemWorld (run_op (OArm 1 0 0 0 0 0) (inner (world s1))) (from_secs 31));
            EIterate InFail BLeaseTick seen_all] s1.

Lemma abandoned_row_is_renewed_once_more :
  reachable run_settings run_worker run_retry abandoned_run
  ∧ ledger is_gave_up_complete (log abandoned_run) = [run_ref 1]
  ∧ last (log abandoned_run) = Some (DoExtend [run_ref 1; run_ref 2]).
Proof.
  split; [by apply run_from_reachable, run_state_reachable|].
  vm_compute. split_and!; reflexivity.
Qed.

(** ** Retry delays *)

(** "Never zero (given [base > 0])": a zero [max_delay] is valid and gives a zero delay. *)
Lemma zero_max_delay_gives_zero_delay :
  let p := ExponentialBackoff.mk (from_secs 1) 0 10 F64.fifth in
  ExponentialBackoff.validate p = Ok () ∧ next p 0 0 Transient = Some (Retry 0).
Proof. split; vm_compute; reflexivity. Qed.

(** "[delay = min(max_delay, base * 2^attempts) * jitter_factor]": the factor [2^attempts]
    saturates at [u32::MAX], which from 32 attempts on is less. *)
Lemma exponent_saturates :
  let p := ExponentialBackoff.mk 1 DURATION_MAX U32_MAX F64.zero in
  ExponentialBackoff.validate p = Ok ()
  ∧ ExponentialBackoff.capped p 33 = U32_MAX
  ∧ Z.min DURATION_MAX (1 * 2 ^ 33) = 8589934592.
Proof. cbv zeta. split_and!; vm_compute; reflexivity. Qed.

(** [validate] does not rule out the panic of [mul_f64]: it accepts a policy whose
    jittered delay overflows [Duration], and asking that policy for a retry panics. *)
Theorem valid_backoff_can_panic :
  let p := ExponentialBackoff.mk DURATION_MAX DURATION_MAX U32_MAX F64.fifth in
  ExponentialBackoff.validate p = Ok () ∧ next p U64_MAX 0 Transient = None.
Proof. split; vm_compute; reflexivity. Qed.

(** ** Purging *)

(** "[false] when any of the three counts hit [batch_size]": with a batch size of zero no
    report is complete, not even that of an empty store, and the loop the doc tells the
    caller to write never ends. *)
Lemma zero_batch_purge_never_completes (r : PurgeReport.t) :
  0 ≤ PurgeReport.published_deleted r → PurgeReport.is_complete r 0 = false.
Proof.
  intros Hr. unfold PurgeReport.is_complete.
  by rewrite (proj2 (Z.ltb_ge (PurgeReport.published_deleted r) 0) Hr).
Qed.
