(* ===== verification/NatsMapper.v ===== *)
(** * Mapping an envelope to NATS and back ([reliar-transport-nats], headers.rs, mapper.rs)

    [encode] projects the canonical envelope onto a header map and the raw body; [decode]
    reads it back.  The header map of [async_nats], the UUID text form and the RFC 3339
    text form are third-party code: parameters ([NatsLib]) with their documented behaviour
    as laws ([NatsLibLaws]).  A [HashMap] of custom headers is iterated in the order of
    [map_to_list]. *)

From S2P Require Import Prelude RustString CoreTypes CoreHeaders CoreEnvelope.

(** ** headers.rs *)

(* src: nats/headers.rs 5-6 MESSAGE_ID *)
Definition MESSAGE_ID : string := "reliar-message-id".
(* src: nats/headers.rs 7-8 MESSAGE_TYPE *)
Definition MESSAGE_TYPE : string := "reliar-message-type".
(* src: nats/headers.rs 9-10 MESSAGE_VERSION *)
Definition MESSAGE_VERSION : string := "reliar-message-version".
(* src: nats/headers.rs 11-12 CONTENT_TYPE *)
Definition CONTENT_TYPE : string := "reliar-content-type".
(* src: nats/headers.rs 13-14 CORRELATION_ID *)
Definition CORRELATION_ID : string := "reliar-correlation-id".
(* src: nats/headers.rs 15-17 CONVERSATION_ID *)
Definition CONVERSATION_ID : string := "reliar-conversation-id".
(* src: nats/headers.rs 18-19 CAUSATION_ID *)
Definition CAUSATION_ID : string := "reliar-causation-id".
(* src: nats/headers.rs 20-21 REQUEST_ID *)
Definition REQUEST_ID : string := "reliar-request-id".
(* src: nats/headers.rs 22-23 TENANT_ID *)
Definition TENANT_ID : string := "reliar-tenant-id".
(* src: nats/headers.rs 24-25 SENT_AT *)
Definition SENT_AT : string := "reliar-sent-at".
(* src: nats/headers.rs 26-27 EXPIRES_AT *)
Definition EXPIRES_AT : string := "reliar-expires-at".
(* src: nats/headers.rs 28-29 SOURCE *)
Definition SOURCE : string := "reliar-source".
(* src: nats/headers.rs 30-31 DESTINATION *)
Definition DESTINATION : string := "reliar-destination".
(* src: nats/headers.rs 32-33 REPLY_TO *)
Definition REPLY_TO : string := "reliar-reply-to".
(* src: nats/headers.rs 34-35 TRACEPARENT *)
Definition TRACEPARENT : string := "traceparent".
(* src: nats/headers.rs 36-37 TRACESTATE *)
Definition TRACESTATE : string := "tracestate".
(* src: nats/headers.rs 38-41 NATS_MSG_ID *)
Definition NATS_MSG_ID : string := "Nats-Msg-Id".
(* src: nats/headers.rs 42-44 RELIAR_PREFIX *)
Definition RELIAR_PREFIX : string := "reliar-".
(* src: nats/headers.rs 45-46 NATS_PREFIX *)
Definition NATS_PREFIX : string := "Nats-".

(* src: nats/error.rs 16-62 NatsMapError *)
Inductive NatsMapError :=
  | MissingHeader (header : string)
  | MalformedHeader (header : string)
  | DuplicateHeader (header : string)
  | UnsupportedHeaderName (key : string)
  | ReservedHeaderName (key : string)
  | InvalidHeaderValue (header : string)
  | RejectedHeader (key : string) (source : HeaderError).

(** ** The third-party code *)

Class NatsLib := {
  (** [async_nats::HeaderMap], with [iter] as the pairs of a name and its values. *)
  HeaderMap : Type;
  hm_new : HeaderMap;
  hm_insert : string → string → HeaderMap → HeaderMap;
  hm_iter : HeaderMap → list (string * list string);
  (** [HeaderName::from_str] and [HeaderValue::from_str], as the text they hold. *)
  header_name_from_str : string → option string;
  header_value_from_str : string → option string;
  (** [Uuid::to_string] and [Uuid::parse_str]. *)
  uuid_display : Uuid → string;
  uuid_parse : string → option Uuid;
  (** [format(&Rfc3339)] in UTC and [OffsetDateTime::parse(_, &Rfc3339)]. *)
  rfc3339_format : OffsetDateTime → option string;
  rfc3339_parse : string → option OffsetDateTime;
}.

(** Documented: [insert] replaces the values of a name; a name or value that is accepted
    is kept as it is; and both text forms are read back. *)
Class NatsLibLaws `{NatsLib} := {
  hm_iter_new : hm_iter hm_new = [];
  hm_iter_insert n v m :
    hm_iter (hm_insert n v m) ≡ₚ (n, [v]) :: filter (λ p, p.1 ≠ n) (hm_iter m);
  header_name_text k n : header_name_from_str k = Some n → n = k;
  header_value_text v s : header_value_from_str v = Some s → s = v;
  uuid_parse_display u : uuid_parse (uuid_display u) = Some u;
  rfc3339_parse_format t s : rfc3339_format t = Some s → rfc3339_parse s = Some t;
}.

Section mapper.
Context `{NatsLib}.

(* src: nats/mapper.rs 17-29 NatsWireMessage *)
Record NatsWireMessage := mkWire { headers : HeaderMap; payload : Bytes }.

(** ** Encoding *)

(* src: nats/mapper.rs 703-706 starts_with_ci *)
Definition starts_with_ci (s prefix : string) : bool :=
  (len s >=? len prefix)
  && eq_ignore_ascii_case (str_take (String.length prefix) s) prefix.

(* src: nats/mapper.rs 174-186 trace_override_name *)
Definition trace_override_name (key : string) : option string :=
  if eq_ignore_ascii_case key TRACEPARENT then Some TRACEPARENT
  else if eq_ignore_ascii_case key TRACESTATE then Some TRACESTATE
  else None.

(* src: nats/mapper.rs 664-671 header_value *)
Definition header_value (header s : string) : result string NatsMapError :=
  match header_value_from_str s with
  | Some v => Ok v
  | None => Err (InvalidHeaderValue header)
  end.

(* src: nats/mapper.rs 673-681 rfc3339_utc *)
Definition rfc3339_utc (at_ : OffsetDateTime) (header : string) : result string NatsMapError :=
  match rfc3339_format at_ with
  | Some s => Ok s
  | None => Err (InvalidHeaderValue header)
  end.

(** [headers.insert(HeaderName::from_static(header), header_value(header, v)?)]. *)
Definition put (header v : string) (hm : HeaderMap) : result HeaderMap NatsMapError :=
  let? v := header_value header v in Ok (hm_insert header v hm).

(** The same under [if let Some(..)], the value's text itself fallible. *)
Definition put_opt (header : string) (o : option (result string NatsMapError)) (hm : HeaderMap)
  : result HeaderMap NatsMapError :=
  match o with
  | None => Ok hm
  | Some v => let? v := v in put header v hm
  end.

(** The loop over the custom headers, with the two flags. *)
(* src: nats/mapper.rs 107-162 NatsEnvelopeMapper::encode *)
Fixpoint encode_custom (trace : TraceContext.t) (custom : list (string * string))
    (from_parent from_state : bool) (hm : HeaderMap) : result HeaderMap NatsMapError :=
  match custom with
  | [] => Ok hm
  | (key, value) :: custom' =>
      if starts_with_ci key NATS_PREFIX then Err (ReservedHeaderName key)
      else
        match trace_override_name key with
        | Some canonical =>
            let parent := bool_decide (canonical = TRACEPARENT) in
            let framework_value_set :=
              if parent then bool_decide (is_Some (TraceContext.traceparent trace))
              else bool_decide (is_Some (TraceContext.tracestate trace)) in
            if framework_value_set then encode_custom trace custom' from_parent from_state hm
            else if (if parent then from_parent else from_state)
            then Err (DuplicateHeader canonical)
            else
              let? hm := put canonical value hm in
              encode_custom trace custom' (from_parent || parent) (from_state || negb parent) hm
        | None =>
            match header_name_from_str key with
            | None => Err (UnsupportedHeaderName key)
            | Some name =>
                match header_value_from_str value with
                | None => Err (InvalidHeaderValue key)
                | Some v =>
                    encode_custom trace custom' from_parent from_state (hm_insert name v hm)
                end
            end
        end
  end.

(* src: nats/mapper.rs 257-320 insert_routing_trace_and_dedup_headers *)
Definition insert_routing_trace_and_dedup_headers (hm : HeaderMap) (e : SerializedEnvelope)
  : result HeaderMap NatsMapError :=
  let md := Envelope.metadata e in
  let delivery := Metadata.delivery md in
  let routing := Metadata.routing md in
  let trace := Metadata.trace md in
  let? hm := put_opt SENT_AT
    ((λ t, rfc3339_utc t SENT_AT) <$> DeliveryMetadata.sent_at delivery) hm in
  let? hm := put_opt EXPIRES_AT
    ((λ t, rfc3339_utc t EXPIRES_AT) <$> DeliveryMetadata.expires_at delivery) hm in
  let? hm := put_opt SOURCE
    ((λ a, Ok (EndpointAddress.as_str a)) <$> RoutingMetadata.source routing) hm in
  let? hm := put_opt DESTINATION
    ((λ a, Ok (EndpointAddress.as_str a)) <$> RoutingMetadata.destination routing) hm in
  let? hm := put_opt REPLY_TO
    ((λ a, Ok (EndpointAddress.as_str a)) <$> RoutingMetadata.reply_to routing) hm in
  let? hm := put_opt TRACEPARENT (Ok <$> TraceContext.traceparent trace) hm in
  let? hm := put_opt TRACESTATE (Ok <$> TraceContext.tracestate trace) hm in
  put NATS_MSG_ID
    (default (uuid_display (MessageId.as_uuid (Envelope.id e)))
       (DeliveryMetadata.deduplication_id delivery)) hm.

(* src: nats/mapper.rs 188-255 insert_framework_headers *)
Definition insert_framework_headers (hm : HeaderMap) (e : SerializedEnvelope)
  : result HeaderMap NatsMapError :=
  let md := Envelope.metadata e in
  let correlation := Metadata.correlation md in
  let conversation := CorrelationMetadata.conversation_id correlation in
  let? hm := put MESSAGE_ID (uuid_display (MessageId.as_uuid (Envelope.id e))) hm in
  let? hm := put MESSAGE_TYPE (MessageType.name (Envelope.message_type e)) hm in
  let? hm := put MESSAGE_VERSION
    (display_uint (MessageType.version (Envelope.message_type e))) hm in
  let? hm := put CONTENT_TYPE
    (ContentType.as_str (DeliveryMetadata.content_type (Metadata.delivery md))) hm in
  let? hm := put_opt CORRELATION_ID
    ((λ c, Ok (CorrelationId.as_str c)) <$> CorrelationMetadata.correlation_id correlation) hm in
  let? hm := put_opt CONVERSATION_ID
    (if ConversationId.is_unset conversation then None
     else Some (Ok (uuid_display (ConversationId.as_uuid conversation)))) hm in
  let? hm := put_opt CAUSATION_ID
    ((λ i, Ok (uuid_display (MessageId.as_uuid i)))
       <$> CorrelationMetadata.causation_id correlation) hm in
  let? hm := put_opt REQUEST_ID
    ((λ i, Ok (uuid_display (RequestId.as_uuid i)))
       <$> CorrelationMetadata.request_id correlation) hm in
  let? hm := put_opt TENANT_ID (Ok <$> Metadata.tenant_id md) hm in
  insert_routing_trace_and_dedup_headers hm e.

(* src: nats/mapper.rs 99-167 NatsEnvelopeMapper::encode *)
Definition encode (e : SerializedEnvelope) : result NatsWireMessage NatsMapError :=
  let? hm := match Envelope.headers e with
             | Some custom =>
                 encode_custom (Metadata.trace (Envelope.metadata e)) (map_to_list custom)
                   false false hm_new
             | None => Ok hm_new
             end in
  let? hm := insert_framework_headers hm e in
  Ok (mkWire hm (Envelope.body e)).

(** The bytes the server counts; [usize] additions do not overflow. *)
(* src: nats/mapper.rs 44-63 NatsWireMessage::wire_len *)
Definition wire_len (m : NatsWireMessage) : Z :=
  let body := Z.of_nat (length (payload m)) in
  match hm_iter (headers m) with
  | [] => body
  | entries =>
      fold_left (λ n p, fold_left (λ n v, n + len p.1 + 2 + len v + 2) p.2 n) entries (10 + 2)
      + body
  end.

(** ** Decoding *)

(* src: nats/mapper.rs 322-349 HeaderKind *)
Inductive HeaderKind :=
  | MessageId | MessageType | MessageVersion | ContentType | CorrelationId | ConversationId
  | CausationId | RequestId | TenantId | SentAt | ExpiresAt | Source | Destination | ReplyTo
  | Traceparent | Tracestate | NatsMsgId
  | NatsBookkeeping | UnknownReliar | Custom.

(* src: nats/mapper.rs 351-393 classify_header *)
Definition classify_header (name : string) : HeaderKind :=
  if eq_ignore_ascii_case name MESSAGE_ID then MessageId
  else if eq_ignore_ascii_case name MESSAGE_TYPE then MessageType
  else if eq_ignore_ascii_case name MESSAGE_VERSION then MessageVersion
  else if eq_ignore_ascii_case name CONTENT_TYPE then ContentType
  else if eq_ignore_ascii_case name CORRELATION_ID then CorrelationId
  else if eq_ignore_ascii_case name CONVERSATION_ID then ConversationId
  else if eq_ignore_ascii_case name CAUSATION_ID then CausationId
  else if eq_ignore_ascii_case name REQUEST_ID then RequestId
  else if eq_ignore_ascii_case name TENANT_ID then TenantId
  else if eq_ignore_ascii_case name SENT_AT then SentAt
  else if eq_ignore_ascii_case name EXPIRES_AT then ExpiresAt
  else if eq_ignore_ascii_case name SOURCE then Source
  else if eq_ignore_ascii_case name DESTINATION then Destination
  else if eq_ignore_ascii_case name REPLY_TO then ReplyTo
  else if eq_ignore_ascii_case name TRACEPARENT then Traceparent
  else if eq_ignore_ascii_case name TRACESTATE then Tracestate
  else if eq_ignore_ascii_case name NATS_MSG_ID then NatsMsgId
  else if starts_with_ci name NATS_PREFIX then NatsBookkeeping
  else if starts_with_ci name RELIAR_PREFIX then UnknownReliar
  else Custom.

(** The seventeen [Option<&str>] fields, keyed by the header each holds. *)
(* src: nats/mapper.rs 395-418 ScannedHeaders *)
Record ScannedHeaders := mkScanned {
  fields : gmap string string;
  custom : option Headers.t;
}.

(* src: nats/mapper.rs 683-701 assign_once *)
Definition assign_once (header : string) (values : list string) (s : ScannedHeaders)
  : result ScannedHeaders NatsMapError :=
  match fields s !! header, values with
  | None, [v] => Ok (mkScanned (<[header := v]> (fields s)) (custom s))
  | _, _ => Err (DuplicateHeader header)
  end.

(* src: nats/mapper.rs 424-496 ScannedHeaders::scan *)
Definition scan_entry (s : ScannedHeaders) (raw_name : string) (values : list string)
  : result ScannedHeaders NatsMapError :=
  match classify_header raw_name with
  | MessageId => assign_once MESSAGE_ID values s
  | MessageType => assign_once MESSAGE_TYPE values s
  | MessageVersion => assign_once MESSAGE_VERSION values s
  | ContentType => assign_once CONTENT_TYPE values s
  | CorrelationId => assign_once CORRELATION_ID values s
  | ConversationId => assign_once CONVERSATION_ID values s
  | CausationId => assign_once CAUSATION_ID values s
  | RequestId => assign_once REQUEST_ID values s
  | TenantId => assign_once TENANT_ID values s
  | SentAt => assign_once SENT_AT values s
  | ExpiresAt => assign_once EXPIRES_AT values s
  | Source => assign_once SOURCE values s
  | Destination => assign_once DESTINATION values s
  | ReplyTo => assign_once REPLY_TO values s
  | Traceparent => assign_once TRACEPARENT values s
  | Tracestate => assign_once TRACESTATE values s
  | NatsMsgId => assign_once NATS_MSG_ID values s
  | NatsBookkeeping | UnknownReliar => Ok s
  | Custom =>
      let value := default EmptyString (head values) in
      match Headers.insert (default ∅ (custom s)) raw_name value with
      | (h, Ok _) => Ok (mkScanned (fields s) (Some h))
      | (_, Err err) => Err (RejectedHeader raw_name err)
      end
  end.

Fixpoint scan_entries (entries : list (string * list string)) (s : ScannedHeaders)
  : result ScannedHeaders NatsMapError :=
  match entries with
  | [] => Ok s
  | (raw_name, values) :: entries' =>
      let? s := scan_entry s raw_name values in scan_entries entries' s
  end.

(* src: nats/mapper.rs 420-499 ScannedHeaders::scan *)
Definition scan (hm : HeaderMap) : result ScannedHeaders NatsMapError :=
  scan_entries (hm_iter hm) (mkScanned ∅ None).

Definition ok_or {A E} (o : option A) (e : E) : result A E :=
  match o with Some a => Ok a | None => Err e end.
Definition required (s : ScannedHeaders) (header : string) : result string NatsMapError :=
  ok_or (fields s !! header) (MissingHeader header).
(** [self.f.map(parse).transpose().map_err(..)]. *)
Definition parsed {A} (s : ScannedHeaders) (header : string) (parse : string → option A)
  : result (option A) NatsMapError :=
  option_traverse (λ raw, ok_or (parse raw) (MalformedHeader header)) (fields s !! header).
Definition to_option {A E} (r : result A E) : option A :=
  match r with Ok a => Some a | Err _ => None end.

(* src: nats/mapper.rs 517-565 ScannedHeaders::parse_identity *)
Definition parse_identity (s : ScannedHeaders)
  : result (CoreTypes.MessageId.t * string * CoreTypes.MessageType.t * CoreTypes.ContentType.t)
      NatsMapError :=
  let? message_id_raw := required s MESSAGE_ID in
  let? message_type_raw := required s MESSAGE_TYPE in
  let? message_version_raw := required s MESSAGE_VERSION in
  let? content_type_raw := required s CONTENT_TYPE in
  let? id := ok_or (CoreTypes.MessageId.from_uuid <$> uuid_parse message_id_raw)
               (MalformedHeader MESSAGE_ID) in
  let? version := ok_or (parse_uint U16_MAX message_version_raw)
                    (MalformedHeader MESSAGE_VERSION) in
  if is_empty message_type_raw then Err (MalformedHeader MESSAGE_TYPE)
  else
    let message_type := CoreTypes.MessageType.from_parts message_type_raw version in
    let? content_type := map_err (λ _, MalformedHeader CONTENT_TYPE)
                           (CoreTypes.ContentType.parse content_type_raw) in
    Ok (id, message_id_raw, message_type, content_type).

(* src: nats/mapper.rs 567-661 ScannedHeaders::parse_metadata *)
Definition parse_metadata (s : ScannedHeaders) (message_id_raw : string)
  : result (Metadata.t * option Headers.t) NatsMapError :=
  let? correlation_id := parsed s CORRELATION_ID
    (λ raw, to_option (CoreTypes.CorrelationId.parse raw)) in
  let? conversation_id :=
    match fields s !! CONVERSATION_ID with
    | Some raw => ok_or (CoreTypes.ConversationId.from_uuid <$> uuid_parse raw)
                    (MalformedHeader CONVERSATION_ID)
    | None => Ok CoreTypes.ConversationId.UNSET
    end in
  let? causation_id := parsed s CAUSATION_ID
    (λ raw, CoreTypes.MessageId.from_uuid <$> uuid_parse raw) in
  let? request_id := parsed s REQUEST_ID
    (λ raw, CoreTypes.RequestId.from_uuid <$> uuid_parse raw) in
  let? sent_at := parsed s SENT_AT rfc3339_parse in
  let? expires_at := parsed s EXPIRES_AT rfc3339_parse in
  let? source := parsed s SOURCE (λ raw, to_option (EndpointAddress.parse raw)) in
  let? destination := parsed s DESTINATION (λ raw, to_option (EndpointAddress.parse raw)) in
  let? reply_to := parsed s REPLY_TO (λ raw, to_option (EndpointAddress.parse raw)) in
  let deduplication_id :=
    v ← fields s !! NATS_MSG_ID; if bool_decide (v ≠ message_id_raw) then Some v else None in
  Ok (Metadata.mk
        (CorrelationMetadata.mk correlation_id conversation_id causation_id request_id)
        (TraceContext.mk (fields s !! TRACEPARENT) (fields s !! TRACESTATE))
        (RoutingMetadata.mk source destination reply_to)
        (DeliveryMetadata.mk (DeliveryMetadata.content_type DeliveryMetadata.default)
           sent_at expires_at deduplication_id)
        (fields s !! TENANT_ID),
      custom s).

(* src: nats/mapper.rs 501-515 ScannedHeaders::into_envelope *)
Definition into_envelope (s : ScannedHeaders) (payload : Bytes)
  : result SerializedEnvelope NatsMapError :=
  let? (id, message_id_raw, message_type, content_type) := parse_identity s in
  let? (metadata, custom) := parse_metadata s message_id_raw in
  let d := Metadata.delivery metadata in
  let metadata := Metadata.set_delivery
    (DeliveryMetadata.mk content_type (DeliveryMetadata.sent_at d)
       (DeliveryMetadata.expires_at d) (DeliveryMetadata.deduplication_id d)) metadata in
  Ok (from_parts id message_type payload metadata custom).

(* src: nats/mapper.rs 169-171 NatsEnvelopeMapper::decode *)
Definition decode (m : NatsWireMessage) : result SerializedEnvelope NatsMapError :=
  let? s := scan (headers m) in into_envelope s (payload m).
End mapper.
