(* ===== verification/NatsRoundtrip.v ===== *)
(** * The NATS projection loses nothing ([reliar-transport-nats], mapper.rs)

    [decode] reads back what [encode] wrote, up to the normalisations the two document: a
    custom header that names a trace header becomes trace context, an empty header map is
    absent, and a deduplication id equal to the message id reads as unset. *)

From Stdlib Require Import Ascii.
From S2P Require Import Prelude RustString CoreTypes CoreHeaders CoreEnvelope NatsMapper.

(** ** Case-insensitive prefixes *)

Lemma lower_take n s :
  to_ascii_lowercase (str_take n s) = str_take n (to_ascii_lowercase s).
Proof. revert n; induction s as [|a s IH]; intros [|n]; cbn; [done..|]. by rewrite IH. Qed.

Lemma starts_with_ci_lower s t p :
  to_ascii_lowercase s = to_ascii_lowercase t → starts_with_ci s p = starts_with_ci t p.
Proof.
  intros Heq. unfold starts_with_ci, eq_ignore_ascii_case, len.
  rewrite !lower_take, Heq, <-(length_to_ascii_lowercase s), <-(length_to_ascii_lowercase t), Heq.
  done.
Qed.

Lemma eq_ignore_lower s t :
  eq_ignore_ascii_case s t = true → to_ascii_lowercase s = to_ascii_lowercase t.
Proof. apply bool_decide_eq_true_1. Qed.

(** A key [encode] writes under its own name. *)
Definition custom_key (k : string) : Prop :=
  Headers.has_reserved_prefix k = false ∧ starts_with_ci k NATS_PREFIX = false
  ∧ trace_override_name k = None.

Lemma classify_custom k : custom_key k → classify_header k = Custom.
Proof.
  intros (Hr & Hn & Ht). change (starts_with_ci k RELIAR_PREFIX = false) in Hr.
  unfold trace_override_name in Ht.
  destruct (eq_ignore_ascii_case k TRACEPARENT) eqn:H1; [done|].
  destruct (eq_ignore_ascii_case k TRACESTATE) eqn:H2; [done|].
  unfold classify_header. rewrite H1, H2, Hr, Hn.
  repeat match goal with
    | |- context [eq_ignore_ascii_case k ?c] =>
        let Hc := fresh in
        destruct (eq_ignore_ascii_case k c) eqn:Hc;
        [apply eq_ignore_lower in Hc;
         rewrite (starts_with_ci_lower k c) in Hr by exact Hc;
         rewrite (starts_with_ci_lower k c) in Hn by exact Hc;
         first [discriminate Hr | discriminate Hn]|]
    end.
  done.
Qed.

Definition framework_names : list string :=
  [MESSAGE_ID; MESSAGE_TYPE; MESSAGE_VERSION; CONTENT_TYPE; CORRELATION_ID; CONVERSATION_ID;
   CAUSATION_ID; REQUEST_ID; TENANT_ID; SENT_AT; EXPIRES_AT; SOURCE; DESTINATION; REPLY_TO;
   TRACEPARENT; TRACESTATE; NATS_MSG_ID].

Definition is_trace (h : string) : Prop := h = TRACEPARENT ∨ h = TRACESTATE.

Lemma is_trace_framework h : is_trace h → h ∈ framework_names.
Proof. intros [->| ->]; unfold framework_names; [do 14 right|do 15 right]; left. Qed.

Lemma framework_names_NoDup : NoDup framework_names.
Proof. refine (bool_decide_unpack _ _). vm_compute. exact I. Qed.

Lemma scan_framework h s vs :
  h ∈ framework_names → scan_entry s h vs = assign_once h vs s.
Proof. unfold framework_names. rewrite !elem_of_cons, elem_of_nil. intuition (subst; reflexivity). Qed.

Lemma custom_not_framework k : custom_key k → k ∉ framework_names.
Proof.
  intros Hk%classify_custom Hin. unfold framework_names in Hin.
  rewrite !elem_of_cons, elem_of_nil in Hin. intuition (subst; discriminate).
Qed.

(** ** Scanning *)

(** The wire entries of a list of headers with one value each. *)
Definition wire (l : list (string * string)) : list (string * list string) :=
  (λ p, (p.1, [p.2])) <$> l.
Definition is_framework (p : string * string) : Prop := p.1 ∈ framework_names.
Global Instance is_framework_dec p : Decision (is_framework p).
Proof. unfold is_framework. apply _. Defined.
Definition framework_of (l : list (string * string)) := filter is_framework l.
Definition custom_of (l : list (string * string)) := filter (λ p, ¬ is_framework p) l.

Definition extend_custom (l : list (string * string)) (c : option Headers.t) : option Headers.t :=
  match l with [] => c | _ => Some (list_to_map l ∪ default ∅ c) end.

Lemma not_elem_filter_fst (P : string * string → Prop) `{∀ p, Decision (P p)} k l :
  k ∉ l.*1 → k ∉ (filter P l).*1.
Proof.
  intros Hk (p & -> & [_ Hp]%list_elem_of_filter)%list_elem_of_fmap.
  apply Hk. by apply list_elem_of_fmap_2.
Qed.

Lemma scan_entry_custom k v s :
  custom_key k → Headers.entry_ok k v → default ∅ (custom s) !! k = None →
  (size (default ∅ (custom s)) < Headers.MAX_COUNT)%nat →
  scan_entry s k [v] = Ok (mkScanned (fields s) (Some (<[k := v]> (default ∅ (custom s))))).
Proof.
  intros Hk Hkv Hc Hsize. unfold scan_entry. rewrite classify_custom by done.
  change (default EmptyString (head [v])) with v.
  assert (Hins : Headers.insert (default ∅ (custom s)) k v
    = (<[k := v]> (default ∅ (custom s)), Ok (default ∅ (custom s) !! k)))
    by (by apply headers_insert_Ok).
  by rewrite Hins.
Qed.

Lemma scan_entries_spec l s :
  NoDup l.*1 →
  (∀ h, h ∈ l.*1 → fields s !! h = None) →
  Forall (λ p, is_framework p ∨ custom_key p.1 ∧ Headers.entry_ok p.1 p.2) l →
  (∀ k, k ∈ l.*1 → default ∅ (custom s) !! k = None) →
  (size (default ∅ (custom s)) + length (custom_of l) ≤ Headers.MAX_COUNT)%nat →
  scan_entries (wire l) s
  = Ok (mkScanned (list_to_map (framework_of l) ∪ fields s)
          (extend_custom (custom_of l) (custom s))).
Proof.
  revert s; induction l as [|[k v] l IH]; intros s; cbn [wire fmap list_fmap].
  { intros _ _ _ _ _. cbn. rewrite (left_id_L ∅ (∪)). by destruct s. }
  intros [Hk Hnd]%NoDup_cons Hf [Hkv Hl]%Forall_cons Hc Hsize. cbn [scan_entries fst snd] in *.
  change (list_fmap _ _ _ l) with (wire l). unfold framework_of, custom_of in *.
  assert (Hne : ∀ h, h ∈ l.*1 → h ≠ k) by (by intros h Hh ->).
  destruct Hkv as [Hfw|[Hck Hok]].
  - rewrite filter_cons_True by done. rewrite filter_cons_False in Hsize |- * by tauto.
    rewrite scan_framework by done. unfold assign_once. rewrite Hf by (by left).
    cbn [result_bind]. rewrite IH; cbn [fields custom]; try done.
    + f_equal. f_equal. apply insert_list_to_map_union. by apply not_elem_filter_fst.
    + intros h Hh. rewrite lookup_insert_ne by (by apply not_eq_sym, Hne).
      apply Hf. by right.
    + intros h Hh. apply Hc. by right.
  - assert (Hnfw : ¬ is_framework (k, v)) by (by apply custom_not_framework).
    rewrite (filter_cons_False is_framework) by done.
    rewrite filter_cons_True in Hsize |- * by done. cbn in Hsize.
    rewrite scan_entry_custom; [|done|done|apply Hc; by left|lia].
    cbn [result_bind]. rewrite IH; cbn [fields custom from_option id]; try done.
    + f_equal. f_equal. unfold extend_custom.
      rewrite <-(insert_list_to_map_union k v) by (by apply not_elem_filter_fst).
      destruct (filter _ l); [|done]. cbn. by rewrite (left_id_L ∅ (∪)).
    + intros h Hh. apply Hf. by right.
    + intros h Hh. cbn. rewrite lookup_insert_ne by (by apply not_eq_sym, Hne).
      apply Hc. by right.
    + cbn. rewrite map_size_insert_None by (apply Hc; by left). lia.
Qed.

(** ** What [encode] writes *)

Section roundtrip.
Context `{NatsLibLaws}.
Implicit Types (hm : HeaderMap) (e : SerializedEnvelope).

(** The headers of a table that are present. *)
Definition present (es : list (string * option string)) : list (string * string) :=
  omap (λ p, (p.1,.) <$> p.2) es.

Lemma present_names es k : k ∈ (present es).*1 → k ∈ es.*1.
Proof.
  intros (p & -> & (q & Hq & Hp)%list_elem_of_omap)%list_elem_of_fmap.
  apply fmap_Some in Hp as (v & _ & ->). cbn. by apply list_elem_of_fmap_2.
Qed.

Lemma insert_fresh n v hm :
  n ∉ (hm_iter hm).*1 → hm_iter (hm_insert n v hm) ≡ₚ (n, [v]) :: hm_iter hm.
Proof.
  intros Hn. rewrite hm_iter_insert.
  assert (Hf : filter (λ p, p.1 ≠ n) (hm_iter hm) = hm_iter hm); [|by rewrite Hf].
  induction (hm_iter hm) as [|p l IH]; [done|]. cbn in Hn. apply not_elem_of_cons in Hn as [Hp Hl].
  rewrite filter_cons_True by (by apply not_eq_sym). by rewrite IH.
Qed.

Lemma wire_names l : (wire l).*1 = l.*1.
Proof. unfold wire. rewrite <-list_fmap_compose. done. Qed.

Lemma put_Ok h v hm hm' :
  put h v hm = Ok hm' → h ∉ (hm_iter hm).*1 → hm_iter hm' ≡ₚ (h, [v]) :: hm_iter hm.
Proof.
  unfold put, header_value. destruct (header_value_from_str v) as [v'|] eqn:Hv; cbn; [|done].
  apply header_value_text in Hv as ->. intros [= <-]. apply insert_fresh.
Qed.

(** A run of [put]s of headers that may be absent, and whose text may fail to format. *)
Fixpoint put_all (es : list (string * option (result string NatsMapError))) hm
  : result HeaderMap NatsMapError :=
  match es with
  | [] => Ok hm
  | (h, o) :: es => let? hm := put_opt h o hm in put_all es hm
  end.

Definition texts (es : list (string * option (result string NatsMapError)))
  : list (string * option string) := (λ p, (p.1, r ← p.2; to_option r)) <$> es.

Lemma texts_names es : (texts es).*1 = es.*1.
Proof. unfold texts. rewrite <-list_fmap_compose. done. Qed.

Lemma put_all_spec es hm hm' :
  put_all es hm = Ok hm' → NoDup es.*1 →
  (∀ n, n ∈ (present (texts es)).*1 → n ∉ (hm_iter hm).*1) →
  hm_iter hm' ≡ₚ wire (present (texts es)) ++ hm_iter hm
  ∧ Forall (λ p, ∀ err, p.2 ≠ Some (Err err)) es.
Proof.
  revert hm; induction es as [|[h o] es IH]; intros hm; cbn [put_all].
  { intros [= ->] _ _. by split. }
  intros Hput [Hh Hnd]%NoDup_cons Hfr. apply result_bind_Ok in Hput as (hm1 & H1 & H2).
  destruct o as [r|]; cbn in H1.
  - apply result_bind_Ok in H1 as (v & -> & H1).
    apply put_Ok in H1; [|apply Hfr; by left].
    destruct (IH hm1 H2 Hnd) as [Hperm Hall].
    { intros n Hn. rewrite H1. cbn. apply not_elem_of_cons. split; [|apply Hfr; by right].
      intros ->. apply Hh. rewrite <-texts_names. by apply present_names. }
    split; [|by constructor]. rewrite Hperm, H1. cbn. by rewrite Permutation_middle.
  - injection H1 as <-. destruct (IH hm H2 Hnd Hfr) as [Hperm Hall].
    split; [done|by constructor].
Qed.

(** The projection table. *)
Definition framework_table e : list (string * option (result string NatsMapError)) :=
  let md := Envelope.metadata e in
  let c := Metadata.correlation md in
  let d := Metadata.delivery md in
  let r := Metadata.routing md in
  let endpoint (a : option EndpointAddress.t) := (λ a, Ok (EndpointAddress.as_str a)) <$> a in
  let conversation := CorrelationMetadata.conversation_id c in
  let id := uuid_display (CoreTypes.MessageId.as_uuid (Envelope.id e)) in
  [(MESSAGE_ID, Some (Ok id));
   (MESSAGE_TYPE, Some (Ok (CoreTypes.MessageType.name (Envelope.message_type e))));
   (MESSAGE_VERSION,
      Some (Ok (display_uint (CoreTypes.MessageType.version (Envelope.message_type e)))));
   (CONTENT_TYPE, Some (Ok (CoreTypes.ContentType.as_str (DeliveryMetadata.content_type d))));
   (CORRELATION_ID, (λ c, Ok (CoreTypes.CorrelationId.as_str c))
                      <$> CorrelationMetadata.correlation_id c);
   (CONVERSATION_ID, if CoreTypes.ConversationId.is_unset conversation then None
                     else Some (Ok (uuid_display (CoreTypes.ConversationId.as_uuid conversation))));
   (CAUSATION_ID, (λ i, Ok (uuid_display (CoreTypes.MessageId.as_uuid i)))
                    <$> CorrelationMetadata.causation_id c);
   (REQUEST_ID, (λ i, Ok (uuid_display (CoreTypes.RequestId.as_uuid i)))
                  <$> CorrelationMetadata.request_id c);
   (TENANT_ID, Ok <$> Metadata.tenant_id md);
   (SENT_AT, (λ t, rfc3339_utc t SENT_AT) <$> DeliveryMetadata.sent_at d);
   (EXPIRES_AT, (λ t, rfc3339_utc t EXPIRES_AT) <$> DeliveryMetadata.expires_at d);
   (SOURCE, endpoint (RoutingMetadata.source r));
   (DESTINATION, endpoint (RoutingMetadata.destination r));
   (REPLY_TO, endpoint (RoutingMetadata.reply_to r));
   (TRACEPARENT, Ok <$> TraceContext.traceparent (Metadata.trace md));
   (TRACESTATE, Ok <$> TraceContext.tracestate (Metadata.trace md));
   (NATS_MSG_ID, Some (Ok (default id (DeliveryMetadata.deduplication_id d))))].

Lemma framework_table_names e : (framework_table e).*1 = framework_names.
Proof. reflexivity. Qed.

Lemma insert_framework_table hm hm' e :
  insert_framework_headers hm e = Ok hm' → put_all (framework_table e) hm = Ok hm'.
Proof.
  unfold insert_framework_headers, insert_routing_trace_and_dedup_headers, framework_table.
  cbn [put_all]. intros Hins.
  repeat (apply result_bind_Ok in Hins as (? & Hp & Hins);
          apply result_bind_Ok; eexists; split; [exact Hp|]; clear Hp).
  apply result_bind_Ok. eexists; split; [exact Hins|done].
Qed.

(** The custom headers as they go on the wire. *)
Definition trace_set (trace : TraceContext.t) (canonical : string) : bool :=
  if bool_decide (canonical = TRACEPARENT) then bool_decide (is_Some (TraceContext.traceparent trace))
  else bool_decide (is_Some (TraceContext.tracestate trace)).
Definition custom_wire (trace : TraceContext.t) (l : list (string * string))
  : list (string * string) :=
  omap (λ p, match trace_override_name p.1 with
             | Some c => if trace_set trace c then None else Some (c, p.2)
             | None => Some p
             end) l.

Lemma trace_override_cases k c :
  trace_override_name k = Some c → c = TRACEPARENT ∨ c = TRACESTATE.
Proof.
  unfold trace_override_name. destruct (eq_ignore_ascii_case k TRACEPARENT); [intros [= <-]; by left|].
  destruct (eq_ignore_ascii_case k TRACESTATE); [intros [= <-]; by right|done].
Qed.

(** The custom headers still to come do not collide with what is in the map. *)
Record fresh_for (hm : HeaderMap) (l : list (string * string)) (f1 f2 : bool) : Prop := {
  ff_names : NoDup (hm_iter hm).*1;
  ff_custom : ∀ n, n ∈ (hm_iter hm).*1 → trace_override_name n = None → n ∉ l.*1;
  ff_parent : f1 = false → TRACEPARENT ∉ (hm_iter hm).*1;
  ff_state : f2 = false → TRACESTATE ∉ (hm_iter hm).*1;
}.

Lemma fresh_skip hm p l f1 f2 : fresh_for hm (p :: l) f1 f2 → fresh_for hm l f1 f2.
Proof.
  intros [? Hc ? ?]. constructor; try done. intros n Hn Ho Hin. apply (Hc n Hn Ho). by right.
Qed.

Lemma fresh_trace hm hm1 k v c l f1 f2 :
  fresh_for hm ((k, v) :: l) f1 f2 → trace_override_name k = Some c →
  (if bool_decide (c = TRACEPARENT) then f1 else f2) = false →
  hm_iter hm1 ≡ₚ (c, [v]) :: hm_iter hm →
  c ∉ (hm_iter hm).*1
  ∧ fresh_for hm1 l (f1 || bool_decide (c = TRACEPARENT)) (f2 || negb (bool_decide (c = TRACEPARENT))).
Proof.
  intros Hff Ho Hflag Hhm1. destruct (fresh_skip _ _ _ _ _ Hff) as [Hn Hc Hp Hs].
  assert (Hc' : c ∉ (hm_iter hm).*1).
  { apply trace_override_cases in Ho as [->| ->]; [by apply Hp|by apply Hs]. }
  split; [done|]. constructor.
  - rewrite Hhm1. by constructor.
  - intros n. rewrite Hhm1. cbn. intros [->|Hin]%elem_of_cons; [|by apply Hc].
    apply trace_override_cases in Ho as [->| ->]; by intros [=].
  - rewrite Hhm1. cbn. intros [Hf1 Hne]%orb_false_iff. apply not_elem_of_cons.
    split; [|by apply Hp]. intros <-. by rewrite bool_decide_eq_true_2 in Hne.
  - rewrite Hhm1. cbn. intros [Hf2 Hne]%orb_false_iff. apply not_elem_of_cons.
    split; [|by apply Hs]. intros <-. by vm_compute in Hne.
Qed.

Lemma fresh_plain hm hm1 k v l f1 f2 :
  fresh_for hm ((k, v) :: l) f1 f2 → k ∉ l.*1 → trace_override_name k = None →
  hm_iter hm1 ≡ₚ (k, [v]) :: hm_iter hm →
  k ∉ (hm_iter hm).*1 ∧ fresh_for hm1 l f1 f2.
Proof.
  intros Hff Hkl Ho Hhm1.
  assert (Hk : k ∉ (hm_iter hm).*1) by (intros Hk; apply (ff_custom _ _ _ _ Hff k Hk Ho); by left).
  destruct (fresh_skip _ _ _ _ _ Hff) as [Hn Hc Hp Hs]. split; [done|]. constructor.
  - rewrite Hhm1. by constructor.
  - intros n. rewrite Hhm1. cbn. intros [->|Hin]%elem_of_cons; [done|by apply Hc].
  - rewrite Hhm1. cbn. intros Hf1. apply not_elem_of_cons. split; [|by apply Hp].
    intros <-. by vm_compute in Ho.
  - rewrite Hhm1. cbn. intros Hf2. apply not_elem_of_cons. split; [|by apply Hs].
    intros <-. by vm_compute in Ho.
Qed.

Lemma encode_custom_spec trace l f1 f2 hm hm' :
  encode_custom trace l f1 f2 hm = Ok hm' → NoDup l.*1 → fresh_for hm l f1 f2 →
  hm_iter hm' ≡ₚ wire (custom_wire trace l) ++ hm_iter hm
  ∧ NoDup (hm_iter hm').*1
  ∧ Forall (λ p, starts_with_ci p.1 NATS_PREFIX = false) l.
Proof.
  revert f1 f2 hm; induction l as [|[k v] l IH]; intros f1 f2 hm; cbn [encode_custom].
  { intros [= ->] _ [? _ _ _]. by split_and!. }
  intros Henc [Hk Hnd]%NoDup_cons Hff. destruct (starts_with_ci k NATS_PREFIX) eqn:Hnats; [done|].
  unfold custom_wire in *. cbn [omap list_omap fst snd].
  destruct (trace_override_name k) as [c|] eqn:Ho.
  - change (if bool_decide (c = TRACEPARENT) then bool_decide (is_Some (TraceContext.traceparent trace))
            else bool_decide (is_Some (TraceContext.tracestate trace)))
      with (trace_set trace c) in Henc.
    destruct (trace_set trace c) eqn:Hset.
    + destruct (IH _ _ _ Henc Hnd (fresh_skip _ _ _ _ _ Hff)) as (? & ? & ?).
      split_and!; [done|done|by constructor].
    + destruct (if bool_decide _ then f1 else f2) eqn:Hflag; [done|].
      apply result_bind_Ok in Henc as (hm1 & Hput & Henc).
      assert (Hc : c ∉ (hm_iter hm).*1).
      { destruct Hff as [_ _ Hp Hs]. apply trace_override_cases in Ho as [->| ->]; auto. }
      apply put_Ok in Hput; [|done].
      destruct (fresh_trace _ _ _ _ _ _ _ _ Hff Ho Hflag Hput) as [_ Hff1].
      destruct (IH _ _ _ Henc Hnd Hff1) as (Hperm & ? & ?).
      split_and!; [|done|by constructor].
      rewrite Hperm, Hput. cbn. by rewrite Permutation_middle.
  - destruct (header_name_from_str k) as [n|] eqn:Hn; [|done].
    apply header_name_text in Hn as ->.
    destruct (header_value_from_str v) as [v'|] eqn:Hv; [|done].
    apply header_value_text in Hv as ->.
    assert (Hkn : k ∉ (hm_iter hm).*1) by (intros Hin; apply (ff_custom _ _ _ _ Hff k Hin Ho); by left).
    pose proof (insert_fresh k v hm Hkn) as Hput.
    destruct (fresh_plain _ _ _ _ _ _ _ Hff Hk Ho Hput) as [_ Hff1].
    destruct (IH _ _ _ Henc Hnd Hff1) as (Hperm & ? & ?).
    split_and!; [|done|by constructor].
    rewrite Hperm, Hput. cbn. by rewrite Permutation_middle.
Qed.

(** ** The header map of an encoded envelope *)

Lemma present_NoDup es : NoDup es.*1 → NoDup (present es).*1.
Proof.
  induction es as [|[k [v|]] es IH]; cbn; intros Hnd; apply NoDup_cons in Hnd as [Hk Hnd] || done.
  - apply NoDup_cons. split; [|by apply IH]. intros Hin. apply Hk. by apply present_names.
  - by apply IH.
Qed.

Lemma present_elem es k o v :
  NoDup es.*1 → (k, o) ∈ es → (k, v) ∈ present es ↔ o = Some v.
Proof.
  intros Hnd Hko. unfold present. rewrite list_elem_of_omap. split.
  - intros ([k' o'] & Hin & Hp). apply fmap_Some in Hp as (v' & Ho & [= -> ->]). cbn in Ho.
    assert ((k', o) = (k', o')) as [= ->]; [|done].
    by apply (NoDup_fmap_eq fst es).
  - intros ->. by exists (k, Some v).
Qed.

Lemma custom_wire_cases trace l n v :
  (n, v) ∈ custom_wire trace l ↔
  ((n, v) ∈ l ∧ trace_override_name n = None)
  ∨ (trace_set trace n = false ∧ ∃ k, (k, v) ∈ l ∧ trace_override_name k = Some n).
Proof.
  unfold custom_wire. rewrite list_elem_of_omap. split.
  - intros ([k v'] & Hin & Hp). cbn in Hp. destruct (trace_override_name k) as [c|] eqn:Ho.
    + destruct (trace_set trace c) eqn:Hs; [done|]. injection Hp as -> ->. right. eauto.
    + injection Hp as -> ->. by left.
  - intros [[Hin Ho]|(Hs & k & Hin & Ho)].
    + exists (n, v). cbn. by rewrite Ho.
    + exists (k, v). cbn. by rewrite Ho, Hs.
Qed.

(** The custom headers of an envelope, in iteration order. *)
Definition custom_list e : list (string * string) :=
  match Envelope.headers e with Some c => map_to_list c | None => [] end.
Definition headers_wf e : Prop := Headers.wf (default ∅ (Envelope.headers e)).
Definition framework_wire e : list (string * string) := present (texts (framework_table e)).
Definition trace_wire e : list (string * string) :=
  custom_wire (Metadata.trace (Envelope.metadata e)) (custom_list e).

Lemma custom_list_elem e k v :
  (k, v) ∈ custom_list e ↔ default ∅ (Envelope.headers e) !! k = Some v.
Proof.
  unfold custom_list. destruct (Envelope.headers e) as [c|]; cbn.
  - apply elem_of_map_to_list.
  - rewrite lookup_empty, elem_of_nil. naive_solver.
Qed.

Lemma custom_list_NoDup e : NoDup (custom_list e).*1.
Proof. unfold custom_list. destruct (Envelope.headers e); [apply NoDup_fst_map_to_list|constructor]. Qed.

Lemma custom_list_key e k v :
  headers_wf e → Forall (λ p, starts_with_ci p.1 NATS_PREFIX = false) (custom_list e) →
  (k, v) ∈ custom_list e →
  Headers.entry_ok k v ∧ (trace_override_name k = None → custom_key k).
Proof.
  intros [Hwf _] Hn Hin. rewrite Forall_forall in Hn. specialize (Hn _ Hin).
  apply custom_list_elem, Hwf in Hin. split; [done|]. intros Ho. split_and!; [|done|done].
  by destruct Hin.
Qed.

(** The trace headers of the framework. *)
Definition trace_value (trace : TraceContext.t) (c : string) : option string :=
  if bool_decide (c = TRACEPARENT) then TraceContext.traceparent trace
  else TraceContext.tracestate trace.

Lemma trace_set_value trace c : trace_set trace c = bool_decide (is_Some (trace_value trace c)).
Proof. unfold trace_set, trace_value. by case_bool_decide. Qed.

Lemma trace_table e c :
  c = TRACEPARENT ∨ c = TRACESTATE →
  (c, trace_value (Metadata.trace (Envelope.metadata e)) c) ∈ texts (framework_table e).
Proof.
  intros Hc. unfold texts. apply list_elem_of_fmap.
  exists (c, Ok <$> trace_value (Metadata.trace (Envelope.metadata e)) c). split.
  - cbn. f_equal. by destruct (trace_value _ c).
  - unfold framework_table. destruct Hc as [->| ->].
    + do 14 right. left.
    + do 15 right. left.
Qed.

Lemma texts_table_NoDup e : NoDup (texts (framework_table e)).*1.
Proof. rewrite texts_names, framework_table_names. apply framework_names_NoDup. Qed.

Lemma framework_wire_names e n v : (n, v) ∈ framework_wire e → n ∈ framework_names.
Proof.
  intros Hin. rewrite <-(framework_table_names e), <-texts_names. apply present_names.
  by apply (list_elem_of_fmap_2 fst) in Hin.
Qed.

Lemma framework_wire_elem e h o v :
  (h, o) ∈ texts (framework_table e) → (h, v) ∈ framework_wire e ↔ o = Some v.
Proof. intros Hin. by apply present_elem; [apply texts_table_NoDup|]. Qed.

Lemma framework_wire_NoDup e : NoDup (framework_wire e).*1.
Proof. apply present_NoDup, texts_table_NoDup. Qed.

Lemma insert_framework_wire hm hm' e :
  insert_framework_headers hm e = Ok hm' →
  (∀ n, n ∈ (framework_wire e).*1 → n ∉ (hm_iter hm).*1) →
  hm_iter hm' ≡ₚ wire (framework_wire e) ++ hm_iter hm
  ∧ Forall (λ p, ∀ err, p.2 ≠ Some (Err err)) (framework_table e).
Proof.
  intros Hins Hfr. apply put_all_spec; [by apply insert_framework_table| |exact Hfr].
  rewrite framework_table_names. apply framework_names_NoDup.
Qed.

Local Opaque framework_names framework_table framework_wire.

(** A framework header and a custom one never share a name. *)
Lemma wires_disjoint e n v v' :
  headers_wf e → Forall (λ p, starts_with_ci p.1 NATS_PREFIX = false) (custom_list e) →
  (n, v) ∈ framework_wire e → (n, v') ∈ trace_wire e → False.
Proof.
  intros Hwf Hnats Hf [[Hin Ho]|(Hset & k & _ & Ho)]%custom_wire_cases.
  - destruct (custom_list_key e n v' Hwf Hnats Hin) as [_ Hk].
    by apply (custom_not_framework n); [apply Hk|eapply framework_wire_names].
  - apply trace_override_cases in Ho. 
    apply (framework_wire_elem e n _ v (trace_table e n Ho)) in Hf.
    rewrite trace_set_value, Hf in Hset. by rewrite bool_decide_eq_true_2 in Hset by by eexists.
Qed.

Lemma fresh_new l : fresh_for hm_new l false false.
Proof.
  constructor; rewrite hm_iter_new; cbn; [constructor|by intros n ?%elem_of_nil|..];
    intros _; apply not_elem_of_nil.
Qed.

Lemma encode_wire e m :
  headers_wf e → encode e = Ok m →
  payload m = Envelope.body e
  ∧ (∃ l, hm_iter (headers m) = wire l ∧ l ≡ₚ framework_wire e ++ trace_wire e ∧ NoDup l.*1)
  ∧ Forall (λ p, starts_with_ci p.1 NATS_PREFIX = false) (custom_list e)
  ∧ Forall (λ p, ∀ err, p.2 ≠ Some (Err err)) (framework_table e).
Proof.
  intros Hwf. unfold encode. intros (hm1 & H1 & (hm2 & H2 & [= <-])%result_bind_Ok)%result_bind_Ok.
  assert (Hc : encode_custom (Metadata.trace (Envelope.metadata e)) (custom_list e) false false hm_new
               = Ok hm1) by (unfold custom_list; by destruct (Envelope.headers e)).
  clear H1. apply encode_custom_spec in Hc as (Hperm & Hnd & Hnats);
    [|apply custom_list_NoDup|apply fresh_new].
  rewrite hm_iter_new, app_nil_r in Hperm. change (custom_wire _ _) with (trace_wire e) in Hperm.
  rewrite Hperm, wire_names in Hnd.
  assert (Hdisj : ∀ n, n ∈ (framework_wire e).*1 → n ∉ (trace_wire e).*1).
  { intros n ([n1 v1] & -> & Hf)%list_elem_of_fmap ([n2 v2] & Heq & Ht)%list_elem_of_fmap.
    cbn in Heq. subst n2. by eapply wires_disjoint. }
  apply insert_framework_wire in H2 as [Hperm2 Hall];
    [|intros n Hn; rewrite Hperm, wire_names; by apply Hdisj].
  apply (Permutation_app_head (wire (framework_wire e))) in Hperm.
  pose proof (Permutation_trans Hperm2 Hperm) as Hperm3.
  unfold wire in Hperm3. rewrite <-fmap_app in Hperm3.
  apply Permutation_map_inv in Hperm3 as (l & Hl & Hp). cbn [headers payload].
  split_and!; try done. exists l. split_and!; [done|by symmetry|].
  rewrite <-Hp, fmap_app. apply NoDup_app. split_and!.
  - apply framework_wire_NoDup.
  - done.
  - done.
Qed.

(** ** What is scanned back *)

(** The custom header that stands in for a trace header the framework does not set. *)
Definition custom_trace (c : string) e : option string :=
  snd <$> head (filter (λ p, trace_override_name p.1 = Some c) (custom_list e)).

Lemma custom_trace_spec e c v :
  NoDup (trace_wire e).*1 → trace_set (Metadata.trace (Envelope.metadata e)) c = false →
  trace_override_name c = Some c →
  (c, v) ∈ trace_wire e ↔ custom_trace c e = Some v.
Proof.
  intros Hnd Hset Hc.
  assert (Hcw : ∀ v, (c, v) ∈ trace_wire e ↔
    ∃ k, (k, v) ∈ filter (λ p, trace_override_name p.1 = Some c) (custom_list e)).
  { intros v'. unfold trace_wire. rewrite custom_wire_cases. split.
    - intros [[_ Ho]|(_ & k & Hin & Ho)]; [congruence|]. exists k. by apply list_elem_of_filter.
    - intros (k & [Ho Hin]%list_elem_of_filter). right. eauto. }
  unfold custom_trace. rewrite Hcw.
  destruct (filter _ (custom_list e)) as [|[k v'] l] eqn:Hl; cbn.
  - split; [|done]. by intros (k & ?%elem_of_nil).
  - assert (Hv' : (c, v') ∈ trace_wire e) by (apply Hcw; exists k; left). split.
    + intros Hex. apply Hcw in Hex.
      by assert ((c, v) = (c, v')) as [= ->] by (by apply (NoDup_fmap_eq fst (trace_wire e))).
    + intros [= ->]. exists k. left.
Qed.

(** The value of each framework header after a scan. *)
Lemma scanned_lookup e l h v :
  headers_wf e → Forall (λ p, starts_with_ci p.1 NATS_PREFIX = false) (custom_list e) →
  l ≡ₚ framework_wire e ++ trace_wire e → NoDup l.*1 → h ∈ framework_names →
  (list_to_map (framework_of l) : gmap string string) !! h = Some v
  ↔ (h, v) ∈ framework_wire e ∨ (h, v) ∈ trace_wire e.
Proof.
  intros Hwf Hn Hp Hnd Hh.
  assert (Hnd' : NoDup (framework_of l).*1).
  { eapply sublist_NoDup; [exact Hnd|]. by apply sublist_fmap, sublist_filter. }
  rewrite <-elem_of_list_to_map by done. unfold framework_of.
  rewrite list_elem_of_filter, Hp, elem_of_app. unfold is_framework. cbn. tauto.
Qed.

Lemma trace_wire_framework e h v :
  headers_wf e → Forall (λ p, starts_with_ci p.1 NATS_PREFIX = false) (custom_list e) →
  h ∈ framework_names → (h, v) ∈ trace_wire e → is_trace h.
Proof.
  intros Hwf Hn Hh [[Hin Ho]|(_ & k & _ & Ho)]%custom_wire_cases.
  - apply (custom_list_key e h v Hwf Hn) in Hin as [_ Hk].
    by destruct (custom_not_framework h (Hk Ho)).
  - by apply trace_override_cases in Ho.
Qed.

Lemma wire_entry_ok e l :
  headers_wf e → Forall (λ p, starts_with_ci p.1 NATS_PREFIX = false) (custom_list e) →
  l ≡ₚ framework_wire e ++ trace_wire e →
  Forall (λ p, is_framework p ∨ custom_key p.1 ∧ Headers.entry_ok p.1 p.2) l.
Proof.
  intros Hwf Hn Hp. rewrite Hp. apply Forall_app. split; apply Forall_forall; intros [h v] Hin.
  - left. by eapply framework_wire_names.
  - apply custom_wire_cases in Hin as [[Hin Ho]|(_ & k & _ & Ho)].
    + right. destruct (custom_list_key e h v Hwf Hn Hin) as [? Hk]. auto.
    + left. exact (is_trace_framework h (trace_override_cases k h Ho)).
Qed.

(** The custom headers [decode] gives back: those that do not name a trace header. *)
Definition plain_headers e : Headers.t :=
  filter (λ p, trace_override_name p.1 = None) (default ∅ (Envelope.headers e)).
Definition normal_headers e : option Headers.t :=
  if bool_decide (plain_headers e = ∅) then None else Some (plain_headers e).

Lemma custom_of_elem e l k v :
  headers_wf e → Forall (λ p, starts_with_ci p.1 NATS_PREFIX = false) (custom_list e) →
  l ≡ₚ framework_wire e ++ trace_wire e →
  (k, v) ∈ custom_of l ↔ plain_headers e !! k = Some v.
Proof.
  intros Hwf Hn Hp. unfold custom_of, plain_headers.
  rewrite list_elem_of_filter, Hp, elem_of_app, map_lookup_filter_Some, <-custom_list_elem. cbn.
  split.
  - intros [Hnf [Hin|Hin]]; [destruct Hnf; exact (framework_wire_names e k v Hin)|].
    apply custom_wire_cases in Hin as [?|(_ & k' & _ & Ho)]; [done|].
    destruct Hnf. exact (is_trace_framework k (trace_override_cases k' k Ho)).
  - intros [Hin Ho]. split.
    + apply custom_not_framework. by apply (custom_list_key e k v).
    + right. apply custom_wire_cases. by left.
Qed.

Lemma custom_of_map e l :
  headers_wf e → Forall (λ p, starts_with_ci p.1 NATS_PREFIX = false) (custom_list e) →
  l ≡ₚ framework_wire e ++ trace_wire e → NoDup l.*1 →
  (list_to_map (custom_of l) : Headers.t) = plain_headers e
  ∧ (length (custom_of l) ≤ Headers.MAX_COUNT)%nat.
Proof.
  intros Hwf Hn Hp Hnd.
  assert (Hnd' : NoDup (custom_of l).*1).
  { eapply sublist_NoDup; [exact Hnd|]. by apply sublist_fmap, sublist_filter. }
  assert (Heq : (list_to_map (custom_of l) : Headers.t) = plain_headers e).
  { apply map_eq. intros k. apply option_eq. intros v.
    rewrite <-elem_of_list_to_map by done. by apply custom_of_elem. }
  split; [done|]. rewrite <-(map_size_list_to_map (M:=gmap string)), Heq by done.
  etransitivity; [apply map_subseteq_size, map_filter_subseteq|]. apply Hwf.
Qed.

(** What [scan] reads from an encoded envelope. *)
Lemma scan_encoded e m :
  headers_wf e → encode e = Ok m →
  payload m = Envelope.body e
  ∧ Forall (λ p, ∀ err, p.2 ≠ Some (Err err)) (framework_table e)
  ∧ ∃ s, scan (headers m) = Ok s ∧ custom s = normal_headers e
    ∧ (∀ h o, (h, o) ∈ texts (framework_table e) → ¬ is_trace h → fields s !! h = o)
    ∧ (∀ h, is_trace h → fields s !! h
         = match trace_value (Metadata.trace (Envelope.metadata e)) h with
           | Some v => Some v | None => custom_trace h e end).
Proof.
  intros Hwf Henc. destruct (encode_wire e m Hwf Henc) as (Hpay & (l & Hl & Hp & Hnd) & Hn & Hall).
  split_and!; [done|done|]. destruct (custom_of_map e l Hwf Hn Hp Hnd) as [Hcm Hcl].
  eexists. split_and!.
  - unfold scan. rewrite Hl. apply scan_entries_spec; [done|done|by eapply wire_entry_ok|done|].
    cbn. by rewrite map_size_empty.
  - cbn. unfold normal_headers, extend_custom. rewrite <-Hcm.
    destruct (custom_of l) as [|[k v] l'] eqn:Hc; [by rewrite bool_decide_eq_true_2|].
    rewrite bool_decide_eq_false_2 by (cbn; apply insert_non_empty). cbn.
    by rewrite (right_id_L ∅ (∪)).
  - intros h o Hin Ht. cbn [fields]. rewrite (right_id_L ∅ (∪)). apply option_eq. intros v.
    assert (Hh : h ∈ framework_names).
    { rewrite <-(framework_table_names e), <-texts_names.
      by apply (list_elem_of_fmap_2 fst) in Hin. }
    rewrite (scanned_lookup e) by done.
    rewrite <-(framework_wire_elem e h o v Hin).
    split; [|by left]. intros [?|Htw]; [done|]. by destruct Ht; eapply trace_wire_framework.
  - intros h Ht. cbn [fields]. rewrite (right_id_L ∅ (∪)). apply option_eq. intros v.
    assert (Hh : h ∈ framework_names) by (by apply is_trace_framework).
    assert (Ho : trace_override_name h = Some h) by (by destruct Ht as [->| ->]).
    rewrite (scanned_lookup e) by done.
    rewrite (framework_wire_elem e h _ v (trace_table e h Ht)).
    pose proof (trace_set_value (Metadata.trace (Envelope.metadata e)) h) as Hset.
    destruct (trace_value _ h) as [v'|] eqn:Htv.
    + split; [|by left]. intros [?|Htw]; [done|]. exfalso.
      apply (wires_disjoint e h v' v Hwf Hn); [|done].
      apply (framework_wire_elem e h _ v' (trace_table e h Ht)). by rewrite Htv.
    + rewrite bool_decide_eq_false_2 in Hset by (by intros [? [=]]).
      assert (Hndt : NoDup (trace_wire e).*1).
      { rewrite Hp, fmap_app in Hnd. by apply NoDup_app in Hnd as (_ & _ & ?). }
      rewrite (custom_trace_spec e h v Hndt Hset Ho).
      split; [by intros [[=]|?]|by right].
Qed.
Local Transparent framework_names framework_table framework_wire.

(** ** The envelope read back *)

(** A well-formed envelope of a named type. *)
Record valid_envelope e : Prop := {
  ve_wf : wf_envelope e;
  ve_name : CoreTypes.MessageType.name (Envelope.message_type e) ≠ "";
}.

Definition trace_in (c : string) e : option string :=
  match trace_value (Metadata.trace (Envelope.metadata e)) c with
  | Some v => Some v
  | None => custom_trace c e
  end.

(** The envelope up to the three documented normalisations. *)
Definition normalise e : SerializedEnvelope :=
  let md := Envelope.metadata e in
  let d := Metadata.delivery md in
  let own := uuid_display (CoreTypes.MessageId.as_uuid (Envelope.id e)) in
  let md' := Metadata.set_trace (TraceContext.mk (trace_in TRACEPARENT e) (trace_in TRACESTATE e)) md in
  let dedup := v ← DeliveryMetadata.deduplication_id d;
               if bool_decide (v ≠ own) then Some v else None in
  Envelope.mk (Envelope.id e) (Envelope.message_type e) (Envelope.body e)
    (Metadata.set_delivery
       (DeliveryMetadata.mk (DeliveryMetadata.content_type d) (DeliveryMetadata.sent_at d)
          (DeliveryMetadata.expires_at d) dedup) md')
    (normal_headers e).

(** The scan holds the table: each header of it that is not trace context. *)
Definition reads (s : ScannedHeaders) e : Prop :=
  ∀ h o, (h, o) ∈ framework_table e → ¬ is_trace h →
    fields s !! h = (r ← o; to_option r) ∧ ∀ err, o ≠ Some (Err err).

Lemma reads_intro s e :
  Forall (λ p, ∀ err, p.2 ≠ Some (Err err)) (framework_table e) →
  (∀ h o, (h, o) ∈ texts (framework_table e) → ¬ is_trace h → fields s !! h = o) → reads s e.
Proof.
  intros Hall Hf h o Hin Ht. rewrite Forall_forall in Hall. split; [|exact (Hall _ Hin)].
  apply Hf; [|done]. apply list_elem_of_fmap. by exists (h, o).
Qed.

Lemma reads_at s e i h o :
  reads s e → framework_table e !! i = Some (h, o) → ¬ is_trace h →
  fields s !! h = (r ← o; to_option r) ∧ ∀ err, o ≠ Some (Err err).
Proof. intros Hr Hi. apply Hr. by eapply list_elem_of_lookup_2. Qed.

(** Reading an optional header back. *)
Lemma parsed_back {A} s e i h (o : option A) (show : A → result string NatsMapError)
    (f : string → option A) :
  reads s e → framework_table e !! i = Some (h, show <$> o) → ¬ is_trace h →
  (∀ a t, o = Some a → show a = Ok t → f t = Some a) → parsed s h f = Ok o.
Proof.
  intros Hr Hi Ht Hf. destruct (reads_at s e i h _ Hr Hi Ht) as [Hl He]. unfold parsed.
  rewrite Hl. destruct o as [a|]; [|done]. cbn in *.
  destruct (show a) as [t|err] eqn:Hs; [|by destruct (He err)]. cbn. by rewrite (Hf a t).
Qed.

Lemma rfc3339_back t h s : rfc3339_utc t h = Ok s → rfc3339_parse s = Some t.
Proof.
  unfold rfc3339_utc. destruct (rfc3339_format t) as [s'|] eqn:Hs; [|done]. intros [= <-].
  by apply rfc3339_parse_format.
Qed.

Ltac not_trace := by intros [?|?].

Lemma parse_identity_back s e :
  reads s e → valid_envelope e →
  parse_identity s
  = Ok (Envelope.id e, uuid_display (CoreTypes.MessageId.as_uuid (Envelope.id e)),
        Envelope.message_type e,
        DeliveryMetadata.content_type (Metadata.delivery (Envelope.metadata e))).
Proof.
  intros Hr [[_ Hv Hct _ _] Hname]. unfold parse_identity, required.
  destruct (reads_at s e 0 MESSAGE_ID _ Hr eq_refl) as [-> _]; [not_trace|].
  destruct (reads_at s e 1 MESSAGE_TYPE _ Hr eq_refl) as [-> _]; [not_trace|].
  destruct (reads_at s e 2 MESSAGE_VERSION _ Hr eq_refl) as [-> _]; [not_trace|].
  destruct (reads_at s e 3 CONTENT_TYPE _ Hr eq_refl) as [-> _]; [not_trace|].
  cbn [mbind option_bind to_option ok_or result_bind]. rewrite uuid_parse_display.
  cbn [fmap option_fmap option_map ok_or result_bind]. rewrite parse_display_uint by done.
  cbn [ok_or result_bind].
  destruct (is_empty _) eqn:Hemp; [by destruct (CoreTypes.MessageType.name _)|].
  rewrite Hct. cbn. by destruct (Envelope.id e), (Envelope.message_type e).
Qed.

(** A conversation that is not written is the unset one. *)
Lemma conversation_back (c : CoreTypes.ConversationId.t) :
  match (r ← (if CoreTypes.ConversationId.is_unset c then None
              else Some (Ok (uuid_display (CoreTypes.ConversationId.as_uuid c))));
         to_option (E:=NatsMapError) r) with
  | Some raw => ok_or (CoreTypes.ConversationId.from_uuid <$> uuid_parse raw)
                  (MalformedHeader CONVERSATION_ID)
  | None => Ok CoreTypes.ConversationId.UNSET
  end = Ok c.
Proof.
  destruct (CoreTypes.ConversationId.is_unset c) eqn:Hu; cbn.
  - by apply CoreTypes.ConversationId.is_unset_spec in Hu as ->.
  - rewrite uuid_parse_display. by destruct c.
Qed.

Ltac read_back Hr i h := rewrite (parsed_back _ _ i h _ _ _ Hr eq_refl); [|not_trace|].

Lemma parse_metadata_back s e :
  reads s e → valid_envelope e →
  (∀ h, is_trace h → fields s !! h = trace_in h e) →
  ∃ c, parse_metadata s (uuid_display (CoreTypes.MessageId.as_uuid (Envelope.id e)))
       = Ok (Metadata.set_delivery
               (DeliveryMetadata.mk c
                  (DeliveryMetadata.sent_at (Metadata.delivery (Envelope.metadata (normalise e))))
                  (DeliveryMetadata.expires_at (Metadata.delivery (Envelope.metadata (normalise e))))
                  (DeliveryMetadata.deduplication_id
                     (Metadata.delivery (Envelope.metadata (normalise e)))))
               (Envelope.metadata (normalise e)), custom s).
Proof.
  intros Hr [[_ _ _ Hcor Hend] _] Htr. unfold parse_metadata.
  read_back Hr 4%nat CORRELATION_ID; [|intros a t Ha [= <-]; by rewrite Hcor].
  destruct (reads_at s e 5 CONVERSATION_ID _ Hr eq_refl) as [-> _]; [not_trace|].
  read_back Hr 6%nat CAUSATION_ID; [|intros [a] t Ha [= <-]; by rewrite uuid_parse_display].
  read_back Hr 7%nat REQUEST_ID; [|intros [a] t Ha [= <-]; by rewrite uuid_parse_display].
  read_back Hr 9%nat SENT_AT; [|intros a t Ha Ht; by eapply rfc3339_back].
  read_back Hr 10%nat EXPIRES_AT; [|intros a t Ha Ht; by eapply rfc3339_back].
  read_back Hr 11%nat SOURCE; [|intros a t Ha [= <-]; by rewrite Hend by auto].
  read_back Hr 12%nat DESTINATION; [|intros a t Ha [= <-]; by rewrite Hend by auto].
  read_back Hr 13%nat REPLY_TO; [|intros a t Ha [= <-]; by rewrite Hend by auto].
  destruct (reads_at s e 8 TENANT_ID _ Hr eq_refl) as [-> _]; [not_trace|].
  destruct (reads_at s e 16 NATS_MSG_ID _ Hr eq_refl) as [-> _]; [not_trace|].
  rewrite (Htr TRACEPARENT), (Htr TRACESTATE) by (by left + right).
  exists (DeliveryMetadata.content_type DeliveryMetadata.default).
  rewrite conversation_back. cbn [result_bind]. f_equal. f_equal. unfold normalise.
  destruct (Envelope.metadata e) as [[? ? ? ?] tr [? ? ?] [ct sent exp dedup] ten]. cbn.
  unfold Metadata.set_delivery, Metadata.set_trace. cbn. f_equal; [|by destruct ten].
  f_equal. destruct dedup as [v|]; cbn; [done|]. by rewrite bool_decide_eq_false_2 by auto.
Qed.

Lemma decode_encoded e m :
  valid_envelope e → encode e = Ok m → decode m = Ok (normalise e).
Proof.
  intros Hv Henc.
  destruct (scan_encoded e m (wfe_headers e (ve_wf e Hv)) Henc) as (Hpay & Hall & s & Hs & Hcust & Hf & Ht).
  pose proof (reads_intro s e Hall Hf) as Hr. unfold decode. rewrite Hs. cbn [result_bind].
  unfold into_envelope. rewrite (parse_identity_back s e Hr Hv). cbn [result_bind].
  destruct (parse_metadata_back s e Hr Hv Ht) as [c ->]. cbn [result_bind].
  rewrite Hcust, Hpay. reflexivity.
Qed.

(** ** When [encode] succeeds *)

(** The library takes the text as a header value, or as a header name. *)
Definition value_ok (v : string) : Prop := is_Some (header_value_from_str v).
Definition name_ok (k : string) : Prop := is_Some (header_name_from_str k).

(** A custom header that does not make [encode] fail. *)
Definition custom_ok (trace : TraceContext.t) (p : string * string) : Prop :=
  starts_with_ci p.1 NATS_PREFIX = false
  ∧ match trace_override_name p.1 with
    | Some c => trace_set trace c = true ∨ value_ok p.2
    | None => name_ok p.1 ∧ value_ok p.2
    end.

(** The custom headers that stand in for the unset trace header [c]. *)
Definition stand_ins (trace : TraceContext.t) (c : string) (l : list (string * string)) : nat :=
  length (filter (λ p, trace_override_name p.1 = Some c ∧ trace_set trace c = false) l).

(** Every header the framework writes is a text the library takes. *)
Definition table_ok (es : list (string * option (result string NatsMapError))) : Prop :=
  Forall (λ p, match p.2 with None => True | Some (Ok v) => value_ok v | Some (Err _) => False end) es.

Record encodable e : Prop := {
  en_custom : Forall (custom_ok (Metadata.trace (Envelope.metadata e))) (custom_list e);
  en_single c : is_trace c →
    (stand_ins (Metadata.trace (Envelope.metadata e)) c (custom_list e) ≤ 1)%nat;
  en_table : table_ok (framework_table e);
}.

Lemma put_total h v hm : is_Ok (put h v hm) ↔ value_ok v.
Proof.
  unfold put, header_value, value_ok. destruct (header_value_from_str v); cbn.
  - split; intros _; by eexists.
  - split; [by intros [? [=]]|by intros [? [=]]].
Qed.

Lemma put_all_total es hm : is_Ok (put_all es hm) ↔ table_ok es.
Proof.
  revert hm; induction es as [|[h o] es IH]; intros hm; cbn [put_all].
  { split; intros _; [constructor|by eexists]. }
  unfold table_ok in *. rewrite Forall_cons. cbn. destruct o as [[v|err]|]; cbn [put_opt result_bind].
  - rewrite <-(put_total h v hm). destruct (put h v hm) as [hm1|err]; cbn.
    + rewrite IH. split; [by split; [eexists|]|by intros [_ ?]].
    + split; [by intros [? [=]]|by intros [[? [=]] _]].
  - split; [by intros [? [=]]|by intros [[] _]].
  - rewrite IH. tauto.
Qed.

Lemma insert_framework_total hm e : is_Ok (insert_framework_headers hm e) ↔ table_ok (framework_table e).
Proof.
  rewrite <-(put_all_total _ hm). split; intros [hm' Hhm'].
  - exists hm'. by apply insert_framework_table.
  - exists hm'. revert Hhm'. unfold framework_table. cbn [put_all].
    unfold insert_framework_headers, insert_routing_trace_and_dedup_headers. intros Hins.
    repeat (apply result_bind_Ok in Hins as (? & Hp & Hins);
            first [apply result_bind_Ok; eexists; split; [exact Hp|]; clear Hp
                  |by injection Hins as <-]).
Qed.

Lemma stand_ins_cons trace c p l :
  stand_ins trace c (p :: l)
  = ((if bool_decide (trace_override_name p.1 = Some c ∧ trace_set trace c = false) then 1 else 0)
     + stand_ins trace c l)%nat.
Proof.
  unfold stand_ins. case_bool_decide as Hp.
  - by rewrite filter_cons_True.
  - by rewrite filter_cons_False.
Qed.

Definition flag (b : bool) : nat := if b then 1 else 0.

Lemma encode_custom_total trace l f1 f2 hm :
  is_Ok (encode_custom trace l f1 f2 hm) ↔
  Forall (custom_ok trace) l
  ∧ (stand_ins trace TRACEPARENT l + flag f1 ≤ 1)%nat
  ∧ (stand_ins trace TRACESTATE l + flag f2 ≤ 1)%nat.
Proof.
  revert f1 f2 hm; induction l as [|[k v] l IH]; intros f1 f2 hm; cbn [encode_custom].
  { cbn. split; [|by eexists]. intros _. split; [constructor|]. by destruct f1, f2; cbn; lia. }
  rewrite Forall_cons, !stand_ins_cons. unfold custom_ok at 1. cbn [fst snd].
  destruct (starts_with_ci k NATS_PREFIX) eqn:Hn.
  { split; [by intros ?%not_is_Ok_Err|by intros [[[[=] _] _] _]]. }
  destruct (trace_override_name k) as [c|] eqn:Ho.
  - change (if bool_decide (c = TRACEPARENT) then bool_decide (is_Some (TraceContext.traceparent trace))
            else bool_decide (is_Some (TraceContext.tracestate trace))) with (trace_set trace c).
    destruct (trace_set trace c) eqn:Hset.
    + rewrite IH, !bool_decide_eq_false_2 by (intros [[= <-] ?]; congruence). cbn. tauto.
    + apply trace_override_cases in Ho as Hc.
      assert (Hone : ∀ c', bool_decide (Some c = Some c' ∧ trace_set trace c' = false)
                           = bool_decide (c = c')).
      { intros c'. apply bool_decide_ext. split; [by intros [[= ->] _]|by intros <-]. }
      rewrite !Hone.
      assert (Hput : ∀ g1 g2, is_Ok (let? hm := put c v hm in encode_custom trace l g1 g2 hm) ↔
        value_ok v ∧ Forall (custom_ok trace) l
        ∧ (stand_ins trace TRACEPARENT l + flag g1 ≤ 1)%nat
        ∧ (stand_ins trace TRACESTATE l + flag g2 ≤ 1)%nat).
      { intros g1 g2. rewrite is_Ok_bind, <-(put_total c v hm). split.
        - intros (hm1 & Hp & Hrec%IH). split; [by exists hm1|done].
        - intros [[hm1 Hp] Hrec]. exists hm1. split; [done|by apply IH]. }
      destruct Hc as [->| ->].
      * rewrite bool_decide_eq_true_2, (bool_decide_eq_false_2 (TRACEPARENT = TRACESTATE)) by done.
        destruct f1; [split; [by intros ?%not_is_Ok_Err|cbn; lia]|].
        rewrite Hput. destruct f2; cbn; intuition (lia || discriminate).
      * rewrite bool_decide_eq_false_2, bool_decide_eq_true_2 by done.
        destruct f2; [split; [by intros ?%not_is_Ok_Err|cbn; lia]|].
        rewrite Hput. destruct f1; cbn; intuition (lia || discriminate).
  - rewrite !bool_decide_eq_false_2 by (by intros [[=] _]). unfold name_ok, value_ok. cbn [Nat.add].
    destruct (header_name_from_str k) as [n|]; [destruct (header_value_from_str v) as [v'|]|].
    + rewrite IH. split; [intros (? & ? & ?)|tauto]. split_and!; try done; by eexists.
    + split; [by intros ?%not_is_Ok_Err|by intros [[(_ & _ & [? [=]]) _] _]].
    + split; [by intros ?%not_is_Ok_Err|by intros [[(_ & [? [=]] & _) _] _]].
Qed.

Lemma encode_total e : is_Ok (encode e) ↔ encodable e.
Proof.
  set (trace := Metadata.trace (Envelope.metadata e)).
  assert (Hc : is_Ok (encode e) ↔
    ∃ hm, encode_custom trace (custom_list e) false false hm_new = Ok hm
          ∧ is_Ok (insert_framework_headers hm e)).
  { unfold encode, custom_list. destruct (Envelope.headers e); cbn; rewrite ?is_Ok_bind.
    - split; intros (hm & Hhm & Hi); exists hm; (split; [done|]); rewrite is_Ok_bind in *;
        [destruct Hi as (hm' & ? & _)|destruct Hi as [hm' ?]; exists hm'; split; [done|]]; by eexists.
    - split; [intros (hm & Hi & _)|intros (hm & [= <-] & [hm' Hi])]; [|exists hm'; split; [done|]];
        by repeat eexists. }
  rewrite Hc. setoid_rewrite insert_framework_total.
  pose proof (encode_custom_total trace (custom_list e) false false hm_new) as Ht.
  cbn [flag] in Ht. rewrite !Nat.add_0_r in Ht. split.
  - intros (hm & Hhm & Htab). destruct Ht as [(Hall & H1 & H2) _]; [by exists hm|].
    split; [done| |done]. by intros c [->| ->].
  - intros [Hall Hone Htab]. destruct Ht as [_ [hm Hhm]]; [|by exists hm].
    split; [done|]. split; apply Hone; [by left|by right].
Qed.

End roundtrip.
(** ** A concrete NATS *)

(** Identifiers and timestamps are binary numerals; the header map is an association list. *)
Definition text_nats : NatsLib := {|
  HeaderMap := list (string * list string);
  hm_new := [];
  hm_insert := λ n v m, (n, [v]) :: filter (λ p, p.1 ≠ n) m;
  hm_iter := λ m, m;
  header_name_from_str := λ k, if is_empty k then None else Some k;
  header_value_from_str := Some;
  uuid_display := z_text;
  uuid_parse := z_read;
  rfc3339_format := λ t, Some (z_text t);
  rfc3339_parse := z_read;
|}.

Lemma text_nats_laws : NatsLibLaws (H := text_nats).
Proof.
  split; cbn; try done.
  - intros k n. by destruct (is_empty k) ; [|intros [= ->]].
  - by intros v s [= ->].
  - apply z_read_text.
  - intros t s [= <-]. apply z_read_text.
Qed.

(** An envelope with its own id as deduplication id and a custom trace header. *)
Definition traced_order : SerializedEnvelope :=
  Envelope.mk (CoreTypes.MessageId.from_uuid 77) (CoreTypes.MessageType.from_parts "orders.placed" 3)
    [Byte.x01; Byte.x02]
    (Metadata.mk
       (CorrelationMetadata.mk (Some (CoreTypes.CorrelationId.mk "c-1"))
          (CoreTypes.ConversationId.from_uuid 5) None (Some (CoreTypes.RequestId.from_uuid 9)))
       TraceContext.default
       (RoutingMetadata.mk (Some (EndpointAddress.mk "shop")) None None)
       (DeliveryMetadata.mk CoreTypes.ContentType.JSON (Some 1000) None (Some (z_text 77)))
       (Some "tenant"))
    (Some {["TraceParent" := "00-a-b-01"; "x-shop" := "1"]}).

Lemma traced_order_valid : valid_envelope traced_order.
Proof.
  split; [|discriminate].
  split; [refine (bool_decide_unpack _ _); vm_compute; exact I
    |split; vm_compute; discriminate|vm_compute; reflexivity| |].
  - intros c [= <-]. reflexivity.
  - intros a [[= <-]|[[=]|[=]]]. reflexivity.
Qed.

