(* ===== verification/NatsSettings.v ===== *)
(** * NATS publisher settings ([reliar-transport-nats], settings.rs and [NatsConfigError])

    The settings, their environment loader and the checks a publisher makes of them.  A
    [usize] is 64 bits wide. *)

From S2P Require Import Prelude RustString CoreTypes CoreHeaders CoreEnvelope NatsSubject OutboxSettings.

Module NatsSettings.
  (* src: nats/settings.rs 21-83 NatsSettings *)
Record t := mk {
  subject_prefix : string;
  publish_timeout : Duration;
  batch_pipeline_depth : Z;
  max_payload : option Z;
}.
  (* src: nats/settings.rs 85-94 NatsSettings::default *)
Definition default : t := mk PrefixSubjects.DEFAULT_PREFIX (from_secs 10) 64 None.
  (* src: nats/settings.rs 97-102 NatsSettings::subject_prefix *)
Definition with_subject_prefix (prefix : string) (s : t) : t :=
  mk prefix (publish_timeout s) (batch_pipeline_depth s) (max_payload s).
  (* src: nats/settings.rs 104-109 NatsSettings::publish_timeout *)
Definition with_publish_timeout (d : Duration) (s : t) : t :=
  mk (subject_prefix s) d (batch_pipeline_depth s) (max_payload s).
  (* src: nats/settings.rs 111-116 NatsSettings::batch_pipeline_depth *)
Definition with_batch_pipeline_depth (n : Z) (s : t) : t :=
  mk (subject_prefix s) (publish_timeout s) n (max_payload s).
  (* src: nats/settings.rs 118-123 NatsSettings::max_payload *)
Definition with_max_payload (n : option Z) (s : t) : t :=
  mk (subject_prefix s) (publish_timeout s) (batch_pipeline_depth s) n.
Global Instance eq_dec : EqDecision t.
Proof. solve_decision. Defined.
End NatsSettings.

(** ** The environment loader *)

Section from_env.
Context (env : Env) (prefix : string).

(* src: nats/settings.rs 183-190 env_raw *)
Definition nats_env_raw (suffix : string) : result (option string) SettingsError.t :=
  let key := prefix +:+ suffix in
  match env key with
  | Present value => Ok (Some value)
  | NotPresent => Ok None
  | NotUnicode => Err (SettingsError.parse key "a UTF-8 string")
  end.

(* src: nats/settings.rs 192-200 env_usize *)
Definition nats_env_usize (suffix : string) : result (option Z) SettingsError.t :=
  let? raw := nats_env_raw suffix in
  match raw with
  | None => Ok None
  | Some raw => match parse_uint U64_MAX (trim raw) with
                | Some v => Ok (Some v)
                | None => Err (SettingsError.parse (prefix +:+ suffix) "usize")
                end
  end.

(* src: nats/settings.rs 202-211 env_duration_ms *)
Definition nats_env_duration_ms (suffix : string) : result (option Duration) SettingsError.t :=
  let? raw := nats_env_raw suffix in
  match raw with
  | None => Ok None
  | Some raw => match parse_uint U64_MAX (trim raw) with
                | Some ms => Ok (Some (from_millis ms))
                | None => Err (SettingsError.parse (prefix +:+ suffix) "milliseconds")
                end
  end.

(** [if let Some(v) = read? { check(v)?; settings.f = v }]. *)
Definition assign_checked {A} (read : result (option A) SettingsError.t)
    (check : A → result unit SettingsError.t) (set : A → NatsSettings.t → NatsSettings.t)
    (s : NatsSettings.t) : result NatsSettings.t SettingsError.t :=
  let? o := read in
  match o with
  | None => Ok s
  | Some v => let? _ := check v in Ok (set v s)
  end.

(** [if v == 0 { return Err(out_of_range(key, message)) }]. *)
Definition non_zero (suffix message : string) (v : Z) : result unit SettingsError.t :=
  if v =? 0 then Err (SettingsError.out_of_range (prefix +:+ suffix) message) else Ok ().

(* src: nats/settings.rs 137-178 NatsSettings::from_env *)
Definition nats_from_env : result NatsSettings.t SettingsError.t :=
  let s := NatsSettings.default in
  let? s := assign_checked (nats_env_raw "SUBJECT_PREFIX")
    (λ v, map_err (λ _, SettingsError.out_of_range (prefix +:+ "SUBJECT_PREFIX")
                          "must be a legal NATS subject prefix") (validate_subject v))
    NatsSettings.with_subject_prefix s in
  let? s := assign_checked (nats_env_duration_ms "PUBLISH_TIMEOUT_MS")
    (non_zero "PUBLISH_TIMEOUT_MS" "must be greater than zero")
    NatsSettings.with_publish_timeout s in
  let? s := assign_checked (nats_env_usize "BATCH_PIPELINE_DEPTH")
    (non_zero "BATCH_PIPELINE_DEPTH" "must be greater than zero")
    NatsSettings.with_batch_pipeline_depth s in
  assign_checked (nats_env_usize "MAX_PAYLOAD_BYTES")
    (non_zero "MAX_PAYLOAD_BYTES"
       "must be greater than zero — a zero max_payload would reject every message")
    (λ v, NatsSettings.with_max_payload (Some v)) s.
End from_env.

(** ** What a publisher accepts *)

Module NatsConfigError.
  (* src: nats/error.rs 307-320 NatsConfigError *)
Inductive t :=
  | ZeroBatchPipelineDepth
  | ZeroPublishTimeout
  | ZeroMaxPayload
  | Subject (err : SubjectError.t).
Global Instance eq_dec : EqDecision t.
Proof. solve_decision. Defined.
End NatsConfigError.

(** The checks of [NatsPublisher::build]. *)
(* src: nats/publisher.rs 88-108 NatsPublisher::build *)
Definition check_settings (s : NatsSettings.t) : result unit NatsConfigError.t :=
  if NatsSettings.batch_pipeline_depth s =? 0 then Err NatsConfigError.ZeroBatchPipelineDepth
  else if is_zero (NatsSettings.publish_timeout s) then Err NatsConfigError.ZeroPublishTimeout
  else if bool_decide (NatsSettings.max_payload s = Some 0) then Err NatsConfigError.ZeroMaxPayload
  else Ok ().

(** What [check_settings] leaves: nonzero knobs. *)
Definition settings_ok (s : NatsSettings.t) : Prop :=
  NatsSettings.batch_pipeline_depth s ≠ 0 ∧ NatsSettings.publish_timeout s ≠ 0
  ∧ NatsSettings.max_payload s ≠ Some 0.

Lemma check_settings_Ok s : check_settings s = Ok () ↔ settings_ok s.
Proof.
  unfold check_settings, settings_ok, is_zero.
  destruct (Z.eqb_spec (NatsSettings.batch_pipeline_depth s) 0); [naive_solver|].
  destruct (Z.eqb_spec (NatsSettings.publish_timeout s) 0); [naive_solver|].
  case_bool_decide; naive_solver.
Qed.

(** The construction of the default resolver. *)
Definition check_prefix (s : NatsSettings.t) : result PrefixSubjects.t NatsConfigError.t :=
  map_err NatsConfigError.Subject (PrefixSubjects.new (NatsSettings.subject_prefix s)).

(** One variable of the environment, read as the loader reads it. *)
Definition var_of (env : Env) (prefix suffix : string) : option string :=
  match env (prefix +:+ suffix) with Present v => Some v | _ => None end.

Lemma assign_checked_Ok {A} read check (set : A → NatsSettings.t → NatsSettings.t) s s' :
  assign_checked read check set s = Ok s' →
  ∃ o, read = Ok o ∧ match o with
                     | None => s' = s
                     | Some v => check v = Ok () ∧ s' = set v s
                     end.
Proof.
  unfold assign_checked. intros (o & Ho & Hs)%result_bind_Ok. exists o. split; [done|].
  destruct o as [v|]; [|by injection Hs as ->].
  apply result_bind_Ok in Hs as ([] & Hc & [= <-]). done.
Qed.

Lemma non_zero_Ok prefix suffix message v : non_zero prefix suffix message v = Ok () → v ≠ 0.
Proof. unfold non_zero. by destruct (Z.eqb_spec v 0). Qed.

Lemma nats_env_raw_Ok env prefix suffix o :
  nats_env_raw env prefix suffix = Ok o → o = var_of env prefix suffix.
Proof. unfold nats_env_raw, var_of. destruct (env _); naive_solver. Qed.

Lemma nats_env_usize_Ok env prefix suffix o :
  nats_env_usize env prefix suffix = Ok o →
  o = (raw ← var_of env prefix suffix; parse_uint U64_MAX (trim raw))
  ∧ (o = None → var_of env prefix suffix = None).
Proof.
  unfold nats_env_usize. intros (raw & ->%nats_env_raw_Ok & Hr)%result_bind_Ok.
  destruct (var_of _ _ _) as [raw|]; [|by injection Hr as <-]. cbn.
  destruct (parse_uint _ _); [|done]. by injection Hr as <-.
Qed.

Lemma nats_env_duration_Ok env prefix suffix o :
  nats_env_duration_ms env prefix suffix = Ok o →
  o = from_millis <$> (raw ← var_of env prefix suffix; parse_uint U64_MAX (trim raw))
  ∧ (o = None → var_of env prefix suffix = None).
Proof.
  unfold nats_env_duration_ms. intros (raw & ->%nats_env_raw_Ok & Hr)%result_bind_Ok.
  destruct (var_of _ _ _) as [raw|]; [|by injection Hr as <-]. cbn.
  destruct (parse_uint _ _); [|done]. by injection Hr as <-.
Qed.

(** A publisher never refuses what the environment loader returned: the
    settings pass every check of [NatsPublisher::new], the subject prefix included; and
    each field is the trimmed and parsed value of its variable when that is set - a set
    but unreadable variable is an error, never the default - and the default when not. *)
Theorem nats_env_builds (env : Env) (prefix : string) (s : NatsSettings.t)
    (Hs : nats_from_env env prefix = Ok s) :
  let number suffix := raw ← var_of env prefix suffix; parse_uint U64_MAX (trim raw) in
  check_settings s = Ok ()
  ∧ check_prefix s = Ok (PrefixSubjects.mk (NatsSettings.subject_prefix s))
  ∧ NatsSettings.subject_prefix s
    = default PrefixSubjects.DEFAULT_PREFIX (var_of env prefix "SUBJECT_PREFIX")
  ∧ NatsSettings.publish_timeout s
    = default (from_secs 10) (from_millis <$> number "PUBLISH_TIMEOUT_MS")
  ∧ NatsSettings.batch_pipeline_depth s = default 64 (number "BATCH_PIPELINE_DEPTH")
  ∧ NatsSettings.max_payload s = number "MAX_PAYLOAD_BYTES"
  ∧ Forall (λ suffix, number suffix = None → var_of env prefix suffix = None)
      ["PUBLISH_TIMEOUT_MS"; "BATCH_PIPELINE_DEPTH"; "MAX_PAYLOAD_BYTES"].
Proof.
  unfold nats_from_env in Hs. cbn zeta.
  apply result_bind_Ok in Hs as (s1 & (p & Hp & H1)%assign_checked_Ok & Hs).
  apply result_bind_Ok in Hs as (s2 & (d & Hd & H2)%assign_checked_Ok & Hs).
  apply result_bind_Ok in Hs as (s3 & (n & Hn & H3)%assign_checked_Ok & Hs).
  apply assign_checked_Ok in Hs as (m & Hm & H4).
  apply nats_env_raw_Ok in Hp. apply nats_env_duration_Ok in Hd as [Hd Hd'].
  apply nats_env_usize_Ok in Hn as [Hn Hn']. apply nats_env_usize_Ok in Hm as [Hm Hm'].
  assert (Hpre : ∃ q, s1 = NatsSettings.with_subject_prefix q NatsSettings.default
    ∧ q = default PrefixSubjects.DEFAULT_PREFIX p ∧ validate_subject q = Ok ()).
  { destruct p as [p|]; [|subst s1; exists PrefixSubjects.DEFAULT_PREFIX; by vm_compute].
    destruct H1 as [Hv ->]. exists p. by apply map_err_Ok in Hv. }
  clear H1. destruct Hpre as (q & -> & Hq & Hv).
  unfold check_prefix, PrefixSubjects.new.
  rewrite check_settings_Ok, !Forall_cons, <-Hp, <-Hd, <-Hn, <-Hm. unfold settings_ok.
  assert (Hnone : (raw ← var_of env prefix "PUBLISH_TIMEOUT_MS"; parse_uint U64_MAX (trim raw)) = None
    → var_of env prefix "PUBLISH_TIMEOUT_MS" = None) by (intros Hx; apply Hd'; by rewrite Hd, Hx).
  clear Hp Hd Hn Hm.
  destruct d as [d|]; [destruct H2 as [?%non_zero_Ok ->]|subst s2];
  (destruct n as [n|]; [destruct H3 as [?%non_zero_Ok ->]|subst s3]);
  (destruct m as [m|]; [destruct H4 as [?%non_zero_Ok ->]|subst s]);
  cbn; rewrite ?Hv; (split; [by split_and!; [..|congruence]|]); split_and!; done || by constructor.
Qed.

(** Every variable set, with blanks around a number. *)
Definition sample_nats_env : Env := λ key,
  if bool_decide (key = "RELIAR_NATS_SUBJECT_PREFIX") then Present "shop.eu"
  else if bool_decide (key = "RELIAR_NATS_PUBLISH_TIMEOUT_MS") then Present "250"
  else if bool_decide (key = "RELIAR_NATS_MAX_PAYLOAD_BYTES") then Present " 4096 "
  else NotPresent.

Lemma nats_env_builds_witness :
  nats_from_env sample_nats_env "RELIAR_NATS_"
  = Ok (NatsSettings.mk "shop.eu" (from_millis 250) 64 (Some 4096))
  ∧ check_settings (NatsSettings.mk "shop.eu" (from_millis 250) 64 (Some 4096)) = Ok ().
Proof.
  assert (H : nats_from_env sample_nats_env "RELIAR_NATS_"
    = Ok (NatsSettings.mk "shop.eu" (from_millis 250) 64 (Some 4096))) by (vm_compute; reflexivity).
  split; [exact H|]. exact (proj1 (nats_env_builds _ _ _ H)).
Defined.
