(* ===== verification/NatsPublisher.v ===== *)
(** * The JetStream publisher ([reliar-transport-nats], publisher.rs, and [NatsPublishError])

    [publish] and the pipelined [publish_batch].  The JetStream context and the clock are
    third-party code ([JetStream]): a send and an ack await run under a deadline, each taking
    the world to the world it leaves.  [JetStreamLaws] is what the code relies on: an ack is
    for the message that was sent, the acknowledgement of a message means the stream holds
    it, and what the stream holds stays in its history.  Tracing is not modelled. *)

From S2P Require Import Prelude RustString CoreTypes CoreHeaders CoreEnvelope NatsSubject NatsMapper NatsRoundtrip NatsSettings.

(** ** Errors *)

Section errors.
Context `{NatsLib} {SE : Type}.

(** The error of the resolver is boxed: [SE]. *)
(* src: nats/error.rs 166-232 NatsPublishError *)
Inductive NatsPublishError :=
  | Map (err : NatsMapError)
  | Subject (source : SE)
  | PayloadTooLarge (len limit : Z)
  | MaxPayloadExceeded (subject : string)
  | WrongLastMessage (subject : string)
  | Timeout (subject : string) (after_ms : Z)
  | Connection (subject : string)
  | StreamNotFound (subject : string)
  | MaxAckPending (subject : string)
  | Broker (subject : string).

(* src: nats/error.rs 285-300 NatsPublishError::kind *)
Global Instance NatsPublishError_classify : Classify NatsPublishError := λ e,
  match e with
  | Map _ | Subject _ | PayloadTooLarge _ _ | MaxPayloadExceeded _ | WrongLastMessage _ => Permanent
  | Timeout _ _ | Connection _ | StreamNotFound _ | MaxAckPending _ | Broker _ => Transient
  end.
End errors.
Arguments NatsPublishError SE : clear implicits.

(** ** The third-party code *)

(** The kinds [async_nats] documents; [Unrecognised] is a kind of a later version. *)
Inductive PublishErrorKind :=
  | KStreamNotFound | KWrongLastMessageId | KWrongLastSequence | KTimedOut | KBrokenPipe
  | KMaxAckPending | KMaxPayloadExceeded | KOther | KUnrecognised.

(** The outcome of a future under a deadline. *)
Inductive timed (A : Type) := Done (a : A) | Elapsed.
Arguments Done {A} _.
Arguments Elapsed {A}.

Class JetStream (W : Type) `{NatsLib} := {
  (** [PublishAckFuture]. *)
  Ack : Type;
  (** [tokio::time::Instant::now], and [Instant + Duration], which panics ([None]) on overflow. *)
  instant_now : W → Z;
  instant_add : Z → Duration → option Z;
  (** The deadline of [tokio::time::timeout(d, _)] polled now: far in the future when the
      addition overflows. *)
  timeout_deadline : W → Duration → Z;
  (** [timeout_at(deadline, context.publish_with_headers(subject, headers, payload))]. *)
  send : Z → string → NatsWireMessage → W → W * timed (result Ack PublishErrorKind);
  (** [timeout_at(deadline, ack_future)]. *)
  await_ack : Z → Ack → W → W * timed (result unit PublishErrorKind);
}.

Class JetStreamLaws (W : Type) `{JetStream W} := {
  (** The messages the stream has stored so far, and the message an ack is for. *)
  stored : W → list (string * NatsWireMessage);
  ack_for : Ack → string * NatsWireMessage;
  send_ack d s m w w' a : send d s m w = (w', Done (Ok a)) → ack_for a = (s, m);
  await_ack_stored d a w w' : await_ack d a w = (w', Done (Ok ())) → ack_for a ∈ stored w';
  send_stored d s m w x : x ∈ stored w → x ∈ stored (send d s m w).1;
  await_stored d a w x : x ∈ stored w → x ∈ stored (await_ack d a w).1;
}.

(** ** The publisher *)

Section publisher.
Context {W R SE : Type} `{JetStream W} `{!SubjectResolver R SE}.
Implicit Types (w : W) (e : SerializedEnvelope).
Abbreviation outcome := (result unit (NatsPublishError SE)).
Abbreviation prepared := (nat * string * NatsWireMessage)%type.

(** The context is part of the world. *)
(* src: nats/publisher.rs 39-44 NatsPublisher *)
Record NatsPublisher := mkPublisher { resolver : R; settings : NatsSettings.t }.
Context (p : NatsPublisher).

(* src: nats/publisher.rs 368-370 elapsed_ms *)
Definition elapsed_ms (start : Z) w : Z :=
  Z.min (as_millis (Z.max 0 (instant_now w - start))) U64_MAX.

(* src: nats/publisher.rs 317-351 classify_publish_error *)
Definition classify_publish_error (subject : string) (k : PublishErrorKind) (start : Z) w
  : NatsPublishError SE :=
  match k with
  | KStreamNotFound => StreamNotFound subject
  | KWrongLastMessageId | KWrongLastSequence => WrongLastMessage subject
  | KTimedOut => Timeout subject (elapsed_ms start w)
  | KBrokenPipe => Connection subject
  | KMaxAckPending => MaxAckPending subject
  | KMaxPayloadExceeded => MaxPayloadExceeded subject
  | KOther | KUnrecognised => Broker subject
  end.

(* src: nats/publisher.rs 118-141 NatsPublisher::prepare *)
Definition prepare e : result (string * NatsWireMessage) (NatsPublishError SE) :=
  let? s := map_err Subject (subject (resolver p) e) in
  let? wire := map_err Map (encode e) in
  match NatsSettings.max_payload (settings p) with
  | Some limit =>
      let n := wire_len wire in
      if n >? limit then Err (PayloadTooLarge n limit) else Ok (s, wire)
  | None => Ok (s, wire)
  end.

(** Both stages run under the one deadline. *)
(* src: nats/publisher.rs 222-254 publish_prepared *)
Definition publish_prepared (s : string) (wire : NatsWireMessage) (publish_timeout : Duration) w
  : W * outcome :=
  let start := instant_now w in
  let deadline := timeout_deadline w publish_timeout in
  let '(w, o) := send deadline s wire w in
  match o with
  | Elapsed => (w, Err (Timeout s (elapsed_ms start w)))
  | Done (Err k) => (w, Err (classify_publish_error s k start w))
  | Done (Ok ack) =>
      let '(w, o) := await_ack deadline ack w in
      match o with
      | Elapsed => (w, Err (Timeout s (elapsed_ms start w)))
      | Done (Err k) => (w, Err (classify_publish_error s k start w))
      | Done (Ok _) => (w, Ok ())
      end
  end.

(* src: nats/publisher.rs 147-160 NatsPublisher::publish *)
Definition nats_publish e w : W * outcome :=
  match prepare e with
  | Err err => (w, Err err)
  | Ok (s, wire) => publish_prepared s wire (NatsSettings.publish_timeout (settings p)) w
  end.

(** The core interface, with this publisher as its implementation. *)
Definition nats_publisher : Publisher W (NatsPublishError SE) := {| publish := nats_publish |}.

(** *** A batch *)

(* src: nats/publisher.rs 259-284 issue_window_sends *)
Fixpoint issue_window_sends (window : list prepared) (deadline start : Z) w
  : W * list (nat * string * result Ack (NatsPublishError SE)) :=
  match window with
  | [] => (w, [])
  | (i, s, wire) :: window' =>
      let '(w, o) := send deadline s wire w in
      let o := match o with
               | Done (Ok ack) => Ok ack
               | Done (Err k) => Err (classify_publish_error s k start w)
               | Elapsed => Err (Timeout s (elapsed_ms start w))
               end in
      let '(w, sent) := issue_window_sends window' deadline start w in
      (w, (i, s, o) :: sent)
  end.

(* src: nats/publisher.rs 289-310 await_window_acks *)
Fixpoint await_window_acks (sent : list (nat * string * result Ack (NatsPublishError SE)))
    (deadline start : Z) w : W * list (nat * outcome) :=
  match sent with
  | [] => (w, [])
  | (i, s, o) :: sent' =>
      let '(w, r) :=
        match o with
        | Err err => (w, Err err)
        | Ok ack =>
            let '(w, t) := await_ack deadline ack w in
            (w, match t with
                | Done (Ok _) => Ok ()
                | Done (Err k) => Err (classify_publish_error s k start w)
                | Elapsed => Err (Timeout s (elapsed_ms start w))
                end)
        end in
      let '(w, outcomes) := await_window_acks sent' deadline start w in
      (w, (i, r) :: outcomes)
  end.

(** How a batch ends: [Panicked] when [Instant + Duration] overflows. *)
Inductive run (A : Type) := Finished (a : A) | Panicked | OutOfFuel.
Arguments Finished {A} _.
Arguments Panicked {A}.
Arguments OutOfFuel {A}.

(** The [while !prepared.is_empty()] loop, [fuel] iterations of it at most. *)
(* src: nats/publisher.rs 197-207 NatsPublisher::publish_batch *)
Fixpoint windows (fuel : nat) (todo : list prepared) (outcomes : list (nat * outcome)) w
  : run (W * list (nat * outcome)) :=
  match todo with
  | [] => Finished (w, outcomes)
  | _ =>
      match fuel with
      | O => OutOfFuel
      | S fuel =>
          let n := Nat.min (length todo)
                     (Z.to_nat (NatsSettings.batch_pipeline_depth (settings p))) in
          let window := take n todo in
          let window_start := instant_now w in
          match instant_add window_start (NatsSettings.publish_timeout (settings p)) with
          | None => Panicked
          | Some deadline =>
              let '(w, sent) := issue_window_sends window deadline window_start w in
              let '(w, acked) := await_window_acks sent deadline window_start w in
              windows fuel (drop n todo) (outcomes ++ acked) w
          end
      end
  end.

(** The envelopes that can be sent, and the errors of those that cannot. *)
(* src: nats/publisher.rs 189-194 NatsPublisher::publish_batch *)
Fixpoint prepare_all (i : nat) (es : list SerializedEnvelope)
  : list prepared * list (nat * outcome) :=
  match es with
  | [] => ([], [])
  | e :: es' =>
      let '(todo, failed) := prepare_all (S i) es' in
      match prepare e with
      | Ok (s, wire) => ((i, s, wire) :: todo, failed)
      | Err err => (todo, (i, Err err) :: failed)
      end
  end.

(* src: nats/publisher.rs 169-215 NatsPublisher::publish_batch *)
Definition nats_publish_batch (fuel : nat) (es : list SerializedEnvelope) w
  : run (W * list outcome) :=
  let '(todo, failed) := prepare_all 0 es in
  match windows fuel todo failed w with
  | Finished (w, outcomes) =>
      Finished (w, (sort_by (λ a b, (a.1 <=? b.1)%nat) outcomes).*2)
  | Panicked => Panicked
  | OutOfFuel => OutOfFuel
  end.
End publisher.
Arguments Finished {A} _.
Arguments Panicked {A}.
Arguments OutOfFuel {A}.

(* src: nats/publisher.rs 88-108 NatsPublisher::build *)
Definition build {R} (s : NatsSettings.t) (resolver : R) : result (@NatsPublisher R) NatsConfigError.t :=
  let? _ := check_settings s in Ok (mkPublisher resolver s).
(* src: nats/publisher.rs 66-69 NatsPublisher::new *)
Definition new (s : NatsSettings.t) : result (@NatsPublisher PrefixSubjects.t) NatsConfigError.t :=
  let? r := check_prefix s in build s r.
(* src: nats/publisher.rs 80-86 NatsPublisher::with_resolver *)
Definition with_resolver {R} (s : NatsSettings.t) (resolver : R)
  : result (@NatsPublisher R) NatsConfigError.t := build s resolver.

(** ** Lemmas *)

Section spec.
Context {W R SE : Type} `{JetStreamLaws W} `{!SubjectResolver R SE}.
Implicit Types (w : W) (e : SerializedEnvelope) (s : string) (wire : NatsWireMessage).
Abbreviation outcome := (result unit (NatsPublishError SE)).
Abbreviation prepared := (nat * string * NatsWireMessage)%type.

(** The verdict on a message comes from its own send and its own ack. *)
Inductive own_verdict s wire : outcome → Prop :=
  | VUnsent d start w w' :
      send d s wire w = (w', Elapsed) →
      own_verdict s wire (Err (Timeout s (elapsed_ms start w')))
  | VRefused d start w w' k :
      send d s wire w = (w', Done (Err k)) →
      own_verdict s wire (Err (classify_publish_error s k start w'))
  | VUnacked d start w w1 w2 w' a :
      send d s wire w = (w1, Done (Ok a)) → await_ack d a w2 = (w', Elapsed) →
      own_verdict s wire (Err (Timeout s (elapsed_ms start w')))
  | VNacked d start w w1 w2 w' a k :
      send d s wire w = (w1, Done (Ok a)) → await_ack d a w2 = (w', Done (Err k)) →
      own_verdict s wire (Err (classify_publish_error s k start w'))
  | VAcked d w w1 w2 w' a :
      send d s wire w = (w1, Done (Ok a)) → await_ack d a w2 = (w', Done (Ok ())) →
      own_verdict s wire (Ok ()).

Definition grows w w' : Prop := ∀ x, x ∈ stored w → x ∈ stored w'.

Global Instance grows_preorder : PreOrder grows.
Proof. split; [by intros w x|]. intros w1 w2 w3 H12 H23 x Hx. by apply H23, H12. Qed.

Lemma send_grows d s wire w w' o : send d s wire w = (w', o) → grows w w'.
Proof. intros Hs x Hx. by apply (send_stored d s wire) in Hx; rewrite Hs in Hx. Qed.

Lemma await_grows d a w w' o : await_ack d a w = (w', o) → grows w w'.
Proof. intros Ha x Hx. by apply (await_stored d a) in Hx; rewrite Ha in Hx. Qed.

(** What a batch owes a message once its world is [w]. *)
Definition settled_at w s wire (r : outcome) : Prop :=
  own_verdict s wire r ∧ (r = Ok () → (s, wire) ∈ stored w).

Lemma settled_grows w w' s wire r : grows w w' → settled_at w s wire r → settled_at w' s wire r.
Proof. intros Hg [Hv Hst]. split; [done|]. intros Hr. by apply Hg, Hst. Qed.

Lemma publish_prepared_spec s wire d w w' r :
  publish_prepared s wire d w = (w', r) → settled_at w' s wire r.
Proof.
  unfold publish_prepared, settled_at. destruct (send _ s wire w) as [w1 [[a|k]|]] eqn:Hs.
  - destruct (await_ack _ a w1) as [w2 [[[]|k]|]] eqn:Ha; intros [= <- <-].
    + split; [by eapply VAcked|]. intros _. rewrite <-(send_ack _ _ _ _ _ _ Hs).
      by eapply await_ack_stored.
    + split; [by eapply VNacked|done].
    + split; [by eapply VUnacked|done].
  - intros [= <- <-]. split; [by eapply VRefused|done].
  - intros [= <- <-]. split; [by eapply VUnsent|done].
Qed.

(** *** A window *)

(** What sending the window leaves for each message: its ack to await, or its verdict. *)
Definition sent_ok (d : Z) (x : prepared) (y : nat * string * result Ack (NatsPublishError SE))
  : Prop :=
  y.1 = x.1 ∧ match y.2 with
              | Ok a => ∃ w w', send d x.1.2 x.2 w = (w', Done (Ok a))
              | Err err => own_verdict x.1.2 x.2 (Err err)
              end.

Lemma issue_window_sends_spec window d start w w' sent :
  issue_window_sends window d start w = (w', sent) → grows w w' ∧ Forall2 (sent_ok d) window sent.
Proof.
  revert w sent; induction window as [|[[i s] wire] window IH]; intros w sent; cbn.
  { by intros [= -> <-]. }
  destruct (send d s wire w) as [w1 o] eqn:Hs.
  destruct (issue_window_sends window d start w1) as [w2 rest] eqn:Hi. intros [= <- <-].
  destruct (IH _ _ Hi) as [Hg Hall]. split; [by etransitivity; [eapply send_grows|]|].
  constructor; [|done]. split; [done|]. cbn.
  destruct o as [[a|k]|]; [by exists w, w1|by eapply VRefused|by eapply VUnsent].
Qed.

Definition indexed (w : W) (x : prepared) (y : nat * outcome) : Prop :=
  y.1 = x.1.1 ∧ settled_at w x.1.2 x.2 y.2.

Lemma indexed_grows w w' x y : grows w w' → indexed w x y → indexed w' x y.
Proof. intros Hg [Hi Hs]. split; [done|]. by eapply settled_grows. Qed.

Lemma await_window_acks_spec window sent d start w w' acked :
  Forall2 (sent_ok d) window sent → await_window_acks sent d start w = (w', acked) →
  grows w w' ∧ Forall2 (indexed w') window acked.
Proof.
  intros Hall. revert w acked; induction Hall as [|[[i s] wire] [[j t] o] window sent [Hij Ho] _ IH];
    intros w acked; cbn; [by intros [= -> <-]|].
  cbn in Hij, Ho. injection Hij as -> ->.
  assert (Hone : ∃ w1 r, grows w w1 ∧ settled_at w1 s wire r ∧
    match o with
    | Err err => (w, Err err)
    | Ok ack =>
        let '(w, t) := await_ack d ack w in
        (w, match t with
            | Done (Ok _) => Ok ()
            | Done (Err k) => Err (classify_publish_error s k start w)
            | Elapsed => Err (Timeout s (elapsed_ms start w))
            end)
    end = (w1, r)).
  { destruct o as [a|err]; [|by exists w, (Err err)]. destruct Ho as (ws & ws' & Hs).
    destruct (await_ack d a w) as [w1 [[[]|k]|]] eqn:Ha; eexists w1, _;
      (split; [by eapply await_grows|]); (split; [|reflexivity]); (split; [|try done]).
    - by eapply VAcked.
    - intros _. rewrite <-(send_ack _ _ _ _ _ _ Hs). by eapply await_ack_stored.
    - by eapply VNacked.
    - by eapply VUnacked. }
  destruct Hone as (w1 & r & Hg1 & Hset & ->).
  destruct (await_window_acks sent d start w1) as [w2 rest] eqn:Hw. intros [= <- <-].
  destruct (IH _ _ Hw) as [Hg2 Hrest]. split; [by etransitivity|].
  constructor; [|done]. split; [done|]. by eapply settled_grows.
Qed.

(** *** The loop over the windows *)

(** Settings under which the loop makes progress and the deadlines can be computed. *)
Record runnable (p : NatsPublisher (R:=R)) : Prop := {
  depth_pos : 0 < NatsSettings.batch_pipeline_depth (settings p);
  deadlines_fit i : is_Some (instant_add i (NatsSettings.publish_timeout (settings p)));
}.

Lemma windows_spec (p : NatsPublisher (R:=R)) fuel (todo : list prepared) outcomes w :
  runnable p → (length todo ≤ fuel)%nat →
  ∃ w' acked, windows p fuel todo outcomes w = Finished (w', outcomes ++ acked)
    ∧ grows w w' ∧ Forall2 (indexed w') todo acked.
Proof.
  intros [Hdepth Hfit]. revert todo outcomes w; induction fuel as [|fuel IH]; intros todo outcomes w Hlen.
  { destruct todo; [|cbn in Hlen; lia]. exists w, []. cbn. rewrite app_nil_r. by split_and!. }
  destruct todo as [|x todo'] eqn:Htodo.
  { exists w, []. cbn. rewrite app_nil_r. by split_and!. }
  rewrite <-Htodo in Hlen |- *. assert (Hpos : (0 < length todo)%nat) by (rewrite Htodo; cbn; lia).
  assert (Hw : windows p (S fuel) todo outcomes w
    = let n := Nat.min (length todo) (Z.to_nat (NatsSettings.batch_pipeline_depth (settings p))) in
      match instant_add (instant_now w) (NatsSettings.publish_timeout (settings p)) with
      | None => Panicked
      | Some deadline =>
          let '(w1, sent) := issue_window_sends (take n todo) deadline (instant_now w) w in
          let '(w2, acked) := await_window_acks sent deadline (instant_now w) w1 in
          windows p fuel (drop n todo) (outcomes ++ acked) w2
      end) by (by rewrite Htodo).
  rewrite Hw. clear Hw Htodo. cbn zeta. set (n := Nat.min _ _).
  destruct (Hfit (instant_now w)) as [d ->].
  destruct (issue_window_sends _ d _ w) as [w1 sent] eqn:Hs.
  destruct (issue_window_sends_spec _ _ _ _ _ _ Hs) as [Hg1 Hsent].
  destruct (await_window_acks sent d _ w1) as [w2 acked] eqn:Ha.
  destruct (await_window_acks_spec _ _ _ _ _ _ _ Hsent Ha) as [Hg2 Hacked].
  destruct (IH (drop n todo) (outcomes ++ acked) w2) as (w' & rest & -> & Hg3 & Hrest).
  { rewrite length_drop. lia. }
  exists w', (acked ++ rest). rewrite app_assoc. split; [done|]. split; [by do 2 (etransitivity; [done|])|].
  rewrite <-(take_drop n todo). apply Forall2_app; [|done].
  eapply Forall2_impl; [exact Hacked|]. intros. by eapply indexed_grows.
Qed.

(** *** Indices *)

Lemma prepare_all_spec (p : NatsPublisher (R:=R)) i es todo failed :
  prepare_all (SE:=SE) p i es = (todo, failed) →
  failed.*1 ++ todo.*1.*1 ≡ₚ seq i (length es)
  ∧ (∀ x, x ∈ todo → ∃ e, es !! (x.1.1 - i)%nat = Some e ∧ prepare p e = Ok (x.1.2, x.2))
  ∧ (∀ y, y ∈ failed → ∃ e err, es !! (y.1 - i)%nat = Some e ∧ prepare p e = Err err ∧ y.2 = Err err).
Proof.
  revert i todo failed; induction es as [|e es IH]; intros i todo failed; cbn.
  { intros [= <- <-]. split; [done|]. split; by intros ? ?%elem_of_nil. }
  destruct (prepare_all p (S i) es) as [todo' failed'] eqn:Hrec.
  destruct (IH _ _ _ Hrec) as (Hp & Ht & Hf).
  assert (Hge : ∀ j, j ∈ failed'.*1 ++ todo'.*1.*1 → (S i ≤ j)%nat).
  { intros j. rewrite Hp, elem_of_seq. lia. }
  assert (Hshift : ∀ j, (S i ≤ j)%nat → (j - i = S (j - S i))%nat) by lia.
  assert (Ht' : ∀ x, x ∈ todo' →
    ∃ e', (e :: es) !! (x.1.1 - i)%nat = Some e' ∧ prepare p e' = Ok (x.1.2, x.2)).
  { intros x Hx. rewrite Hshift; [by apply Ht|]. apply Hge, elem_of_app. right.
    by apply list_elem_of_fmap_2, list_elem_of_fmap_2. }
  assert (Hf' : ∀ y, y ∈ failed' →
    ∃ e' err, (e :: es) !! (y.1 - i)%nat = Some e' ∧ prepare p e' = Err err ∧ y.2 = Err err).
  { intros y Hy. rewrite Hshift; [by apply Hf|]. apply Hge, elem_of_app. left.
    by apply list_elem_of_fmap_2. }
  destruct (prepare p e) as [[s wire]|err] eqn:He; intros [= <- <-]; cbn.
  - split; [by rewrite <-Permutation_middle, Hp|]. split; [|done].
    intros x [->|Hx]%elem_of_cons; [|by apply Ht'].
    exists e. cbn. by rewrite Nat.sub_diag.
  - split; [by rewrite Hp|]. split; [done|].
    intros y [->|Hy]%elem_of_cons; [|by apply Hf'].
    exists e, err. cbn. by rewrite Nat.sub_diag.
Qed.

Lemma seq_sorted k n : StronglySorted (λ a b, (a <=? b)%nat = true) (seq k n).
Proof.
  revert k; induction n as [|n IH]; intros k; cbn; constructor; [done|].
  apply Forall_forall. intros j ?%elem_of_seq. apply Nat.leb_le. lia.
Qed.

(** Sorting a list of results by their indices puts each at its index. *)
Lemma sort_by_index {A} (l : list (nat * A)) n i x :
  l.*1 ≡ₚ seq 0 n → (i, x) ∈ l →
  length (sort_by (λ a b, (a.1 <=? b.1)%nat) l) = n
  ∧ (sort_by (λ a b, (a.1 <=? b.1)%nat) l).*2 !! i = Some x.
Proof.
  intros Hp Hin. set (l' := sort_by _ l).
  assert (Hl' : l' ≡ₚ l) by (apply sort_by_perm).
  assert (Hkeys : l'.*1 = seq 0 n).
  { apply (sorted_perm_eq (λ a b, (a <=? b)%nat = true)).
    - intros a b _ _ ?%Nat.leb_le ?%Nat.leb_le. lia.
    - apply (StronglySorted_fmap fst). apply sort_by_sorted.
      + intros a b ?%Nat.leb_gt. apply Nat.leb_le. lia.
      + intros a b c ?%Nat.leb_le ?%Nat.leb_le. apply Nat.leb_le. lia.
    - apply seq_sorted.
    - by rewrite Hl'. }
  split; [by rewrite <-(length_fmap fst), Hkeys, length_seq|].
  rewrite <-Hl' in Hin. apply list_elem_of_lookup in Hin as [j Hj].
  assert (Hkj : l'.*1 !! j = Some i) by (by rewrite list_lookup_fmap, Hj).
  rewrite Hkeys in Hkj. apply lookup_seq in Hkj as [-> _].
  rewrite Nat.add_0_l, list_lookup_fmap. by rewrite Hj.
Qed.
End spec.

(** ** Properties *)

Section properties.
Context {W R SE : Type} `{JetStreamLaws W} `{!NatsLibLaws} `{!SubjectResolver R SE}.
Implicit Types (w : W) (e : SerializedEnvelope) (p : NatsPublisher (R:=R)).

Lemma prepare_Ok p e s wire :
  prepare (SE:=SE) p e = Ok (s, wire) →
  subject (resolver p) e = Ok s ∧ encode e = Ok wire ∧ payload wire = Envelope.body e
  ∧ ∀ limit, NatsSettings.max_payload (settings p) = Some limit → wire_len wire ≤ limit.
Proof.
  unfold prepare. intros (s' & Hs%map_err_Ok & (m & Hm%map_err_Ok & Hl)%result_bind_Ok)%result_bind_Ok.
  assert (Hpay : payload m = Envelope.body e).
  { unfold encode in Hm. apply result_bind_Ok in Hm as (? & _ & (? & _ & [= <-])%result_bind_Ok). done. }
  destruct (NatsSettings.max_payload _) as [limit|].
  - rewrite Z.gtb_ltb in Hl. destruct (Z.ltb_spec limit (wire_len m)); [done|].
    injection Hl as <- <-. split_and!; try done. by intros ? [= <-].
  - injection Hl as <- <-. by split_and!.
Qed.

Lemma prepare_Err p e (err : NatsPublishError SE) : prepare p e = Err err → kind err = Permanent.
Proof.
  unfold prepare. destruct (subject _ e) as [s|x]; cbn; [|by intros [= <-]].
  destruct (encode e) as [m|x]; cbn; [|by intros [= <-]].
  destruct (NatsSettings.max_payload _); [|done]. destruct (_ >? _); [|done]. by intros [= <-].
Qed.

(** [Ok] is given for a message the stream holds, and that reads back. *)
Lemma publish_stores p e w w' : nats_publish p e w = (w', Ok (A := unit) (E := NatsPublishError SE) ()) →
  ∃ s wire, (s, wire) ∈ stored w' ∧ subject (resolver p) e = Ok s
    ∧ payload wire = Envelope.body e
    ∧ (∀ limit, NatsSettings.max_payload (settings p) = Some limit → wire_len wire ≤ limit)
    ∧ (valid_envelope e → decode wire = Ok (normalise e)).
Proof.
  unfold nats_publish. destruct (prepare p e) as [[s wire]|err] eqn:Hp; [|done].
  intros [_ Hst]%publish_prepared_spec. apply prepare_Ok in Hp as (? & Henc & ? & ?).
  exists s, wire. split_and!; auto. intros Hve. by apply decode_encoded.
Qed.


End properties.

(** ** A concrete JetStream *)

(** What the server does with the next request, in order; it acknowledges after the last. *)
Inductive server_step := Accept | Refuse (k : PublishErrorKind) | Hang.
Record server := mkServer {
  clock : Z;
  log : list (string * NatsWireMessage (H := text_nats));
  script : list server_step;
}.

Definition respond {A} (w : server) (a : A) (log' : list (string * NatsWireMessage (H := text_nats)))
  : server * timed (result A PublishErrorKind) :=
  match script w with
  | [] | Accept :: _ => (mkServer (clock w + 1) log' (tail (script w)), Done (Ok a))
  | Refuse k :: rest => (mkServer (clock w + 1) (log w) rest, Done (Err k))
  | Hang :: rest => (mkServer (clock w + 10) (log w) rest, Elapsed)
  end.

Definition text_js : JetStream server (H := text_nats) := {|
  Ack := string * NatsWireMessage (H := text_nats);
  instant_now := clock;
  instant_add i d := Some (i + d);
  timeout_deadline w d := clock w + d;
  send _ s m w := respond w (s, m) (log w);
  await_ack _ a w := respond w () (a :: log w);
|}.

Lemma text_js_laws : JetStreamLaws server (H0 := text_js).
Proof.
  refine {| stored := log : server → _; ack_for := λ a : Ack (JetStream := text_js), a |}; cbn.
  - intros d s m w w' a. unfold respond. destruct (script w) as [|[] ?]; by intros [=].
  - intros d a w w'. unfold respond. destruct (script w) as [|[] ?]; intros [= <-]; left.
  - intros d s m w x Hx. unfold respond. by destruct (script w) as [|[] ?].
  - intros d a w x Hx. unfold respond. destruct (script w) as [|[] ?]; cbn; by try right.
Defined.

Definition untyped_order : SerializedEnvelope :=
  Envelope.mk (CoreTypes.MessageId.from_uuid 78) (CoreTypes.MessageType.from_parts "" 1)
    [] Metadata.default None.

Definition shop_publisher : NatsPublisher (R := PrefixSubjects.t) :=
  mkPublisher (PrefixSubjects.mk "shop")
    (NatsSettings.with_batch_pipeline_depth 2 NatsSettings.default).



(** A [publish_timeout] that overflows the clock makes the first window panic, whatever the
    world, while [publish] goes on with a deadline in the far future. *)
Lemma batch_panics_on_overflow {W R SE : Type} `{JetStream W} `{!SubjectResolver R SE}
    (p : NatsPublisher (R:=R)) (e : SerializedEnvelope) (m : string * NatsWireMessage) (w : W) :
  prepare (SE:=SE) p e = Ok m →
  instant_add (instant_now w) (NatsSettings.publish_timeout (settings p)) = None →
  nats_publish_batch (SE:=SE) p 1 [e] w = Panicked.
Proof.
  intros He Hadd. unfold nats_publish_batch. cbn. rewrite He. destruct m as [s wire]. cbn.
  by rewrite Hadd.
Qed.
