(* ===== verification/PgErrors.v ===== *)
(** * Postgres errors and settings ([reliar-store-postgres], error.rs, settings.rs, migrate.rs)

    The typed errors, their classification by SQLSTATE, the schema-name check and the
    settings with their environment loader.  [sqlx::Error] is third-party: either the
    database answered with an optional SQLSTATE and constraint name, or something else
    failed. *)

From S2P Require Import Prelude RustString RustFmt CoreTypes OutboxSettings.

Inductive SqlxError :=
  | DatabaseError (code constraint_name : option string)
  | OtherError.
Global Instance SqlxError_eq_dec : EqDecision SqlxError.
Proof. solve_decision. Defined.

(** [sqlx::Error::Database(db)] and [db.code()]. *)
Definition sqlstate (err : SqlxError) : option string :=
  match err with DatabaseError code _ => code | OtherError => None end.

(** ** Classification *)

(** [str::get(..n)]: [None] when [n] is past the end or inside a character. *)
Definition str_get_prefix (n : nat) (s : string) : option string :=
  if (n <=? String.length s)%nat && is_char_boundary n s then Some (str_take n s) else None.

(* src: pg/error.rs 149-166 classify_sqlstate *)
Definition classify_sqlstate (err : SqlxError) : FailureKind :=
  match err with
  | OtherError => Transient
  | DatabaseError None _ => Transient
  | DatabaseError (Some code) _ =>
      match str_get_prefix 2 code with
      | Some class =>
          if bool_decide (class ∈ ["08"; "40"; "53"; "55"]) then Transient
          else if bool_decide (class = "57" ∧ code = "57014") then Transient
          else if bool_decide (class ∈ ["22"; "23"; "42"]) then Permanent
          else Transient
      | None => Transient
      end
  end.

(* src: pg/error.rs 269-274 is_undefined_table *)
Definition is_undefined_table (err : SqlxError) : bool :=
  match err with
  | DatabaseError code _ => bool_decide (code = Some "42P01")
  | OtherError => false
  end.

(* src: pg/error.rs 260-265 is_constraint_violation *)
Definition is_constraint_violation (err : SqlxError) (constraint : string) : bool :=
  match err with
  | DatabaseError _ c => bool_decide (c = Some constraint)
  | OtherError => false
  end.

(* src: pg/error.rs 18-75 PostgresStoreError *)
Inductive PostgresStoreError :=
  | SchemaResolution (configured observed : string)
  | NotMigrated (schema : string)
  | Database (source : SqlxError)
  | Decode (id : MessageId.t) (detail : string)
  | UnknownMetadataVersion (id : MessageId.t) (version : Z)
  | DuplicateMessage (id : MessageId.t)
  | InvalidSchema (schema : string).
Global Instance PostgresStoreError_eq_dec : EqDecision PostgresStoreError.
Proof. solve_decision. Defined.

(* src: pg/error.rs 124-136 PostgresStoreError::kind *)
Global Instance PostgresStoreError_Classify : Classify PostgresStoreError := λ e,
  match e with
  | SchemaResolution _ _ | NotMigrated _ | InvalidSchema _ | DuplicateMessage _ | Decode _ _
  | UnknownMetadataVersion _ _ => Permanent
  | Database source => classify_sqlstate source
  end.

(* src: pg/error.rs 178-185 map_operational_error *)
Definition map_operational_error (schema : string) (err : SqlxError) : PostgresStoreError :=
  if is_undefined_table err then NotMigrated schema else Database err.

Module EnqueueError.
  (* src: pg/error.rs 193-214 EnqueueError *)
Inductive t (E : Type) :=
  | Serialize (source : E)
  | Duplicate (id : MessageId.t)
  | Database (source : SqlxError).
Arguments Serialize {E} _.
Arguments Duplicate {E} _.
Arguments Database {E} _.
  (* src: pg/error.rs 238-245 EnqueueError::kind *)
Global Instance classify {E} : Classify (t E) := λ e,
  match e with
  | Serialize _ | Duplicate _ => Permanent
  | Database source => classify_sqlstate source
  end.
End EnqueueError.

(* src: pg/error.rs 250-255 map_enqueue_error *)
Definition map_enqueue_error {E} (id : MessageId.t) (err : SqlxError) : EnqueueError.t E :=
  if is_constraint_violation err "pk_outbox" then EnqueueError.Duplicate id
  else EnqueueError.Database err.

(** ** Schema names *)

Definition schema_first (c : Z) : bool := is_ascii_alphabetic c || (c =? 95).
Definition schema_rest (c : Z) : bool := is_ascii_alphanumeric c || (c =? 95) || (c =? 36).

(* src: pg/error.rs 282-291 is_valid_schema_name *)
Definition is_valid_schema_name (schema : string) : bool :=
  match chars schema with
  | [] => false
  | first :: rest => schema_first first && (len schema <=? 63) && forallb schema_rest rest
  end.

(* src: pg/migrate.rs 23-29 MigrateOptions *)
Record MigrateOptions := mkMigrateOptions { mo_schema : string }.
(* src: pg/migrate.rs 31-35 MigrateOptions::default *)
Definition MigrateOptions_default : MigrateOptions := mkMigrateOptions "reliar".

(* src: pg/migrate.rs 52-66 MigrateError *)
Inductive MigrateError (S : Type) := MInvalidSchema (schema : string) | MSqlx (source : S).
Arguments MInvalidSchema {S} _.
Arguments MSqlx {S} _.

(** The library calls [migrate] makes on its way, in order: the bookkeeping table's name, the
    statement that sets the path on the connection of its own, the run and the close. *)
Class MigrateLib (W S : Type) := {
  create_schema : string → W → W;
  dangerous_set_table_name : string → W → W;
  connect_with : W → W * result unit S;
  execute_sql : string → W → W * result unit S;
  run_migrations : W → W * result unit S;
  close_connection : W → W * result unit S;
}.

(** [schema.replace(q, qq)] of a one-byte character, doubled. *)
Fixpoint double_byte (b : Z) (s : string) : string :=
  match s with
  | EmptyString => EmptyString
  | String a s => if byte_val a =? b then String a (String a (double_byte b s))
                  else String a (double_byte b s)
  end.


Section migrate.
Context {W S : Type} `{MigrateLib W S}.

Definition then_ (step : W → W * result unit S) (k : W → W * result unit (MigrateError S)) (w : W)
  : W * result unit (MigrateError S) :=
  let '(w, r) := step w in
  match r with Ok _ => k w | Err e => (w, Err (MSqlx e)) end.

Definition set_path_sql (schema : string) : string :=
  "SET search_path = " +:+ QUOTE +:+ double_byte 34 schema +:+ QUOTE +:+ ", public".

(* src: pg/migrate.rs 117-154 migrate *)
Definition migrate (options : MigrateOptions) (w : W) : W * result unit (MigrateError S) :=
  if negb (is_valid_schema_name (mo_schema options))
  then (w, Err (MInvalidSchema (mo_schema options)))
  else
    let w := create_schema (mo_schema options) w in
    let w := dangerous_set_table_name (mo_schema options +:+ "._migrations") w in
    then_ connect_with
      (then_ (execute_sql (set_path_sql (mo_schema options)))
         (then_ run_migrations (then_ close_connection (λ w, (w, Ok ()))))) w.
End migrate.

(** ** Settings *)

Module PostgresOutboxSettings.
  (* src: pg/settings.rs 18-43 PostgresOutboxSettings *)
Record t := mk {
  schema : string;
  enqueue_sets_search_path : bool;
  statement_timeout : Duration;
}.
  (* src: pg/settings.rs 45-53 PostgresOutboxSettings::default *)
Definition default : t := mk "reliar" false 0.
  (* src: pg/settings.rs 57-61 PostgresOutboxSettings::schema *)
Definition with_schema (x : string) (s : t) : t :=
  mk x (enqueue_sets_search_path s) (statement_timeout s).
  (* src: pg/settings.rs 64-68 PostgresOutboxSettings::enqueue_sets_search_path *)
Definition with_enqueue_sets_search_path (x : bool) (s : t) : t :=
  mk (schema s) x (statement_timeout s).
  (* src: pg/settings.rs 71-75 PostgresOutboxSettings::statement_timeout *)
Definition with_statement_timeout (x : Duration) (s : t) : t :=
  mk (schema s) (enqueue_sets_search_path s) x.
End PostgresOutboxSettings.

Section from_env.
Context (env : Env) (prefix : string).

(* src: pg/settings.rs 102-109 env_raw *)
Definition pg_env_raw (suffix : string) : result (option string) SettingsError.t :=
  let key := prefix +:+ suffix in
  match env key with
  | Present value => Ok (Some value)
  | NotPresent => Ok None
  | NotUnicode => Err (SettingsError.parse key "a UTF-8 string")
  end.

(* src: pg/settings.rs 111-123 env_bool *)
Definition pg_env_bool (suffix : string) : result (option bool) SettingsError.t :=
  let? raw := pg_env_raw suffix in
  match raw with
  | None => Ok None
  | Some raw =>
      let v := to_ascii_lowercase (trim raw) in
      if bool_decide (v ∈ ["true"; "1"]) then Ok (Some true)
      else if bool_decide (v ∈ ["false"; "0"]) then Ok (Some false)
      else Err (SettingsError.parse (prefix +:+ suffix)
                  ("bool (" +:+ QUOTE +:+ "true" +:+ QUOTE +:+ "/" +:+ QUOTE +:+ "false" +:+ QUOTE
                   +:+ "/" +:+ QUOTE +:+ "1" +:+ QUOTE +:+ "/" +:+ QUOTE +:+ "0" +:+ QUOTE +:+ ")"))
  end.

(* src: pg/settings.rs 125-134 env_duration_ms *)
Definition pg_env_duration_ms (suffix : string) : result (option Duration) SettingsError.t :=
  let? raw := pg_env_raw suffix in
  match raw with
  | None => Ok None
  | Some raw => match parse_uint U64_MAX (trim raw) with
                | Some ms => Ok (Some (from_millis ms))
                | None => Err (SettingsError.parse (prefix +:+ suffix) "milliseconds")
                end
  end.

(* src: pg/settings.rs 85-99 PostgresOutboxSettings::from_env *)
Definition pg_from_env : result PostgresOutboxSettings.t SettingsError.t :=
  let s := PostgresOutboxSettings.default in
  let? v := pg_env_raw "SCHEMA" in
  let s := match v with Some v => PostgresOutboxSettings.with_schema v s | None => s end in
  let? v := pg_env_bool "ENQUEUE_SETS_SEARCH_PATH" in
  let s := match v with
           | Some v => PostgresOutboxSettings.with_enqueue_sets_search_path v s
           | None => s
           end in
  let? v := pg_env_duration_ms "STATEMENT_TIMEOUT_MS" in
  Ok (match v with Some v => PostgresOutboxSettings.with_statement_timeout v s | None => s end).
End from_env.
