(* ===== verification/PgRecords.v ===== *)
(** * Rows and their codec ([reliar-store-postgres], records.rs and [insert_row] of store.rs)

    A row as the queries return it ([RawRow]), the row an envelope is staged as
    ([staged_row]), and [decode_row].  [serde_json] and the [timestamptz] encoding of [sqlx]
    are third-party code ([PgTypes], with their documented behaviour in [PgTypesLaws]); a
    JSON column reads back the value that was written. *)

From S2P Require Import Prelude RustString RustFmt CoreTypes CoreHeaders CoreEnvelope CoreFmt OutboxTypes.


(** ** The remainder of the metadata *)

Module TraceRest.
  (* src: pg/records.rs 32-35 TraceRest *)
Record t := mk { traceparent : option string; tracestate : option string }.
Global Instance eq_dec : EqDecision t.
Proof. solve_decision. Defined.
End TraceRest.

Module RoutingRest.
  (* src: pg/records.rs 39-43 RoutingRest *)
Record t := mk { source : option string; destination : option string; reply_to : option string }.
Global Instance eq_dec : EqDecision t.
Proof. solve_decision. Defined.
End RoutingRest.

Module DeliveryRest.
  (* src: pg/records.rs 47-56 DeliveryRest *)
Record t := mk { sent_at_ms : option Z; deduplication_id : option string }.
Global Instance eq_dec : EqDecision t.
Proof. solve_decision. Defined.
End DeliveryRest.

Module MetadataRest.
  (* src: pg/records.rs 24-28 MetadataRest *)
Record t := mk { trace : TraceRest.t; routing : RoutingRest.t; delivery : DeliveryRest.t }.
  (* src: pg/records.rs 22-28 MetadataRest *)
Definition default : t :=
  mk (TraceRest.mk None None) (RoutingRest.mk None None None) (DeliveryRest.mk None None).
Global Instance eq_dec : EqDecision t.
Proof. solve_decision. Defined.
End MetadataRest.

(** [OffsetDateTime::unix_timestamp] floors, [millisecond] is then at least zero. *)
Definition unix_timestamp (t : OffsetDateTime) : Z := t / NANOS_PER_SEC.
Definition millisecond (t : OffsetDateTime) : Z := t mod NANOS_PER_SEC / 1000000.
Definition i64_checked (z : Z) : option Z :=
  if (I64_MIN <=? z) && (z <=? I64_MAX) then Some z else None.

(* src: pg/records.rs 61-71 encode_epoch_millis *)
Definition encode_epoch_millis (dt : OffsetDateTime) : Z :=
  let millis_of_second := millisecond dt in
  default (if unix_timestamp dt <? 0 then I64_MIN else I64_MAX)
    (ms ← i64_checked (unix_timestamp dt * 1000); i64_checked (ms + millis_of_second)).

(* src: pg/records.rs 76-78 decode_epoch_millis *)
Definition decode_epoch_millis `{TimeRange} (ms : Z) : option OffsetDateTime :=
  odt_checked (ms * 1000000).

(* src: pg/records.rs 82-82 METADATA_VERSION *)
Definition METADATA_VERSION : Z := 1.

(* src: pg/records.rs 127-135 decode_dead_reason *)
Definition decode_dead_reason (value : string) : option DeadReason :=
  if bool_decide (value = "permanent_error") then Some PermanentError
  else if bool_decide (value = "attempts_exhausted") then Some AttemptsExhausted
  else if bool_decide (value = "expired") then Some Expired
  else if bool_decide (value = "undecodable") then Some Undecodable
  else None.

(* src: pg/records.rs 147-155 encode_dead_reason *)
Definition encode_dead_reason (reason : DeadReason) : string :=
  match reason with
  | PermanentError => "permanent_error"
  | AttemptsExhausted => "attempts_exhausted"
  | Expired => "expired"
  | Undecodable => "undecodable"
  end.

(** The same text, loop and bounds as [truncate_error] of the outbox crate. *)
(* src: pg/records.rs 161-161 MAX_LAST_ERROR_LEN *)
Definition MAX_LAST_ERROR_LEN : nat := 2048.
(* src: pg/records.rs 168-181 truncate_last_error *)
Definition truncate_last_error (error : string) : string :=
  if (String.length error <=? MAX_LAST_ERROR_LEN)%nat then error
  else
    let budget := (MAX_LAST_ERROR_LEN - String.length TRUNCATION_MARKER)%nat in
    let end_ := boundary_below (Nat.min budget (String.length error)) error in
    str_take end_ error +:+ TRUNCATION_MARKER.

(** ** The third-party code *)

Class PgTypes := {
  (** [serde_json::Value]. *)
  Value : Type;
  (** The entries of a [Value::Object], in the order of its map. *)
  as_object : Value → option (list (string * Value));
  as_str : Value → option string;
  (** [Value::String], and [Value::Object] of the map collected from the pairs. *)
  json_string : string → Value;
  json_object : list (string * Value) → Value;
  (** [serde_json::to_value(&rest).ok()] and [from_value], with the text of its error. *)
  rest_to_value : MetadataRest.t → option Value;
  rest_from_value : Value → result MetadataRest.t string;
  (** The instant a [timestamptz] column holds for a bound value: microseconds. *)
  timestamptz : OffsetDateTime → OffsetDateTime;
  (** The tables behind the escapes of the texts [decode_row] quotes. *)
  pg_unicode :: Unicode;
}.

Class PgTypesLaws `{PgTypes} := {
  as_str_json s : as_str (json_string s) = Some s;
  as_object_json l : NoDup l.*1 → ∃ l', as_object (json_object l) = Some l' ∧ l' ≡ₚ l;
  rest_value r : ∃ v, rest_to_value r = Some v ∧ rest_from_value v = Ok r;
}.

(** ** Rows *)

Section rows.
Context `{PgTypes} `{TimeRange}.

(* src: pg/records.rs 87-113 RawRow *)
Record RawRow := mkRaw {
  r_id : Uuid;
  r_sequence : Z;
  r_message_type : string;
  r_message_version : Z;
  r_correlation_id : option string;
  r_conversation_id : Uuid;
  r_causation_id : option Uuid;
  r_request_id : option Uuid;
  r_content_type : string;
  r_payload : Bytes;
  r_tenant_id : option string;
  r_expires_at : option OffsetDateTime;
  r_ordering_key : option string;
  r_metadata : option Value;
  r_headers : option Value;
  r_metadata_version : Z;
  r_created_at : OffsetDateTime;
  r_available_at : OffsetDateTime;
  r_attempts : Z;
  r_locked_by : option string;
  r_locked_until : option OffsetDateTime;
  r_published_at : option OffsetDateTime;
  r_dead_at : option OffsetDateTime;
  r_dead_reason : option string;
  r_last_error : option string;
}.

(* src: pg/records.rs 118-122 RowError *)
Record RowError := mkRowError { re_id : MessageId.t; re_sequence : Z; re_detail : string }.

(** ** Staging *)

(* src: pg/store.rs 33-37 EnqueueOptions *)
Record EnqueueOptions := mkEnqueueOptions { eo_ordering_key : option string }.
Definition EnqueueOptions_default : EnqueueOptions := mkEnqueueOptions None.

(* src: pg/store.rs 358-393 insert_row *)
Definition metadata_rest {T} (e : Envelope.t T) : MetadataRest.t :=
  let md := Envelope.metadata e in
  let r := Metadata.routing md in
  let d := Metadata.delivery md in
  MetadataRest.mk
    (TraceRest.mk (TraceContext.traceparent (Metadata.trace md))
       (TraceContext.tracestate (Metadata.trace md)))
    (RoutingRest.mk (EndpointAddress.as_str <$> RoutingMetadata.source r)
       (EndpointAddress.as_str <$> RoutingMetadata.destination r)
       (EndpointAddress.as_str <$> RoutingMetadata.reply_to r))
    (DeliveryRest.mk (encode_epoch_millis <$> DeliveryMetadata.sent_at d)
       (DeliveryMetadata.deduplication_id d)).

(** An empty remainder is SQL [NULL]. *)
(* src: pg/store.rs 394-413 insert_row *)
Definition metadata_json (rest : MetadataRest.t) : option Value :=
  match rest with
  | MetadataRest.mk (TraceRest.mk None None) (RoutingRest.mk None None None)
      (DeliveryRest.mk None None) => None
  | _ => rest_to_value rest
  end.

(* src: pg/store.rs 415-421 insert_row *)
Definition headers_json (h : option Headers.t) : option Value :=
  match h with
  | Some h => if Headers.is_empty h then None
              else Some (json_object ((λ p, (p.1, json_string p.2)) <$> map_to_list h))
  | None => None
  end.

(** The row the [INSERT] writes at [now], with the column defaults of the schema; the
    identity column gives the sequence. *)
(* src: pg/store.rs 351-450 insert_row *)
Definition staged_row {T} (e : Envelope.t T) (payload : Bytes) (content_type : ContentType.t)
    (options : EnqueueOptions) (sequence : Z) (now : OffsetDateTime) : RawRow :=
  let md := Envelope.metadata e in
  let corr := Metadata.correlation md in
  mkRaw (MessageId.as_uuid (Envelope.id e)) sequence
    (MessageType.name (Envelope.message_type e)) (MessageType.version (Envelope.message_type e))
    (CorrelationId.as_str <$> CorrelationMetadata.correlation_id corr)
    (ConversationId.as_uuid (CorrelationMetadata.conversation_id corr))
    (MessageId.as_uuid <$> CorrelationMetadata.causation_id corr)
    (RequestId.as_uuid <$> CorrelationMetadata.request_id corr)
    (ContentType.as_str content_type) payload (Metadata.tenant_id md)
    (timestamptz <$> DeliveryMetadata.expires_at (Metadata.delivery md))
    (eo_ordering_key options)
    (metadata_json (metadata_rest e)) (headers_json (Envelope.headers e))
    1 now now 0 None None None None None None.

(** ** Decoding *)

Definition display_int (z : Z) : string :=
  if z <? 0 then "-" +:+ display_uint (- z) else display_uint z.

(** The loop over the entries of the headers object. *)
(* src: pg/records.rs 275-283 decode_row *)
Fixpoint decode_headers (entries : list (string * Value)) (headers : Headers.t)
  : result Headers.t string :=
  match entries with
  | [] => Ok headers
  | (key, value) :: entries' =>
      match as_str value with
      | None => Err ("header " +:+ str_debug key +:+ " is not a JSON string")
      | Some value =>
          match Headers.insert headers key value with
          | (headers, Ok _) => decode_headers entries' headers
          | (_, Err err) => Err ("invalid header " +:+ str_debug key +:+ ": " +:+ HeaderError_display err)
          end
      end
  end.

(** [.map(parse).transpose().map_err(|err| fail(format!(..)))]. *)
Definition parse_opt {A E} (what : string) (text : E → string) (parse : string → result A E)
    (o : option string) : result (option A) string :=
  map_err (λ err, "invalid " +:+ what +:+ ": " +:+ text err) (option_traverse parse o).

(** The envelope of a row, or the detail of the [RowError]. *)
(* src: pg/records.rs 200-291 decode_row *)
Definition decode_envelope (row : RawRow) : result SerializedEnvelope string :=
  if negb (r_metadata_version row =? METADATA_VERSION)
  then Err ("unknown metadata_version " +:+ display_int (r_metadata_version row))
  else
    let? message_version :=
      if (0 <=? r_message_version row) && (r_message_version row <=? U16_MAX)
      then Ok (r_message_version row)
      else Err ("message_version " +:+ display_int (r_message_version row) +:+ " out of range for u16") in
    let message_type := MessageType.from_parts (r_message_type row) message_version in
    let? rest :=
      match r_metadata row with
      | Some value => map_err (λ err, "malformed metadata: " +:+ err) (rest_from_value value)
      | None => Ok MetadataRest.default
      end in
    let? correlation_id :=
      parse_opt "correlation_id" IdError_display CorrelationId.parse (r_correlation_id row) in
    let? content_type :=
      map_err (λ err, "invalid content_type: " +:+ ContentTypeError_display err)
        (ContentType.parse (r_content_type row)) in
    let routing := MetadataRest.routing rest in
    let? source :=
      parse_opt "routing.source" IdError_display EndpointAddress.parse (RoutingRest.source routing) in
    let? destination :=
      parse_opt "routing.destination" IdError_display EndpointAddress.parse
        (RoutingRest.destination routing) in
    let? reply_to :=
      parse_opt "routing.reply_to" IdError_display EndpointAddress.parse (RoutingRest.reply_to routing) in
    let delivery := MetadataRest.delivery rest in
    let? sent_at :=
      option_traverse (λ ms, match decode_epoch_millis ms with
                             | Some t => Ok t
                             | None => Err ("sent_at_ms " +:+ display_int ms +:+ " out of range")
                             end) (DeliveryRest.sent_at_ms delivery) in
    let metadata :=
      Metadata.mk
        (CorrelationMetadata.mk correlation_id (ConversationId.from_uuid (r_conversation_id row))
           (MessageId.from_uuid <$> r_causation_id row) (RequestId.from_uuid <$> r_request_id row))
        (TraceContext.mk (TraceRest.traceparent (MetadataRest.trace rest))
           (TraceRest.tracestate (MetadataRest.trace rest)))
        (RoutingMetadata.mk source destination reply_to)
        (DeliveryMetadata.mk content_type sent_at (r_expires_at row)
           (DeliveryRest.deduplication_id delivery))
        (r_tenant_id row) in
    let? headers :=
      match r_headers row with
      | None => Ok None
      | Some value =>
          match as_object value with
          | Some map => let? h := decode_headers map ∅ in Ok (Some h)
          | None => Err "headers column is not a JSON object"
          end
      end in
    Ok (from_parts (MessageId.from_uuid (r_id row)) message_type (r_payload row) metadata headers).

(* src: pg/records.rs 192-321 decode_row *)
Definition decode_row (row : RawRow) : result OutboxRecord.t RowError :=
  map_err (mkRowError (MessageId.from_uuid (r_id row)) (r_sequence row))
    (let? envelope := decode_envelope row in
     let? dead_reason :=
       option_traverse (λ value, match decode_dead_reason value with
                                 | Some reason => Ok reason
                                 | None => Err ("unknown dead_reason " +:+ str_debug value)
                                 end) (r_dead_reason row) in
     let? locked_by := parse_opt "locked_by" IdError_display WorkerId.parse (r_locked_by row) in
     let? attempts :=
       if (0 <=? r_attempts row) && (r_attempts row <=? U32_MAX) then Ok (r_attempts row)
       else Err ("attempts " +:+ display_int (r_attempts row) +:+ " out of range for u32") in
     let r := OutboxRecord.builder envelope (r_sequence row) (r_created_at row) in
     let r := OutboxRecord.with_ordering_key (r_ordering_key row) r in
     let r := OutboxRecord.with_attempts attempts r in
     let r := OutboxRecord.with_available_at (r_available_at row) r in
     let r := OutboxRecord.with_lease locked_by (r_locked_until row) r in
     let r := OutboxRecord.with_published_at (r_published_at row) r in
     let r := OutboxRecord.with_dead (r_dead_at row) dead_reason r in
     Ok (OutboxRecord.with_last_error (r_last_error row) r)).
End rows.
