(* ===== verification/PgRoundtrip.v ===== *)
(** * A staged envelope is claimed as it was ([reliar-store-postgres], records.rs, store.rs)

    [decode_row] reads the row [insert_row] staged back to the envelope, up to what the
    columns do not hold: [sent_at] below the millisecond, [expires_at] below the precision of
    [timestamptz], and an empty header map, which is absent. *)

From S2P Require Import Prelude RustString RustFmt CoreTypes CoreHeaders CoreEnvelope CoreFmt OutboxTypes PgRecords.

(** ** The codecs *)

(** Every instant of the time crate, in milliseconds, is an [i64] with a second to spare. *)
Class MillisFit `{TimeRange} := {
  millis_min : I64_MIN * 1000000 + NANOS_PER_SEC ≤ odt_min;
  millis_max : odt_max ≤ I64_MAX * 1000000;
  millis_aligned : odt_min mod 1000000 = 0;
}.

Lemma encode_epoch_millis_floor `{MillisFit} t :
  odt_valid t → encode_epoch_millis t = t / 1000000.
Proof.
  intros [Hmin Hmax]. pose proof millis_min. pose proof millis_max.
  unfold encode_epoch_millis, unix_timestamp, millisecond, i64_checked in *.
  unfold NANOS_PER_SEC, I64_MIN, I64_MAX in *.
  assert (Ht : t / 1000000000 * 1000 + t mod 1000000000 / 1000000 = t / 1000000).
  { Z.to_euclidean_division_equations. lia. }
  assert (Hlo : -9223372036854775808 ≤ t / 1000000000 * 1000 ≤ 9223372036854775807).
  { Z.to_euclidean_division_equations. lia. }
  rewrite (proj2 (Z.leb_le _ _)), (proj2 (Z.leb_le _ _)) by lia. cbn.
  rewrite Ht. rewrite (proj2 (Z.leb_le _ _)), (proj2 (Z.leb_le _ _))
    by (Z.to_euclidean_division_equations; lia).
  done.
Qed.

(** The instant at the start of its millisecond. *)
Definition floor_millis (t : OffsetDateTime) : OffsetDateTime := t / 1000000 * 1000000.

Lemma decode_encode_epoch_millis `{MillisFit} t :
  odt_valid t → decode_epoch_millis (encode_epoch_millis t) = Some (floor_millis t).
Proof.
  intros Ht. rewrite encode_epoch_millis_floor by done. unfold decode_epoch_millis.
  apply odt_checked_Some. split; [done|]. destruct Ht as [Hmin Hmax].
  pose proof millis_aligned. unfold odt_valid. split; [|Z.to_euclidean_division_equations; lia].
  rewrite (Z.div_mod odt_min 1000000) by done. rewrite H1, Z.add_0_r, Z.mul_comm.
  apply Z.mul_le_mono_nonneg_r; [done|]. by apply Z.div_le_mono.
Qed.

Lemma dead_reason_roundtrip r : decode_dead_reason (encode_dead_reason r) = Some r.
Proof. by destruct r. Qed.

Lemma encode_dead_reason_inj r s : encode_dead_reason r = encode_dead_reason s → r = s.
Proof. intros Heq. apply (f_equal decode_dead_reason) in Heq. rewrite !dead_reason_roundtrip in Heq. by injection Heq. Qed.

Lemma truncate_last_error_eq s : truncate_last_error s = truncate_error s.
Proof. reflexivity. Qed.

(** ** The headers column *)

Section roundtrip.
Context `{PgTypesLaws} `{MillisFit}.

Lemma decode_headers_spec (l : list (string * string)) (h : Headers.t) :
  NoDup l.*1 → Forall (λ p, Headers.entry_ok p.1 p.2) l → (∀ k, k ∈ l.*1 → h !! k = None) →
  (length l + size h ≤ Headers.MAX_COUNT)%nat →
  decode_headers ((λ p, (p.1, json_string p.2)) <$> l) h = Ok (list_to_map l ∪ h).
Proof.
  revert h; induction l as [|[k v] l IH]; intros h; cbn.
  { intros _ _ _ _. by rewrite (left_id_L ∅ (∪)). }
  intros [Hk Hnd]%NoDup_cons [Hkv Hl]%Forall_cons Hh Hsize. rewrite as_str_json.
  assert (Hkn : h !! k = None) by (apply Hh; by left).
  assert (Hins : Headers.insert h k v = (<[k := v]> h, Ok (h !! k))).
  { apply headers_insert_Ok. split_and!; try done. intros _. lia. }
  rewrite Hins. rewrite IH; [|done|done| |].
  - f_equal. by apply insert_list_to_map_union.
  - intros k' Hk'. rewrite lookup_insert_ne by (by intros ->). apply Hh. by right.
  - rewrite map_size_insert_None by done. lia.
Qed.

Lemma headers_column (h : option Headers.t) :
  Headers.wf (default ∅ h) →
  match headers_json h with
  | None => default ∅ h = ∅
  | Some v => ∃ l, as_object v = Some l ∧ default ∅ h ≠ ∅ ∧ decode_headers l ∅ = Ok (default ∅ h)
  end.
Proof.
  destruct h as [h|]; [|done]. cbn. unfold Headers.is_empty. intros [Hok Hsize].
  case_bool_decide as Hempty; [done|].
  destruct (as_object_json ((λ p, (p.1, json_string p.2)) <$> map_to_list h)) as (l & Hl & Hp).
  { rewrite <-list_fmap_compose. apply NoDup_fst_map_to_list. }
  exists l. split; [done|]. split; [done|].
  symmetry in Hp. apply Permutation_sym, Permutation_map_inv in Hp as (l0 & -> & Hp0).
  assert (Hnd : NoDup l0.*1) by (rewrite <-Hp0; apply NoDup_fst_map_to_list).
  change (map _ l0) with ((λ p, (p.1, json_string p.2)) <$> l0 : list (string * Value)).
  rewrite decode_headers_spec; [| done | | done |].
  - f_equal. rewrite (right_id_L ∅ (∪)), <-(list_to_map_to_list h).
    apply list_to_map_proper; [done|by symmetry].
  - rewrite <-Hp0. apply Forall_forall. intros [k v] Hin%elem_of_map_to_list. by apply Hok.
  - rewrite <-Hp0, length_map_to_list, map_size_empty. lia.
Qed.

Lemma headers_column_back (h : option Headers.t) :
  Headers.wf (default ∅ h) →
  match headers_json h with
  | None => Ok None
  | Some value =>
      match as_object value with
      | Some map => let? h := decode_headers map ∅ in Ok (Some h)
      | None => Err "headers column is not a JSON object"
      end
  end = Ok (if bool_decide (default ∅ h = ∅) then None else Some (default ∅ h)).
Proof.
  intros Hh%headers_column. destruct (headers_json h) as [v|].
  - destruct Hh as (l & -> & Hne & ->). by rewrite bool_decide_eq_false_2.
  - by rewrite bool_decide_eq_true_2.
Qed.

(** ** The envelope *)

(** The content type and the [sent_at] of a staged envelope are ones the crates accept. *)
Record stageable {T} (e : Envelope.t T) (content_type : ContentType.t) : Prop := {
  st_wf : wf_envelope e;
  st_content_type : ContentType.parse (ContentType.as_str content_type) = Ok content_type;
  st_sent_at t : DeliveryMetadata.sent_at (Metadata.delivery (Envelope.metadata e)) = Some t →
    odt_valid t;
}.

(** What a worker gets of it. *)
Definition stored_envelope {T} (e : Envelope.t T) (payload : Bytes) (content_type : ContentType.t)
  : SerializedEnvelope :=
  let md := Envelope.metadata e in
  let d := Metadata.delivery md in
  let h := default ∅ (Envelope.headers e) in
  Envelope.mk (Envelope.id e) (Envelope.message_type e) payload
    (Metadata.set_delivery
       (DeliveryMetadata.mk content_type (floor_millis <$> DeliveryMetadata.sent_at d)
          (timestamptz <$> DeliveryMetadata.expires_at d) (DeliveryMetadata.deduplication_id d)) md)
    (if bool_decide (h = ∅) then None else Some h).

Lemma parse_opt_back {A E} what text (parse : string → result A E) (show : A → string) (o : option A) :
  (∀ a, o = Some a → parse (show a) = Ok a) → parse_opt what text parse (show <$> o) = Ok o.
Proof. intros Hp. unfold parse_opt. destruct o as [a|]; cbn; [by rewrite Hp|done]. Qed.

Lemma metadata_column rest :
  match metadata_json rest with
  | None => rest = MetadataRest.default
  | Some v => rest_from_value v = Ok rest
  end.
Proof.
  destruct (rest_value rest) as (v & Hv & Hback).
  destruct rest as [[tp ts] [src dst rep] [sent dedup]].
  assert (Hgen : metadata_json (MetadataRest.mk (TraceRest.mk tp ts) (RoutingRest.mk src dst rep)
      (DeliveryRest.mk sent dedup)) = Some v
    ∨ metadata_json (MetadataRest.mk (TraceRest.mk tp ts) (RoutingRest.mk src dst rep)
      (DeliveryRest.mk sent dedup)) = None ∧ MetadataRest.mk (TraceRest.mk tp ts)
      (RoutingRest.mk src dst rep) (DeliveryRest.mk sent dedup) = MetadataRest.default).
  { destruct tp, ts, src, dst, rep, sent, dedup; cbn; auto. }
  destruct Hgen as [->|[-> Hd]]; [exact Hback|exact Hd].
Qed.

Local Arguments metadata_json : simpl never.
Local Arguments metadata_rest : simpl never.
Local Arguments headers_json : simpl never.
Local Arguments MetadataRest.default : simpl never.
Local Arguments encode_epoch_millis : simpl never.

(** The remainder and the promoted columns give the metadata back. *)
Lemma decode_envelope_staged {T} (e : Envelope.t T) payload ct options seq now :
  stageable e ct →
  decode_envelope (staged_row e payload ct options seq now) = Ok (stored_envelope e payload ct).
Proof.
  intros [[Hh Hv _ Hcor Hend] Hct Hsent]. unfold decode_envelope, staged_row. cbn.
  destruct Hv as [Hv1 Hv2]. rewrite (proj2 (Z.leb_le _ _) Hv1), (proj2 (Z.leb_le _ _) Hv2).
  cbn.
  assert (Hrest : match metadata_json (metadata_rest e) with
                  | Some value => map_err (λ err, "malformed metadata: " +:+ err) (rest_from_value value)
                  | None => Ok MetadataRest.default
                  end = Ok (metadata_rest e)).
  { pose proof (metadata_column (metadata_rest e)) as Hm. destruct (metadata_json _).
    - by rewrite Hm.
    - by rewrite <-Hm. }
  rewrite Hrest. cbn. rewrite (parse_opt_back _ _ _ CorrelationId.as_str) by done. cbn.
  rewrite Hct. unfold metadata_rest. cbn. rewrite !(parse_opt_back _ _ _ EndpointAddress.as_str) by (intros; apply Hend; auto).
  cbn.
  assert (Hs : option_traverse (λ ms, match decode_epoch_millis ms with
      | Some t => Ok t | None => Err ("sent_at_ms " +:+ display_int ms +:+ " out of range") end)
      (encode_epoch_millis <$> DeliveryMetadata.sent_at (Metadata.delivery (Envelope.metadata e)))
    = Ok (floor_millis <$> DeliveryMetadata.sent_at (Metadata.delivery (Envelope.metadata e)))).
  { destruct (DeliveryMetadata.sent_at _) as [t|]; [|done]. cbn.
    by rewrite decode_encode_epoch_millis by auto. }
  rewrite Hs. cbn.
  rewrite (headers_column_back _ Hh). cbn. clear. unfold stored_envelope.
  destruct e as [[i] [n v] body [[cor [conv] cau req] [tp ts] [src dst rep] d ten] h]. cbn.
  by destruct cau as [[]|], req as [[]|].
Qed.

(** C25 [roundtrip] A message is claimed as it was staged: [decode_row] accepts the row that
    enqueueing an envelope writes, whatever the envelope, and yields a pending, unlocked
    record of zero attempts, available from the moment it was staged, with the ordering key
    it was given and the very envelope - id, type, body, correlation, trace, routing, tenant
    and headers - except that [sent_at] is cut to its millisecond, [expires_at] to the
    precision of [timestamptz], the content type is the one it was staged under, and an
    empty header map is absent. *)
Theorem staged_row_decodes {T} (e : Envelope.t T) (payload : Bytes) (ct : ContentType.t)
    (options : EnqueueOptions) (seq : Z) (now : OffsetDateTime) (He : stageable e ct) :
  decode_row (staged_row e payload ct options seq now)
  = Ok (OutboxRecord.mk (stored_envelope e payload ct) seq now (eo_ordering_key options) 0 now
          None None None None None None).
Proof. unfold decode_row. by rewrite decode_envelope_staged. Qed.
End roundtrip.

(** ** A concrete JSON *)

(** Values are written as what they hold; a [timestamptz] holds microseconds. *)
Inductive json :=
  | JString (s : string)
  | JObject (l : list (string * json))
  | JRest (r : MetadataRest.t).

Definition plain_json : PgTypes := {|
  Value := json;
  as_object v := match v with JObject l => Some l | _ => None end;
  as_str v := match v with JString s => Some s | _ => None end;
  json_string := JString;
  json_object := JObject;
  rest_to_value r := Some (JRest r);
  rest_from_value v := match v with JRest r => Ok r | _ => Err "expected a remainder" end;
  timestamptz t := t / 1000 * 1000;
  pg_unicode := latin;
|}.

Lemma plain_json_laws : PgTypesLaws (H := plain_json).
Proof.
  split; cbn; [done| |].
  - intros l _. by exists l.
  - intros r. by exists (JRest r).
Qed.

Lemma default_millis_fit : MillisFit (H := default_time_range).
Proof. split; vm_compute; [discriminate..|reflexivity]. Qed.

(** An expiring order with a header, sent before 1970. *)
Definition dated_order : SerializedEnvelope :=
  Envelope.mk (MessageId.from_uuid 7) (MessageType.from_parts "orders.placed" 3) [Byte.x01]
    (Metadata.mk CorrelationMetadata.default (TraceContext.mk (Some "00-a-b-01") None)
       RoutingMetadata.default
       (DeliveryMetadata.mk ContentType.JSON (Some (-1500001)) (Some 1234567) None) (Some "t"))
    (Some {["x-shop" := "1"]}).

Lemma dated_order_stageable :
  stageable (H1 := default_time_range) dated_order ContentType.JSON.
Proof.
  split; [|reflexivity|intros t [= <-]; split; vm_compute; discriminate].
  split; [refine (bool_decide_unpack _ _); vm_compute; exact I|split; vm_compute; discriminate
    |vm_compute; reflexivity|intros c [=]|intros a [[=]|[[=]|[=]]]].
Qed.

Lemma staged_row_decodes_witness :
  ∃ r, decode_row (H := plain_json) (H0 := default_time_range)
         (staged_row (H := plain_json) dated_order [Byte.x01] ContentType.JSON EnqueueOptions_default 4 9)
       = Ok r
    ∧ DeliveryMetadata.sent_at (Metadata.delivery (Envelope.metadata (OutboxRecord.envelope r)))
      = Some (-2000000)
    ∧ OutboxRecord.expires_at r = Some 1234000.
Proof.
  eexists. split; [|split].
  - apply (staged_row_decodes (H0 := plain_json_laws) (H2 := default_millis_fit)).
    exact dated_order_stageable.
  - vm_compute. reflexivity.
  - vm_compute. reflexivity.
Defined.
