(* ===== verification/EndToEnd.v ===== *)
(** * From the application to the subscriber ([reliar-core], [reliar-store-postgres],
    [reliar-transport-nats])

    The decoders of the wire and of the table make only envelopes the constructors of
    [reliar-core] could have made, so whatever one boundary reads the next can take; and what
    is staged in Postgres and published over NATS is what a subscriber decodes, up to the
    documented normalisations of the two. *)

From S2P Require Import Prelude RustString RustFmt CoreTypes CoreHeaders CoreEnvelope CoreFmt CoreSerde OutboxTypes NatsSubject NatsMapper NatsRoundtrip NatsSettings NatsPublisher PgRecords PgRoundtrip.

(** ** Parsers keep what they accept *)

Lemma option_traverse_Some {A B E} (f : A → result B E) (o : option A) b :
  option_traverse f o = Ok (Some b) → ∃ a, o = Some a ∧ f a = Ok b.
Proof.
  destruct o as [a|]; cbn; [|done]. destruct (f a) eqn:Ef; cbn; [|done]. intros [= <-]. eauto.
Qed.

Lemma correlation_reparse s c :
  CorrelationId.parse s = Ok c → CorrelationId.parse (CorrelationId.as_str c) = Ok c.
Proof. intros Hp. by rewrite (correlation_id_text _ _ Hp). Qed.
Lemma endpoint_reparse s a :
  EndpointAddress.parse s = Ok a → EndpointAddress.parse (EndpointAddress.as_str a) = Ok a.
Proof. intros Hp. by rewrite (endpoint_text _ _ Hp). Qed.
Lemma content_type_reparse s c :
  CoreTypes.ContentType.parse s = Ok c → CoreTypes.ContentType.parse (CoreTypes.ContentType.as_str c) = Ok c.
Proof. intros Hp. by rewrite (content_type_text _ _ Hp). Qed.
#[local] Hint Resolve correlation_reparse endpoint_reparse content_type_reparse : core.

(** ** The wire *)

Section wire.
Context `{NatsLib}.

Lemma scan_entry_wf s n vs s' :
  scan_entry s n vs = Ok s' → Headers.wf (default ∅ (custom s)) → Headers.wf (default ∅ (custom s')).
Proof.
  unfold scan_entry. destruct (classify_header n).
  1-17: unfold assign_once; repeat case_match; try done; by intros [= <-].
  1-2: by intros [= <-].
  destruct (Headers.insert _ _ _) as [h [old|err]] eqn:Ei; [|done]. intros [= <-] Hwf. cbn.
  pose proof (headers_insert_wf _ n (default EmptyString (head vs)) Hwf) as Hi. by rewrite Ei in Hi.
Qed.

Lemma scan_entries_wf l s s' :
  scan_entries l s = Ok s' → Headers.wf (default ∅ (custom s)) → Headers.wf (default ∅ (custom s')).
Proof.
  revert s; induction l as [|[n vs] l IH]; intros s; cbn [scan_entries]; [by intros [= <-]|].
  intros (s1 & H1 & Hrest)%result_bind_Ok Hwf. eapply IH; [exact Hrest|]. by eapply scan_entry_wf.
Qed.

Lemma ok_or_Ok {A E} (o : option A) (err : E) a : ok_or o err = Ok a → o = Some a.
Proof. destruct o; [by intros [= <-]|done]. Qed.
Lemma to_option_Some {A E} (r : result A E) a : to_option r = Some a → r = Ok a.
Proof. destruct r; [by intros [= <-]|done]. Qed.

Lemma parsed_result {A E} s h (parse : string → result A E) o a :
  parsed s h (λ raw, to_option (parse raw)) = Ok o → o = Some a → ∃ raw, parse raw = Ok a.
Proof.
  unfold parsed. intros Hp ->. apply option_traverse_Some in Hp as (raw & _ & Hr).
  exists raw. by apply ok_or_Ok, to_option_Some in Hr.
Qed.

Lemma parse_identity_valid s id raw ty ct :
  parse_identity s = Ok (id, raw, ty, ct) →
  CoreTypes.MessageType.valid ty ∧ CoreTypes.MessageType.name ty ≠ ""
  ∧ CoreTypes.ContentType.parse (CoreTypes.ContentType.as_str ct) = Ok ct.
Proof.
  unfold parse_identity. intros Hp.
  do 4 apply result_bind_Ok in Hp as (? & _ & Hp). apply result_bind_Ok in Hp as (? & _ & Hp).
  apply result_bind_Ok in Hp as (version & Hv & Hp).
  destruct (is_empty _) eqn:Hemp; [done|].
  apply result_bind_Ok in Hp as (c & Hc & Hp). injection Hp as <- <- <- <-.
  apply ok_or_Ok, parse_uint_range in Hv. apply map_err_Ok in Hc. split_and!.
  - exact Hv.
  - cbn. by intros ->.
  - by eapply content_type_reparse.
Qed.

Lemma parse_metadata_wf s raw md c :
  parse_metadata s raw = Ok (md, c) →
  correlation_wf (Metadata.correlation md) ∧ routing_wf (Metadata.routing md) ∧ c = custom s.
Proof.
  unfold parse_metadata. intros Hp.
  repeat (apply result_bind_Ok in Hp; let x := fresh "x" in let E := fresh "E" in
          destruct Hp as (x & E & Hp)).
  injection Hp as <- <-. unfold routing_wf. split_and!; [| | | |done]; intros a; cbn; intros Ha.
  all: match goal with
       | E : parsed _ _ (λ raw, to_option (_ raw)) = Ok ?o, Ha : ?o = Some _ |- _ =>
           destruct (parsed_result _ _ _ _ _ E Ha) as [? ?]; by eauto
       end.
Qed.

(** Whatever comes over the wire. *)
Lemma decode_valid (m : NatsWireMessage) e : NatsMapper.decode m = Ok e → valid_envelope e.
Proof.
  unfold NatsMapper.decode, scan, into_envelope. intros (s & Hs & Hp)%result_bind_Ok.
  apply scan_entries_wf in Hs as Hh; [|by apply (bool_decide_unpack _)].
  apply result_bind_Ok in Hp as ([[[id raw] ty] ct] & Hi & Hp).
  apply result_bind_Ok in Hp as ([md c] & Hm & Hp). injection Hp as <-.
  destruct (parse_identity_valid _ _ _ _ _ Hi) as (Hty & Hname & Hct).
  destruct (parse_metadata_wf _ _ _ _ Hm) as (Hcor & (Hsrc & Hdst & Hrep) & ->).
  split; [|exact Hname]. split; cbn; [exact Hh|exact Hty|exact Hct|exact Hcor|].
  intros a [Ha|[Ha|Ha]]; auto.
Qed.
End wire.

(** ** The table *)

Section table.
Context `{PgTypes} `{TimeRange}.

Lemma decode_headers_wf l h h' : decode_headers l h = Ok h' → Headers.wf h → Headers.wf h'.
Proof.
  revert h; induction l as [|[k v] l IH]; intros h; cbn [decode_headers]; [by intros [= <-]|].
  destruct (as_str v) as [s|]; [|done].
  destruct (Headers.insert h k s) as [h1 [old|err]] eqn:Ei; [|done]. intros Hd Hwf.
  eapply IH; [exact Hd|]. pose proof (headers_insert_wf h k s Hwf) as Hi. by rewrite Ei in Hi.
Qed.

Lemma parse_opt_Some {A E} what (text : E → string) parse o (a : A) :
  parse_opt what text parse o = Ok (Some a) → ∃ s, parse s = Ok a.
Proof. unfold parse_opt. intros (s & _ & Hs)%map_err_Ok%option_traverse_Some. by exists s. Qed.

Definition content_type_of (e : SerializedEnvelope) : ContentType.t :=
  DeliveryMetadata.content_type (Metadata.delivery (Envelope.metadata e)).

(** Whatever is in the columns. *)
Lemma decode_envelope_stageable row e : decode_envelope row = Ok e → stageable e (content_type_of e).
Proof.
  unfold decode_envelope. destruct (negb _); [done|]. intros Hp.
  repeat (apply result_bind_Ok in Hp; let x := fresh "x" in let E := fresh "E" in
          destruct Hp as (x & E & Hp)).
  injection Hp as <-. apply map_err_Ok in E2 as Hct. split; [split|..]; cbn.
  - destruct (r_headers row) as [v|]; [|injection E7 as <-; by apply (bool_decide_unpack _)].
    destruct (as_object v) as [l|]; [|done].
    apply result_bind_Ok in E7 as (h & Hh & [= <-]). cbn.
    eapply decode_headers_wf; [exact Hh|by apply (bool_decide_unpack _)].
  - destruct (_ && _) eqn:Hv in E; [|done]. injection E as <-.
    apply andb_true_iff in Hv as [Hlo Hhi]. split; cbn; lia.
  - by eauto.
  - intros c ->. apply parse_opt_Some in E1 as [? ?]. by eauto.
  - intros a [Ha|[Ha|Ha]]; subst;
      match goal with E : parse_opt _ _ EndpointAddress.parse _ = Ok (Some a) |- _ =>
        apply parse_opt_Some in E as [? ?] end; by eauto.
  - by eauto.
  - intros t ->. apply option_traverse_Some in E6 as (ms & _ & Hms).
    destruct (decode_epoch_millis ms) as [t'|] eqn:Et; [|done]. injection Hms as <-.
    by apply odt_checked_Some in Et as [-> ?].
Qed.
End table.

(** ** Properties *)

Section properties.
Context `{PgTypesLaws} `{MillisFit} `{NatsLibLaws}.


(** What a subscriber gets of a staged envelope. *)
Definition received {T} (e : Envelope.t T) (payload : Bytes) (ct : ContentType.t) : SerializedEnvelope :=
  normalise (stored_envelope e payload ct).

End properties.

(** ** A dated order, from the table to the stream *)

#[local] Existing Instances plain_json plain_json_laws default_time_range default_millis_fit.

Definition dated_row : RawRow := staged_row dated_order [Byte.x01] ContentType.JSON EnqueueOptions_default 4 9.


