(* ===== verification/PgTable.v ===== *)
(** * The outbox table and its statements ([reliar-store-postgres], store.rs, 0001_outbox.sql)

    Each SQL statement of the provider as a function of the transaction's [now()], the rows
    other transactions hold locked, and the table.  What Postgres leaves open - the rows an
    unordered [LIMIT] keeps, the order of [RETURNING], which of several matching [FROM] rows
    an [UPDATE] uses - and its interval arithmetic are parameters ([Postgres]) with their
    documented behaviour ([PostgresLaws]).  Every statement that writes ends in [write], which
    enforces the constraints of the schema: a [Db] is a table that satisfies them. *)

From S2P Require Import Prelude RustString CoreTypes CoreHeaders CoreEnvelope OutboxTypes PgErrors PgRecords.

Definition I32_MAX : Z := 2147483647.

Section table.
Context `{PgTypes}.

(** A row of the table: what the queries read, and [updated_at], which none does. *)
Record Row := mkRow { raw : RawRow; updated_at : OffsetDateTime }.

(** ** Columns *)

Definition row_id (r : Row) : Uuid := r_id (raw r).
Definition row_sequence (r : Row) : Z := r_sequence (raw r).

Definition set_lease (by_ : option string) (until : option OffsetDateTime) (r : RawRow) : RawRow :=
  mkRaw (r_id r) (r_sequence r) (r_message_type r) (r_message_version r) (r_correlation_id r)
    (r_conversation_id r) (r_causation_id r) (r_request_id r) (r_content_type r) (r_payload r)
    (r_tenant_id r) (r_expires_at r) (r_ordering_key r) (r_metadata r) (r_headers r)
    (r_metadata_version r) (r_created_at r) (r_available_at r) (r_attempts r) by_ until
    (r_published_at r) (r_dead_at r) (r_dead_reason r) (r_last_error r).
Definition set_available_at (x : OffsetDateTime) (r : RawRow) : RawRow :=
  mkRaw (r_id r) (r_sequence r) (r_message_type r) (r_message_version r) (r_correlation_id r)
    (r_conversation_id r) (r_causation_id r) (r_request_id r) (r_content_type r) (r_payload r)
    (r_tenant_id r) (r_expires_at r) (r_ordering_key r) (r_metadata r) (r_headers r)
    (r_metadata_version r) (r_created_at r) x (r_attempts r) (r_locked_by r) (r_locked_until r)
    (r_published_at r) (r_dead_at r) (r_dead_reason r) (r_last_error r).
Definition set_attempts (x : Z) (r : RawRow) : RawRow :=
  mkRaw (r_id r) (r_sequence r) (r_message_type r) (r_message_version r) (r_correlation_id r)
    (r_conversation_id r) (r_causation_id r) (r_request_id r) (r_content_type r) (r_payload r)
    (r_tenant_id r) (r_expires_at r) (r_ordering_key r) (r_metadata r) (r_headers r)
    (r_metadata_version r) (r_created_at r) (r_available_at r) x (r_locked_by r)
    (r_locked_until r) (r_published_at r) (r_dead_at r) (r_dead_reason r) (r_last_error r).
Definition set_published_at (x : option OffsetDateTime) (r : RawRow) : RawRow :=
  mkRaw (r_id r) (r_sequence r) (r_message_type r) (r_message_version r) (r_correlation_id r)
    (r_conversation_id r) (r_causation_id r) (r_request_id r) (r_content_type r) (r_payload r)
    (r_tenant_id r) (r_expires_at r) (r_ordering_key r) (r_metadata r) (r_headers r)
    (r_metadata_version r) (r_created_at r) (r_available_at r) (r_attempts r) (r_locked_by r)
    (r_locked_until r) x (r_dead_at r) (r_dead_reason r) (r_last_error r).
Definition set_dead (at_ : option OffsetDateTime) (reason : option string) (r : RawRow) : RawRow :=
  mkRaw (r_id r) (r_sequence r) (r_message_type r) (r_message_version r) (r_correlation_id r)
    (r_conversation_id r) (r_causation_id r) (r_request_id r) (r_content_type r) (r_payload r)
    (r_tenant_id r) (r_expires_at r) (r_ordering_key r) (r_metadata r) (r_headers r)
    (r_metadata_version r) (r_created_at r) (r_available_at r) (r_attempts r) (r_locked_by r)
    (r_locked_until r) (r_published_at r) at_ reason (r_last_error r).
Definition set_last_error (x : option string) (r : RawRow) : RawRow :=
  mkRaw (r_id r) (r_sequence r) (r_message_type r) (r_message_version r) (r_correlation_id r)
    (r_conversation_id r) (r_causation_id r) (r_request_id r) (r_content_type r) (r_payload r)
    (r_tenant_id r) (r_expires_at r) (r_ordering_key r) (r_metadata r) (r_headers r)
    (r_metadata_version r) (r_created_at r) (r_available_at r) (r_attempts r) (r_locked_by r)
    (r_locked_until r) (r_published_at r) (r_dead_at r) (r_dead_reason r) x.

(** ** The constraints of the schema *)

Definition null_iff {A B} (a : option A) (b : option B) : bool :=
  bool_decide (a = None ↔ b = None).

(** The first [CHECK] a row violates, by name. *)
Definition violated (r : RawRow) : option string :=
  if r_attempts r <? 0 then Some "ck_outbox_attempts"
  else if r_message_version r <? 0 then Some "ck_outbox_message_version"
  else if r_metadata_version r <? 1 then Some "ck_outbox_metadata_version"
  else if negb (null_iff (r_locked_by r) (r_locked_until r)) then Some "ck_outbox_lease"
  else if negb (bool_decide (r_published_at r = None) || bool_decide (r_dead_at r = None))
  then Some "ck_outbox_terminal"
  else if negb (null_iff (r_dead_at r) (r_dead_reason r)) then Some "ck_outbox_dead_reason"
  else None.

Definition check_violation (name : string) : SqlxError := DatabaseError (Some "23514") (Some name).
Definition pk_violation : SqlxError := DatabaseError (Some "23505") (Some "pk_outbox").
Definition sequence_violation : SqlxError := DatabaseError (Some "23505") (Some "ix_outbox_sequence").
Definition integer_out_of_range : SqlxError := DatabaseError (Some "22003") None.
Definition interval_out_of_range : SqlxError := DatabaseError (Some "22008") None.

(** What the schema says against a table: its keys are unique and its rows pass the checks. *)
Definition broken (l : list Row) : option SqlxError :=
  if negb (bool_decide (NoDup (row_id <$> l))) then Some pk_violation
  else if negb (bool_decide (NoDup (row_sequence <$> l))) then Some sequence_violation
  else head (omap (λ r, check_violation <$> violated (raw r)) l).

(** A table the engine let be written, and the next value of the identity column. *)
Record Db := mkDb { table : list Row; next_sequence : Z; sound : broken table = None }.

Definition write (l : list Row) (n : Z) : result Db SqlxError :=
  match broken l as b return broken l = b → result Db SqlxError with
  | None => λ E, Ok (mkDb l n E)
  | Some e => λ _, Err e
  end eq_refl.

(** [attempts + 1] on an [integer]. *)
Definition increment (n : Z) : result Z SqlxError :=
  if n + 1 <=? I32_MAX then Ok (n + 1) else Err integer_out_of_range.
End table.

(** ** What Postgres leaves open *)

Class Postgres `{PgTypes} := {
  (** [t + ms * interval '1 millisecond']. *)
  add_interval : OffsetDateTime → Z → option OffsetDateTime;
  (** [LIMIT n] without an [ORDER BY]. *)
  limit_rows : nat → list Row → list Row;
  returning_order : list Row → list Row;
  (** The row of [FROM] that updates, of one or more that join. *)
  join_pick : ∀ {A}, A → list A → A;
}.

(** [bigint * interval] goes through binary64: exact in microseconds up to 2^53. *)
Definition EXACT_MS : Z := 9007199254740.

Class PostgresLaws `{Postgres} := {
  add_interval_Some t ms u : Z.abs ms ≤ EXACT_MS → add_interval t ms = Some u → u = t + ms * 1000000;
  limit_rows_subset n l : limit_rows n l ⊆+ l;
  limit_rows_length n l : length (limit_rows n l) = Nat.min n (length l);
  returning_perm l : returning_order l ≡ₚ l;
  join_pick_elem {A} (a : A) l : join_pick a l ∈ a :: l;
}.

(** ** Statements *)

Section statements.
Context `{Postgres}.
Implicit Types (now : OffsetDateTime) (d : Db) (r : Row) (w : string).

(** The effect of one statement: its answer and the database it leaves, or its error. *)
Definition stmt (A : Type) : Type :=
  OffsetDateTime → (Uuid → bool) → Db → result (Db * A) SqlxError.

(** [UPDATE .. SET f WHERE p], row by row; the count is [rows_affected]. *)
Fixpoint update_where (f : Row → option (result RawRow SqlxError)) (now : OffsetDateTime)
    (l : list Row) : result (list Row * Z) SqlxError :=
  match l with
  | [] => Ok ([], 0)
  | r :: l' =>
      match f r with
      | None => let? (l'', n) := update_where f now l' in Ok (r :: l'', n)
      | Some u =>
          let? raw' := u in
          let? (l'', n) := update_where f now l' in
          Ok (mkRow raw' now :: l'', n + 1)
      end
  end.

Definition update (f : OffsetDateTime → Row → option (result RawRow SqlxError)) : stmt Z :=
  λ now _ d,
    let? (l, n) := update_where (f now) now (table d) in
    let? d := write l (next_sequence d) in
    Ok (d, n).

(** [DELETE .. WHERE p]. *)
Definition delete_where (p : OffsetDateTime → list Row → Row → bool) : stmt Z :=
  λ now _ d,
    let p := p now (table d) in
    let n := Z.of_nat (length (filter (λ r, p r = true) (table d))) in
    let? d := write (filter (λ r, p r = false) (table d)) (next_sequence d) in
    Ok (d, n).

(** [UNNEST(..) AS f(id, ..)] joined on [o.id = f.id]. *)
Definition joined {A} (items : list (Uuid * A)) (r : Row) : option A :=
  match snd <$> filter (λ x, x.1 = row_id r) items with
  | [] => None
  | a :: more => Some (join_pick a more)
  end.

(** [id = ANY($1) AND locked_by = $2]. *)
Definition held (ids : list Uuid) w (r : Row) : bool :=
  bool_decide (row_id r ∈ ids) && bool_decide (r_locked_by (raw r) = Some w).

Definition interval_from (now : OffsetDateTime) (ms : Z) : result OffsetDateTime SqlxError :=
  match add_interval now ms with Some t => Ok t | None => Err interval_out_of_range end.

(* src: pg/store.rs 542-567 poison_sweep_rows *)
Definition poison_sweep_rows (poisoned : list (Uuid * string)) w (undecodable : string) : stmt Z :=
  update (λ now r,
    match joined poisoned r with
    | Some err =>
        if bool_decide (r_locked_by (raw r) = Some w)
        then Some (Ok (set_lease None None (set_last_error (Some err)
                         (set_dead (Some now) (Some undecodable) (raw r)))))
        else None
    | None => None
    end).

(* src: pg/store.rs 663-682 complete_rows *)
Definition complete_rows (ids : list Uuid) w : stmt Z :=
  update (λ now r,
    if held ids w r
    then Some (let? n := increment (r_attempts (raw r)) in
               Ok (set_lease None None (set_attempts n (set_published_at (Some now) (raw r)))))
    else None).

(* src: pg/store.rs 684-701 release_rows *)
Definition release_rows (ids : list Uuid) w : stmt Z :=
  update (λ now r, if held ids w r then Some (Ok (set_lease None None (raw r))) else None).

(* src: pg/store.rs 703-721 extend_lease_rows *)
Definition extend_lease_rows (ids : list Uuid) (lease_ms : Z) w : stmt Z :=
  update (λ now r,
    if held ids w r
    then Some (let? until := interval_from now lease_ms in
               Ok (set_lease (r_locked_by (raw r)) (Some until) (raw r)))
    else None).

(* src: pg/store.rs 723-748 fail_retry_rows *)
Definition fail_retry_rows (items : list (Uuid * (string * Z))) w : stmt Z :=
  update (λ now r,
    match joined items r with
    | Some (err, delay_ms) =>
        if bool_decide (r_locked_by (raw r) = Some w)
        then Some (let? n := increment (r_attempts (raw r)) in
                   let? at_ := interval_from now delay_ms in
                   Ok (set_available_at at_ (set_lease None None
                         (set_last_error (Some err) (set_attempts n (raw r))))))
        else None
    | None => None
    end).

(* src: pg/store.rs 750-776 fail_dead_rows *)
Definition fail_dead_rows (items : list (Uuid * (string * string))) w : stmt Z :=
  update (λ now r,
    match joined items r with
    | Some (err, reason) =>
        if bool_decide (r_locked_by (raw r) = Some w)
        then Some (let? n := increment (r_attempts (raw r)) in
                   Ok (set_lease None None (set_dead (Some now) (Some reason)
                         (set_last_error (Some err) (set_attempts n (raw r))))))
        else None
    | None => None
    end).

(** The predicate of the claim. *)
(* src: pg/store.rs 795-798 claim_rows *)
Definition claimable_at now (r : RawRow) : bool :=
  bool_decide (r_published_at r = None) && bool_decide (r_dead_at r = None)
  && (r_available_at r <=? now)
  && match r_locked_until r with None => true | Some until => until <? now end
  && match r_expires_at r with None => true | Some at_ => now <? at_ end.

Definition claim_order (a b : Row) : bool :=
  pair_leb (r_available_at (raw a), r_sequence (raw a)) (r_available_at (raw b), r_sequence (raw b)).

(** The ids the CTE selects and locks. *)
(* src: pg/store.rs 794-801 claim_rows *)
Definition claimed (batch_size : nat) now (locked : Uuid → bool) (l : list Row) : list Row :=
  take batch_size
    (sort_by claim_order (filter (λ r, claimable_at now (raw r) && negb (locked (row_id r)) = true) l)).

(* src: pg/store.rs 785-822 claim_rows *)
Definition claim_rows (batch_size : nat) w (lease_ms : Z) : stmt (list RawRow) :=
  λ now locked d,
    let ids := row_id <$> claimed batch_size now locked (table d) in
    let? (l, _) :=
      update_where (λ r,
        if bool_decide (row_id r ∈ ids)
        then Some (let? until := interval_from now lease_ms in
                   Ok (set_lease (Some w) (Some until) (raw r)))
        else None) now (table d) in
    let? d := write l (next_sequence d) in
    Ok (d, raw <$> returning_order (filter (λ r, row_id r ∈ ids) l)).

(** The rows a bounded subselect picks, by id, and its predicate once more outside. *)
Definition picked (p : Row → bool) (batch_size : nat) (l : list Row) (r : Row) : bool :=
  bool_decide (row_id r ∈ row_id <$> limit_rows batch_size (filter (λ r, p r = true) l)) && p r.

(** [at < now() - $1 * interval '1 millisecond'], [NULL] being no match. *)
Definition past_retention (at_ : option OffsetDateTime) (cutoff : OffsetDateTime) : bool :=
  match at_ with Some t => t <? cutoff | None => false end.

Definition purge_rows (column : RawRow → option OffsetDateTime) (retention_ms : Z) (batch_size : nat)
  : stmt Z :=
  λ now locked d,
    let? cutoff := interval_from now (- retention_ms) in
    delete_where (λ _, picked (λ r, past_retention (column (raw r)) cutoff) batch_size) now locked d.

(* src: pg/store.rs 576-596 purge_published_rows *)
Definition purge_published_rows : Z → nat → stmt Z := purge_rows r_published_at.

(* src: pg/store.rs 603-623 purge_dead_retention_rows *)
Definition purge_dead_retention_rows : Z → nat → stmt Z := purge_rows r_dead_at.

(* src: pg/store.rs 645-647 purge_expired_sweep_rows *)
Definition sweepable_at now (r : RawRow) : bool :=
  match r_expires_at r with None => false | Some at_ => at_ <? now end
  && bool_decide (r_published_at r = None) && bool_decide (r_dead_at r = None)
  && match r_locked_until r with None => true | Some until => until <? now end.

(* src: pg/store.rs 630-658 purge_expired_sweep_rows *)
Definition purge_expired_sweep_rows (batch_size : nat) (expired_reason : string) : stmt Z :=
  λ now locked d,
    update (λ now r,
      if picked (λ r, sweepable_at now (raw r)) batch_size (table d) r
      then Some (Ok (set_lease None None (set_last_error (Some "reliar: expired before publication")
                       (set_dead (Some now) (Some expired_reason) (raw r)))))
      else None) now locked d.

(* src: pg/store.rs 827-857 list_dead_rows *)
Definition list_dead_rows (query : DeadQuery.t) (limit : nat) : stmt (list RawRow) :=
  λ now _ d,
    let matches r :=
      bool_decide (r_dead_at (raw r) ≠ None)
      && match DeadQuery.message_type query with
         | None => true | Some ty => bool_decide (r_message_type (raw r) = ty) end
      && match DeadQuery.tenant_id query with
         | None => true | Some tenant => bool_decide (r_tenant_id (raw r) = Some tenant) end
      && match DeadQuery.dead_before query with
         | None => true | Some before => past_retention (r_dead_at (raw r)) (timestamptz before) end
      && match DeadQuery.after_sequence query with
         | None => true | Some after => after <? row_sequence r end in
    Ok (d, raw <$> take limit (sort_by (λ a b, row_sequence a <=? row_sequence b)
                                 (filter (λ r, matches r = true) (table d)))).

(* src: pg/store.rs 861-880 retry_dead_rows *)
Definition retry_dead_rows (ids : list Uuid) : stmt Z :=
  update (λ now r,
    if bool_decide (row_id r ∈ ids) && bool_decide (r_dead_at (raw r) ≠ None)
    then Some (Ok (set_lease None None (set_attempts 0 (set_available_at now
                     (set_dead None None (raw r))))))
    else None).

(* src: pg/store.rs 884-895 purge_dead_rows *)
Definition purge_dead_rows (ids : list Uuid) : stmt Z :=
  delete_where (λ _ _ r, bool_decide (row_id r ∈ ids) && bool_decide (r_dead_at (raw r) ≠ None)).

(** The four aggregates over one scan. *)
(* src: pg/store.rs 1270-1291 PostgresOutboxStore::stats *)
Definition stats_rows : stmt OutboxStats.t :=
  λ now _ d,
    let count (p : RawRow → bool) := Z.of_nat (length (filter (λ r : Row, p (raw r) = true) (table d))) in
    Ok (d, OutboxStats.new (count (claimable_at now))
             (count (λ r : RawRow, bool_decide (r_dead_at r ≠ None)))
             (count (λ r : RawRow, bool_decide (r_published_at r = None) && bool_decide (r_dead_at r = None)
                          && match r_expires_at r with None => false | Some at_ => at_ <? now end))
             (foldr (λ r o, Some match o with
                                 | Some m => Z.min m (r_available_at (raw r))
                                 | None => r_available_at (raw r)
                                 end) None
                (filter (λ r, claimable_at now (raw r) = true) (table d)))
             now).

(** The [INSERT]; the identity column counts up. *)
(* src: pg/store.rs 423-449 insert_row *)
Definition insert_row {T} (e : Envelope.t T) (payload : Bytes) (content_type : ContentType.t)
    (options : EnqueueOptions) : stmt unit :=
  λ now _ d,
    let r := mkRow (staged_row e payload content_type options (next_sequence d) now) now in
    let? d := write (table d ++ [r]) (next_sequence d + 1) in
    Ok (d, ()).
End statements.
