(* ===== verification/PgStore.v ===== *)
(** * The Postgres store ([reliar-store-postgres], store.rs)

    The operations over a schedule of round trips.  Every statement, [BEGIN] and [COMMIT] is
    one round trip; the schedule says for each when it runs, what other transactions have
    committed by then, which rows they hold locked, and whether the answer comes back: the
    connection may be lost, or the client's time budget may end, before or after the database
    executed it.  The statements of a transaction read what was committed when they start
    ([READ COMMITTED]); what others commit meanwhile reaches both the committed table and the
    transaction's view of it. *)

From S2P Require Import Prelude RustString CoreTypes CoreHeaders CoreEnvelope OutboxTypes OutboxSettings StoreInterface PgErrors PgRecords PgTable.

(** ** Round trips *)

(** A statement cancelled by [statement_timeout], and a setting Postgres refuses. *)
Definition query_canceled : SqlxError := DatabaseError (Some "57014") None.
Definition invalid_parameter_value : SqlxError := DatabaseError (Some "22023") None.

(** [Cut executed why]: the answer [why] is not the database's; with [None] there is none. *)
Inductive Fate := Runs | Cut (executed : bool) (why : option SqlxError).

Section world.
Context `{Postgres}.

Record Step := mkStep {
  at_ : OffsetDateTime;
  (** How long the database takes, in nanoseconds. *)
  takes : Z;
  others : Db → Db;
  locked : Uuid → bool;
  fate : Fate;
}.

(** Its view of the table, its [now()], and the [statement_timeout] set in it. *)
Record Tx := mkTx { working : Db; tx_now : OffsetDateTime; tx_timeout_ms : option Z }.

(** The committed table, the transaction this connection has open, how much of the schedule
    is behind, and the client's monotonic clock. *)
Record Pg := mkPg { committed : Db; tx : option Tx; tick : nat; pg_clock : Z }.

Global Instance Pg_Clock : Clock Pg := pg_clock.
End world.

(** [Duration::as_millis] as the [i64] the statements take. *)
Definition millis_i64 (d : Duration) : Z := Z.min (as_millis d) I64_MAX.

Section client.
Context `{Postgres} (schedule : nat → Step).
Implicit Types w : Pg.

Definition M (A : Type) : Type := Pg → Pg * call A SqlxError.

#[local] Instance M_ret : MRet M := λ A a w, (w, Answered (Ok a)).
#[local] Instance M_bind : MBind M := λ A B k m w,
  match m w with
  | (w, Answered (Ok a)) => k a w
  | (w, Answered (Err e)) => (w, Answered (Err e))
  | (w, Elapsed) => (w, Elapsed)
  end.

(** The world as the next round trip finds it. *)
Definition arrive w : Step * Pg :=
  let s := schedule (tick w) in
  (s, mkPg (others s (committed w))
        ((λ t, mkTx (others s (working t)) (tx_now t) (tx_timeout_ms t)) <$> tx w)
        (S (tick w)) (pg_clock w + takes s)).

Definition unanswered {A} (why : option SqlxError) : call A SqlxError :=
  match why with Some e => Answered (Err e) | None => Elapsed end.

(** A round trip: its effect unless it was cut before the database acted. *)
Definition trip {A} (f : Step → Pg → Pg * result A SqlxError) : M A := λ w,
  let '(s, w) := arrive w in
  match fate s with
  | Runs => let '(w, r) := f s w in (w, Answered r)
  | Cut true why => let '(w, _) := f s w in (w, unanswered why)
  | Cut false why => (w, unanswered why)
  end.

Definition view (s : Step) w : OffsetDateTime * Db :=
  match tx w with Some t => (tx_now t, working t) | None => (at_ s, committed w) end.

Definition set_view (d : Db) w : Pg :=
  match tx w with
  | Some t => mkPg (committed w) (Some (mkTx d (tx_now t) (tx_timeout_ms t))) (tick w) (pg_clock w)
  | None => mkPg d None (tick w) (pg_clock w)
  end.

(** Past the [statement_timeout] of its transaction; zero disables it. *)
Definition overruns (s : Step) w : bool :=
  match t ← tx w; tx_timeout_ms t with
  | Some ms => (0 <? ms) && (from_millis ms <? takes s)
  | None => false
  end.

(** A statement, on the open transaction or as one of its own. *)
Definition exec {A} (q : stmt A) : M A :=
  trip (λ s w,
    if overruns s w then (w, Err query_canceled)
    else
      let '(now, d) := view s w in
      match q now (locked s) d with
      | Ok (d, a) => (set_view d w, Ok a)
      | Err e => (w, Err e)
      end).

Definition pool_begin : M () :=
  trip (λ s w, (mkPg (committed w) (Some (mkTx (committed w) (at_ s) None)) (tick w) (pg_clock w), Ok ())).

Definition commit : M () :=
  trip (λ s w, (match tx w with
                | Some t => mkPg (working t) None (tick w) (pg_clock w)
                | None => w
                end, Ok ())).

(** Dropping a [Transaction] rolls it back. *)
Definition drop_tx w : Pg := mkPg (committed w) None (tick w) (pg_clock w).
Definition scoped {A} (m : M A) : M A := λ w, let '(w, r) := m w in (drop_tx w, r).

Context (settings : PostgresOutboxSettings.t).

(** [set_config('statement_timeout', .., true)]: the setting is an [integer]. *)
(* src: pg/store.rs 214-229 PostgresOutboxStore::set_local_timeout *)
Definition set_local_timeout : M () :=
  trip (λ s w,
    let timeout_ms := millis_i64 (PostgresOutboxSettings.statement_timeout settings) in
    if I32_MAX <? timeout_ms then (w, Err invalid_parameter_value)
    else (mkPg (committed w)
            ((λ t, mkTx (working t) (tx_now t) (Some timeout_ms)) <$> tx w) (tick w) (pg_clock w),
          Ok ())).

(** The two arms every operation has: the statements straight on the pool, or in one
    transaction under [SET LOCAL statement_timeout]. *)
Definition with_timeout {A} (body : M A) : M A :=
  if is_zero (PostgresOutboxSettings.statement_timeout settings) then body
  else scoped (pool_begin ≫= λ _, set_local_timeout ≫= λ _,
               body ≫= λ a, commit ≫= λ _, mret a).

(* src: pg/store.rs 205-210 PostgresOutboxStore::map_err *)
Definition store_map_err (err : SqlxError) : PostgresStoreError :=
  map_operational_error (PostgresOutboxSettings.schema settings) err.

Definition run {A} (m : M A) w : Pg * call A PostgresStoreError :=
  let '(w, r) := m w in
  (w, match r with Answered r => Answered (map_err store_map_err r) | Elapsed => Elapsed end).
End client.

(** ** The operations *)

Module PostgresOutboxStore.
Section ops.
Context `{Postgres} `{TimeRange} (schedule : nat → Step) (settings : PostgresOutboxSettings.t).

#[local] Existing Instance M_ret.
#[local] Existing Instance M_bind.
Local Abbreviation exec := (exec schedule).
Local Abbreviation with_timeout := (with_timeout schedule settings).
Local Abbreviation run := (run settings).

(** The loop over the claimed rows. *)
  (* src: pg/store.rs 943-957 PostgresOutboxStore::acquire *)
Fixpoint decode_rows (rows : list RawRow) : list OutboxRecord.t * list RowError :=
  match rows with
  | [] => ([], [])
  | raw :: rows =>
      let '(records, failures) := decode_rows rows in
      match decode_row raw with
      | Ok record => (record :: records, failures)
      | Err err => (records, err :: failures)
      end
  end.

Definition poisoned_row (err : RowError) : PoisonedRow.t :=
  PoisonedRow.new (re_id err) (re_sequence err) (re_detail err).
Definition poisoned_item (err : RowError) : Uuid * string :=
  (MessageId.as_uuid (re_id err), truncate_last_error (re_detail err)).

  (* src: pg/store.rs 908-995 PostgresOutboxStore::acquire *)
Definition acquire (request : AcquireRequest.t) : Pg → Pg * call AcquiredBatch.t PostgresStoreError :=
  let worker := WorkerId.as_str (AcquireRequest.worker request) in
  run (
    rows ← with_timeout (exec (claim_rows (Z.to_nat (AcquireRequest.batch_size request)) worker
                                 (millis_i64 (AcquireRequest.lease request))));
    let '(records, failures) := decode_rows rows in
    let batch := AcquiredBatch.new records (poisoned_row <$> failures) in
    match failures with
    | [] => mret batch
    | _ => _ ← with_timeout (exec (poison_sweep_rows (poisoned_item <$> failures) worker
                                     (encode_dead_reason Undecodable)));
           mret batch
    end).

(** The common head of the operations on a slice of items. *)
Definition on_items {I} (items : list I) (body : M Z) : Pg → Pg * call Z PostgresStoreError :=
  run (match items with [] => mret 0 | _ => body end).

Definition ref_uuid (r : MessageRef.t) : Uuid := MessageId.as_uuid (MessageRef.id r).

  (* src: pg/store.rs 1000-1024 PostgresOutboxStore::complete *)
Definition complete (w : WorkerId.t) (items : list CompletedMessage.t) :=
  on_items items (with_timeout
    (exec (complete_rows (ref_uuid ∘ CompletedMessage.message <$> items) (WorkerId.as_str w)))).

(** The items as the columns of the two [UNNEST]s. *)
  (* src: pg/store.rs 1035-1063 PostgresOutboxStore::fail *)
Fixpoint split_failures (items : list FailedMessage.t)
  : list (Uuid * (string * Z)) * list (Uuid * (string * string)) :=
  match items with
  | [] => ([], [])
  | item :: items =>
      let '(retry, dead) := split_failures items in
      let id := ref_uuid (FailedMessage.message item) in
      match FailedMessage.outcome item with
      | Retry delay => ((id, (FailedMessage.error item, millis_i64 delay)) :: retry, dead)
      | Dead reason => (retry, (id, (FailedMessage.error item, encode_dead_reason reason)) :: dead)
      end
  end.

(** A statement that is not sent for no items. *)
Definition unless_empty {I} (items : list I) (m : M Z) : M Z :=
  match items with [] => mret 0 | _ => m end.

  (* src: pg/store.rs 1030-1121 PostgresOutboxStore::fail *)
Definition fail (w : WorkerId.t) (items : list FailedMessage.t) :=
  let '(retry, dead) := split_failures items in
  on_items items (with_timeout (
    a ← unless_empty retry (exec (fail_retry_rows retry (WorkerId.as_str w)));
    b ← unless_empty dead (exec (fail_dead_rows dead (WorkerId.as_str w)));
    mret (a + b))).

  (* src: pg/store.rs 1125-1145 PostgresOutboxStore::release *)
Definition release (w : WorkerId.t) (items : list MessageRef.t) :=
  on_items items (with_timeout (exec (release_rows (ref_uuid <$> items) (WorkerId.as_str w)))).

  (* src: pg/store.rs 1149-1175 PostgresOutboxStore::extend_lease *)
Definition extend_lease (w : WorkerId.t) (items : list MessageRef.t) (lease : Duration) :=
  on_items items (with_timeout
    (exec (extend_lease_rows (ref_uuid <$> items) (millis_i64 lease) (WorkerId.as_str w)))).

(** A delete that runs when its retention is configured. *)
  (* src: pg/store.rs 1199-1206 PostgresOutboxStore::purge *)
Definition if_retained (retention : option Duration) (q : Z → stmt Z) : M Z :=
  match retention with Some d => exec (q (millis_i64 d)) | None => mret 0 end.

  (* src: pg/store.rs 1183-1254 PostgresOutboxStore::purge *)
Definition purge (request : PurgeRequest.t) : Pg → Pg * call PurgeReport.t PostgresStoreError :=
  let batch_size := Z.to_nat (PurgeRequest.batch_size request) in
  run (with_timeout (
    published ← if_retained (PurgeRequest.published_retention request)
                  (λ ms, purge_published_rows ms batch_size);
    dead ← if_retained (PurgeRequest.dead_retention request)
             (λ ms, purge_dead_retention_rows ms batch_size);
    expired ← exec (purge_expired_sweep_rows batch_size (encode_dead_reason Expired));
    mret (PurgeReport.new published dead expired))).

  (* src: pg/store.rs 1268-1344 PostgresOutboxStore::stats *)
Definition stats : Pg → Pg * call OutboxStats.t PostgresStoreError := run (with_timeout (exec stats_rows)).

  (* src: pg/store.rs 27-27 MAX_LIST_DEAD_LIMIT *)
Definition MAX_LIST_DEAD_LIMIT : Z := 1000.

(** [max_sequence], over the rows scanned. *)
  (* src: pg/store.rs 1379-1382 PostgresOutboxStore::list_dead *)
Definition max_sequence (rows : list RawRow) : option Z :=
  fold_left (λ m raw, Some match m with Some m => Z.max m (r_sequence raw) | None => r_sequence raw end)
    rows None.

  (* src: pg/store.rs 1356-1398 PostgresOutboxStore::list_dead *)
Definition list_dead (query : DeadQuery.t) : Pg → Pg * call DeadLetterPage.t PostgresStoreError :=
  let limit := Z.to_nat (Z.min (DeadQuery.limit query) MAX_LIST_DEAD_LIMIT) in
  run (
    rows ← with_timeout (exec (list_dead_rows query limit));
    let '(records, failures) := decode_rows rows in
    mret (DeadLetterPage.new records (poisoned_row <$> failures)
            (if (length rows =? limit)%nat then max_sequence rows else None))).

  (* src: pg/store.rs 1403-1422 PostgresOutboxStore::retry_dead *)
Definition retry_dead (refs : list MessageRef.t) :=
  on_items refs (with_timeout (exec (retry_dead_rows (ref_uuid <$> refs)))).

  (* src: pg/store.rs 1425-1444 PostgresOutboxStore::purge_dead *)
Definition purge_dead (refs : list MessageRef.t) :=
  on_items refs (with_timeout (exec (purge_dead_rows (ref_uuid <$> refs)))).

(** The trait; the schedule decides which calls the client's budget cuts short. *)
  (* src: pg/store.rs 897-1345 PostgresOutboxStore *)
#[global] Instance PostgresStore : OutboxStore Pg PostgresStoreError := {|
  StoreInterface.acquire _ := acquire;
  StoreInterface.complete _ := complete;
  StoreInterface.fail _ := fail;
  StoreInterface.release _ := release;
  StoreInterface.extend_lease _ := extend_lease;
  StoreInterface.purge _ := purge;
  StoreInterface.stats _ := stats;
|}.
End ops.
End PostgresOutboxStore.
