(* ===== verification/PgTableInv.v ===== *)
(** * The statements keep the table well formed ([reliar-store-postgres], store.rs)

    Beyond what the schema checks, the provider relies on a leased row being pending: no
    outcome statement tests [published_at] or [dead_at], only [locked_by].  Every statement
    keeps that, and none trips over a constraint of the schema. *)

From S2P Require Import Prelude RustString CoreTypes CoreHeaders CoreEnvelope OutboxTypes PgErrors PgRecords PgTable.

Section constraints.
Context `{PgTypes}.

(** ** The constraints *)

Record row_sound (r : RawRow) : Prop := {
  rs_attempts : 0 ≤ r_attempts r;
  rs_message_version : 0 ≤ r_message_version r;
  rs_metadata_version : 1 ≤ r_metadata_version r;
  rs_lease : r_locked_by r = None ↔ r_locked_until r = None;
  rs_terminal : r_published_at r = None ∨ r_dead_at r = None;
  rs_dead_reason : r_dead_at r = None ↔ r_dead_reason r = None;
}.

Lemma violated_None r : violated r = None ↔ row_sound r.
Proof.
  unfold violated, null_iff. split.
  - intros Hv. repeat case_match; try done. rewrite ?Z.ltb_ge, ?negb_false_iff, ?orb_true_iff,
      ?bool_decide_eq_true in *. by split.
  - intros [? ? ? ? ? ?]. rewrite !(proj2 (Z.ltb_ge _ _)) by lia.
    rewrite !bool_decide_eq_true_2 with (P := _ ↔ _) by done. cbn.
    destruct rs_terminal0 as [Ht|Ht]; rewrite (bool_decide_eq_true_2 _ Ht), ?orb_true_r; done.
Qed.

Lemma broken_None l :
  broken l = None ↔
  NoDup (row_id <$> l) ∧ NoDup (row_sequence <$> l) ∧ Forall (λ r, row_sound (raw r)) l.
Proof.
  unfold broken. split.
  - intros Hb. repeat case_match; try done.
    rewrite ?negb_false_iff, ?bool_decide_eq_true in *. split_and!; [done..|].
    induction l as [|r l IH]; [constructor|]. cbn in Hb.
    destruct (violated (raw r)) eqn:E; [done|]. constructor; [by apply violated_None|].
    decompose_Forall_hyps.
    repeat match goal with Hn : NoDup (_ :: _) |- _ => apply NoDup_cons in Hn as [_ Hn] end. auto.
  - intros (Hi & Hs & Hl). rewrite !bool_decide_eq_true_2 by done. cbn.
    clear Hi Hs. induction Hl as [|r l Hr Hl IH]; [done|]. cbn.
    by rewrite (proj2 (violated_None _) Hr).
Qed.

Lemma sound_ids (d : Db) : NoDup (row_id <$> table d).
Proof. by destruct (proj1 (broken_None _) (sound d)). Qed.
Lemma sound_sequences (d : Db) : NoDup (row_sequence <$> table d).
Proof. by destruct (proj1 (broken_None _) (sound d)) as (_ & ? & _). Qed.
Lemma sound_rows (d : Db) : Forall (λ r, row_sound (raw r)) (table d).
Proof. by destruct (proj1 (broken_None _) (sound d)) as (_ & _ & ?). Qed.

Lemma write_spec_aux l n o (Ho : broken l = o) :
  match (match o as b return broken l = b → result Db SqlxError with
         | None => λ E, Ok (mkDb l n E)
         | Some e => λ _, Err e
         end) Ho with
  | Ok d => table d = l ∧ next_sequence d = n
  | Err e => broken l = Some e
  end.
Proof. by destruct o. Qed.

Lemma write_spec l n :
  match write l n with
  | Ok d => table d = l ∧ next_sequence d = n
  | Err e => broken l = Some e
  end.
Proof. apply write_spec_aux. Qed.

Lemma write_inv l n d : write l n = Ok d → table d = l ∧ next_sequence d = n.
Proof. intros Hw. pose proof (write_spec l n) as Hs. by rewrite Hw in Hs. Qed.

Lemma write_sound l n : broken l = None → ∃ d, write l n = Ok d ∧ table d = l ∧ next_sequence d = n.
Proof.
  intros Hb. pose proof (write_spec l n) as Hs. destruct (write l n) as [d|e]; [by exists d|].
  by rewrite Hb in Hs.
Qed.

(** ** Leased rows are pending *)

Definition leased_pending (r : RawRow) : Prop :=
  r_locked_by r ≠ None → r_published_at r = None ∧ r_dead_at r = None.

Definition tidy (d : Db) : Prop := Forall (λ r, leased_pending (raw r)) (table d).

Definition row_ok (r : RawRow) : Prop := row_sound r ∧ leased_pending r.

Lemma tidy_rows d : tidy d → Forall (λ r, row_ok (raw r)) (table d).
Proof. intros Ht. apply Forall_and. split; [apply sound_rows|exact Ht]. Qed.

Definition same_key (r r' : Row) : Prop := row_id r' = row_id r ∧ row_sequence r' = row_sequence r.

(** An error of the arithmetic of a statement, not of a constraint. *)
Definition range_error (e : SqlxError) : Prop := e = integer_out_of_range ∨ e = interval_out_of_range.

(** What an assignment makes of a well-formed row. *)
Definition assigns_ok (r : RawRow) (u : result RawRow SqlxError) : Prop :=
  match u with
  | Ok r' => r_id r' = r_id r ∧ r_sequence r' = r_sequence r ∧ row_ok r'
  | Err e => range_error e
  end.

Lemma increment_spec n :
  match increment n with Ok m => m = n + 1 | Err e => e = integer_out_of_range end.
Proof. unfold increment. by destruct (_ <=? _). Qed.
End constraints.

(** ** The statements *)

Section statements.
Context `{Postgres}.
Implicit Types (r : Row) (now : OffsetDateTime).

Definition row_updated (f : Row → option (result RawRow SqlxError)) now (r r' : Row) : Prop :=
  match f r with
  | None => r' = r
  | Some u => ∃ raw', u = Ok raw' ∧ r' = mkRow raw' now
  end.

Lemma update_where_spec f now l :
  match update_where f now l with
  | Ok (l', n) => Forall2 (row_updated f now) l l'
                  ∧ n = Z.of_nat (length (filter (λ r, is_Some (f r)) l))
  | Err e => ∃ r, r ∈ l ∧ f r = Some (Err e)
  end.
Proof.
  induction l as [|r l IH]; [by repeat constructor|]. cbn [update_where].
  rewrite (filter_cons _ r l). destruct (f r) as [u|] eqn:Ef.
  - rewrite decide_True by eauto. destruct u as [raw'|e]; cbn; [|by exists r; split; [left|]].
    destruct (update_where f now l) as [[l' n]|e]; cbn.
    + destruct IH as [IH ->]. split; [|lia]. constructor; [|done]. unfold row_updated.
      rewrite Ef. by exists raw'.
    + destruct IH as (r' & Hr' & He). exists r'. split; [by right|done].
  - rewrite decide_False by (by intros []).
    destruct (update_where f now l) as [[l' n]|e]; cbn.
    + destruct IH as [IH ->]. split; [|done]. constructor; [|done]. unfold row_updated. by rewrite Ef.
    + destruct IH as (r' & Hr' & He). exists r'. split; [by right|done].
Qed.

(** Either the statement runs, or the arithmetic is out of range; it never violates a
    constraint. *)
Definition stmt_safe {A} (q : stmt A) : Prop := ∀ now locked d, tidy d →
  match q now locked d with Ok (d', _) => tidy d' | Err e => range_error e end.

Lemma updated_sound f now l l' :
  (∀ r u, r ∈ l → f r = Some u → row_ok (raw r) → assigns_ok (raw r) u) →
  Forall (λ r, row_ok (raw r)) l → Forall2 (row_updated f now) l l' →
  row_id <$> l' = row_id <$> l ∧ row_sequence <$> l' = row_sequence <$> l
  ∧ Forall (λ r, row_ok (raw r)) l'.
Proof.
  intros Hf Hl HF. induction HF as [|r r' l l' Hr HF IH]; cbn; [done|].
  apply Forall_cons in Hl as [Hok Hl].
  destruct (IH (λ r u Hin, Hf r u (proj2 (elem_of_cons _ _ _) (or_intror Hin))) Hl) as (-> & -> & Hl').
  unfold row_updated in Hr. destruct (f r) as [u|] eqn:Ef; [|subst r'; split_and!; [done..|by constructor]].
  destruct Hr as (raw' & -> & ->). destruct (Hf _ _ (proj2 (elem_of_cons _ _ _) (or_introl eq_refl)) Ef Hok) as (Hi & Hs & Hok').
  unfold row_id, row_sequence. cbn. rewrite Hi, Hs.
  split_and!; [done..|by constructor].
Qed.

Lemma update_where_safe f now l n :
  (∀ r u, r ∈ l → f r = Some u → row_ok (raw r) → assigns_ok (raw r) u) →
  NoDup (row_id <$> l) → NoDup (row_sequence <$> l) → Forall (λ r, row_ok (raw r)) l →
  match update_where f now l with
  | Ok (l', _) => ∃ d', write l' n = Ok d' ∧ table d' = l' ∧ tidy d'
  | Err e => range_error e
  end.
Proof.
  intros Hf Hid Hseq Hl. pose proof (update_where_spec f now l) as Hu.
  destruct (update_where f now l) as [[l' k]|e].
  - destruct Hu as [HF _]. destruct (updated_sound _ _ _ _ Hf Hl HF) as (Hi & Hs & Hok).
    apply Forall_and in Hok as [Hsound Hpend].
    destruct (write_sound l' n) as (d' & Hw & Ht & _).
    { apply broken_None. by rewrite Hi, Hs. }
    exists d'. split_and!; [done..|]. unfold tidy. by rewrite Ht.
  - destruct Hu as (r & Hr & He). rewrite Forall_forall in Hl. exact (Hf _ _ Hr He (Hl _ Hr)).
Qed.

Lemma update_safe (f : OffsetDateTime → Row → option (result RawRow SqlxError)) :
  (∀ now r u, f now r = Some u → row_ok (raw r) → assigns_ok (raw r) u) → stmt_safe (update f).
Proof.
  intros Hf now locked d Hd. unfold update.
  pose proof (update_where_safe (f now) now (table d) (next_sequence d)
    (λ r u _, Hf now r u)
    (sound_ids d) (sound_sequences d) (tidy_rows d Hd)) as Hu.
  destruct (update_where (f now) now (table d)) as [[l' k]|e]; cbn; [|done].
  by destruct Hu as (d' & -> & _ & Ht).
Qed.

Lemma filter_sound (P : Row → Prop) `{∀ r, Decision (P r)} l :
  broken l = None → broken (filter P l) = None.
Proof.
  rewrite !broken_None. intros (Hi & Hs & Hl).
  pose proof (sublist_filter P l) as Hsub. split_and!.
  - eapply sublist_NoDup; [exact Hi|by apply sublist_fmap].
  - eapply sublist_NoDup; [exact Hs|by apply sublist_fmap].
  - by eapply sublist_Forall.
Qed.

Lemma delete_safe p : stmt_safe (delete_where p).
Proof.
  intros now locked d Hd. unfold delete_where.
  destruct (write_sound (filter (λ r, p now (table d) r = false) (table d)) (next_sequence d))
    as (d' & -> & Ht & _); [apply filter_sound, sound|]. cbn.
  unfold tidy. rewrite Ht. apply (sublist_Forall _ (table d)); [apply sublist_filter|done].
Qed.

(** The assignments, with the guard of their [WHERE]. *)
Ltac assign_tac :=
  cbn in *;
  repeat match goal with
  | |- _ ∧ _ => split
  | |- row_ok _ => split; [split|intros ?]; cbn in *
  | |- _ ↔ _ => split
  end; cbn in *; first [done | lia | tauto | congruence | intuition congruence].

Lemma clear_lease_ok (r : RawRow) : row_ok r → row_ok (set_lease None None r).
Proof. intros [[] Hp]. assign_tac. Qed.

Lemma held_pending ids w r : held ids w r = true → row_ok (raw r) →
  row_id r ∈ ids ∧ r_locked_by (raw r) = Some w ∧ r_published_at (raw r) = None ∧ r_dead_at (raw r) = None.
Proof.
  unfold held. rewrite andb_true_iff, !bool_decide_eq_true. intros [Hi Hw] [_ Hp].
  split_and!; [done..| |]; apply Hp; by rewrite Hw.
Qed.

Lemma complete_rows_safe ids w : stmt_safe (complete_rows ids w).
Proof.
  apply update_safe. intros now r u Hu Hok.
  destruct (held ids w r) eqn:Eh; [|done]. injection Hu as <-.
  destruct (held_pending _ _ _ Eh Hok) as (_ & _ & Hp & Hd). destruct Hok as [[] Hlp].
  pose proof (increment_spec (r_attempts (raw r))) as Hi. destruct (increment _) as [n|e]; cbn in *.
  - subst n. assign_tac.
  - subst e. by left.
Qed.

Lemma release_rows_safe ids w : stmt_safe (release_rows ids w).
Proof.
  apply update_safe. intros now r u Hu Hok. destruct (held ids w r); [|done]. injection Hu as <-.
  cbn. split_and!; [done..|]. by apply clear_lease_ok.
Qed.

Lemma interval_from_spec now ms :
  match interval_from now ms with
  | Ok t => add_interval now ms = Some t | Err e => e = interval_out_of_range end.
Proof. unfold interval_from. by destruct (add_interval now ms). Qed.

Lemma extend_lease_rows_safe ids ms w : stmt_safe (extend_lease_rows ids ms w).
Proof.
  apply update_safe. intros now r u Hu Hok.
  destruct (held ids w r) eqn:Eh; [|done]. injection Hu as <-.
  destruct (held_pending _ _ _ Eh Hok) as (_ & Hw & Hp & Hd). destruct Hok as [[] Hlp].
  pose proof (interval_from_spec now ms) as Hi. destruct (interval_from now ms) as [t|e]; cbn in *.
  - assign_tac.
  - subst e. by right.
Qed.

(** The guard of the [UNNEST] forms. *)
Lemma locked_pending w (r : RawRow) : r_locked_by r = Some w → row_ok r →
  r_published_at r = None ∧ r_dead_at r = None.
Proof. intros Hw [_ Hp]. apply Hp. by rewrite Hw. Qed.

Lemma fail_retry_rows_safe items w : stmt_safe (fail_retry_rows items w).
Proof.
  apply update_safe. intros now r u Hu Hok. destruct (joined items r) as [[err ms]|]; [|done].
  case_bool_decide as Hw; [|done]. injection Hu as <-.
  destruct (locked_pending _ _ Hw Hok) as [Hp Hd]. destruct Hok as [[] Hlp].
  pose proof (increment_spec (r_attempts (raw r))) as Hi.
  pose proof (interval_from_spec now ms) as Hn. destruct (increment _) as [n|e]; cbn in *.
  - subst n. destruct (interval_from now ms) as [t|e]; cbn in *; [assign_tac|subst e; by right].
  - subst e. by left.
Qed.

Lemma fail_dead_rows_safe items w : stmt_safe (fail_dead_rows items w).
Proof.
  apply update_safe. intros now r u Hu Hok. destruct (joined items r) as [[err reason]|]; [|done].
  case_bool_decide as Hw; [|done]. injection Hu as <-.
  destruct (locked_pending _ _ Hw Hok) as [Hp Hd]. destruct Hok as [[] Hlp].
  pose proof (increment_spec (r_attempts (raw r))) as Hi. destruct (increment _) as [n|e]; cbn in *.
  - subst n. assign_tac.
  - subst e. by left.
Qed.

Lemma poison_sweep_rows_safe items w reason : stmt_safe (poison_sweep_rows items w reason).
Proof.
  apply update_safe. intros now r u Hu Hok. destruct (joined items r) as [err|]; [|done].
  case_bool_decide as Hw; [|done]. injection Hu as <-.
  destruct (locked_pending _ _ Hw Hok) as [Hp Hd]. destruct Hok as [[] Hlp]. assign_tac.
Qed.

Lemma retry_dead_rows_safe ids : stmt_safe (retry_dead_rows ids).
Proof.
  apply update_safe. intros now r u Hu Hok. destruct (_ && _) eqn:E; [|done]. injection Hu as <-.
  apply andb_true_iff in E as [_ Hd%bool_decide_eq_true]. destruct Hok as [[] Hlp]. assign_tac.
Qed.

Lemma picked_true p n l r : picked p n l r = true → p r = true.
Proof. unfold picked. by rewrite andb_true_iff; intros []. Qed.

Lemma sweepable_at_spec now (r : RawRow) : sweepable_at now r = true ↔
  (∃ e, r_expires_at r = Some e ∧ e < now) ∧ r_published_at r = None ∧ r_dead_at r = None
  ∧ ∀ u, r_locked_until r = Some u → u < now.
Proof.
  unfold sweepable_at. rewrite !andb_true_iff, !bool_decide_eq_true.
  destruct (r_expires_at r) as [e|], (r_locked_until r) as [u|]; rewrite ?Z.ltb_lt; split; intros Hs.
  all: repeat match goal with Hs : _ ∧ _ |- _ => destruct Hs | Hs : ∃ _, _ |- _ => destruct Hs end.
  all: simplify_eq; split_and!; try done; eauto.
  all: intros ? [= <-]; assumption.
Qed.

Lemma expired_sweep_safe l n reason :
  stmt_safe (update (λ now r,
    if picked (λ r, sweepable_at now (raw r)) n l r
    then Some (Ok (set_lease None None (set_last_error (Some "reliar: expired before publication")
                     (set_dead (Some now) (Some reason) (raw r)))))
    else None)).
Proof.
  apply update_safe. intros now r u Hu Hok. destruct (picked _ _ _ _) eqn:E; [|done].
  injection Hu as <-. apply picked_true, sweepable_at_spec in E as (_ & Hp & Hd & _).
  destruct Hok as [[] Hlp]. assign_tac.
Qed.

Lemma purge_expired_sweep_rows_safe n reason : stmt_safe (purge_expired_sweep_rows n reason).
Proof. intros now locked d Hd. by apply expired_sweep_safe. Qed.

Lemma purge_rows_safe column ms n : stmt_safe (purge_rows column ms n).
Proof.
  intros now locked d Hd. unfold purge_rows. pose proof (interval_from_spec now (- ms)) as Hi.
  destruct (interval_from now (- ms)) as [t|e]; cbn; [|subst e; by right].
  by apply delete_safe.
Qed.

Lemma purge_dead_rows_safe ids : stmt_safe (purge_dead_rows ids).
Proof. apply delete_safe. Qed.

Lemma stats_rows_safe : stmt_safe stats_rows.
Proof. by intros now locked d Hd. Qed.

Lemma list_dead_rows_safe query n : stmt_safe (list_dead_rows query n).
Proof. by intros now locked d Hd. Qed.

(** ** The claim *)

Lemma claimable_at_spec now (r : RawRow) : claimable_at now r = true ↔
  (r_published_at r = None ∧ r_dead_at r = None) ∧ r_available_at r ≤ now
  ∧ (∀ u, r_locked_until r = Some u → u < now) ∧ (∀ e, r_expires_at r = Some e → now < e).
Proof.
  unfold claimable_at. rewrite !andb_true_iff, !bool_decide_eq_true, Z.leb_le.
  destruct (r_expires_at r), (r_locked_until r); rewrite ?Z.ltb_lt; naive_solver.
Qed.

Lemma claimed_elem n now locked l r : r ∈ claimed n now locked l →
  r ∈ l ∧ claimable_at now (raw r) = true ∧ locked (row_id r) = false.
Proof.
  unfold claimed. intros Hr%(sublist_subseteq _ _ (sublist_take _ _)).
  rewrite (elem_of_Permutation_proper r _ _ (sort_by_perm _ _)) in Hr.
  apply list_elem_of_filter in Hr as [[Hc Hk%negb_true_iff]%andb_true_iff Hin]. done.
Qed.

(** Ids are unique, so the join finds the rows the subselect locked. *)
Lemma claimed_by_id (d : Db) n now locked r : r ∈ table d →
  row_id r ∈ row_id <$> claimed n now locked (table d) → r ∈ claimed n now locked (table d).
Proof.
  intros Hr (r' & Hid & Hr')%list_elem_of_fmap.
  destruct (claimed_elem _ _ _ _ _ Hr') as [Hin _].
  by rewrite (NoDup_fmap_eq row_id _ r r' (sound_ids d) Hr Hin Hid).
Qed.

Lemma claim_assigns_ok n w ms now locked (d : Db) r u : r ∈ table d →
  (if bool_decide (row_id r ∈ row_id <$> claimed n now locked (table d))
   then Some (let? until := interval_from now ms in Ok (set_lease (Some w) (Some until) (raw r)))
   else None) = Some u →
  row_ok (raw r) → assigns_ok (raw r) u.
Proof.
  intros Hr Hru Hok. case_bool_decide as Hid; [|done]. injection Hru as <-.
  destruct (claimed_elem _ _ _ _ _ (claimed_by_id _ _ _ _ _ Hr Hid)) as (_ & Hc & _).
  apply claimable_at_spec in Hc as ([Hp Hdd] & _). destruct Hok as [[] Hlp].
  pose proof (interval_from_spec now ms) as Hn. destruct (interval_from now ms); cbn in *;
    [assign_tac|subst; by right].
Qed.

Lemma claim_rows_safe n w ms : stmt_safe (claim_rows n w ms).
Proof.
  intros now locked d Hd. unfold claim_rows. cbn zeta.
  set (ids := row_id <$> claimed n now locked (table d)).
  set (f := λ r, if bool_decide (row_id r ∈ ids) then _ else None).
  pose proof (update_where_safe f now (table d) (next_sequence d)) as Hu.
  destruct (update_where f now (table d)) as [[l k]|e]; cbn in *.
  - destruct Hu as (d' & -> & _ & Ht); [|apply sound_ids|apply sound_sequences|by apply tidy_rows|done].
    exact (claim_assigns_ok n w ms now locked d).
  - apply Hu; [|apply sound_ids|apply sound_sequences|by apply tidy_rows].
    exact (claim_assigns_ok n w ms now locked d).
Qed.
End statements.
