(* ===== verification/PgStoreInv.v ===== *)
(** * Invariants of the Postgres store under every schedule ([reliar-store-postgres], store.rs)

    A property of tables that every statement of an operation keeps, and that the other
    transactions keep, holds after the operation however its round trips are scheduled, cut
    or rolled back; and the errors it reports are those of its statements and of the cuts. *)

From S2P Require Import Prelude RustString CoreTypes CoreHeaders CoreEnvelope OutboxTypes OutboxSettings StoreInterface PgErrors PgRecords PgTable PgStore PgTableInv.

(** ** The operations as data *)

Inductive pg_op :=
  | PAcquire (request : AcquireRequest.t)
  | PComplete (w : WorkerId.t) (items : list CompletedMessage.t)
  | PFail (w : WorkerId.t) (items : list FailedMessage.t)
  | PRelease (w : WorkerId.t) (items : list MessageRef.t)
  | PExtend (w : WorkerId.t) (items : list MessageRef.t) (lease : Duration)
  | PPurge (request : PurgeRequest.t)
  | PStats
  | PListDead (query : DeadQuery.t)
  | PRetryDead (refs : list MessageRef.t)
  | PPurgeDead (refs : list MessageRef.t).

Section run.
Context `{Postgres} `{TimeRange} (schedule : nat → Step) (settings : PostgresOutboxSettings.t).

(** The error of a call, if it answered one. *)
Definition reported {A E} (c : call A E) : option E :=
  match c with Answered (Err e) => Some e | _ => None end.

Definition reporting {A} (m : Pg → Pg * call A PostgresStoreError) (w : Pg)
  : Pg * option PostgresStoreError := let '(w, c) := m w in (w, reported c).

Definition run_pg (o : pg_op) : Pg → Pg * option PostgresStoreError :=
  match o with
  | PAcquire request => reporting (PostgresOutboxStore.acquire schedule settings request)
  | PComplete w items => reporting (PostgresOutboxStore.complete schedule settings w items)
  | PFail w items => reporting (PostgresOutboxStore.fail schedule settings w items)
  | PRelease w items => reporting (PostgresOutboxStore.release schedule settings w items)
  | PExtend w items lease => reporting (PostgresOutboxStore.extend_lease schedule settings w items lease)
  | PPurge request => reporting (PostgresOutboxStore.purge schedule settings request)
  | PStats => reporting (PostgresOutboxStore.stats schedule settings)
  | PListDead query => reporting (PostgresOutboxStore.list_dead schedule settings query)
  | PRetryDead refs => reporting (PostgresOutboxStore.retry_dead schedule settings refs)
  | PPurgeDead refs => reporting (PostgresOutboxStore.purge_dead schedule settings refs)
  end.

(** A run of the provider: the final world, and the errors reported on the way. *)
Fixpoint run_pgs (ops : list pg_op) (w : Pg) : Pg * list PostgresStoreError :=
  match ops with
  | [] => (w, [])
  | o :: ops =>
      let '(w, e) := run_pg o w in
      let '(w, es) := run_pgs ops w in
      (w, match e with Some e => e :: es | None => es end)
  end.
End run.

(** The poisoned rows are among those the claim returned. *)
Section poisoned.
Context `{Postgres} `{TimeRange}.

Lemma failed_ids rows :
  (PostgresOutboxStore.poisoned_item <$> (PostgresOutboxStore.decode_rows rows).2).*1 ⊆ r_id <$> rows.
Proof.
  induction rows as [|raw rows IH]; cbn; [done|].
  destruct (PostgresOutboxStore.decode_rows rows) as [recs fs].
  destruct (decode_row raw) as [record|err] eqn:Ed; [set_solver|]. cbn in *.
  assert (MessageId.as_uuid (re_id err) = r_id raw) as ->; [|set_solver].
  unfold decode_row in Ed. destruct (let? _ := _ in _); [done|]. cbn in Ed. by injection Ed as <-.
Qed.

End poisoned.

(** ** What a schedule keeps *)

Section keeps.
Context `{Postgres} `{TimeRange} (schedule : nat → Step) (settings : PostgresOutboxSettings.t).
Context (P : Db → Prop) (T : OffsetDateTime → Prop) (E : SqlxError → Prop).

Record fair (s : Step) : Prop := {
  fair_others d : P d → P (others s d);
  fair_time : T (at_ s);
  fair_cut b e : fate s = Cut b (Some e) → E e;
}.

(** A statement keeps [P] and answers only what satisfies [Q]. *)
Definition stmt_gives {A} (q : stmt A) (Q : A → Prop) : Prop := ∀ now locked d, T now → P d →
  match q now locked d with Ok (d', a) => P d' ∧ Q a | Err e => E e end.

Definition stmt_keeps {A} (q : stmt A) : Prop := ∀ now locked d, T now → P d →
  match q now locked d with Ok (d', _) => P d' | Err e => E e end.

Lemma stmt_keeps_gives {A} (q : stmt A) : stmt_keeps q → stmt_gives q (λ _, True).
Proof.
  intros Hq now locked d Hn Hd. specialize (Hq now locked d Hn Hd).
  by destruct (q _ _ _) as [[]|].
Qed.

Definition holds (w : Pg) : Prop :=
  P (committed w) ∧ ∀ t, tx w = Some t → P (working t) ∧ T (tx_now t).

Definition answers {A} (c : call A SqlxError) : Prop := ∀ e, c = Answered (Err e) → E e.

(** The same of a computation. *)
Definition gives {A} (m : M A) (Q : A → Prop) : Prop := ∀ w, holds w →
  holds (m w).1 ∧ answers (m w).2 ∧ ∀ a, (m w).2 = Answered (Ok a) → Q a.
Local Abbreviation keeps m := (gives m (λ _, True)).

Context (Hfair : ∀ n, fair (schedule n)).
Context (Hcancel : E query_canceled) (Hparam : E invalid_parameter_value).

#[local] Existing Instance M_ret.
#[local] Existing Instance M_bind.

Lemma gives_ret {A} (a : A) (Q : A → Prop) : Q a → gives (mret a) Q.
Proof. intros Ha w Hw. split; [done|]. split; [done|]. by intros a' [= <-]. Qed.

Lemma gives_bind {A B} (m : M A) (k : A → M B) (Q : A → Prop) (R : B → Prop) :
  gives m Q → (∀ a, Q a → gives (k a) R) → gives (m ≫= k) R.
Proof.
  intros Hm Hk w Hw. unfold mbind, M_bind. destruct (Hm w Hw) as (Hw' & Ha & HQ).
  destruct (m w) as [w' [[a|e]|]]; cbn in *; [by apply Hk; [apply HQ|]|split; [done|]|by split].
  split; [|done]. intros e' [= <-]. by apply Ha.
Qed.

Lemma gives_weaken {A} (m : M A) (Q : A → Prop) : gives m Q → keeps m.
Proof. intros Hm w Hw. destruct (Hm w Hw) as (? & ? & ?). done. Qed.

Lemma arrive_holds w : holds w → holds (arrive schedule w).2.
Proof.
  intros [Hc Ht]. destruct (Hfair (tick w)) as [Ho _ _]. split; cbn; [by apply Ho|].
  intros t Htx. destruct (tx w) as [t0|]; cbn in *; [|done]. injection Htx as <-.
  destruct (Ht _ eq_refl). by split; [apply Ho|].
Qed.

Lemma gives_trip {A} (f : Step → Pg → Pg * result A SqlxError) (Q : A → Prop) :
  (∀ n w, holds w → holds (f (schedule n) w).1
     ∧ match (f (schedule n) w).2 with Ok a => Q a | Err e => E e end) →
  gives (trip schedule f) Q.
Proof.
  intros Hf w Hw. unfold trip. apply arrive_holds in Hw.
  unfold arrive in *. cbn in Hw. destruct (Hf (tick w) _ Hw) as [Hw' Hr].
  destruct (Hfair (tick w)) as [_ _ Hcut].
  assert (Hun : ∀ b why, fate (schedule (tick w)) = Cut b why →
    answers (A:=A) (unanswered why) ∧ ∀ a, unanswered why = Answered (Ok a) → Q a).
  { intros b [e|] Hb; [|done]. split; [|done]. intros e' [= <-]. by eapply Hcut. }
  destruct (fate (schedule (tick w))) as [|[|] why] eqn:Ef; cbn.
  - destruct (f _ _) as [w' [a|e]]; cbn in *; (split; [done|]);
      (split; [by intros e' [= <-]|by intros a' [= <-]]).
  - destruct (f _ _) as [w' r]; cbn in *. split; [done|by eapply Hun].
  - split; [done|by eapply Hun].
Qed.

Lemma gives_exec {A} (q : stmt A) Q : stmt_gives q Q → gives (exec schedule q) Q.
Proof.
  intros Hq. apply gives_trip. intros n w [Hc Ht]. destruct (Hfair n) as [_ Hat _].
  destruct (overruns (schedule n) w); [by split|].
  unfold view, set_view. destruct (tx w) as [t|] eqn:Etx.
  - destruct (Ht _ eq_refl) as [Hp Hn]. specialize (Hq (tx_now t) (locked (schedule n)) _ Hn Hp).
    destruct (q _ _ _) as [[d' a]|e]; cbn.
    + destruct Hq as [Hq HQ]. split; [|done]. split; [done|]. intros t' [= <-]. by split.
    + split; [split; [done|]|done]. rewrite Etx. by intros ? [= <-].
  - specialize (Hq _ (locked (schedule n)) _ Hat Hc). destruct (q _ _ _) as [[d' a]|e]; cbn.
    + by destruct Hq.
    + split; [split; [done|]|done]. by rewrite Etx.
Qed.

Lemma keeps_exec {A} (q : stmt A) : stmt_keeps q → keeps (exec schedule q).
Proof. intros Hq. by apply gives_exec, stmt_keeps_gives. Qed.

Lemma keeps_begin : keeps (pool_begin schedule).
Proof.
  apply gives_trip. intros n w [Hc Ht]. destruct (Hfair n) as [_ Hat _].
  split; [|done]. split; [done|]. intros t [= <-]. by split.
Qed.

Lemma keeps_commit : keeps (commit schedule).
Proof.
  apply gives_trip. intros n w [Hc Ht]. cbn. split; [|done].
  destruct (tx w) as [t|] eqn:Etx; [|split; [done|by rewrite Etx]].
  split; [exact (proj1 (Ht _ eq_refl))|done].
Qed.

Lemma keeps_set_local_timeout : keeps (set_local_timeout schedule settings).
Proof.
  apply gives_trip. intros n w [Hc Ht]. cbv beta zeta.
  destruct (I32_MAX <? millis_i64 (PostgresOutboxSettings.statement_timeout settings)); [by split|].
  split; [|done]. split; [done|]. cbn. intros t' Htx. destruct (tx w) as [t|]; [|done].
  injection Htx as <-. exact (Ht t eq_refl).
Qed.

Lemma gives_scoped {A} (m : M A) Q : gives m Q → gives (scoped m) Q.
Proof.
  intros Hm w Hw. unfold scoped. destruct (Hm w Hw) as ([Hc _] & Ha & HQ).
  destruct (m w) as [w' r]. by split; [split|].
Qed.

Lemma gives_with_timeout {A} (body : M A) Q :
  gives body Q → gives (with_timeout schedule settings body) Q.
Proof.
  intros Hb. unfold with_timeout. destruct (is_zero _); [done|]. apply gives_scoped.
  eapply gives_bind; [apply keeps_begin|intros _ _].
  eapply gives_bind; [apply keeps_set_local_timeout|intros _ _].
  eapply gives_bind; [exact Hb|intros a Ha].
  eapply gives_bind; [apply keeps_commit|intros _ _]. by apply gives_ret.
Qed.

(** ** The operations *)

Definition errs_of (o : option PostgresStoreError) : Prop :=
  ∀ e, o = Some e → ∃ e0, e = store_map_err settings e0 ∧ E e0.

Lemma keeps_run {A} (m : M A) w : keeps m → holds w →
  holds (reporting (run settings m) w).1 ∧ errs_of (reporting (run settings m) w).2.
Proof.
  intros Hm Hw. unfold reporting, run. destruct (Hm w Hw) as (Hw' & Ha & _).
  destruct (m w) as [w' [[a|e]|]]; cbn in *; (split; [done|]); try done.
  intros e' [= <-]. exists e. by split; [|apply Ha].
Qed.

(** The statements an operation sends. *)
Definition op_keeps (o : pg_op) : Prop :=
  match o with
  | PAcquire r =>
      let worker := WorkerId.as_str (AcquireRequest.worker r) in
      ∃ Q, (∀ n ms, stmt_gives (claim_rows n worker ms) Q)
      ∧ ∀ rows, Q rows →
          stmt_keeps (poison_sweep_rows
            (PostgresOutboxStore.poisoned_item <$> (PostgresOutboxStore.decode_rows rows).2)
            worker (encode_dead_reason Undecodable))
  | PComplete w items => stmt_keeps
      (complete_rows (PostgresOutboxStore.ref_uuid ∘ CompletedMessage.message <$> items)
         (WorkerId.as_str w))
  | PFail w items => (∀ l, stmt_keeps (fail_retry_rows l (WorkerId.as_str w)))
      ∧ stmt_keeps (fail_dead_rows (PostgresOutboxStore.split_failures items).2 (WorkerId.as_str w))
  | PRelease w _ => ∀ ids, stmt_keeps (release_rows ids (WorkerId.as_str w))
  | PExtend w _ _ => ∀ ids ms, stmt_keeps (extend_lease_rows ids ms (WorkerId.as_str w))
  | PPurge r =>
      (∀ keep n, PurgeRequest.published_retention r = Some keep →
         stmt_keeps (purge_published_rows (millis_i64 keep) n))
      ∧ (∀ keep n, PurgeRequest.dead_retention r = Some keep →
         stmt_keeps (purge_dead_retention_rows (millis_i64 keep) n))
      ∧ ∀ n, stmt_keeps (purge_expired_sweep_rows n (encode_dead_reason Expired))
  | PStats => stmt_keeps stats_rows
  | PListDead _ => ∀ query n, stmt_keeps (list_dead_rows query n)
  | PRetryDead _ => ∀ ids, stmt_keeps (retry_dead_rows ids)
  | PPurgeDead refs => stmt_keeps (purge_dead_rows (PostgresOutboxStore.ref_uuid <$> refs))
  end.

Lemma keeps_ret {A} (a : A) : keeps (mret a).
Proof. by apply gives_ret. Qed.

Hint Resolve keeps_ret keeps_exec gives_with_timeout : core.

Lemma keeps_on_items {I} (items : list I) (body : M Z) w : keeps body → holds w →
  holds (reporting (PostgresOutboxStore.on_items settings items body) w).1
  ∧ errs_of (reporting (PostgresOutboxStore.on_items settings items body) w).2.
Proof. intros Hb Hw. apply keeps_run; [|done]. destruct items; auto. Qed.

Lemma run_pg_keeps o w : op_keeps o → holds w →
  holds (run_pg schedule settings o w).1 ∧ errs_of (run_pg schedule settings o w).2.
Proof.
  intros Ho Hw. destruct o; cbn [run_pg op_keeps] in *; try (apply keeps_on_items; by auto).
  - destruct Ho as (Q & Hc & Hp). apply keeps_run; [|done].
    eapply gives_bind; [by apply gives_with_timeout, gives_exec, Hc|]. intros rows HQ.
    specialize (Hp rows HQ). destruct (PostgresOutboxStore.decode_rows rows) as [recs fs].
    destruct fs as [|f fs]; [by auto|]. eapply gives_bind; [|intros; apply keeps_ret].
    by apply gives_with_timeout, keeps_exec.
  - destruct Ho as [Hr Hd]. unfold PostgresOutboxStore.fail.
    destruct (PostgresOutboxStore.split_failures items) as [retry dead]. cbn in Hd.
    apply keeps_on_items; [|done]. apply gives_with_timeout.
    eapply gives_bind; [destruct retry; by cbn; auto|intros a _].
    eapply gives_bind; [destruct dead; by cbn; auto|intros b _]. auto.
  - destruct Ho as (Hpu & Hd & He). apply keeps_run; [|done]. apply gives_with_timeout.
    eapply gives_bind; [destruct (PurgeRequest.published_retention _); by cbn; auto|intros a _].
    eapply gives_bind; [destruct (PurgeRequest.dead_retention _); by cbn; auto|intros b _].
    eapply gives_bind; by auto.
  - apply keeps_run; auto.
  - apply keeps_run; [|done]. eapply gives_bind; [by auto|]. intros rows _.
    destruct (PostgresOutboxStore.decode_rows rows). auto.
Qed.

Lemma run_pgs_keeps ops w : Forall op_keeps ops → holds w →
  holds (run_pgs schedule settings ops w).1
  ∧ Forall (λ e, ∃ e0, e = store_map_err settings e0 ∧ E e0) (run_pgs schedule settings ops w).2.
Proof.
  intros Hops. revert w. induction Hops as [|o ops Ho _ IH]; intros w Hw; [by split|].
  cbn [run_pgs]. destruct (run_pg_keeps _ _ Ho Hw) as [Hw' He].
  destruct (run_pg schedule settings o w) as [w' e]. cbn in *.
  destruct (IH _ Hw') as [Hw'' Hes]. destruct (run_pgs schedule settings ops w') as [w'' es].
  cbn in *. split; [done|]. destruct e as [e|]; [|done]. constructor; [by apply He|done].
Qed.
End keeps.

(** Less time to keep it, the same statements. *)
Lemma op_keeps_weaken `{Postgres} `{TimeRange} (P : Db → Prop) (T T' : OffsetDateTime → Prop)
    (E : SqlxError → Prop) o :
  (∀ now, T' now → T now) → op_keeps P T E o → op_keeps P T' E o.
Proof.
  intros HT.
  assert (Hg : ∀ A (q : stmt A) Q, stmt_gives P T E q Q → stmt_gives P T' E q Q).
  { intros A q Q Hq now locked d Hn. apply Hq. by apply HT. }
  assert (Hk : ∀ A (q : stmt A), stmt_keeps P T E q → stmt_keeps P T' E q).
  { intros A q Hq now locked d Hn. apply Hq. by apply HT. }
  destruct o; cbn; [|naive_solver..]. intros (Q & Hc & Hp). exists Q. naive_solver.
Qed.
