(* ===== verification/PgStoreThms.v ===== *)
(** * What the Postgres store promises ([reliar-store-postgres], store.rs) *)

From S2P Require Import Prelude RustString CoreTypes CoreHeaders CoreEnvelope OutboxTypes OutboxSettings StoreInterface PgErrors PgRecords PgRoundtrip PgTable PgStore PgTableInv PgStoreInv.

(** ** The claim *)

Section claim.
Context `{PostgresLaws}.

(** What a claim at [now] selects, of the rows nobody holds locked. *)
Record pg_claims (l : list Row) (now : OffsetDateTime) (locked : Uuid → bool) (n : nat)
    (claimed : list Row) : Prop := {
  pc_nodup : NoDup (row_id <$> claimed);
  pc_due r : r ∈ claimed → r ∈ l ∧ claimable_at now (raw r) = true ∧ locked (row_id r) = false;
  pc_sorted : StronglySorted (λ a b, claim_order a b = true) claimed;
  pc_length : (length claimed ≤ n)%nat;
  pc_first r : r ∈ l → claimable_at now (raw r) = true → locked (row_id r) = false → r ∉ claimed →
    length claimed = n ∧ ∀ c, c ∈ claimed → claim_order c r = true;
}.

Lemma claim_order_total a b : claim_order a b = false → claim_order b a = true.
Proof. apply pair_leb_total. Qed.
Lemma claim_order_trans a b c :
  claim_order a b = true → claim_order b c = true → claim_order a c = true.
Proof. apply pair_leb_trans. Qed.

Lemma claimed_claims (d : Db) now locked n :
  pg_claims (table d) now locked n (claimed n now locked (table d)).
Proof.
  destruct (sorted_prefix claim_order (λ r, claimable_at now (raw r) && negb (locked (row_id r))) n
    (table d) claim_order_total claim_order_trans) as (_ & Hs & Hlen & Hfirst).
  split; [|intros r Hr; by apply (claimed_elem n)|exact Hs|exact Hlen|].
  - unfold claimed. eapply sublist_NoDup; [|apply sublist_fmap, sublist_take].
    rewrite sort_by_perm. eapply sublist_NoDup; [apply (sound_ids d)|apply sublist_fmap, sublist_filter].
  - intros r Hr Hc Hk. apply Hfirst; [done|]. by rewrite Hc, Hk.
Qed.

(** The rows with a claimed id are the claimed rows. *)
Lemma claimed_filter (d : Db) n now locked :
  filter (λ r, row_id r ∈ row_id <$> claimed n now locked (table d)) (table d)
  ≡ₚ claimed n now locked (table d).
Proof.
  destruct (claimed_claims d now locked n) as [Hnd Hdue _ _ _].
  apply NoDup_Permutation; [|by eapply NoDup_fmap_1|].
  - apply NoDup_filter. eapply NoDup_fmap_1, sound_ids.
  - intros r. rewrite list_elem_of_filter. split.
    + intros [Hid Hr]. by apply claimed_by_id.
    + intros Hr. split; [by apply list_elem_of_fmap_2|]. by apply Hdue.
Qed.

Definition leased w until now (r : Row) : Row := mkRow (set_lease (Some w) (Some until) (raw r)) now.

(** [f] on the rows of [l] that have one of the ids, the others as they were. *)
Definition on_ids (ids : list Uuid) (f : Row → Row) (l : list Row) : list Row :=
  (λ r, if decide (row_id r ∈ ids) then f r else r) <$> l.

(** The claim statement: the rows selected are leased, every other is left, and the leased
    rows are returned. *)
Lemma pg_claim_rows_spec n w ms now locked d d' rows :
  claim_rows n w ms now locked d = Ok (d', rows) →
  let claimed := claimed n now locked (table d) in
  ∃ until, (claimed ≠ [] → add_interval now ms = Some until)
  ∧ table d' = on_ids (row_id <$> claimed) (leased w until now) (table d)
  ∧ rows ≡ₚ raw ∘ leased w until now <$> claimed.
Proof.
  intros Hrun. cbn zeta. unfold claim_rows in Hrun. cbn zeta in Hrun.
  set (cl := claimed n now locked (table d)) in *. set (ids := row_id <$> cl) in *.
  set (f := λ r, if bool_decide (row_id r ∈ ids) then _ else None) in *.
  pose proof (update_where_spec f now (table d)) as Hu.
  destruct (update_where f now (table d)) as [[l k]|e]; cbn in Hrun; [|done].
  destruct Hu as [HF _]. destruct (write l (next_sequence d)) as [dw|e] eqn:Ew; cbn in Hrun; [|done].
  apply write_inv in Ew as [Hl _]. injection Hrun as <- <-.
  set (until := default 0 (add_interval now ms)). exists until.
  assert (Hrow : ∀ r r', row_updated f now r r' →
    if decide (row_id r ∈ ids) then add_interval now ms = Some until ∧ r' = leased w until now r
    else r' = r).
  { intros r r'. unfold row_updated, f. case_bool_decide as Hid;
      [rewrite decide_True by done|by rewrite decide_False by done].
    intros (raw' & Hok & ->). pose proof (interval_from_spec now ms) as Hi.
    destruct (interval_from now ms) as [t|]; cbn in Hok; [|done]. injection Hok as <-.
    unfold until. by rewrite Hi. }
  assert (Hmap : l = on_ids ids (leased w until now) (table d)).
  { clear -HF Hrow. clearbody f ids. induction HF as [|r r' l0 l Hr HF IH]; [done|]. unfold on_ids in *.
    rewrite fmap_cons. apply (f_equal2 cons); [|exact IH]. apply Hrow in Hr.
    destruct (decide (row_id r ∈ ids)); [by destruct Hr|exact Hr]. }
  split_and!.
  - intros Hne. assert (∃ c, c ∈ cl) as [c Hc] by (destruct cl as [|c ?]; [done|exists c; left]).
    destruct (claimed_elem _ _ _ _ _ Hc) as (Hct & _).
    apply list_elem_of_lookup in Hct as [i Hi].
    destruct (Forall2_lookup_l _ _ _ _ _ HF Hi) as (r' & _ & Hr').
    apply Hrow in Hr'. rewrite decide_True in Hr' by (by apply list_elem_of_fmap_2). by destruct Hr'.
  - by rewrite Hl.
  - rewrite returning_perm, Hmap, list_fmap_compose. apply fmap_Permutation.
    pose proof (claimed_filter d n now locked) as Hcf. fold cl ids in Hcf. rewrite <-Hcf.
    clearbody ids. clear.
    unfold on_ids. induction (table d) as [|r l IH]; [done|]. cbn [fmap list_fmap].
    rewrite !filter_cons. destruct (decide (row_id r ∈ ids)) as [Hi|Hi].
    + rewrite decide_True by done. cbn. by rewrite IH.
    + rewrite decide_False by done. done.
Qed.

(** A claim returns no more rows than it was asked for. *)
Lemma pg_claim_rows_length n w ms now locked d d' rows :
  claim_rows n w ms now locked d = Ok (d', rows) → (length rows ≤ n)%nat.
Proof.
  intros (until & _ & _ & Hp)%pg_claim_rows_spec. rewrite Hp, length_fmap.
  apply claimed_claims.
Qed.
End claim.

(** ** The poison sweep *)

Section poison.
Context `{PostgresLaws} `{TimeRange}.

Lemma joined_Some {A} (items : list (Uuid * A)) r a :
  joined items r = Some a → (row_id r, a) ∈ items.
Proof.
  unfold joined. destruct (snd <$> _) as [|a0 more] eqn:E; [done|]. intros [= <-].
  pose proof (join_pick_elem a0 more) as Hin. rewrite <-E in Hin.
  apply list_elem_of_fmap in Hin as ([i a] & -> & Hin).
  apply list_elem_of_filter in Hin as [Hid Hin]. cbn in *. by subst i.
Qed.

Lemma joined_None {A} (items : list (Uuid * A)) r :
  joined items r = None → row_id r ∉ items.*1.
Proof.
  unfold joined. destruct (snd <$> _) as [|a0 more] eqn:E; [|done].
  intros _ ([i a] & Hi & Hin)%list_elem_of_fmap. apply fmap_nil_inv in E. cbn in Hi.
  assert (Hf : (i, a) ∈ filter (λ x, x.1 = row_id r) items) by by apply list_elem_of_filter.
  rewrite E in Hf. by apply elem_of_nil in Hf.
Qed.

Definition decoded (raw : RawRow) : option OutboxRecord.t :=
  match decode_row raw with Ok record => Some record | Err _ => None end.
Definition undecodable (raw : RawRow) : option RowError :=
  match decode_row raw with Ok _ => None | Err e => Some e end.

Lemma decode_rows_spec rows :
  PostgresOutboxStore.decode_rows rows = (omap decoded rows, omap undecodable rows).
Proof.
  induction rows as [|raw rows IH]; [done|]. cbn. rewrite IH. unfold decoded, undecodable.
  by destruct (decode_row raw).
Qed.

(** What the sweep does to a row: dead as undecodable and unlocked, its attempts unchanged,
    if the worker still holds it; otherwise nothing. *)
Definition swept_dead w (failures : list RowError) now (r r' : Row) : Prop :=
  (∃ e, e ∈ failures ∧ MessageId.as_uuid (re_id e) = row_id r ∧ r_locked_by (raw r) = Some w
    ∧ r' = mkRow (set_lease None None (set_last_error (Some (truncate_last_error (re_detail e)))
                    (set_dead (Some now) (Some (encode_dead_reason Undecodable)) (raw r)))) now)
  ∨ (r_locked_by (raw r) = Some w → row_id r ∉ MessageId.as_uuid ∘ re_id <$> failures) ∧ r' = r.

Lemma poison_sweep_rows_spec failures w now locked d d' n :
  poison_sweep_rows (PostgresOutboxStore.poisoned_item <$> failures) w
    (encode_dead_reason Undecodable) now locked d = Ok (d', n) →
  Forall2 (swept_dead w failures now) (table d) (table d').
Proof.
  unfold poison_sweep_rows, update.
  match goal with |- context [update_where ?g now _] => set (f := g) end.
  pose proof (update_where_spec f now (table d)) as Hu.
  destruct (update_where f now (table d)) as [[l k]|e]; cbn; [|done].
  destruct Hu as [HF _]. destruct (write l (next_sequence d)) as [dw|e] eqn:Ew; cbn; [|done].
  apply write_inv in Ew as [Hl _]. intros [= <- _]. rewrite Hl.
  eapply Forall2_impl; [exact HF|]. intros r r' Hr. unfold row_updated, f in Hr.
  destruct (joined _ r) as [err|] eqn:Ej.
  - apply joined_Some, list_elem_of_fmap in Ej as (e & Heq & He). injection Heq as Hid ->.
    case_bool_decide as Hw.
    + destruct Hr as (raw' & [= <-] & ->). left. by exists e.
    + right. by split; [intros Hw'|].
  - right. split; [intros _|done]. apply joined_None in Ej. by rewrite <-list_fmap_compose in Ej.
Qed.
End poison.

(** ** A lease *)

Section lease.
Context `{PostgresLaws} `{TimeRange}.
Context (row : Row) (w : string) (u : OffsetDateTime).

(** The table holds the row, leased to the worker until an instant not yet passed. *)
Definition protects (d : Db) : Prop := tidy d ∧ row ∈ table d.
Definition in_lease (now : OffsetDateTime) : Prop := now ≤ u.
Definition any_error (_ : SqlxError) : Prop := True.
Local Abbreviation spares q := (stmt_keeps protects in_lease any_error q).

Context (Hw : r_locked_by (raw row) = Some w) (Hu : r_locked_until (raw row) = Some u).

Lemma update_spares (f : OffsetDateTime → Row → option (result RawRow SqlxError)) :
  stmt_safe (update f) → (∀ now, now ≤ u → row_ok (raw row) → f now row = None) → spares (update f).
Proof.
  intros Hsafe Hf now locked d Hnow [Htidy Hin]. specialize (Hsafe now locked d Htidy).
  unfold update in *. pose proof (update_where_spec (f now) now (table d)) as Hs.
  destruct (update_where (f now) now (table d)) as [[l k]|e]; cbn in *; [|done].
  destruct (write l (next_sequence d)) as [d'|e] eqn:Ew; cbn in *; [|done].
  apply write_inv in Ew as [Hl _]. split; [done|]. rewrite Hl. destruct Hs as [HF _].
  assert (Hok : row_ok (raw row)) by (pose proof (tidy_rows d Htidy) as Ht; rewrite Forall_forall in Ht; auto).
  apply list_elem_of_lookup in Hin as [i Hi].
  destruct (Forall2_lookup_l _ _ _ _ _ HF Hi) as (r' & Hr' & Hrow). unfold row_updated in Hrow.
  rewrite Hf in Hrow by done. subst r'. by eapply list_elem_of_lookup_2.
Qed.

Lemma delete_spares p : (∀ now l, row_ok (raw row) → p now l row = false) → spares (delete_where p).
Proof.
  intros Hp now locked d _ [Htidy Hin]. pose proof (delete_safe p now locked d Htidy) as Hsafe.
  unfold delete_where in *. destruct (write _ _) as [d'|e] eqn:Ew; cbn in *; [|done].
  apply write_inv in Ew as [Hl _]. split; [done|]. rewrite Hl. apply list_elem_of_filter.
  split; [|done]. apply Hp. pose proof (tidy_rows d Htidy) as Ht. rewrite Forall_forall in Ht. auto.
Qed.

Lemma leased_row_pending : row_ok (raw row) → r_published_at (raw row) = None ∧ r_dead_at (raw row) = None.
Proof. by apply locked_pending with w. Qed.

Lemma not_held ids v : v ≠ w → held ids v row = false.
Proof.
  intros Hv. unfold held. rewrite Hw. apply andb_false_iff. right. apply bool_decide_eq_false. congruence.
Qed.

Lemma not_claimable now : now ≤ u → claimable_at now (raw row) = false.
Proof.
  intros Hn. apply not_true_iff_false. intros (_ & _ & Hl & _)%claimable_at_spec.
  specialize (Hl _ Hu). lia.
Qed.

Lemma not_sweepable now : now ≤ u → sweepable_at now (raw row) = false.
Proof.
  intros Hn. apply not_true_iff_false. intros (_ & _ & _ & Hl)%sweepable_at_spec.
  specialize (Hl _ Hu). lia.
Qed.

Lemma claim_spares n v ms :
  stmt_gives protects in_lease any_error (claim_rows n v ms) (λ rows, row_id row ∉ r_id <$> rows).
Proof.
  intros now locked d Hn [Htidy Hin]. pose proof (claim_rows_safe n v ms now locked d Htidy) as Hsafe.
  destruct (claim_rows n v ms now locked d) as [[d' rows]|e] eqn:Ec; [|done].
  apply pg_claim_rows_spec in Ec as (until & _ & Ht & Hrows).
  assert (Hid : row_id row ∉ row_id <$> claimed n now locked (table d)).
  { intros Hc%(claimed_by_id d n now locked row Hin). apply claimed_elem in Hc as (_ & Hc & _).
    by rewrite not_claimable in Hc. }
  split; [split; [done|]|].
  - rewrite Ht. unfold on_ids. apply list_elem_of_fmap. exists row. by rewrite decide_False.
  - rewrite Hrows, <-list_fmap_compose. exact Hid.
Qed.

Lemma purge_rows_spares column ms n :
  (row_ok (raw row) → column (raw row) = None) → spares (purge_rows column ms n).
Proof.
  intros Hc now locked d Hn Hd. unfold purge_rows. destruct (interval_from _ _) as [cut|]; cbn; [|done].
  apply (delete_spares (λ _, picked (λ r, past_retention (column (raw r)) cut) n)); [|done|done].
  intros _ l Hok. unfold picked. rewrite (Hc Hok). apply andb_false_r.
Qed.

Lemma expired_sweep_spares n reason : spares (purge_expired_sweep_rows n reason).
Proof.
  intros now locked d Hn Hd. unfold purge_expired_sweep_rows.
  apply (update_spares _ (expired_sweep_safe (table d) n reason)); [|done|done].
  clear -Hu. intros now Hn _. unfold picked. by rewrite not_sweepable, andb_false_r.
Qed.

(** The statements other workers and the operators send. *)
Definition not_issued_by (o : pg_op) : Prop :=
  match o with
  | PComplete v _ | PFail v _ | PRelease v _ | PExtend v _ _ => WorkerId.as_str v ≠ w
  | _ => True
  end.

Lemma poison_spares items v reason : row_id row ∉ items.*1 → spares (poison_sweep_rows items v reason).
Proof.
  intros Hv. apply update_spares; [apply poison_sweep_rows_safe|]. intros now _ _.
  destruct (joined items row) as [err|] eqn:Ej; [|done].
  apply joined_Some in Ej. destruct Hv. by apply (list_elem_of_fmap_2 fst) in Ej.
Qed.

Lemma held_spares ids v (g : OffsetDateTime → Row → result RawRow SqlxError) :
  v ≠ w → stmt_safe (update (λ now r, if held ids v r then Some (g now r) else None)) →
  spares (update (λ now r, if held ids v r then Some (g now r) else None)).
Proof. intros Hv Hsafe. apply update_spares; [done|]. intros now _ _. by rewrite not_held. Qed.

Lemma fail_retry_spares items v : v ≠ w → spares (fail_retry_rows items v).
Proof.
  intros Hv. apply update_spares; [apply fail_retry_rows_safe|]. intros now _ _.
  destruct (joined items row) as [[]|]; [|done]. rewrite bool_decide_eq_false_2; [done|congruence].
Qed.
Lemma fail_dead_spares items v : v ≠ w → spares (fail_dead_rows items v).
Proof.
  intros Hv. apply update_spares; [apply fail_dead_rows_safe|]. intros now _ _.
  destruct (joined items row) as [[]|]; [|done]. rewrite bool_decide_eq_false_2; [done|congruence].
Qed.

Lemma others_spare o : not_issued_by o → op_keeps protects in_lease any_error o.
Proof.
  intros Ho. destruct o; cbn in *.
  - exists (λ rows, row_id row ∉ r_id <$> rows). split; [intros; apply claim_spares|].
    intros rows HQ. apply poison_spares. intros Hl. by apply HQ, failed_ids.
  - by apply held_spares, complete_rows_safe.
  - split; [intros; by apply fail_retry_spares|by apply fail_dead_spares].
  - intros ids. by apply held_spares, release_rows_safe.
  - intros ids ms. by apply held_spares, extend_lease_rows_safe.
  - split_and!; [| |intros n; apply expired_sweep_spares]; intros keep n _; apply purge_rows_spares;
      intros Hok; by destruct (leased_row_pending Hok).
  - by intros now locked d _ Hd.
  - by intros ? n now locked d _ Hd.
  - intros ids. apply update_spares; [apply retry_dead_rows_safe|]. intros now _ Hok.
    destruct (leased_row_pending Hok) as [_ ->]. by rewrite andb_false_r.
  - intros ids. apply delete_spares. intros now l Hok.
    destruct (leased_row_pending Hok) as [_ ->]. by rewrite andb_false_r.
Qed.
End lease.

(** ** Properties *)

Section properties.
Context `{PostgresLaws} `{TimeRange} (schedule : nat → Step) (settings : PostgresOutboxSettings.t).

(** What may be reported: the arithmetic of a statement, the timeout, the reason of a cut. *)
Definition reportable (e : SqlxError) : Prop :=
  range_error e ∨ (e = query_canceled ∨ e = invalid_parameter_value)
  ∨ ∃ n b, fate (schedule n) = Cut b (Some e).

Lemma op_safe o : op_keeps tidy (λ _, True) reportable o.
Proof.
  assert (Hs : ∀ A (q : stmt A), stmt_safe q → stmt_keeps tidy (λ _, True) reportable q).
  { intros A q Hq now locked d _ Hd. specialize (Hq now locked d Hd).
    destruct (q now locked d) as [[]|]; [done|by left]. }
  destruct o; cbn.
  - exists (λ _, True). split; [intros; apply stmt_keeps_gives|intros]; apply Hs;
      [apply claim_rows_safe|apply poison_sweep_rows_safe].
  - apply Hs, complete_rows_safe.
  - split; intros; apply Hs; [apply fail_retry_rows_safe|apply fail_dead_rows_safe].
  - intros. apply Hs, release_rows_safe.
  - intros. apply Hs, extend_lease_rows_safe.
  - split_and!; intros; apply Hs;
      [apply purge_rows_safe|apply purge_rows_safe|apply purge_expired_sweep_rows_safe].
  - apply Hs, stats_rows_safe.
  - intros. apply Hs, list_dead_rows_safe.
  - intros. apply Hs, retry_dead_rows_safe.
  - intros. apply Hs, purge_dead_rows_safe.
Qed.

(** C15 [invariant] Leased rows stay pending, and no constraint of the schema is ever in the
    way: whatever operations run, in whatever order, and however their statements interleave
    with other transactions that keep leased rows pending, are cut off or rolled back, a row
    with a lease is neither published nor dead in the table they leave, and every error they
    report is an out-of-range attempts counter or interval, a refused or expired
    statement_timeout, or the reason of a cut - never a violated CHECK, primary key or unique
    index. *)
Theorem pg_leased_rows_pending (ops : list pg_op) (w : Pg)
    (Hothers : ∀ n d, tidy d → tidy (others (schedule n) d)) (Hw : tidy (committed w))
    (Htx : tx w = None) :
  tidy (committed (run_pgs schedule settings ops w).1)
  ∧ ∀ e, e ∈ (run_pgs schedule settings ops w).2 →
      ∃ e0, e = store_map_err settings e0 ∧ reportable e0.
Proof.
  destruct (run_pgs_keeps schedule settings tidy (λ _, True) reportable) with ops w as [Hh He].
  - intros n. split; [apply Hothers|done|]. intros b e Hf. right. right. eauto.
  - right; left; by left.
  - right; left; by right.
  - apply Forall_true. apply op_safe.
  - split; [done|]. by rewrite Htx.
  - split; [apply Hh|]. by apply Forall_forall.
Qed.

(** C9 [safety] A live lease protects its row in Postgres: while [locked_until] has not passed
    by the database's clock, a row leased to a worker stays exactly as it is through every
    claim - by anybody, the worker included - and every [complete], [fail], [release] and
    [extend_lease] of another worker, every purge and sweep, and every [retry_dead] and
    [purge_dead], whatever the schedule, provided the application's own transactions leave the
    row alone. *)
Theorem pg_lease_protects (ops : list pg_op) (w : Pg) (row : Row) (worker : string)
    (u : OffsetDateTime) (Hlocked : r_locked_by (raw row) = Some worker)
    (Huntil : r_locked_until (raw row) = Some u)
    (Hothers : ∀ n d, protects row d → protects row (others (schedule n) d))
    (Htime : ∀ n, at_ (schedule n) ≤ u) (Hops : Forall (not_issued_by worker) ops)
    (Hw : protects row (committed w)) (Htx : tx w = None) :
  row ∈ table (committed (run_pgs schedule settings ops w).1).
Proof.
  destruct (run_pgs_keeps schedule settings (protects row) (in_lease u) any_error) with ops w
    as [Hh _].
  - intros n. by split; [apply Hothers|apply Htime|].
  - done.
  - done.
  - eapply Forall_impl; [exact Hops|]. intros o. by apply others_spare.
  - split; [done|]. by rewrite Htx.
  - apply Hh.
Qed.

(** ** Undisturbed round trips *)

Definition ticked (d : Db) (w : Pg) : Pg :=
  mkPg d None (S (tick w)) (pg_clock w + takes (schedule (tick w))).

(** A statement of its own, run to its end. *)
Lemma exec_pool {A} (q : stmt A) (w : Pg) :
  tx w = None → fate (schedule (tick w)) = Runs →
  let s := schedule (tick w) in
  exec schedule q w =
  match q (at_ s) (locked s) (others s (committed w)) with
  | Ok (d, a) => (ticked d w, Answered (Ok a))
  | Err e => (ticked (others s (committed w)) w, Answered (Err e))
  end.
Proof.
  intros Htx Hf. unfold exec, trip, arrive, view, set_view, overruns. cbn. rewrite Hf, Htx. cbn.
  by destruct (q _ _ _) as [[]|].
Qed.

Lemma run_Ok {A} (m : M A) w w' a :
  run settings m w = (w', Answered (Ok a)) → m w = (w', Answered (Ok a)).
Proof. unfold run. destruct (m w) as [w1 [[a'|e]|]]; cbn; [by intros [= <- <-]|done..]. Qed.

Lemma omap_rows {A B C} (f : B → option C) (g : A → B) (l : list A) (k : list B) :
  k ≡ₚ g <$> l → omap f k ≡ₚ omap (f ∘ g) l.
Proof.
  intros Hk. etrans; [exact (omap_Permutation f _ _ Hk)|]. clear.
  induction l as [|x l IH]; [done|]. cbn. destruct (f (g x)); [by apply Permutation_skip|done].
Qed.

End properties.

(** ** The dispatcher's interface *)

Section interface.
Context `{PostgresLaws} `{TimeRange} (schedule : nat → Step) (settings : PostgresOutboxSettings.t).

Lemma acquire_length request w w' b :
  PostgresOutboxStore.acquire schedule settings request w = (w', Answered (Ok b)) →
  (length (AcquiredBatch.records b) ≤ Z.to_nat (AcquireRequest.batch_size request))%nat.
Proof.
  intros Hrun%run_Ok. revert Hrun.
  match goal with |- ?m w = _ → _ => set (claim := m) end. intros Hrun.
  assert (Hg : gives (λ _, True) (λ _, True) (λ _, True) claim (λ b,
    (length (AcquiredBatch.records b) ≤ Z.to_nat (AcquireRequest.batch_size request))%nat)).
  { assert (Hfair : ∀ n, fair (λ _, True) (λ _, True) (λ _, True) (schedule n)) by done.
    eapply gives_bind.
    - apply gives_with_timeout; [done..|]. apply gives_exec; [done..|]. intros now locked d _ _.
      destruct (claim_rows _ _ _ _ _ _) as [[d' rows]|] eqn:Ec; [|done].
      split; [done|]. exact (pg_claim_rows_length _ _ _ _ _ _ _ _ Ec).
    - cbv beta. intros rows Hrows. rewrite decode_rows_spec.
      assert (Hlen : (length (omap decoded rows) ≤ length rows)%nat).
      { clear. induction rows as [|r rows IH]; [done|]. cbn. destruct (decoded r); cbn; lia. }
      destruct (omap undecodable rows); [apply gives_ret; cbn [AcquiredBatch.records]; lia|].
      apply gives_bind with (Q := λ _, True); [|intros _ _; apply gives_ret; cbn [AcquiredBatch.records]; lia].
      apply gives_with_timeout; [done..|]. apply gives_exec; [done..|]. intros now locked d _ _.
      destruct (poison_sweep_rows _ _ _ _ _ _) as [[]|]; by split. }
  destruct (Hg w) as (_ & _ & HQ); [done|]. rewrite Hrun in HQ. by apply HQ.
Qed.

#[global] Instance PostgresStore_laws :
  @OutboxStoreLaws Pg PostgresStoreError _ (PostgresOutboxStore.PostgresStore schedule settings).
Proof.
  intros budget request w w' b Hb Hrun. apply acquire_length in Hrun. lia.
Qed.
End interface.

(** ** A concrete database *)

(** Intervals within the exact range, the first matching rows, in table order. *)
Definition plain_postgres : Postgres (H := plain_json) := {|
  add_interval t ms := if Z.abs ms <=? EXACT_MS then Some (t + ms * 1000000) else None;
  limit_rows n l := take n l;
  returning_order l := l;
  join_pick _ a _ := a;
|}.

Lemma plain_postgres_laws : PostgresLaws (H0 := plain_postgres).
Proof.
  split; cbn.
  - intros t ms u _. destruct (_ <=? _); congruence.
  - intros n l. apply sublist_submseteq, sublist_take.
  - intros n l. by rewrite length_take.
  - done.
  - intros A a l. left.
Qed.

#[local] Existing Instances plain_json plain_postgres plain_postgres_laws default_time_range.

Definition order_envelope (n : Z) : SerializedEnvelope :=
  Envelope.mk (MessageId.from_uuid n) (MessageType.from_parts "orders.placed" 1) [Byte.x01]
    Metadata.default None.

(** An order pending since 9, the same with an unknown metadata version, and one leased. *)
Definition order_row (n : Z) : RawRow :=
  staged_row (order_envelope n) [Byte.x01] ContentType.JSON EnqueueOptions_default n 9.
Definition strange_row (n : Z) : RawRow :=
  let r := order_row n in
  mkRaw (r_id r) (r_sequence r) (r_message_type r) (r_message_version r) (r_correlation_id r)
    (r_conversation_id r) (r_causation_id r) (r_request_id r) (r_content_type r) (r_payload r)
    (r_tenant_id r) (r_expires_at r) (r_ordering_key r) (r_metadata r) (r_headers r)
    2 (r_created_at r) (r_available_at r) (r_attempts r) (r_locked_by r) (r_locked_until r)
    (r_published_at r) (r_dead_at r) (r_dead_reason r) (r_last_error r).
Definition leased_row : Row := mkRow (set_lease (Some "w2") (Some 5000) (order_row 3)) 9.

Definition sample_db : Db :=
  mkDb [mkRow (order_row 1) 9; mkRow (strange_row 2) 9; leased_row] 4 eq_refl.

(** Every round trip runs, at the instant 100, and nobody else is there. *)
Definition quiet : nat → Step := λ _, mkStep 100 1000 id (λ _, false) Runs.

Definition sample_pg : Pg := mkPg sample_db None 0 0.
Definition sample_request : AcquireRequest.t := AcquireRequest.new (WorkerId.mk "w1").
Definition sample_run : list pg_op :=
  [PAcquire sample_request;
   PComplete (WorkerId.mk "w1") [CompletedMessage.new (MessageRef.new (MessageId.from_uuid 1) 9)];
   PPurge PurgeRequest.default].

Lemma sample_tidy : tidy sample_db.
Proof. repeat (apply Forall_cons_2; [by split|]). constructor. Qed.

Lemma pg_leased_rows_pending_witness :
  tidy (committed (run_pgs quiet PostgresOutboxSettings.default sample_run sample_pg).1)
  ∧ (run_pgs quiet PostgresOutboxSettings.default sample_run sample_pg).2 = [].
Proof.
  split; [|vm_compute; reflexivity].
  apply (pg_leased_rows_pending quiet PostgresOutboxSettings.default sample_run sample_pg);
    [intros ? d Hd; exact Hd|exact sample_tidy|reflexivity].
Defined.

Lemma pg_lease_protects_witness :
  leased_row ∈ table (committed (run_pgs quiet PostgresOutboxSettings.default sample_run sample_pg).1).
Proof.
  apply (pg_lease_protects quiet PostgresOutboxSettings.default sample_run sample_pg leased_row "w2" 5000);
    [reflexivity|reflexivity|intros ? d Hd; exact Hd|intros n; cbn; lia| | |reflexivity].
  - repeat constructor; cbn; discriminate.
  - split; [exact sample_tidy|]. right; right; left.
Defined.

