(* ===== verification/PgFmt.v ===== *)
(** * What the Postgres store prints, and its settings over serde ([reliar-store-postgres])

    The [Display] of the store's errors (error.rs, migrate.rs), the [Debug] of its settings and
    of the store, and the [Serialize] and [Deserialize] of the settings (settings.rs,
    duration_serde.rs).  The text of a [sqlx::Error] and of a UUID are third-party code. *)

From S2P Require Import Prelude RustString RustFmt CoreTypes CoreHeaders CoreEnvelope CoreFmt CoreSerde OutboxTypes OutboxSettings OutboxSerde OutboxFmt StoreInterface PgErrors PgRecords PgRoundtrip PgTable PgStore PgTableInv PgStoreInv PgStoreThms.

Class PgTexts := {
  sqlx_Error :: Error SqlxError;
  pg_uuid_display : Uuid → string;
}.

Section display.
Context `{PgTexts} `{Unicode}.

Definition quoted (s : string) : string := QUOTE +:+ s +:+ QUOTE.
Definition id_text (id : MessageId.t) : string := pg_uuid_display (MessageId.as_uuid id).
Definition not_an_identifier (schema : string) : string :=
  str_debug schema
  +:+ " is not a valid PostgreSQL identifier (expected [A-Za-z_][A-Za-z0-9_$]*, at most 63 bytes)".

(* src: pg/error.rs 77-109 PostgresStoreError::fmt *)
Definition PostgresStoreError_display (e : PostgresStoreError) : string :=
  match e with
  | SchemaResolution configured observed =>
      "outbox did not resolve to schema " +:+ quoted configured +:+ " (observed search_path: "
      +:+ quoted observed +:+ "); set search_path so " +:+ quoted configured
      +:+ " comes first, e.g. ALTER ROLE <role> SET search_path = " +:+ configured +:+ ", public"
  | NotMigrated schema =>
      "relation " +:+ quoted (schema +:+ ".outbox")
      +:+ " does not exist; call reliar_store_postgres::migrate(&pool, ..) before constructing the store"
  | Database source => "database error: " +:+ error_display source
  | Decode id detail => "row " +:+ id_text id +:+ " could not be decoded: " +:+ detail
  | UnknownMetadataVersion id version =>
      "row " +:+ id_text id +:+ " carries unknown metadata_version " +:+ display_int version
  | DuplicateMessage id => "message id " +:+ id_text id +:+ " already exists in the outbox"
  | InvalidSchema schema => not_an_identifier schema
  end.

(* src: pg/error.rs 216-226 EnqueueError::fmt *)
Definition EnqueueError_display {E} (show : E → string) (e : EnqueueError.t E) : string :=
  match e with
  | EnqueueError.Serialize source => "failed to serialize the envelope body: " +:+ show source
  | EnqueueError.Duplicate id => "message id " +:+ id_text id +:+ " already exists in the outbox"
  | EnqueueError.Database source => "database error: " +:+ error_display source
  end.

(* src: pg/migrate.rs 68-79 MigrateError::fmt *)
Definition MigrateError_display {S} (show : S → string) (e : MigrateError S) : string :=
  match e with
  | MInvalidSchema schema => not_an_identifier schema
  | MSqlx source => "migration failed: " +:+ show source
  end.

(* src: pg/error.rs 111-118 PostgresStoreError::source *)
#[export] Instance PostgresStoreError_Error : Error PostgresStoreError := {|
  error_display := PostgresStoreError_display;
  error_source e := match e with Database source => Some (as_dyn source) | _ => None end;
|}.

(* src: pg/error.rs 228-236 EnqueueError::source *)
#[export] Instance EnqueueError_Error {E} `{Error E} : Error (EnqueueError.t E) := {|
  error_display := EnqueueError_display error_display;
  error_source e := match e with
                    | EnqueueError.Serialize source => Some (as_dyn source)
                    | EnqueueError.Database source => Some (as_dyn source)
                    | EnqueueError.Duplicate _ => None
                    end;
|}.

(* src: pg/migrate.rs 81-88 MigrateError::source *)
#[export] Instance MigrateError_Error {S} `{Error S} : Error (MigrateError S) := {|
  error_display := MigrateError_display error_display;
  error_source e := match e with MSqlx source => Some (as_dyn source) | MInvalidSchema _ => None end;
|}.

(* src: pg/settings.rs 14-43 PostgresOutboxSettings *)
Definition PostgresOutboxSettings_debug (s : PostgresOutboxSettings.t) : string :=
  debug_struct "PostgresOutboxSettings"
    [("schema", str_debug (PostgresOutboxSettings.schema s));
     ("enqueue_sets_search_path", bool_debug (PostgresOutboxSettings.enqueue_sets_search_path s));
     ("statement_timeout", duration_debug (PostgresOutboxSettings.statement_timeout s))].
(** Of the store its settings alone: not the pool, which holds the credentials. *)
(* src: pg/store.rs 79-85 PostgresOutboxStore::fmt *)
Definition PostgresOutboxStore_debug (settings : PostgresOutboxSettings.t) : string :=
  debug_struct_open "PostgresOutboxStore" [("settings", PostgresOutboxSettings_debug settings)].
End display.

(** ** The settings over serde *)

(* src: pg/duration_serde.rs 12-15 serialize *)
Definition se_pg_millis (d : Duration) : option value :=
  let ms := as_millis d in if ms <=? U64_MAX then Some (VInt ms) else None.
(* src: pg/duration_serde.rs 17-19 deserialize *)
Definition de_pg_millis (v : value) : result Duration de_error :=
  let? ms := de_uint U64_MAX v in Ok (from_millis ms).

(* src: pg/settings.rs 14-43 PostgresOutboxSettings *)
Definition se_pg_settings (s : PostgresOutboxSettings.t) : option value :=
  statement_timeout ← se_pg_millis (PostgresOutboxSettings.statement_timeout s);
  Some (VMap [("schema", VStr (PostgresOutboxSettings.schema s));
              ("enqueue_sets_search_path", VBool (PostgresOutboxSettings.enqueue_sets_search_path s));
              ("statement_timeout_ms", statement_timeout)]).
Definition pg_settings_visitors : list (string * (value → result unit de_error)) :=
  [("schema", checks de_str); ("enqueue_sets_search_path", checks de_bool);
   ("statement_timeout_ms", checks de_pg_millis)].
(* src: pg/settings.rs 14-43 PostgresOutboxSettings *)
Definition de_pg_settings (v : value) : result PostgresOutboxSettings.t de_error :=
  let dflt := PostgresOutboxSettings.default in
  let? m := visit_map_strict pg_settings_visitors v in
  let? schema := field de_str (PostgresOutboxSettings.schema dflt) "schema" m in
  let? sets := field de_bool (PostgresOutboxSettings.enqueue_sets_search_path dflt)
                 "enqueue_sets_search_path" m in
  let? statement_timeout :=
    field de_pg_millis (PostgresOutboxSettings.statement_timeout dflt) "statement_timeout_ms" m in
  Ok (PostgresOutboxSettings.mk schema sets statement_timeout).

(** The settings read back, with the timeout cut to milliseconds - so that a timeout below
    one, which the store writes as none, becomes none in the file too. *)
Lemma pg_settings_survive_serde s v keep :
  0 ≤ PostgresOutboxSettings.statement_timeout s → se_pg_settings s = Some v →
  de_pg_settings (prune keep [] v)
  = Ok (PostgresOutboxSettings.mk
          (kept (keep []) "schema" (PostgresOutboxSettings.schema s) "reliar")
          (kept (keep []) "enqueue_sets_search_path"
             (PostgresOutboxSettings.enqueue_sets_search_path s) false)
          (kept (keep []) "statement_timeout_ms"
             (in_millis (PostgresOutboxSettings.statement_timeout s)) 0)).
Proof.
  intros Ht Hs. unfold se_pg_settings in Hs. apply bind_Some in Hs as (t & Hm & [= <-]).
  unfold se_pg_millis in Hm. cbv zeta in Hm.
  destruct (Z.leb_spec (as_millis (PostgresOutboxSettings.statement_timeout s)) U64_MAX); [|done].
  injection Hm as <-. rewrite prune_map. cbn [fmap list_fmap fst snd prune].
  assert (E1 : de_str (VStr (PostgresOutboxSettings.schema s)) = Ok (PostgresOutboxSettings.schema s)) by done.
  assert (E2 : de_bool (VBool (PostgresOutboxSettings.enqueue_sets_search_path s))
    = Ok (PostgresOutboxSettings.enqueue_sets_search_path s)) by done.
  assert (E3 : de_pg_millis (VInt (as_millis (PostgresOutboxSettings.statement_timeout s)))
    = Ok (in_millis (PostgresOutboxSettings.statement_timeout s))).
  { unfold de_pg_millis. rewrite de_uint_VInt; [done|]. unfold as_millis in *.
    split; [by apply Z.div_pos|done]. }
  unfold de_pg_settings. revert E1 E2 E3. read_kept.
Qed.

(** ** What the texts can tell *)

Section texts.
Context `{Postgres} `{TimeRange}.

(** The row with another payload. *)
Definition with_payload (p : Bytes) (r : RawRow) : RawRow :=
  mkRaw (r_id r) (r_sequence r) (r_message_type r) (r_message_version r) (r_correlation_id r)
    (r_conversation_id r) (r_causation_id r) (r_request_id r) (r_content_type r) p
    (r_tenant_id r) (r_expires_at r) (r_ordering_key r) (r_metadata r) (r_headers r)
    (r_metadata_version r) (r_created_at r) (r_available_at r) (r_attempts r) (r_locked_by r)
    (r_locked_until r) (r_published_at r) (r_dead_at r) (r_dead_reason r) (r_last_error r).

Definition set_body (p : Bytes) (e : SerializedEnvelope) : SerializedEnvelope :=
  from_parts (Envelope.id e) (Envelope.message_type e) p (Envelope.metadata e) (Envelope.headers e).

(** Decoding never looks at the payload. *)
Lemma decode_envelope_payload p r :
  decode_envelope (with_payload p r)
  = match decode_envelope r with Ok e => Ok (set_body p e) | Err detail => Err detail end.
Proof.
  unfold decode_envelope. cbn [with_payload r_metadata_version r_message_version r_metadata
    r_correlation_id r_content_type r_headers r_message_type r_payload r_id r_conversation_id
    r_causation_id r_request_id r_expires_at r_tenant_id].
  destruct (negb _); [done|].
  repeat match goal with
    | |- result_bind ?m _ = match result_bind ?m _ with _ => _ end => destruct m; cbn [result_bind]; [|done]
    end.
  done.
Qed.

Lemma decode_row_payload p r err :
  decode_row (with_payload p r) = Err err ↔ decode_row r = Err err.
Proof.
  unfold decode_row. rewrite decode_envelope_payload.
  cbn [with_payload r_id r_sequence r_dead_reason r_locked_by r_attempts r_created_at r_ordering_key
    r_available_at r_locked_until r_published_at r_dead_at r_last_error].
  destruct (decode_envelope r) as [e|detail]; [|done]. cbn [result_bind].
  repeat match goal with
    | |- context [result_bind ?m _] => destruct m; cbn [result_bind]; [|done]
    end.
  cbn [map_err]. split; intros [=].
Qed.

(** What a refused headers column can read. *)
Definition header_texts (k : string) (n : Z) : list string :=
  ("header " +:+ str_debug k +:+ " is not a JSON string")
  :: ((λ e, "invalid header " +:+ str_debug k +:+ ": " +:+ HeaderError_display e)
        <$> header_refusals k n).

Lemma decode_headers_text l h detail :
  decode_headers l h = Err detail → ∃ k n, k ∈ l.*1 ∧ detail ∈ header_texts k n.
Proof.
  revert h; induction l as [|[k v] l IH]; intros h; cbn [decode_headers fmap list_fmap fst]; [done|].
  destruct (as_str v) as [s|].
  - destruct (Headers.insert h k s) as [h' [old|e]] eqn:Ei.
    + intros (k' & n & Hk & Ht)%IH. exists k', n. split; [by right|done].
    + intros [= <-]. apply insert_refusal in Ei as [n Hn]. exists k, n. split; [left|].
      right. apply list_elem_of_fmap. by exists e.
  - intros [= <-]. exists k, 0. split; left.
Qed.

Context `{!PgTexts} (schedule : nat → Step) (settings : PostgresOutboxSettings.t).

(** The errors of a call are [sqlx]'s, or that there is no table. *)
Definition store_error (e : PostgresStoreError) : Prop :=
  e = NotMigrated (PostgresOutboxSettings.schema settings) ∨ ∃ source, e = Database source.

Lemma run_error {A} (m : M A) w e : (reporting (run settings m) w).2 = Some e → store_error e.
Proof.
  unfold reporting, run. destruct (m w) as [w' [[a|source]|]]; cbn; try done.
  intros [= <-]. unfold store_map_err, map_operational_error.
  destruct (is_undefined_table source); [by left|right; by eexists].
Qed.

Lemma run_pg_error o w e : (run_pg schedule settings o w).2 = Some e → store_error e.
Proof.
  destruct o; cbn [run_pg]; try apply run_error.
  unfold PostgresOutboxStore.fail. destruct (PostgresOutboxStore.split_failures items).
  apply run_error.
Qed.

Lemma run_pgs_errors ops w : Forall store_error (run_pgs schedule settings ops w).2.
Proof.
  revert w; induction ops as [|o ops IH]; intros w; [done|]. cbn [run_pgs].
  pose proof (run_pg_error o w) as He. destruct (run_pg schedule settings o w) as [w1 e].
  specialize (IH w1). destruct (run_pgs schedule settings ops w1) as [w2 es]. cbn in *.
  destruct e as [e|]; [|done]. constructor; [by apply He|done].
Qed.

(** What the chain of a reported error can read. *)
Definition store_error_chain (c : list string) : Prop :=
  c = ["relation " +:+ quoted (PostgresOutboxSettings.schema settings +:+ ".outbox")
       +:+ " does not exist; call reliar_store_postgres::migrate(&pool, ..) before constructing the store"]
  ∨ ∃ source : SqlxError, c = ("database error: " +:+ error_display source) :: chain (as_dyn source).

(** What the Postgres store prints tells no payload and no header value.  Whatever the
    schedule, every error of every operation is that the table is missing, or an error of
    [sqlx]: followed through [source], it prints the schema, or [sqlx]'s own texts; why a row
    cannot be decoded - the text kept as its [last_error] - is the same whatever its payload
    is; and a headers column is refused with one of eight sentences about a key of it and a
    size. *)
Theorem pg_errors_tell_no_payload :
  (∀ ops w, Forall (λ e, store_error_chain (chain (as_dyn e))) (run_pgs schedule settings ops w).2)
  ∧ (∀ p row err, decode_row (with_payload p row) = Err err ↔ decode_row row = Err err)
  ∧ ∀ l h detail, decode_headers l h = Err detail → ∃ k n, k ∈ l.*1 ∧ detail ∈ header_texts k n.
Proof.
  split_and!; [|intros; apply decode_row_payload|intros; by eapply decode_headers_text].
  intros ops w. eapply Forall_impl; [apply run_pgs_errors|].
  intros e [->|[source ->]]; [left; reflexivity|right; exists source; reflexivity].
Qed.
End texts.

#[local] Existing Instances plain_json plain_postgres default_time_range.

Definition plain_texts : PgTexts := {|
  sqlx_Error := {| error_display _ := "connection reset"; error_source _ := None |};
  pg_uuid_display := z_text;
|}.

(** A row whose lease is lost to a cut connection, and a headers column that holds a number. *)
Definition cut_short : nat → Step := λ _, mkStep 100 1 id (λ _, false) (Cut false (Some OtherError)).

Lemma pg_errors_tell_no_payload_witness :
  (run_pgs cut_short PostgresOutboxSettings.default [PStats] sample_pg).2 = [Database OtherError]
  ∧ chain (as_dyn (H := PostgresStoreError_Error (H := plain_texts) (H0 := latin)) (Database OtherError))
    = ["database error: connection reset"; "connection reset"]
  ∧ (∃ k n, k ∈ ["reliar-x"] ∧ "invalid header " +:+ str_debug "reliar-x" +:+ ": "
        +:+ HeaderError_display (Reserved "reliar-x") ∈ header_texts k n).
Proof.
  split_and!; [vm_compute; reflexivity..|].
  apply (proj2 (proj2 (pg_errors_tell_no_payload (H2 := plain_texts) cut_short
    PostgresOutboxSettings.default)) [("reliar-x", json_string "secret")] ∅).
  vm_compute. reflexivity.
Defined.
