(* ===== verification/PgDispatcher.v ===== *)
(** * The dispatcher on Postgres ([reliar-outbox], dispatcher.rs; [reliar-store-postgres], store.rs)

    The dispatcher's theorems hold for every store, the provider included.  Here its log
    is put together with the table: whatever a row of the outbox table says - published, or
    dead for a reason - is true, given that the other transactions, other dispatchers among
    them, write only what is true themselves. *)

From S2P Require Import Prelude RustString CoreTypes CoreHeaders CoreEnvelope OutboxTypes OutboxRetry OutboxSettings StoreInterface Dispatcher DispatcherInv DispatcherSys DispatcherReplay DispatcherThms PgErrors PgRecords PgRoundtrip PgTable PgStore PgTableInv PgStoreInv PgStoreThms.

(** ** What a row says *)

Section honest.
Context `{PostgresLaws} `{TimeRange}.
Context (acked : Uuid → Prop) (given_up : Uuid → string → Prop) (unreadable : Uuid → Prop).

Record honest (r : RawRow) : Prop := {
  hn_published : r_published_at r ≠ None → acked (r_id r);
  hn_dead t : r_dead_at r = Some t → ∃ reason, r_dead_reason r = Some reason
    ∧ (reason = encode_dead_reason Expired ∧ (∃ u, r_expires_at r = Some u ∧ u < t)
       ∨ reason = encode_dead_reason Undecodable ∧ unreadable (r_id r)
       ∨ given_up (r_id r) reason);
  hn_unreadable : ¬ is_Ok (decode_envelope r) → unreadable (r_id r);
  hn_attempts : r_attempts r ≤ I32_MAX;
}.

Definition honest_table (d : Db) : Prop := tidy d ∧ Forall (λ r, honest (raw r)) (table d).

Local Abbreviation tells q := (stmt_keeps honest_table (λ _, True) any_error q).

(** An assignment that says nothing new. *)
Lemma honest_same (r r' : RawRow) :
  honest r → r_id r' = r_id r → decode_envelope r' = decode_envelope r →
  r_published_at r' = r_published_at r → r_dead_at r' = r_dead_at r →
  r_dead_reason r' = r_dead_reason r → r_expires_at r' = r_expires_at r →
  r_attempts r' ≤ I32_MAX → honest r'.
Proof.
  intros [Hp Hd Hu Ha] Hid He Hpub Hdead Hreason Hexp Hatt.
  split; rewrite ?Hid, ?He, ?Hpub, ?Hdead, ?Hreason, ?Hexp; auto.
Qed.

Lemma increment_bound n m : increment n = Ok m → m ≤ I32_MAX.
Proof. unfold increment. destruct (_ <=? _) eqn:E; [|done]. intros [= <-]. lia. Qed.

Lemma update_tells (f : OffsetDateTime → Row → option (result RawRow SqlxError)) :
  stmt_safe (update f) →
  (∀ now r raw', f now r = Some (Ok raw') → row_ok (raw r) → honest (raw r) → honest raw') →
  tells (update f).
Proof.
  intros Hsafe Hf now locked d _ [Htidy Hd]. specialize (Hsafe now locked d Htidy).
  unfold update in *. pose proof (update_where_spec (f now) now (table d)) as Hs.
  destruct (update_where (f now) now (table d)) as [[l k]|e]; cbn in *; [|done].
  destruct (write l (next_sequence d)) as [d'|e] eqn:Ew; cbn in *; [|done].
  apply write_inv in Ew as [Hl _]. split; [done|]. rewrite Hl. destruct Hs as [HF _].
  pose proof (tidy_rows d Htidy) as Hok. clear -HF Hf Hd Hok.
  induction HF as [|r r' l0 l Hr HF IH]; [constructor|].
  apply Forall_cons in Hd as [Hd Hds], Hok as [Hok Hoks]. constructor; [|by apply IH].
  unfold row_updated in Hr. destruct (f now r) as [u|] eqn:Ef; [|by subst r'].
  destruct Hr as (raw' & -> & ->). by eapply Hf.
Qed.

Lemma delete_tells p : tells (delete_where p).
Proof.
  intros now locked d _ [Htidy Hd]. pose proof (delete_safe p now locked d Htidy) as Hsafe.
  unfold delete_where in *. destruct (write _ _) as [d'|e] eqn:Ew; cbn in *; [|done].
  apply write_inv in Ew as [Hl _]. split; [done|]. rewrite Hl.
  apply (sublist_Forall _ (table d)); [apply sublist_filter|done].
Qed.

Lemma purge_rows_tells column ms n : tells (purge_rows column ms n).
Proof.
  intros now locked d Ht Hd. unfold purge_rows. destruct (interval_from _ _) as [cut|]; cbn; [|done].
  by apply delete_tells.
Qed.

(** ** The statements that say something *)

Lemma complete_rows_tells ids w : (∀ i, i ∈ ids → acked i) → tells (complete_rows ids w).
Proof.
  intros Hids. apply update_tells; [apply complete_rows_safe|]. intros now r raw' Hf Hok Hh.
  destruct (held ids w r) eqn:Eh; [|done]. destruct (held_pending _ _ _ Eh Hok) as (Hi & _ & _ & Hd).
  destruct (increment _) as [n|] eqn:En; cbn in Hf; [|done]. injection Hf as <-.
  apply increment_bound in En. destruct Hh as [_ _ Hu _]. split; cbn; [|by rewrite Hd|done|done].
  intros _. by apply Hids.
Qed.

Lemma fail_dead_rows_tells items w :
  (∀ i err reason, (i, (err, reason)) ∈ items → given_up i reason) → tells (fail_dead_rows items w).
Proof.
  intros Hitems. apply update_tells; [apply fail_dead_rows_safe|]. intros now r raw' Hf Hok Hh.
  destruct (joined items r) as [[err reason]|] eqn:Ej; [|done]. apply joined_Some, Hitems in Ej.
  case_bool_decide as Hw; [|done]. destruct (locked_pending _ _ Hw Hok) as [Hp _].
  destruct (increment _) as [n|] eqn:En; cbn in Hf; [|done]. injection Hf as <-.
  apply increment_bound in En. destruct Hh as [_ _ Hu _]. split; cbn; [by rewrite Hp| |done|done].
  intros t [= <-]. exists reason. auto.
Qed.

Lemma poison_sweep_rows_tells items w :
  (∀ i, i ∈ items.*1 → unreadable i) →
  tells (poison_sweep_rows items w (encode_dead_reason Undecodable)).
Proof.
  intros Hitems. apply update_tells; [apply poison_sweep_rows_safe|]. intros now r raw' Hf Hok Hh.
  destruct (joined items r) as [err|] eqn:Ej; [|done].
  apply joined_Some, (list_elem_of_fmap_2 fst), Hitems in Ej.
  case_bool_decide as Hw; [|done]. destruct (locked_pending _ _ Hw Hok) as [Hp _].
  injection Hf as <-. destruct Hh as [_ _ Hu Ha]. split; cbn; [by rewrite Hp| |done|done].
  intros t [= <-]. eexists. split; [done|]. right; left. done.
Qed.

Lemma expired_sweep_tells n : tells (purge_expired_sweep_rows n (encode_dead_reason Expired)).
Proof.
  intros now locked d Hn Hd. unfold purge_expired_sweep_rows.
  apply (update_tells _ (expired_sweep_safe (table d) n _)); [|done|done].
  clear. intros now r raw' Hf Hok Hh. destruct (picked _ _ _ _) eqn:E; [|done]. injection Hf as <-.
  apply picked_true, sweepable_at_spec in E as (Hx & Hp & _).
  destruct Hh as [_ _ Hu Ha]. split; cbn; [by rewrite Hp| |done|done].
  intros t [= <-]. eexists. split; [done|]. by left.
Qed.

Lemma retry_dead_rows_tells ids : tells (retry_dead_rows ids).
Proof.
  apply update_tells; [apply retry_dead_rows_safe|]. intros now r raw' Hf Hok Hh.
  destruct (_ && _); [|done]. injection Hf as <-. destruct Hh as [Hp _ Hu _].
  split; cbn; [done..|]. unfold I32_MAX. lia.
Qed.

(** ** The statements that do not *)

Lemma release_rows_tells ids w : tells (release_rows ids w).
Proof.
  apply update_tells; [apply release_rows_safe|]. intros now r raw' Hf Hok Hh.
  destruct (held ids w r); [|done]. injection Hf as <-.
  apply (honest_same (raw r)); try done. apply Hh.
Qed.

Lemma extend_lease_rows_tells ids ms w : tells (extend_lease_rows ids ms w).
Proof.
  apply update_tells; [apply extend_lease_rows_safe|]. intros now r raw' Hf Hok Hh.
  destruct (held ids w r); [|done]. destruct (interval_from _ _); cbn in Hf; [|done].
  injection Hf as <-. apply (honest_same (raw r)); try done. apply Hh.
Qed.

Lemma fail_retry_rows_tells items w : tells (fail_retry_rows items w).
Proof.
  apply update_tells; [apply fail_retry_rows_safe|]. intros now r raw' Hf Hok Hh.
  destruct (joined items r) as [[err ms]|]; [|done]. case_bool_decide; [|done].
  destruct (increment _) as [n|] eqn:En; cbn in Hf; [|done].
  destruct (interval_from _ _); cbn in Hf; [|done]. injection Hf as <-.
  apply (honest_same (raw r)); try done. by apply increment_bound in En.
Qed.

(** ** The claim, and the rows it cannot read *)

(** A row a valid worker has just leased decodes when its envelope does. *)
Lemma leased_row_decodes (r : RawRow) w until worker :
  WorkerId.parse w = Ok worker → row_sound r → r_dead_at r = None → r_attempts r ≤ I32_MAX →
  is_Ok (decode_envelope r) → is_Ok (decode_row (set_lease (Some w) until r)).
Proof.
  intros Hw [Hatt _ _ _ _ Hreason] Hd Ha [e He]. apply Hreason in Hd.
  unfold decode_row. change (decode_envelope (set_lease (Some w) until r)) with (decode_envelope r).
  rewrite He. cbn. rewrite Hd. cbn. unfold parse_opt. cbn. rewrite Hw. cbn.
  assert (Hok : (0 <=? r_attempts r) && (r_attempts r <=? U32_MAX) = true).
  { unfold I32_MAX, U32_MAX in *. apply andb_true_iff. lia. }
  rewrite Hok. cbn. by eexists.
Qed.

Lemma claim_rows_tells n w ms worker : WorkerId.parse w = Ok worker →
  stmt_gives honest_table (λ _, True) any_error (claim_rows n w ms)
    (Forall (λ r, ¬ is_Ok (decode_row r) → unreadable (r_id r))).
Proof.
  intros Hw now locked d _ [Htidy Hd]. pose proof (claim_rows_safe n w ms now locked d Htidy) as Hsafe.
  destruct (claim_rows n w ms now locked d) as [[d' rows]|e] eqn:Ec; [|done].
  apply pg_claim_rows_spec in Ec as (until & _ & Ht & Hrows). rewrite Forall_forall in Hd.
  split; [split; [done|]|].
  - rewrite Ht. unfold on_ids. apply Forall_fmap, Forall_forall. intros r Hr. cbn.
    destruct (decide _); [|by apply Hd].
    pose proof (Hd _ Hr) as Hh. apply (honest_same (raw r)); try done. apply Hh.
  - rewrite Hrows. apply Forall_fmap, Forall_forall. intros r Hr Hbad. cbn in *.
    apply claimed_elem in Hr as (Hr & Hc & _). apply claimable_at_spec in Hc as ([_ Hdead] & _).
    pose proof (sound_rows d) as Hs. rewrite Forall_forall in Hs.
    apply (hn_unreadable _ (Hd _ Hr)). intros He. apply Hbad.
    eapply leased_row_decodes; [done|by apply Hs|done|by apply (hn_attempts _ (Hd _ Hr))|done].
Qed.
End honest.

(** ** The operations *)

Section ops.
Context `{PostgresLaws} `{TimeRange}.

(** What an outcome write may say. *)
Definition truthful_write (acked : Uuid → Prop) (given_up : Uuid → string → Prop) (o : pg_op) : Prop :=
  match o with
  | PAcquire r => ∃ w, WorkerId.parse (WorkerId.as_str (AcquireRequest.worker r)) = Ok w
  | PComplete _ items => ∀ i, i ∈ items →
      acked (PostgresOutboxStore.ref_uuid (CompletedMessage.message i))
  | PFail _ items => ∀ i reason, i ∈ items → FailedMessage.outcome i = Dead reason →
      given_up (PostgresOutboxStore.ref_uuid (FailedMessage.message i)) (encode_dead_reason reason)
  | _ => True
  end.

Lemma split_failures_dead items i err reason :
  (i, (err, reason)) ∈ (PostgresOutboxStore.split_failures items).2 →
  ∃ item d, item ∈ items ∧ FailedMessage.outcome item = Dead d
    ∧ i = PostgresOutboxStore.ref_uuid (FailedMessage.message item) ∧ reason = encode_dead_reason d.
Proof.
  induction items as [|item items IH]; cbn; [by intros ?%elem_of_nil|].
  destruct (PostgresOutboxStore.split_failures items) as [retry dead]. cbn in *.
  destruct (FailedMessage.outcome item) as [delay|d] eqn:Eo; cbn.
  - intros (it & d & Hin & ?)%IH. exists it, d. split; [by right|done].
  - intros [[= -> -> ->]|(it & d' & Hin & ?)%IH]%elem_of_cons.
    + exists item, d. split; [left|done].
    + exists it, d'. split; [by right|done].
Qed.

Lemma unreadable_ids (unreadable : Uuid → Prop) rows :
  Forall (λ r, ¬ is_Ok (decode_row r) → unreadable (r_id r)) rows →
  ∀ i, i ∈ (PostgresOutboxStore.poisoned_item <$> (PostgresOutboxStore.decode_rows rows).2).*1 → unreadable i.
Proof.
  induction 1 as [|raw rows Hr _ IH]; cbn; [by intros ? ?%elem_of_nil|].
  destruct (PostgresOutboxStore.decode_rows rows) as [recs fs]. cbn in *.
  destruct (decode_row raw) as [record|err] eqn:Ed; cbn; [done|].
  intros i [->|Hi]%elem_of_cons; [|by apply IH].
  assert (MessageId.as_uuid (re_id err) = r_id raw) as ->; [|by apply Hr, not_is_Ok_Err].
  unfold decode_row in Ed. destruct (let? _ := _ in _); [done|]. cbn in Ed. by injection Ed as <-.
Qed.

Lemma op_tells acked given_up unreadable o :
  truthful_write acked given_up o →
  op_keeps (honest_table acked given_up unreadable) (λ _, True) any_error o.
Proof.
  destruct o; cbn.
  - intros [w Hw]. eexists. split; [intros; by eapply claim_rows_tells|].
    intros rows HQ. by apply poison_sweep_rows_tells, unreadable_ids.
  - intros Hi. apply complete_rows_tells. intros i (item & -> & Hin)%list_elem_of_fmap. by apply Hi.
  - intros Hi. split; [intros; apply fail_retry_rows_tells|]. apply fail_dead_rows_tells.
    intros i err reason (item & d & Hin & Hd & -> & ->)%split_failures_dead. by apply Hi.
  - intros _ ids. apply release_rows_tells.
  - intros _ ids ms. apply extend_lease_rows_tells.
  - intros _. split_and!; intros; [apply purge_rows_tells..|apply expired_sweep_tells].
  - intros _. by intros now locked d _ Hd.
  - intros _ query' n. by intros now locked d _ Hd.
  - intros _ ids. apply retry_dead_rows_tells.
  - intros _ ids. apply delete_tells.
Qed.
End ops.

(** ** The dispatcher *)

Section dispatch.
Context `{PostgresLaws} `{TimeRange} (schedule : nat → Step) (pg : PostgresOutboxSettings.t).
Context {R : Type} `{RetryPolicy R}.
Context (settings : DispatcherSettings.t) (worker : WorkerId.t) (retry : R).
Context (acked0 : Uuid → Prop) (given_up0 : Uuid → string → Prop) (unreadable : Uuid → Prop).

#[local] Instance provider : OutboxStore Pg PostgresStoreError :=
  PostgresOutboxStore.PostgresStore schedule pg.
#[local] Instance provider_laws : OutboxStoreLaws Pg PostgresStoreError :=
  PostgresStore_laws schedule pg.
Abbreviation pg_run := (sys Pg PostgresStoreError).

(** The broker acknowledged it: to this dispatcher, or to one of the others. *)
Definition pg_acked (s : pg_run) (i : Uuid) : Prop :=
  acked0 i ∨ ∃ m, m ∈ ledger is_acked (log s) ∧ PostgresOutboxStore.ref_uuid m = i.

(** This dispatcher's publish of it failed and its retry policy gave it up for that reason,
    or another's did. *)
Definition pg_given_up (s : pg_run) (i : Uuid) (reason : string) : Prop :=
  given_up0 i reason
  ∨ ∃ entropy attempts kind d items item,
      next retry entropy attempts kind = Some (Dead d) ∧ reason = encode_dead_reason d
      ∧ DoFail items ∈ log s ∧ item ∈ items ∧ FailedMessage.outcome item = Dead d
      ∧ PostgresOutboxStore.ref_uuid (FailedMessage.message item) = i.

(** Two rows that say the same. *)
Definition says_same (r r' : RawRow) : Prop :=
  r_id r' = r_id r ∧ decode_envelope r' = decode_envelope r
  ∧ r_published_at r' = r_published_at r ∧ r_dead_at r' = r_dead_at r
  ∧ r_dead_reason r' = r_dead_reason r ∧ r_expires_at r' = r_expires_at r
  ∧ (r_attempts r ≤ I32_MAX → r_attempts r' ≤ I32_MAX).

(** Other transactions keep leased rows pending, and a row they write says what it said
    before, or the truth. *)
Definition adds_truth (d d' : Db) : Prop :=
  (tidy d → tidy d')
  ∧ ∀ r', r' ∈ table d' →
      (∃ r, r ∈ table d ∧ says_same (raw r) (raw r')) ∨ honest acked0 given_up0 unreadable (raw r').

(** The runs: the dispatcher's steps, and the world moving on between its calls. *)
Inductive pg_reachable : pg_run → Prop :=
  | pg_start w : honest_table acked0 given_up0 unreadable (committed w) → tx w = None →
      pg_reachable (initial w)
  | pg_step e s s' : pg_reachable s → step settings worker retry e s = Some s' →
      (∀ w, e = EWorld w → adds_truth (committed (world s)) (committed w) ∧ tx w = None) →
      pg_reachable s'.

Lemma pg_reachable_reachable s : pg_reachable s → reachable settings worker retry s.
Proof. induction 1; by econstructor. Qed.

Lemma run_events_pg_reachable es s s' :
  pg_reachable s → Forall (λ e, outside e = false) es →
  run_events settings worker retry es s = Some s' → pg_reachable s'.
Proof.
  intros Hs Hes. revert s Hs; induction Hes as [|e es He _ IH]; intros s Hs; cbn; [by intros [= <-]|].
  destruct (step _ _ _ e s) as [s1|] eqn:Hstep; cbn; [|done].
  apply IH. eapply pg_step; [done..|]. by intros w ->.
Qed.

(** What is known only grows. *)
Lemma honest_mono (A A' : Uuid → Prop) (G G' : Uuid → string → Prop) r :
  (∀ i, A i → A' i) → (∀ i d, G i d → G' i d) →
  honest A G unreadable r → honest A' G' unreadable r.
Proof.
  intros HA HG [Hp Hd Hu Ha]. split; [by auto| |done|done].
  intros t (reason & Hr & Hwhy)%Hd. exists reason. intuition auto.
Qed.

Lemma adds_truth_honest A G d d' :
  (∀ i, acked0 i → A i) → (∀ i reason, given_up0 i reason → G i reason) →
  adds_truth d d' → honest_table A G unreadable d → honest_table A G unreadable d'.
Proof.
  intros HA HG [Ht Hd] [Htidy Hh]. split; [by apply Ht|]. rewrite Forall_forall in Hh |- *.
  intros r' [(r & Hr & Hs)|Hr']%Hd; [|by eapply honest_mono].
  destruct Hs as (? & ? & ? & ? & ? & ? & Hatt). pose proof (Hh _ Hr) as Hr'.
  apply (honest_same A G unreadable (raw r)); auto. apply Hatt, Hr'.
Qed.

(** The calls of the dispatcher as operations of the provider. *)
Definition pg_call (a : action) : option pg_op :=
  match a with
  | DoAcquire request => Some (PAcquire request)
  | DoComplete items => Some (PComplete worker items)
  | DoFail items => Some (PFail worker items)
  | DoRelease refs => Some (PRelease worker refs)
  | DoExtend refs => Some (PExtend worker refs (DispatcherSettings.lease settings))
  | DoStats => Some PStats
  | Metric _ | Event _ => None
  end.

Lemma reporting_world {A} (m : Pg → Pg * call A PostgresStoreError) w : (reporting m w).1 = (m w).1.
Proof. unfold reporting. by destruct (m w). Qed.

Lemma effect_call a w :
  effect settings worker a w
  = match pg_call a with Some o => (run_pg schedule pg o w).1 | None => w end.
Proof. destruct a; cbn [pg_call run_pg]; by rewrite ?reporting_world. Qed.

(** What the dispatcher writes is what it knows. *)
Lemma call_truthful s a o :
  settings_ok settings → is_Ok (WorkerId.parse (WorkerId.as_str worker)) →
  reachable settings worker retry s → a ∈ log s → pg_call a = Some o →
  truthful_write (pg_acked s) (pg_given_up s) o.
Proof.
  intros Hok [wid Hw] Hr Ha Ho. pose proof (reachable_inv _ _ _ _ Hok Hr) as [[_ _ _ _ _ Hcomp Hfail] _ Hreq].
  destruct a; cbn in Ho; try done; injection Ho as <-; cbn; try done.
  - rewrite Forall_forall in Hreq. destruct (Hreq request) as (-> & _); [|by exists wid].
    apply list_elem_of_omap. by exists (DoAcquire request).
  - intros i Hi. right. exists (CompletedMessage.message i). split; [|done].
    specialize (Hcomp _ Ha). rewrite Forall_forall in Hcomp. by apply Hcomp.
  - intros i d Hi Hd. right. specialize (Hfail _ Ha). rewrite Forall_forall in Hfail.
    destruct (Hfail _ Hi) as (en & at_ & k & er & out & Hn & Heq).
    exists en, at_, k, d, items, i. split_and!; try done. rewrite Heq in Hd. cbn in Hd. by subst out.
Qed.

(** What the calls of a replay keep, it keeps. *)
Lemma replay_holds (P : Db → Prop) (T : OffsetDateTime → Prop) a w :
  (∀ n, fair P T any_error (schedule n)) →
  (∀ x o, x ∈ a → pg_call x = Some o → op_keeps P T any_error o) →
  holds P T w → holds P T (replay settings worker a w).
Proof.
  intros Hfair. unfold replay. revert w; induction a as [|x a IH]; intros w Ha Hh; cbn; [done|].
  apply IH; [set_solver|]. rewrite effect_call. destruct (pg_call x) as [o|] eqn:Ho; [|done].
  apply (run_pg_keeps schedule pg _ _ any_error); [done..| |done]. apply (Ha x); [left|done].
Qed.

Context (Hothers : ∀ n d, adds_truth d (others (schedule n) d)).

(** The table is honest about what is known in the end, all through a replay. *)
Lemma replay_honest s a w :
  settings_ok settings → is_Ok (WorkerId.parse (WorkerId.as_str worker)) →
  reachable settings worker retry s → a ⊆ log s →
  holds (honest_table (pg_acked s) (pg_given_up s) unreadable) (λ _, True) w →
  holds (honest_table (pg_acked s) (pg_given_up s) unreadable) (λ _, True) (replay settings worker a w).
Proof.
  intros Hok Hw Hr Ha. apply replay_holds.
  - intros n. split; [|done|done]. intros d. apply adds_truth_honest; [by left|by left|done].
  - intros x o Hx Ho. apply op_tells. eapply call_truthful; [done..| |done]. set_solver.
Qed.

Lemma holds_mono (P P' : Db → Prop) (T : OffsetDateTime → Prop) w :
  (∀ d, P d → P' d) → holds P T w → holds P' T w.
Proof.
  intros HP [Hc Ht]. split; [by apply HP|]. intros t Htx. destruct (Ht t Htx). split; [by apply HP|done].
Qed.

Lemma known_mono s a l p w c d :
  honest_table (pg_acked s) (pg_given_up s) unreadable d →
  honest_table (pg_acked (mkSys l p w c (log s ++ a))) (pg_given_up (mkSys l p w c (log s ++ a)))
    unreadable d.
Proof.
  intros [Ht Hd]. split; [done|]. eapply Forall_impl; [exact Hd|]. intros r. apply honest_mono.
  - intros i [Hi|(m & Hm & Hi)]; [by left|right]. exists m. split; [|done]. by apply acked_mono.
  - intros i reason [Hi|(en & n & k & x & items & item & Hn & Hr & Hin & Hrest)]; [by left|right].
    exists en, n, k, x, items, item. split_and!; try apply Hrest; try done.
    apply elem_of_app. by left.
Qed.

Lemma pg_reachable_honest s :
  settings_ok settings → is_Ok (WorkerId.parse (WorkerId.as_str worker)) → pg_reachable s →
  holds (honest_table (pg_acked s) (pg_given_up s) unreadable) (λ _, True) (world s).
Proof.
  intros Hok Hw. induction 1 as [w Hd Htx|e s s' Hr IH Hs He].
  { split; cbn; [|by rewrite Htx]. destruct Hd as [Ht Hd]. split; [done|].
    eapply Forall_impl; [exact Hd|]. intros r. apply honest_mono; by left. }
  pose proof (pg_reachable_reachable _ Hr) as Hr0.
  destruct (outside e) eqn:Eo.
  - destruct e; try done. destruct (He _ eq_refl) as [Ha Htx].
    unfold step in Hs. destruct (stopped s); [done|]. injection Hs as <-.
    split; cbn; [|by rewrite Htx]. destruct IH as [IH _].
    by apply (adds_truth_honest _ _ (committed (world s))); [left|left|..].
  - assert (Hr' : reachable settings worker retry s') by (by eapply reach_step).
    destruct (step_replays _ _ _ _ _ _ Eo Hs) as (a & Hlog & Hworld). rewrite Hworld.
    apply replay_honest; [done..|rewrite Hlog; set_solver|].
    eapply holds_mono; [|exact IH]. intros d. destruct s'; cbn in Hlog. subst. apply known_mono.
Qed.

(** On Postgres, too, the table tells the truth: whatever the schedule of round trips,
    the connections cut off, the transactions of others in between and the failures, and as
    long as those others - other dispatchers, the application, the operators - keep leased
    rows pending and write only what is true, in every reachable state of a dispatcher every
    row marked published was acknowledged by the broker, and every dead row has passed its
    expiry, could not be read, or was given up by the retry policy after a failed publish,
    for the reason the row records. *)
Theorem pg_dispatcher_tells_the_truth (s : pg_run) (r : Row) :
  settings_ok settings → is_Ok (WorkerId.parse (WorkerId.as_str worker)) → pg_reachable s →
  r ∈ table (committed (world s)) →
  (r_published_at (raw r) ≠ None → pg_acked s (row_id r))
  ∧ ∀ t, r_dead_at (raw r) = Some t → ∃ reason, r_dead_reason (raw r) = Some reason
      ∧ (reason = encode_dead_reason Expired ∧ (∃ u, r_expires_at (raw r) = Some u ∧ u < t)
         ∨ reason = encode_dead_reason Undecodable ∧ unreadable (row_id r)
         ∨ pg_given_up s (row_id r) reason).
Proof.
  intros Hok Hw Hr Hin. destruct (pg_reachable_honest s Hok Hw Hr) as [[_ Hd] _].
  rewrite Forall_forall in Hd. destruct (Hd _ Hin) as [Hp Hdead _ _]. by split.
Qed.
End dispatch.

(** ** A dispatcher on the sample table

    It claims the order and buries the row it cannot read, publishes the order and writes the
    outcome; the row leased to another worker it leaves alone. *)

#[local] Existing Instances plain_json plain_postgres plain_postgres_laws default_time_range.
#[local] Instance quiet_provider : OutboxStore Pg PostgresStoreError :=
  PostgresOutboxStore.PostgresStore quiet PostgresOutboxSettings.default.

Definition order_ref : MessageRef.t := MessageRef.new (MessageId.from_uuid 1) 9.
Definition pg_events : list (event Pg) :=
  [EIterate NotSent BPoll seen_all; ETaskStart 0; ETaskFinish 0 Acked;
   EIterate NotSent
     (BJoined [mkJoined 0 (JOutcome (Published order_ref (MessageType.from_parts "orders.placed" 1))) 0])
     seen_all;
   EIterate NotSent BRetry seen_all].
Definition pg_start_state : sys Pg PostgresStoreError := initial sample_pg.
Definition pg_end_state : sys Pg PostgresStoreError :=
  default pg_start_state (run_events run_settings (WorkerId.mk "w1") run_retry pg_events pg_start_state).

Definition pg_end_row (n : nat) : Row := nth n (table (committed (world pg_end_state))) leased_row.

Lemma sample_honest : honest_table (λ _, False) (λ _ _, False) (λ i, i = 2) sample_db.
Proof.
  split; [exact sample_tidy|]. repeat (apply Forall_cons_2; [|]); [..|constructor].
  all: split; try (vm_compute; done).
  - intros Hn. destruct Hn. vm_compute. by eexists.
  - intros Hn. destruct Hn. vm_compute. by eexists.
Qed.

Lemma pg_dispatcher_tells_the_truth_witness :
  r_published_at (raw (pg_end_row 0)) = Some 100
  ∧ pg_acked (λ _, False) pg_end_state (row_id (pg_end_row 0))
  ∧ r_dead_reason (raw (pg_end_row 1)) = Some "undecodable"
  ∧ r_dead_at (raw (pg_end_row 2)) = None.
Proof.
  assert (Hr : pg_reachable quiet PostgresOutboxSettings.default run_settings (WorkerId.mk "w1") run_retry
                 (λ _, False) (λ _ _, False) (λ i, i = 2) pg_end_state).
  { assert (H0 := pg_start quiet PostgresOutboxSettings.default run_settings (WorkerId.mk "w1")
      run_retry _ _ _ sample_pg sample_honest eq_refl).
    unfold pg_end_state. destruct (run_events _ _ _ _ _) as [s|] eqn:E; [|exact H0].
    eapply run_events_pg_reachable; [exact H0| |exact E]. repeat constructor. }
  split; [vm_compute; reflexivity|]. split; [|split; vm_compute; reflexivity].
  refine (proj1 (pg_dispatcher_tells_the_truth quiet PostgresOutboxSettings.default run_settings
    (WorkerId.mk "w1") run_retry (λ _, False) (λ _ _, False) (λ i, i = 2) _ pg_end_state (pg_end_row 0)
    run_settings_ok _ Hr _) _).
  - intros n d. split; [done|]. intros r' Hr'. left. exists r'. split; [done|].
    by repeat split.
  - vm_compute. by eexists.
  - vm_compute. by left.
  - vm_compute. discriminate.
Defined.
