(* ===== verification/PgSim.v ===== *)
(** * Statements read through [decode_row] ([reliar-store-postgres], records.rs, store.rs)

    What an assignment does to a row is what a setter does to its record; an [UPDATE] or
    [DELETE] acts on decoded tables as the matching loop of the in-memory store. *)

From S2P Require Import Prelude RustString RustFmt CoreTypes CoreHeaders CoreEnvelope CoreFmt OutboxTypes OutboxSettings MemStore MemStoreInv MemStoreSpec MemStoreThms StoreInterface PgErrors PgRecords PgTable PgStore PgTableInv PgStoreThms.
Import OutboxRecord(envelope, sequence, created_at, ordering_key, attempts, available_at,
  locked_by, locked_until, published_at, dead_at, dead_reason, last_error, message_ref,
  with_attempts, with_available_at, with_lease, with_published_at, with_dead, set_last_error).

(** ** Decoding an updated row *)

Section decode.
Context `{PgTypes} `{TimeRange}.

Definition decode_reason (value : string) : result DeadReason string :=
  match decode_dead_reason value with
  | Some reason => Ok reason
  | None => Err ("unknown dead_reason " +:+ str_debug value)
  end.

(** A row and the record it decodes to, column by column. *)
Record decodes_to (r : RawRow) (rec : row) : Prop := {
  dt_envelope : decode_envelope r = Ok (envelope rec);
  dt_sequence : sequence rec = r_sequence r;
  dt_created : created_at rec = r_created_at r;
  dt_key : ordering_key rec = r_ordering_key r;
  dt_attempts : attempts rec = r_attempts r ∧ 0 ≤ r_attempts r ≤ U32_MAX;
  dt_available : available_at rec = r_available_at r;
  dt_locked_by : parse_opt "locked_by" IdError_display WorkerId.parse (r_locked_by r) = Ok (locked_by rec);
  dt_locked_until : locked_until rec = r_locked_until r;
  dt_published : published_at rec = r_published_at r;
  dt_dead : dead_at rec = r_dead_at r;
  dt_reason : option_traverse decode_reason (r_dead_reason r) = Ok (dead_reason rec);
  dt_last_error : last_error rec = truncate_error <$> r_last_error r;
}.

Lemma decode_row_Ok r rec : decode_row r = Ok rec ↔ decodes_to r rec.
Proof.
  unfold decode_row. rewrite map_err_Ok. fold decode_reason. split.
  - intros (e & He & Hrest)%result_bind_Ok. apply result_bind_Ok in Hrest as (reason & Hre & Hrest).
    apply result_bind_Ok in Hrest as (by_ & Hb & Hrest).
    apply result_bind_Ok in Hrest as (n & Hn & [= <-]).
    destruct (_ && _) eqn:Ea in Hn; [|done]. injection Hn as <-.
    apply andb_true_iff in Ea as [H1%Z.leb_le H2%Z.leb_le]. by split.
  - intros [He ? ? ? [? [Hlo Hhi]] ? Hb ? ? ? Hr ?]. rewrite He. cbn. fold decode_reason. rewrite Hr. cbn.
    rewrite Hb. cbn. rewrite (proj2 (Z.leb_le _ _) Hlo), (proj2 (Z.leb_le _ _) Hhi). cbn.
    destruct rec; cbn in *. by subst.
Qed.

(** The columns [decode_envelope] reads. *)
Lemma decode_envelope_id r e : decode_envelope r = Ok e → Envelope.id e = MessageId.from_uuid (r_id r).
Proof.
  unfold decode_envelope. destruct (negb _); [done|].
  repeat (intros (? & _ & Hk)%result_bind_Ok; revert Hk). by intros [= <-].
Qed.

Lemma decode_envelope_expires r e : decode_envelope r = Ok e →
  DeliveryMetadata.expires_at (Metadata.delivery (Envelope.metadata e)) = r_expires_at r.
Proof.
  unfold decode_envelope. destruct (negb _); [done|].
  repeat (intros (? & _ & Hk)%result_bind_Ok; revert Hk). by intros [= <-].
Qed.

Lemma decodes_id r rec : decodes_to r rec → Envelope.id (envelope rec) = MessageId.from_uuid (r_id r).
Proof. intros [He]. by apply decode_envelope_id. Qed.

(** What the codec of the lease owner gives back. *)
Definition valid_worker (w : WorkerId.t) : Prop := WorkerId.parse (WorkerId.as_str w) = Ok w.

Lemma decodes_claimable r rec t : decodes_to r rec → claimable_at t r = is_claimable rec t.
Proof.
  intros [He _ _ _ _ Ha _ Hu Hp Hd _ _]. unfold claimable_at, is_claimable, lease_is_free, OutboxRecord.expires_at.
  by rewrite Ha, Hu, Hp, Hd, (decode_envelope_expires _ _ He).
Qed.

Lemma decodes_unique r rec rec' : decodes_to r rec → decodes_to r rec' → rec = rec'.
Proof. rewrite <-!decode_row_Ok. congruence. Qed.

Lemma parse_worker_inv s w : WorkerId.parse s = Ok w → WorkerId.as_str w = s.
Proof. unfold WorkerId.parse. repeat case_match; try done. by intros [= <-]. Qed.

Lemma decodes_worker r rec w : valid_worker w → decodes_to r rec →
  locked_by rec = Some w ↔ r_locked_by r = Some (WorkerId.as_str w).
Proof.
  intros Hw [_ _ _ _ _ _ Hb _ _ _ _ _]. unfold parse_opt in Hb. rewrite map_err_Ok in Hb.
  apply option_traverse_Ok in Hb.
  destruct (r_locked_by r) as [s|], (locked_by rec) as [v|]; try done; split; intros [= ->].
  - by apply parse_worker_inv in Hb as ->.
  - unfold valid_worker in Hw. rewrite Hw in Hb. by injection Hb as ->.
Qed.

(** The assignments of the statements are the setters of the record. *)
Lemma decodes_set_lease r rec w u : valid_worker w → decodes_to r rec →
  decodes_to (set_lease (Some (WorkerId.as_str w)) (Some u) r) (with_lease (Some w) (Some u) rec).
Proof.
  intros Hw []. split; try done. unfold parse_opt. cbn. by rewrite Hw.
Qed.
Lemma decodes_clear_lease r rec : decodes_to r rec →
  decodes_to (set_lease None None r) (with_lease None None rec).
Proof. intros []. by split. Qed.
Lemma decodes_extend r rec u : decodes_to r rec →
  decodes_to (set_lease (r_locked_by r) (Some u) r) (with_lease (locked_by rec) (Some u) rec).
Proof. intros []. by split. Qed.
Lemma decodes_attempts r rec n : 0 ≤ n ≤ U32_MAX → decodes_to r rec →
  decodes_to (set_attempts n r) (with_attempts n rec).
Proof. intros Hn []. by split. Qed.
Lemma decodes_available r rec t : decodes_to r rec →
  decodes_to (PgTable.set_available_at t r) (with_available_at t rec).
Proof. intros []. by split. Qed.
Lemma decodes_published r rec t : decodes_to r rec →
  decodes_to (set_published_at t r) (with_published_at t rec).
Proof. intros []. by split. Qed.
Lemma decodes_dead r rec t reason : decodes_to r rec →
  decodes_to (set_dead t (encode_dead_reason <$> reason) r) (with_dead t reason rec).
Proof. intros []. split; try done. destruct reason as [[]|]; done. Qed.
Lemma decodes_last_error r rec e : decodes_to r rec →
  decodes_to (PgTable.set_last_error e r) (set_last_error (truncate_error <$> e) rec).
Proof. intros []. by split. Qed.
End decode.

(** ** The loop of the in-memory store, for items that name a row at most once *)

Section for_found.
Context {I : Type} (m : I → MessageRef.t) (P : row → bool) (upd : I → row → row).

Definition matched (items : list I) (rec : row) : option I :=
  snd <$> list_find (λ i, m i = message_ref rec) items.

(** What the items make of a record, if they name it. *)
Definition hit (items : list I) (rec : row) : option row :=
  if P rec then (λ i, upd i rec) <$> matched items rec else None.
Definition hits (items : list I) (l : list row) : list row := (λ rec, default rec (hit items rec)) <$> l.
Definition count_hits (items : list I) (l : list row) : Z :=
  Z.of_nat (length (filter (λ rec, is_Some (hit items rec)) l)).

Context (p : I → row → bool) (f : I → row → row * outcome unit).
Context (Hp : ∀ i r, p i r = true ↔ m i = message_ref r ∧ P r = true).
Context (Href : ∀ i r, message_ref (upd i r) = message_ref r).

Lemma matched_cons i items rec :
  matched (i :: items) rec = if decide (m i = message_ref rec) then Some i else matched items rec.
Proof.
  unfold matched. cbn [list_find]. destruct (decide _); [done|].
  by destruct (@list_find _ _ _ items) as [[]|].
Qed.

Lemma matched_elem items rec i : matched items rec = Some i → i ∈ items ∧ m i = message_ref rec.
Proof.
  unfold matched. intros ([j i'] & Hf & ->)%fmap_Some. apply list_find_Some in Hf as (Hj & Hm & _).
  split; [by eapply list_elem_of_lookup_2|done].
Qed.

Lemma matched_None items rec : matched items rec = None → message_ref rec ∉ m <$> items.
Proof.
  unfold matched. intros Hn%fmap_None. intros (i & Hi & Hin)%list_elem_of_fmap.
  apply list_find_None in Hn. rewrite Forall_forall in Hn. by apply (Hn i Hin).
Qed.

Lemma hit_cons_other i items rec : p i rec = false → hit (i :: items) rec = hit items rec.
Proof.
  intros Hn. unfold hit. destruct (P rec) eqn:EP; [|done]. rewrite matched_cons.
  rewrite decide_False; [done|]. intros Hm. by rewrite (proj2 (Hp i rec)) in Hn.
Qed.

Lemma hits_cons_other i items l : Forall (λ rec, p i rec = false) l →
  hits (i :: items) l = hits items l ∧ count_hits (i :: items) l = count_hits items l.
Proof.
  unfold hits, count_hits. induction 1 as [|rec l Hrec Hl [IH1 IH2]]; [done|].
  rewrite !fmap_cons, !filter_cons, !(hit_cons_other _ _ _ Hrec), IH1. split; [done|].
  destruct (decide (is_Some _)); cbn [length]; lia.
Qed.

Lemma hits_app items l1 l2 : hits items (l1 ++ l2) = hits items l1 ++ hits items l2.
Proof. apply fmap_app. Qed.
Lemma count_hits_app items l1 l2 :
  count_hits items (l1 ++ l2) = count_hits items l1 + count_hits items l2.
Proof. unfold count_hits. rewrite filter_app, length_app. lia. Qed.
Lemma hits_cons items r l : hits items (r :: l) = default r (hit items r) :: hits items l.
Proof. done. Qed.
Lemma count_hits_cons items r l :
  count_hits items (r :: l) = (if hit items r is Some _ then 1 else 0) + count_hits items l.
Proof.
  unfold count_hits. rewrite filter_cons. destruct (hit items r).
  - rewrite decide_True by eauto. cbn [length]. lia.
  - rewrite decide_False by (by intros []). done.
Qed.

Lemma for_found_nodup items l n :
  (∀ i r, i ∈ items → f i r = (upd i r, Some ())) →
  NoDup (message_ref <$> l) → NoDup (m <$> items) →
  for_found p f items l n = (hits items l, Some (n + count_hits items l)).
Proof.
  revert l n; induction items as [|i items IH]; intros l n Hf Hl Hi; cbn [for_found].
  { assert (Hno : ∀ rec, hit [] rec = None) by (intros rec; unfold hit; by destruct (P rec)).
    f_equal; [|f_equal].
    - unfold hits. rewrite <-(list_fmap_id l) at 1. apply list_fmap_ext. intros. by rewrite Hno.
    - induction l as [|rec l IHl]; [change (count_hits [] []) with 0; lia|]. rewrite count_hits_cons, Hno.
      apply NoDup_cons in Hl as [_ Hl]. specialize (IHl Hl). lia. }
  assert (Hf' : ∀ j r, j ∈ items → f j r = (upd j r, Some ())) by (intros; apply Hf; by right).
  apply NoDup_cons in Hi as [Hni Hi].
  destruct (find_update (p i) (f i) l) as [[l1 o]|] eqn:E.
  - apply find_update_Some in E as (la & r & lb & r' & -> & Hpr & Hr & -> & Hla).
    rewrite Hf in Hr by left. injection Hr as <- <-.
    rewrite IH; [|done|rewrite fmap_app, fmap_cons, Href, <-fmap_cons, <-fmap_app; exact Hl|done].
    assert (Hlb : Forall (λ rec, p i rec = false) lb).
    { apply Forall_forall. intros x Hx. apply not_true_iff_false. intros [Hm _]%Hp.
      apply Hp in Hpr as [Hmr _]. rewrite fmap_app, fmap_cons in Hl.
      apply NoDup_app in Hl as (_ & _ & [Hn _]%NoDup_cons). apply Hn.
      rewrite <-Hmr, Hm. by apply list_elem_of_fmap_2. }
    destruct (hits_cons_other i items la Hla) as [Ha1 Ha2].
    destruct (hits_cons_other i items lb Hlb) as [Hb1 Hb2].
    apply Hp in Hpr as [Hmr HPr].
    assert (Hhit : hit (i :: items) r = Some (upd i r)).
    { unfold hit. by rewrite HPr, matched_cons, decide_True. }
    assert (Hmiss : hit items (upd i r) = None).
    { unfold hit. destruct (P (upd i r)); [|done]. destruct (matched items (upd i r)) eqn:Em; [|done].
      apply matched_elem in Em as [Hin Hm]. destruct Hni. rewrite Href, <-Hmr in Hm.
      rewrite <-Hm. by apply list_elem_of_fmap_2. }
    rewrite !hits_app, !hits_cons, !count_hits_app, !count_hits_cons, Hhit, Hmiss, Ha1, Ha2, Hb1, Hb2.
    do 2 f_equal. cbv iota. lia.
  - apply find_update_None in E. destruct (hits_cons_other i items l E) as [-> ->]. by apply IH.
Qed.
End for_found.

(** ** A statement against its reading on records *)

Section sim.
Context `{PostgresLaws} `{TimeRange}.

Definition row_decodes (r : Row) (rec : row) : Prop := decodes_to (raw r) rec.
Definition table_decodes (d : Db) (l : list row) : Prop := Forall2 row_decodes (table d) l.

(** An assignment [u] of a row is the update [o] of its record. *)
Definition assigned (u : option (result RawRow SqlxError)) (o : option row) : Prop :=
  match u, o with
  | None, None => True
  | Some u, Some rec => ∃ raw', u = Ok raw' ∧ decodes_to raw' rec
  | _, _ => False
  end.

Lemma update_where_sim (f : Row → option (result RawRow SqlxError)) (g : row → option row) now l recs :
  (∀ r rec, r ∈ l → rec ∈ recs → row_decodes r rec → assigned (f r) (g rec)) →
  Forall2 row_decodes l recs →
  ∃ l', update_where f now l = Ok (l', Z.of_nat (length (filter (λ rec, is_Some (g rec)) recs)))
    ∧ Forall2 row_decodes l' ((λ rec, default rec (g rec)) <$> recs).
Proof.
  intros Hfg HF. induction HF as [|r rec l recs Hr HF IH]; [by exists []|].
  destruct IH as (l' & Hl' & HF').
  { intros x y Hx Hy. apply Hfg; by right. }
  specialize (Hfg r rec (list_elem_of_here _ _) (list_elem_of_here _ _) Hr).
  cbn [update_where]. rewrite fmap_cons, filter_cons. destruct (f r) as [u|], (g rec) as [rec'|]; try done.
  - destruct Hfg as (raw' & -> & Hd). rewrite decide_True by eauto. cbn. rewrite Hl'. cbn.
    eexists. split; [do 2 f_equal; lia|]. by constructor.
  - rewrite decide_False by (by intros []). rewrite Hl'. cbn. eexists. split; [done|]. by constructor.
Qed.

Lemma write_error l n e : write l n = Err e → ¬ range_error e.
Proof.
  intros Hw. pose proof (write_spec l n) as Hs. rewrite Hw in Hs. unfold broken in Hs.
  unfold range_error, integer_out_of_range, interval_out_of_range.
  destruct (negb _); [injection Hs as <-; by intros [|]|].
  destruct (negb _); [injection Hs as <-; by intros [|]|].
  induction l as [|r l IH] in Hs |- *; [done|]. cbn in Hs.
  destruct (violated (raw r)) eqn:E; cbn in Hs; [injection Hs as <-; by intros [|]|by apply IH].
Qed.

Lemma update_sim (f : OffsetDateTime → Row → option (result RawRow SqlxError)) (g : row → option row)
    now locked d recs :
  stmt_safe (update f) → tidy d → table_decodes d recs →
  (∀ r rec, r ∈ table d → rec ∈ recs → row_decodes r rec → assigned (f now r) (g rec)) →
  ∃ d', update f now locked d = Ok (d', Z.of_nat (length (filter (λ rec, is_Some (g rec)) recs)))
    ∧ tidy d' ∧ table_decodes d' ((λ rec, default rec (g rec)) <$> recs).
Proof.
  intros Hsafe Ht Hd Hfg. specialize (Hsafe now locked d Ht). unfold update in *.
  destruct (update_where_sim (f now) g now _ _ Hfg Hd) as (l' & Hl' & HF').
  rewrite Hl' in *. cbn in *. destruct (write l' (next_sequence d)) as [d'|e] eqn:Ew; cbn in *;
    [|by apply write_error in Ew].
  exists d'. split_and!; [done..|]. unfold table_decodes. by destruct (write_inv _ _ _ Ew) as [-> _].
Qed.

Lemma Forall2_filter_sim {A B} (R : A → B → Prop) (P : A → Prop) (Q : B → Prop)
    `{∀ a, Decision (P a), ∀ b, Decision (Q b)} l k :
  (∀ a b, a ∈ l → b ∈ k → R a b → P a ↔ Q b) → Forall2 R l k → Forall2 R (filter P l) (filter Q k).
Proof.
  intros HPQ HF. induction HF as [|a b l k Hab HF IH]; [done|]. rewrite !filter_cons.
  assert (IH' : Forall2 R (filter P l) (filter Q k)) by (apply IH; intros; apply HPQ; by try right).
  specialize (HPQ a b (list_elem_of_here _ _) (list_elem_of_here _ _) Hab).
  destruct (decide (P a)), (decide (Q b)); [by constructor|tauto..|done].
Qed.

Lemma delete_sim (p : OffsetDateTime → list Row → Row → bool) (q : row → bool) now locked d recs :
  tidy d → table_decodes d recs →
  (∀ r rec, r ∈ table d → rec ∈ recs → row_decodes r rec → p now (table d) r = q rec) →
  ∃ d', delete_where p now locked d = Ok (d', Z.of_nat (length (filter (λ rec, q rec = true) recs)))
    ∧ tidy d' ∧ table_decodes d' (filter (λ rec, q rec = false) recs).
Proof.
  intros Ht Hd Hpq. pose proof (delete_safe p now locked d Ht) as Hsafe. unfold delete_where in *.
  assert (Hlen : length (filter (λ r, p now (table d) r = true) (table d))
                 = length (filter (λ rec, q rec = true) recs)).
  { eapply Forall2_length, (Forall2_filter_sim row_decodes); [|exact Hd].
    intros r rec Hr Hrec Hrr. by rewrite (Hpq r rec). }
  destruct (write _ _) as [d'|e] eqn:Ew; cbn in *; [|by apply write_error in Ew].
  exists d'. rewrite Hlen. split_and!; [done..|]. unfold table_decodes.
  destruct (write_inv _ _ _ Ew) as [-> _]. apply Forall2_filter_sim; [|exact Hd].
  intros r rec Hr Hrec Hrr. by rewrite (Hpq r rec).
Qed.

(** ** Items *)

(** The references a caller holds are those of the rows. *)
Definition accurate {I} (m : I → MessageRef.t) (items : list I) (recs : list row) : Prop :=
  ∀ i rec, i ∈ items → rec ∈ recs → MessageRef.id (m i) = Envelope.id (envelope rec) →
    m i = message_ref rec.

Lemma ids_matched {I} (m : I → MessageRef.t) items recs r rec :
  accurate m items recs → rec ∈ recs → row_decodes r rec →
  row_id r ∈ PostgresOutboxStore.ref_uuid ∘ m <$> items ↔ is_Some (matched m items rec).
Proof.
  intros Hacc Hrec Hd. apply decodes_id in Hd. unfold row_id. split.
  - intros (i & Hi & Hin)%list_elem_of_fmap. cbn in Hi. unfold PostgresOutboxStore.ref_uuid in Hi.
    assert (Hm : m i = message_ref rec).
    { apply Hacc; [done..|]. rewrite Hd, Hi. by destruct (MessageRef.id (m i)). }
    destruct (matched m items rec) eqn:E; [done|]. apply matched_None in E. destruct E.
    rewrite <-Hm. by apply list_elem_of_fmap_2.
  - intros [i Hi]. apply matched_elem in Hi as [Hin Hm]. apply list_elem_of_fmap. exists i.
    split; [|done]. cbn. unfold PostgresOutboxStore.ref_uuid. rewrite Hm. cbn. by rewrite Hd.
Qed.

(** [find_owned_mut]'s predicate and the [WHERE] clause. *)
Definition locked_to (w : WorkerId.t) (rec : row) : bool := bool_decide (locked_by rec = Some w).

Lemma held_hit {I} (m : I → MessageRef.t) (upd : I → row → row) items recs w r rec :
  valid_worker w → accurate m items recs → rec ∈ recs → row_decodes r rec →
  held (PostgresOutboxStore.ref_uuid ∘ m <$> items) (WorkerId.as_str w) r = true
  ↔ is_Some (hit m (locked_to w) upd items rec).
Proof.
  intros Hw Hacc Hrec Hd. unfold held, hit, locked_to.
  rewrite andb_true_iff, !bool_decide_eq_true, (ids_matched m items recs r rec) by done.
  rewrite <-(decodes_worker (raw r) rec w) by done. case_bool_decide.
  - rewrite fmap_is_Some. tauto.
  - split; [tauto|by intros []].
Qed.

Lemma hit_Some {I} (m : I → MessageRef.t) P (upd : I → row → row) items rec rec' :
  hit m P upd items rec = Some rec' →
  P rec = true ∧ ∃ i, i ∈ items ∧ m i = message_ref rec ∧ rec' = upd i rec.
Proof.
  unfold hit. destruct (P rec); [|done]. intros (i & Hi%matched_elem & ->)%fmap_Some.
  destruct Hi. eauto.
Qed.

(** A worker-guarded update by ids. *)
Lemma held_update_sim {I} (m : I → MessageRef.t) (upd : I → row → row) items recs w
    (g : OffsetDateTime → Row → result RawRow SqlxError) now locked d :
  let f := λ now r, if held (PostgresOutboxStore.ref_uuid ∘ m <$> items) (WorkerId.as_str w) r
                    then Some (g now r) else None in
  valid_worker w → accurate m items recs → stmt_safe (update f) → tidy d → table_decodes d recs →
  (∀ i r rec, i ∈ items → rec ∈ recs → row_decodes r rec → locked_by rec = Some w →
     ∃ raw', g now r = Ok raw' ∧ decodes_to raw' (upd i rec)) →
  ∃ d', update f now locked d = Ok (d', count_hits m (locked_to w) upd items recs)
    ∧ tidy d' ∧ table_decodes d' (hits m (locked_to w) upd items recs).
Proof.
  cbn zeta. intros Hw Hacc Hsafe Ht Hd Hg.
  apply (update_sim _ (hit m (locked_to w) upd items) now locked d recs Hsafe Ht Hd).
  intros r rec Hr Hrec Hrr. pose proof (held_hit m upd items recs w r rec Hw Hacc Hrec Hrr) as Hheld.
  destruct (hit m (locked_to w) upd items rec) as [rec'|] eqn:Eh.
  - rewrite (proj2 Hheld) by eauto. apply hit_Some in Eh as (HP & i & Hi & _ & ->).
    apply bool_decide_eq_true in HP. by eapply Hg.
  - destruct (held _ _ _); [|done]. by destruct (proj1 Hheld eq_refl).
Qed.

Lemma decodes_refs d recs : table_decodes d recs → NoDup (message_ref <$> recs).
Proof.
  intros Hd. pose proof (sound_ids d) as Hid.
  assert (Hmap : (λ rec, MessageId.as_uuid (Envelope.id (envelope rec))) <$> recs = row_id <$> table d).
  { induction Hd as [|r rec l recs Hr HF IH]; [done|]. cbn. apply NoDup_cons in Hid as [_ Hid].
    rewrite (IH Hid), (decodes_id _ _ Hr). done. }
  rewrite <-Hmap in Hid.
  apply (NoDup_fmap_1 (λ m, MessageId.as_uuid (MessageRef.id m))). by rewrite <-list_fmap_compose.
Qed.
End sim.
