(* ===== verification/PgRefine.v ===== *)
(** * Postgres implements the in-memory store ([reliar-store-postgres], [reliar-outbox])

    The in-memory store is what the dispatcher is tested against.  On tables whose rows
    decode, and calls both stores can represent exactly, an undisturbed Postgres answers as
    the in-memory store does and leaves the rows it leaves: the statements are a refinement
    of the record operations through [decode_row]. *)

From S2P Require Import Prelude RustString CoreTypes CoreHeaders CoreEnvelope OutboxTypes OutboxSettings MemStore MemStoreInv MemStoreSpec MemStoreThms StoreInterface PgErrors PgRecords PgRoundtrip PgTable PgStore PgTableInv PgStoreThms PgSim.
Import OutboxRecord(envelope, sequence, created_at, ordering_key, attempts, available_at,
  locked_by, locked_until, published_at, dead_at, dead_reason, last_error, message_ref,
  with_attempts, with_available_at, with_lease, with_published_at, with_dead, set_last_error).

Section shared.
Context `{PostgresLaws} `{TimeRange}.

(** ** The operations both stores share *)

Inductive shared_op :=
  | SAcquire (request : AcquireRequest.t)
  | SComplete (w : WorkerId.t) (items : list CompletedMessage.t)
  | SFail (w : WorkerId.t) (items : list FailedMessage.t)
  | SRelease (w : WorkerId.t) (items : list MessageRef.t)
  | SExtend (w : WorkerId.t) (items : list MessageRef.t) (lease : Duration)
  | SRetryDead (refs : list MessageRef.t)
  | SPurgeDead (refs : list MessageRef.t).

Inductive reply := Count (n : Z) | Batch (b : AcquiredBatch.t).

(** The same batch: its records in any order. *)
Definition same_reply (a b : option reply) : Prop :=
  match a, b with
  | Some (Count n), Some (Count k) => n = k
  | Some (Batch a), Some (Batch b) =>
      AcquiredBatch.records a ≡ₚ AcquiredBatch.records b ∧ AcquiredBatch.poisoned a = AcquiredBatch.poisoned b
  | _, _ => False
  end.

Definition mem_answer {A} (k : A → reply) (r : Inner * outcome (result A InMemoryStoreError))
  : Inner * option reply :=
  (r.1, match r.2 with Some (Ok a) => Some (k a) | _ => None end).

Definition mem_reply (o : shared_op) (s : Inner) : Inner * option reply :=
  match o with
  | SAcquire request => mem_answer Batch (try_acquire request s)
  | SComplete w items => mem_answer Count (try_complete w items s)
  | SFail w items => mem_answer Count (try_fail w items s)
  | SRelease w items => mem_answer Count (try_release w items s)
  | SExtend w items lease => mem_answer Count (try_extend_lease w items lease s)
  | SRetryDead refs => let '(s, n) := MemStore.retry_dead refs s in (s, Some (Count n))
  | SPurgeDead refs => let '(s, n) := MemStore.purge_dead refs s in (s, Some (Count n))
  end.

Definition pg_answer {A} (k : A → reply) (r : Pg * call A PostgresStoreError) : Pg * option reply :=
  (r.1, match r.2 with Answered (Ok a) => Some (k a) | _ => None end).

Definition pg_reply (schedule : nat → Step) (settings : PostgresOutboxSettings.t) (o : shared_op) (w : Pg)
  : Pg * option reply :=
  match o with
  | SAcquire request => pg_answer Batch (PostgresOutboxStore.acquire schedule settings request w)
  | SComplete v items => pg_answer Count (PostgresOutboxStore.complete schedule settings v items w)
  | SFail v items => pg_answer Count (PostgresOutboxStore.fail schedule settings v items w)
  | SRelease v items => pg_answer Count (PostgresOutboxStore.release schedule settings v items w)
  | SExtend v items lease =>
      pg_answer Count (PostgresOutboxStore.extend_lease schedule settings v items lease w)
  | SRetryDead refs => pg_answer Count (PostgresOutboxStore.retry_dead schedule settings refs w)
  | SPurgeDead refs => pg_answer Count (PostgresOutboxStore.purge_dead schedule settings refs w)
  end.

(** ** When the stores can be compared *)

(** A duration Postgres represents: whole milliseconds, an interval in range. *)
Record exact_ms (t : OffsetDateTime) (d : Duration) : Prop := {
  em_whole : d = millis_i64 d * 1000000;
  em_exact : Z.abs (millis_i64 d) ≤ EXACT_MS;
  em_valid : odt_valid (t + d);
  em_interval : add_interval t (millis_i64 d) ≠ None;
}.

(** References that are those of the rows, each given once. *)
Record named_once {I} (m : I → MessageRef.t) (items : list I) (recs : list row) : Prop := {
  no_once : NoDup (m <$> items);
  no_accurate : accurate m items recs;
}.

(** An attempts counter with room in an [integer] column. *)
Definition countable (recs : list row) : Prop := ∀ rec, rec ∈ recs → attempts rec < I32_MAX.

Definition comparable (o : shared_op) (s : Inner) : Prop :=
  match o with
  | SAcquire r => valid_worker (AcquireRequest.worker r) ∧ exact_ms (now s) (AcquireRequest.lease r)
  | SComplete w items =>
      valid_worker w ∧ named_once CompletedMessage.message items (rows s) ∧ countable (rows s)
  | SFail w items =>
      valid_worker w ∧ named_once FailedMessage.message items (rows s) ∧ countable (rows s)
      ∧ ∀ i d, i ∈ items → FailedMessage.outcome i = Retry d → exact_ms (now s) d
  | SRelease w items => valid_worker w ∧ named_once id items (rows s)
  | SExtend w items lease => valid_worker w ∧ named_once id items (rows s) ∧ exact_ms (now s) lease
  | SRetryDead refs => named_once id refs (rows s)
  | SPurgeDead refs => accurate id refs (rows s)
  end.

(** No failure armed in the fake. *)
Definition unarmed (s : Inner) : Prop :=
  fail_next s = O ∧ fail_next_permanent s = O ∧ fail_next_complete s = O.

Record related (w : Pg) (s : Inner) : Prop := {
  rel_tx : tx w = None;
  rel_tidy : tidy (committed w);
  rel_rows : table_decodes (committed w) (rows s);
  rel_unarmed : unarmed s;
}.

(** Nobody interferes, and the database's clock reads [t]. *)
Record undisturbed (t : OffsetDateTime) (s : Step) : Prop := {
  un_runs : fate s = Runs;
  un_at : at_ s = t;
  un_others d : others s d = d;
  un_locked i : locked s i = false;
}.
End shared.

Section refine.
Context `{PostgresLaws} `{TimeRange} (schedule : nat → Step) (settings : PostgresOutboxSettings.t).

Lemma interval_exact t d : exact_ms t d → interval_from t (millis_i64 d) = Ok (t + d).
Proof.
  intros [Hw He _ Hi]. pose proof (interval_from_spec t (millis_i64 d)) as Hs. unfold interval_from in *.
  destruct (add_interval t (millis_i64 d)) as [u|] eqn:Eu; [|done].
  apply add_interval_Some in Eu; [|done]. f_equal. lia.
Qed.

Lemma increment_countable r rec : decodes_to r rec → attempts rec < I32_MAX →
  increment (r_attempts r) = Ok (attempts rec + 1)
  ∧ u32_saturating_add (attempts rec) 1 = attempts rec + 1 ∧ 0 ≤ attempts rec + 1 ≤ U32_MAX.
Proof.
  intros [_ _ _ _ [-> [Hlo Hhi]] _ _ _ _ _ _ _] Hlt. unfold increment, u32_saturating_add, I32_MAX, U32_MAX in *.
  rewrite (proj2 (Z.leb_le _ _)) by lia. split_and!; [done|lia..].
Qed.

Lemma guarded_unarmed {A} s (body : Inner → Inner * outcome (result A InMemoryStoreError)) :
  unarmed s → guarded s body = body s.
Proof. intros (Hf & Hp & _). unfold guarded, take_injected_failure. by rewrite Hp, Hf. Qed.

Lemma owned_locked_to w m r : owned w m r = true ↔ m = message_ref r ∧ locked_to w r = true.
Proof. rewrite owned_spec. unfold locked_to. rewrite bool_decide_eq_true. naive_solver. Qed.

(** [by_id] with items that name rows once. *)
Lemma by_id_hits {I} (m : I → MessageRef.t) (upd : I → row → row) (f : I → row → row * outcome unit) w items s :
  (∀ i r, message_ref (upd i r) = message_ref r) →
  (∀ i r, i ∈ items → f i r = (upd i r, Some ())) →
  NoDup (message_ref <$> rows s) → NoDup (m <$> items) →
  by_id (λ i, owned w (m i)) f items s
  = (set_rows (hits m (locked_to w) upd items (rows s)) s,
     Some (Ok (count_hits m (locked_to w) upd items (rows s)))).
Proof.
  intros Href Hf Hl Hi. unfold by_id.
  rewrite (for_found_nodup m (locked_to w) upd) by (try done; intros i r; apply owned_locked_to).
  by rewrite Z.add_0_l.
Qed.

(** A statement alone, on its own connection. *)
Context (t : OffsetDateTime) (Hquiet : ∀ n, undisturbed t (schedule n)).
Context (Hzero : is_zero (PostgresOutboxSettings.statement_timeout settings) = true).

Lemma exec_quiet {A} (q : stmt A) w d a :
  tx w = None → q t (locked (schedule (tick w))) (committed w) = Ok (d, a) →
  exec schedule q w = (ticked schedule d w, Answered (Ok a)).
Proof.
  intros Htx Hq. destruct (Hquiet (tick w)) as [Hr Ht Ho _].
  rewrite exec_pool by done. cbn zeta. by rewrite Ht, Ho, Hq.
Qed.

Lemma with_timeout_zero {A} (m : M A) : with_timeout schedule settings m = m.
Proof. unfold with_timeout. by rewrite Hzero. Qed.

(** One guarded statement answers as one pass of the fake, and leaves related rows. *)
Lemma items_related {I} (items : list I) (q : stmt Z) w s d' recs n :
  related w s → q t (locked (schedule (tick w))) (committed w) = Ok (d', n) →
  tidy d' → table_decodes d' recs → (items = [] → recs = rows s ∧ n = 0) →
  let '(w', r) := PostgresOutboxStore.on_items settings items (with_timeout schedule settings (exec schedule q)) w in
  r = Answered (Ok n) ∧ ∀ s', rows s' = recs → unarmed s' → related w' s'.
Proof.
  intros [Htx Ht Hd Hun] Hq Ht' Hd' Hnil. unfold PostgresOutboxStore.on_items, run.
  rewrite with_timeout_zero. destruct items as [|i items].
  - destruct (Hnil eq_refl) as [-> ->]. cbn. split; [done|]. intros s' Hs' Hun'.
    split; [done..|by rewrite Hs'|done].
  - rewrite (exec_quiet _ _ _ _ Htx Hq). cbn. split; [done|]. intros s' Hs' Hun'.
    split; [done..|by rewrite Hs'|done].
Qed.

Definition agrees (o : shared_op) : Prop := ∀ w s, now s = t → related w s → comparable o s →
  let '(w', a) := pg_reply schedule settings o w in
  let '(s', b) := mem_reply o s in
  same_reply a b ∧ related w' s'.

Lemma hits_nil {I} (m : I → MessageRef.t) P (upd : I → row → row) l :
  hits m P upd [] l = l ∧ count_hits m P upd [] l = 0.
Proof.
  assert (Hno : ∀ rec, hit m P upd [] rec = None) by (intros rec; unfold hit; by destruct (P rec)).
  split.
  - unfold hits. rewrite <-(list_fmap_id l) at 2. apply list_fmap_ext. intros. by rewrite Hno.
  - induction l as [|rec l IHl]; [done|]. by rewrite count_hits_cons, Hno, IHl.
Qed.

Lemma hits_nil_eq {I} (m : I → MessageRef.t) P (upd : I → row → row) (items : list I) l :
  items = [] → hits m P upd items l = l ∧ count_hits m P upd items l = 0.
Proof. intros ->. apply hits_nil. Qed.

Lemma complete_agrees v items : agrees (SComplete v items).
Proof.
  intros w s Hnow Hrel (Hv & [Hnd Hacc] & Hcount). pose proof Hrel as [Htx Ht Hd Hun].
  cbn [pg_reply mem_reply]. set (upd := λ (_ : CompletedMessage.t) r, completed (now s) r).
  destruct (held_update_sim CompletedMessage.message upd items (rows s) v
    (λ now r, let? n := increment (r_attempts (raw r)) in
              Ok (set_lease None None (set_attempts n (set_published_at (Some now) (raw r)))))
    t (locked (schedule (tick w))) (committed w) Hv Hacc (complete_rows_safe _ _) Ht Hd)
    as (d' & Hq & Ht' & Hd').
  { intros i r rec _ Hrec Hr _. destruct (increment_countable _ _ Hr (Hcount _ Hrec)) as (-> & Hsat & Hb).
    eexists. split; [done|]. unfold upd, completed. rewrite Hsat, Hnow.
    by apply decodes_clear_lease, decodes_attempts, decodes_published. }
  pose proof (items_related items _ w s d' _ _ Hrel Hq Ht' Hd' (hits_nil_eq _ _ _ _ _)) as Hpg.
  unfold PostgresOutboxStore.complete, pg_answer.
  destruct (PostgresOutboxStore.on_items _ _ _ _) as [w' r]. destruct Hpg as [-> Hpg].
  unfold mem_answer, try_complete, take_fail_next_complete. cbn [set_complete fail_next_complete].
  destruct Hun as (Hf & Hp & Hfc). rewrite Hfc. rewrite guarded_unarmed by done.
  rewrite (by_id_hits CompletedMessage.message upd) by (try done; by apply decodes_refs with (committed w)).
  cbn. split; [done|]. by apply Hpg.
Qed.

Lemma release_agrees v items : agrees (SRelease v items).
Proof.
  intros w s Hnow Hrel (Hv & [Hnd Hacc]). pose proof Hrel as [Htx Ht Hd Hun].
  cbn [pg_reply mem_reply]. set (upd := λ (_ : MessageRef.t) (r : row), with_lease None None r).
  destruct (held_update_sim id upd items (rows s) v (λ _ r, Ok (set_lease None None (raw r)))
    t (locked (schedule (tick w))) (committed w) Hv Hacc (release_rows_safe _ _) Ht Hd)
    as (d' & Hq & Ht' & Hd').
  { intros i r rec _ Hrec Hr _. eexists. split; [done|]. by apply decodes_clear_lease. }
  pose proof (items_related items _ w s d' _ _ Hrel Hq Ht' Hd' (hits_nil_eq _ _ _ _ _)) as Hpg.
  unfold PostgresOutboxStore.release, pg_answer.
  change (PostgresOutboxStore.ref_uuid ∘ id <$> items) with (PostgresOutboxStore.ref_uuid <$> items) in Hpg.
  unfold release_rows. destruct (PostgresOutboxStore.on_items _ _ _ _) as [w' r]. destruct Hpg as [-> Hpg].
  unfold mem_answer, try_release. rewrite guarded_unarmed by done.
  change (by_id (owned v)) with (by_id (λ i, owned v (id i))).
  rewrite (by_id_hits id upd) by (try done; by apply decodes_refs with (committed w)).
  cbn. split; [done|]. by apply Hpg.
Qed.

Lemma extend_agrees v items lease : agrees (SExtend v items lease).
Proof.
  intros w s Hnow Hrel (Hv & [Hnd Hacc] & Hms). pose proof Hrel as [Htx Ht Hd Hun]. rewrite Hnow in Hms.
  cbn [pg_reply mem_reply].
  set (upd := λ (_ : MessageRef.t) (r : row), with_lease (locked_by r) (Some (t + lease)) r).
  destruct (held_update_sim id upd items (rows s) v
    (λ now r, let? until := interval_from now (millis_i64 lease) in
              Ok (set_lease (r_locked_by (raw r)) (Some until) (raw r)))
    t (locked (schedule (tick w))) (committed w) Hv Hacc (extend_lease_rows_safe _ _ _) Ht Hd)
    as (d' & Hq & Ht' & Hd').
  { intros i r rec _ Hrec Hr _. rewrite (interval_exact _ _ Hms). eexists. split; [done|].
    by apply decodes_extend. }
  pose proof (items_related items _ w s d' _ _ Hrel Hq Ht' Hd' (hits_nil_eq _ _ _ _ _)) as Hpg.
  unfold PostgresOutboxStore.extend_lease, pg_answer, extend_lease_rows.
  change (PostgresOutboxStore.ref_uuid ∘ id <$> items) with (PostgresOutboxStore.ref_uuid <$> items) in Hpg.
  destruct (PostgresOutboxStore.on_items _ _ _ _) as [w' r]. destruct Hpg as [-> Hpg].
  unfold mem_answer, try_extend_lease. rewrite guarded_unarmed by done. rewrite Hnow.
  unfold odt_add. rewrite (proj2 (odt_checked_Some (t + lease) _)) by (split; [done|apply Hms]).
  change (by_id (owned v)) with (by_id (λ i, owned v (id i))).
  rewrite (by_id_hits id upd) by (try done; by apply decodes_refs with (committed w)).
  cbn. split; [done|]. by apply Hpg.
Qed.

Lemma retry_dead_agrees refs : agrees (SRetryDead refs).
Proof.
  intros w s Hnow Hrel [Hnd Hacc]. pose proof Hrel as [Htx Ht Hd Hun].
  cbn [pg_reply mem_reply]. set (upd := λ (_ : MessageRef.t) (r : row), retried (now s) r).
  set (P := λ r : row, bool_decide (dead_at r ≠ None)).
  destruct (update_sim (λ now r,
      if bool_decide (row_id r ∈ PostgresOutboxStore.ref_uuid <$> refs) && bool_decide (r_dead_at (raw r) ≠ None)
      then Some (Ok (set_lease None None (set_attempts 0 (PgTable.set_available_at now
                       (set_dead None None (raw r)))))) else None)
    (hit id P upd refs) t (locked (schedule (tick w))) (committed w) (rows s)
    (retry_dead_rows_safe _) Ht Hd) as (d' & Hq & Ht' & Hd').
  { intros r rec Hr Hrec Hrr. pose proof (ids_matched id refs (rows s) r rec Hacc Hrec Hrr) as Hid.
    unfold hit, P. rewrite (dt_dead _ _ Hrr). rewrite andb_comm.
    case_bool_decide as Hdead; [|done]. cbn [andb].
    destruct (matched id refs rec) as [i|] eqn:Em.
    - rewrite bool_decide_eq_true_2 by (apply Hid; eauto). cbn. eexists. split; [done|].
      unfold upd, retried. rewrite Hnow.
      assert (Hun0 : locked_by rec = None ∧ locked_until rec = None).
      { pose proof (tidy_rows _ Ht) as Hok. rewrite Forall_forall in Hok.
        destruct (Hok _ Hr) as [[_ _ _ Hl _ _] Hlp]. rewrite (dt_locked_until _ _ Hrr).
        assert (Hlb : r_locked_by (raw r) = None).
        { destruct (r_locked_by (raw r)) eqn:E; [|done]. destruct Hlp as [_ ?]; [by rewrite E|done]. }
        split; [|by apply Hl]. pose proof (dt_locked_by _ _ Hrr) as Hb. rewrite Hlb in Hb.
        by injection Hb as <-. }
      apply (decodes_dead _ _ None None), (decodes_available _ _ t), (decodes_attempts _ _ 0),
        decodes_clear_lease in Hrr; [|done].
      destruct rec; cbn in *. destruct Hun0 as [-> ->]. exact Hrr.
    - rewrite bool_decide_eq_false_2; [done|]. intros Hin. by destruct (proj1 Hid Hin). }
  pose proof (items_related refs _ w s d' _ _ Hrel Hq Ht' Hd' (hits_nil_eq _ _ _ _ _)) as Hpg.
  unfold PostgresOutboxStore.retry_dead, pg_answer, retry_dead_rows, MemStore.retry_dead.
  destruct (PostgresOutboxStore.on_items _ _ _ _) as [w' r]. destruct Hpg as [-> Hpg].
  rewrite (for_found_nodup id P upd); [|..|exact (λ i r _, eq_refl)|by apply decodes_refs with (committed w)|done].
  - cbn [default]. rewrite Z.add_0_l. split; [done|]. by apply Hpg.
  - intros m r'. unfold dead_ref_matches, P. rewrite !andb_true_iff, !bool_decide_eq_true, Z.eqb_eq.
    destruct m; cbn. split; [intros [[<- <-] ?]; done|intros [[= -> ->] ?]; done].
  - done.
Qed.

Lemma purge_dead_agrees refs : agrees (SPurgeDead refs).
Proof.
  intros w s Hnow Hrel Hacc. pose proof Hrel as [Htx Ht Hd Hun]. cbn [pg_reply mem_reply].
  unfold MemStore.purge_dead.
  set (q := λ r, bool_decide (dead_at r ≠ None) && existsb (dead_ref_matches r) refs).
  destruct (delete_sim (λ _ _ r, bool_decide (row_id r ∈ PostgresOutboxStore.ref_uuid <$> refs)
      && bool_decide (r_dead_at (raw r) ≠ None)) q t (locked (schedule (tick w))) (committed w) (rows s) Ht Hd)
    as (d' & Hq & Ht' & Hd').
  { intros r rec Hr Hrec Hrr. pose proof (ids_matched id refs (rows s) r rec Hacc Hrec Hrr) as Hid.
    unfold q. rewrite (dt_dead _ _ Hrr), andb_comm. f_equal. apply eq_bool_prop_intro.
    rewrite bool_decide_spec. change (PostgresOutboxStore.ref_uuid ∘ id <$> refs)
      with (PostgresOutboxStore.ref_uuid <$> refs) in Hid. rewrite Hid, Is_true_true, existsb_exists. split.
    - intros [i [Hi Hm]%matched_elem]. exists i. split; [by apply list_elem_of_In|].
      unfold id in Hm. subst i.
      unfold dead_ref_matches. cbn. by rewrite bool_decide_eq_true_2, Z.eqb_refl.
    - intros (i & Hi%list_elem_of_In & Hm). unfold dead_ref_matches in Hm.
      apply andb_true_iff in Hm as [Hm1%bool_decide_eq_true Hm2%Z.eqb_eq].
      destruct (matched id refs rec) eqn:E; [done|]. apply matched_None in E. destruct E.
      rewrite list_fmap_id. unfold message_ref. rewrite Hm1, Hm2. by destruct i. }
  pose proof (items_related refs _ w s d' _ _ Hrel Hq Ht' Hd') as Hpg.
  unfold PostgresOutboxStore.purge_dead, pg_answer, purge_dead_rows.
  destruct (PostgresOutboxStore.on_items _ _ _ _) as [w' r]. destruct Hpg as [-> Hpg].
  { intros ->. unfold q. split.
    - clear. induction (rows s) as [|x l IH]; [done|]. rewrite filter_cons_True by apply andb_false_r. by f_equal.
    - clear. induction (rows s) as [|x l IH]; [done|]. rewrite filter_cons_False; [done|].
      by rewrite andb_false_r. }
  cbn. split; [done|]. by apply Hpg.
Qed.

(** ** [fail] *)

Lemma matched_unique {I} (m : I → MessageRef.t) items rec i :
  NoDup (m <$> items) → i ∈ items → m i = message_ref rec → matched m items rec = Some i.
Proof.
  intros Hnd Hi Hm. destruct (matched m items rec) as [j|] eqn:E.
  - apply matched_elem in E as [Hj Hmj]. f_equal. apply (NoDup_fmap_eq m items); congruence.
  - apply matched_None in E. destruct E. rewrite <-Hm. by apply list_elem_of_fmap_2.
Qed.

(** What the fake makes of a failed row when the clock does not overflow. *)
Definition failed (now : OffsetDateTime) (i : FailedMessage.t) (r : row) : row :=
  let r1 := set_last_error (Some (truncate_error (FailedMessage.error i)))
              (with_attempts (u32_saturating_add (attempts r) 1) r) in
  with_lease None None
    match FailedMessage.outcome i with
    | Retry delay => with_available_at (now + delay) r1
    | Dead reason => with_dead (Some now) (Some reason) r1
    end.

Definition is_retry (o : FailureOutcome) : bool := match o with Retry _ => true | Dead _ => false end.

(** One of the two statements: the matched items of one kind. *)
Definition fails (v : WorkerId.t) (items : list FailedMessage.t) (retry : bool) (rec : row) : option row :=
  if locked_to v rec then
    match matched FailedMessage.message items rec with
    | Some i => if Bool.eqb (is_retry (FailedMessage.outcome i)) retry then Some (failed t i rec) else None
    | None => None
    end
  else None.

Lemma fails_split v items rec :
  let rec1 := default rec (fails v items true rec) in
  default rec1 (fails v items false rec1)
  = default rec (hit FailedMessage.message (locked_to v) (failed t) items rec)
  ∧ ((if fails v items true rec is Some _ then 1 else 0) + (if fails v items false rec1 is Some _ then 1 else 0)
     = if hit FailedMessage.message (locked_to v) (failed t) items rec is Some _ then 1 else 0).
Proof.
  cbn zeta. unfold hit.
  assert (Hall : ∀ b, fails v items b rec =
    if locked_to v rec then
      match matched FailedMessage.message items rec with
      | Some i => if Bool.eqb (is_retry (FailedMessage.outcome i)) b then Some (failed t i rec) else None
      | None => None
      end else None) by done.
  destruct (locked_to v rec) eqn:El; [|rewrite (Hall true); cbn [default from_option id]; by rewrite Hall].
  destruct (matched FailedMessage.message items rec) as [i|] eqn:Em;
    [|rewrite (Hall true); cbn [default from_option id]; by rewrite Hall].
  destruct (is_retry (FailedMessage.outcome i)) eqn:Er; rewrite (Hall true); cbn [Bool.eqb default from_option id].
  - assert (Hno : fails v items false (failed t i rec) = None).
    { unfold fails. replace (locked_to v (failed t i rec)) with false; [done|].
      symmetry. unfold locked_to, failed. by apply bool_decide_eq_false. }
    by rewrite Hno.
  - by rewrite Hall.
Qed.

Lemma fails_all v items recs :
  let recs1 := (λ rec, default rec (fails v items true rec)) <$> recs in
  (λ rec, default rec (fails v items false rec)) <$> recs1
  = hits FailedMessage.message (locked_to v) (failed t) items recs
  ∧ Z.of_nat (length (filter (λ rec, is_Some (fails v items true rec)) recs))
    + Z.of_nat (length (filter (λ rec, is_Some (fails v items false rec)) recs1))
    = count_hits FailedMessage.message (locked_to v) (failed t) items recs.
Proof.
  assert (Hlen : ∀ (g : row → option row) r l,
    Z.of_nat (length (filter (λ rec, is_Some (g rec)) (r :: l)))
    = (if g r is Some _ then 1 else 0) + Z.of_nat (length (filter (λ rec, is_Some (g rec)) l))).
  { intros g r l. rewrite filter_cons. destruct (g r).
    - rewrite decide_True by eauto. cbn [length]. lia.
    - rewrite decide_False by (by intros []). done. }
  induction recs as [|rec recs [IH1 IH2]]; [done|]. cbn zeta in *. rewrite !fmap_cons.
  destruct (fails_split v items rec) as [H1' H2']. cbn zeta in *. split.
  - rewrite hits_cons. by rewrite H1', IH1.
  - rewrite !Hlen, count_hits_cons. lia.
Qed.

Lemma split_elem items u a :
  let '(retry, dead) := PostgresOutboxStore.split_failures items in
  ((u, a) ∈ retry ↔ ∃ i d, i ∈ items ∧ FailedMessage.outcome i = Retry d
     ∧ u = PostgresOutboxStore.ref_uuid (FailedMessage.message i) ∧ a = (FailedMessage.error i, millis_i64 d)).
Proof.
  induction items as [|i items IH]; cbn.
  { split; [by intros ?%elem_of_nil|by intros (? & ? & ?%elem_of_nil & _)]. }
  destruct (PostgresOutboxStore.split_failures items) as [retry dead].
  destruct (FailedMessage.outcome i) as [d|reason] eqn:Eo.
  - rewrite elem_of_cons, IH. split.
    + intros [[= -> ->]|(j & d' & Hj & Hrest)]; [exists i, d; by split; [left|]|].
      exists j, d'. by split; [right|].
    + intros (j & d' & [->|Hj]%elem_of_cons & Ho & -> & ->); [left; congruence|right].
      exists j, d'. done.
  - rewrite IH. split; intros (j & d' & Hj & Hrest); exists j, d'.
    + by split; [right|].
    + apply elem_of_cons in Hj as [->|Hj]; [|done]. destruct Hrest as [Ho _]. congruence.
Qed.

Lemma split_elem_dead items u a :
  let '(retry, dead) := PostgresOutboxStore.split_failures items in
  ((u, a) ∈ dead ↔ ∃ i reason, i ∈ items ∧ FailedMessage.outcome i = Dead reason
     ∧ u = PostgresOutboxStore.ref_uuid (FailedMessage.message i)
     ∧ a = (FailedMessage.error i, encode_dead_reason reason)).
Proof.
  induction items as [|i items IH]; cbn.
  { split; [by intros ?%elem_of_nil|by intros (? & ? & ?%elem_of_nil & _)]. }
  destruct (PostgresOutboxStore.split_failures items) as [retry dead].
  destruct (FailedMessage.outcome i) as [d|reason] eqn:Eo.
  - rewrite IH. split; intros (j & d' & Hj & Hrest); exists j, d'.
    + by split; [right|].
    + apply elem_of_cons in Hj as [->|Hj]; [|done]. destruct Hrest as [Ho _]. congruence.
  - rewrite elem_of_cons, IH. split.
    + intros [[= -> ->]|(j & d' & Hj & Hrest)]; [exists i, reason; by split; [left|]|].
      exists j, d'. by split; [right|].
    + intros (j & d' & [->|Hj]%elem_of_cons & Ho & -> & ->); [left; congruence|right].
      exists j, d'. done.
Qed.

(** A statement of [fail], sent unless it has no items. *)
Lemma unless_step {J} (items : list J) (f : OffsetDateTime → Row → option (result RawRow SqlxError))
    (g : row → option row) w recs :
  tx w = None → tidy (committed w) → table_decodes (committed w) recs → stmt_safe (update f) →
  (∀ r rec, r ∈ table (committed w) → rec ∈ recs → row_decodes r rec → assigned (f t r) (g rec)) →
  (items = [] → ∀ rec, rec ∈ recs → g rec = None) →
  ∃ w', PostgresOutboxStore.unless_empty items (exec schedule (update f)) w
        = (w', Answered (Ok (Z.of_nat (length (filter (λ rec, is_Some (g rec)) recs)))))
    ∧ tx w' = None ∧ tidy (committed w')
    ∧ table_decodes (committed w') ((λ rec, default rec (g rec)) <$> recs).
Proof.
  intros Htx Ht Hd Hsafe Hfg Hnil. destruct items as [|j items]; cbn [PostgresOutboxStore.unless_empty].
  - specialize (Hnil eq_refl). exists w.
    assert (Hz : filter (λ rec, is_Some (g rec)) recs = []).
    { clear -Hnil. induction recs as [|r l IH]; [done|]. rewrite filter_cons_False.
      - apply IH. intros rec Hr. apply Hnil. by right.
      - rewrite Hnil by left. by intros []. }
    assert (Hid : (λ rec, default rec (g rec)) <$> recs = recs).
    { rewrite <-(list_fmap_id recs) at 2. apply list_fmap_ext. intros i r Hr.
      by rewrite Hnil by by eapply list_elem_of_lookup_2. }
    by rewrite Hz, Hid.
  - destruct (update_sim f g t (locked (schedule (tick w))) _ _ Hsafe Ht Hd Hfg) as (d' & Hq & Ht' & Hd').
    rewrite (exec_quiet _ _ _ _ Htx Hq). by eexists.
Qed.

Section fail_items.
Context (v : WorkerId.t) (items : list FailedMessage.t)
  (retry : list (Uuid * (string * Z))) (dead : list (Uuid * (string * string))).
Context (Hsplit : PostgresOutboxStore.split_failures items = (retry, dead)) (Hv : valid_worker v).
Context (Hnd : NoDup (FailedMessage.message <$> items)).
Context (Hms : ∀ i d, i ∈ items → FailedMessage.outcome i = Retry d → exact_ms t d).

Definition fail_ready (recs : list row) : Prop :=
  accurate FailedMessage.message items recs
  ∧ ∀ rec, rec ∈ recs → locked_to v rec = true → attempts rec < I32_MAX.

Lemma item_of_row recs r rec i : accurate FailedMessage.message items recs → rec ∈ recs →
  row_decodes r rec → i ∈ items →
  PostgresOutboxStore.ref_uuid (FailedMessage.message i) = row_id r →
  matched FailedMessage.message items rec = Some i.
Proof.
  intros Hacc Hrec Hr Hi Hid. apply matched_unique; [done..|]. apply Hacc; [done..|].
  apply decodes_id in Hr. rewrite Hr. unfold PostgresOutboxStore.ref_uuid, row_id in Hid. rewrite <-Hid.
  by destruct (MessageRef.id _).
Qed.

Lemma row_of_item r rec i : row_decodes r rec → FailedMessage.message i = message_ref rec →
  PostgresOutboxStore.ref_uuid (FailedMessage.message i) = row_id r.
Proof. intros Hr%decodes_id ->. unfold PostgresOutboxStore.ref_uuid. cbn. by rewrite Hr. Qed.

Lemma locked_row r rec : row_decodes r rec →
  bool_decide (r_locked_by (raw r) = Some (WorkerId.as_str v)) = locked_to v rec.
Proof. intros Hr. apply bool_decide_ext. symmetry. by apply decodes_worker. Qed.

Lemma retry_assigned recs r rec : fail_ready recs → rec ∈ recs → row_decodes r rec →
  assigned (match joined retry r with
            | Some (err, delay_ms) =>
                if bool_decide (r_locked_by (raw r) = Some (WorkerId.as_str v))
                then Some (let? n := increment (r_attempts (raw r)) in
                           let? at_ := interval_from t delay_ms in
                           Ok (PgTable.set_available_at at_ (set_lease None None
                                 (PgTable.set_last_error (Some err) (set_attempts n (raw r))))))
                else None
            | None => None
            end) (fails v items true rec).
Proof.
  intros [Hacc Hcount] Hrec Hr. rewrite (locked_row r rec Hr). unfold fails.
  pose proof (λ u a, split_elem items u a) as Hel. rewrite Hsplit in Hel.
  destruct (joined retry r) as [[err ms]|] eqn:Ej.
  - apply joined_Some, Hel in Ej as (i & d & Hi & Ho & Hid & [= -> ->]).
    rewrite (item_of_row recs r rec i) by done. rewrite Ho. cbn [is_retry Bool.eqb].
    destruct (locked_to v rec) eqn:El; [|done]. cbn.
    destruct (increment_countable _ _ Hr (Hcount _ Hrec El)) as (-> & Hsat & Hb). cbn.
    rewrite (interval_exact _ _ (Hms _ _ Hi Ho)). cbn. eexists. split; [done|].
    unfold failed. rewrite Ho, Hsat.
    apply (decodes_attempts _ _ _ Hb), (decodes_last_error _ _ (Some (FailedMessage.error i))),
      decodes_clear_lease, (decodes_available _ _ (t + d)) in Hr. exact Hr.
  - destruct (locked_to v rec); [|done].
    destruct (matched FailedMessage.message items rec) as [i|] eqn:Em; [|done].
    apply matched_elem in Em as [Hi Hm]. destruct (FailedMessage.outcome i) as [d|reason] eqn:Ho; [|done].
    apply joined_None in Ej. destruct Ej. apply list_elem_of_fmap.
    exists (row_id r, (FailedMessage.error i, millis_i64 d)). split; [done|]. apply Hel.
    exists i, d. split_and!; [done..|by symmetry; eapply row_of_item|done].
Qed.

Lemma dead_assigned recs r rec : fail_ready recs → rec ∈ recs → row_decodes r rec →
  assigned (match joined dead r with
            | Some (err, reason) =>
                if bool_decide (r_locked_by (raw r) = Some (WorkerId.as_str v))
                then Some (let? n := increment (r_attempts (raw r)) in
                           Ok (set_lease None None (set_dead (Some t) (Some reason)
                                 (PgTable.set_last_error (Some err) (set_attempts n (raw r))))))
                else None
            | None => None
            end) (fails v items false rec).
Proof.
  intros [Hacc Hcount] Hrec Hr. rewrite (locked_row r rec Hr). unfold fails.
  pose proof (λ u a, split_elem_dead items u a) as Hel. rewrite Hsplit in Hel.
  destruct (joined dead r) as [[err reason]|] eqn:Ej.
  - apply joined_Some, Hel in Ej as (i & d & Hi & Ho & Hid & [= -> ->]).
    rewrite (item_of_row recs r rec i) by done. rewrite Ho. cbn [is_retry Bool.eqb].
    destruct (locked_to v rec) eqn:El; [|done]. cbn.
    destruct (increment_countable _ _ Hr (Hcount _ Hrec El)) as (-> & Hsat & Hb). cbn.
    eexists. split; [done|]. unfold failed. rewrite Ho, Hsat.
    apply (decodes_attempts _ _ _ Hb), (decodes_last_error _ _ (Some (FailedMessage.error i))),
      (decodes_dead _ _ (Some t) (Some d)), decodes_clear_lease in Hr. exact Hr.
  - destruct (locked_to v rec); [|done].
    destruct (matched FailedMessage.message items rec) as [i|] eqn:Em; [|done].
    apply matched_elem in Em as [Hi Hm]. destruct (FailedMessage.outcome i) as [d|reason] eqn:Ho; [done|].
    apply joined_None in Ej. destruct Ej. apply list_elem_of_fmap.
    exists (row_id r, (FailedMessage.error i, encode_dead_reason reason)). split; [done|]. apply Hel.
    exists i, reason. split_and!; [done..|by symmetry; eapply row_of_item|done].
Qed.

(** The rows the first statement leaves are ready for the second. *)
Lemma fail_ready_step recs b : fail_ready recs →
  fail_ready ((λ rec, default rec (fails v items b rec)) <$> recs).
Proof.
  intros [Hacc Hcount].
  assert (Hstep : ∀ rec, let rec1 := default rec (fails v items b rec) in
    Envelope.id (envelope rec1) = Envelope.id (envelope rec) ∧ message_ref rec1 = message_ref rec
    ∧ (locked_to v rec1 = true → rec1 = rec)).
  { intros rec. cbn zeta. unfold fails. destruct (locked_to v rec); [|done].
    destruct (matched _ items rec) as [i|]; [|done]. destruct (Bool.eqb _ _); [|done].
    cbn [default from_option id]. unfold failed, locked_to.
    destruct (FailedMessage.outcome i); (split_and!; [done|done|]); by intros Hl%bool_decide_eq_true. }
  split.
  - intros i rec1 Hi (rec & -> & Hrec)%list_elem_of_fmap. destruct (Hstep rec) as (-> & -> & _).
    by apply Hacc.
  - intros rec1 (rec & -> & Hrec)%list_elem_of_fmap Hl. destruct (Hstep rec) as (_ & _ & Heq).
    rewrite Heq in Hl |- * by done. by apply Hcount.
Qed.
End fail_items.

Lemma fails_none v items (recs : list row) (b : bool) :
  match PostgresOutboxStore.split_failures items with
  | (retry, dead) => (if b then retry = [] else dead = []) →
      ∀ rec : row, rec ∈ recs → fails v items b rec = None
  end.
Proof.
  destruct (PostgresOutboxStore.split_failures items) as [retry dead] eqn:Es. intros Hnil rec _.
  unfold fails. destruct (locked_to v rec); [|done].
  destruct (matched _ items rec) as [i|] eqn:Em; [|done]. apply matched_elem in Em as [Hi _].
  destruct (FailedMessage.outcome i) as [d|reason] eqn:Ho, b; cbn; try done.
  - pose proof (split_elem items (PostgresOutboxStore.ref_uuid (FailedMessage.message i))
      (FailedMessage.error i, millis_i64 d)) as Hel. rewrite Es, Hnil in Hel.
    destruct (proj1 (elem_of_nil _) (proj2 Hel (ex_intro _ i (ex_intro _ d (conj Hi (conj Ho (conj eq_refl eq_refl))))))).
  - pose proof (split_elem_dead items (PostgresOutboxStore.ref_uuid (FailedMessage.message i))
      (FailedMessage.error i, encode_dead_reason reason)) as Hel. rewrite Es, Hnil in Hel.
    destruct (proj1 (elem_of_nil _) (proj2 Hel (ex_intro _ i (ex_intro _ reason (conj Hi (conj Ho (conj eq_refl eq_refl))))))).
Qed.

Lemma fail_agrees v items : agrees (SFail v items).
Proof.
  intros w s Hnow Hrel (Hv & [Hnd Hacc] & Hcount & Hms). pose proof Hrel as [Htx Ht Hd Hun].
  rewrite Hnow in Hms. cbn [pg_reply mem_reply]. unfold PostgresOutboxStore.fail, pg_answer.
  destruct (PostgresOutboxStore.split_failures items) as [retry dead] eqn:Es.
  assert (Hready : fail_ready v items (rows s)) by (split; [done|intros rec Hr _; by apply Hcount]).
  pose proof (fails_none v items (rows s) true) as Hn1. rewrite Es in Hn1.
  destruct (unless_step retry _ (fails v items true) w (rows s) Htx Ht Hd
    (fail_retry_rows_safe retry (WorkerId.as_str v)) (λ r rec _ Hrec Hr,
      retry_assigned v items retry dead Es Hv Hnd Hms (rows s) r rec Hready Hrec Hr) Hn1)
    as (w1 & Hw1 & Htx1 & Ht1 & Hd1).
  set (recs1 := (λ rec : row, default rec (fails v items true rec)) <$> rows s) in *.
  pose proof (fails_none v items recs1 false) as Hn2. rewrite Es in Hn2.
  destruct (unless_step dead _ (fails v items false) w1 recs1 Htx1 Ht1 Hd1
    (fail_dead_rows_safe dead (WorkerId.as_str v)) (λ r rec _ Hrec Hr,
      dead_assigned v items retry dead Es Hv Hnd recs1 r rec (fail_ready_step v items _ true Hready) Hrec Hr) Hn2)
    as (w2 & Hw2 & Htx2 & Ht2 & Hd2).
  destruct (fails_all v items (rows s)) as [Hall Hcnt]. cbn zeta in Hall, Hcnt. fold recs1 in Hall, Hcnt.
  rewrite Hall in Hd2. unfold mem_answer, try_fail. rewrite guarded_unarmed by done.
  rewrite (by_id_hits FailedMessage.message (failed t)); [| | |by apply decodes_refs with (committed w)|done].
  2:{ intros i r. unfold failed. by destruct (FailedMessage.outcome i). }
  2:{ intros i r Hi. unfold fail_row, failed. rewrite Hnow.
      destruct (FailedMessage.outcome i) as [d|reason] eqn:Ho; [|done]. unfold odt_add.
      by rewrite (proj2 (odt_checked_Some (t + d) _)) by (split; [done|by apply (Hms i d)]). }
  unfold PostgresOutboxStore.on_items, run. rewrite with_timeout_zero.
  destruct items as [|i items'] eqn:Ei.
  - destruct (hits_nil FailedMessage.message (locked_to v) (failed t) (rows s)) as [-> ->].
    cbn. split; [done|by split].
  - rewrite <-Ei in *. unfold mbind, M_bind. cbv beta.
    unfold fail_retry_rows, fail_dead_rows. rewrite Hw1, Hw2. cbn [fst snd map_err].
    split; [exact Hcnt|]. by split.
Qed.

(** ** [acquire] *)

Definition record_order (a b : row) : bool := pair_leb (claim_key a) (claim_key b).

(** The records the first claimable rows decode to. *)
Definition first_claimable (n : nat) (recs : list row) : list row :=
  take n (sort_by record_order (filter (λ rec, is_claimable rec t = true) recs)).

Lemma first_claimable_claims n recs : NoDup recs → claims recs t n (first_claimable n recs).
Proof.
  intros Hnd. destruct (sorted_prefix record_order (λ rec, is_claimable rec t) n recs) as (Hin & Hs & Hl & Hf).
  { intros ??. apply pair_leb_total. }
  { intros ???. apply pair_leb_trans. }
  split; [|exact Hin|exact Hs|exact Hl|exact Hf].
  eapply sublist_NoDup; [|apply sublist_take]. rewrite sort_by_perm. by apply NoDup_filter.
Qed.

(** The rows a claim picks are determined. *)
Lemma pg_claims_subset (l : list row) n c1 c2 : NoDup (sequence <$> l) →
  claims l t n c1 → claims l t n c2 → ∀ r, r ∈ c1 → r ∈ c2.
Proof.
  intros Hseq H1c H2c r Hr. destruct (decide (r ∈ c2)) as [|Hn]; [done|].
  destruct H1c as [Hnd1 Hdue1 _ Hlen1 Hfirst1], H2c as [Hnd2 Hdue2 _ Hlen2 Hfirst2].
  destruct (Hdue1 _ Hr) as [Hrl Hrc]. destruct (Hfirst2 r Hrl Hrc Hn) as [Hfull Hle].
  destruct (decide (Forall (λ c, c ∈ c1) c2)) as [Hall|Hall].
  - rewrite Forall_forall in Hall.
    assert (Hsub : r :: c2 ⊆+ c1).
    { apply NoDup_submseteq; [by constructor|]. intros x [->|Hx]%elem_of_cons; auto. }
    apply submseteq_length in Hsub. cbn in Hsub. lia.
  - apply not_Forall_Exists in Hall; [|apply _]. apply Exists_exists in Hall as (c & Hc2 & Hc1).
    destruct (Hdue2 _ Hc2) as [Hcl Hcc]. destruct (Hfirst1 c Hcl Hcc Hc1) as [_ Hle1].
    specialize (Hle _ Hc2). specialize (Hle1 _ Hr). rewrite pair_leb_spec in Hle, Hle1.
    destruct Hc1. replace c with r; [done|].
    apply (NoDup_fmap_eq sequence l); [done..|]. unfold claim_key in *. cbn in *. lia.
Qed.

Lemma Forall2_insert_sorted {A B} (R : A → B → Prop) leb1 leb2 a b l k :
  (∀ x y x' y', R x y → R x' y' → leb1 x x' = leb2 y y') → R a b → Forall2 R l k →
  Forall2 R (insert_sorted leb1 a l) (insert_sorted leb2 b k).
Proof.
  intros Hleb Hab. induction 1 as [|x y l k Hxy HF IH]; cbn; [by repeat constructor|].
  rewrite (Hleb _ _ _ _ Hab Hxy). destruct (leb2 b y); by repeat constructor.
Qed.

Lemma Forall2_sort_by {A B} (R : A → B → Prop) leb1 leb2 l k :
  (∀ x y x' y', R x y → R x' y' → leb1 x x' = leb2 y y') → Forall2 R l k →
  Forall2 R (sort_by leb1 l) (sort_by leb2 k).
Proof.
  intros Hleb HF. induction HF as [|x y l k Hxy HF IH]; [constructor|].
  unfold sort_by in *. cbn. by apply Forall2_insert_sorted.
Qed.

(** The rows the statement claims decode to the records the fake claims. *)
Lemma claimed_decodes n lk d recs : (∀ i, lk i = false) → table_decodes d recs →
  Forall2 row_decodes (claimed n t lk (table d)) (first_claimable n recs).
Proof.
  intros Hlk Hd. unfold claimed, first_claimable. apply Forall2_take, Forall2_sort_by.
  - intros r rec r' rec' Hr Hr'. unfold claim_order, record_order, claim_key.
    by rewrite (dt_available _ _ Hr), (dt_sequence _ _ Hr), (dt_available _ _ Hr'), (dt_sequence _ _ Hr').
  - apply Forall2_filter_sim; [|exact Hd]. intros r rec _ _ Hr.
    by rewrite Hlk, andb_true_r, (decodes_claimable _ _ _ Hr).
Qed.

Lemma claimed_id_iff n lk d recs r rec : (∀ i, lk i = false) → table_decodes d recs →
  r ∈ table d → row_decodes r rec →
  row_id r ∈ row_id <$> claimed n t lk (table d) ↔ rec ∈ first_claimable n recs.
Proof.
  intros Hlk Hd Hr Hrr. pose proof (claimed_decodes n lk d recs Hlk Hd) as HF. split.
  - intros Hc%(claimed_by_id d n t lk r Hr). apply list_elem_of_lookup in Hc as [i Hi].
    destruct (Forall2_lookup_l _ _ _ _ _ HF Hi) as (rec' & Hi' & Hrec').
    rewrite (decodes_unique _ _ _ Hrr Hrec'). by eapply list_elem_of_lookup_2.
  - intros Hc. apply list_elem_of_lookup in Hc as [i Hi].
    destruct (Forall2_lookup_r _ _ _ _ _ HF Hi) as (r' & Hi' & Hrec').
    apply list_elem_of_fmap. exists r'. split; [|by eapply list_elem_of_lookup_2].
    apply decodes_id in Hrr, Hrec'. unfold row_id. congruence.
Qed.

Lemma decodes_sequences d recs : table_decodes d recs → NoDup (sequence <$> recs).
Proof.
  intros Hd. pose proof (sound_sequences d) as Hseq.
  replace (sequence <$> recs) with (row_sequence <$> table d); [done|].
  clear Hseq. induction Hd as [|r rec l recs Hr _ IH]; [done|]. rewrite !fmap_cons, IH.
  by rewrite (dt_sequence _ _ Hr).
Qed.

Lemma omap_decoded {A} (f : A → RawRow) (g : row → row) l k :
  Forall2 (λ a rec, decodes_to (f a) (g rec)) l k →
  omap (decoded ∘ f) l = g <$> k ∧ omap (undecodable ∘ f) l = [].
Proof.
  induction 1 as [|a rec l k Ha _ [IH1 IH2]]; [done|]. cbn. apply decode_row_Ok in Ha.
  unfold decoded, undecodable in *. cbn in *. by rewrite Ha, IH1, IH2.
Qed.

(** The claim statement on a table that decodes. *)
Lemma claim_sim request lk d recs :
  let n := Z.to_nat (AcquireRequest.batch_size request) in
  let worker := AcquireRequest.worker request in
  let lease_it := with_lease (Some worker) (Some (t + AcquireRequest.lease request)) in
  valid_worker worker → exact_ms t (AcquireRequest.lease request) → (∀ i, lk i = false) →
  tidy d → table_decodes d recs →
  ∃ d' rows', claim_rows n (WorkerId.as_str worker) (millis_i64 (AcquireRequest.lease request)) t lk d
              = Ok (d', rows')
    ∧ tidy d'
    ∧ table_decodes d' ((λ rec, if decide (rec ∈ first_claimable n recs) then lease_it rec else rec) <$> recs)
    ∧ omap decoded rows' ≡ₚ lease_it <$> first_claimable n recs ∧ omap undecodable rows' = [].
Proof.
  cbn zeta. intros Hv Hms Hlk Ht Hd. set (n := Z.to_nat _). set (worker := AcquireRequest.worker _).
  set (lease_it := with_lease _ _). set (ms := millis_i64 _).
  pose proof (claim_rows_safe n (WorkerId.as_str worker) ms t lk d Ht) as Hsafe.
  destruct (update_where_sim (λ r,
      if bool_decide (row_id r ∈ row_id <$> claimed n t lk (table d))
      then Some (let? until := interval_from t ms in
                 Ok (set_lease (Some (WorkerId.as_str worker)) (Some until) (raw r)))
      else None)
    (λ rec, if decide (rec ∈ first_claimable n recs) then Some (lease_it rec) else None) t (table d) recs)
    as (l' & Hl' & HF'); [|exact Hd|].
  { intros r rec Hr Hrec Hrr. pose proof (claimed_id_iff n lk d recs r rec Hlk Hd Hr Hrr) as Hid.
    destruct (decide (rec ∈ first_claimable n recs)) as [Hc|Hc].
    - rewrite bool_decide_eq_true_2 by by apply Hid. unfold ms. rewrite (interval_exact _ _ Hms). cbn.
      eexists. split; [done|]. by apply decodes_set_lease.
    - by rewrite bool_decide_eq_false_2 by (by rewrite Hid). }
  destruct (claim_rows n (WorkerId.as_str worker) ms t lk d) as [[d' rows']|e] eqn:Ec.
  2:{ unfold claim_rows in Ec. cbn zeta in Ec. rewrite Hl' in Ec. cbn in Ec.
      destruct (write _ _) eqn:Ew; cbn in Ec; [done|]. injection Ec as ->. by apply write_error in Ew. }
  exists d', rows'. split; [done|]. split; [done|]. split.
  - unfold claim_rows in Ec. cbn zeta in Ec. rewrite Hl' in Ec. cbn in Ec.
    destruct (write _ _) eqn:Ew; cbn in Ec; [|done]. injection Ec as -> _.
    apply write_inv in Ew as [Htab _]. unfold table_decodes. rewrite Htab.
    replace (_ <$> recs) with ((λ rec, default rec (if decide (rec ∈ first_claimable n recs)
      then Some (lease_it rec) else None)) <$> recs); [exact HF'|].
    apply list_fmap_ext. intros i rec _. by destruct (decide _).
  - apply pg_claim_rows_spec in Ec as (until & Huntil & _ & Hrows).
    pose proof (omap_rows decoded _ _ _ Hrows) as Hdec.
    pose proof (omap_rows undecodable _ _ _ Hrows) as Hundec.
    pose proof (claimed_decodes n lk d recs Hlk Hd) as HF.
    assert (Hall : Forall2 (λ c rec, decodes_to (raw (leased (WorkerId.as_str worker) until t c)) (lease_it rec))
      (claimed n t lk (table d)) (first_claimable n recs)).
    { destruct (claimed n t lk (table d)) as [|c cl] eqn:Ecl; [by apply Forall2_nil_inv_l in HF as ->|].
      assert (until = t + AcquireRequest.lease request) as ->.
      { specialize (Huntil ltac:(done)). apply add_interval_Some in Huntil; [|apply Hms].
        pose proof (em_whole _ _ Hms) as Hwhole. fold ms in Hwhole. lia. }
      eapply Forall2_impl; [exact HF|]. intros x rec Hx. by apply decodes_set_lease. }
    destruct (omap_decoded _ _ _ _ Hall) as [Hd1 Hd2].
    split; [rewrite <-Hd1; exact Hdec|]. apply Permutation_nil_r. rewrite <-Hd2. exact Hundec.
Qed.

Lemma acquire_agrees request : agrees (SAcquire request).
Proof.
  intros w s Hnow Hrel (Hv & Hms). pose proof Hrel as [Htx Ht Hd Hun]. rewrite Hnow in Hms.
  destruct (claim_sim request (locked (schedule (tick w))) _ _ Hv Hms (un_locked _ _ (Hquiet (tick w))) Ht Hd)
    as (d' & rows' & Hq & Ht' & Hd' & Hrecs & Hpois).
  set (n := Z.to_nat _) in *. set (lease_it := with_lease _ _) in *.
  assert (Hndr : NoDup (rows s)) by (eapply NoDup_fmap_1, decodes_sequences, Hd).
  destruct (try_acquire request s) as [s' o] eqn:Em.
  assert (Hmem : ∃ b, o = Some (Ok b) ∧ unarmed s').
  { unfold try_acquire in Em. rewrite guarded_unarmed in Em by done. rewrite Hnow in Em. unfold odt_add in Em.
    rewrite (proj2 (odt_checked_Some (t + AcquireRequest.lease request) _)) in Em by (split; [done|apply Hms]).
    destruct (MemStore.claim_rows _ _ _ _) as [l recs]. injection Em as <- <-. by eexists. }
  destruct Hmem as (b & -> & Hun').
  destruct (acquire_claims request s s' b Hndr Em) as (cm & Hcm & -> & Hs' & _). rewrite Hnow in *.
  fold n lease_it in Hcm, Hs'.
  pose proof (first_claimable_claims n (rows s) Hndr) as Hfc.
  pose proof (decodes_sequences _ _ Hd) as Hseq.
  assert (Heq : ∀ r, r ∈ cm ↔ r ∈ first_claimable n (rows s))
    by (intros r; split; by eapply pg_claims_subset).
  unfold pg_reply, mem_reply, mem_answer, pg_answer. rewrite Em. cbn [fst snd].
  unfold PostgresOutboxStore.acquire, run. rewrite with_timeout_zero. unfold mbind, M_bind. fold n.
  rewrite (exec_quiet _ _ _ _ Htx Hq), decode_rows_spec, Hpois. cbn [fst snd].
  split.
  - cbn. split; [|done]. rewrite Hrecs. apply fmap_Permutation.
    symmetry. apply NoDup_Permutation; [apply Hcm|apply Hfc|exact Heq].
  - split; [done|done| |done]. cbn [committed ticked]. rewrite Hs'. unfold lease_it in *.
    replace (_ <$> rows s) with ((λ rec, if decide (rec ∈ first_claimable n (rows s))
      then with_lease (Some (AcquireRequest.worker request)) (Some (t + AcquireRequest.lease request)) rec
      else rec) <$> rows s); [exact Hd'|].
    apply list_fmap_ext. intros i rec _.
    destruct (decide (rec ∈ first_claimable n (rows s))) as [Hc|Hc];
      [by rewrite decide_True by by apply Heq|by rewrite decide_False by by rewrite Heq].
Qed.

End refine.

(** ** A concrete pair of stores *)

#[local] Existing Instances plain_json plain_postgres plain_postgres_laws default_time_range.

(** A pending order and one leased to another worker; the fake with the same rows. *)
Definition twin_db : Db := mkDb [mkRow (order_row 1) 9; leased_row] 4 eq_refl.
Definition twin_pg : Pg := mkPg twin_db None 0 0.
Definition twin_mem : Inner :=
  mkInner (omap decoded (raw <$> table twin_db)) 4 100 0 0 0 0 0 0 0 0.

Lemma decoded_table (l : list Row) :
  Forall (λ r, is_Some (decoded (raw r))) l → Forall2 row_decodes l (omap decoded (raw <$> l)).
Proof.
  induction 1 as [|r l [rec Hr] _ IH]; [constructor|]. cbn. rewrite Hr. constructor; [|done].
  apply decode_row_Ok. unfold decoded in Hr. by destruct (decode_row (raw r)); simplify_eq.
Qed.

Lemma twins_related : related twin_pg twin_mem.
Proof.
  split; [done| | |done].
  - repeat (apply Forall_cons_2; [by split|]). constructor.
  - apply decoded_table. repeat (apply Forall_cons_2; [vm_compute; eexists; reflexivity|]). constructor.
Qed.

Lemma quiet_undisturbed n : undisturbed 100 (quiet n).
Proof. by split. Qed.

