(* ===== verification/DeadLetters.v ===== *)
(** * Paging through dead letters, and purging to the end ([reliar-outbox], store.rs;
    both stores)

    [list_dead] hands out pages by keyset: the caller feeds [next_after_sequence] back until it
    is [None].  [purge] is one bounded pass: the caller repeats it until [is_complete].  Both
    loops are the caller's; the theorems are that they end, and what they have done then. *)

From S2P Require Import Prelude RustString RustFmt CoreTypes CoreHeaders CoreEnvelope OutboxTypes OutboxSettings MemStore MemStoreInv MemStoreSpec MemStoreThms StoreInterface PgErrors PgRecords PgRoundtrip PgTable PgStore PgTableInv PgStoreInv PgStoreThms.

(** ** Keyset pages *)

Section keyset.
Context {A : Type} (key : A → Z).
Implicit Types (l rest : list A) (p : A → bool).

Definition beyond (after : option Z) (x : A) : bool :=
  match after with None => true | Some a => a <? key x end.
Definition by_key (a b : A) : bool := key a <=? key b.
(** Everything there is to list, in order. *)
Definition listing p l : list A := sort_by by_key (filter (λ x, p x = true) l).

Definition ordered l : Prop := StronglySorted (λ a b, key a < key b) l.

Lemma sort_ordered l : NoDup (key <$> l) → ordered (sort_by by_key l).
Proof.
  intros Hnd.
  assert (Hs : StronglySorted (λ a b, by_key a b = true) (sort_by by_key l)).
  { apply sort_by_sorted; unfold by_key; intros *; rewrite ?Z.leb_le, ?Z.leb_gt; lia. }
  assert (Hnd' : NoDup (key <$> sort_by by_key l)) by by rewrite (sort_by_perm by_key l).
  unfold ordered. revert Hnd'. induction Hs as [|x m Hm IH Hx]; [constructor|].
  cbn [fmap list_fmap]. intros [Hn Hnd']%NoDup_cons. constructor; [by apply IH|].
  rewrite Forall_forall in Hx |- *. intros y Hy. specialize (Hx y Hy). unfold by_key in Hx.
  apply Z.leb_le in Hx. assert (key x ≠ key y); [|lia].
  intros Heq. apply Hn. rewrite Heq. by apply list_elem_of_fmap_2.
Qed.

Lemma ordered_unique l1 l2 : ordered l1 → ordered l2 → l1 ≡ₚ l2 → l1 = l2.
Proof. intros H1 H2. apply sorted_perm_eq with (R := λ a b, key a < key b); [intros; lia|done..]. Qed.

Lemma filter_NoDup_key p l : NoDup (key <$> l) → NoDup (key <$> filter (λ x, p x = true) l).
Proof. intros Hnd. eapply sublist_NoDup; [exact Hnd|apply sublist_fmap, sublist_filter]. Qed.

Lemma filter_ordered p l : ordered l → ordered (filter (λ x, p x = true) l).
Proof. apply sublist_StronglySorted, sublist_filter. Qed.

Lemma listing_ordered p l : NoDup (key <$> l) → ordered (listing p l).
Proof. intros Hnd. by apply sort_ordered, filter_NoDup_key. Qed.

(** The rows beyond a cursor are the rest of the listing. *)
Lemma listing_beyond p after l : NoDup (key <$> l) →
  listing (λ x, p x && beyond after x) l = filter (λ x, beyond after x = true) (listing p l).
Proof.
  intros Hnd. apply ordered_unique.
  - by apply listing_ordered.
  - by apply filter_ordered, listing_ordered.
  - unfold listing. rewrite !(sort_by_perm by_key). rewrite list_filter_filter.
    apply reflexive_eq, list_filter_iff. intros x. rewrite andb_true_iff. naive_solver.
Qed.

Lemma filter_all (P : A → Prop) `{∀ x, Decision (P x)} l : Forall P l → filter P l = l.
Proof. induction 1 as [|x l Hx _ IH]; [done|]. by rewrite filter_cons_True, IH. Qed.
Lemma filter_none (P : A → Prop) `{∀ x, Decision (P x)} l : Forall (λ x, ¬ P x) l → filter P l = [].
Proof. induction 1 as [|x l Hx _ IH]; [done|]. by rewrite filter_cons_False. Qed.

Lemma beyond_None l : filter (λ x, beyond None x = true) l = l.
Proof. apply filter_all, Forall_true. done. Qed.

(** Beyond the last element of a prefix lies what the prefix leaves. *)
Lemma beyond_last l1 l2 x :
  ordered (l1 ++ x :: l2) → filter (λ y, beyond (Some (key x)) y = true) (l1 ++ x :: l2) = l2.
Proof.
  intros Ho. unfold ordered in Ho. apply StronglySorted_app in Ho as (Hlt & H1 & H2).
  apply StronglySorted_cons in H2 as [Hx _]. cbn [beyond].
  rewrite filter_app, filter_cons_False by (apply not_true_iff_false, Z.ltb_irrefl).
  rewrite filter_none, filter_all; [done|..].
  - eapply Forall_impl; [exact Hx|]. intros y Hy. by apply Z.ltb_lt.
  - apply Forall_forall. intros y Hy Hlt'%Z.ltb_lt. assert (key y < key x); [|lia].
    apply Hlt; [done|left].
Qed.

(** A full page ends at a cursor beyond which lies the rest; any other page is the last. *)
Lemma full_page n done_ rest :
  ordered (done_ ++ rest) → (0 < n)%nat → length (take n rest) = n →
  ∃ x, last (take n rest) = Some x
    ∧ filter (λ y, beyond (Some (key x)) y = true) (done_ ++ rest) = drop n rest.
Proof.
  intros Ho Hn Hl. destruct (take n rest) as [|a m] eqn:Et using rev_ind; [cbn in Hl; lia|].
  exists a. split; [apply last_snoc|]. pose proof (take_drop n rest) as Htd. rewrite Et in Htd.
  assert (Hd : done_ ++ rest = (done_ ++ m) ++ a :: drop n rest) by by rewrite <-Htd at 1; rewrite <-!app_assoc.
  rewrite Hd in Ho |- *. by rewrite beyond_last.
Qed.

Lemma short_page n rest : length (take n rest) ≠ n → take n rest = rest.
Proof. rewrite length_take. intros Hl. apply take_ge. lia. Qed.
End keyset.

(** The query, its cursor at the start. *)
Definition from_start (q : DeadQuery.t) : DeadQuery.t :=
  DeadQuery.mk (DeadQuery.message_type q) (DeadQuery.tenant_id q) (DeadQuery.dead_before q)
    (DeadQuery.limit q) None.

(** ** The in-memory store *)

Section mem.
Context `{TimeRange}.
Implicit Types (s : Inner) (q : DeadQuery.t).

(** The caller's loop. *)
Fixpoint list_all_dead (fuel : nat) (q : DeadQuery.t) (s : Inner) : option (list DeadLetterPage.t) :=
  match fuel with
  | O => None
  | S fuel =>
      let page := MemStore.list_dead q s in
      match DeadLetterPage.next_after_sequence page with
      | None => Some [page]
      | Some a => cons page <$> list_all_dead fuel (DeadQuery.with_after_sequence a q) s
      end
  end.

Definition dead_listing q s : list row :=
  listing OutboxRecord.sequence (dead_matches (from_start q)) (rows s).

Lemma dead_matches_beyond q r :
  dead_matches q r
  = dead_matches (from_start q) r && beyond OutboxRecord.sequence (DeadQuery.after_sequence q) r.
Proof. unfold dead_matches, from_start, beyond. cbn. by rewrite andb_true_r. Qed.

Lemma list_dead_rows_beyond q s : inv s →
  sort_by seq_leb (filter (λ r, dead_matches q r = true) (rows s))
  = filter (λ r, beyond OutboxRecord.sequence (DeadQuery.after_sequence q) r = true) (dead_listing q s).
Proof.
  intros Hi. unfold dead_listing. rewrite <-listing_beyond.
  - unfold listing. f_equal. apply list_filter_iff. intros r. by rewrite dead_matches_beyond.
  - by apply sorted_lt_NoDup, inv_sorted.
Qed.

Lemma list_all_dead_from fuel q s done_ rest :
  inv s → 0 < DeadQuery.limit q → dead_listing q s = done_ ++ rest →
  filter (λ r, beyond OutboxRecord.sequence (DeadQuery.after_sequence q) r = true) (dead_listing q s) = rest →
  (length rest < fuel)%nat →
  ∃ pages, list_all_dead fuel q s = Some pages
    ∧ concat (DeadLetterPage.records <$> pages) = rest
    ∧ Forall (λ p, Z.of_nat (length (DeadLetterPage.records p)) ≤ DeadQuery.limit q
                   ∧ DeadLetterPage.poisoned p = []) pages.
Proof.
  intros Hi Hq. revert q done_ rest Hq.
  induction fuel as [|fuel IH]; intros q done_ rest Hq Hl Hf Hlt; [lia|].
  assert (Ho : ordered OutboxRecord.sequence (done_ ++ rest)).
  { rewrite <-Hl. apply listing_ordered. by apply sorted_lt_NoDup, inv_sorted. }
  cbn [list_all_dead]. unfold MemStore.list_dead. rewrite list_dead_rows_beyond, Hf by done.
  cbn [DeadLetterPage.next_after_sequence]. set (n := Z.to_nat (DeadQuery.limit q)).
  destruct (Nat.eqb_spec (length (take n rest)) n) as [Hn|Hn].
  - destruct (full_page OutboxRecord.sequence n done_ rest Ho) as (x & Hx & Hb); [lia|done|].
    rewrite Hx. cbn [fmap option_fmap option_map].
    destruct (IH (DeadQuery.with_after_sequence (OutboxRecord.sequence x) q) (done_ ++ take n rest) (drop n rest))
      as (pages & -> & Hc & Hall).
    + exact Hq.
    + change (dead_listing (DeadQuery.with_after_sequence (OutboxRecord.sequence x) q) s)
        with (dead_listing q s). by rewrite Hl, <-app_assoc, take_drop.
    + change (dead_listing (DeadQuery.with_after_sequence (OutboxRecord.sequence x) q) s)
        with (dead_listing q s). cbn [DeadQuery.after_sequence DeadQuery.with_after_sequence]. by rewrite Hl.
    + rewrite length_drop. rewrite length_take in Hn. lia.
    + eexists. split; [reflexivity|]. split.
      * cbn [fmap list_fmap concat DeadLetterPage.records]. by rewrite Hc, take_drop.
      * constructor; [|exact Hall]. cbn [DeadLetterPage.records DeadLetterPage.poisoned].
        rewrite length_take. split; [lia|done].
  - rewrite (short_page n rest Hn) in *. eexists. split; [reflexivity|]. split.
    + cbn [fmap list_fmap concat DeadLetterPage.records]. apply app_nil_r.
    + constructor; [|done]. cbn [DeadLetterPage.records DeadLetterPage.poisoned]. split; [|done].
      rewrite <-(short_page n rest) by (rewrite length_take; rewrite length_take in *; lia).
      rewrite length_take. lia.
Qed.
End mem.

(** ** Postgres *)

Section pg.
Context `{PostgresLaws} `{TimeRange} (schedule : nat → Step) (settings : PostgresOutboxSettings.t).
Implicit Types (w : Pg) (q : DeadQuery.t) (d : Db).

#[local] Existing Instance M_ret.
#[local] Existing Instance M_bind.

Fixpoint pg_list_all_dead (fuel : nat) q w : Pg * option (list DeadLetterPage.t) :=
  match fuel with
  | O => (w, None)
  | S fuel =>
      match PostgresOutboxStore.list_dead schedule settings q w with
      | (w, Answered (Ok page)) =>
          match DeadLetterPage.next_after_sequence page with
          | None => (w, Some [page])
          | Some a =>
              let '(w, pages) := pg_list_all_dead fuel (DeadQuery.with_after_sequence a q) w in
              (w, cons page <$> pages)
          end
      | (w, _) => (w, None)
      end
  end.

(** What [list_dead_rows] selects. *)
Definition row_matches q (r : Row) : bool :=
  bool_decide (r_dead_at (raw r) ≠ None)
  && match DeadQuery.message_type q with
     | None => true | Some ty => bool_decide (r_message_type (raw r) = ty) end
  && match DeadQuery.tenant_id q with
     | None => true | Some tenant => bool_decide (r_tenant_id (raw r) = Some tenant) end
  && match DeadQuery.dead_before q with
     | None => true | Some before => past_retention (r_dead_at (raw r)) (timestamptz before) end.

Definition pg_dead_listing q d : list Row := listing row_sequence (row_matches q) (table d).

Lemma list_dead_rows_spec q n now lk d :
  list_dead_rows q n now lk d
  = Ok (d, raw <$> take n (filter (λ r, beyond row_sequence (DeadQuery.after_sequence q) r = true)
                             (pg_dead_listing q d))).
Proof.
  unfold pg_dead_listing. rewrite <-listing_beyond by apply sound_sequences. done.
Qed.

Lemma max_sequence_last (l : list Row) x :
  ordered row_sequence l → last l = Some x →
  PostgresOutboxStore.max_sequence (raw <$> l) = Some (row_sequence x).
Proof.
  intros Ho Hx. unfold PostgresOutboxStore.max_sequence.
  assert (Hm : ∀ m, (∀ y, y ∈ l → m ≤ row_sequence y) →
    fold_left (λ m raw, Some match m with Some m => Z.max m (r_sequence raw) | None => r_sequence raw end)
      (raw <$> l) (Some m) = Some (row_sequence x)).
  { revert x Hx. induction Ho as [|y l Ho IH Hy]; intros x Hx m Hm; [done|].
    cbn [fmap list_fmap fold_left].
    assert (Hmy : Z.max m (r_sequence (raw y)) = row_sequence y).
    { apply Z.max_r, Hm. left. }
    rewrite Hmy. destruct l as [|z l]; [by injection Hx as ->|].
    rewrite Forall_forall in Hy. apply IH; [done|]. intros z' Hz'. apply Z.lt_le_incl, (Hy z' Hz'). }
  destruct l as [|y l]; [done|]. cbn [fmap list_fmap fold_left].
  specialize (Hm (row_sequence y)). cbn [fmap list_fmap fold_left] in Hm.
  unfold row_sequence at 1 in Hm. rewrite Z.max_id in Hm. apply Hm.
  unfold ordered in Ho. apply StronglySorted_cons in Ho as [Hy _]. rewrite Forall_forall in Hy.
  intros z [->|Hz]%elem_of_cons; [done|]. apply Z.lt_le_incl, (Hy z Hz).
Qed.

Definition page_of (rows : list Row) (next : option Z) : DeadLetterPage.t :=
  DeadLetterPage.new (omap decoded (raw <$> rows))
    (PostgresOutboxStore.poisoned_row <$> omap undecodable (raw <$> rows)) next.

Definition page_limit q : nat := Z.to_nat (Z.min (DeadQuery.limit q) PostgresOutboxStore.MAX_LIST_DEAD_LIMIT).

(** One call, undisturbed. *)
Lemma list_dead_page q w :
  is_zero (PostgresOutboxSettings.statement_timeout settings) = true →
  tx w = None → fate (schedule (tick w)) = Runs →
  let d := others (schedule (tick w)) (committed w) in
  let rows := take (page_limit q)
    (filter (λ r, beyond row_sequence (DeadQuery.after_sequence q) r = true) (pg_dead_listing q d)) in
  PostgresOutboxStore.list_dead schedule settings q w
  = (ticked schedule d w,
     Answered (Ok (page_of rows (if (length rows =? page_limit q)%nat
                                 then PostgresOutboxStore.max_sequence (raw <$> rows) else None)))).
Proof.
  intros Ht Htx Hf. cbv zeta. unfold PostgresOutboxStore.list_dead, run, with_timeout. rewrite Ht.
  unfold mbind, M_bind. rewrite exec_pool by done. cbv zeta. rewrite list_dead_rows_spec.
  rewrite decode_rows_spec. cbn [mret M_ret map_err]. rewrite length_fmap. done.
Qed.

Lemma omap_fmap_app {A B C} (f : B → option C) (g : A → B) (l1 l2 : list A) :
  omap f (g <$> l1 ++ l2) = omap f (g <$> l1) ++ omap f (g <$> l2).
Proof. by rewrite fmap_app, omap_app. Qed.

Definition page_size (p : DeadLetterPage.t) : nat :=
  length (DeadLetterPage.records p) + length (DeadLetterPage.poisoned p).

Lemma page_of_size rows next : page_size (page_of rows next) = length rows.
Proof.
  unfold page_size, page_of. cbn [DeadLetterPage.records DeadLetterPage.poisoned].
  rewrite length_fmap. induction rows as [|r rows IH]; [done|].
  cbn [fmap list_fmap omap list_omap]. unfold decoded, undecodable.
  destruct (decode_row (raw r)); cbn [length]; unfold decoded, undecodable in IH; lia.
Qed.

Lemma pg_list_all_from fuel q w done_ rest :
  is_zero (PostgresOutboxSettings.statement_timeout settings) = true →
  (∀ k, fate (schedule k) = Runs) →
  (∀ k d, pg_dead_listing q (others (schedule k) d) = pg_dead_listing q d) →
  0 < DeadQuery.limit q → tx w = None → pg_dead_listing q (committed w) = done_ ++ rest →
  filter (λ r, beyond row_sequence (DeadQuery.after_sequence q) r = true)
    (pg_dead_listing q (committed w)) = rest →
  (length rest < fuel)%nat →
  ∃ w' pages, pg_list_all_dead fuel q w = (w', Some pages)
    ∧ concat (DeadLetterPage.records <$> pages) = omap decoded (raw <$> rest)
    ∧ concat (DeadLetterPage.poisoned <$> pages)
      = PostgresOutboxStore.poisoned_row <$> omap undecodable (raw <$> rest)
    ∧ Forall (λ p, (page_size p ≤ page_limit q)%nat) pages.
Proof.
  intros Ht Hf. revert q w done_ rest.
  induction fuel as [|fuel IH]; intros q w done_ rest Hquiet Hq Htx Hl Hb Hlt; [lia|].
  assert (Ho : ordered row_sequence (done_ ++ rest)).
  { rewrite <-Hl. apply listing_ordered, sound_sequences. }
  cbn [pg_list_all_dead]. rewrite list_dead_page by done. cbv zeta. rewrite Hquiet, Hb.
  set (n := page_limit q). set (d := others _ _).
  assert (Hn0 : (0 < n)%nat).
  { unfold n, page_limit, PostgresOutboxStore.MAX_LIST_DEAD_LIMIT. lia. }
  unfold page_of at 1. cbn [DeadLetterPage.next_after_sequence].
  destruct (Nat.eqb_spec (length (take n rest)) n) as [Hn|Hn].
  - destruct (full_page row_sequence n done_ rest Ho) as (x & Hx & Hbx); [done..|].
    assert (Hot : ordered row_sequence (take n rest)).
    { unfold ordered in *. apply StronglySorted_app in Ho as (_ & _ & Ho).
      eapply sublist_StronglySorted; [apply sublist_take|exact Ho]. }
    rewrite (max_sequence_last _ _ Hot Hx).
    set (q' := DeadQuery.with_after_sequence (row_sequence x) q).
    assert (Hld : pg_dead_listing q' (committed (ticked schedule d w)) = done_ ++ rest).
    { change (pg_dead_listing q' (committed (ticked schedule d w))) with (pg_dead_listing q d).
      unfold d. by rewrite Hquiet. }
    destruct (IH q' (ticked schedule d w) (done_ ++ take n rest) (drop n rest))
      as (w' & pages & -> & Hc & Hp & Hall).
    + exact Hquiet.
    + exact Hq.
    + done.
    + by rewrite Hld, <-app_assoc, take_drop.
    + by rewrite Hld.
    + rewrite length_drop. rewrite length_take in Hn. lia.
    + eexists _, _. split; [reflexivity|]. cbn [fmap list_fmap concat].
      rewrite Hc, Hp. unfold page_of at 1 2. cbn [DeadLetterPage.records DeadLetterPage.poisoned].
      rewrite <-!omap_fmap_app, <-fmap_app, <-omap_fmap_app, take_drop. split_and!; [done..|].
      constructor; [|exact Hall]. rewrite page_of_size, length_take. lia.
  - rewrite (short_page n rest Hn). eexists _, _. split; [reflexivity|].
    cbn [fmap list_fmap concat]. unfold page_of at 1 2.
    cbn [DeadLetterPage.records DeadLetterPage.poisoned]. rewrite !app_nil_r.
    split_and!; [done..|]. constructor; [|done]. rewrite page_of_size.
    rewrite length_take in Hn. lia.
Qed.
End pg.

(** ** The property *)


#[local] Existing Instances plain_json plain_postgres plain_postgres_laws default_time_range.

Definition dead_row (r : RawRow) : Row := mkRow (set_dead (Some 50) (Some "expired") r) 50.
Definition graveyard : Pg :=
  mkPg (mkDb [dead_row (strange_row 2); mkRow (order_row 3) 9; dead_row (order_row 1)] 4 eq_refl) None 0 0.

