(* ===== verification/PgPurge.v ===== *)
(** * Purging to the end ([reliar-outbox], store.rs; [reliar-store-postgres], store.rs)

    One call of [purge] is one bounded pass; the caller repeats it until [is_complete].  The
    theorem is that on Postgres this loop ends, that nothing that was due when it began is
    left then, and that nothing else is touched. *)

From S2P Require Import Prelude RustString RustFmt CoreTypes CoreHeaders CoreEnvelope OutboxTypes OutboxSettings StoreInterface PgErrors PgRecords PgRoundtrip PgTable PgStore PgTableInv PgStoreInv PgStoreThms PgSim DeadLetters.

(** ** Bounded subselects *)

Section statements.
Context `{PostgresLaws}.
Implicit Types (d : Db) (r : Row) (p : Row → bool) (now : OffsetDateTime).

Lemma picked_limit p n d :
  filter (λ r, picked p n (table d) r = true) (table d)
  ≡ₚ limit_rows n (filter (λ r, p r = true) (table d)).
Proof.
  assert (Hsub := limit_rows_subset n (filter (λ r, p r = true) (table d))).
  assert (Hin : ∀ r, r ∈ limit_rows n (filter (λ r, p r = true) (table d)) → r ∈ table d ∧ p r = true).
  { intros r Hr. eapply elem_of_submseteq in Hr; [|exact Hsub].
    apply list_elem_of_filter in Hr as [? ?]. done. }
  assert (Hnd : NoDup (table d)) by eapply NoDup_fmap_1, sound_ids.
  apply NoDup_Permutation.
  - by apply NoDup_filter.
  - apply submseteq_Permutation in Hsub as [k Hk].
    assert (Hf : NoDup (filter (λ r, p r = true) (table d))) by by apply NoDup_filter.
    rewrite Hk in Hf. by apply NoDup_app in Hf as [? _].
  - intros r. rewrite list_elem_of_filter. unfold picked. rewrite andb_true_iff, bool_decide_eq_true. split.
    + intros [[(r' & Hid & Hr')%list_elem_of_fmap _] Hr].
      assert (r = r') as ->; [|done].
      eapply (NoDup_fmap_eq row_id (table d)); [apply sound_ids|done|by apply Hin|done].
    + intros Hr. destruct (Hin r Hr) as [Ht Hp]. split_and!; [|done|done]. by apply list_elem_of_fmap_2.
Qed.

Lemma picked_length p n d :
  length (filter (λ r, picked p n (table d) r = true) (table d))
  = Nat.min n (length (filter (λ r, p r = true) (table d))).
Proof. by rewrite picked_limit, limit_rows_length. Qed.

(** Fewer than the bound were picked only if all were. *)
Lemma picked_all p n d r :
  (length (filter (λ r, picked p n (table d) r = true) (table d)) < n)%nat →
  r ∈ table d → picked p n (table d) r = p r.
Proof.
  rewrite picked_length. intros Hlt Hr. unfold picked.
  destruct (p r) eqn:Ep; [|apply andb_false_r]. rewrite andb_true_r. apply bool_decide_eq_true.
  apply list_elem_of_fmap_2.
  assert (Hperm : limit_rows n (filter (λ r, p r = true) (table d)) ≡ₚ filter (λ r, p r = true) (table d)).
  { apply submseteq_length_Permutation; [apply limit_rows_subset|]. rewrite limit_rows_length. lia. }
  rewrite Hperm. by apply list_elem_of_filter.
Qed.

(** ** What a pass can still take *)

Definition pending_row r : bool :=
  bool_decide (r_published_at (raw r) = None) && bool_decide (r_dead_at (raw r) = None).

(** A pending row can be swept and then deleted, any other deleted. *)
Definition purgeable (l : list Row) : nat := length l + length (filter (λ r, pending_row r = true) l).

Lemma purgeable_filter p l :
  (purgeable (filter (λ r, p r = false) l) + length (filter (λ r, p r = true) l) ≤ purgeable l)%nat.
Proof.
  unfold purgeable. induction l as [|r l IH]; [done|].
  assert (Hp : ∀ l' : list Row,
    length (filter (λ r, pending_row r = true) (r :: l'))
    = ((if pending_row r then 1 else 0) + length (filter (λ r, pending_row r = true) l'))%nat).
  { intros l'. rewrite filter_cons. by destruct (pending_row r). }
  rewrite Hp. destruct (p r) eqn:Ep.
  - rewrite filter_cons_False, filter_cons_True by congruence. cbn [length].
    destruct (pending_row r); lia.
  - rewrite filter_cons_True, (filter_cons_False (λ r, p r = true)) by congruence. rewrite Hp.
    cbn [length]. destruct (pending_row r); lia.
Qed.

(** ** One statement of a pass *)

Record pass (due : Row → bool) (makes : Row → Prop) (n : nat) d d' (k : Z) : Prop := {
  pass_tidy : tidy d';
  pass_count : 0 ≤ k;
  pass_progress : Z.of_nat (purgeable (table d')) + k ≤ Z.of_nat (purgeable (table d));
  pass_rows r : r ∈ table d' → r ∈ table d ∨ makes r;
  pass_spares r : r ∈ table d → due r = false → r ∈ table d';
  pass_complete r : k < Z.of_nat n → r ∈ table d → due r = true → r ∉ table d';
}.

Lemma purge_rows_pass (column : RawRow → option OffsetDateTime) ms n now lk d t :
  tidy d → add_interval now (- ms) = Some t →
  ∃ d' k, purge_rows column ms n now lk d = Ok (d', k)
    ∧ pass (λ r, past_retention (column (raw r)) t) (λ _, False) n d d' k.
Proof.
  intros Hd Ht. unfold purge_rows, interval_from, delete_where. rewrite Ht. cbn [result_bind].
  set (p := λ r : Row, past_retention (column (raw r)) t).
  destruct (write_sound (filter (λ r, picked p n (table d) r = false) (table d)) (next_sequence d))
    as (d' & Hw & Htab & _); [apply filter_sound, sound|].
  pose proof (delete_safe (λ _, picked p n) now lk d Hd) as Hsafe. unfold delete_where in Hsafe.
  rewrite Hw in Hsafe |- *. cbn [result_bind] in Hsafe |- *. eexists d', _. split; [reflexivity|].
  split; [exact Hsafe|lia|..].
  - rewrite Htab. pose proof (purgeable_filter (picked p n (table d)) (table d)). lia.
  - intros r Hr. rewrite Htab in Hr. apply list_elem_of_filter in Hr as [_ Hr]. by left.
  - intros r Hr Hp. rewrite Htab. apply list_elem_of_filter. split; [|done].
    unfold picked. fold (p r) in Hp. rewrite Hp. apply andb_false_r.
  - intros r Hk Hr Hp Hr'. rewrite Htab in Hr'. apply list_elem_of_filter in Hr' as [Hf _].
    rewrite picked_all in Hf; [|lia|done]. fold (p r) in Hp. congruence.
Qed.

Definition swept_now (t : OffsetDateTime) (r : Row) : Prop :=
  r_dead_at (raw r) = Some t ∧ r_published_at (raw r) = None.

(** An update that turns pending rows into others frees one unit for each. *)
Lemma purgeable_update f now l l' :
  (∀ r u, r ∈ l → f r = Some u → pending_row r = true ∧ ∀ raw', u = Ok raw' → pending_row (mkRow raw' now) = false) →
  Forall2 (row_updated f now) l l' →
  (purgeable l' + length (filter (λ r, is_Some (f r)) l) = purgeable l)%nat.
Proof.
  intros Hf HF. unfold purgeable. rewrite <-(Forall2_length _ _ _ HF).
  assert (Hp : ∀ r (l : list Row), length (filter (λ r, pending_row r = true) (r :: l))
    = ((if pending_row r then 1 else 0) + length (filter (λ r, pending_row r = true) l))%nat).
  { intros r l0. rewrite filter_cons. by destruct (pending_row r). }
  enough (length (filter (λ r, pending_row r = true) l') + length (filter (λ r, is_Some (f r)) l)
          = length (filter (λ r, pending_row r = true) l))%nat by lia.
  induction HF as [|r r' l l' Hr HF IH]; [done|]. rewrite !Hp, (filter_cons _ r l).
  specialize (IH (λ r0 u Hin, Hf r0 u (list_elem_of_further _ _ _ Hin))).
  unfold row_updated in Hr. destruct (f r) as [u|] eqn:Ef.
  - rewrite decide_True by eauto. destruct Hr as (raw' & -> & ->).
    destruct (Hf r (Ok raw') (list_elem_of_here _ _) Ef) as [Hpr Hq]. rewrite Hpr, (Hq raw' eq_refl).
    cbn [length]. lia.
  - rewrite decide_False by (by intros []). subst r'. lia.
Qed.

Lemma Forall2_elem_r {A B} (R : A → B → Prop) l k y :
  Forall2 R l k → y ∈ k → ∃ x, x ∈ l ∧ R x y.
Proof.
  intros HF (i & Hi)%list_elem_of_lookup. destruct (Forall2_lookup_r _ _ _ _ _ HF Hi) as (x & Hx & Hr).
  exists x. split; [by eapply list_elem_of_lookup_2|done].
Qed.
Lemma Forall2_elem_l {A B} (R : A → B → Prop) l k x :
  Forall2 R l k → x ∈ l → ∃ y, y ∈ k ∧ R x y.
Proof.
  intros HF (i & Hi)%list_elem_of_lookup. destruct (Forall2_lookup_l _ _ _ _ _ HF Hi) as (y & Hy & Hr).
  exists y. split; [by eapply list_elem_of_lookup_2|done].
Qed.

Lemma expired_sweep_pass n reason now lk d :
  tidy d →
  ∃ d' k, purge_expired_sweep_rows n reason now lk d = Ok (d', k)
    ∧ pass (λ r, sweepable_at now (raw r)) (swept_now now) n d d' k.
Proof.
  intros Hd. unfold purge_expired_sweep_rows.
  pose proof (expired_sweep_safe (table d) n reason now lk d Hd) as Hsafe. unfold update in *.
  set (p := λ r : Row, sweepable_at now (raw r)) in *.
  match goal with |- context [update_where ?g now _] => set (f := g) in * end.
  assert (Hf : ∀ r, f r = if picked p n (table d) r
    then Some (Ok (set_lease None None (set_last_error (Some "reliar: expired before publication")
                     (set_dead (Some now) (Some reason) (raw r))))) else None) by done.
  assert (Hp : ∀ r, p r = true → r_published_at (raw r) = None ∧ r_dead_at (raw r) = None).
  { intros r (_ & ? & ? & _)%sweepable_at_spec. done. }
  clearbody f. pose proof (update_where_spec f now (table d)) as Hu.
  destruct (update_where f now (table d)) as [[l' k]|e].
  2: { destruct Hu as (r & _ & He). rewrite Hf in He. by destruct (picked p n (table d) r). }
  destruct Hu as [HF ->]. cbn [result_bind] in *.
  destruct (write l' (next_sequence d)) as [d'|e] eqn:Ew; cbn [result_bind] in *.
  2: { by destruct (write_error _ _ _ Ew). }
  destruct (write_inv _ _ _ Ew) as [Htab _].
  assert (Hone : ∀ r r', row_updated f now r r' →
    (picked p n (table d) r = true ∧ swept_now now r') ∨ (picked p n (table d) r = false ∧ r' = r)).
  { intros r r' Hr. unfold row_updated in Hr. rewrite Hf in Hr.
    destruct (picked p n (table d) r) eqn:Ep; [left; split; [done|]|by right].
    destruct Hr as (raw' & [= <-] & ->). apply picked_true, Hp in Ep as [? _]. by split. }
  eexists d', _. split; [reflexivity|]. split; [exact Hsafe|lia|..].
  - rewrite Htab. rewrite <-(purgeable_update f now (table d) l'); [lia| |exact HF].
    intros r u _ Hu. rewrite Hf in Hu. destruct (picked p n (table d) r) eqn:Ep; [|done].
    injection Hu as <-. apply picked_true, Hp in Ep as [Hpub Hdead].
    unfold pending_row. rewrite Hpub, Hdead. split; [done|]. intros raw' [= <-]. cbn. apply andb_false_r.
  - intros r Hr. rewrite Htab in Hr. destruct (Forall2_elem_r _ _ _ _ HF Hr) as (r0 & Hr0 & Hrow).
    destruct (Hone _ _ Hrow) as [[_ Hs]|[_ ->]]; [by right|by left].
  - intros r Hr Hdue. cbv beta in Hdue. destruct (Forall2_elem_l _ _ _ _ HF Hr) as (r' & Hr' & Hrow). rewrite Htab.
    destruct (Hone _ _ Hrow) as [[Hpk%picked_true _]|[_ ->]]; [|done]. congruence.
  - intros r Hk Hr Hdue Hr'. cbv beta in Hdue. rewrite Htab in Hr'.
    destruct (Forall2_elem_r _ _ _ _ HF Hr') as (r0 & Hr0 & Hrow).
    destruct (Hone _ _ Hrow) as [[_ [Hdead _]]|[Hpk ->]].
    + destruct (Hp r Hdue) as [_ Hnone]. congruence.
    + rewrite picked_all in Hpk; [congruence| |done].
      assert (Hlen : ∀ l : list Row, length (filter (λ r, is_Some (f r)) l)
        = length (filter (λ r, picked p n (table d) r = true) l)).
      { intros l. f_equal. apply list_filter_iff. intros x. rewrite Hf.
        destruct (picked p n (table d) x); split; intros Hx; try done; by destruct Hx. }
      rewrite <-Hlen. lia.
Qed.
End statements.

(** ** A pass, and the caller's loop *)

Section purge.
Context `{PostgresLaws} `{TimeRange} (schedule : nat → Step) (settings : PostgresOutboxSettings.t).
Context (request : PurgeRequest.t).
Implicit Types (w : Pg) (r : Row).

#[local] Existing Instance M_ret.
#[local] Existing Instance M_bind.

Local Abbreviation now_ k := (at_ (schedule k)).
Local Abbreviation bound := (Z.to_nat (PurgeRequest.batch_size request)).

(** The caller's loop. *)
Fixpoint purge_all (fuel : nat) w : Pg * option (list PurgeReport.t) :=
  match fuel with
  | O => (w, None)
  | S fuel =>
      match PostgresOutboxStore.purge schedule settings request w with
      | (w, Answered (Ok report)) =>
          if PurgeReport.is_complete report (PurgeRequest.batch_size request) then (w, Some [report])
          else let '(w, reports) := purge_all fuel w in (w, cons report <$> reports)
      | (w, _) => (w, None)
      end
  end.

Definition retained_past (retention : option Duration) (column : RawRow → option OffsetDateTime)
    (t : OffsetDateTime) r : bool :=
  match retention with
  | Some d => past_retention (column (raw r)) (t - millis_i64 d * 1000000)
  | None => false
  end.

(** What one of the three statements of a pass takes, at [t]. *)
Definition due_at (t : OffsetDateTime) r : bool :=
  retained_past (PurgeRequest.published_retention request) r_published_at t r
  || retained_past (PurgeRequest.dead_retention request) r_dead_at t r
  || sweepable_at t (raw r).

(** Every round trip runs, nobody else writes, and the clock does not go back. *)
Record undisturbed : Prop := {
  ud_timeout : is_zero (PostgresOutboxSettings.statement_timeout settings) = true;
  ud_runs k : fate (schedule k) = Runs;
  ud_others k d : others (schedule k) d = d;
  ud_clock k k' : (k ≤ k')%nat → now_ k ≤ now_ k';
}.

(** The cutoffs are dates the database can compute exactly. *)
Definition exact_retention (retention : option Duration) : Prop :=
  ∀ d, retention = Some d → 0 ≤ millis_i64 d ≤ EXACT_MS
    ∧ ∀ k, is_Some (add_interval (now_ k) (- millis_i64 d)).

Context (Hud : undisturbed).

Lemma run_pass {A} (q : stmt A) w d k :
  tx w = None → q (now_ (tick w)) (locked (schedule (tick w))) (committed w) = Ok (d, k) →
  exec schedule q w = (ticked schedule d w, Answered (Ok k)).
Proof.
  intros Htx Hq. rewrite exec_pool by (done || apply ud_runs, Hud). cbv zeta.
  by rewrite (ud_others Hud), Hq.
Qed.

Lemma retained_pass retention column w :
  tidy (committed w) → tx w = None → exact_retention retention →
  ∃ w' k, PostgresOutboxStore.if_retained schedule retention (λ ms, purge_rows column ms bound) w
            = (w', Answered (Ok k))
    ∧ tx w' = None ∧ (tick w ≤ tick w')%nat
    ∧ pass (retained_past retention column (now_ (tick w))) (λ _, False) bound
        (committed w) (committed w') k.
Proof.
  intros Hd Htx Hex. unfold PostgresOutboxStore.if_retained. destruct retention as [d|].
  - destruct (Hex d eq_refl) as [[Hms Hms'] Hadd]. destruct (Hadd (tick w)) as [t Ht].
    assert (t = now_ (tick w) - millis_i64 d * 1000000) as ->.
    { rewrite (add_interval_Some (now_ (tick w)) (- millis_i64 d) t); [lia|lia|done]. }
    destruct (purge_rows_pass column (millis_i64 d) bound (now_ (tick w)) (locked (schedule (tick w)))
      (committed w) _ Hd Ht) as (d' & k & Hq & Hp).
    rewrite (run_pass _ _ _ _ Htx Hq). exists (ticked schedule d' w), k. split; [reflexivity|].
    split; [done|]. split; [cbn; lia|]. destruct Hp. by split.
  - exists w, 0. split; [reflexivity|]. split; [done|]. split; [lia|].
    split; try done; [lia|by left].
Qed.

Lemma retained_past_mono retention column t t' r :
  t ≤ t' → retained_past retention column t r = true → retained_past retention column t' r = true.
Proof.
  unfold retained_past, past_retention. destruct retention as [d|], (column (raw r)) as [x|]; try done.
  rewrite !Z.ltb_lt. lia.
Qed.
Lemma sweepable_mono t t' r : t ≤ t' → sweepable_at t (raw r) = true → sweepable_at t' (raw r) = true.
Proof.
  intros Ht ((e & He & Hlt) & Hp & Hd & Hu)%sweepable_at_spec. apply sweepable_at_spec.
  split_and!; [exists e; split; [done|lia]|done|done|]. intros u Hul. specialize (Hu u Hul). lia.
Qed.

(** One call: progress by what it reports, nothing touched that is not due, and nothing left
    that was due when it began if the report is complete. *)
Lemma purge_pass w :
  tidy (committed w) → tx w = None → 0 ≤ PurgeRequest.batch_size request →
  exact_retention (PurgeRequest.published_retention request) →
  exact_retention (PurgeRequest.dead_retention request) →
  ∃ w' a b c, PostgresOutboxStore.purge schedule settings request w
              = (w', Answered (Ok (PurgeReport.new a b c)))
    ∧ tx w' = None ∧ tidy (committed w') ∧ (tick w ≤ tick w')%nat
    ∧ 0 ≤ a ∧ 0 ≤ b ∧ 0 ≤ c
    ∧ Z.of_nat (purgeable (table (committed w'))) + (a + b + c)
      ≤ Z.of_nat (purgeable (table (committed w)))
    ∧ (∀ r, r ∈ table (committed w) → (∀ k, due_at (now_ k) r = false) → r ∈ table (committed w'))
    ∧ (PurgeReport.is_complete (PurgeReport.new a b c) (PurgeRequest.batch_size request) = true →
       ∀ r, r ∈ table (committed w') → due_at (now_ (tick w)) r = false).
Proof.
  intros Hd Htx Hb Hex1 Hex2. unfold PostgresOutboxStore.purge, run, with_timeout.
  rewrite (ud_timeout Hud). unfold mbind, M_bind.
  destruct (retained_pass _ r_published_at w Hd Htx Hex1) as (w1 & a & Hr1 & Htx1 & Hk1 & P1).
  unfold purge_published_rows. rewrite Hr1.
  destruct (retained_pass _ r_dead_at w1 (pass_tidy _ _ _ _ _ _ P1) Htx1 Hex2) as (w2 & b & Hr2 & Htx2 & Hk2 & P2).
  unfold purge_dead_retention_rows. rewrite Hr2.
  destruct (expired_sweep_pass bound (encode_dead_reason Expired) (now_ (tick w2))
    (locked (schedule (tick w2))) (committed w2) (pass_tidy _ _ _ _ _ _ P2)) as (d3 & c & Hq & P3).
  rewrite (run_pass _ _ _ _ Htx2 Hq). exists (ticked schedule d3 w2), a, b, c.
  split; [reflexivity|]. cbn [ticked tx committed tick].
  pose proof (ud_clock Hud _ _ Hk1) as Ht1. pose proof (ud_clock Hud _ _ Hk2) as Ht2.
  destruct P1 as [_ Ha Hp1 Hrows1 Hsp1 Hc1], P2 as [_ Hb' Hp2 Hrows2 Hsp2 Hc2], P3 as [Hd3 Hc Hp3 Hrows3 Hsp3 Hc3].
  split_and!; [done|done|lia|done|done|done|lia|..].
  - intros r Hr Hdue. unfold due_at in Hdue.
    assert (Hdue' : ∀ k, retained_past (PurgeRequest.published_retention request) r_published_at (now_ k) r = false
      ∧ retained_past (PurgeRequest.dead_retention request) r_dead_at (now_ k) r = false
      ∧ sweepable_at (now_ k) (raw r) = false).
    { intros k. specialize (Hdue k). rewrite !orb_false_iff in Hdue. tauto. }
    apply Hsp3; [|apply Hdue']. apply Hsp2; [|apply Hdue']. apply Hsp1; [done|apply Hdue'].
  - unfold PurgeReport.is_complete. cbn [PurgeReport.published_deleted PurgeReport.dead_deleted
      PurgeReport.expired_to_dead]. rewrite !andb_true_iff, !Z.ltb_lt. intros [[Hla Hlb] Hlc] r Hr.
    unfold due_at. rewrite !orb_false_iff.
    assert (Hback : r ∈ table (committed w2) ∨ swept_now (now_ (tick w2)) r) by auto.
    split_and!; apply not_true_iff_false; intros Hdue.
    + destruct Hback as [Hr2'|[_ Hpub]].
      2: { unfold retained_past, past_retention in Hdue. rewrite Hpub in Hdue.
           by destruct (PurgeRequest.published_retention request). }
      destruct (Hrows2 r Hr2') as [Hr1'|[]]. destruct (Hrows1 r Hr1') as [Hr0|[]].
      apply (Hc1 r); [lia|done|done|done].
    + destruct Hback as [Hr2'|[Hdead _]].
      * destruct (Hrows2 r Hr2') as [Hr1'|[]]. apply (Hc2 r); [lia|done| |done].
        by eapply retained_past_mono.
      * unfold retained_past, past_retention in Hdue. rewrite Hdead in Hdue.
        destruct (PurgeRequest.dead_retention request) as [D|] eqn:ED; [|done].
        apply Z.ltb_lt in Hdue. destruct (Hex2 D eq_refl) as [[? _] _]. lia.
    + destruct Hback as [Hr2'|[Hdead _]].
      * apply (Hc3 r); [lia|done| |done]. eapply sweepable_mono; [|exact Hdue]. lia.
      * apply sweepable_at_spec in Hdue as (_ & _ & Hnone & _). congruence.
Qed.

Lemma due_mono t t' r : t ≤ t' → due_at t r = true → due_at t' r = true.
Proof.
  intros Ht. unfold due_at. rewrite !orb_true_iff. intros [[Hd|Hd]|Hd].
  - left; left. by eapply retained_past_mono.
  - left; right. by eapply retained_past_mono.
  - right. by eapply sweepable_mono.
Qed.

End purge.

(** ** A concrete run *)

#[local] Existing Instances plain_json plain_postgres plain_postgres_laws default_time_range.

Definition old_row : Row := mkRow (set_published_at (Some 50) (order_row 1)) 50.
Definition stale_row : Row :=
  let r := order_row 2 in
  mkRow (mkRaw (r_id r) (r_sequence r) (r_message_type r) (r_message_version r) (r_correlation_id r)
    (r_conversation_id r) (r_causation_id r) (r_request_id r) (r_content_type r) (r_payload r)
    (r_tenant_id r) (Some 40) (r_ordering_key r) (r_metadata r) (r_headers r)
    (r_metadata_version r) (r_created_at r) (r_available_at r) (r_attempts r) (r_locked_by r) (r_locked_until r)
    (r_published_at r) (r_dead_at r) (r_dead_reason r) (r_last_error r)) 9.
Definition fresh_row : Row := mkRow (order_row 3) 9.
Definition crowded_pg : Pg := mkPg (mkDb [old_row; stale_row; fresh_row] 4 eq_refl) None 0 0.
Definition purge_now : PurgeRequest.t := PurgeRequest.mk (Some 0) None 1.

