(* ===== verification/PgRetention.v ===== *)
(** * A message outlives its retention ([reliar-store-postgres], store.rs)

    Two operations of the Postgres store delete rows: a purge, past a configured retention,
    and an operator's [purge_dead], by id.  Nothing else loses a message or changes what it
    carries: the theorem follows one message through every operation, in any order, however
    their round trips interleave with other transactions, are cut off or rolled back. *)

From S2P Require Import Prelude RustString RustFmt CoreTypes CoreHeaders CoreEnvelope OutboxTypes OutboxSettings MemStore StoreInterface PgErrors PgRecords PgRoundtrip PgTable PgStore PgTableInv PgStoreInv PgStoreThms.

Section message.
Context `{PostgresLaws} `{TimeRange}.

(** The columns no statement assigns: identity, payload, headers and metadata. *)
Definition message_of (r : RawRow) : RawRow :=
  set_last_error None (set_dead None None (set_published_at None (set_attempts 0
    (set_available_at 0 (set_lease None None r))))).

Context (message : RawRow) (since : OffsetDateTime) (span : Z).

(** The row carries the message, and was not resolved before [since]. *)
Record carries (r : RawRow) : Prop := {
  carries_message : message_of r = message;
  carries_published t : r_published_at r = Some t → since ≤ t;
  carries_dead t : r_dead_at r = Some t → since ≤ t;
}.

Definition kept (d : Db) : Prop := ∃ r, r ∈ table d ∧ carries (raw r).
Definition within (now : OffsetDateTime) : Prop := since ≤ now ∧ now ≤ since + span.
Local Abbreviation retains q := (stmt_keeps kept within any_error q).

(** A retention that has not run out at the end of the span, and that the database can
    subtract exactly. *)
Definition outlasts (retention : option Duration) : Prop :=
  ∀ keep, retention = Some keep →
    span ≤ millis_i64 keep * 1000000 ∧ millis_i64 keep ≤ EXACT_MS.

Definition spares_message (o : pg_op) : Prop :=
  match o with
  | PPurge request =>
      outlasts (PurgeRequest.published_retention request)
      ∧ outlasts (PurgeRequest.dead_retention request)
  | PPurgeDead refs => r_id message ∉ PostgresOutboxStore.ref_uuid <$> refs
  | _ => True
  end.

(** ** The statements *)

Lemma carries_id r : carries r → r_id r = r_id message.
Proof. by intros [<- _ _]. Qed.

(** An assignment keeps the message when it marks the row, if at all, now or later. *)
Lemma assign_carries r r' :
  message_of r' = message_of r →
  (r_published_at r' = r_published_at r ∨ ∀ t, r_published_at r' = Some t → since ≤ t) →
  (r_dead_at r' = r_dead_at r ∨ ∀ t, r_dead_at r' = Some t → since ≤ t) →
  carries r → carries r'.
Proof.
  intros Hm Hp Hd [Hc Hcp Hcd]. split.
  - by rewrite Hm.
  - destruct Hp as [->|Hp]; [exact Hcp|exact Hp].
  - destruct Hd as [->|Hd]; [exact Hcd|exact Hd].
Qed.

Ltac assigned :=
  apply assign_carries; cbn; [done|by (left + (right; intros ? [= <-]))..].

Lemma update_where_keeps (f : Row → option (result RawRow SqlxError)) now d l k n d' :
  (∀ r raw', f r = Some (Ok raw') → carries (raw r) → carries raw') →
  kept d → update_where f now (table d) = Ok (l, k) → write l n = Ok d' → kept d'.
Proof.
  intros Hf (r & Hr & Hc) Hu [Hl _]%write_inv. pose proof (update_where_spec f now (table d)) as Hs.
  rewrite Hu in Hs. destruct Hs as [HF _]. apply list_elem_of_lookup in Hr as [i Hi].
  destruct (Forall2_lookup_l _ _ _ _ _ HF Hi) as (r' & Hr' & Hrow). exists r'. rewrite Hl.
  split; [by eapply list_elem_of_lookup_2|]. unfold row_updated in Hrow.
  destruct (f r) as [u|] eqn:Ef; [|by subst r']. destruct Hrow as (raw' & -> & ->). by eapply Hf.
Qed.

Lemma update_retains (f : OffsetDateTime → Row → option (result RawRow SqlxError)) :
  (∀ now r raw', within now → f now r = Some (Ok raw') → carries (raw r) → carries raw') →
  retains (update f).
Proof.
  intros Hf now locked d Hn Hd. unfold update.
  destruct (update_where (f now) now (table d)) as [[l k]|e] eqn:Eu; cbn; [|done].
  destruct (write l (next_sequence d)) as [d'|e] eqn:Ew; cbn; [|done].
  eapply update_where_keeps; [|done..]. intros r raw' Hr Hc. by eapply Hf.
Qed.

Lemma delete_retains p :
  (∀ now l r, within now → carries (raw r) → p now l r = false) → retains (delete_where p).
Proof.
  intros Hp now locked d Hn (r & Hr & Hc). unfold delete_where.
  destruct (write _ _) as [d'|e] eqn:Ew; cbn; [|done]. apply write_inv in Ew as [Hl _].
  exists r. split; [|done]. rewrite Hl. apply list_elem_of_filter. split; [by apply Hp|done].
Qed.

(** No arithmetic in an assignment hides an error: the value it gives is the row's. *)
Lemma let_ok {A B E} (m : result A E) (k : A → result B E) b :
  (let? a := m in k a) = Ok b → ∃ a, m = Ok a ∧ k a = Ok b.
Proof. destruct m as [a|e]; [by exists a|done]. Qed.

Lemma claim_retains n v ms : retains (claim_rows n v ms).
Proof.
  intros now locked d Hn Hd. unfold claim_rows. cbv zeta.
  destruct (update_where _ now (table d)) as [[l k]|e] eqn:Eu; cbn; [|done].
  destruct (write l (next_sequence d)) as [d'|e] eqn:Ew; cbn; [|done].
  eapply update_where_keeps; [|done..]. intros r raw' Hf. cbn in Hf.
  case_bool_decide; [|done]. injection Hf as Hf.
  apply let_ok in Hf as (until & _ & [= <-]). assigned.
Qed.

Lemma held_retains ids v (g : OffsetDateTime → Row → result RawRow SqlxError) :
  (∀ now r raw', within now → g now r = Ok raw' → carries (raw r) → carries raw') →
  retains (update (λ now r, if held ids v r then Some (g now r) else None)).
Proof.
  intros Hg. apply update_retains. intros now r raw' Hn Hf. destruct (held ids v r); [|done].
  injection Hf as Hf. by eapply Hg.
Qed.

Lemma complete_retains ids v : retains (complete_rows ids v).
Proof.
  apply held_retains. intros now r raw' [Hn _] (n & _ & [= <-])%let_ok. assigned.
Qed.

Lemma release_retains ids v : retains (release_rows ids v).
Proof. apply held_retains. intros now r raw' _ [= <-]. assigned. Qed.

Lemma extend_retains ids ms v : retains (extend_lease_rows ids ms v).
Proof. apply held_retains. intros now r raw' _ (t & _ & [= <-])%let_ok. assigned. Qed.

Lemma fail_retry_retains items v : retains (fail_retry_rows items v).
Proof.
  apply update_retains. intros now r raw' _ Hf. destruct (joined items r) as [[err ms]|]; [|done].
  case_bool_decide; [|done]. injection Hf as (n & _ & (t & _ & [= <-])%let_ok)%let_ok. assigned.
Qed.

Lemma fail_dead_retains items v : retains (fail_dead_rows items v).
Proof.
  apply update_retains. intros now r raw' [Hn _] Hf. destruct (joined items r) as [[err reason]|]; [|done].
  case_bool_decide; [|done]. injection Hf as (n & _ & [= <-])%let_ok. assigned.
Qed.

Lemma poison_retains items v reason : retains (poison_sweep_rows items v reason).
Proof.
  apply update_retains. intros now r raw' [Hn _] Hf. destruct (joined items r) as [err|]; [|done].
  case_bool_decide; [|done]. injection Hf as <-. assigned.
Qed.

Lemma retry_dead_retains ids : retains (retry_dead_rows ids).
Proof.
  apply update_retains. intros now r raw' _ Hf. destruct (_ && _); [|done]. injection Hf as <-. assigned.
Qed.

Lemma expired_sweep_retains n reason : retains (purge_expired_sweep_rows n reason).
Proof.
  intros now locked d Hn Hd. unfold purge_expired_sweep_rows.
  apply update_retains; [|done|done]. clear now Hn. intros now r raw' [Hn _] Hf.
  destruct (picked _ _ _ _); [|done]. injection Hf as <-. assigned.
Qed.

Lemma purge_dead_retains ids : r_id message ∉ ids → retains (purge_dead_rows ids).
Proof.
  intros Hid. apply delete_retains. intros now l r _ Hc%carries_id.
  unfold row_id. by rewrite Hc, bool_decide_eq_false_2.
Qed.

(** A mark not older than [since] is within every retention that outlasts the span. *)
Lemma purge_retains column retention keep n :
  outlasts retention → retention = Some keep →
  (∀ r t, carries r → column r = Some t → since ≤ t) →
  retains (purge_rows column (millis_i64 keep) n).
Proof.
  intros Hout Hk Hcol now locked d [Hn Hn'] Hd. destruct (Hout keep Hk) as [Hms Hms'].
  unfold purge_rows. pose proof (interval_from_spec now (- millis_i64 keep)) as Hi.
  destruct (interval_from _ _) as [cut|]; cbn; [|done].
  apply add_interval_Some in Hi; [|lia].
  apply (delete_retains (λ _, picked (λ r, past_retention (column (raw r)) cut) n)); [|done|done].
  intros _ l r _ Hc. unfold picked, past_retention. apply andb_false_iff. right.
  destruct (column (raw r)) as [t|] eqn:Et; [|done]. apply Z.ltb_ge. specialize (Hcol _ t Hc Et). lia.
Qed.

Lemma op_retains o : spares_message o → op_keeps kept within any_error o.
Proof.
  intros Ho. destruct o; cbn in *.
  - exists (λ _, True). split; [intros; apply stmt_keeps_gives, claim_retains|intros; apply poison_retains].
  - apply complete_retains.
  - split; [intros; apply fail_retry_retains|apply fail_dead_retains].
  - intros. apply release_retains.
  - intros. apply extend_retains.
  - destruct Ho as [Hp Hd]. split_and!; [..|intros; apply expired_sweep_retains]; intros keep n Hk.
    + eapply purge_retains; [exact Hp|exact Hk|]. intros r t [_ Hc _]. apply Hc.
    + eapply purge_retains; [exact Hd|exact Hk|]. intros r t [_ _ Hc]. apply Hc.
  - by intros now locked d _ Hd.
  - by intros ? n now locked d _ Hd.
  - intros. apply retry_dead_retains.
  - by apply purge_dead_retains.
Qed.
End message.

(** ** The property *)

Section property.
Context `{PostgresLaws} `{TimeRange} (schedule : nat → Step) (settings : PostgresOutboxSettings.t).

(** Postgres loses no message before its retention is over, and changes none: from
    an instant at which a row is unresolved, and for a span that every configured retention
    outlasts, the table holds a row with the same id, sequence, type, correlation, payload,
    headers and metadata after any operations - claims, outcomes, sweeps, purges, and operator
    calls that do not purge that id - in any order, and however their round trips interleave
    with other transactions, are cut off before or after taking effect, or rolled back. *)
Theorem pg_message_retained (ops : list pg_op) (w : Pg) (row : RawRow) (since : OffsetDateTime) (span : Z)
    (Hothers : ∀ n d, kept (message_of row) since d → kept (message_of row) since (others (schedule n) d))
    (Htime : ∀ n, within since span (at_ (schedule n)))
    (Hops : Forall (spares_message (message_of row) span) ops)
    (Hrow : ∃ r, r ∈ table (committed w) ∧ raw r = row)
    (Hp : r_published_at row = None) (Hd : r_dead_at row = None) (Htx : tx w = None) :
  ∃ r, r ∈ table (committed (run_pgs schedule settings ops w).1)
       ∧ message_of (raw r) = message_of row.
Proof.
  destruct (run_pgs_keeps schedule settings (kept (message_of row) since) (within since span) any_error)
    with ops w as [[(r & Hr & [Hm _ _]) _] _].
  - intros n. by split; [apply Hothers|apply Htime|].
  - done.
  - done.
  - eapply Forall_impl; [exact Hops|]. intros o. by apply op_retains.
  - split; [|by rewrite Htx]. destruct Hrow as (r & Hr & <-). exists r. split; [done|].
    by split; [done|rewrite Hp|rewrite Hd].
  - by exists r.
Qed.
End property.

(** ** A concrete run *)

#[local] Existing Instances plain_json plain_postgres plain_postgres_laws default_time_range.

(** Claimed, published, and purged by a retention of an hour a moment later. *)
Definition published_run : list pg_op :=
  [PAcquire sample_request;
   PComplete (WorkerId.mk "w1") [CompletedMessage.new (MessageRef.new (MessageId.from_uuid 1) 9)];
   PPurge (PurgeRequest.mk (Some (from_secs 3600)) None 10);
   PPurgeDead [MessageRef.new (MessageId.from_uuid 2) 9]].

Lemma pg_message_retained_witness :
  ∃ r, r ∈ table (committed (run_pgs quiet PostgresOutboxSettings.default published_run sample_pg).1)
       ∧ message_of (raw r) = message_of (order_row 1).
Proof.
  apply (pg_message_retained quiet PostgresOutboxSettings.default published_run sample_pg (order_row 1) 100 1000).
  - intros ? d Hd. exact Hd.
  - intros n. split; cbn; lia.
  - constructor; [done|]. constructor; [done|]. constructor.
    { split; [|by intros keep [=]]. intros keep [= <-]. split; vm_compute; discriminate. }
    constructor; [|constructor]. cbn. intros Hin%list_elem_of_singleton. discriminate Hin.
  - exists (mkRow (order_row 1) 9). split; [left|reflexivity].
  - reflexivity.
  - reflexivity.
  - reflexivity.
Defined.
