(* ===== verification/PgNothingLost.v ===== *)
(** * Nothing is lost on Postgres ([reliar-outbox], dispatcher.rs; [reliar-store-postgres], store.rs)

    A dispatcher over the Postgres store, followed through one message: [PgRetention] says the
    row stays, [PgDispatcher] that what it says is true.  Together: until its retention is
    over a staged message is in the table, unchanged, and pending unless it was published or
    is dead for a recorded reason. *)

From S2P Require Import Prelude RustString CoreTypes CoreHeaders CoreEnvelope OutboxTypes OutboxRetry OutboxSettings StoreInterface Dispatcher DispatcherInv DispatcherSys DispatcherReplay DispatcherThms PgErrors PgRecords PgRoundtrip PgTable PgStore PgTableInv PgStoreInv PgStoreThms PgRetention PgDispatcher.

Section dispatch.
Context `{PostgresLaws} `{TimeRange} (schedule : nat → Step) (pg : PostgresOutboxSettings.t).
Context {R : Type} `{RetryPolicy R}.
Context (settings : DispatcherSettings.t) (worker : WorkerId.t) (retry : R).
Context (acked0 : Uuid → Prop) (given_up0 : Uuid → string → Prop) (unreadable : Uuid → Prop).
Context (row : RawRow) (since : OffsetDateTime) (span : Z).

#[local] Instance provider : OutboxStore Pg PostgresStoreError :=
  PostgresOutboxStore.PostgresStore schedule pg.
#[local] Instance provider_laws : OutboxStoreLaws Pg PostgresStoreError :=
  PostgresStore_laws schedule pg.
Abbreviation pg_run := (sys Pg PostgresStoreError).
Local Abbreviation truth := (adds_truth acked0 given_up0 unreadable).
Local Abbreviation here := (kept (message_of row) since).

(** Runs that start with the row unresolved, while the world between the calls - the other
    dispatchers, the purges, the application - writes only what is true and keeps the
    message, as [PgRetention] proves every operation does that is not a purge past its
    retention. *)
Inductive pg_keeping : pg_run → Prop :=
  | keeping_start w :
      honest_table acked0 given_up0 unreadable (committed w) → tx w = None →
      here (committed w) → pg_keeping (initial w)
  | keeping_step e s s' :
      pg_keeping s → step settings worker retry e s = Some s' →
      (∀ w, e = EWorld w →
         truth (committed (world s)) (committed w) ∧ tx w = None
         ∧ (here (committed (world s)) → here (committed w))) →
      pg_keeping s'.

Lemma keeping_reachable s :
  pg_keeping s → pg_reachable schedule pg settings worker retry acked0 given_up0 unreadable s.
Proof.
  induction 1 as [w Hd Htx _|e s s' _ IH Hs He]; [by constructor|].
  eapply pg_step; [done..|]. intros w Hw. by destruct (He w Hw) as (? & ? & _).
Qed.

Lemma run_events_keeping es s s' :
  pg_keeping s → Forall (λ e, outside e = false) es →
  run_events settings worker retry es s = Some s' → pg_keeping s'.
Proof.
  intros Hs Hes. revert s Hs; induction Hes as [|e es He _ IH]; intros s Hs; cbn; [by intros [= <-]|].
  destruct (step _ _ _ e s) as [s1|] eqn:Hstep; cbn; [|done].
  apply IH. eapply keeping_step; [done..|]. by intros w ->.
Qed.

(** The dispatcher itself never deletes a row. *)
Lemma call_spares a o : pg_call settings worker a = Some o → spares_message (message_of row) span o.
Proof. destruct a; cbn; by intros [= <-]. Qed.

Context (Hothers : ∀ n d, truth d (others (schedule n) d) ∧ (here d → here (others (schedule n) d))).
Context (Htime : ∀ n, within since span (at_ (schedule n))).

Lemma keeping_here s : pg_keeping s → holds here (within since span) (world s).
Proof.
  induction 1 as [w Hd Htx Hh|e s s' _ IH Hs He]; [split; cbn; [done|by rewrite Htx]|].
  destruct (outside e) eqn:Eo.
  - destruct e; try done. destruct (He _ eq_refl) as (_ & Htx & Hk).
    unfold step in Hs. destruct (stopped s); [done|]. injection Hs as <-.
    split; cbn; [apply Hk, IH|by rewrite Htx].
  - destruct (step_replays _ _ _ _ _ _ Eo Hs) as (a & _ & ->).
    apply replay_holds; [|by intros x o _ Ho; eapply op_retains, call_spares|done].
    intros n. by split; [apply Hothers|apply Htime|].
Qed.

(** A dispatcher on Postgres loses no message.  Follow a row that is unresolved when
    a dispatcher starts, for a span that the retentions of the purges outlast: in every
    reachable state, whatever the schedule, the failures, the connections cut off and the
    transactions in between, the table holds a row with its id, sequence, payload, headers
    and metadata, and that row is still pending, or it was acknowledged by the broker, or it
    is dead and records why: it expired, it cannot be read, or the retry policy gave it up. *)
Theorem pg_dispatcher_loses_nothing (s : pg_run)
    (Hok : settings_ok settings) (Hw : is_Ok (WorkerId.parse (WorkerId.as_str worker)))
    (Hs : pg_keeping s) :
  ∃ r, r ∈ table (committed (world s)) ∧ message_of (raw r) = message_of row
    ∧ (r_published_at (raw r) = None ∧ r_dead_at (raw r) = None
       ∨ pg_acked acked0 s (r_id row)
       ∨ ∃ t reason, r_dead_at (raw r) = Some t ∧ r_dead_reason (raw r) = Some reason
           ∧ (reason = encode_dead_reason Expired ∧ (∃ u, r_expires_at row = Some u ∧ u < t)
              ∨ reason = encode_dead_reason Undecodable ∧ unreadable (r_id row)
              ∨ pg_given_up retry given_up0 s (r_id row) reason)).
Proof.
  destruct (keeping_here s Hs) as [(r & Hr & [Hm _ _]) _].
  destruct (pg_reachable_honest schedule pg settings worker retry acked0 given_up0 unreadable) with s
    as [[_ Hd] _]; [apply Hothers|done|done|by apply keeping_reachable|].
  rewrite Forall_forall in Hd. destruct (Hd _ Hr) as [Hp Hdead _ _].
  exists r. split; [done|]. split; [done|].
  assert (Hid : r_id (raw r) = r_id row) by exact (f_equal r_id Hm).
  assert (Hexp : r_expires_at (raw r) = r_expires_at row) by exact (f_equal r_expires_at Hm).
  rewrite Hid in Hp, Hdead. rewrite Hexp in Hdead.
  destruct (r_published_at (raw r)) as [t|]; [right; left; by apply Hp|].
  destruct (r_dead_at (raw r)) as [t|] eqn:Et; [|by left].
  right; right. destruct (Hdead t eq_refl) as (reason & Hreason & Hwhy). by exists t, reason.
Qed.
End dispatch.

(** ** The order of the sample table *)

#[local] Existing Instances plain_json plain_postgres plain_postgres_laws default_time_range.
#[local] Instance quiet_provider : OutboxStore Pg PostgresStoreError :=
  PostgresOutboxStore.PostgresStore quiet PostgresOutboxSettings.default.

Lemma pg_dispatcher_loses_nothing_witness :
  ∃ r, r ∈ table (committed (world pg_end_state)) ∧ message_of (raw r) = message_of (order_row 1)
    ∧ r_payload (raw r) = [Byte.x01].
Proof.
  assert (Hr : pg_keeping quiet PostgresOutboxSettings.default run_settings (WorkerId.mk "w1") run_retry
                 (λ _, False) (λ _ _, False) (λ i, i = 2) (order_row 1) 100 pg_end_state).
  { assert (H0 : pg_keeping quiet PostgresOutboxSettings.default run_settings (WorkerId.mk "w1") run_retry
      (λ _, False) (λ _ _, False) (λ i, i = 2) (order_row 1) 100 pg_start_state).
    { apply keeping_start; [exact sample_honest|reflexivity|].
      exists (mkRow (order_row 1) 9). split; [left|]. by split. }
    unfold pg_end_state. destruct (run_events _ _ _ _ _) as [s|] eqn:E; [|exact H0].
    eapply run_events_keeping; [exact H0| |exact E]. repeat constructor. }
  destruct (pg_dispatcher_loses_nothing quiet PostgresOutboxSettings.default run_settings
    (WorkerId.mk "w1") run_retry (λ _, False) (λ _ _, False) (λ i, i = 2) (order_row 1) 100 1000)
    with (s := pg_end_state) as (r & Hin & Hm & _).
  - intros n d. split; [|done]. split; [done|]. intros r' Hr'. left. exists r'. split; [done|].
    by repeat split.
  - intros n. split; cbn; lia.
  - exact run_settings_ok.
  - vm_compute. by eexists.
  - exact Hr.
  - exists r. split; [done|]. split; [done|]. exact (f_equal r_payload Hm).
Defined.
