(* ===== verification/PgFleet.v ===== *)
(** * A fleet of dispatchers on one Postgres ([reliar-outbox], dispatcher.rs;
    [reliar-store-postgres], store.rs)

    Any number of dispatchers, each with its settings, worker id, retry policy, connection
    schedule and clock, share one database with the application that stages messages, the
    housekeeping that purges, and the operators.  What a transaction of any of them may do to
    the table is one relation, [sent], with a constructor per statement of the provider;
    other transactions may commit between any two round trips of a call.  Nothing else is
    assumed of them: what the table says is true because every statement that says it comes
    from a dispatcher that knows it. *)

From S2P Require Import Prelude RustString CoreTypes CoreHeaders CoreEnvelope OutboxTypes OutboxRetry OutboxSettings StoreInterface Dispatcher DispatcherInv DispatcherSys DispatcherReplay DispatcherThms PgErrors PgRecords PgRoundtrip PgTable PgStore PgTableInv PgStoreInv PgStoreThms PgRetention PgDispatcher PgNothingLost.

(** ** The statements of the provider *)

Section statements.
Context `{PgTypesLaws} `{!Postgres} `{!PostgresLaws} `{MillisFit}.
Context (since : OffsetDateTime) (span : Z) (discarded : Uuid → Prop).

(** The statement ran at [now] and left the table [d']. *)
Definition ran {A} (q : stmt A) (now : OffsetDateTime) (d d' : Db) : Prop :=
  ∃ locked a, q now locked d = Ok (d', a).

(** One statement of a transaction that knows what the broker acknowledged and what was given
    up; purges within the retention, and operators who delete only what they discard. *)
Inductive sent (acked : Uuid → Prop) (given_up : Uuid → string → Prop) (now : OffsetDateTime)
    : relation Db :=
  | sent_claim n w ms worker d d' :
      WorkerId.parse w = Ok worker → ran (claim_rows n w ms) now d d' → sent acked given_up now d d'
  | sent_poison items w d d' :
      (∀ i, i ∈ items.*1 → ∃ r, r ∈ table d ∧ row_id r = i ∧ ¬ is_Ok (decode_envelope (raw r))) →
      ran (poison_sweep_rows items w (encode_dead_reason Undecodable)) now d d' →
      sent acked given_up now d d'
  | sent_complete ids w d d' :
      (∀ i, i ∈ ids → acked i) → ran (complete_rows ids w) now d d' → sent acked given_up now d d'
  | sent_retry items w d d' : ran (fail_retry_rows items w) now d d' → sent acked given_up now d d'
  | sent_dead items w d d' :
      (∀ i err reason, (i, (err, reason)) ∈ items → given_up i reason) →
      ran (fail_dead_rows items w) now d d' → sent acked given_up now d d'
  | sent_release ids w d d' : ran (release_rows ids w) now d d' → sent acked given_up now d d'
  | sent_extend ids ms w d d' : ran (extend_lease_rows ids ms w) now d d' → sent acked given_up now d d'
  | sent_purge_published keep n d d' :
      outlasts span (Some keep) → ran (purge_published_rows (millis_i64 keep) n) now d d' →
      sent acked given_up now d d'
  | sent_purge_dead_retention keep n d d' :
      outlasts span (Some keep) → ran (purge_dead_retention_rows (millis_i64 keep) n) now d d' →
      sent acked given_up now d d'
  | sent_expired_sweep n d d' :
      ran (purge_expired_sweep_rows n (encode_dead_reason Expired)) now d d' →
      sent acked given_up now d d'
  | sent_retry_dead ids d d' : ran (retry_dead_rows ids) now d d' → sent acked given_up now d d'
  | sent_purge_dead ids d d' :
      (∀ i, i ∈ ids → discarded i) → ran (purge_dead_rows ids) now d d' → sent acked given_up now d d'
  | sent_insert (e : SerializedEnvelope) payload ct options d d' :
      stageable e ct → ran (insert_row e payload ct options) now d d' → sent acked given_up now d d'.

(** Any transactions, one after another, of the span. *)
Definition transactions acked given_up : relation Db :=
  rtc (λ d d', ∃ now, within since span now ∧ sent acked given_up now d d').

Lemma ran_keeps {A} (P : Db → Prop) (T : OffsetDateTime → Prop) (q : stmt A) now d d' :
  stmt_keeps P T any_error q → T now → P d → ran q now d d' → P d'.
Proof. intros Hq Hn Hd (locked & a & Hr). specialize (Hq now locked d Hn Hd). by rewrite Hr in Hq. Qed.

(** ** What they say is true *)

Context (unreadable : Uuid → Prop).

Lemma insert_row_honest (A : Uuid → Prop) (G : Uuid → string → Prop) e payload ct options now d d' :
  stageable (T := Bytes) e ct → ran (insert_row e payload ct options) now d d' →
  honest_table A G unreadable d → honest_table A G unreadable d'.
Proof.
  intros He (locked & [] & Hr) [Ht Hd]. unfold insert_row in Hr.
  destruct (write _ _) as [d1|] eqn:Ew; cbn in Hr; [|done]. injection Hr as <-.
  apply write_inv in Ew as [Hl _]. unfold honest_table, tidy. rewrite Hl. split.
  - apply Forall_app. split; [exact Ht|]. constructor; [|constructor]. by intros [].
  - apply Forall_app. split; [exact Hd|]. constructor; [|constructor].
    split; cbn [raw]; [done|done| |done]. intros []. rewrite decode_envelope_staged by done. by eexists.
Qed.

Lemma sent_honest (A A' : Uuid → Prop) (G G' : Uuid → string → Prop) now d d' :
  (∀ i, A i → A' i) → (∀ i reason, G i reason → G' i reason) → sent A G now d d' →
  honest_table A' G' unreadable d → honest_table A' G' unreadable d'.
Proof.
  intros HA HG Hs Hd. pose proof Hd as [_ Hrows]. rewrite Forall_forall in Hrows.
  assert (Hk : ∀ B (q : stmt B), stmt_keeps (honest_table A' G' unreadable) (λ _, True) any_error q →
    ran q now d d' → honest_table A' G' unreadable d').
  { intros B q Hq Hr. by eapply ran_keeps. }
  destruct Hs as [n w ms worker d d' Hw Hr|items w d d' Hi Hr|ids w d d' Hi Hr|items w d d' Hr
    |items w d d' Hi Hr|ids w d d' Hr|ids ms w d d' Hr|keep n d d' _ Hr|keep n d d' _ Hr|n d d' Hr
    |ids d d' Hr|ids d d' _ Hr|e payload ct options d d' He Hr]; [|eapply Hk; [|exact Hr]..|].
  - eapply Hk; [|exact Hr]. intros now' locked d0 Hn Hd0.
    pose proof (claim_rows_tells A' G' unreadable n w ms worker Hw now' locked d0 Hn Hd0) as Hc.
    destruct (claim_rows _ _ _ _ _ _) as [[]|]; [by destruct Hc|done].
  - apply poison_sweep_rows_tells. intros i (r & Hin & <- & Hbad)%Hi. by apply (Hrows _ Hin).
  - apply complete_rows_tells. auto.
  - apply fail_retry_rows_tells.
  - apply fail_dead_rows_tells. eauto.
  - apply release_rows_tells.
  - apply extend_lease_rows_tells.
  - apply purge_rows_tells.
  - apply purge_rows_tells.
  - apply expired_sweep_tells.
  - apply retry_dead_rows_tells.
  - apply delete_tells.
  - by eapply insert_row_honest.
Qed.

Lemma transactions_honest (A A' : Uuid → Prop) (G G' : Uuid → string → Prop) d d' :
  (∀ i, A i → A' i) → (∀ i reason, G i reason → G' i reason) → transactions A G d d' →
  honest_table A' G' unreadable d → honest_table A' G' unreadable d'.
Proof.
  intros HA HG Ht. induction Ht as [|d d1 d' (now & _ & Hs) _ IH]; [done|].
  intros Hd. by eapply IH, sent_honest.
Qed.

(** ** And no message is lost *)

Context (message : RawRow).

Lemma insert_row_retains {T} (e : Envelope.t T) payload ct options :
  stmt_keeps (kept message since) (within since span) any_error (insert_row e payload ct options).
Proof.
  intros now locked d _ (r & Hin & Hc). unfold insert_row.
  destruct (write _ _) as [d1|] eqn:Ew; cbn; [|done]. apply write_inv in Ew as [Hl _].
  exists r. rewrite Hl. split; [apply elem_of_app; by left|done].
Qed.

Lemma sent_kept A G now d d' :
  ¬ discarded (r_id message) → within since span now → sent A G now d d' →
  kept message since d → kept message since d'.
Proof.
  intros Hkeep Hn Hs Hd.
  assert (Hk : ∀ B (q : stmt B), stmt_keeps (kept message since) (within since span) any_error q →
    ran q now d d' → kept message since d').
  { intros B q Hq Hr. by eapply ran_keeps. }
  destruct Hs; (eapply Hk; [|eassumption]).
  - apply claim_retains.
  - apply poison_retains.
  - apply complete_retains.
  - apply fail_retry_retains.
  - apply fail_dead_retains.
  - apply release_retains.
  - apply extend_retains.
  - eapply purge_retains; [eassumption|done|]. intros r t [_ Hc _]. apply Hc.
  - eapply purge_retains; [eassumption|done|]. intros r t [_ _ Hc]. apply Hc.
  - apply expired_sweep_retains.
  - apply retry_dead_retains.
  - apply purge_dead_retains. intros Hin. apply Hkeep. auto.
  - apply insert_row_retains.
Qed.

Lemma transactions_kept A G d d' :
  ¬ discarded (r_id message) → transactions A G d d' → kept message since d → kept message since d'.
Proof.
  intros Hkeep Ht. induction Ht as [|d d1 d' (now & Hn & Hs) _ IH]; [done|].
  intros Hd. by eapply IH, sent_kept.
Qed.
End statements.

(** ** The fleet *)

Record pg_member (R : Type) := mkPgMember {
  pm_settings : DispatcherSettings.t;
  pm_worker : WorkerId.t;
  pm_retry : R;
  pm_pg : PostgresOutboxSettings.t;
}.
Arguments mkPgMember {R} _ _ _ _.
Arguments pm_settings {R} _.
Arguments pm_worker {R} _.
Arguments pm_retry {R} _.
Arguments pm_pg {R} _.

Section fleet.
Context `{PgTypesLaws} `{!Postgres} `{!PostgresLaws} `{MillisFit}.
Context {R : Type} `{RetryPolicy R}.
(** Each member's connections have a schedule of their own. *)
Context (members : list (pg_member R * (nat → Step))).
Context (since : OffsetDateTime) (span : Z) (discarded : Uuid → Prop).
Context (acked0 : Uuid → Prop) (given_up0 : Uuid → string → Prop) (unreadable : Uuid → Prop).

Abbreviation pg_run := (sys Pg PostgresStoreError).
Abbreviation pg_mate := (pg_member R * (nat → Step))%type.
Implicit Types (mate : pg_mate) (s : pg_run) (d : Db).

Definition mate_store mate : OutboxStore Pg PostgresStoreError :=
  PostgresOutboxStore.PostgresStore mate.2 (pm_pg mate.1).
Definition mate_step mate (e : event Pg) s : option pg_run :=
  step (H1 := mate_store mate) (pm_settings mate.1) (pm_worker mate.1) (pm_retry mate.1) e s.
Definition mate_reachable mate s : Prop :=
  reachable (H1 := mate_store mate) (pm_settings mate.1) (pm_worker mate.1) (pm_retry mate.1) s.
Definition mate_ok mate : Prop :=
  settings_ok (pm_settings mate.1) ∧ is_Ok (WorkerId.parse (WorkerId.as_str (pm_worker mate.1)))
  ∧ ∀ n, within since span (at_ (mate.2 n)).

(** The database all share, and the run of each. *)
Record pg_fleet := mkPgFleet { shared_db : Db; pg_runs : list pg_run }.
Implicit Types (f : pg_fleet).

(** A member finds the table as the others left it, with no transaction of its own open. *)
Definition find_db d (clock : Z) s : pg_run :=
  mkSys (loop s) (at_phase s) (mkPg d None (tick (world s)) clock) (cancelled s) (log s).

(** A member takes a step - an iteration with its calls, a publish task - or something that is
    no dispatcher commits a transaction. *)
Inductive pg_fleet_step : relation pg_fleet :=
  | mate_steps f i mate s clock e s' :
      members !! i = Some mate → pg_runs f !! i = Some s → outside e = false →
      mate_step mate e (find_db (shared_db f) clock s) = Some s' →
      pg_fleet_step f (mkPgFleet (committed (world s')) (<[i := s']> (pg_runs f)))
  | elsewhere f d' :
      transactions since span discarded (λ _, False) (λ _ _, False) (shared_db f) d' →
      pg_fleet_step f (mkPgFleet d' (pg_runs f)).

(** The members before their first step. *)
Definition pg_fleet_start d : pg_fleet :=
  mkPgFleet d ((λ _, initial (mkPg d None 0 0)) <$> members).

(** Steps of members, by number, none of whose clocks moves. *)
Fixpoint mates_run (es : list (nat * event Pg)) f : option pg_fleet :=
  match es with
  | [] => Some f
  | (i, e) :: es =>
      if outside e then None
      else
        mate ← members !! i; s ← pg_runs f !! i;
        s' ← mate_step mate e (find_db (shared_db f) 0 s);
        mates_run es (mkPgFleet (committed (world s')) (<[i := s']> (pg_runs f)))
  end.

Lemma mates_run_steps es f f' : mates_run es f = Some f' → rtc pg_fleet_step f f'.
Proof.
  revert f; induction es as [|[i e] es IH]; intros f; cbn [mates_run]; [by intros [= ->]|].
  destruct (outside e) eqn:He; [done|].
  destruct (members !! i) as [mate|] eqn:Hm; cbn; [|done].
  destruct (pg_runs f !! i) as [s|] eqn:Hs; cbn; [|done].
  destruct (mate_step mate e _) as [s'|] eqn:Hst; cbn; [|done]. intros Hrun%IH.
  eapply rtc_l; [|exact Hrun]. by eapply mate_steps.
Qed.

(** ** What the fleet knows *)

Definition fleet_acked f (i : Uuid) : Prop :=
  acked0 i ∨ ∃ j s, pg_runs f !! j = Some s ∧ pg_acked (λ _, False) s i.
Definition fleet_given_up f (i : Uuid) (reason : string) : Prop :=
  given_up0 i reason
  ∨ ∃ j mate s, members !! j = Some mate ∧ pg_runs f !! j = Some s
      ∧ pg_given_up (pm_retry mate.1) (λ _ _, False) s i reason.

(** Logs only grow. *)
Definition fleet_knows f f' : Prop :=
  ∀ j s, pg_runs f !! j = Some s → ∃ s' a, pg_runs f' !! j = Some s' ∧ log s' = log s ++ a.

#[local] Instance fleet_knows_preorder : PreOrder fleet_knows.
Proof.
  split.
  - intros f j s Hs. exists s, []. by rewrite app_nil_r.
  - intros f1 f2 f3 H12 H23 j s Hs. destruct (H12 _ _ Hs) as (s2 & a & Hs2 & Ha).
    destruct (H23 _ _ Hs2) as (s3 & b & Hs3 & Hb). exists s3, (a ++ b).
    by rewrite Hb, Ha, app_assoc.
Qed.

Lemma fleet_knows_acked f f' i : fleet_knows f f' → fleet_acked f i → fleet_acked f' i.
Proof.
  intros Hk [Hi|(j & s & Hs & [[]|(m & Hm & Hi)])]; [by left|right].
  destruct (Hk _ _ Hs) as (s' & a & Hs' & Ha). exists j, s'. split; [done|]. right.
  exists m. split; [|done]. rewrite Ha. by apply acked_mono.
Qed.

Lemma fleet_knows_given_up f f' i reason :
  fleet_knows f f' → fleet_given_up f i reason → fleet_given_up f' i reason.
Proof.
  intros Hk [Hi|(j & mate & s & Hm & Hs & [[]|(en & n & k & x & items & it & Hn & Hr & Hin & Hrest)])];
    [by left|right].
  destruct (Hk _ _ Hs) as (s' & a & Hs' & Ha). exists j, mate, s'. split_and!; [done..|]. right.
  exists en, n, k, x, items, it. split_and!; try apply Hrest; try done.
  rewrite Ha. apply elem_of_app. by left.
Qed.

(** ** A step of a member *)

Context (Hmates : Forall mate_ok members).

Lemma mate_step_replays mate d clock e s s' :
  outside e = false → mate_step mate e (find_db d clock s) = Some s' →
  ∃ a, log s' = log s ++ a
    ∧ world s' = replay (H1 := mate_store mate) (pm_settings mate.1) (pm_worker mate.1) a
                   (mkPg d None (tick (world s)) clock).
Proof.
  intros He Hs. apply (step_replays (H1 := mate_store mate)) in Hs as (a & Hlog & Hw); [|done].
  exists a. by split.
Qed.

Lemma mate_step_reachable mate d clock e s s' :
  mate_reachable mate s → mate_step mate e (find_db d clock s) = Some s' → mate_reachable mate s'.
Proof.
  intros Hr Hs. eapply (reach_step (H1 := mate_store mate)); [|exact Hs].
  eapply (reach_step (H1 := mate_store mate) _ _ _ (EWorld (mkPg d None (tick (world s)) clock)));
    [exact Hr|].
  unfold mate_step, step in Hs. change (stopped (find_db d clock s)) with (stopped s) in Hs.
  unfold step. destruct (stopped s); [done|reflexivity].
Qed.

(** A property of tables that the transactions of others and the calls of the member keep. *)
Lemma mate_step_keeps (P : Db → Prop) mate d clock e s s' :
  mate_ok mate → outside e = false → mate_step mate e (find_db d clock s) = Some s' →
  (∀ n d, P d → P (others (mate.2 n) d)) →
  (∀ x o, x ∈ log s' → pg_call (pm_settings mate.1) (pm_worker mate.1) x = Some o →
     op_keeps P (within since span) any_error o) →
  P d → P (committed (world s')).
Proof.
  intros (_ & _ & Htime) He Hs Hothers Hcalls Hd.
  destruct (mate_step_replays _ _ _ _ _ _ He Hs) as (a & Hlog & ->).
  destruct (replay_holds mate.2 (pm_pg mate.1) (pm_settings mate.1) (pm_worker mate.1) P
    (within since span) a (mkPg d None (tick (world s)) clock)) as [HP _].
  - intros n. by split; [apply Hothers|apply Htime|].
  - intros x o Hx. apply Hcalls. rewrite Hlog. apply elem_of_app. by right.
  - by split.
  - exact HP.
Qed.

Lemma truthful_mono (A A' : Uuid → Prop) (G G' : Uuid → string → Prop) o :
  (∀ i, A i → A' i) → (∀ i reason, G i reason → G' i reason) →
  truthful_write A G o → truthful_write A' G' o.
Proof. intros HA HG. destruct o; cbn; eauto. Qed.

(** ** What the table says *)

(** The transactions that commit while a call of a member is under way are those of the fleet
    and of the others. *)
Definition interleaved f : Prop :=
  ∀ mate n d, mate ∈ members →
    transactions since span discarded (fleet_acked f) (fleet_given_up f) d (others (mate.2 n) d).

Record fleet_ok (A : Uuid → Prop) (G : Uuid → string → Prop) f : Prop := {
  fo_table : honest_table A G unreadable (shared_db f);
  fo_length : length (pg_runs f) = length members;
  fo_runs i mate s : members !! i = Some mate → pg_runs f !! i = Some s → mate_reachable mate s;
}.

Lemma mate_in i mate : members !! i = Some mate → mate ∈ members ∧ mate_ok mate.
Proof. intros Hm. split; [by eapply list_elem_of_lookup_2|by eapply Forall_lookup_1]. Qed.

Lemma fleet_step_knows f f' : pg_fleet_step f f' → fleet_knows f f'.
Proof.
  intros Hstep j sj Hj. destruct Hstep as [f i mate s clock e s' Hm Hs He Hst|f d' _]; cbn.
  - destruct (mate_step_replays _ _ _ _ _ _ He Hst) as (a & Hlog & _). destruct (decide (j = i)) as [->|Hne].
    + exists s', a. rewrite list_lookup_insert_eq by by eapply lookup_lt_Some. by simplify_eq.
    + exists sj, []. rewrite list_lookup_insert_ne by done. by rewrite app_nil_r.
  - exists sj, []. by rewrite app_nil_r.
Qed.

Lemma fleet_run_knows f f' : rtc pg_fleet_step f f' → fleet_knows f f'.
Proof.
  induction 1 as [f|f f1 f' Hs _ IH]; [done|]. trans f1; [by apply fleet_step_knows|done].
Qed.

(** What a member writes is what the fleet knows in the end. *)
Lemma mate_call_truthful F f' i mate s' x o :
  fleet_knows f' F → members !! i = Some mate → pg_runs f' !! i = Some s' → mate_reachable mate s' →
  x ∈ log s' → pg_call (pm_settings mate.1) (pm_worker mate.1) x = Some o →
  truthful_write (fleet_acked F) (fleet_given_up F) o.
Proof.
  intros Hknows Hm Hs' Hr' Hx Ho. destruct (mate_in _ _ Hm) as [_ (Hok & Hw & _)].
  eapply truthful_mono; [| |by eapply (call_truthful mate.2 (pm_pg mate.1) _ _ (pm_retry mate.1)
    (λ _, False) (λ _ _, False) s')].
  - intros j Hj. apply (fleet_knows_acked _ _ _ Hknows). right. by exists i, s'.
  - intros j reason Hj. apply (fleet_knows_given_up _ _ _ _ Hknows). right. by exists i, mate, s'.
Qed.

Lemma fleet_step_ok F f f' :
  interleaved F → fleet_knows f' F → fleet_ok (fleet_acked F) (fleet_given_up F) f →
  pg_fleet_step f f' → fleet_ok (fleet_acked F) (fleet_given_up F) f'.
Proof.
  intros HF Hknows [Hd Hlen Hruns] Hstep.
  destruct Hstep as [f i mate s clock e s' Hm Hs He Hst|f d' Ht].
  - destruct (mate_in _ _ Hm) as [Hin Hmok].
    pose proof (mate_step_reachable _ _ _ _ _ _ (Hruns _ _ _ Hm Hs) Hst) as Hr'.
    assert (Hi : (i < length (pg_runs f))%nat) by by eapply lookup_lt_Some.
    split; cbn; [|by rewrite length_insert|].
    + eapply mate_step_keeps; [exact Hmok|exact He|exact Hst| | |exact Hd].
      * intros n d. apply transactions_honest with (A := fleet_acked F) (G := fleet_given_up F)
          (since := since) (span := span) (discarded := discarded); [done|done|by apply HF].
      * intros x o Hx Ho. apply (op_keeps_weaken _ (λ _, True)); [done|]. apply op_tells.
        eapply mate_call_truthful; [exact Hknows|exact Hm| |exact Hr'|exact Hx|exact Ho].
        cbn. by rewrite list_lookup_insert_eq.
    + intros j mj sj Hj Hsj. destruct (decide (j = i)) as [->|Hne].
      * rewrite list_lookup_insert_eq in Hsj by done. by simplify_eq.
      * rewrite list_lookup_insert_ne in Hsj by done. by eapply Hruns.
  - split; cbn; [|done|done].
    eapply (transactions_honest since span discarded unreadable (λ _, False) _ (λ _ _, False));
      [done|done|exact Ht|exact Hd].
Qed.

Lemma fleet_run_ok F f f' :
  interleaved F → rtc pg_fleet_step f f' → fleet_knows f' F →
  fleet_ok (fleet_acked F) (fleet_given_up F) f → fleet_ok (fleet_acked F) (fleet_given_up F) f'.
Proof.
  intros HF. induction 1 as [f|f f1 f' Hs Hrun IH]; [done|]. intros Hk Hok.
  apply IH; [done|]. eapply fleet_step_ok; [done| |done|done].
  trans f'; [by apply fleet_run_knows|done].
Qed.

Lemma fleet_start_ok A G d : honest_table A G unreadable d → fleet_ok A G (pg_fleet_start d).
Proof.
  intros Hd. split; cbn; [done|by rewrite length_fmap|].
  intros i mate s Hm Hs. apply list_lookup_fmap_Some in Hs as (mate' & -> & _).
  apply (reach_initial (H1 := mate_store mate)).
Qed.

Lemma start_honest f d :
  honest_table acked0 given_up0 unreadable d →
  honest_table (fleet_acked f) (fleet_given_up f) unreadable d.
Proof.
  intros [Htidy Hrows]. split; [done|]. eapply Forall_impl; [exact Hrows|].
  intros r. apply (honest_mono acked0 given_up0); intros; by left.
Qed.

(** ** And a message stays *)

Lemma fleet_step_kept F f f' message :
  interleaved F → ¬ discarded (r_id message) → pg_fleet_step f f' →
  kept (message_of message) since (shared_db f) → kept (message_of message) since (shared_db f').
Proof.
  intros HF Hkeep Hstep. destruct Hstep as [f i mate s clock e s' Hm Hs He Hst|f d' Ht].
  - destruct (mate_in _ _ Hm) as [Hin Hmok].
    eapply mate_step_keeps; [exact Hmok|exact He|exact Hst| |].
    + intros n d. eapply transactions_kept; [exact Hkeep|by apply HF].
    + intros x o _ Ho. by eapply op_retains, call_spares.
  - cbn. eapply transactions_kept; [exact Hkeep|exact Ht].
Qed.

Lemma fleet_run_kept F f f' message :
  interleaved F → ¬ discarded (r_id message) → rtc pg_fleet_step f f' →
  kept (message_of message) since (shared_db f) → kept (message_of message) since (shared_db f').
Proof.
  intros HF Hkeep. induction 1 as [f|f f1 f' Hs _ IH]; [done|]. intros Hk.
  apply IH. by eapply fleet_step_kept.
Qed.

(** ** Properties *)


(** C3 [safety] On Postgres no message is lost.  In such a fleet, from any moment at which a row
    is unresolved, and for a span that the retentions of the purges outlast, the table holds
    a row with its id, sequence, payload, headers and metadata, unless an operator discards
    it by its id; and that row is still pending, or it was acknowledged by the broker, or it
    is dead and records why: it expired, it cannot be read, or it was given up. *)
Theorem pg_fleet_loses_nothing (d : Db) (f f' : pg_fleet) (r : Row)
    (Hd : honest_table acked0 given_up0 unreadable d)
    (Hrun : rtc pg_fleet_step (pg_fleet_start d) f) (Hrun' : rtc pg_fleet_step f f')
    (HF : interleaved f') (Hr : r ∈ table (shared_db f)) (Hkeep : ¬ discarded (row_id r))
    (Hp : r_published_at (raw r) = None) (Hdead : r_dead_at (raw r) = None) :
  ∃ r', r' ∈ table (shared_db f') ∧ message_of (raw r') = message_of (raw r)
    ∧ (r_published_at (raw r') = None ∧ r_dead_at (raw r') = None
       ∨ fleet_acked f' (row_id r)
       ∨ ∃ t reason, r_dead_at (raw r') = Some t ∧ r_dead_reason (raw r') = Some reason
           ∧ (reason = encode_dead_reason Expired ∧ (∃ u, r_expires_at (raw r) = Some u ∧ u < t)
              ∨ reason = encode_dead_reason Undecodable ∧ unreadable (row_id r)
              ∨ fleet_given_up f' (row_id r) reason)).
Proof.
  destruct (fleet_run_kept f' f f' (raw r) HF Hkeep Hrun') as (r' & Hr' & [Hm _ _]).
  { exists r. split; [done|]. split; [done|by rewrite Hp|by rewrite Hdead]. }
  destruct (fleet_run_ok f' (pg_fleet_start d) f' HF) as [[_ Ht] _ _]; [by etrans|done| |].
  { by apply fleet_start_ok, start_honest. }
  rewrite Forall_forall in Ht. destruct (Ht _ Hr') as [Hpub Hdd _ _].
  exists r'. split; [done|]. split; [done|].
  assert (Hid : r_id (raw r') = row_id r) by exact (f_equal r_id Hm).
  assert (Hexp : r_expires_at (raw r') = r_expires_at (raw r)) by exact (f_equal r_expires_at Hm).
  rewrite Hid in Hpub, Hdd. rewrite Hexp in Hdd.
  destruct (r_published_at (raw r')) as [t|]; [right; left; by apply Hpub|].
  destruct (r_dead_at (raw r')) as [t|] eqn:Et; [|by left].
  right; right. destruct (Hdd t eq_refl) as (reason & Hreason & Hwhy). by exists t, reason.
Qed.
End fleet.

(** ** Two workers on the sample table

    The first claims the order and buries the row it cannot read, publishes the order and
    writes the outcome; the second, which holds a lease of its own, finds nothing to claim;
    then a purge spares what was published a moment ago. *)

#[local] Existing Instances plain_json plain_json_laws plain_postgres plain_postgres_laws default_time_range default_millis_fit.

Definition two_mates : list (pg_member ExponentialBackoff.t * (nat → Step)) :=
  [(mkPgMember run_settings (WorkerId.mk "w1") run_retry PostgresOutboxSettings.default, quiet);
   (mkPgMember run_settings (WorkerId.mk "w3") run_retry PostgresOutboxSettings.default, quiet)].

Lemma two_mates_ok : Forall (mate_ok 100 1000) two_mates.
Proof.
  repeat (apply Forall_cons_2; [|]); [..|constructor].
  all: split; [exact run_settings_ok|]. all: split; [vm_compute; by eexists|intros n; split; cbn; lia].
Qed.

Definition two_start : pg_fleet := pg_fleet_start two_mates sample_db.
Definition two_published : pg_fleet :=
  default two_start (mates_run two_mates ((λ e, (0%nat, e)) <$> pg_events) two_start).
Definition two_end : pg_fleet :=
  default two_start (mates_run two_mates [(1%nat, EIterate NotSent BPoll seen_all)] two_published).

Lemma default_Some {A} (o : option A) x :
  match o with Some _ => true | None => false end = true → o = Some (default x o).
Proof. by destruct o. Qed.

Lemma two_published_run : rtc (pg_fleet_step two_mates 100 1000 (λ _, False)) two_start two_published.
Proof. eapply mates_run_steps, default_Some. vm_compute. reflexivity. Qed.

Lemma two_end_run : rtc (pg_fleet_step two_mates 100 1000 (λ _, False)) two_published two_end.
Proof. eapply mates_run_steps, default_Some. vm_compute. reflexivity. Qed.

Lemma two_interleaved f : interleaved two_mates 100 1000 (λ _, False) (λ _, False) (λ _ _, False) f.
Proof.
  intros mate n d Hm. unfold two_mates in Hm. rewrite !elem_of_cons, elem_of_nil in Hm.
  by destruct Hm as [->|[->|[]]].
Qed.

(** The order's row, in the end. *)
Definition two_row : Row := default leased_row (head (table (shared_db two_published))).
Lemma two_row_in : two_row ∈ table (shared_db two_published).
Proof.
  assert (Hne : bool_decide (table (shared_db two_published) = []) = false) by (vm_compute; reflexivity).
  unfold two_row. apply bool_decide_eq_false in Hne.
  destruct (table (shared_db two_published)) as [|r rest]; [by destruct Hne|left].
Qed.


(** A purge that keeps an hour. *)
Definition hour_purge (d : Db) : option Db :=
  match purge_published_rows (millis_i64 (from_secs 3600)) 10 100 (λ _, false) d with
  | Ok (d', _) => Some d' | Err _ => None end.
Definition two_purged : pg_fleet :=
  mkPgFleet (default (shared_db two_end) (hour_purge (shared_db two_end))) (pg_runs two_end).

Lemma two_purged_run : rtc (pg_fleet_step two_mates 100 1000 (λ _, False)) two_start two_purged.
Proof.
  etrans; [exact two_published_run|]. etrans; [exact two_end_run|]. apply rtc_once. apply elsewhere.
  assert (Hn : within 100 1000 100) by (split; lia).
  assert (Hk : outlasts 1000 (Some (from_secs 3600))).
  { intros keep [= <-]. split; vm_compute; discriminate. }
  generalize (shared_db two_end). intros d. cbn [shared_db two_purged]. unfold hour_purge. destruct (purge_published_rows _ _ _ _ _) as [[d' n]|e] eqn:Hq; [|apply rtc_refl].
  apply rtc_once. exists 100. split; [exact Hn|].
  apply (sent_purge_published _ _ _ _ _ (from_secs 3600) 10); [exact Hk|]. by exists (λ _, false), n.
Qed.

Lemma pg_fleet_loses_nothing_witness :
  ∃ r', r' ∈ table (shared_db two_purged) ∧ message_of (raw r') = message_of (order_row 1)
    ∧ r_payload (raw r') = [Byte.x01].
Proof.
  destruct (pg_fleet_loses_nothing two_mates 100 1000 (λ _, False) (λ _, False) (λ _ _, False) (λ i, i = 2)
    two_mates_ok sample_db two_start two_purged (mkRow (order_row 1) 9)) as (r' & Hin & Hm & _).
  - exact sample_honest.
  - apply rtc_refl.
  - exact two_purged_run.
  - apply two_interleaved.
  - left.
  - intros [].
  - reflexivity.
  - reflexivity.
  - exists r'. split; [exact Hin|]. split; [exact Hm|]. exact (f_equal r_payload Hm).
Defined.
