(* ===== verification/PgEnqueue.v ===== *)
(** * Enqueueing in the caller's transaction, and connecting ([reliar-store-postgres], store.rs)

    [enqueue] and [stage] run their statements on a transaction that is the application's:
    its [search_path] decides which schema's [outbox] is written, a failed statement aborts
    it, and everything in it is undone with it.  [connect] looks at the schemas through the
    pool's own path. *)

From S2P Require Import Prelude RustString CoreTypes CoreHeaders CoreEnvelope OutboxTypes OutboxSettings PgErrors PgRecords PgRoundtrip PgTable PgTableInv PgStoreThms.

(** ** A session *)

(** The first schema of a [search_path] that has an [outbox].  An unquoted name in the text
    of the path is folded to lower case. *)
Class SearchPath := resolve : string → (string → bool) → option string.

Definition undefined_table : SqlxError := DatabaseError (Some "42P01") None.
Definition in_failed_sql_transaction : SqlxError := DatabaseError (Some "25P02") None.

Section session.
Context `{Postgres} `{SearchPath}.

(** The outbox of each schema that has one, as this transaction sees it; its [search_path]
    and [now()]; whether it is aborted; and what goes wrong with the coming statements
    before the database answers. *)
Record Session := mkSession {
  catalog : gmap string Db;
  path : string;
  session_now : OffsetDateTime;
  aborted : bool;
  faults : list (option SqlxError);
}.
Implicit Types c : Session.

Definition has_outbox c (schema : string) : bool := bool_decide (is_Some (catalog c !! schema)).

Definition C (A : Type) : Type := Session → Session * result A SqlxError.
#[local] Instance C_ret : MRet C := λ A a c, (c, Ok a).
#[local] Instance C_bind : MBind C := λ A B k m c,
  match m c with (c, Ok a) => k a c | (c, Err e) => (c, Err e) end.

Definition abort c : Session := mkSession (catalog c) (path c) (session_now c) true (faults c).
Definition next_fault c : option SqlxError * Session :=
  match faults c with
  | f :: fs => (f, mkSession (catalog c) (path c) (session_now c) (aborted c) fs)
  | [] => (None, c)
  end.

(** One statement: refused in an aborted transaction, which a failure aborts. *)
Definition statement {A} (f : Session → Session * result A SqlxError) : C A := λ c,
  if aborted c then (c, Err in_failed_sql_transaction)
  else
    let '(fault, c) := next_fault c in
    match fault with
    | Some e => (abort c, Err e)
    | None => match f c with (c', Ok a) => (c', Ok a) | (_, Err e) => (abort c, Err e) end
    end.

Definition set_path (p : string) c : Session :=
  mkSession (catalog c) p (session_now c) (aborted c) (faults c).

(** ** Enqueueing *)

(* src: pg/store.rs 321-334 set_search_path *)
Definition set_search_path (schema : string) : C string :=
  previous ← statement (λ c, (c, Ok (path c)));
  let wanted := schema +:+ ",public" in
  _ ← statement (λ c, (set_path wanted c, Ok ()));
  mret previous.

(* src: pg/store.rs 336-344 restore_search_path *)
Definition restore_search_path (previous : string) : C () :=
  statement (λ c, (set_path previous c, Ok ())).

(** The [INSERT] into the [outbox] the path resolves to. *)
(* src: pg/store.rs 351-450 insert_row *)
Definition insert_into_outbox {T} (e : Envelope.t T) (payload : Bytes) (content_type : ContentType.t)
    (options : EnqueueOptions) : C () :=
  statement (λ c,
    match resolve (path c) (has_outbox c) with
    | None => (c, Err undefined_table)
    | Some schema =>
        match catalog c !! schema with
        | None => (c, Err undefined_table)
        | Some d =>
            match insert_row e payload content_type options (session_now c) (λ _, false) d with
            | Ok (d, _) => (mkSession (<[schema := d]> (catalog c)) (path c) (session_now c) (aborted c)
                              (faults c), Ok ())
            | Err err => (c, Err err)
            end
        end
    end).

Context (settings : PostgresOutboxSettings.t).

(* src: pg/store.rs 287-314 insert_staged *)
Definition insert_staged {T} (e : Envelope.t T) (payload : Bytes) (content_type : ContentType.t)
    (options : EnqueueOptions) : C () :=
  restore ← (if PostgresOutboxSettings.enqueue_sets_search_path settings
             then previous ← set_search_path (PostgresOutboxSettings.schema settings); mret (Some previous)
             else mret None);
  _ ← insert_into_outbox e payload content_type options;
  match restore with
  | Some previous => restore_search_path previous
  | None => mret ()
  end.

Definition run_enqueue {E} (id : MessageId.t) (m : C ()) (c : Session)
  : Session * result MessageId.t (EnqueueError.t E) :=
  match m c with
  | (c, Ok _) => (c, Ok id)
  | (c, Err source) => (c, Err (map_enqueue_error id source))
  end.

(** The store's [Serializer]: what it makes of a body, and its content type. *)
Context {T SE : Type} (serialize : T → result Bytes SE) (serializer_content_type : ContentType.t).

(* src: pg/store.rs 196-203 PostgresOutboxStore::content_type *)
Definition content_type : ContentType.t := serializer_content_type.

(* src: pg/store.rs 256-278 PostgresOutboxStore::enqueue_with *)
Definition enqueue_with (e : Envelope.t T) (options : EnqueueOptions) (c : Session)
  : Session * result MessageId.t (EnqueueError.t SE) :=
  match serialize (Envelope.body e) with
  | Err source => (c, Err (EnqueueError.Serialize source))
  | Ok payload => run_enqueue (Envelope.id e) (insert_staged e payload content_type options) c
  end.

(* src: pg/store.rs 241-248 PostgresOutboxStore::enqueue *)
Definition enqueue (e : Envelope.t T) : Session → Session * result MessageId.t (EnqueueError.t SE) :=
  enqueue_with e EnqueueOptions_default.

(** [Infallible] is the empty type. *)
(* src: pg/store.rs 492-510 PostgresOutboxStore::stage *)
Definition stage (e : SerializedEnvelope) : Session → Session * result MessageId.t (EnqueueError.t Empty_set) :=
  run_enqueue (Envelope.id e)
    (insert_staged e (Envelope.body e)
       (DeliveryMetadata.content_type (Metadata.delivery (Envelope.metadata e))) EnqueueOptions_default).

(** ** Connecting *)

(* src: pg/store.rs 88-92 SchemaCheck *)
Record SchemaCheck := mkSchemaCheck {
  resolved_schema : option string;
  configured_exists : bool;
  search_path : string;
}.

Definition C_map_err {A E} (f : SqlxError → E) (m : C A) (c : Session) : Session * result A E :=
  let '(c, r) := m c in (c, map_err f r).

(** [to_regclass] of an unquoted name folds it to lower case. *)
(* src: pg/store.rs 94-122 verify_schema *)
Definition verify_schema (schema : string) : Session → Session * result SchemaCheck PostgresStoreError :=
  C_map_err (λ err, if is_undefined_table err then NotMigrated schema else Database err)
    (statement (λ c, (c, Ok (mkSchemaCheck (resolve (path c) (has_outbox c))
                               (has_outbox c (to_ascii_lowercase schema)) (path c))))).

(* src: pg/store.rs 126-139 other_outbox_schemas *)
Definition other_outbox_schemas (schema : string)
  : Session → Session * result (list string) PostgresStoreError :=
  C_map_err Database
    (statement (λ c, (c, Ok (filter (λ s, s ≠ schema) (map_to_list (catalog c)).*1)))).

(** The store keeps the settings it was connected with; other schemas are only logged. *)
(* src: pg/store.rs 153-194 PostgresOutboxStore::connect *)
Definition connect (c : Session) : Session * result PostgresOutboxSettings.t PostgresStoreError :=
  let schema := PostgresOutboxSettings.schema settings in
  if negb (is_valid_schema_name schema) then (c, Err (InvalidSchema schema))
  else
    match verify_schema schema c with
    | (c, Err e) => (c, Err e)
    | (c, Ok check) =>
        if negb (bool_decide (resolved_schema check = Some schema)) then
          if negb (configured_exists check) then (c, Err (NotMigrated schema))
          else (c, Err (SchemaResolution schema (search_path check)))
        else
          match other_outbox_schemas schema c with
          | (c, Err e) => (c, Err e)
          | (c, Ok _) => (c, Ok settings)
          end
    end.
End session.

Section connect.
Context `{Postgres} `{SearchPath}.

(* src: pg/store.rs 530-535 PostgresOutboxStore::with_settings *)
Definition with_settings (settings : PostgresOutboxSettings.t) : Session → Session * result PostgresOutboxSettings.t PostgresStoreError :=
  connect settings.
(* src: pg/store.rs 520-522 PostgresOutboxStore::new *)
Definition new : Session → Session * result PostgresOutboxSettings.t PostgresStoreError :=
  connect PostgresOutboxSettings.default.
End connect.

(** ** What enqueueing does *)

Section facts.
Context `{Postgres} `{SearchPath}.
Implicit Types c : Session.

#[local] Existing Instance C_ret.
#[local] Existing Instance C_bind.

(** The sequences in use are behind the identity column. *)
Definition sequenced (d : Db) : Prop := ∀ r, r ∈ table d → row_sequence r < next_sequence d.

Lemma staged_row_sound {T} (e : Envelope.t T) payload ct options seq now :
  0 ≤ MessageType.version (Envelope.message_type e) → row_ok (staged_row e payload ct options seq now).
Proof. intros Hv. by split; [split|]; cbn; try lia; auto. Qed.

Lemma insert_row_fresh {T} (e : Envelope.t T) payload ct options now lk d :
  0 ≤ MessageType.version (Envelope.message_type e) → sequenced d →
  MessageId.as_uuid (Envelope.id e) ∉ row_id <$> table d →
  ∃ d', insert_row e payload ct options now lk d = Ok (d', ())
    ∧ table d' = table d ++ [mkRow (staged_row e payload ct options (next_sequence d) now) now].
Proof.
  intros Hv Hseq Hid. unfold insert_row. cbn zeta. set (r := mkRow _ now).
  destruct (write_sound (table d ++ [r]) (next_sequence d + 1)) as (d' & -> & Ht & _); [|by exists d'].
  apply broken_None. rewrite !fmap_app. split_and!.
  - apply NoDup_app. split; [apply sound_ids|]. split; [|apply NoDup_singleton].
    intros x Hx ->%list_elem_of_singleton. by apply Hid.
  - apply NoDup_app. split; [apply sound_sequences|]. split; [|apply NoDup_singleton].
    intros x Hx ->%list_elem_of_singleton. apply list_elem_of_fmap in Hx as (r' & Hr' & Hin).
    specialize (Hseq r' Hin). cbn in Hr'. unfold row_sequence in *. cbn in Hr'. lia.
  - apply Forall_app. split; [apply sound_rows|]. constructor; [|constructor]. by apply staged_row_sound.
Qed.

Lemma insert_row_duplicate {T} (e : Envelope.t T) payload ct options now lk d :
  MessageId.as_uuid (Envelope.id e) ∈ row_id <$> table d →
  insert_row e payload ct options now lk d = Err pk_violation.
Proof.
  intros Hid. unfold insert_row. cbn zeta. set (r := mkRow _ now).
  pose proof (write_spec (table d ++ [r]) (next_sequence d + 1)) as Hw.
  assert (Hb : broken (table d ++ [r]) = Some pk_violation).
  { unfold broken. rewrite bool_decide_eq_false_2; [done|]. rewrite fmap_app. intros Hnd%NoDup_app.
    destruct Hnd as (_ & Hd & _). apply (Hd _ Hid). by apply list_elem_of_singleton. }
  destruct (write _ _); cbn; [|congruence]. exfalso.
  pose proof (sound a) as Hs. destruct Hw as [Hw _]. rewrite Hw, Hb in Hs. done.
Qed.

(** An enqueued row carries no lease: the application keeps leased rows pending. *)
Lemma insert_row_tidy {T} (e : Envelope.t T) payload ct options now lk d d' u :
  insert_row e payload ct options now lk d = Ok (d', u) → tidy d → tidy d'.
Proof.
  unfold insert_row. cbn zeta. destruct (write _ _) as [d1|] eqn:Ew; cbn; [|done]. intros [= <- _] Ht.
  apply write_inv in Ew as [Hl _]. unfold tidy. rewrite Hl. apply Forall_app. split; [done|].
  constructor; [|constructor]. by intros [].
Qed.

(** ** Sessions under statements *)

(** A statement that failed has aborted the session; one that ran left it running. *)
Definition settles {A} (m : C A) (R : Session → A → Session → Prop) : Prop := ∀ c, aborted c = false →
  match m c with
  | (c', Ok a) => aborted c' = false ∧ R c a c'
  | (c', Err _) => aborted c' = true
  end.

Lemma settles_ret {A} (a : A) : settles (mret a) (λ c b c', b = a ∧ c' = c).
Proof. by intros c Hc. Qed.

Lemma settles_bind {A B} (m : C A) (k : A → C B) R S :
  settles m R → (∀ a, settles (k a) (S a)) →
  settles (m ≫= k) (λ c b c', ∃ a c1, R c a c1 ∧ S a c1 b c').
Proof.
  intros Hm Hk c Hc. unfold mbind, C_bind. specialize (Hm c Hc). destruct (m c) as [c1 [a|e]]; [|done].
  destruct Hm as [Hc1 HR]. specialize (Hk a c1 Hc1). destruct (k a c1) as [c' [b|e]]; [|done].
  destruct Hk as [Hc' HS]. eauto.
Qed.

Lemma settles_weaken {A} (m : C A) (R S : Session → A → Session → Prop) :
  (∀ c a c', R c a c' → S c a c') → settles m R → settles m S.
Proof. intros HRS Hm c Hc. specialize (Hm c Hc). destruct (m c) as [c' [a|e]]; naive_solver. Qed.

(** What statements do besides going through the faults. *)
Definition same_session c c' : Prop :=
  catalog c' = catalog c ∧ path c' = path c ∧ session_now c' = session_now c.

Lemma settles_statement {A} (f : Session → Session * result A SqlxError) (R : Session → A → Session → Prop) :
  (∀ c, aborted c = false → match f c with (c', Ok a) => aborted c' = false ∧ R c a c' | (_, Err _) => True end) →
  settles (statement f) (λ c a c', ∃ c0, same_session c c0 ∧ R c0 a c').
Proof.
  intros Hf c Hc. unfold statement. rewrite Hc.
  assert (Hnext : same_session c (next_fault c).2 ∧ aborted (next_fault c).2 = false).
  { unfold next_fault. by destruct (faults c). }
  destruct (next_fault c) as [[e|] c0]; [done|]. cbn in Hnext. destruct Hnext as [Hs Ha].
  specialize (Hf c0 Ha). destruct (f c0) as [c' [a|e]]; [|done]. destruct Hf. eauto.
Qed.

(** The [INSERT] went to the outbox the path resolves to. *)
Definition inserted {T} (e : Envelope.t T) payload ct options c c' : Prop :=
  ∃ schema d d',
    resolve (path c) (has_outbox c) = Some schema ∧ catalog c !! schema = Some d
    ∧ catalog c' = <[schema := d']> (catalog c)
    ∧ table d' = table d ++ [mkRow (staged_row e payload ct options (next_sequence d) (session_now c))
                               (session_now c)].

Lemma settles_insert {T} (e : Envelope.t T) payload ct options :
  settles (insert_into_outbox e payload ct options)
    (λ c _ c', inserted e payload ct options c c' ∧ path c' = path c).
Proof.
  eapply settles_weaken; [|apply (settles_statement _ (λ c _ c', inserted e payload ct options c c' ∧ path c' = path c))].
  - intros c a c' (c0 & (Hcat & Hp & Hn) & Hins & Hp'). split; [|congruence].
    destruct Hins as (schema & d & d' & Hres & Hd & Hc' & Ht). exists schema, d, d'.
    unfold has_outbox in *. rewrite Hcat, Hp, Hn in *. done.
  - intros c Hc. destruct (resolve _ _) as [schema|] eqn:Er; [|done].
    destruct (catalog c !! schema) as [d|] eqn:Ed; [|done]. unfold insert_row. cbn zeta.
    destruct (write _ _) as [d'|err] eqn:Ew; cbn; [|done]. apply write_inv in Ew as [Ht _].
    split; [done|]. split; [|done]. by exists schema, d, d'.
Qed.

Lemma settles_set_search_path schema :
  settles (set_search_path schema)
    (λ c p c', p = path c ∧ catalog c' = catalog c ∧ session_now c' = session_now c
               ∧ path c' = schema +:+ ",public").
Proof.
  eapply settles_weaken; [|eapply settles_bind; [|intros p; eapply settles_bind; [|intros u; apply settles_ret]]].
  2:{ apply (settles_statement _ (λ c p c', p = path c ∧ c' = c)). by intros c Hc. }
  2:{ apply (settles_statement _ (λ c _ c', c' = set_path (schema +:+ ",public") c)). by intros c Hc. }
  cbn. intros c b c' (p & c1 & (c0 & (Hc0 & Hp0 & Hn0) & -> & ->) & u & c2 & (c3 & (Hc3 & Hp3 & Hn3) & ->) & -> & ->).
  cbn. split_and!; congruence.
Qed.

Lemma settles_restore previous :
  settles (restore_search_path previous) (λ c _ c', catalog c' = catalog c ∧ path c' = previous).
Proof.
  eapply settles_weaken; [|apply (settles_statement _ (λ c _ c', c' = set_path previous c)); by intros c Hc].
  cbn. intros c _ c' (c0 & (Hcat & _ & _) & ->). done.
Qed.

(** The path the [INSERT] runs under, and where the row ends up. *)
Definition effective_path (settings : PostgresOutboxSettings.t) c : string :=
  if PostgresOutboxSettings.enqueue_sets_search_path settings
  then PostgresOutboxSettings.schema settings +:+ ",public" else path c.

Definition lands {T} (settings : PostgresOutboxSettings.t) (e : Envelope.t T) payload ct options c c' : Prop :=
  path c' = path c ∧ inserted e payload ct options (set_path (effective_path settings c) c) c'.

Lemma inserted_congr {T} (e : Envelope.t T) payload ct options c1 c2 c' c'' :
  catalog c1 = catalog c2 → path c1 = path c2 → session_now c1 = session_now c2 →
  catalog c' = catalog c'' → inserted e payload ct options c1 c' → inserted e payload ct options c2 c''.
Proof.
  intros Hc Hp Hn Hc' (schema & d & d' & Hres & Hd & Hcat & Ht). exists schema, d, d'.
  unfold has_outbox in *. rewrite <-Hc, <-Hp, <-Hn, <-Hc'. done.
Qed.

Lemma settles_insert_staged {T} settings (e : Envelope.t T) payload ct options :
  settles (insert_staged settings e payload ct options) (λ c _ c', lands settings e payload ct options c c').
Proof.
  intros c Hc. unfold insert_staged, lands, effective_path.
  destruct (PostgresOutboxSettings.enqueue_sets_search_path settings); unfold mbind, C_bind; cbv beta.
  - pose proof (settles_set_search_path (PostgresOutboxSettings.schema settings) c Hc) as H1'.
    destruct (set_search_path _ c) as [c1 [p|err]]; [|done]. destruct H1' as (Ha1 & -> & Hcat1 & Hn1 & Hp1).
    unfold mret, C_ret. pose proof (settles_insert e payload ct options c1 Ha1) as H2'.
    destruct (insert_into_outbox e payload ct options c1) as [c2 [u|err]]; [|done].
    destruct H2' as (Ha2 & Hins & Hp2). pose proof (settles_restore (path c) c2 Ha2) as H3'.
    destruct (restore_search_path (path c) c2) as [c3 [u'|err]]; [|done].
    destruct H3' as (Ha3 & Hcat3 & Hp3). split; [done|]. split; [done|].
    by eapply inserted_congr; [..|exact Hins].
  - unfold mret, C_ret. pose proof (settles_insert e payload ct options c Hc) as H2'.
    destruct (insert_into_outbox e payload ct options c) as [c2 [u|err]]; [|done].
    destruct H2' as (Ha2 & Hins & Hp2). split; [done|]. split; [done|].
    by eapply inserted_congr; [..|exact Hins].
Qed.

(** C11 [safety] Enqueueing is atomic with the caller's transaction, whatever fails: an
    [enqueue_with] that answers has appended exactly the envelope's row - under the store's
    content type, with a fresh sequence - to the outbox its [search_path] resolves to, and
    left the caller's [search_path] as it was; one that fails to serialize has touched
    nothing; and any other failure leaves the transaction aborted, so that nothing of it is
    ever committed.  [Duplicate] names the message itself. *)
Theorem enqueue_atomic {T SE} (settings : PostgresOutboxSettings.t) (serialize : T → result Bytes SE)
    (ct : ContentType.t) (e : Envelope.t T) (options : EnqueueOptions) (c : Session)
    (Hc : aborted c = false) :
  match enqueue_with settings serialize ct e options c with
  | (c', Ok id) =>
      id = Envelope.id e ∧ aborted c' = false
      ∧ ∃ payload, serialize (Envelope.body e) = Ok payload ∧ lands settings e payload ct options c c'
  | (c', Err (EnqueueError.Serialize err)) => serialize (Envelope.body e) = Err err ∧ c' = c
  | (c', Err (EnqueueError.Duplicate id)) => id = Envelope.id e ∧ aborted c' = true
  | (c', Err (EnqueueError.Database _)) => aborted c' = true
  end.
Proof.
  unfold enqueue_with, run_enqueue, content_type. destruct (serialize _) as [payload|err]; [|done].
  pose proof (settles_insert_staged settings e payload ct options c Hc) as Hs.
  destruct (insert_staged settings e payload ct options c) as [c' [u|err]].
  - destruct Hs. eauto.
  - unfold map_enqueue_error. by destruct (is_constraint_violation err "pk_outbox").
Qed.

(** The outbox an undisturbed enqueue writes to. *)
Definition target (settings : PostgresOutboxSettings.t) c : option string :=
  resolve (effective_path settings c) (has_outbox c).

Lemma statement_runs {A} (f : Session → Session * result A SqlxError) c :
  aborted c = false → faults c = [] →
  statement f c = match f c with (c', Ok a) => (c', Ok a) | (_, Err e) => (abort c, Err e) end.
Proof. intros Ha Hf. unfold statement, next_fault. by rewrite Ha, Hf. Qed.

Lemma insert_runs {T} (e : Envelope.t T) payload ct options c schema d :
  aborted c = false → faults c = [] → resolve (path c) (has_outbox c) = Some schema →
  catalog c !! schema = Some d → 0 ≤ MessageType.version (Envelope.message_type e) → sequenced d →
  if bool_decide (MessageId.as_uuid (Envelope.id e) ∈ row_id <$> table d)
  then insert_into_outbox e payload ct options c = (abort c, Err pk_violation)
  else ∃ d', insert_into_outbox e payload ct options c
             = (mkSession (<[schema := d']> (catalog c)) (path c) (session_now c) (aborted c) (faults c), Ok ())
       ∧ table d' = table d ++ [mkRow (staged_row e payload ct options (next_sequence d) (session_now c))
                                  (session_now c)].
Proof.
  intros Ha Hf Hr Hd Hv Hseq. unfold insert_into_outbox. rewrite statement_runs, Hr, Hd by done.
  case_bool_decide as Hid; [by rewrite insert_row_duplicate|].
  destruct (insert_row_fresh e payload ct options (session_now c) (λ _, false) d Hv Hseq Hid) as (d' & -> & Ht).
  by exists d'.
Qed.

End facts.

(** ** A concrete session *)

(** A path is a comma-separated list of names, quoted or folded to lower case. *)
Definition path_name (piece : string) : string :=
  match piece with
  | String a s => if byte_val a =? 34 then str_take (String.length s - 1) s else to_ascii_lowercase piece
  | EmptyString => EmptyString
  end.
Definition plain_path : SearchPath := λ path has,
  match filter (λ s, has s = true) (path_name <$> split (byte_of 44) path) with
  | s :: _ => Some s
  | [] => None
  end.

#[local] Existing Instances plain_json plain_postgres default_time_range plain_path.

Definition app_session : Session := mkSession {["reliar" := sample_db]} "app" 200 false [].
Definition app_settings : PostgresOutboxSettings.t :=
  PostgresOutboxSettings.with_enqueue_sets_search_path true PostgresOutboxSettings.default.
Definition same_bytes (b : Bytes) : result Bytes Empty_set := Ok b.


(** The restoring [set_config] fails: the row is in, and the transaction is lost. *)
Lemma enqueue_atomic_witness :
  let c := mkSession {["reliar" := sample_db]} "app" 200 false [None; None; None; Some OtherError] in
  aborted (enqueue_with app_settings same_bytes ContentType.JSON (order_envelope 9)
             EnqueueOptions_default c).1 = true.
Proof.
  cbn zeta.
  pose proof (enqueue_atomic app_settings same_bytes ContentType.JSON (order_envelope 9)
    EnqueueOptions_default (mkSession {["reliar" := sample_db]} "app" 200 false
      [None; None; None; Some OtherError]) eq_refl) as Hs.
  assert (Hr : (enqueue_with app_settings same_bytes ContentType.JSON (order_envelope 9)
    EnqueueOptions_default (mkSession {["reliar" := sample_db]} "app" 200 false
      [None; None; None; Some OtherError])).2 = Err (EnqueueError.Database OtherError))
    by (vm_compute; reflexivity).
  destruct (enqueue_with _ _ _ _ _ _) as [c' r]. cbn [snd] in Hr. subst r. exact Hs.
Defined.
