(* ===== verification/PgDivergences.v ===== *)
(** * Where the Postgres provider parts ways with its docs ([reliar-store-postgres])

    Concrete runs, evaluated by the kernel: settings the code accepts and cannot honour, and
    the one boundary at which the provider and the fake it is tested beside disagree. *)

From S2P Require Import Prelude RustString RustFmt CoreTypes CoreHeaders CoreEnvelope OutboxTypes OutboxSettings MemStore StoreInterface PgErrors PgRecords PgRoundtrip PgTable PgStore PgTableInv PgStoreInv PgStoreThms PgEnqueue.

#[local] Existing Instances plain_json plain_postgres default_time_range plain_path.

(** ** The schema's name *)

(** A schema name with capitals is valid, and a pool whose path quotes it connects; the path
    [enqueue] sets does not quote it, so the table is not found. *)
Definition shop_session : Session :=
  mkSession {["Shop" := sample_db]} (String (byte_of 34) ("Shop" +:+ String (byte_of 34) ",public")) 200 false [].
Definition shop_settings : PostgresOutboxSettings.t :=
  PostgresOutboxSettings.with_schema "Shop" app_settings.

Lemma capital_schema_is_not_found :
  (connect shop_settings shop_session).2 = Ok shop_settings
  ∧ (enqueue_with shop_settings same_bytes ContentType.JSON (order_envelope 9)
       EnqueueOptions_default shop_session).2 = Err (EnqueueError.Database undefined_table).
Proof. split; vm_compute; reflexivity. Qed.

(** ** The statement timeout *)

Definition sample_items : list CompletedMessage.t :=
  [CompletedMessage.new (MessageRef.new (MessageId.from_uuid 3) 9)].

(** [statement_timeout] is an [integer] of milliseconds: one past it is refused, and with it
    every operation fails, permanently. *)
Definition long_timeout : PostgresOutboxSettings.t :=
  PostgresOutboxSettings.with_statement_timeout (from_millis (I32_MAX + 1)) PostgresOutboxSettings.default.

Lemma oversized_timeout_fails_every_call :
  (PostgresOutboxStore.stats quiet long_timeout sample_pg).2
    = Answered (Err (Database invalid_parameter_value))
  ∧ (PostgresOutboxStore.complete quiet long_timeout (WorkerId.mk "w2") sample_items sample_pg).2
    = Answered (Err (Database invalid_parameter_value))
  ∧ kind (Database invalid_parameter_value) = Permanent.
Proof. split_and!; vm_compute; reflexivity. Qed.

(** A day for every statement: a millisecond's timeout cancels it, half a millisecond's is
    written as zero, which is none. *)
Definition slow : nat → Step := λ _, mkStep 100 (from_secs 86400) id (λ _, false) Runs.
Definition timeout_of (d : Duration) : PostgresOutboxSettings.t :=
  PostgresOutboxSettings.with_statement_timeout d PostgresOutboxSettings.default.

Lemma submillisecond_timeout_is_none :
  (PostgresOutboxStore.complete slow (timeout_of (from_millis 1)) (WorkerId.mk "w2") sample_items sample_pg).2
    = Answered (Err (Database query_canceled))
  ∧ (PostgresOutboxStore.complete slow (timeout_of 500000) (WorkerId.mk "w2") sample_items sample_pg).2
    = Answered (Ok 1).
Proof. split; vm_compute; reflexivity. Qed.

(** ** What a refused row quotes *)

(** The reason a row cannot be decoded, kept as its [last_error], holds the bytes of the
    column that could not be read. *)
Definition leaky_row : RawRow :=
  set_dead (Some 50) (Some "card 4111") (order_row 1).

Lemma decode_detail_quotes_the_column :
  decode_row leaky_row
  = Err (mkRowError (MessageId.from_uuid (r_id leaky_row)) (r_sequence leaky_row)
           ("unknown dead_reason " +:+ QUOTE +:+ "card 4111" +:+ QUOTE)).
Proof. vm_compute. reflexivity. Qed.

(** ** The instant of expiry *)

(** At [expires_at] itself neither store hands the message out; the fake counts and sweeps
    it, Postgres does neither. *)
Definition expiring_row : Row :=
  let r := order_row 1 in
  mkRow (mkRaw (r_id r) (r_sequence r) (r_message_type r) (r_message_version r) (r_correlation_id r)
    (r_conversation_id r) (r_causation_id r) (r_request_id r) (r_content_type r) (r_payload r)
    (r_tenant_id r) (Some 100) (r_ordering_key r) (r_metadata r) (r_headers r)
    (r_metadata_version r) (r_created_at r) (r_available_at r) (r_attempts r) (r_locked_by r) (r_locked_until r)
    (r_published_at r) (r_dead_at r) (r_dead_reason r) (r_last_error r)) 9.
Definition expiring_pg : Pg := mkPg (mkDb [expiring_row] 2 eq_refl) None 0 0.
Definition expiring_mem : Inner := mkInner (omap decoded [raw expiring_row]) 2 100 0 0 0 0 0 0 0 0.

Lemma expiry_boundary_differs :
  (PostgresOutboxStore.purge quiet PostgresOutboxSettings.default PurgeRequest.default expiring_pg).2
    = Answered (Ok (PurgeReport.new 0 0 0))
  ∧ (try_purge PurgeRequest.default expiring_mem).2 = Some (Ok (PurgeReport.new 0 0 1))
  ∧ (PostgresOutboxStore.stats quiet PostgresOutboxSettings.default expiring_pg).2
    = Answered (Ok (OutboxStats.new 0 0 0 None 100))
  ∧ (try_stats expiring_mem).2 = Some (Ok (OutboxStats.new 0 0 1 None 100)).
Proof. split_and!; vm_compute; reflexivity. Qed.
